(* ===== verification/_CoqProject ===== *)
-Q . S2P
Prelude.v
IndexedHeap.v
Context.v
FifoQueue.v
PoolCore.v
PoolControl.v
PoolTasks.v
PoolTheorems.v
TaskPool.v
PrioQueue.v
PriorityTaskPool.v
DelayPool.v
DelayTheorems.v
DelayCancellation.v
DelayWakeups.v
DelayPromises.v
DelayFence.v
RotatingMap.v
JoinStorage.v
JoinInvariants.v
JoinRefinement.v
JoinLedger.v
JoinExpiry.v
JoinTheorems.v
JoinOperators.v
Monitor.v
CountWord.v
ContextGate.v
RequestAdmission.v
ExecutionRuntime.v
Lifecycle.v
LifecycleTheorems.v
ServiceApp.v
ServiceAppTheorems.v
RuntimeConfig.v
RuntimeConfigTheorems.v
ConfigMerge.v
ConfigLoader.v
ConfigLoaderTheorems.v
ServiceApi.v
ConfigYaml.v
LinkTypes.v
StreamTypes.v
EndpointTypes.v
ConnectorTypes.v
ServiceTypes.v
ConfigTypes.v
ConfigTypesTheorems.v
Caller.v
CallerTheorems.v
Streams.v
StreamsTheorems.v
StreamsSchedule.v
SubStream.v
SubStreamTheorems.v
Topology.v
TopologyTheorems.v
LocalSource.v
LocalSourceTheorems.v
NetSource.v
NetSourceTheorems.v
SinkSession.v
SinkSessionTheorems.v
Schedule.v
ScheduleTheorems.v
CronSource.v
CronSourceTheorems.v
SerdeWire.v
SerdeTypes.v
SerdeContainers.v
SerdeDefaults.v
SerdeTheorems.v
