(* ===== verification/Prelude.v ===== *)
(** * ServiceLib runtime: a verification development

    ServiceLib (src/include/servicelib) runs stream services on userver coroutines.  This
    library models the parts of its runtime that carry state, concurrency and data formats
    of their own, and proves what they promise to the code that uses them.

    ** Parts of the program and the files that model them

    - Messages carry a [Context] (runtime/context.hpp): cancellation, deadline, priority,
      trace and local values behind copy-on-write pointers.  [Context.v]: the state records,
      every observer and [with...] function; Module [Cow] models the shared states.
    - [TaskPoolImpl] (runtime/pool/taskpool.hpp) executes callbacks on a set of executor
      coroutines that a manager coroutine grows and shrinks.  [FifoQueue.v] (Module [Fifo])
      is its linked queue with the deadline heap, as a store with explicit links;
      [IndexedHeap.v] the binary heap with back pointers that both pools write out by hand;
      [PoolCore.v] the lifecycle, admission, cancellation watches, executors and manager as
      transitions on one record of the fields, against the class [PoolQueue] of what a queue
      promises; [PoolControl.v] and [PoolTasks.v] the invariants of control and of tasks;
      [PoolTheorems.v] the statements; [TaskPool.v] the instance for the linked queue.
    - [PriorityTaskPoolImpl] (runtime/pool/prioritytaskpool.hpp) differs in its queue, two
      heaps: [PrioQueue.v] (Module [Prio]), and [PriorityTaskPool.v], the second instance.
    - [DelayPoolImpl] (runtime/pool/delaypool.hpp) runs callbacks after a delay.
      [DelayPool.v] (Module [Delay]) has start, stop, delay, the scheduler, the cancellation
      inbox and the callback coroutines; [DelayTheorems.v], [DelayCancellation.v] and
      [DelayWakeups.v] (the scheduler is woken) their invariants, [DelayPromises.v] the statements; [DelayFence.v] (Module [Fence]) looks at
      one handshake of the pool over a store buffer.
    - [RotatingMap] (runtime/store/rotatingmap.hpp) is a sharded map that gives memory back:
      [RotatingMap.v] (Module [Rotating]).
    - [HashMapJoinStorage] (runtime/store/hashmap.hpp) keeps the values of a key until they
      are complete or expire: [JoinStorage.v] (Module [Join]) has joinValue, the expiry
      coroutines, the stop callbacks, the rotation, start and stop; [JoinInvariants.v] the
      invariants of maps, locks and lifecycle, [JoinRefinement.v] the specification and the
      simulation, [JoinLedger.v] an observer of the calls and the joins they account for,
      [JoinExpiry.v] the invariant of the timers, [JoinTheorems.v] the statements.
    - The join operators (operators/join.inl, multijoin.inl) feed that storage with type-erased
      values and a callback: [JoinOperators.v] (Module [Operators]), composed with the model of
      the storage.
    - Waiting (runtime/detail/context_wait.hpp): [Monitor.v] (Module [Monitor]) is a mutex with a condition
      variable, any number of threads and the wait that a context can end ([WaitWithContext]); a
      component is a client given by its program, and the classes [Exclusive] and [Notifies]
      say what it must do for no wakeup to be lost.  Its clients are [ContextGate.v] (Module
      [Gate]), [RequestAdmission.v] (Module [Admission], datasource/detail/request_admission.hpp) and
      [ExecutionRuntime.v] (Module [Runtime], the input invocations and the parallel tasks of
      runtime/environment.hpp); [CountWord.v] (Module [Word]) is the 64-bit word of a count
      and a closed bit that the last two share.
    - [ServiceLifecycle] and [ServiceApp] (runtime/serviceapp.hpp) start and stop components in
      the order of their kinds: [Lifecycle.v] (Module [Life]) and [LifecycleTheorems.v];
      [ServiceApp.v] (Module [App]), over the lifecycle and the phases of the execution
      runtime, and [ServiceAppTheorems.v].
    - Configuration (runtime/config): [RuntimeConfig.v] (Module [Config]) the indexes of an
      accepted configuration and [RuntimeConfigTheorems.v] what they hold; [ConfigMerge.v]
      (Module [Merge]) the merge of an override, over the class [Yaml] of what the code uses of
      YAML values; [ConfigLoader.v] (Module [Loader]) loading, polling and publication, and
      [ConfigLoaderTheorems.v].  How a configuration is read: [ServiceApi.v] the enumerations and
      their names (api/serviceapi.hpp, serviceapi_parse.hpp), [ConfigYaml.v] the class [YamlRead]
      of typed reads and what all [Parse] functions share, [LinkTypes.v] links and their call
      semantics, and a Module for each struct with its [Parse] in [StreamTypes.v],
      [EndpointTypes.v], [ConnectorTypes.v] and [ServiceTypes.v]; [ConfigTypes.v] puts the types
      together, [ConfigTypesTheorems.v] has the statements.
    - Callers (runtime/caller.hpp, runtime/environment.hpp) carry a message over an edge:
      [Caller.v] (Module [Callers]), over the configuration and the pools of the service, and
      [CallerTheorems.v].
    - Sub-streams (operators/substream.inl): [SubStream.v] (Module [Sub]) a call as a transition
      system; [SubStreamTheorems.v] the statements.
    - Numbering of the graph (buildTopology of operators/*.inl, stream.hpp and environment.hpp):
      [Topology.v] (Module [Topology]); [TopologyTheorems.v] well-formed graphs, the invariant of
      the walk and the statements.
    - HTTP and gRPC sources (datasource/http, datasource/grpc): [NetSource.v] (Module [Net]) the
      request lifecycle of both endpoints and the four gRPC modes; [NetSourceTheorems.v] the
      statements.
    - Streaming gRPC sinks (datasink/grpc/clientstreaming.hpp, bidistreaming.hpp): [SinkSession.v]
      (Module [Sessions]) the calls that messages of one stream id share, as a transition system;
      [SinkSessionTheorems.v] its invariant and the statements.
    - Stream operators (operators/*.inl): [Streams.v] (Module [Streams]) what each kind of node
      does with a message, over a graph of nodes and callers; [StreamsTheorems.v] dispatch and
      termination, [StreamsSchedule.v] the meaning of a graph and its independence of schedules.
    - The local source (datasource/localsource/custom.hpp) runs requests and waits for their
      results: [LocalSource.v] (Module [Local]) and [LocalSourceTheorems.v].
    - Schedules (runtime/schedule.hpp, datasource/cron): [Schedule.v] (Modules [Interval],
      [Cron] and [Trigger]) and [ScheduleTheorems.v].
    - The cron source (datasource/cron/libcron.hpp, libcron.cpp) starts executions when they are
      due: [CronSource.v] (Module [CronSource]) endpoints, ticker, executions and stop as a
      transition system; [CronSourceTheorems.v] its invariant and the statements.
    - Serialization (runtime/serde/serde.hpp, serdeimpl.hpp): [SerdeWire.v] (Module [Wire]) the
      bytes, the writers and the bounded [Reader]; [SerdeTypes.v] (Module [Types]) the
      interface and the scalar, string and byte serdes; [SerdeContainers.v] (Module
      [Containers]) arrays, maps and pairs; [SerdeDefaults.v] (Module [Defaults]) the default
      factories as a recursion on types and the type-erased interface; [SerdeTheorems.v] the
      statements.

    ** How the code is modelled

    A class is a record of its fields; a member function that runs without a scheduling
    point is one function on that record, and one that can be interrupted (it takes a lock
    again, waits, spawns or calls out) is a step function on its program counter.  A run is
    any interleaving of such steps, with the environment (clock, stop sources, files, whether an
    allocation succeeds, the outcome of a user callback) chosen freely at each step.  Ghost
    fields record what was accepted and executed; no guard reads them.  Memory is sequentially
    consistent in the transition systems; where the code uses weaker orderings on purpose,
    [DelayFence.v] repeats the accesses over a store buffer.  64-bit counters and clock
    arithmetic keep their width where the code depends on it (saturated sums, arrival
    numbers, sizes, encodings, statistics); the words of [CountWord.v] assume fewer than 2^63
    threads, the schedules time points that fit [int64_t] nanoseconds.  Exceptions are values
    of [result].

    Loops without a structural measure run on fuel: the sifts of the heaps get the size of
    the heap, the promotion of expired tasks the size of the deadline heap, a merge the depth
    of the override, the numbering of a graph three visits for each node, and the lemmas show
    that this is enough (the result is the one of the unbounded loop).  A poll of the configuration makes at most seven accesses.

    ** What is proved

    - Pools: when stop has finished, every accepted task has been executed exactly once and
      nothing is left behind; at every moment an accepted task is in exactly one place; no
      admission after the end; the lifecycle only moves forward; executor accounting and
      ceiling; what start reports; which task an executor takes next, in both pools, against
      a list specification; the handwritten heap operations refine the generic heap.
    - Delay pool: the same drain and exactly-once statements, timers never fire early, no
      cancellation is lost and the scheduler never sleeps past one under sequential consistency,
      and one is lost without it.
    - Stores: the rotating map answers as one finite map; its rotation policy; its timer ends.
    - Join storage: under every interleaving it is a map of joined values, and the joins are those
      of the calls that returned; each expiration is delivered once; sizes and rotation; what stop leaves; every item with a deadline has a
      coroutine that will expire it, none expires early, and one kind of item never does.
    - Join operators: over every run of the storage the user's function sees exactly the
      windows of values its kind of join admits, and no cast of an erased value throws.
    - Contexts: a handle never sees a write made through another handle.
    - Waiting: a gate grants one lease at a time; a stopped admission has no lease out and
      grants none; a runtime that was started and drained has nothing under way (without a
      successful start a drain promises nothing); no wakeup of the first two is lost,
      and one of the runtime's is.
    - Services: every component that was started is stopped once, in the order of the kinds; a
      service that says it is stopped is; sinks outlive the graph; the pools that the
      configuration names are there.
    - Configuration: which configurations are accepted and what the look-ups answer; what a
      merged configuration says on every path; a component serves an accepted configuration
      whatever happens to its files, and converges to the present override, except for a change
      at one wrong moment, which is lost; what each member and property of every configuration
      type says when it is read, when reading throws, that no key is lost or confused, and what
      an override changes; which links are valid; one name for each enumerator.
    - Callers: every edge gets the caller its configuration asks for, once, and counts its
      messages.
    - Streams: a split calls each branch once and gives its message away last; cases select the
      named branch; direct calls end; what reaches the sinks depends neither on which edges are
      asynchronous nor on the order of their tasks.
    - Sub-streams: the collector is called by one delivery at a time, never after its last answer
      or the return of the call; a closed call returns under every schedule, woken by whoever
      closed it.
    - Topology: the numbering ends, gives every node it reaches an id of its own and prepares its
      callers, as wiring did for configured streams; the error streams of processes and sinks are not reached.
    - HTTP and gRPC sources: one end for each begun request, no callback after it, requests with
      one stream id do not disturb each other; what is reported; a stopped endpoint is drained.
    - Streaming gRPC sinks: one open call for each stream id; no message beside or after its end,
      which comes once; no message and no end waits for ever on another; a call whose task
      cannot be started is never ended.
    - Local source: one end for each begun request and no callback after it; which error is
      reported; slots; a colliding stream id loses the result of another request.
    - Schedules: intervals stay on their grid; timestamps and trigger identities determine what
      they stand for; intervals and cron expressions are parsed exactly.
    - Cron source: a stopped source has nothing left; one execution at a time where overlaps are
      skipped; a stop waits for nothing but executions under way, and no end of one is missed;
      which occurrences count as missed.
    - Serialization: round trips for every default serde, order of the encodings, exact
      behaviour on arbitrary input for scalars, fixed arrays and maps, limits on every level,
      which types resolve, and two defects.

    ** Not modelled

    userver itself (tasks, mutexes and condition variables are their documented behaviour);
    metrics beyond the counters the code branches on, logging and tracing output; status
    pages; Kafka sources and the other sinks, headers and metadata of requests, which are calls
    of third-party libraries; YAML parsing and the conversions of YAML values, the evaluation of
    cron expressions (libcron) and hashing (their results are parameters); the code generated
    for a user's graph and the printers of the graph.

    ** Plan

    Next: the request lifecycle of the Kafka endpoints and of the other sinks, and liveness of stop
    (that a drained pool can always take another step towards kStopped).

    This file holds the vocabulary the other files share: results, tactics, machine integers,
    lists and counting over tables. *)
From Stdlib Require Import ZArith Lia.
From stdpp Require Export gmap sorting list prelude.

(** ** Results of fallible operations

    A C++ function that may throw is a function into [result E A]: [Ok] is a
    normal return, [Err e] an exception of class [e]. *)
Inductive result (E A : Type) : Type :=
  | Ok (a : A)
  | Err (e : E).
Arguments Ok {E A} a.
Arguments Err {E A} e.

Definition rbind {E A B} (m : result E A) (k : A -> result E B) : result E B :=
  match m with
  | Ok a => k a
  | Err e => Err e
  end.

Declare Scope result_scope.
Delimit Scope result_scope with result.
Notation "'let?' x := m 'in' k" := (rbind m (fun x => k))
  (at level 10, x pattern, k at level 200) : result_scope.

Lemma rbind_assoc {E A B C} (m : result E A) (f : A -> result E B)
    (g : B -> result E C) :
  rbind (rbind m f) g = rbind m (fun a => rbind (f a) g).
Proof. by destruct m. Qed.

Lemma rbind_Ok_inv {E A B} (m : result E A) (f : A -> result E B) b :
  rbind m f = Ok b -> exists a, m = Ok a /\ f a = Ok b.
Proof. destruct m; simpl; [eauto|done]. Qed.

(** Successive writes, in the order of the code. *)
Notation "x |> f" := (f x) (at level 50, left associativity, only parsing).

(** ** Tactics *)

(** Turn every boolean test of the context into the proposition it decides. *)
Ltac bool_to_prop :=
  repeat match goal with
  | H : (_ && _)%bool = true |- _ => apply andb_prop in H; destruct H
  | H : (_ || _)%bool = false |- _ => apply orb_false_elim in H; destruct H
  | H : negb _ = true |- _ => apply negb_true_iff in H
  | H : negb _ = false |- _ => apply negb_false_iff in H
  | H : Z.ltb _ _ = true |- _ => apply Z.ltb_lt in H
  | H : Z.ltb _ _ = false |- _ => apply Z.ltb_ge in H
  | H : Z.leb _ _ = true |- _ => apply Z.leb_le in H
  | H : Z.leb _ _ = false |- _ => apply Z.leb_gt in H
  | H : Z.eqb _ _ = true |- _ => apply Z.eqb_eq in H
  | H : Z.eqb _ _ = false |- _ => apply Z.eqb_neq in H
  | H : Nat.ltb _ _ = true |- _ => apply Nat.ltb_lt in H
  | H : Nat.ltb _ _ = false |- _ => apply Nat.ltb_ge in H
  | H : Nat.leb _ _ = true |- _ => apply Nat.leb_le in H
  | H : Nat.leb _ _ = false |- _ => apply Nat.leb_gt in H
  | H : Nat.eqb _ _ = true |- _ => apply Nat.eqb_eq in H
  | H : Nat.eqb _ _ = false |- _ => apply Nat.eqb_neq in H
  | H : bool_decide _ = true |- _ => apply bool_decide_eq_true_1 in H
  | H : bool_decide _ = false |- _ => apply bool_decide_eq_false_1 in H
  end.

(** Case on the innermost [if] or [match] of the goal, keeping the equation. *)
Ltac split_case :=
  match goal with
  | |- context [if ?b then _ else _] => destruct b eqn:?
  | |- context [match ?x with _ => _ end] => destruct x eqn:?
  end.

(** The same on a hypothesis. *)
Ltac split_case_in H :=
  match type of H with
  | context [if ?b then _ else _] => destruct b eqn:?
  | context [match ?x with _ => _ end] => destruct x eqn:?
  end.

(** ** Machine integers and the steady clock

    [std::chrono::steady_clock::time_point] and [duration] are 64-bit signed
    counts of nanoseconds. *)
Definition int64_min : Z := (- 2 ^ 63)%Z.
Definition int64_max : Z := (2 ^ 63 - 1)%Z.
Definition int32_min : Z := (- 2 ^ 31)%Z.
Definition size_max : Z := (2 ^ 64 - 1)%Z.
Definition in_int64 (z : Z) : Prop := (int64_min <= z <= int64_max)%Z.
Definition in_size (z : Z) : Prop := (0 <= z <= size_max)%Z.

(** A deadline: [std::optional<time_point>]. *)
Abbreviation Deadline := (option Z).

(** [d.has_value() && *d <= now]. *)
Definition deadline_reached (d : Deadline) (now : Z) : bool :=
  match d with
  | Some t => (t <=? now)%Z
  | None => false
  end.

(** ** Lists *)
Section Lists.
Context {A : Type} `{EqDecision A}.

(** The list without its element [k]. *)
Definition without (k : A) (l : list A) : list A :=
  filter (fun x => x <> k) l.

Lemma without_not_elem k (l : list A) : k ∉ l -> without k l = l.
Proof.
  unfold without. induction l as [|x l IH]; [done|].
  intros [Hx Hl]%not_elem_of_cons.
  rewrite filter_cons_True by congruence. by rewrite IH.
Qed.

Lemma without_app k (l1 l2 : list A) :
  without k (l1 ++ l2) = without k l1 ++ without k l2.
Proof. apply filter_app. Qed.

Lemma without_cons_eq k (l : list A) : without k (k :: l) = without k l.
Proof. unfold without. by rewrite filter_cons_False by (intros []; done). Qed.

Lemma elem_of_without x k (l : list A) : x ∈ without k l <-> x <> k /\ x ∈ l.
Proof. unfold without. by rewrite list_elem_of_filter. Qed.

Lemma NoDup_without k (l : list A) : NoDup l -> NoDup (without k l).
Proof. apply NoDup_filter. Qed.

Lemma without_split k (l1 l2 : list A) :
  NoDup (l1 ++ k :: l2) -> without k (l1 ++ k :: l2) = l1 ++ l2.
Proof.
  intros (Hl1 & Hd & [Hk Hl2]%NoDup_cons)%NoDup_app.
  rewrite without_app, without_cons_eq, !without_not_elem; try done.
  intros ?. eapply Hd; [done|]. left.
Qed.

Lemma without_perm k (l : list A) :
  NoDup l -> k ∈ l -> l ≡ₚ k :: without k l.
Proof.
  intros Hnd (l1 & l2 & ->)%list_elem_of_split.
  rewrite without_split by done. by rewrite Permutation_middle.
Qed.
End Lists.

Section TableScope.
Local Open Scope Z_scope.
(** ** Counting over a table

    [tally f m] collects [f v] over the values [v] of the map [m], in no particular
    order; [count P m] is the number of values that satisfy [P]. *)
Section Table.
Context {V : Type}.
Implicit Types (m : gmap nat V) (u v : V).

Definition tally {A} (f : V -> list A) m : list A := map_to_list m ≫= (fun kv => f kv.2).

Lemma tally_delete {A} (f : V -> list A) m x u :
  m !! x = Some u -> tally f m ≡ₚ f u ++ tally f (delete x m).
Proof. intros Hx. unfold tally. by rewrite <- (map_to_list_delete _ _ _ Hx). Qed.

Lemma tally_insert {A} (f : V -> list A) m x v :
  tally f (<[x := v]> m) ≡ₚ f v ++ tally f (delete x m).
Proof.
  rewrite (tally_delete f (<[x := v]> m) x v) by apply lookup_insert_eq.
  by rewrite delete_insert_eq.
Qed.

Lemma tally_new {A} (f : V -> list A) m x v :
  m !! x = None -> tally f (<[x := v]> m) ≡ₚ f v ++ tally f m.
Proof. intros Hx. by rewrite tally_insert, delete_id. Qed.

Lemma tally_empty {A} (f : V -> list A) : tally f ∅ = [].
Proof. reflexivity. Qed.

Lemma elem_of_tally {A} (f : V -> list A) m a :
  a ∈ tally f m <-> exists x u, m !! x = Some u /\ a ∈ f u.
Proof.
  unfold tally. rewrite list_elem_of_bind. split.
  - intros ([x u] & Ha & Hx). apply elem_of_map_to_list in Hx. eauto.
  - intros (x & u & Hx & Ha). exists (x, u). split; [done|]. by apply elem_of_map_to_list.
Qed.

Definition mark (P : V -> bool) (u : V) : list unit := if P u then [tt] else [].
Definition count (P : V -> bool) m : Z := Z.of_nat (length (tally (mark P) m)).

Lemma count_update P m x u v :
  m !! x = Some u ->
  count P (<[x := v]> m) = count P m - Z.b2z (P u) + Z.b2z (P v).
Proof.
  intros Hx. unfold count. rewrite (tally_insert _ m x v), (tally_delete _ m x u Hx), !length_app.
  unfold mark. destruct (P u), (P v); simpl; lia.
Qed.

Lemma count_new P m x v : m !! x = None -> count P (<[x := v]> m) = count P m + Z.b2z (P v).
Proof.
  intros Hx. unfold count. rewrite (tally_new _ m x v Hx), length_app.
  unfold mark. destruct (P v); simpl; lia.
Qed.

Lemma count_nonneg P m : 0 <= count P m.
Proof. unfold count. lia. Qed.

Lemma count_pos P m : 1 <= count P m <-> exists x u, m !! x = Some u /\ P u = true.
Proof.
  unfold count. split.
  - intros Hc. destruct (tally (mark P) m) as [|[] l] eqn:E; [simpl in Hc; lia|].
    assert (Hin : tt ∈ tally (mark P) m) by (rewrite E; left).
    apply elem_of_tally in Hin as (x & u & Hx & Hu). exists x, u. split; [done|].
    unfold mark in Hu. destruct (P u); [done|]. by apply elem_of_nil in Hu.
  - intros (x & u & Hx & Hu). rewrite (tally_delete _ m x u Hx). unfold mark at 1.
    rewrite Hu. simpl. lia.
Qed.

Lemma count_mono P P' m :
  (forall u, P u = true -> P' u = true) -> count P m <= count P' m.
Proof.
  intros HP. induction m as [|x u m Hx IH] using map_ind; [done|].
  rewrite !count_new by done. specialize (HP u).
  destruct (P u), (P' u); simpl; try lia; by specialize (HP eq_refl).
Qed.
End Table.
End TableScope.

(** ** One element of a list changes *)
Lemma lookup_alter_req {A} (l : list A) f r q r' :
  l !! r = Some q -> alter f r l !! r' = if decide (r = r') then Some (f q) else l !! r'.
Proof.
  intros Hq. destruct (decide (r = r')) as [<-|Hne]; [by rewrite list_lookup_alter_eq, Hq|by rewrite list_lookup_alter_ne].
Qed.
Lemma alter_insert {A} (l : list A) f r q : l !! r = Some q -> alter f r l = <[r := f q]> l.
Proof.
  intros Hq. apply list_eq. intros r'. rewrite (lookup_alter_req _ _ _ q) by done. destruct (decide (r = r')) as [<-|Hne].
  - rewrite list_lookup_insert_eq; [done|]. by eapply lookup_lt_Some.
  - by rewrite list_lookup_insert_ne.
Qed.

(** ** Hints

    [runtime] collects the lemmas that close the routine side conditions of the
    components: membership in updated lists, permutations, live objects. *)
Create HintDb runtime.
#[export] Hint Resolve NoDup_without : runtime.
