(* ===== verification/IndexedHeap.v ===== *)
(** * The intrusive binary min-heap of the pools

    [TaskPoolImpl] and [PriorityTaskPoolImpl] keep their deadlines in a
    [std::vector<std::shared_ptr<Task>>] ordered as a binary min-heap, where every
    task stores its own position in the vector ([deadlineIndex]); the priority
    pool keeps its run queue in a second heap of the same kind
    ([priorityIndex]).  This file has the heap once, over a store of tasks:
    [HeapStore] is what the heap needs from the task objects (a comparison and
    the position field), [HeapStoreLaws] what it relies on.  The pools provide
    the instances.

    A task pointer is an identifier; the position [kNotInHeap] (the maximal
    [size_t], which no vector index reaches) is [None]. *)
From Stdlib Require Import ZArith Lia.
From S2P Require Import Prelude.

(** What the heap reads and writes of a task object. [hs_core] is the part of the
    store that the position field is not in. *)
Class HeapStore (St K Core : Type) := {
  hs_less : St -> K -> K -> bool;
  hs_index : St -> K -> option nat;
  hs_set_index : K -> option nat -> St -> St;
  hs_live : St -> K -> Prop;
  hs_core : St -> Core;
}.

Class HeapStoreLaws (St K Core : Type) {EK : EqDecision K}
    {H : HeapStore St K Core} : Prop := {
  hs_index_set_eq s k i : hs_live s k -> hs_index (hs_set_index k i s) k = i;
  hs_index_set_ne s k k' i :
    k <> k' -> hs_index (hs_set_index k i s) k' = hs_index s k';
  hs_live_set s k k' i : hs_live (hs_set_index k i s) k' <-> hs_live s k';
  hs_live_core s s' k : hs_core s = hs_core s' -> hs_live s k -> hs_live s' k;
  hs_index_live s k i : hs_index s k = Some i -> hs_live s k;
  hs_core_set s k i : hs_core (hs_set_index k i s) = hs_core s;
  hs_less_core s s' a b : hs_core s = hs_core s' -> hs_less s a b = hs_less s' a b;
  hs_less_irrefl s a : hs_less s a a = false;
  hs_less_trans s a b c :
    hs_less s b a = false -> hs_less s c b = false -> hs_less s c a = false;
  hs_less_asym s a b : hs_less s a b = true -> hs_less s b a = false;
}.

(** ** The operations *)
Section Operations.
Context {St K Core : Type} `{HeapStore St K Core}.

(** [std::swap(heap[lhs], heap[rhs])] followed by the two position writes. *)
Definition heap_swap (lhs rhs : nat) (h : list K) (s : St) : list K * St :=
  match h !! lhs, h !! rhs with
  | Some a, Some b =>
      (<[lhs := b]> (<[rhs := a]> h),
       hs_set_index a (Some rhs) (hs_set_index b (Some lhs) s))
  | _, _ => (h, s)
  end.

Definition parent (i : nat) : nat := (i - 1) / 2.

(** The loop of [deadlineHeapSiftUpLocked]; [fuel] bounds its iterations. *)
Fixpoint sift_up_loop (fuel index : nat) (h : list K) (s : St) : list K * St :=
  match fuel with
  | 0 => (h, s)
  | S fuel =>
      if index =? 0 then (h, s)
      else match h !! index, h !! parent index with
           | Some x, Some p =>
               if negb (hs_less s x p) then (h, s)
               else let '(h', s') := heap_swap index (parent index) h s in
                    sift_up_loop fuel (parent index) h' s'
           | _, _ => (h, s)
           end
  end.

Definition sift_up (index : nat) (h : list K) (s : St) : list K * St :=
  sift_up_loop index index h s.

(** The child that [siftDown] compares with: the right one when it exists and is
    strictly smaller than the left one. *)
Definition smallest_child (index : nat) (h : list K) (s : St) : nat :=
  let left := index * 2 + 1 in
  let right := left + 1 in
  match h !! right, h !! left with
  | Some r, Some l => if hs_less s r l then right else left
  | _, _ => left
  end.

(** The loop of [deadlineHeapSiftDownLocked]. *)
Fixpoint sift_down_loop (fuel index : nat) (h : list K) (s : St) : list K * St :=
  match fuel with
  | 0 => (h, s)
  | S fuel =>
      if length h <=? index * 2 + 1 then (h, s)
      else let child := smallest_child index h s in
           match h !! child, h !! index with
           | Some c, Some x =>
               if negb (hs_less s c x) then (h, s)
               else let '(h', s') := heap_swap index child h s in
                    sift_down_loop fuel child h' s'
           | _, _ => (h, s)
           end
  end.

Definition sift_down (index : nat) (h : list K) (s : St) : list K * St :=
  sift_down_loop (length h) index h s.

(** [deadlineHeapPushLocked]. *)
Definition heap_push (k : K) (h : list K) (s : St) : list K * St :=
  let i := length h in
  sift_up i (h ++ [k]) (hs_set_index k (Some i) s).

(** [deadlineHeapRemoveAtLocked]. *)
Definition heap_remove_at (index : nat) (h : list K) (s : St) : list K * St :=
  match h !! index with
  | None => (h, s)
  | Some removed =>
      let last := length h - 1 in
      let '(h1, s1) :=
        if index =? last then (h, s) else heap_swap index last h s in
      let h2 := take (length h1 - 1) h1 in
      let s2 := hs_set_index removed None s1 in
      if length h2 <=? index then (h2, s2)
      else match h2 !! index, h2 !! parent index with
           | Some x, Some p =>
               if negb (index =? 0) && hs_less s2 x p
               then sift_up index h2 s2
               else sift_down index h2 s2
           | _, _ => (h2, s2)
           end
  end.

(** [deadlineHeapRemoveLocked]. *)
Definition heap_remove (k : K) (h : list K) (s : St) : list K * St :=
  match hs_index s k with
  | Some i => heap_remove_at i h s
  | None => (h, s)
  end.
End Operations.

(** ** Invariants *)
Section Invariants.
Context {St K Core : Type} `{HeapStore St K Core}.

(** No task is smaller than the task at its parent slot. *)
Definition heap_ordered (h : list K) (s : St) : Prop :=
  forall i x p, 0 < i -> h !! i = Some x -> h !! parent i = Some p ->
    hs_less s x p = false.

(** The stored positions are exactly the positions in the vector. *)
Definition indexed (h : list K) (s : St) : Prop :=
  forall k i, hs_index s k = Some i <-> h !! i = Some k.

Definition heap_inv (h : list K) (s : St) : Prop :=
  heap_ordered h s /\ indexed h s.

(** Children of slot [i] are not smaller than the parent of [i]. *)
Definition grand_ok (i : nat) (h : list K) (s : St) : Prop :=
  forall c y g, 0 < i -> 0 < c -> parent c = i ->
    h !! c = Some y -> h !! parent i = Some g -> hs_less s y g = false.

(** Ordered, except that slot [i] may be smaller than its parent. *)
Definition weak_up (i : nat) (h : list K) (s : St) : Prop :=
  (forall j x p, 0 < j -> j <> i -> h !! j = Some x ->
    h !! parent j = Some p -> hs_less s x p = false) /\ grand_ok i h s.

(** Ordered, except that slot [i] may be larger than its children. *)
Definition weak_down (i : nat) (h : list K) (s : St) : Prop :=
  (forall j x p, 0 < j -> parent j <> i -> h !! j = Some x ->
    h !! parent j = Some p -> hs_less s x p = false) /\ grand_ok i h s.

(** The heap holds the same tasks and only position fields were written. *)
Definition same_tasks (h : list K) (s : St) (r : list K * St) : Prop :=
  r.1 ≡ₚ h /\ hs_core r.2 = hs_core s /\ indexed r.1 r.2.
End Invariants.

Section Facts.
Context {St K Core : Type} {EK : EqDecision K} {HS : HeapStore St K Core}
  {HL : HeapStoreLaws St K Core}.
Implicit Types (h : list K) (s : St).

Lemma parent_lt i : 0 < i -> parent i < i.
Proof. unfold parent. intros. apply Nat.Div0.div_lt_upper_bound; lia. Qed.

Lemma parent_children i j :
  0 < j -> parent j = i <-> j = i * 2 + 1 \/ j = i * 2 + 1 + 1.
Proof.
  unfold parent. intros Hj.
  pose proof (Nat.div_mod_eq (j - 1) 2).
  pose proof (Nat.mod_upper_bound (j - 1) 2 ltac:(lia)). lia.
Qed.

Lemma indexed_NoDup h s : indexed h s -> NoDup h.
Proof.
  intros Hix. apply NoDup_alt. intros i j k Hi Hj.
  apply Hix in Hi. apply Hix in Hj. congruence.
Qed.

Lemma heap_swap_lookup i j h s a b r :
  h !! i = Some a -> h !! j = Some b ->
  (heap_swap i j h s).1 !! r =
    if decide (r = i) then Some b else if decide (r = j) then Some a else h !! r.
Proof.
  intros Hi Hj. unfold heap_swap. rewrite Hi, Hj. simpl.
  apply lookup_lt_Some in Hi as Hli. apply lookup_lt_Some in Hj as Hlj.
  case_decide; subst.
  - rewrite list_lookup_insert_eq; [done|]. by rewrite length_insert.
  - rewrite list_lookup_insert_ne by done. case_decide; subst.
    + by rewrite list_lookup_insert_eq.
    + by rewrite list_lookup_insert_ne.
Qed.

Lemma heap_swap_length i j h s : length (heap_swap i j h s).1 = length h.
Proof.
  unfold heap_swap. destruct (h !! i), (h !! j); simpl; auto.
  by rewrite !length_insert.
Qed.

Lemma heap_swap_core i j h s : hs_core (heap_swap i j h s).2 = hs_core s.
Proof.
  unfold heap_swap. destruct (h !! i), (h !! j); simpl; auto.
  by rewrite !hs_core_set.
Qed.

Lemma less_core s s' a b b' :
  hs_core s' = hs_core s -> hs_less s a b = b' -> hs_less s' a b = b'.
Proof. intros Hc <-. by apply hs_less_core. Qed.

Lemma heap_swap_indexed i j h s :
  i <> j -> indexed h s -> indexed (heap_swap i j h s).1 (heap_swap i j h s).2.
Proof.
  intros Hij Hix. destruct (h !! i) as [a|] eqn:Ha;
    [|by unfold heap_swap; rewrite Ha].
  destruct (h !! j) as [b|] eqn:Hb; [|by unfold heap_swap; rewrite Ha, Hb].
  assert (a <> b) as Hab.
  { intros ->. apply Hix in Ha, Hb. congruence. }
  intros k r. rewrite (heap_swap_lookup _ _ _ _ _ _ _ Ha Hb).
  unfold heap_swap. rewrite Ha, Hb. simpl.
  assert (hs_live s a) by (eapply hs_index_live, Hix; eauto).
  assert (hs_live s b) by (eapply hs_index_live, Hix; eauto).
  destruct (decide (k = a)) as [->|Hka].
  { rewrite hs_index_set_eq by (by rewrite hs_live_set).
    repeat case_decide; subst; split; intros; simplify_eq; try done.
    exfalso. apply Hix in Ha. apply Hix in H3. congruence. }
  rewrite hs_index_set_ne by done.
  destruct (decide (k = b)) as [->|Hkb].
  { rewrite hs_index_set_eq by done.
    repeat case_decide; subst; split; intros; simplify_eq; try done.
    exfalso. apply Hix in Hb. apply Hix in H3. congruence. }
  rewrite hs_index_set_ne by done. rewrite (Hix k r).
  repeat case_decide; subst; split; intros; simplify_eq; done.
Qed.

Lemma heap_swap_same i j h s :
  i <> j -> indexed h s -> same_tasks h s (heap_swap i j h s).
Proof.
  intros Hij Hix. split_and!; [|apply heap_swap_core|by apply heap_swap_indexed].
  apply NoDup_Permutation.
  - by eapply indexed_NoDup, heap_swap_indexed.
  - by eapply indexed_NoDup.
  - intros x. rewrite !list_elem_of_lookup.
    destruct (h !! i) as [a|] eqn:Ha; [|by unfold heap_swap; rewrite Ha].
    destruct (h !! j) as [b|] eqn:Hb; [|by unfold heap_swap; rewrite Ha, Hb].
    setoid_rewrite (heap_swap_lookup _ _ _ _ _ _ _ Ha Hb). split; intros [r Hr].
    + repeat case_decide; simplify_eq; eauto.
    + destruct (decide (r = i)) as [->|]; [exists j|destruct (decide (r = j)) as [->|];
        [exists i|exists r]]; repeat case_decide; congruence.
Qed.

Lemma same_tasks_refl h s : indexed h s -> same_tasks h s (h, s).
Proof. intros. split; [done|]. by split. Qed.

Lemma same_tasks_trans h s h1 s1 r :
  same_tasks h s (h1, s1) -> same_tasks h1 s1 r -> same_tasks h s r.
Proof.
  intros (Hp & Hc & _) (Hp' & Hc' & Hi'). simpl in *. split_and!; [|congruence|done].
  by rewrite Hp'.
Qed.

(** One iteration of the sift-up loop moves the defect to the parent slot. *)
Lemma weak_up_swap i h s x p :
  0 < i -> h !! i = Some x -> h !! parent i = Some p ->
  hs_less s x p = true -> weak_up i h s ->
  weak_up (parent i) (heap_swap i (parent i) h s).1 (heap_swap i (parent i) h s).2.
Proof.
  intros Hi Hx Hp Hlt [Hord Hgr]. pose proof (parent_lt i Hi).
  apply hs_less_asym in Hlt as Hpx.
  split.
  - intros j y q Hj Hne Hy Hq. eapply less_core; [apply heap_swap_core|].
    rewrite (heap_swap_lookup _ _ _ _ _ _ _ Hx Hp) in Hy.
    rewrite (heap_swap_lookup _ _ _ _ _ _ _ Hx Hp) in Hq.
    pose proof (parent_lt j Hj).
    repeat case_decide; simplify_eq; try lia; eauto.
    eapply hs_less_trans; [done|]. eapply (Hord j); eauto. congruence.
  - intros c y g Hpp Hc Hpar Hy Hg. eapply less_core; [apply heap_swap_core|].
    pose proof (parent_lt (parent i) Hpp).
    rewrite (heap_swap_lookup _ _ _ _ _ _ _ Hx Hp) in Hy.
    rewrite (heap_swap_lookup _ _ _ _ _ _ _ Hx Hp) in Hg.
    pose proof (parent_lt c Hc).
    repeat case_decide; simplify_eq; try lia; eauto.
    assert (hs_less s p g = false) by (eapply (Hord (parent i)); eauto; lia).
    eapply hs_less_trans; [done|]. eapply (Hord c); eauto. congruence.
Qed.

Lemma sift_up_loop_spec fuel i h s :
  i <= fuel -> i < length h -> weak_up i h s -> indexed h s ->
  heap_ordered (sift_up_loop fuel i h s).1 (sift_up_loop fuel i h s).2 /\
  same_tasks h s (sift_up_loop fuel i h s).
Proof.
  revert i h s. induction fuel as [|fuel IH]; intros i h s Hf Hlt Hw Hix; simpl.
  { destruct Hw as [Hord _]. split; [|by apply same_tasks_refl].
    intros j x p ???. eapply Hord; eauto. lia. }
  destruct (Nat.eqb_spec i 0) as [->|Hi].
  { destruct Hw as [Hord _]. split; [|by apply same_tasks_refl].
    intros j x p ???. eapply Hord; eauto. lia. }
  pose proof (parent_lt i ltac:(lia)).
  destruct (lookup_lt_is_Some_2 h i Hlt) as [x Hx]. rewrite Hx.
  destruct (lookup_lt_is_Some_2 h (parent i) ltac:(lia)) as [p Hp]. rewrite Hp.
  destruct (hs_less s x p) eqn:Hl; simpl.
  - assert (i <> parent i) as Hne by lia.
    pose proof (heap_swap_same i (parent i) h s Hne Hix) as Hsame.
    pose proof (weak_up_swap i h s x p ltac:(lia) Hx Hp Hl Hw) as Hw'.
    pose proof (heap_swap_length i (parent i) h s) as Hlen.
    destruct (heap_swap i (parent i) h s) as [h' s']; simpl in *.
    destruct (IH (parent i) h' s') as [Ho Hs]; try done; try lia; [apply Hsame|].
    split; [done|]. by eapply same_tasks_trans.
  - split; [|by apply same_tasks_refl]. destruct Hw as [Hord _].
    intros j y q Hj Hy Hq. destruct (decide (j = i)) as [->|]; [congruence|].
    by eapply Hord.
Qed.

(** Fuel: the slot index strictly decreases, so [i] iterations are enough and
    more fuel changes nothing. *)
Lemma sift_up_loop_fuel fuel i h s :
  i <= fuel -> sift_up_loop fuel i h s = sift_up i h s.
Proof.
  unfold sift_up. revert fuel h s.
  induction i as [i IH] using lt_wf_ind; intros fuel h s Hf.
  destruct (decide (i = 0)) as [->|]; [by destruct fuel|].
  destruct fuel as [|fuel]; [lia|]. destruct i as [|i']; [lia|].
  cbn [sift_up_loop]. simpl Nat.eqb. cbv iota.
  pose proof (parent_lt (S i') ltac:(lia)).
  destruct (h !! S i'), (h !! parent (S i')); try done.
  destruct (negb _); [done|]. destruct (heap_swap _ _ _ _) as [h' s'].
  rewrite IH by lia. by rewrite (IH (parent (S i')) ltac:(lia) i' h' s') by lia.
Qed.

Lemma smallest_child_spec i h s :
  i * 2 + 1 < length h ->
  (smallest_child i h s = i * 2 + 1 \/ smallest_child i h s = i * 2 + 1 + 1) /\
  exists c, h !! smallest_child i h s = Some c /\
    forall j y, 0 < j -> parent j = i -> h !! j = Some y -> hs_less s y c = false.
Proof.
  intros Hlt. unfold smallest_child.
  destruct (lookup_lt_is_Some_2 h _ Hlt) as [l Hl]. rewrite Hl.
  destruct (h !! (i * 2 + 1 + 1)) as [r|] eqn:Hr.
  - destruct (hs_less s r l) eqn:Hrl; (split; [auto|]).
    + exists r. split; [done|]. intros j y Hj [->| ->]%parent_children Hy; try done.
      * simplify_eq. by apply hs_less_asym.
      * simplify_eq. apply hs_less_irrefl.
    + exists l. split; [done|]. intros j y Hj [->| ->]%parent_children Hy; try done.
      * simplify_eq. apply hs_less_irrefl.
      * by simplify_eq.
  - split; [auto|]. exists l. split; [done|].
    intros j y Hj [->| ->]%parent_children Hy; try done; simplify_eq.
    apply hs_less_irrefl.
Qed.

Lemma weak_down_swap i h s x c :
  i * 2 + 1 < length h -> h !! i = Some x -> h !! smallest_child i h s = Some c ->
  hs_less s c x = true -> weak_down i h s ->
  weak_down (smallest_child i h s) (heap_swap i (smallest_child i h s) h s).1
    (heap_swap i (smallest_child i h s) h s).2.
Proof.
  intros Hlt Hx Hc Hl [Hord Hgr].
  destruct (smallest_child_spec i h s Hlt) as (Hch & c' & Hc' & Hmin).
  simplify_eq. apply hs_less_asym in Hl as Hxc.
  set (ch := smallest_child i h s) in *.
  assert (parent ch = i) as Hpch by (apply parent_children; lia).
  assert (0 < ch /\ i < ch) as [Hch0 Hich] by lia.
  split.
  - intros j y q Hj Hpj Hy Hq. eapply less_core; [apply heap_swap_core|].
    rewrite (heap_swap_lookup _ _ _ _ _ _ _ Hx Hc) in Hy.
    rewrite (heap_swap_lookup _ _ _ _ _ _ _ Hx Hc) in Hq.
    pose proof (parent_lt j Hj).
    repeat case_decide; simplify_eq; try lia; eauto.
  - intros d y g _ Hd Hpd Hy Hg. eapply less_core; [apply heap_swap_core|].
    rewrite (heap_swap_lookup _ _ _ _ _ _ _ Hx Hc) in Hy.
    rewrite (heap_swap_lookup _ _ _ _ _ _ _ Hx Hc) in Hg.
    pose proof (parent_lt d Hd).
    repeat case_decide; simplify_eq; try lia.
    eapply (Hord d); [done|lia|done|by rewrite Hpd].
Qed.

Lemma sift_down_loop_spec fuel i h s :
  length h <= fuel + i -> i < length h -> weak_down i h s -> indexed h s ->
  heap_ordered (sift_down_loop fuel i h s).1 (sift_down_loop fuel i h s).2 /\
  same_tasks h s (sift_down_loop fuel i h s).
Proof.
  revert i h s. induction fuel as [|fuel IH]; intros i h s Hf Hlt Hw Hix; simpl; [lia|].
  destruct (Nat.leb_spec (length h) (i * 2 + 1)) as [Hge|Hch].
  { split; [|by apply same_tasks_refl]. destruct Hw as [Hord _].
    intros j x p Hj Hx Hp. eapply Hord; eauto. intros Hpj%parent_children; [|done].
    apply lookup_lt_Some in Hx. simpl in Hx. lia. }
  destruct (smallest_child_spec i h s Hch) as (Hcs & c & Hc & Hmin).
  rewrite Hc. destruct (lookup_lt_is_Some_2 h i Hlt) as [x Hx]. rewrite Hx.
  destruct (hs_less s c x) eqn:Hl; simpl.
  - assert (i <> smallest_child i h s) as Hne by lia.
    pose proof (heap_swap_same _ _ h s Hne Hix) as Hsame.
    pose proof (weak_down_swap i h s x c Hch Hx Hc Hl Hw) as Hw'.
    pose proof (heap_swap_length i (smallest_child i h s) h s) as Hlen.
    apply lookup_lt_Some in Hc.
    destruct (heap_swap i (smallest_child i h s) h s) as [h' s']; simpl in *.
    destruct (IH (smallest_child i h s) h' s') as [Ho Hs];
      try done; try lia; [apply Hsame|].
    split; [done|]. by eapply same_tasks_trans.
  - split; [|by apply same_tasks_refl]. destruct Hw as [Hord _].
    intros j y q Hj Hy Hq. destruct (decide (parent j = i)) as [Hpj|]; [|by eapply Hord].
    rewrite Hpj in Hq. simplify_eq. eapply hs_less_trans; [done|]. by eapply Hmin.
Qed.

Lemma sift_down_loop_fuel fuel i h s :
  length h <= fuel + i -> i < length h -> sift_down_loop fuel i h s = sift_down i h s.
Proof.
  unfold sift_down.
  cut (forall f1 f2 j h' s', length h' = length h -> length h <= f1 + j ->
    length h <= f2 + j -> j < length h ->
    sift_down_loop f1 j h' s' = sift_down_loop f2 j h' s').
  { intros Hcut ??. apply Hcut; lia. }
  induction f1 as [|f1 IH]; intros [|f2] j h' s' Hl H1 H2 Hj; try lia.
  simpl. destruct (Nat.leb_spec (length h') (j * 2 + 1)) as [|Hch]; [done|].
  destruct (smallest_child_spec j h' s' Hch) as (Hcs & c & Hc & _).
  rewrite Hc. destruct (h' !! j); [|done]. destruct (negb _); [done|].
  pose proof (heap_swap_length j (smallest_child j h' s') h' s').
  destruct (heap_swap _ _ _ _) as [h2 s2]; simpl in *.
  apply lookup_lt_Some in Hc. apply IH; lia.
Qed.

Lemma push_indexed k h s :
  indexed h s -> hs_live s k -> hs_index s k = None ->
  indexed (h ++ [k]) (hs_set_index k (Some (length h)) s).
Proof.
  intros Hix Hlive Hnone x i. destruct (decide (x = k)) as [->|Hne].
  - rewrite hs_index_set_eq by done. rewrite lookup_app_Some, list_lookup_singleton_Some.
    split; [intros [= <-]; right; split; [lia|]; split; [lia|done]|].
    intros [Hi|(? & ? & _)]; [|f_equal; lia]. apply Hix in Hi. congruence.
  - rewrite hs_index_set_ne by done. rewrite lookup_app_Some, list_lookup_singleton_Some.
    rewrite (Hix x i). split; [by left|]. intros [?|(_ & _ & ?)]; congruence.
Qed.

Lemma heap_push_spec k h s :
  heap_inv h s -> hs_live s k -> hs_index s k = None ->
  heap_inv (heap_push k h s).1 (heap_push k h s).2 /\
  (heap_push k h s).1 ≡ₚ k :: h /\ hs_core (heap_push k h s).2 = hs_core s.
Proof.
  intros [Hord Hix] Hlive Hnone. unfold heap_push.
  set (s1 := hs_set_index k (Some (length h)) s).
  pose proof (push_indexed k h s Hix Hlive Hnone) as Hix1. fold s1 in Hix1.
  assert (weak_up (length h) (h ++ [k]) s1) as Hw.
  { split.
    - intros j x p Hj Hne Hx Hp. eapply less_core; [apply hs_core_set|].
      apply lookup_lt_Some in Hx as Hlt. rewrite length_app in Hlt. simpl in Hlt.
      pose proof (parent_lt j Hj). rewrite lookup_app_l in Hx, Hp by lia.
      by eapply Hord.
    - intros c y g Hl Hc Hpar Hy _. apply lookup_lt_Some in Hy.
      rewrite length_app in Hy. simpl in Hy.
      apply parent_children in Hpar; lia. }
  destruct (sift_up_loop_spec (length h) (length h) (h ++ [k]) s1) as [Ho (Hp & Hc & Hi)];
    [lia|rewrite length_app; simpl; lia|done|done|].
  unfold sift_up. split; [by split|]. split.
  - rewrite Hp. by rewrite Permutation_app_comm.
  - rewrite Hc. apply hs_core_set.
Qed.

(** What [deadlineHeapRemoveAtLocked] has built before it sifts: slot [index]
    holds the former last task, every other slot is as before. *)
Lemma remove_at_hole index h s removed :
  heap_inv h s -> h !! index = Some removed ->
  exists h2 s2,
    (let '(h1, s1) := if index =? length h - 1 then (h, s)
                      else heap_swap index (length h - 1) h s in
     (take (length h1 - 1) h1, hs_set_index removed None s1)) = (h2, s2) /\
    hs_core s2 = hs_core s /\ indexed h2 s2 /\ removed :: h2 ≡ₚ h /\
    length h2 = length h - 1 /\
    (forall j, j < length h - 1 -> j <> index -> h2 !! j = h !! j).
Proof.
  intros [Hord Hix] Hr. apply lookup_lt_Some in Hr as Hlt.
  set (r := if index =? length h - 1 then (h, s)
            else heap_swap index (length h - 1) h s).
  assert (same_tasks h s r) as (Hp & Hc & Hi).
  { unfold r. destruct (Nat.eqb_spec index (length h - 1));
      [by apply same_tasks_refl|by apply heap_swap_same]. }
  destruct (lookup_lt_is_Some_2 h (length h - 1) ltac:(lia)) as [z Hz].
  assert (length r.1 = length h) as Hlen by (by rewrite Hp).
  assert (r.1 !! (length h - 1) = Some removed) as Hlast.
  { unfold r. destruct (Nat.eqb_spec index (length h - 1)) as [<-|]; [done|].
    rewrite (heap_swap_lookup _ _ _ _ _ _ _ Hr Hz). repeat case_decide; congruence. }
  assert (forall j, j < length h - 1 -> j <> index -> r.1 !! j = h !! j) as Hsame.
  { intros j Hj Hne. unfold r. destruct (Nat.eqb_spec index (length h - 1)); [done|].
    rewrite (heap_swap_lookup _ _ _ _ _ _ _ Hr Hz). repeat case_decide; try done; lia. }
  destruct r as [h1 s1] eqn:Er; simpl in *. rewrite <- Hlen in *.
  assert (take (length h1 - 1) h1 ++ [removed] = h1) as Hsplit.
  { rewrite <- (take_S_r _ _ _ Hlast). apply take_ge. lia. }
  exists (take (length h1 - 1) h1), (hs_set_index removed None s1).
  split; [done|]. split; [by rewrite hs_core_set|]. split.
  - intros k i. destruct (decide (k = removed)) as [->|Hne].
    + rewrite hs_index_set_eq by (by eapply hs_index_live, Hi).
      split; [done|]. intros Hk. exfalso. apply lookup_lt_Some in Hk as Hl.
      rewrite length_take in Hl. rewrite lookup_take_lt in Hk by lia.
      apply Hi in Hk, Hlast. simplify_eq. lia.
    + rewrite hs_index_set_ne by done. rewrite (Hi k i).
      rewrite lookup_take_Some. split; [|tauto]. intros Hk. split; [done|].
      apply lookup_lt_Some in Hk as ?. destruct (decide (i = length h1 - 1)); [|lia].
      subst. congruence.
  - split_and!.
    + rewrite <- Hp, Permutation_cons_append. by rewrite Hsplit.
    + rewrite length_take. lia.
    + intros j Hj Hne. rewrite lookup_take_lt by lia. by apply Hsame.
Qed.

Lemma heap_remove_at_spec index h s removed :
  heap_inv h s -> h !! index = Some removed ->
  heap_inv (heap_remove_at index h s).1 (heap_remove_at index h s).2 /\
  removed :: (heap_remove_at index h s).1 ≡ₚ h /\
  hs_core (heap_remove_at index h s).2 = hs_core s.
Proof.
  intros Hinv Hr. unfold heap_remove_at. rewrite Hr.
  destruct (remove_at_hole index h s removed Hinv Hr)
    as (h2 & s2 & Heq & Hc & Hi & Hp & Hlen & Hsame).
  apply lookup_lt_Some in Hr as Hlt. destruct Hinv as [Hord _].
  destruct (if index =? length h - 1 then _ else _) as [h1 s1]. injection Heq as -> ->.
  assert (forall i, i < length h2 -> i <> index -> h !! i = h2 !! i) as Hsame'.
  { intros i ??. symmetry. apply Hsame; lia. }
  assert (forall i x p, 0 < i -> i <> index -> parent i <> index ->
    h2 !! i = Some x -> h2 !! parent i = Some p -> hs_less s2 x p = false) as Hoth.
  { intros i x p H0 H1 H2 Hx Hpp. pose proof (parent_lt i H0).
    apply lookup_lt_Some in Hx as ?. rewrite <- Hsame' in Hx, Hpp by lia.
    eapply less_core; [done|]. by eapply Hord. }
  destruct (Nat.leb_spec (length h2) index) as [Hge|Hin].
  { split; [split; [|done]|done]. intros i x p H0 Hx Hpp.
    pose proof (parent_lt i H0). simpl in *. apply lookup_lt_Some in Hx as ?.
    eapply Hoth; eauto; lia. }
  assert (grand_ok index h2 s2) as Hgr.
  { intros c y g H0 Hc0 Hpar Hy Hg. pose proof (parent_lt _ H0).
    pose proof (parent_lt _ Hc0). apply lookup_lt_Some in Hy as ?.
    rewrite <- Hsame' in Hy, Hg by lia. eapply less_core; [done|].
    eapply hs_less_trans; [eapply (Hord index); eauto|].
    eapply (Hord c); eauto. by rewrite Hpar. }
  destruct (lookup_lt_is_Some_2 h2 index Hin) as [x Hx]. rewrite Hx.
  assert (parent index < length h2) as Hpl.
  { destruct (decide (index = 0)) as [->|]; [by unfold parent|].
    pose proof (parent_lt index ltac:(lia)). lia. }
  destruct (lookup_lt_is_Some_2 h2 (parent index) Hpl) as [p Hpx]. rewrite Hpx.
  enough (forall r, heap_ordered r.1 r.2 /\ same_tasks h2 s2 r ->
    heap_inv r.1 r.2 /\ removed :: r.1 ≡ₚ h /\ hs_core r.2 = hs_core s) as Hend.
  { apply Hend. destruct (negb (index =? 0) && hs_less s2 x p) eqn:Hb.
    - bool_to_prop. apply sift_up_loop_spec; try done. split; [|done].
      intros j y q Hj Hne Hy Hq. destruct (decide (parent j = index)) as [Hpj|];
        [|by eapply Hoth].
      rewrite Hpj in Hq. simplify_eq. eapply hs_less_trans; [by apply hs_less_asym|].
      eapply Hgr; eauto. lia.
    - apply sift_down_loop_spec; [lia|done| |done]. split; [|done].
      intros j y q Hj Hpj Hy Hq. destruct (decide (j = index)) as [->|];
        [|by eapply Hoth].
      simplify_eq. destruct (Nat.eqb_spec index 0); [lia|done]. }
  intros [h' s'] [Ho (Hp' & Hc' & Hi')]; simpl in *. split; [by split|].
  split; [by rewrite Hp'|congruence].
Qed.

Lemma heap_remove_spec k h s :
  heap_inv h s ->
  heap_inv (heap_remove k h s).1 (heap_remove k h s).2 /\
  (heap_remove k h s).1 ≡ₚ without k h /\
  hs_core (heap_remove k h s).2 = hs_core s.
Proof.
  intros Hinv. unfold heap_remove. destruct (hs_index s k) as [i|] eqn:Hk.
  - apply (proj2 Hinv) in Hk.
    destruct (heap_remove_at_spec i h s k Hinv Hk) as (Hi & Hp & Hc).
    split; [done|]. split; [|done]. apply (Permutation_cons_inv (a := k)). rewrite Hp.
    apply without_perm; [by eapply indexed_NoDup, Hinv|].
    apply list_elem_of_lookup. eauto.
  - split; [done|]. split; [|done]. simpl. rewrite without_not_elem; [done|].
    intros [i Hi]%list_elem_of_lookup. apply (proj2 Hinv) in Hi. congruence.
Qed.

(** The root is a minimum. *)
Lemma heap_root_min h s r x :
  heap_inv h s -> h !! 0 = Some r -> x ∈ h -> hs_less s x r = false.
Proof.
  intros [Hord _] Hr [i Hi]%list_elem_of_lookup. revert x Hi.
  induction i as [i IH] using lt_wf_ind. intros x Hi.
  destruct (decide (i = 0)) as [->|]; [simplify_eq; apply hs_less_irrefl|].
  pose proof (parent_lt i ltac:(lia)). apply lookup_lt_Some in Hi as ?.
  destruct (lookup_lt_is_Some_2 h (parent i) ltac:(lia)) as [p Hp].
  eapply hs_less_trans; [by eapply IH|]. eapply (Hord i); eauto. lia.
Qed.
(** The heap reads comparisons and positions, nothing else of the store. *)
Lemma heap_inv_ext h s s' :
  (forall a b, a ∈ h -> b ∈ h -> hs_less s' a b = hs_less s a b) ->
  (forall k, hs_index s' k = hs_index s k) ->
  heap_inv h s -> heap_inv h s'.
Proof.
  intros Hl Hi [Hord Hix]. split.
  - intros i x p H0 Hx Hp. rewrite Hl; [by eapply Hord|..]; apply list_elem_of_lookup; eauto.
  - intros k i. rewrite Hi. apply Hix.
Qed.

(** ** Frames: the operations write position fields only *)

Lemma sift_up_core fuel i h s : hs_core (sift_up_loop fuel i h s).2 = hs_core s.
Proof.
  revert i h s. induction fuel as [|fuel IH]; intros i h s; simpl; [done|].
  destruct (i =? 0); [done|]. destruct (h !! i), (h !! parent i); try done.
  destruct (negb _); [done|]. pose proof (heap_swap_core i (parent i) h s) as E.
  destruct (heap_swap _ _ _ _). by rewrite IH.
Qed.

Lemma sift_down_core fuel i h s : hs_core (sift_down_loop fuel i h s).2 = hs_core s.
Proof.
  revert i h s. induction fuel as [|fuel IH]; intros i h s; simpl; [done|].
  destruct (_ <=? _); [done|]. destruct (h !! smallest_child i h s), (h !! i); try done.
  destruct (negb _); [done|]. pose proof (heap_swap_core i (smallest_child i h s) h s) as E.
  destruct (heap_swap _ _ _ _). by rewrite IH.
Qed.

Lemma heap_push_core k h s : hs_core (heap_push k h s).2 = hs_core s.
Proof. unfold heap_push, sift_up. by rewrite sift_up_core, hs_core_set. Qed.

Lemma heap_remove_at_core i h s : hs_core (heap_remove_at i h s).2 = hs_core s.
Proof.
  unfold heap_remove_at, sift_up, sift_down. destruct (h !! i); [|done].
  pose proof (heap_swap_core i (length h - 1) h s) as E.
  assert (hs_core (if i =? length h - 1 then (h, s) else heap_swap i (length h - 1) h s).2 =
    hs_core s) as E1 by by destruct (_ =? _).
  destruct (if _ =? _ then _ else _) as [h1 s1]. simpl in E1.
  repeat split_case; rewrite ?sift_up_core, ?sift_down_core; simpl; by rewrite hs_core_set.
Qed.

Lemma heap_remove_core k h s : hs_core (heap_remove k h s).2 = hs_core s.
Proof. unfold heap_remove. destruct (hs_index s k); [apply heap_remove_at_core|done]. Qed.
End Facts.
