(* ===== verification/Context.v ===== *)
(** * Contexts: cancellation, deadlines and message metadata

    Models [runtime/context.hpp]: [ContextStateBase]/[ContextState], the
    observers of [Context] and [MessageContext], and the copy-on-write [with...]
    functions.  A [Context] is a [std::shared_ptr] to its state, and the
    rvalue-qualified [with...] functions write in place when the pointer is
    unique; the [Cow] module has the shared states as a store and proves that no
    handle ever sees a write made through another one.

    A [std::stop_token] is [None] when it has no stop state, and otherwise names
    its source; [stopped] is the set of sources on which [request_stop()] was
    called. *)
From Stdlib Require Import ZArith Lia.
From stdpp Require Import strings.
From S2P Require Import Prelude.
Local Open Scope Z_scope.

Abbreviation StopToken := (option nat).

Definition stop_requested (stopped : gset nat) (t : StopToken) : bool :=
  match t with
  | Some src => bool_decide (src ∈ stopped)
  | None => false
  end.

Definition stop_possible (t : StopToken) : bool :=
  match t with Some _ => true | None => false end.

(** [tracing::SpanContext]. *)
Record SpanContext := mkSpanContext {
  traceId : string;
  spanId : string;
  valid : bool;
  traceState : string;
  baggage : string;
}.

Definition emptySpanContext : SpanContext := mkSpanContext "" "" false "" "".

(** [ContextStateBase] and, below it, what [ContextState] adds. [localValues] is
    the chain of bindings, innermost first: key identity and value. *)
Record ContextState := mkContextState {
  stopToken : StopToken;
  deadline : Deadline;
  externalCancellations : list StopToken;
  traceSamplingEnabled : bool;
  localValues : list (nat * nat);
  streamId : string;
  priority : Z;
  hasPriority : bool;
  trace : SpanContext;
}.

(** [Context::Context()] and [MessageContext::MessageContext()]. *)
Definition defaultContext : ContextState :=
  mkContextState None None [] false [] "" 0 false emptySpanContext.

(** [MessageContext::MessageContext(const Context&)]. *)
Definition messageContextFrom (parent : ContextState) : ContextState :=
  mkContextState (stopToken parent) (deadline parent) (externalCancellations parent)
    (traceSamplingEnabled parent) [] "" 0 false emptySpanContext.

Definition externallyCancelled (stopped : gset nat) (c : ContextState) : bool :=
  existsb (stop_requested stopped) (externalCancellations c).

Definition cancelled (stopped : gset nat) (now : Z) (c : ContextState) : bool :=
  stop_requested stopped (stopToken c) || externallyCancelled stopped c ||
  deadline_reached (deadline c) now.

(** The state changes of the [with...] functions. *)
Definition set_deadline (d : Deadline) (c : ContextState) : ContextState :=
  mkContextState (stopToken c) d (externalCancellations c) (traceSamplingEnabled c)
    (localValues c) (streamId c) (priority c) (hasPriority c) (trace c).
Definition set_stopToken (t : StopToken) (c : ContextState) : ContextState :=
  mkContextState t (deadline c) (externalCancellations c) (traceSamplingEnabled c)
    (localValues c) (streamId c) (priority c) (hasPriority c) (trace c).
Definition add_externalCancellation (t : StopToken) (c : ContextState) : ContextState :=
  mkContextState (stopToken c) (deadline c) (externalCancellations c ++ [t])
    (traceSamplingEnabled c) (localValues c) (streamId c) (priority c)
    (hasPriority c) (trace c).
Definition set_sampling (b : bool) (c : ContextState) : ContextState :=
  mkContextState (stopToken c) (deadline c) (externalCancellations c) b
    (localValues c) (streamId c) (priority c) (hasPriority c) (trace c).
Definition set_priority (p : Z) (c : ContextState) : ContextState :=
  mkContextState (stopToken c) (deadline c) (externalCancellations c)
    (traceSamplingEnabled c) (localValues c) (streamId c) p true (trace c).
Definition set_streamId (i : string) (c : ContextState) : ContextState :=
  mkContextState (stopToken c) (deadline c) (externalCancellations c)
    (traceSamplingEnabled c) (localValues c) i (priority c) (hasPriority c) (trace c).
Definition set_trace (t : SpanContext) (c : ContextState) : ContextState :=
  mkContextState (stopToken c) (deadline c) (externalCancellations c)
    (traceSamplingEnabled c) (localValues c) (streamId c) (priority c)
    (hasPriority c) t.

(** [withLocalValue] pushes a binding; [localValue] finds the innermost one. *)
Definition push_localValue (key value : nat) (c : ContextState) : ContextState :=
  mkContextState (stopToken c) (deadline c) (externalCancellations c)
    (traceSamplingEnabled c) ((key, value) :: localValues c) (streamId c)
    (priority c) (hasPriority c) (trace c).

Fixpoint find_binding (key : nat) (bs : list (nat * nat)) : option nat :=
  match bs with
  | [] => None
  | (k, v) :: bs => if (k =? key)%nat then Some v else find_binding key bs
  end.

Definition localValue (key : nat) (c : ContextState) : option nat :=
  find_binding key (localValues c).

(** [Context::bounded]: [timeout] is clamped at zero, an earlier or equal deadline
    is kept. *)
Definition bounded (now timeout : Z) (c : ContextState) : ContextState :=
  let candidate := now + Z.max timeout 0 in
  match deadline c with
  | Some d => if d <=? candidate then c else set_deadline (Some candidate) c
  | None => set_deadline (Some candidate) c
  end.

Lemma bounded_deadline now timeout c :
  deadline (bounded now timeout c) =
    Some (match deadline c with
          | Some d => Z.min d (now + Z.max timeout 0)
          | None => now + Z.max timeout 0
          end).
Proof.
  unfold bounded. destruct (deadline c) as [d|] eqn:Hd; [|done].
  destruct (Z.leb_spec d (now + Z.max timeout 0)); simpl; rewrite ?Hd; f_equal; lia.
Qed.

(** Cancellation is final: once a context reports it, it does at every later time
    and after any further stop requests. *)
Lemma cancelled_mono stopped stopped' now now' c :
  stopped ⊆ stopped' -> now <= now' ->
  cancelled stopped now c = true -> cancelled stopped' now' c = true.
Proof.
  intros Hs Hn. assert (forall t, stop_requested stopped t = true ->
    stop_requested stopped' t = true) as Hreq.
  { intros [src|]; simpl; [|done]. rewrite !bool_decide_eq_true. set_solver. }
  unfold cancelled, externallyCancelled. rewrite !orb_true_iff.
  intros [[H|H]|H]; [left; left; auto|left; right|right].
  - apply existsb_exists in H as (t & ? & ?). apply existsb_exists. eauto.
  - unfold deadline_reached in *. destruct (deadline c); [|done].
    apply Z.leb_le in H. apply Z.leb_le. lia.
Qed.

Lemma localValue_push key value key' c :
  localValue key (push_localValue key' value c) =
    if (key' =? key)%nat then Some value else localValue key c.
Proof. done. Qed.

(** ** Sharing

    [handles] maps every live [Context] object to the state it points to. *)
Module Cow.
Record World := mkWorld {
  handles : gmap nat nat;
  states : gmap nat ContextState;
}.

(** What a handle observes. *)
Definition observe (w : World) (h : nat) : option ContextState :=
  handles w !! h ≫= fun l => states w !! l.

(** [state_.unique()]: no other live handle has this state. *)
Definition unique (w : World) (h l : nat) : bool :=
  bool_decide (map_Forall (fun h' l' => h' <> h -> l' <> l) (handles w)).

Definition fresh_state (w : World) : nat := fresh (dom (states w) : gset nat).

(** The [const &] overload: clone the state, write the clone. *)
Definition with_const (f : ContextState -> ContextState) (h h' : nat) (w : World) : World :=
  match observe w h with
  | Some c =>
      let l' := fresh_state w in
      mkWorld (<[h' := l']> (handles w)) (<[l' := f c]> (states w))
  | None => w
  end.

(** The [&&] overload: [takeOrClone] moves a unique state out of the handle and
    writes it in place, and clones a shared one. *)
Definition with_move (f : ContextState -> ContextState) (h h' : nat) (w : World) : World :=
  match handles w !! h with
  | Some l =>
      match states w !! l with
      | Some c =>
          if unique w h l
          then mkWorld (<[h' := l]> (delete h (handles w))) (<[l := f c]> (states w))
          else with_const f h h' w
      | None => w
      end
  | None => w
  end.

(** Copying a [Context] shares its state. *)
Definition copy (h h' : nat) (w : World) : World :=
  match handles w !! h with
  | Some l => mkWorld (<[h' := l]> (handles w)) (states w)
  | None => w
  end.

(** Every handle points to a state. *)
Definition wf (w : World) : Prop :=
  forall h l, handles w !! h = Some l -> is_Some (states w !! l).

Lemma fresh_state_None w : states w !! fresh_state w = None.
Proof. apply (not_elem_of_dom (D := gset nat)). apply (is_fresh (dom (states w) : gset nat)). Qed.

Lemma wf_not_fresh w h l : wf w -> handles w !! h = Some l -> l <> fresh_state w.
Proof. intros Hwf Hh ->. destruct (Hwf _ _ Hh) as [c Hc]. by rewrite fresh_state_None in Hc. Qed.

Lemma with_const_spec f h h' w c :
  wf w -> observe w h = Some c -> handles w !! h' = None ->
  observe (with_const f h h' w) h' = Some (f c) /\
  (forall g, g <> h' -> observe (with_const f h h' w) g = observe w g).
Proof.
  intros Hwf Hobs Hnew. unfold with_const. rewrite Hobs. split.
  - unfold observe. simpl. by rewrite lookup_insert_eq; simpl; rewrite lookup_insert_eq.
  - intros g Hg. unfold observe. simpl. rewrite lookup_insert_ne by done.
    destruct (handles w !! g) as [l|] eqn:Hl; [|done]. simpl.
    rewrite lookup_insert_ne; [done|]. intros Heq. by eapply wf_not_fresh.
Qed.

Lemma with_move_spec f h h' w c :
  wf w -> observe w h = Some c -> handles w !! h' = None ->
  observe (with_move f h h' w) h' = Some (f c) /\
  (forall g, g <> h' -> g <> h -> observe (with_move f h h' w) g = observe w g).
Proof.
  intros Hwf Hobs Hnew. unfold with_move.
  pose proof Hobs as Hobs'. unfold observe in Hobs'.
  destruct (handles w !! h) as [l|] eqn:Hl; [|done]. simpl in Hobs'. rewrite Hobs'.
  destruct (unique w h l) eqn:Hu.
  - unfold unique in Hu. apply bool_decide_eq_true in Hu. split.
    + unfold observe. simpl. by rewrite lookup_insert_eq; simpl; rewrite lookup_insert_eq.
    + intros g Hg Hgh. unfold observe. simpl.
      rewrite lookup_insert_ne, lookup_delete_ne by done.
      destruct (handles w !! g) as [l'|] eqn:Hl'; [|done]. simpl.
      rewrite lookup_insert_ne; [done|]. intros ->. by eapply (Hu g).
  - destruct (with_const_spec f h h' w c) as [H1 H2]; try done. split; [done|].
    intros. by apply H2.
Qed.
End Cow.

(** Operations a program applies to its contexts, in any order. *)
Inductive cow_op :=
  | OpCopy (h h' : nat)
  | OpConst (f : ContextState -> ContextState) (h h' : nat)
  | OpMove (f : ContextState -> ContextState) (h h' : nat).

Definition cow_run (op : cow_op) (w : Cow.World) : Cow.World :=
  match op with
  | OpCopy h h' => Cow.copy h h' w
  | OpConst f h h' => Cow.with_const f h h' w
  | OpMove f h h' => Cow.with_move f h h' w
  end.

(** The handle an operation consumes, and the one it creates. *)
Definition cow_consumes (op : cow_op) : option nat :=
  match op with OpMove _ h _ => Some h | _ => None end.
Definition cow_creates (op : cow_op) : nat :=
  match op with OpCopy _ h' | OpConst _ _ h' | OpMove _ _ h' => h' end.

Lemma cow_run_wf op w : Cow.wf w -> Cow.wf (cow_run op w).
Proof.
  intros Hwf. assert (forall h h' l, Cow.handles w !! h = Some l ->
    Cow.wf (Cow.mkWorld (<[h' := l]> (Cow.handles w)) (Cow.states w))) as Hcopy.
  { intros h h' l Hl g l'. simpl. rewrite lookup_insert_Some.
    intros [[-> ->]|[_ ?]]; eauto. }
  assert (forall f h h', Cow.wf (Cow.with_const f h h' w)) as Hconst.
  { intros f h h'. unfold Cow.with_const. destruct (Cow.observe w h); [|done].
    intros g l'. simpl. rewrite lookup_insert_Some, lookup_insert_is_Some.
    intros [[_ <-]|[_ ?]]; [by left|]. right. split; [|eauto].
    intros Heq. eapply Cow.wf_not_fresh; eauto. }
  destruct op as [h h'|f h h'|f h h']; simpl; [|done|].
  - unfold Cow.copy. destruct (Cow.handles w !! h) eqn:?; eauto.
  - unfold Cow.with_move. destruct (Cow.handles w !! h) as [l|] eqn:Hl; [|done].
    destruct (Cow.states w !! l) eqn:Hc; [|done]. destruct (Cow.unique w h l); [|done].
    intros g l'. simpl. rewrite lookup_insert_Some, lookup_insert_is_Some.
    intros [[_ <-]|[_ Hd]]; [by left|]. apply lookup_delete_Some in Hd as [_ Hd].
    destruct (decide (l = l')); [by left|]. right. eauto.
Qed.

(** C17. Contexts are isolated: whatever a program does with its contexts, a handle that the program neither
    consumes nor creates afresh keeps observing the same context state, so a
    context captured by a queued task never changes under it. *)
Theorem cow_isolation ops w h :
  Cow.wf w ->
  (forall op, op ∈ ops -> cow_consumes op <> Some h) ->
  (forall op, op ∈ ops -> cow_creates op <> h) ->
  (forall ops1 op ops2, ops = ops1 ++ op :: ops2 ->
     Cow.handles (foldl (fun w o => cow_run o w) w ops1) !! cow_creates op = None) ->
  Cow.observe (foldl (fun w o => cow_run o w) w ops) h = Cow.observe w h.
Proof.
  revert w. induction ops as [|op ops IH]; intros w Hwf Hcon Hcre Hfresh; [done|].
  simpl. rewrite IH.
  - assert (Cow.handles w !! cow_creates op = None) as Hnew by (by apply (Hfresh [] op ops)).
    assert (cow_creates op <> h) as Hne by (apply Hcre; left).
    assert (cow_consumes op <> Some h) as Hnc by (apply Hcon; left).
    destruct op as [g g'|f g g'|f g g']; simpl in *.
    + unfold Cow.copy. destruct (Cow.handles w !! g); [|done].
      unfold Cow.observe. simpl. by rewrite lookup_insert_ne.
    + destruct (Cow.observe w g) as [c|] eqn:Ho;
        [|by unfold Cow.with_const; rewrite Ho].
      by eapply Cow.with_const_spec.
    + destruct (Cow.observe w g) as [c|] eqn:Ho.
      * eapply Cow.with_move_spec; eauto with congruence.
      * unfold Cow.with_move, Cow.observe in *. destruct (Cow.handles w !! g); [|done].
        simpl in Ho. by rewrite Ho.
  - by apply cow_run_wf.
  - intros. apply Hcon. by right.
  - intros. apply Hcre. by right.
  - intros ops1 op' ops2 ->. apply (Hfresh (op :: ops1) op' ops2). done.
Qed.

Definition cow_demo : Cow.World := Cow.mkWorld {[0%nat := 0%nat]} {[0%nat := defaultContext]}.
Definition cow_demo_ops : list cow_op :=
  [OpCopy 0 1; OpMove (set_deadline (Some 5%Z)) 1 2; OpMove (set_priority 3%Z) 2 3]%nat.

Lemma cow_isolation_witness :
  Cow.observe (foldl (fun w o => cow_run o w) cow_demo cow_demo_ops) 0 =
    Cow.observe cow_demo 0 /\
  (deadline <$> Cow.observe (foldl (fun w o => cow_run o w) cow_demo cow_demo_ops) 3) =
    Some (Some 5).
Proof.
  split; [|vm_compute; reflexivity].
  apply (cow_isolation cow_demo_ops cow_demo 0).
  - intros h l Hl. change (({[0%nat := 0%nat]} : gmap nat nat) !! h = Some l) in Hl. apply lookup_singleton_Some in Hl as [_ <-]. exists defaultContext. reflexivity.
  - intros op Hop. repeat (apply elem_of_cons in Hop as [->|Hop]; [discriminate|]).
    by apply elem_of_nil in Hop.
  - intros op Hop. repeat (apply elem_of_cons in Hop as [->|Hop]; [discriminate|]).
    by apply elem_of_nil in Hop.
  - intros ops1 op ops2 E. unfold cow_demo_ops in E.
    destruct ops1 as [|o1 [|o2 [|o3 [|o4 ops1]]]]; simplify_eq/=; vm_compute; reflexivity.
Defined.
