(* ===== verification/FifoQueue.v ===== *)
(** * The run queue of [TaskPoolImpl]

    Models the data structures of [runtime/pool/taskpool.hpp] that its mutex
    guards: the doubly linked list of [PoolTask] objects ([head_], [tail_] and the
    [next]/[prev] pointers inside the tasks), the deadline heap and [count_], with
    the operations on them.  Tasks are objects of a store, pointers are their
    keys.  The pointer structure refines a plain sequence of tasks: [represents q
    f] says that the linked list of [f] is the sequence [q], that [count_] is its
    length and that the deadline heap holds exactly the queued tasks whose deadline
    can still promote them. *)
From Stdlib Require Import ZArith Lia.
From S2P Require Import Prelude IndexedHeap.
Local Open Scope Z_scope.

Module Fifo.

(** [TaskPoolImpl::PoolTask]. [fn] is [None] once the callback is released;
    [subscriptions] are the stop sources its cancel callbacks watch. *)
Record PoolTask := mkPoolTask {
  fn : option nat;
  next : option nat;
  prev : option nat;
  inQueue : bool;
  expedited : bool;
  deadline : Deadline;
  deadlineIndex : option nat;
  subscriptions : list nat;
}.

Definition set_next n t :=
  mkPoolTask (fn t) n (prev t) (inQueue t) (expedited t) (deadline t)
    (deadlineIndex t) (subscriptions t).
Definition set_prev p t :=
  mkPoolTask (fn t) (next t) p (inQueue t) (expedited t) (deadline t)
    (deadlineIndex t) (subscriptions t).
Definition set_inQueue b t :=
  mkPoolTask (fn t) (next t) (prev t) b (expedited t) (deadline t)
    (deadlineIndex t) (subscriptions t).
Definition set_expedited b t :=
  mkPoolTask (fn t) (next t) (prev t) (inQueue t) b (deadline t)
    (deadlineIndex t) (subscriptions t).
Definition set_deadlineIndex i t :=
  mkPoolTask (fn t) (next t) (prev t) (inQueue t) (expedited t) (deadline t)
    i (subscriptions t).

(** A task as [addTask] builds it, before it is linked. *)
Definition new_task (f : nat) (d : Deadline) (subs : list nat) : PoolTask :=
  mkPoolTask (Some f) None None false false d None subs.

Abbreviation Store := (gmap nat PoolTask).

(** Reading a pointer field of an object. *)
Definition field {A} (proj : PoolTask -> option A) (k : nat) (s : Store) : option A :=
  s !! k ≫= proj.

(** [*task->deadline], the key of the deadline heap. *)
Definition deadline_key (s : Store) (k : nat) : Z := default 0 (field deadline k s).

(** [deadlineEarlier]. *)
Definition deadlineEarlier (s : Store) (lhs rhs : nat) : bool :=
  deadline_key s lhs <? deadline_key s rhs.

#[export] Instance deadline_heap : HeapStore Store nat Store := {
  hs_less := deadlineEarlier;
  hs_index s k := field deadlineIndex k s;
  hs_set_index k i := alter (set_deadlineIndex i) k;
  hs_live s k := is_Some (s !! k);
  hs_core s := set_deadlineIndex None <$> s;
}.

(** What the task pool's mutex guards, apart from [done_]. *)
Record State := mkState {
  tasks : Store;
  head_ : option nat;
  tail_ : option nat;
  deadlineHeap_ : list nat;
  count_ : Z;
}.

Definition empty : State := mkState ∅ None None [] 0.

Definition deadlineHeapPushLocked (k : nat) (h : list nat) (s : Store) : list nat * Store :=
  heap_push k h s.
Definition deadlineHeapRemoveAtLocked (i : nat) (h : list nat) (s : Store) : list nat * Store :=
  heap_remove_at i h s.
Definition deadlineHeapRemoveLocked (k : nat) (h : list nat) (s : Store) : list nat * Store :=
  heap_remove k h s.

(** The part of [addTask] that runs once the task is admitted: enter it into the
    deadline heap, then link it behind the tail. *)
Definition enqueue (k : nat) (t : PoolTask) (f : State) : State :=
  let s0 := <[k := t]> (tasks f) in
  let '(h1, s1) :=
    match deadline t with
    | Some _ => deadlineHeapPushLocked k (deadlineHeap_ f) s0
    | None => (deadlineHeap_ f, s0)
    end in
  let '(s2, head2) :=
    match tail_ f with
    | Some tl => (alter (set_prev (Some tl)) k (alter (set_next (Some k)) tl s1), head_ f)
    | None => (s1, Some k)
    end in
  mkState (alter (set_inQueue true) k s2) head2 (Some k) h1 (count_ f + 1).

(** The pointer writes of [requeueToFrontLocked] for a task that is not at the
    head: unlink it, then link it before the old head. Returns the new tail. *)
Definition relink (k : nat) (head tail : option nat) (s1 : Store) : Store * option nat :=
  let '(s2, tail2) :=
    match field next k s1 with
    | Some n => (alter (set_prev (field prev k s1)) n s1, tail)
    | None => (s1, field prev k s1)
    end in
  let s3 :=
    match field prev k s2 with
    | Some p => alter (set_next (field next k s2)) p s2
    | None => s2
    end in
  let s4 := alter (set_next head) k s3 in
  let s5 := alter (set_prev None) k s4 in
  let s6 :=
    match head with
    | Some h => alter (set_prev (Some k)) h s5
    | None => s5
    end in
  (s6, tail2).

(** [requeueToFrontLocked]: the task leaves the deadline heap and moves to the
    head; [true] only for the first promotion of a queued task. *)
Definition requeueToFrontLocked (k : nat) (f : State) : State * bool :=
  match tasks f !! k with
  | None => (f, false)
  | Some t =>
      if negb (inQueue t) || expedited t then (f, false)
      else
        let s0 := alter (set_expedited true) k (tasks f) in
        let '(h1, s1) := deadlineHeapRemoveLocked k (deadlineHeap_ f) s0 in
        if bool_decide (head_ f = Some k)
        then (mkState s1 (head_ f) (tail_ f) h1 (count_ f), true)
        else
          let '(s2, tail2) := relink k (head_ f) (tail_ f) s1 in
          (mkState s2 (Some k) tail2 h1 (count_ f), true)
  end.

(** The loop of [promoteExpiredDeadlinesLocked]. *)
Fixpoint promote_loop (fuel : nat) (now : Z) (f : State) (promoted : nat) : State * nat :=
  match fuel with
  | O => (f, promoted)
  | S fuel =>
      match deadlineHeap_ f with
      | [] => (f, promoted)
      | k :: _ =>
          if deadline_key (tasks f) k <=? now
          then let '(h1, s1) := deadlineHeapRemoveAtLocked 0 (deadlineHeap_ f) (tasks f) in
               let '(f2, b) := requeueToFrontLocked k
                 (mkState s1 (head_ f) (tail_ f) h1 (count_ f)) in
               promote_loop fuel now f2 (if b then S promoted else promoted)
          else (f, promoted)
      end
  end.

Definition promoteExpiredDeadlinesLocked (now : Z) (f : State) : State * nat :=
  promote_loop (length (deadlineHeap_ f)) now f 0.

(** [requeueToFront], the body of a cancellation watch: [None] when the weak
    pointer no longer locks, otherwise the number of promotions. *)
Definition requeueToFront (now : Z) (k : nat) (f : State) : option (State * nat) :=
  match tasks f !! k with
  | None => None
  | Some _ =>
      let '(f1, deadlinePromotions) :=
        if bool_decide (deadlineHeap_ f = []) then (f, 0%nat)
        else promoteExpiredDeadlinesLocked now f in
      let '(f2, cancellationPromoted) := requeueToFrontLocked k f1 in
      Some (f2, (deadlinePromotions + if cancellationPromoted then 1 else 0)%nat)
  end.

(** The dequeue of [executorLoop]: promote what has expired, then unlink the head
    task. *)
Definition dequeue (now : Z) (f : State) : option (nat * nat * State) :=
  let '(f1, deadlinePromotions) :=
    if bool_decide (deadlineHeap_ f = []) then (f, 0%nat)
    else promoteExpiredDeadlinesLocked now f in
  match head_ f1 with
  | None => None
  | Some k =>
      let head2 := field next k (tasks f1) in
      let '(s2, tail2) :=
        match head2 with
        | Some h => (alter (set_prev None) h (tasks f1), tail_ f1)
        | None => (tasks f1, None)
        end in
      let s3 := alter (set_inQueue false) k (alter (set_next None) k s2) in
      let '(h4, s4) := deadlineHeapRemoveLocked k (deadlineHeap_ f1) s3 in
      Some (k, deadlinePromotions, mkState s4 head2 tail2 h4 (count_ f1 - 1))
  end.

(** ** The laws of the deadline heap's store *)

#[export] Instance deadline_heap_laws : HeapStoreLaws Store nat Store.
Proof.
  assert (forall s s' : Store, set_deadlineIndex None <$> s = set_deadlineIndex None <$> s' ->
    forall k, set_deadlineIndex None <$> s !! k = set_deadlineIndex None <$> s' !! k) as Hcore.
  { intros s s' Heq k. rewrite <- !lookup_fmap. by rewrite Heq. }
  split; simpl; unfold field.
  - intros s k i [t Ht]. by rewrite lookup_alter_eq, Ht.
  - intros s k k' i Hne. by rewrite lookup_alter_ne.
  - intros s k k' i. by rewrite lookup_alter_is_Some.
  - intros s s' k Heq [t Ht]. specialize (Hcore _ _ Heq k). rewrite Ht in Hcore.
    destruct (s' !! k); [by eexists|done].
  - intros s k i Hi. destruct (s !! k); [by eexists|done].
  - intros s k i. apply map_eq. intros j. rewrite !lookup_fmap.
    destruct (decide (k = j)) as [->|]; [|by rewrite lookup_alter_ne].
    rewrite lookup_alter_eq. by destruct (s !! j).
  - intros s s' a b Heq. unfold deadlineEarlier, deadline_key, field.
    assert (forall k, s !! k ≫= deadline = s' !! k ≫= deadline) as Hd.
    { intros k. specialize (Hcore _ _ Heq k). destruct (s !! k), (s' !! k); simplify_eq/=; congruence. }
    by rewrite !Hd.
  - intros s a. unfold deadlineEarlier. apply Z.ltb_irrefl.
  - intros s a b c. unfold deadlineEarlier. rewrite !Z.ltb_ge. lia.
  - intros s a b. unfold deadlineEarlier. rewrite Z.ltb_ge, Z.ltb_lt. lia.
Qed.

(** Everything but the heap position of an object. *)
Definition body (s : Store) (k : nat) : option PoolTask :=
  set_deadlineIndex None <$> s !! k.

Lemma core_body s s' : hs_core s = hs_core s' -> forall k, body s k = body s' k.
Proof. intros Heq k. unfold body. rewrite <- !lookup_fmap. simpl in Heq. by rewrite Heq. Qed.

Lemma body_field {A} (proj : PoolTask -> option A) s s' k :
  (forall i t, proj (set_deadlineIndex i t) = proj t) ->
  body s k = body s' k -> field proj k s = field proj k s'.
Proof.
  unfold body, field. intros Hp Heq. destruct (s !! k) as [t|], (s' !! k) as [t'|]; try done.
  injection Heq as Heq. simpl. rewrite <- (Hp None t), <- (Hp None t').
  unfold set_deadlineIndex. congruence.
Qed.

Lemma body_live s s' k : body s k = body s' k -> is_Some (s !! k) -> is_Some (s' !! k).
Proof. unfold body. intros Heq [t Ht]. rewrite Ht in Heq. destruct (s' !! k); [by eexists|done]. Qed.

(** ** The linked list *)

Definition node (s : Store) (p : option nat) (k : nat) (n : option nat) : Prop :=
  exists t, s !! k = Some t /\ prev t = p /\ next t = n /\ inQueue t = true.

Definition hd_or (n : option nat) (q : list nat) : option nat :=
  match q with [] => n | k :: _ => Some k end.

Definition last_or (p : option nat) (q : list nat) : option nat :=
  match last q with Some k => Some k | None => p end.

(** The tasks [q] are linked in this order, between [p] and [n]. *)
Fixpoint lseg (s : Store) (p : option nat) (q : list nat) (n : option nat) : Prop :=
  match q with
  | [] => True
  | k :: q' => node s p k (hd_or n q') /\ lseg s (Some k) q' n
  end.

Lemma node_frame s s' p k n : body s k = body s' k -> node s p k n -> node s' p k n.
Proof.
  unfold body. intros Heq (t & Ht & <- & <- & Hq). rewrite Ht in Heq.
  destruct (s' !! k) as [t'|] eqn:Ht'; [|done]. exists t'. split; [done|].
  injection Heq; intros; subst. split_and!; congruence.
Qed.

Lemma lseg_frame s s' p q n :
  (forall k, k ∈ q -> body s k = body s' k) -> lseg s p q n -> lseg s' p q n.
Proof.
  revert p. induction q as [|k q IH]; intros p Heq; [done|]. intros [Hn Hs]. split.
  - eapply node_frame; [|done]. apply Heq. left.
  - apply IH; [|done]. intros. apply Heq. by right.
Qed.

(** Writing the object [x] leaves the segments that [x] is not on. *)
Lemma lseg_alter s g x p q n : x ∉ q -> lseg s p q n -> lseg (alter g x s) p q n.
Proof.
  intros Hx. apply lseg_frame. intros k Hk. unfold body. rewrite lookup_alter_ne; [done|].
  by intros ->.
Qed.

(** A write that keeps the link fields leaves every segment. *)
Lemma lseg_frame_alter s g x p q n :
  (forall t, next (g t) = next t /\ prev (g t) = prev t /\ inQueue (g t) = inQueue t) ->
  lseg s p q n -> lseg (alter g x s) p q n.
Proof.
  intros Hg. revert p. induction q as [|k q IH]; intros p; [done|].
  intros [(t & Ht & Hp' & Hn' & Hq) Hs]. split; [|by apply IH].
  destruct (Hg t) as (Hn & Hp & Hi).
  destruct (decide (x = k)) as [->|]; [exists (g t)|exists t].
  - rewrite lookup_alter_eq, Ht. split_and!; simpl; congruence.
  - by rewrite lookup_alter_ne.
Qed.

Lemma node_alter_ne s g x p k n : x <> k -> node s p k n -> node (alter g x s) p k n.
Proof. intros Hx. apply node_frame. unfold body. by rewrite lookup_alter_ne. Qed.

Lemma last_or_cons p k q : last_or p (k :: q) = last_or (Some k) q.
Proof. unfold last_or. rewrite last_cons. by destruct (last q). Qed.

Lemma lseg_app s p q1 q2 n :
  lseg s p (q1 ++ q2) n <-> lseg s p q1 (hd_or n q2) /\ lseg s (last_or p q1) q2 n.
Proof.
  revert p. induction q1 as [|k q1 IH]; intros p; simpl; [by unfold last_or; simpl; tauto|].
  rewrite IH, last_or_cons. destruct q1; simpl; tauto.
Qed.

(** The two pointer writes of an unlink: a new predecessor for the first task, a
    new successor for the last one. *)
Lemma lseg_set_prev s p p' k q n :
  k ∉ q -> lseg s p (k :: q) n -> lseg (alter (set_prev p') k s) p' (k :: q) n.
Proof.
  intros Hk [(t & Ht & Hp & Hn & Hq) Hs]. split; [|by apply lseg_alter].
  exists (set_prev p' t). rewrite lookup_alter_eq, Ht. done.
Qed.

Lemma lseg_set_next s p k q n n' :
  k ∉ q -> lseg s p (q ++ [k]) n -> lseg (alter (set_next n') k s) p (q ++ [k]) n'.
Proof.
  intros Hk [Hq [(t & Ht & Hp & Hn & Hi) _]]%lseg_app. apply lseg_app.
  split; [by apply lseg_alter|]. split; [|done].
  exists (set_next n' t). rewrite lookup_alter_eq, Ht. done.
Qed.

(** ** Representation invariant *)

(** [k] is a queued task whose deadline has not been used to promote it. *)
Definition armed (q : list nat) (s : Store) (k : nat) : Prop :=
  k ∈ q /\ exists t, s !! k = Some t /\ expedited t = false /\ is_Some (deadline t).

(** The linked list and the counter of [f] are the sequence [q]. *)
Record links (q : list nat) (f : State) : Prop := {
  links_nodup : NoDup q;
  links_list : lseg (tasks f) None q None;
  links_head : head_ f = hd_or None q;
  links_tail : tail_ f = last_or None q;
  links_count : count_ f = Z.of_nat (length q);
  links_only : forall k t, tasks f !! k = Some t -> inQueue t = true -> k ∈ q;
}.

(** In addition the deadline heap holds exactly the armed tasks, those of [out]
    excepted. *)
Record repr (out : list nat) (q : list nat) (f : State) : Prop := {
  repr_links : links q f;
  repr_heap : heap_inv (deadlineHeap_ f) (tasks f);
  repr_armed : forall k, k ∈ deadlineHeap_ f <-> (k ∉ out) /\ armed q (tasks f) k;
}.

Definition represents (q : list nat) (f : State) : Prop := repr [] q f.

Lemma lseg_elem s p q n k :
  lseg s p q n -> k ∈ q -> exists t, s !! k = Some t /\ inQueue t = true.
Proof.
  revert p. induction q as [|x q IH]; intros p; [by intros _ ?%elem_of_nil|].
  intros [(t & Ht & _ & _ & Hq) Hs] [->|Hk]%elem_of_cons; eauto.
Qed.

Lemma links_elem q f k :
  links q f -> k ∈ q <-> exists t, tasks f !! k = Some t /\ inQueue t = true.
Proof.
  intros HL. split; [by intros; eapply lseg_elem; [apply HL|]|].
  intros (t & ? & ?). by eapply links_only.
Qed.

(** Only heap positions differ: the same list is represented. *)
Lemma links_core q s s' h t c hp hp' :
  hs_core s = hs_core s' -> links q (mkState s h t hp c) -> links q (mkState s' h t hp' c).
Proof.
  intros Hc [? Hl ? ? ? Ho]; simpl in *. pose proof (core_body _ _ Hc) as Hb.
  split; simpl; try done.
  - eapply lseg_frame; [|done]. auto.
  - intros k t' Ht' Hq. specialize (Hb k). unfold body in Hb. rewrite Ht' in Hb.
    destruct (s !! k) as [t0|] eqn:Ht0; [|done]. apply (Ho k t0 Ht0).
    injection Hb; intros; subst. congruence.
Qed.

Lemma armed_core q s s' k : hs_core s = hs_core s' -> armed q s k <-> armed q s' k.
Proof.
  intros Hc. pose proof (core_body _ _ Hc k) as Hb. unfold armed, body in *.
  destruct (s !! k) as [t|], (s' !! k) as [t'|]; try done.
  injection Hb; intros. split; (intros [? (t0 & [= <-] & ? & ?)]; split; [done|];
    eexists; split; [done|]; split; congruence).
Qed.

Lemma empty_represents : represents [] empty.
Proof.
  split.
  - split; simpl; try done. apply NoDup_nil_2.
  - split; [by intros i x p ? ?|]. intros k i. simpl. unfold field.
    rewrite lookup_empty. done.
  - intros k. simpl. split; [by intros ?%elem_of_nil|]. intros [_ [? _]]. by apply not_elem_of_nil in H.
Qed.

(** ** Field writes and the invariant *)

Definition keeps {A} (proj : PoolTask -> A) (g : PoolTask -> PoolTask) : Prop :=
  forall t, proj (g t) = proj t.

Lemma field_alter {A} (proj : PoolTask -> option A) g x s k :
  keeps proj g -> field proj k (alter g x s) = field proj k s.
Proof.
  intros Hk. unfold field. destruct (decide (x = k)) as [->|]; [|by rewrite lookup_alter_ne].
  rewrite lookup_alter_eq. destruct (s !! k); simpl; [apply Hk|done].
Qed.

Lemma heap_inv_alter h s g x :
  keeps deadline g -> keeps deadlineIndex g -> heap_inv h s -> heap_inv h (alter g x s).
Proof.
  intros Hd Hi. apply heap_inv_ext; simpl; [|by intros; apply field_alter].
  intros a b _ _. unfold deadlineEarlier, deadline_key. by rewrite !field_alter.
Qed.

Lemma armed_alter q s g x k :
  keeps deadline g -> keeps expedited g -> armed q (alter g x s) k <-> armed q s k.
Proof.
  intros Hd He. unfold armed. destruct (decide (x = k)) as [->|];
    [|by rewrite lookup_alter_ne].
  rewrite lookup_alter_eq. destruct (s !! k) as [t|]; simpl; [|naive_solver].
  split; (intros [? (t0 & [= <-] & H1 & H2)]; split; [done|]; eexists; split; [done|];
    rewrite ?Hd, ?He in *; done).
Qed.

Lemma only_alter (s : Store) g x (q : list nat) :
  keeps inQueue g ->
  (forall k t, s !! k = Some t -> inQueue t = true -> k ∈ q) ->
  forall k t, alter g x s !! k = Some t -> inQueue t = true -> k ∈ q.
Proof.
  intros Hg Ho k t Hk Hq. destruct (decide (x = k)) as [->|].
  - rewrite lookup_alter_eq in Hk. destruct (s !! k) as [t'|] eqn:Ht'; [|done].
    simpl in Hk. simplify_eq. rewrite Hg in Hq. eauto.
  - rewrite lookup_alter_ne in Hk by done. eauto.
Qed.

#[local] Hint Extern 1 (keeps _ _) => intros ?; reflexivity : core.

(** ** Appending a task *)

Lemma last_or_snoc p (q : list nat) k : last_or p (q ++ [k]) = Some k.
Proof. unfold last_or. by rewrite last_snoc. Qed.

Lemma lseg_live_out s p q n k : lseg s p q n -> s !! k = None -> k ∉ q.
Proof. intros Hs Hk Hin. destruct (lseg_elem _ _ _ _ _ Hs Hin) as (t & ? & _). congruence. Qed.

Lemma enqueue_links q s s1 hd tl h h1 c k t :
  links q (mkState s hd tl h c) -> s !! k = None ->
  hs_core s1 = hs_core (<[k := t]> s) -> inQueue t = false -> next t = None -> prev t = None ->
  let '(s2, hd2) :=
    match tl with
    | Some x => (alter (set_prev (Some x)) k (alter (set_next (Some k)) x s1), hd)
    | None => (s1, Some k)
    end in
  links (q ++ [k]) (mkState (alter (set_inQueue true) k s2) hd2 (Some k) h1 (c + 1)).
Proof.
  intros HL Hk Hc Hq Hn Hp.
  assert (k ∉ q) as Hkq by (eapply lseg_live_out; [apply HL|done]).
  assert (links q (mkState s1 hd tl h c)) as [Hnd Hl Hhd Htl Hcnt Ho].
  { eapply (links_core _ _ _ _ _ _ h); [symmetry; apply Hc|]. destruct HL as [? Hl ? ? ? Ho]; simpl in *.
    split; simpl; try done.
    - eapply lseg_frame; [|done]. intros x Hx. unfold body. rewrite lookup_insert_ne; [done|].
      by intros ->.
    - intros x t' [[<- <-]|[_ ?]]%lookup_insert_Some; [congruence|]. eauto. }
  assert (exists t1, s1 !! k = Some t1 /\ next t1 = None /\ prev t1 = None) as (t1 & Ht1 & Hn1 & Hp1).
  { pose proof (core_body _ _ Hc k) as Hb. unfold body in Hb. rewrite lookup_insert_eq in Hb.
    destruct (s1 !! k) as [t1|]; [|done]. exists t1. injection Hb; intros.
    split; [done|]. split; congruence. }
  clear HL Hc. simpl in *. assert (NoDup (q ++ [k])) as Hnd'.
  { apply NoDup_app. split; [done|]. split; [|apply NoDup_singleton].
    intros x Hx ->%list_elem_of_singleton. done. }
  assert (c + 1 = Z.of_nat (length (q ++ [k]))) by (rewrite length_app; simpl; lia).
  assert (forall g1 x (s' : Store), (forall y t, s' !! y = Some t -> inQueue t = true -> y ∈ q) ->
    keeps inQueue g1 -> forall y t, alter (set_inQueue true) k (alter g1 x s') !! y = Some t ->
    inQueue t = true -> y ∈ q ++ [k]) as Honly.
  { intros g1 x s' Hs' Hg y t' Hy Hy'. apply elem_of_app. destruct (decide (k = y)) as [->|];
      [right; left|]. left. rewrite lookup_alter_ne in Hy by done.
    eapply only_alter; [apply Hg|done..]. }
  induction q as [|x q _] using rev_ind.
  - unfold last_or in Htl. simpl in Htl. rewrite Htl. split; simpl; try done.
    + split; [|done]. exists (set_inQueue true t1). rewrite lookup_alter_eq, Ht1. by split_and!.
    + intros y t' Hy Hy'. destruct (decide (k = y)) as [->|]; [left|].
      rewrite lookup_alter_ne in Hy by done. apply (Ho y t') in Hy'; [|done]. by apply elem_of_nil in Hy'.
  - rewrite last_or_snoc in Htl. rewrite Htl.
    assert (x <> k) as Hxk by (intros ->; apply Hkq, elem_of_app; right; left).
    assert (x ∉ q) as Hxq.
    { intros Hx. apply NoDup_app in Hnd as (_ & Hd & _). eapply Hd; [done|left]. }
    split; cbn [tasks head_ tail_ count_]; try done.
    + apply lseg_app. split.
      * do 2 (apply lseg_alter; [done|]). eapply lseg_set_next; [done|apply Hl].
      * rewrite last_or_snoc. split; [|done].
        exists (set_inQueue true (set_prev (Some x) t1)).
        rewrite !lookup_alter_eq, lookup_alter_ne, Ht1 by done. by split_and!.
    + rewrite Hhd. by destruct q.
    + by rewrite last_or_snoc.
    + apply Honly; [|done]. by apply only_alter.
Qed.

Lemma repr_heap_out out q f k : repr out q f -> tasks f !! k = None -> k ∉ deadlineHeap_ f.
Proof.
  intros [_ _ Ha] Hk Hin. apply Ha in Hin as [_ [_ (t & Ht & _)]]. congruence.
Qed.

Lemma armed_insert (q : list nat) (s : Store) k y fn d subs :
  s !! k = None -> k ∉ q ->
  armed (q ++ [k]) (<[k := new_task fn d subs]> s) y <->
  armed q s y \/ (y = k /\ is_Some d).
Proof.
  intros Hk Hkq. unfold armed. rewrite elem_of_app, list_elem_of_singleton.
  destruct (decide (k = y)) as [<-|Hne].
  - rewrite lookup_insert_eq. split.
    + intros [_ (t & [= <-] & _ & Hd)]. by right.
    + intros [[? _]|[_ Hd]]; [done|]. split; [by right|]. by eexists.
  - rewrite lookup_insert_ne by done. split.
    + intros [[?|?] Ht]; [by left|congruence].
    + intros [[? Ht]|[? _]]; [|congruence]. split; [by left|done].
Qed.

(** [addTask] appends an admitted task to the sequence. *)
Lemma enqueue_spec q f k fn d subs :
  represents q f -> tasks f !! k = None ->
  represents (q ++ [k]) (enqueue k (new_task fn d subs) f).
Proof.
  intros Hr Hk. pose proof (repr_heap_out _ _ _ _ Hr Hk) as Hkh.
  destruct Hr as [HL Hh Ha]. destruct f as [s hd tl h c]; simpl in *.
  set (t := new_task fn d subs). set (s0 := <[k := t]> s).
  assert (heap_inv h s0) as Hh0.
  { eapply heap_inv_ext; [..|apply Hh].
    - intros a b Ha' Hb'. simpl. unfold deadlineEarlier, deadline_key, field, s0.
      rewrite !lookup_insert_ne; [done|by intros ->..].
    - intros x. simpl. unfold field, s0. destruct (decide (k = x)) as [<-|].
      + by rewrite lookup_insert_eq, Hk.
      + by rewrite lookup_insert_ne. }
  assert (exists h1 s1, match d with
      | Some _ => deadlineHeapPushLocked k h s0 | None => (h, s0) end = (h1, s1) /\
    heap_inv h1 s1 /\ hs_core s1 = hs_core s0 /\
    forall x, x ∈ h1 <-> x ∈ h \/ (x = k /\ is_Some d)) as (h1 & s1 & Heq & Hh1 & Hc1 & Hin).
  { destruct d as [dl|].
    - destruct (heap_push_spec k h s0) as (? & Hp & ?); [done| |..].
      + unfold s0. simpl. rewrite lookup_insert_eq. by eexists.
      + simpl. unfold field, s0. by rewrite lookup_insert_eq.
      + unfold deadlineHeapPushLocked. destruct (heap_push k h s0) as [h1 s1]; simpl in *.
        exists h1, s1. split_and!; try done. intros x. rewrite Hp, elem_of_cons. split; [intros [->|?]; [right; by split|by left]|intros [?|[-> _]]; [by right|by left]].
    - exists h, s0. split_and!; try done. intros x. split; [by left|]. by intros [?|[_ [? ?]]]. }
  unfold enqueue. cbn [tasks deadlineHeap_ head_ tail_ count_]. fold t s0.
  replace (deadline t) with d by done. rewrite Heq.
  pose proof (enqueue_links q s s1 hd tl h h1 c k t HL Hk Hc1 eq_refl eq_refl eq_refl) as HL'.
  destruct tl as [x|]; (split; [done| |]); cbn [tasks deadlineHeap_].
  1, 3: repeat (apply heap_inv_alter; [done..|]); done.
  all: intros y; rewrite !armed_alter by done; rewrite Hin, Ha;
    rewrite (armed_core _ _ _ _ Hc1).
  all: assert (k ∉ q) as Hkq by (eapply lseg_live_out; [apply HL|done]).
  all: assert (armed (q ++ [k]) s0 y <-> armed q s y \/ (y = k /\ is_Some d)) as ->;
    [|pose proof (not_elem_of_nil y); tauto].
  all: by apply armed_insert.
Qed.

(** ** Moving a task to the front *)

Lemma lseg_node_mid s p q1 k q2 n :
  lseg s p (q1 ++ k :: q2) n ->
  lseg s p q1 (Some k) /\ node s (last_or p q1) k (hd_or n q2) /\ lseg s (Some k) q2 n.
Proof. rewrite lseg_app. simpl. tauto. Qed.

Lemma NoDup_mid (q1 q2 : list nat) k :
  NoDup (q1 ++ k :: q2) ->
  NoDup (q1 ++ q2) /\ k ∉ q1 /\ k ∉ q2 /\ (forall x, x ∈ q1 -> x ∉ q2).
Proof.
  intros H. pose proof H as H'. rewrite <- Permutation_middle in H'.
  apply NoDup_cons in H' as [Hk Hnd]. rewrite elem_of_app in Hk. split_and!; [done|tauto..|].
  apply NoDup_app in Hnd as (_ & Hd & _). exact Hd.
Qed.

Lemma node_fields s p k n : node s p k n -> field prev k s = p /\ field next k s = n.
Proof. unfold field. intros (t & -> & <- & <- & _). done. Qed.

Lemma node_set s p k n p' n' :
  node s p k n -> node (alter (set_prev p') k (alter (set_next n') k s)) p' k n'.
Proof.
  intros (t & Ht & _ & _ & Hq). exists (set_prev p' (set_next n' t)).
  rewrite !lookup_alter_eq, Ht. by split_and!.
Qed.

Lemma last_or_app_ne p (q1 q2 : list nat) :
  q1 <> [] -> last_or p (q1 ++ q2) = match q2 with [] => last_or p q1 | _ => last_or p q2 end.
Proof.
  intros Hne. destruct q2 as [|x q2]; [by rewrite app_nil_r|].
  unfold last_or. rewrite last_app, last_cons. by destruct (last q2).
Qed.

Lemma relink_lseg s q1 k q2 hd tl :
  NoDup (q1 ++ k :: q2) -> q1 <> [] ->
  lseg s None (q1 ++ k :: q2) None -> hd = hd_or None (q1 ++ k :: q2) ->
  tl = last_or None (q1 ++ k :: q2) ->
  let r := relink k hd tl s in
  lseg r.1 None (k :: q1 ++ q2) None /\ r.2 = last_or None (k :: q1 ++ q2).
Proof.
  intros Hnd Hne Hl Hhd Htl.
  destruct (lseg_node_mid _ _ _ _ _ _ Hl) as (Hl1 & Hk & Hl2).
  destruct (NoDup_mid _ _ _ Hnd) as (Hnd' & Hk1 & Hk2 & Hd12).
  pose proof (node_fields _ _ _ _ Hk) as [Hp Hn].
  destruct q1 as [|h0 q1'] eqn:Eq1; [done|]. rewrite <- Eq1 in *. clear Hne.
  assert (exists q0 pr, q1 = q0 ++ [pr]) as (q0 & pr & Eq0).
  { destruct (last q1) as [pr|] eqn:Ez; [|apply last_None in Ez; by subst q1].
    apply last_Some in Ez as [q0 Ez]. eauto. }
  assert (last_or None q1 = Some pr) as Hlast by (subst q1; rewrite Eq0; apply last_or_snoc).
  assert (pr ∈ q1 /\ pr ∉ q0 /\ pr <> k) as (Hpr & Hpr0 & Hprk).
  { split_and!; [rewrite Eq0; apply elem_of_app; right; left|..].
    - rewrite Eq0, <- app_assoc in Hnd'. apply NoDup_mid in Hnd'. tauto.
    - intros ->. apply Hk1. rewrite Eq0. apply elem_of_app. right. left. }
  unfold relink. rewrite Hn, Hp, Hlast.
  (* the successor, if any, gets the predecessor of [k] *)
  assert (exists s2, (match hd_or None q2 with
      | Some n => (alter (set_prev (Some pr)) n s, tl) | None => (s, Some pr) end)
      = (s2, last_or None (k :: q1 ++ q2)) /\
    lseg s2 None q1 (Some k) /\ node s2 (Some pr) k (hd_or None q2) /\
    lseg s2 (Some pr) q2 None) as (s2 & -> & Hl1' & Hk' & Hl2').
  { rewrite Hlast in Hk. destruct q2 as [|n q2]; cbn [hd_or].
    - exists s. split_and!; try done. rewrite app_nil_r, last_or_cons. f_equal.
      subst q1. rewrite Eq0. by rewrite last_or_snoc.
    - exists (alter (set_prev (Some pr)) n s). apply not_elem_of_cons in Hk2 as [Hkn Hk2].
      split_and!.
      + f_equal. rewrite Htl, last_or_cons. rewrite !last_or_app_ne by (by subst q1).
        by rewrite !last_or_cons.
      + apply lseg_alter; [|done]. intros Hin. eapply Hd12; [done|left].
      + by apply node_alter_ne.
      + eapply lseg_set_prev; [|done]. apply NoDup_app in Hnd' as (_ & _ & Hnd2).
        by apply NoDup_cons in Hnd2 as []. }
  pose proof (node_fields _ _ _ _ Hk') as [Hp' Hn']. rewrite Hp', Hn'. cbn [fst snd].
  (* the predecessor gets the successor of [k] *)
  assert (lseg (alter (set_next (hd_or None q2)) pr s2) None (q1 ++ q2) None) as Hq.
  { apply lseg_app. split.
    - rewrite Eq0 in Hl1' |- *. eapply lseg_set_next; [done|apply Hl1'].
    - rewrite Hlast. apply lseg_alter; [|done]. by apply Hd12. }
  assert (node (alter (set_next (hd_or None q2)) pr s2) (Some pr) k (hd_or None q2)) as Hk2'
    by (by apply node_alter_ne).
  replace hd with (Some h0) in * by (rewrite Hhd; by subst q1).
  split; [|done]. apply (node_set _ _ _ _ None (Some h0)) in Hk2'.
  assert (k ∉ q1 ++ q2) as Hkq by (rewrite elem_of_app; tauto).
  subst q1. simpl in Hkq. apply not_elem_of_cons in Hkq as [Hkh Hkq].
  split; [by apply node_alter_ne|]. cbn [app] in *.
  eapply lseg_set_prev; [by apply NoDup_cons in Hnd' as []|].
  do 2 (apply lseg_alter; [by apply not_elem_of_cons|]). exact Hq.
Qed.

Lemma relink_keeps_only s k hd tl (q : list nat) :
  (forall x t, s !! x = Some t -> inQueue t = true -> x ∈ q) ->
  forall x t, (relink k hd tl s).1 !! x = Some t -> inQueue t = true -> x ∈ q.
Proof.
  intros Ho. unfold relink.
  destruct (field next k s) as [n|]; cbn [fst];
  match goal with |- context [field prev k ?s2] => destruct (field prev k s2) end;
  destruct hd; cbn [fst]; repeat (apply only_alter; [done|]); done.
Qed.

Lemma relink_heap s k hd tl h : heap_inv h s -> heap_inv h (relink k hd tl s).1.
Proof.
  intros Hh. unfold relink.
  destruct (field next k s) as [n|]; cbn [fst];
  match goal with |- context [field prev k ?s2] => destruct (field prev k s2) end;
  destruct hd; cbn [fst]; repeat (apply heap_inv_alter; [done..|]); done.
Qed.

Lemma relink_armed s k hd tl q x : armed q (relink k hd tl s).1 x <-> armed q s x.
Proof.
  unfold relink.
  destruct (field next k s) as [n|]; cbn [fst];
  match goal with |- context [field prev k ?s2] => destruct (field prev k s2) end;
  destruct hd; cbn [fst]; by rewrite !armed_alter.
Qed.

Definition exped (f : State) (k : nat) : bool :=
  match tasks f !! k with Some t => expedited t | None => false end.

(** Two states whose tasks have the same deadlines. *)
Definition same_deadlines (f f' : State) : Prop :=
  forall x, field deadline x (tasks f') = field deadline x (tasks f).

Lemma same_deadlines_key f f' x :
  same_deadlines f f' -> deadline_key (tasks f') x = deadline_key (tasks f) x.
Proof. unfold deadline_key. by intros ->. Qed.

Lemma relink_field {A} (proj : PoolTask -> option A) s k hd tl x :
  (forall n, keeps proj (set_next n)) -> (forall p, keeps proj (set_prev p)) ->
  field proj x (relink k hd tl s).1 = field proj x s.
Proof.
  intros Hn Hp. unfold relink.
  destruct (field next k s) as [n|]; cbn [fst];
  match goal with |- context [field prev k ?s2] => destruct (field prev k s2) end;
  destruct hd; cbn [fst]; rewrite !field_alter; auto.
Qed.

Lemma core_field {A} (proj : PoolTask -> option A) s s' k :
  (forall i t, proj (set_deadlineIndex i t) = proj t) ->
  hs_core s = hs_core s' -> field proj k s = field proj k s'.
Proof. intros Hp Hc. apply body_field; [done|]. by apply core_body. Qed.

Lemma exped_field f k : exped f k = default false (field (fun t => Some (expedited t)) k (tasks f)).
Proof. unfold exped, field. by destruct (tasks f !! k). Qed.

Lemma armed_exped q f k :
  links q f -> armed q (tasks f) k <->
  k ∈ q /\ exped f k = false /\ is_Some (field deadline k (tasks f)).
Proof.
  intros HL. unfold armed, exped, field. split.
  - intros [Hk (t & -> & He & Hd)]. done.
  - intros (Hk & He & Hd). split; [done|]. destruct (tasks f !! k) as [t|]; [|by destruct Hd].
    by exists t.
Qed.

(** ** [requeueToFrontLocked] *)

Lemma requeueToFrontLocked_spec out q f k :
  repr out q f -> (forall x, x ∈ out -> x = k) -> k ∈ q -> exped f k = false ->
  exists f', requeueToFrontLocked k f = (f', true) /\
    represents (k :: without k q) f' /\ same_deadlines f f' /\
    (forall x, exped f' x = bool_decide (x = k) || exped f x).
Proof.
  intros [HL Hh Ha] Hout Hk He. destruct f as [s hd tl h c]; simpl in *.
  pose proof (proj1 (links_elem _ _ _ HL) Hk) as (t & Ht & Hq). simpl in Ht.
  unfold exped in He. simpl in He. rewrite Ht in He.
  unfold requeueToFrontLocked. cbn [tasks]. rewrite Ht, Hq, He. cbn [negb orb].
  set (s0 := alter (set_expedited true) k s). cbn [deadlineHeap_ head_ tail_ count_].
  assert (heap_inv h s0) as Hh0 by (by apply heap_inv_alter).
  destruct (heap_remove_spec k h s0 Hh0) as (Hh1 & Hp1 & Hc1).
  unfold deadlineHeapRemoveLocked. destruct (heap_remove k h s0) as [h1 s1]. cbn [fst snd] in *.
  assert (forall hp, links q (mkState s1 hd tl hp c)) as HL1.
  { intros hp. eapply (links_core _ s0 _ _ _ _ h); [by symmetry|].
    destruct HL as [? Hl ? ? ? Ho]; simpl in *. split; simpl; try done.
    - eapply lseg_frame_alter; [|done]. by intros [].
    - by apply only_alter. }
  assert (forall x, (exped (mkState s1 hd tl h1 c) x) = bool_decide (x = k) || exped (mkState s hd tl h c) x)
    as Hexp.
  { intros x. rewrite !exped_field. cbn [tasks].
    rewrite (core_field _ s1 s0 x) by done. unfold field, s0.
    destruct (decide (k = x)) as [<-|]; [rewrite lookup_alter_eq|rewrite lookup_alter_ne by done].
    - by rewrite Ht, bool_decide_eq_true_2.
    - by rewrite bool_decide_eq_false_2. }
  assert (same_deadlines (mkState s hd tl h c) (mkState s1 hd tl h1 c)) as Hdl.
  { intros x. cbn [tasks]. rewrite (core_field _ s1 s0 x) by done. by apply field_alter. }
  assert (forall x, x ∈ h1 <-> (x ∉ []) /\ armed q s1 x) as Ha1.
  { intros x. rewrite Hp1, elem_of_without, Ha.
    rewrite (armed_exped q (mkState s1 hd tl h1 c)) by done.
    rewrite (armed_exped q (mkState s hd tl h c)) by done. rewrite Hexp, (Hdl x).
    destruct (decide (x = k)) as [->|Hne].
    - rewrite bool_decide_eq_true_2 by done. simpl. naive_solver.
    - rewrite bool_decide_eq_false_2 by done. simpl.
      pose proof (not_elem_of_nil x). naive_solver. }
  apply list_elem_of_split in Hk as (q1 & q2 & ->).
  pose proof (links_nodup _ _ HL) as Hnd. rewrite (without_split k q1 q2) by done.
  case_bool_decide as Hhd.
  - (* already at the head *)
    assert (q1 = []) as ->.
    { pose proof (links_head _ _ HL) as Hh'. simpl in Hh'. rewrite Hh' in Hhd.
      destruct q1 as [|h0 q1]; [done|]. simpl in Hhd. simplify_eq.
      apply NoDup_mid in Hnd as (_ & Hn & _). exfalso. apply Hn. left. }
    eexists. split; [done|]. split_and!; [|done|done]. split; done.
  - assert (q1 <> []) as Hne.
    { intros ->. apply Hhd. apply (links_head _ _ HL). }
    pose proof (HL1 h) as [_ Hl1 Hhd1 Htl1 Hcnt1 Ho1]. simpl in *.
    destruct (relink_lseg s1 q1 k q2 hd tl) as [Hl Htl]; try done.
    pose proof (relink_keeps_only s1 k hd tl _ Ho1) as Ho2.
    pose proof (relink_heap s1 k hd tl h1 Hh1) as Hh2.
    pose proof (fun q => relink_armed s1 k hd tl q) as Ha2.
    pose proof (fun x => relink_field deadline s1 k hd tl x (fun _ _ => eq_refl) (fun _ _ => eq_refl)) as Hd2.
    pose proof (fun x => relink_field (fun t => Some (expedited t)) s1 k hd tl x
      (fun _ _ => eq_refl) (fun _ _ => eq_refl)) as He2.
    destruct (relink k hd tl s1) as [s2 tl2]; cbn [fst snd] in *.
    eexists. split; [done|]. split_and!.
    + split; [split| |]; cbn [tasks head_ tail_ count_ deadlineHeap_]; try done.
      * by rewrite Permutation_middle.
      * rewrite Hcnt1. rewrite <- Permutation_middle. done.
      * intros x t' Hx Hx'. rewrite Permutation_middle. by eapply Ho2.
      * intros x. rewrite Ha1, Ha2. unfold armed. by rewrite Permutation_middle.
    + intros x. cbn [tasks]. rewrite Hd2. apply (Hdl x).
    + intros x. rewrite <- Hexp, !exped_field. cbn [tasks]. by rewrite He2.
Qed.

Lemma requeueToFrontLocked_noop q f k :
  links q f -> k ∉ q \/ exped f k = true -> requeueToFrontLocked k f = (f, false).
Proof.
  intros HL Hor. unfold requeueToFrontLocked, exped in *.
  destruct (tasks f !! k) as [t|] eqn:Ht; [|done].
  destruct (inQueue t) eqn:Hq; [|done]. simpl. destruct Hor as [Hk| ->]; [|done].
  exfalso. apply Hk. by eapply links_only.
Qed.

(** ** Promotion of expired deadlines *)

Definition without_all (es q : list nat) : list nat := filter (fun x => x ∉ es) q.

Lemma without_all_nil q : without_all [] q = q.
Proof.
  unfold without_all. induction q as [|x q IH]; [done|].
  rewrite filter_cons_True by apply not_elem_of_nil. by rewrite IH.
Qed.

Lemma without_all_cons k es q :
  k ∉ es -> without_all es (k :: without k q) = k :: without_all (k :: es) q.
Proof.
  intros Hk. unfold without_all. rewrite filter_cons_True by done. f_equal.
  unfold without. induction q as [|x q IH]; [done|].
  destruct (decide (x = k)) as [->|Hne].
  - rewrite (filter_cons_False _ k) by (intros []; done).
    rewrite (filter_cons_False _ k) by (intros []; left). done.
  - rewrite (filter_cons_True _ x) by done. destruct (decide (x ∈ es)).
    + rewrite !filter_cons_False; [done| |]; intros Hx; apply Hx; [by right|done].
    + rewrite !filter_cons_True; [by rewrite IH| |done]. by apply not_elem_of_cons.
Qed.

(** Tasks in the order of their deadlines. *)
Definition by_deadline (f : State) : relation nat :=
  fun a b => deadline_key (tasks f) a <= deadline_key (tasks f) b.

(** The effect of a promotion: the tasks [es], ordered by deadline, were moved to
    the front one after the other, so the last of them is the new head. *)
Record promotes (es q : list nat) (f f' : State) : Prop := {
  promotes_repr : represents (reverse es ++ without_all es q) f';
  promotes_sorted : StronglySorted (by_deadline f) es;
  promotes_deadlines : same_deadlines f f';
  promotes_exped : forall x, exped f' x = bool_decide (x ∈ es) || exped f x;
}.

Lemma represents_heap q f x :
  represents q f -> x ∈ deadlineHeap_ f <->
  x ∈ q /\ exped f x = false /\ is_Some (field deadline x (tasks f)).
Proof.
  intros [HL _ Ha]. rewrite Ha, armed_exped by done. pose proof (not_elem_of_nil x). tauto.
Qed.

Lemma promotes_nil q f : represents q f -> promotes [] q f f.
Proof.
  intros Hr. split; [|constructor|done|done]. simpl. by rewrite without_all_nil.
Qed.

Lemma heap_root_deadline q f k x :
  represents q f -> deadlineHeap_ f !! 0%nat = Some k -> x ∈ deadlineHeap_ f ->
  deadline_key (tasks f) k <= deadline_key (tasks f) x.
Proof.
  intros Hr Hroot Hx. pose proof (heap_root_min _ _ _ x (repr_heap _ _ _ Hr) Hroot Hx) as Hl.
  simpl in Hl. unfold deadlineEarlier in Hl. bool_to_prop. lia.
Qed.

(** Taking the root out of the deadline heap leaves the list and disarms only it. *)
Lemma remove_root_repr q f k h1 s1 :
  represents q f -> deadlineHeap_ f !! 0%nat = Some k ->
  heap_remove_at 0 (deadlineHeap_ f) (tasks f) = (h1, s1) ->
  let f1 := mkState s1 (head_ f) (tail_ f) h1 (count_ f) in
  repr [k] q f1 /\ same_deadlines f f1 /\ (forall x, exped f1 x = exped f x) /\
  k :: h1 ≡ₚ deadlineHeap_ f.
Proof.
  intros Hr Hroot Heq. destruct (heap_remove_at_spec 0 _ _ k (repr_heap _ _ _ Hr) Hroot)
    as (Hh1 & Hp1 & Hc1). rewrite Heq in *. cbn [fst snd] in *. split_and!; [split|..].
  - destruct f. eapply links_core; [|apply Hr]. done.
  - done.
  - intros x. cbn [deadlineHeap_ tasks]. rewrite (armed_core q s1 (tasks f)) by done.
    assert (NoDup (k :: h1)) as [Hkh _]%NoDup_cons.
    { rewrite Hp1. eapply indexed_NoDup, (repr_heap _ _ _ Hr). }
    pose proof (repr_armed _ _ _ Hr x) as Hx. rewrite <- Hp1, elem_of_cons in Hx.
    rewrite list_elem_of_singleton. pose proof (not_elem_of_nil x).
    split; [|tauto]. intros Hx1. split; [intros ->; done|]. tauto.
  - intros x. by apply core_field.
  - intros x. rewrite !exped_field. f_equal. by apply core_field.
  - done.
Qed.

(** One iteration of the promotion loop. *)
Lemma promote_one q f k h1 s1 :
  represents q f -> deadlineHeap_ f !! 0%nat = Some k ->
  heap_remove_at 0 (deadlineHeap_ f) (tasks f) = (h1, s1) ->
  exists f2,
    requeueToFrontLocked k (mkState s1 (head_ f) (tail_ f) h1 (count_ f)) = (f2, true) /\
    represents (k :: without k q) f2 /\ same_deadlines f f2 /\
    (forall x, exped f2 x = bool_decide (x = k) || exped f x) /\
    (forall x, x ∈ deadlineHeap_ f2 <-> x ∈ deadlineHeap_ f /\ x <> k) /\
    (length (deadlineHeap_ f2) < length (deadlineHeap_ f))%nat.
Proof.
  intros Hr Hroot Heq. destruct (remove_root_repr _ _ _ _ _ Hr Hroot Heq) as (Hr1 & Hd1 & He1 & Hp1).
  assert (k ∈ deadlineHeap_ f) as Hkin by (apply list_elem_of_lookup; eauto).
  apply (represents_heap _ _ _ Hr) in Hkin as (Hkq & Hke & Hkd).
  destruct (requeueToFrontLocked_spec [k] q _ k Hr1) as (f2 & Heq2 & Hr2 & Hd2 & He2); [|done| |].
  { by intros x ->%list_elem_of_singleton. }
  { by rewrite He1. }
  exists f2. assert (same_deadlines f f2) as Hd by (intros x; rewrite (Hd2 x); apply Hd1).
  assert (forall x, exped f2 x = bool_decide (x = k) || exped f x) as He.
  { intros x. by rewrite He2, He1. }
  assert (forall x, x ∈ deadlineHeap_ f2 <-> x ∈ deadlineHeap_ f /\ x <> k) as Hheap2.
  { intros x. rewrite (represents_heap _ _ _ Hr2), (represents_heap _ _ _ Hr).
    rewrite He, (Hd x), elem_of_cons, elem_of_without.
    destruct (decide (x = k)) as [->|].
    - rewrite bool_decide_eq_true_2 by done. simpl. split; [intros (_ & ? & _)|]; [done|tauto].
    - rewrite bool_decide_eq_false_2 by done. simpl. tauto. }
  split_and!; try done. rewrite <- Hp1. simpl. apply Nat.lt_succ_r.
  apply submseteq_length, NoDup_submseteq.
  - eapply indexed_NoDup, (repr_heap _ _ _ Hr2).
  - intros x [Hx Hne]%Hheap2. rewrite <- Hp1 in Hx. by apply elem_of_cons in Hx as [?|?].
Qed.

Lemma promotes_cons k es q f f2 f' :
  represents q f -> deadlineHeap_ f !! 0%nat = Some k -> same_deadlines f f2 ->
  (forall x, exped f2 x = bool_decide (x = k) || exped f x) ->
  (forall x, x ∈ es -> x ∈ deadlineHeap_ f /\ x <> k) ->
  promotes es (k :: without k q) f2 f' -> promotes (k :: es) q f f'.
Proof.
  intros Hr Hroot Hd He Hes [Hr' Hs' Hd' He'].
  assert (k ∉ es) as Hkes by (intros [_ ?]%Hes; done). split.
  - rewrite reverse_cons, <- app_assoc. simpl. rewrite <- without_all_cons by done. done.
  - apply SSorted_cons.
    + clear -Hs' Hd. induction Hs' as [|a l _ IH Hf]; constructor; [done|].
      eapply Forall_impl; [apply Hf|]. intros b. unfold by_deadline.
      by rewrite !(same_deadlines_key f f2).
    + apply Forall_forall. intros x Hx. apply Hes in Hx as [Hx _].
      by eapply heap_root_deadline.
  - intros x. rewrite (Hd' x). apply Hd.
  - intros x. rewrite He', He, orb_assoc. f_equal.
    destruct (decide (x = k)) as [->|Hne].
    + rewrite (bool_decide_eq_true_2 (k = k)), (bool_decide_eq_true_2 (k ∈ k :: es)) by (done || left).
      apply orb_true_r.
    + rewrite (bool_decide_eq_false_2 (x = k)), orb_false_r by done. apply bool_decide_ext.
      rewrite elem_of_cons. tauto.
Qed.

Lemma promote_loop_spec fuel now q f n :
  represents q f -> (length (deadlineHeap_ f) <= fuel)%nat ->
  exists es f', promote_loop fuel now f n = (f', (n + length es)%nat) /\
    promotes es q f f' /\
    (forall x, x ∈ es <-> x ∈ deadlineHeap_ f /\ deadline_key (tasks f) x <= now).
Proof.
  revert q f n. induction fuel as [|fuel IH]; intros q f n Hr Hf; simpl.
  { exists [], f. rewrite Nat.add_0_r. split; [done|]. split; [by apply promotes_nil|].
    intros x. destruct (deadlineHeap_ f); [|simpl in Hf; lia].
    pose proof (not_elem_of_nil x). tauto. }
  destruct (deadlineHeap_ f) as [|k h] eqn:Hheap.
  { exists [], f. rewrite Nat.add_0_r. split; [done|]. split; [by apply promotes_nil|].
    intros x. pose proof (not_elem_of_nil x). tauto. }
  rewrite <- Hheap in *.
  assert (deadlineHeap_ f !! 0%nat = Some k) as Hroot by (by rewrite Hheap).
  destruct (Z.leb_spec (deadline_key (tasks f) k) now) as [Hle|Hgt]; cycle 1.
  { exists [], f. rewrite Nat.add_0_r. split; [done|]. split; [by apply promotes_nil|].
    intros x. pose proof (not_elem_of_nil x). split; [tauto|].
    intros [Hx ?]. pose proof (heap_root_deadline _ _ _ _ Hr Hroot Hx). lia. }
  unfold deadlineHeapRemoveAtLocked.
  destruct (heap_remove_at 0 (deadlineHeap_ f) (tasks f)) as [h1 s1] eqn:Heq1.
  destruct (promote_one _ _ _ _ _ Hr Hroot Heq1) as (f2 & -> & Hr2 & Hd & He & Hheap2 & Hlen).
  destruct (IH (k :: without k q) f2 (S n)) as (es & f' & Heq' & Hp' & Hes); [done|lia|].
  exists (k :: es), f'. split; [rewrite Heq'; f_equal; simpl; lia|]. split.
  - eapply promotes_cons; try done. intros x [? _]%Hes. by apply Hheap2.
  - assert (k ∈ deadlineHeap_ f) by (apply list_elem_of_lookup; eauto).
    intros x. rewrite elem_of_cons, Hes, Hheap2, (same_deadlines_key f f2) by done.
    split; [intros [->|?]; [done|tauto]|].
    intros [? ?]. destruct (decide (x = k)); [by left|right; tauto].
Qed.

Lemma promote_guard now f :
  (if bool_decide (deadlineHeap_ f = []) then (f, 0%nat)
   else promoteExpiredDeadlinesLocked now f) = promoteExpiredDeadlinesLocked now f.
Proof.
  case_bool_decide as Hn; [|done]. unfold promoteExpiredDeadlinesLocked. by rewrite Hn.
Qed.

(** A task whose deadline has passed and that was not promoted yet. *)
Definition expired (now : Z) (q : list nat) (f : State) (x : nat) : Prop :=
  x ∈ q /\ exped f x = false /\ exists d, field deadline x (tasks f) = Some d /\ d <= now.

Lemma expired_heap now q f x :
  represents q f ->
  expired now q f x <-> x ∈ deadlineHeap_ f /\ deadline_key (tasks f) x <= now.
Proof.
  intros Hr. rewrite (represents_heap _ _ _ Hr). unfold expired, deadline_key. split.
  - intros (? & ? & d & Hd & ?). rewrite Hd. by split_and!.
  - intros [(? & ? & [d Hd]) Hk]. rewrite Hd in Hk. split_and!; eauto.
Qed.

Lemma promoteExpired_spec now q f :
  represents q f ->
  exists es f', promoteExpiredDeadlinesLocked now f = (f', length es) /\
    promotes es q f f' /\ (forall x, x ∈ es <-> expired now q f x).
Proof.
  intros Hr. destruct (promote_loop_spec (length (deadlineHeap_ f)) now q f 0 Hr)
    as (es & f' & Heq & Hp & Hes); [done|].
  exists es, f'. split; [done|]. split; [done|]. intros x. rewrite Hes. symmetry.
  by apply expired_heap.
Qed.

(** ** Unlinking the head *)

Lemma dequeue_links k q f h4 s4 head2 s2 tail2 :
  links (k :: q) f -> head2 = field next k (tasks f) ->
  (s2, tail2) = match head2 with
    | Some h => (alter (set_prev None) h (tasks f), tail_ f)
    | None => (tasks f, None) end ->
  hs_core s4 = hs_core (alter (set_inQueue false) k (alter (set_next None) k s2)) ->
  links q (mkState s4 head2 tail2 h4 (count_ f - 1)).
Proof.
  intros [Hnd [Hk Hl] Hhd Htl Hc Ho] -> Heq Hcore. apply NoDup_cons in Hnd as [Hkq Hnd].
  pose proof (node_fields _ _ _ _ Hk) as [_ Hn]. rewrite Hn in *.
  eapply (links_core _ _ _ _ _ _ h4); [by symmetry|]. split; cbn [tasks head_ tail_ count_]; try done.
  - do 2 (apply lseg_alter; [done|]). destruct q as [|h q]; [done|]. simpl in Heq. simplify_eq.
    apply NoDup_cons in Hnd as [? _]. by eapply lseg_set_prev.
  - rewrite last_or_cons in Htl. destruct q as [|h q]; simpl in Heq; simplify_eq; [done|].
    rewrite Htl. by rewrite !last_or_cons.
  - rewrite Hc. simpl. lia.
  - intros x t Hx Hq. destruct (decide (k = x)) as [->|Hne].
    { rewrite lookup_alter_eq in Hx. destruct (alter _ _ _ !! x); [|done].
      simpl in Hx. by simplify_eq. }
    rewrite !lookup_alter_ne in Hx by done.
    enough (x ∈ k :: q) as [?|?]%elem_of_cons by done.
    destruct q as [|h q]; simpl in Heq; simplify_eq; [by eapply Ho|].
    destruct (decide (h = x)) as [->|]; [right; left|].
    rewrite lookup_alter_ne in Hx by done. by eapply Ho.
Qed.

Lemma elem_of_hd (k : nat) q1 q2 : q1 = k :: q2 -> k ∈ q1.
Proof. intros ->. left. Qed.

Lemma dequeue_head now k q f f1 n :
  promoteExpiredDeadlinesLocked now f = (f1, n) -> represents (k :: q) f1 ->
  exists f', dequeue now f = Some (k, n, f') /\ represents q f' /\ same_deadlines f1 f' /\
    (forall x, exped f' x = exped f1 x).
Proof.
  intros Hpr [HL Hh Ha]. unfold dequeue. rewrite promote_guard, Hpr.
  rewrite (links_head _ _ HL). cbn [hd_or].
  destruct (match field next k (tasks f1) with
    | Some h => (alter (set_prev None) h (tasks f1), tail_ f1)
    | None => (tasks f1, None) end) as [s2 tail2] eqn:Hs2.
  set (s3 := alter (set_inQueue false) k (alter (set_next None) k s2)).
  assert (heap_inv (deadlineHeap_ f1) s3) as Hh3.
  { unfold s3. do 2 (apply heap_inv_alter; [done..|]).
    destruct (field next k (tasks f1)); simplify_eq; [by apply heap_inv_alter|done]. }
  destruct (heap_remove_spec k _ _ Hh3) as (Hh4 & Hp4 & Hc4). unfold deadlineHeapRemoveLocked.
  destruct (heap_remove k (deadlineHeap_ f1) s3) as [h4 s4]; cbn [fst snd] in *.
  assert (forall A (proj : PoolTask -> option A) x,
    (forall n, keeps proj (set_next n)) -> (forall p, keeps proj (set_prev p)) ->
    keeps proj (set_inQueue false) -> (forall i t, proj (set_deadlineIndex i t) = proj t) ->
    field proj x s4 = field proj x (tasks f1)) as Hfld.
  { intros A proj x H1 H2 H3 H4. rewrite (core_field _ s4 s3) by done. unfold s3.
    rewrite !field_alter by done.
    destruct (field next k (tasks f1)); simplify_eq; [by apply field_alter|done]. }
  eexists. split; [done|].
  assert (links q (mkState s4 (field next k (tasks f1)) tail2 h4 (count_ f1 - 1))) as HL'.
  { eapply dequeue_links; [done|done|by symmetry|done]. }
  assert (forall x, exped (mkState s4 (field next k (tasks f1)) tail2 h4 (count_ f1 - 1)) x = exped f1 x)
    as He by (intros x; rewrite !exped_field; f_equal; by apply Hfld).
  split_and!; [split| |]; cbn [tasks deadlineHeap_]; try done; cycle 1.
  { intros x. by apply Hfld. }
  intros x. rewrite Hp4, elem_of_without, Ha, (armed_exped _ _ _ HL), (armed_exped _ _ _ HL').
  cbn [tasks]. rewrite He, Hfld, elem_of_cons by done. pose proof (not_elem_of_nil x).
  pose proof (links_nodup _ _ HL) as [Hkq _]%NoDup_cons.
  split; [tauto|]. intros (_ & Hx & ?). split; [by intros ->|tauto].
Qed.

Lemma without_all_cover es (q : list nat) x : x ∈ q -> x ∈ reverse es ++ without_all es q.
Proof.
  intros Hx. rewrite elem_of_app, elem_of_reverse. unfold without_all.
  rewrite list_elem_of_filter. destruct (decide (x ∈ es)); tauto.
Qed.

Lemma dequeue_empty now f : represents [] f -> dequeue now f = None.
Proof.
  intros Hr. unfold dequeue. assert (deadlineHeap_ f = []) as ->.
  { destruct (deadlineHeap_ f) as [|x h] eqn:Hh; [done|].
    assert (x ∈ deadlineHeap_ f) as Hx by (rewrite Hh; left).
    apply (represents_heap _ _ _ Hr) in Hx as [Hx _]. by apply not_elem_of_nil in Hx. }
  rewrite bool_decide_eq_true_2 by done. by rewrite (links_head _ _ (repr_links _ _ _ Hr)).
Qed.
End Fifo.
