(* ===== verification/PoolCore.v ===== *)
(** * Lifecycle and executors of the task pools

    [TaskPoolImpl] (runtime/pool/taskpool.hpp) and [PriorityTaskPoolImpl]
    (runtime/pool/prioritytaskpool.hpp) share their lifecycle line by line: the
    [PoolState]/[StartupResult] protocol of [start] and [stop], the manager
    coroutine that reconciles the executor set with the configuration, the
    executor coroutines that drain the queue, admission in [addTask] and the
    cancellation watches.  They differ in the run queue only.  This file has that
    shared part once, over the interface [PoolQueue]; TaskPool.v and
    PriorityTaskPool.v instantiate it.

    A pool is a transition system.  The state has the fields of the class and one
    program counter per activity: the call of [start] that won the CAS out of
    [kCreated], the call of [stop] that won the CAS to [kStopping], the manager,
    every executor, the pending cancellation watches.  A step is one action that is
    atomic in the code: a critical section under [mu_], one access to an atomic, or
    one action on a task handle.  What the step reads from outside (the clock, the
    stop requests, the configuration, whether an allocation succeeds) is its
    [Env]. *)
From Stdlib Require Import ZArith Lia.
From S2P Require Import Prelude Context.
Local Open Scope Z_scope.

(** ** The interface of a run queue *)

(** What [addTask] hands over: callback, deadline, stop sources, priority. *)
Record TaskArgs := mkTaskArgs {
  arg_fn : nat;
  arg_deadline : Deadline;
  arg_sources : list nat;
  arg_priority : Z;
}.

Class PoolQueue (Q : Type) := {
  pq_empty : Q;
  (** [count_] or [heap_.size()]. *)
  pq_size : Q -> Z;
  pq_add : nat -> TaskArgs -> Q -> Q;
  (** A cancellation watch for a task: new queue and number of promotions. *)
  pq_cancel : Z -> nat -> Q -> Q * nat;
  (** Promote expired deadlines and take the next task out. *)
  pq_pop : Z -> Q -> option (nat * nat * Q);
  (** The last owner of a task object goes away. *)
  pq_retire : nat -> Q -> Q;
  (** [pq_rep q live s]: the queued tasks of [s] are [q], its objects [live]. *)
  pq_rep : list nat -> gset nat -> Q -> Prop;
}.

Class PoolQueueLaws (Q : Type) {PQ : PoolQueue Q} : Prop := {
  pq_rep_empty : pq_rep [] ∅ pq_empty;
  pq_rep_size q live s : pq_rep q live s -> pq_size s = Z.of_nat (length q);
  pq_rep_nodup q live s : pq_rep q live s -> NoDup q;
  pq_rep_live q live s k : pq_rep q live s -> k ∈ q -> k ∈ live;
  pq_add_rep q live s k a :
    pq_rep q live s -> k ∉ live ->
    exists q', pq_rep q' ({[k]} ∪ live) (pq_add k a s) /\ q' ≡ₚ k :: q;
  pq_cancel_rep q live s now k :
    pq_rep q live s -> exists q', pq_rep q' live (pq_cancel now k s).1 /\ q' ≡ₚ q;
  pq_pop_rep q live s now :
    pq_rep q live s -> q <> [] ->
    exists k n s' q', pq_pop now s = Some (k, n, s') /\ pq_rep q' live s' /\ q ≡ₚ k :: q';
  pq_retire_rep q live s k :
    pq_rep q live s -> k ∉ q -> pq_rep q (live ∖ {[k]}) (pq_retire k s);
}.

(** ** State *)

Inductive PoolState :=
  | kCreated | kStarting | kRunning | kDraining | kStopping | kStopped | kFailed.

Inductive StartupResult := rPending | rReady | rCancelled | rStopped | rFailed.

#[export] Instance PoolState_eq_dec : EqDecision PoolState.
Proof. solve_decision. Defined.
#[export] Instance StartupResult_eq_dec : EqDecision StartupResult.
Proof. solve_decision. Defined.

(** The exceptions of pool.hpp; [StartFailed] is the [std::runtime_error] of
    [start], [SpawnFailed] an exception of the coroutine engine, [AllocationFailed]
    one of the allocations of [addTask]. *)
Inductive PoolError :=
  | PoolAlreadyStartedError | PoolStoppedError | PoolNotStartedError
  | PoolCancelledError | StartFailed | SpawnFailed | AllocationFailed.

(** The call of [start] that moved [kCreated] to [kStarting]. *)
Inductive StarterPc :=
  | SIdle | SEmplace | SSpawn | SAssign | SPublish | SFailPublish | SFailCas | SWait | SSwitch
  | SReturned (r : result PoolError unit).

(** The call of [stop] that moved the state to [kStopping]; [previous] is the
    state it left. *)
Inductive StopperPc :=
  | TIdle | TFields (previous : PoolState) | TMgrResolve | TMgrSend | TMgrSync
  | TTake | TJoin (toWait : list nat) | TWatches | TStore | TReturned.

(** The manager coroutine. *)
Inductive ManagerPc :=
  | MNone | MTop | MDone | MReconcile | MSpawn (n : nat) (acc : list nat)
  | MSpawnGo (n : nat) (acc : list nat) | MAdopt (acc : list nat) (failed : bool)
  | MErr | MFail | MPost | MReady | MSend | MSleep | MDrain | MExit | MFinished.

(** An executor coroutine: waiting for work, about to drop the callbacks of the
    task it took, running it, about to give back its slot, returning, finished. *)
Inductive ExecPc :=
  | EWait | EReset (k : nat) | ERun (k : nat) | EExit | EReturn | EFinished.

#[export] Instance ExecPc_eq_dec : EqDecision ExecPc.
Proof. solve_decision. Defined.

Record Pool (Q : Type) := mkPool {
  state_ : PoolState;
  startupResult_ : StartupResult;
  done_ : bool;
  targetExecutors_ : Z;
  allocatedExecutors_ : Z;
  busyExecutors_ : Z;
  readyEvent_ : bool;
  fieldsPublished_ : bool;
  managerTask_ : bool;
  managerCancel : bool;
  cancelWatches_ : bool;
  executors_ : list nat;
  queue_ : Q;
  lifecycle : ContextState;
  starter : StarterPc;
  stopper : StopperPc;
  manager : ManagerPc;
  execs : gmap nat ExecPc;
  watches : list nat;
  taskRejectedCounter_ : nat;
  taskCancelledCounter_ : nat;
  tasksTotal_ : nat;
  (* history: tasks accepted by addTask and tasks whose callback was run, oldest
     first; the largest executor target so far; whether an idle executor was ever
     cancelled from outside *)
  accepted : list nat;
  executed : list nat;
  maxTarget : Z;
  executorCancelled : bool;
}.
Arguments mkPool {Q}.
Arguments state_ {Q}. Arguments startupResult_ {Q}. Arguments done_ {Q}.
Arguments targetExecutors_ {Q}. Arguments allocatedExecutors_ {Q}.
Arguments busyExecutors_ {Q}. Arguments readyEvent_ {Q}. Arguments fieldsPublished_ {Q}.
Arguments managerTask_ {Q}. Arguments managerCancel {Q}. Arguments cancelWatches_ {Q}.
Arguments executors_ {Q}. Arguments queue_ {Q}. Arguments lifecycle {Q}.
Arguments starter {Q}. Arguments stopper {Q}. Arguments manager {Q}.
Arguments execs {Q}. Arguments watches {Q}. Arguments taskRejectedCounter_ {Q}.
Arguments taskCancelledCounter_ {Q}. Arguments tasksTotal_ {Q}. Arguments accepted {Q}.
Arguments executed {Q}. Arguments maxTarget {Q}. Arguments executorCancelled {Q}.

(** What a step reads from outside the pool. *)
Record Env := mkEnv {
  now : Z;
  stopped : gset nat;
  poolConfig : option Z;
  hardware_concurrency : Z;
  allocation_ok : bool;
  task_cancelled : bool;
  metricsEnabled_ : bool;
}.

(** ** Field writes *)
Section Writes.
Context {Q : Type}.
Implicit Types p : Pool Q.

Definition set_state_ v p : Pool Q :=
  mkPool v (startupResult_ p) (done_ p) (targetExecutors_ p) (allocatedExecutors_ p)
    (busyExecutors_ p) (readyEvent_ p) (fieldsPublished_ p) (managerTask_ p)
    (managerCancel p) (cancelWatches_ p) (executors_ p) (queue_ p) (lifecycle p)
    (starter p) (stopper p) (manager p) (execs p) (watches p) (taskRejectedCounter_
    p) (taskCancelledCounter_ p) (tasksTotal_ p) (accepted p) (executed p)
    (maxTarget p) (executorCancelled p).
Definition set_startupResult_ v p : Pool Q :=
  mkPool (state_ p) v (done_ p) (targetExecutors_ p) (allocatedExecutors_ p)
    (busyExecutors_ p) (readyEvent_ p) (fieldsPublished_ p) (managerTask_ p)
    (managerCancel p) (cancelWatches_ p) (executors_ p) (queue_ p) (lifecycle p)
    (starter p) (stopper p) (manager p) (execs p) (watches p) (taskRejectedCounter_
    p) (taskCancelledCounter_ p) (tasksTotal_ p) (accepted p) (executed p)
    (maxTarget p) (executorCancelled p).
Definition set_done_ v p : Pool Q :=
  mkPool (state_ p) (startupResult_ p) v (targetExecutors_ p) (allocatedExecutors_
    p) (busyExecutors_ p) (readyEvent_ p) (fieldsPublished_ p) (managerTask_ p)
    (managerCancel p) (cancelWatches_ p) (executors_ p) (queue_ p) (lifecycle p)
    (starter p) (stopper p) (manager p) (execs p) (watches p) (taskRejectedCounter_
    p) (taskCancelledCounter_ p) (tasksTotal_ p) (accepted p) (executed p)
    (maxTarget p) (executorCancelled p).
Definition set_targetExecutors_ v p : Pool Q :=
  mkPool (state_ p) (startupResult_ p) (done_ p) v (allocatedExecutors_ p)
    (busyExecutors_ p) (readyEvent_ p) (fieldsPublished_ p) (managerTask_ p)
    (managerCancel p) (cancelWatches_ p) (executors_ p) (queue_ p) (lifecycle p)
    (starter p) (stopper p) (manager p) (execs p) (watches p) (taskRejectedCounter_
    p) (taskCancelledCounter_ p) (tasksTotal_ p) (accepted p) (executed p)
    (maxTarget p) (executorCancelled p).
Definition set_allocatedExecutors_ v p : Pool Q :=
  mkPool (state_ p) (startupResult_ p) (done_ p) (targetExecutors_ p) v
    (busyExecutors_ p) (readyEvent_ p) (fieldsPublished_ p) (managerTask_ p)
    (managerCancel p) (cancelWatches_ p) (executors_ p) (queue_ p) (lifecycle p)
    (starter p) (stopper p) (manager p) (execs p) (watches p) (taskRejectedCounter_
    p) (taskCancelledCounter_ p) (tasksTotal_ p) (accepted p) (executed p)
    (maxTarget p) (executorCancelled p).
Definition set_busyExecutors_ v p : Pool Q :=
  mkPool (state_ p) (startupResult_ p) (done_ p) (targetExecutors_ p)
    (allocatedExecutors_ p) v (readyEvent_ p) (fieldsPublished_ p) (managerTask_ p)
    (managerCancel p) (cancelWatches_ p) (executors_ p) (queue_ p) (lifecycle p)
    (starter p) (stopper p) (manager p) (execs p) (watches p) (taskRejectedCounter_
    p) (taskCancelledCounter_ p) (tasksTotal_ p) (accepted p) (executed p)
    (maxTarget p) (executorCancelled p).
Definition set_readyEvent_ v p : Pool Q :=
  mkPool (state_ p) (startupResult_ p) (done_ p) (targetExecutors_ p)
    (allocatedExecutors_ p) (busyExecutors_ p) v (fieldsPublished_ p) (managerTask_
    p) (managerCancel p) (cancelWatches_ p) (executors_ p) (queue_ p) (lifecycle p)
    (starter p) (stopper p) (manager p) (execs p) (watches p) (taskRejectedCounter_
    p) (taskCancelledCounter_ p) (tasksTotal_ p) (accepted p) (executed p)
    (maxTarget p) (executorCancelled p).
Definition set_fieldsPublished_ v p : Pool Q :=
  mkPool (state_ p) (startupResult_ p) (done_ p) (targetExecutors_ p)
    (allocatedExecutors_ p) (busyExecutors_ p) (readyEvent_ p) v (managerTask_ p)
    (managerCancel p) (cancelWatches_ p) (executors_ p) (queue_ p) (lifecycle p)
    (starter p) (stopper p) (manager p) (execs p) (watches p) (taskRejectedCounter_
    p) (taskCancelledCounter_ p) (tasksTotal_ p) (accepted p) (executed p)
    (maxTarget p) (executorCancelled p).
Definition set_managerTask_ v p : Pool Q :=
  mkPool (state_ p) (startupResult_ p) (done_ p) (targetExecutors_ p)
    (allocatedExecutors_ p) (busyExecutors_ p) (readyEvent_ p) (fieldsPublished_ p)
    v (managerCancel p) (cancelWatches_ p) (executors_ p) (queue_ p) (lifecycle p)
    (starter p) (stopper p) (manager p) (execs p) (watches p) (taskRejectedCounter_
    p) (taskCancelledCounter_ p) (tasksTotal_ p) (accepted p) (executed p)
    (maxTarget p) (executorCancelled p).
Definition set_managerCancel v p : Pool Q :=
  mkPool (state_ p) (startupResult_ p) (done_ p) (targetExecutors_ p)
    (allocatedExecutors_ p) (busyExecutors_ p) (readyEvent_ p) (fieldsPublished_ p)
    (managerTask_ p) v (cancelWatches_ p) (executors_ p) (queue_ p) (lifecycle p)
    (starter p) (stopper p) (manager p) (execs p) (watches p) (taskRejectedCounter_
    p) (taskCancelledCounter_ p) (tasksTotal_ p) (accepted p) (executed p)
    (maxTarget p) (executorCancelled p).
Definition set_cancelWatches_ v p : Pool Q :=
  mkPool (state_ p) (startupResult_ p) (done_ p) (targetExecutors_ p)
    (allocatedExecutors_ p) (busyExecutors_ p) (readyEvent_ p) (fieldsPublished_ p)
    (managerTask_ p) (managerCancel p) v (executors_ p) (queue_ p) (lifecycle p)
    (starter p) (stopper p) (manager p) (execs p) (watches p) (taskRejectedCounter_
    p) (taskCancelledCounter_ p) (tasksTotal_ p) (accepted p) (executed p)
    (maxTarget p) (executorCancelled p).
Definition set_executors_ v p : Pool Q :=
  mkPool (state_ p) (startupResult_ p) (done_ p) (targetExecutors_ p)
    (allocatedExecutors_ p) (busyExecutors_ p) (readyEvent_ p) (fieldsPublished_ p)
    (managerTask_ p) (managerCancel p) (cancelWatches_ p) v (queue_ p) (lifecycle p)
    (starter p) (stopper p) (manager p) (execs p) (watches p) (taskRejectedCounter_
    p) (taskCancelledCounter_ p) (tasksTotal_ p) (accepted p) (executed p)
    (maxTarget p) (executorCancelled p).
Definition set_queue_ v p : Pool Q :=
  mkPool (state_ p) (startupResult_ p) (done_ p) (targetExecutors_ p)
    (allocatedExecutors_ p) (busyExecutors_ p) (readyEvent_ p) (fieldsPublished_ p)
    (managerTask_ p) (managerCancel p) (cancelWatches_ p) (executors_ p) v
    (lifecycle p) (starter p) (stopper p) (manager p) (execs p) (watches p)
    (taskRejectedCounter_ p) (taskCancelledCounter_ p) (tasksTotal_ p) (accepted p)
    (executed p) (maxTarget p) (executorCancelled p).
Definition set_lifecycle v p : Pool Q :=
  mkPool (state_ p) (startupResult_ p) (done_ p) (targetExecutors_ p)
    (allocatedExecutors_ p) (busyExecutors_ p) (readyEvent_ p) (fieldsPublished_ p)
    (managerTask_ p) (managerCancel p) (cancelWatches_ p) (executors_ p) (queue_ p)
    v (starter p) (stopper p) (manager p) (execs p) (watches p)
    (taskRejectedCounter_ p) (taskCancelledCounter_ p) (tasksTotal_ p) (accepted p)
    (executed p) (maxTarget p) (executorCancelled p).
Definition set_starter v p : Pool Q :=
  mkPool (state_ p) (startupResult_ p) (done_ p) (targetExecutors_ p)
    (allocatedExecutors_ p) (busyExecutors_ p) (readyEvent_ p) (fieldsPublished_ p)
    (managerTask_ p) (managerCancel p) (cancelWatches_ p) (executors_ p) (queue_ p)
    (lifecycle p) v (stopper p) (manager p) (execs p) (watches p)
    (taskRejectedCounter_ p) (taskCancelledCounter_ p) (tasksTotal_ p) (accepted p)
    (executed p) (maxTarget p) (executorCancelled p).
Definition set_stopper v p : Pool Q :=
  mkPool (state_ p) (startupResult_ p) (done_ p) (targetExecutors_ p)
    (allocatedExecutors_ p) (busyExecutors_ p) (readyEvent_ p) (fieldsPublished_ p)
    (managerTask_ p) (managerCancel p) (cancelWatches_ p) (executors_ p) (queue_ p)
    (lifecycle p) (starter p) v (manager p) (execs p) (watches p)
    (taskRejectedCounter_ p) (taskCancelledCounter_ p) (tasksTotal_ p) (accepted p)
    (executed p) (maxTarget p) (executorCancelled p).
Definition set_manager v p : Pool Q :=
  mkPool (state_ p) (startupResult_ p) (done_ p) (targetExecutors_ p)
    (allocatedExecutors_ p) (busyExecutors_ p) (readyEvent_ p) (fieldsPublished_ p)
    (managerTask_ p) (managerCancel p) (cancelWatches_ p) (executors_ p) (queue_ p)
    (lifecycle p) (starter p) (stopper p) v (execs p) (watches p)
    (taskRejectedCounter_ p) (taskCancelledCounter_ p) (tasksTotal_ p) (accepted p)
    (executed p) (maxTarget p) (executorCancelled p).
Definition set_execs v p : Pool Q :=
  mkPool (state_ p) (startupResult_ p) (done_ p) (targetExecutors_ p)
    (allocatedExecutors_ p) (busyExecutors_ p) (readyEvent_ p) (fieldsPublished_ p)
    (managerTask_ p) (managerCancel p) (cancelWatches_ p) (executors_ p) (queue_ p)
    (lifecycle p) (starter p) (stopper p) (manager p) v (watches p)
    (taskRejectedCounter_ p) (taskCancelledCounter_ p) (tasksTotal_ p) (accepted p)
    (executed p) (maxTarget p) (executorCancelled p).
Definition set_watches v p : Pool Q :=
  mkPool (state_ p) (startupResult_ p) (done_ p) (targetExecutors_ p)
    (allocatedExecutors_ p) (busyExecutors_ p) (readyEvent_ p) (fieldsPublished_ p)
    (managerTask_ p) (managerCancel p) (cancelWatches_ p) (executors_ p) (queue_ p)
    (lifecycle p) (starter p) (stopper p) (manager p) (execs p) v
    (taskRejectedCounter_ p) (taskCancelledCounter_ p) (tasksTotal_ p) (accepted p)
    (executed p) (maxTarget p) (executorCancelled p).
Definition set_taskRejectedCounter_ v p : Pool Q :=
  mkPool (state_ p) (startupResult_ p) (done_ p) (targetExecutors_ p)
    (allocatedExecutors_ p) (busyExecutors_ p) (readyEvent_ p) (fieldsPublished_ p)
    (managerTask_ p) (managerCancel p) (cancelWatches_ p) (executors_ p) (queue_ p)
    (lifecycle p) (starter p) (stopper p) (manager p) (execs p) (watches p) v
    (taskCancelledCounter_ p) (tasksTotal_ p) (accepted p) (executed p) (maxTarget
    p) (executorCancelled p).
Definition set_taskCancelledCounter_ v p : Pool Q :=
  mkPool (state_ p) (startupResult_ p) (done_ p) (targetExecutors_ p)
    (allocatedExecutors_ p) (busyExecutors_ p) (readyEvent_ p) (fieldsPublished_ p)
    (managerTask_ p) (managerCancel p) (cancelWatches_ p) (executors_ p) (queue_ p)
    (lifecycle p) (starter p) (stopper p) (manager p) (execs p) (watches p)
    (taskRejectedCounter_ p) v (tasksTotal_ p) (accepted p) (executed p) (maxTarget
    p) (executorCancelled p).
Definition set_tasksTotal_ v p : Pool Q :=
  mkPool (state_ p) (startupResult_ p) (done_ p) (targetExecutors_ p)
    (allocatedExecutors_ p) (busyExecutors_ p) (readyEvent_ p) (fieldsPublished_ p)
    (managerTask_ p) (managerCancel p) (cancelWatches_ p) (executors_ p) (queue_ p)
    (lifecycle p) (starter p) (stopper p) (manager p) (execs p) (watches p)
    (taskRejectedCounter_ p) (taskCancelledCounter_ p) v (accepted p) (executed p)
    (maxTarget p) (executorCancelled p).
Definition set_accepted v p : Pool Q :=
  mkPool (state_ p) (startupResult_ p) (done_ p) (targetExecutors_ p)
    (allocatedExecutors_ p) (busyExecutors_ p) (readyEvent_ p) (fieldsPublished_ p)
    (managerTask_ p) (managerCancel p) (cancelWatches_ p) (executors_ p) (queue_ p)
    (lifecycle p) (starter p) (stopper p) (manager p) (execs p) (watches p)
    (taskRejectedCounter_ p) (taskCancelledCounter_ p) (tasksTotal_ p) v (executed
    p) (maxTarget p) (executorCancelled p).
Definition set_executed v p : Pool Q :=
  mkPool (state_ p) (startupResult_ p) (done_ p) (targetExecutors_ p)
    (allocatedExecutors_ p) (busyExecutors_ p) (readyEvent_ p) (fieldsPublished_ p)
    (managerTask_ p) (managerCancel p) (cancelWatches_ p) (executors_ p) (queue_ p)
    (lifecycle p) (starter p) (stopper p) (manager p) (execs p) (watches p)
    (taskRejectedCounter_ p) (taskCancelledCounter_ p) (tasksTotal_ p) (accepted p)
    v (maxTarget p) (executorCancelled p).
Definition set_maxTarget v p : Pool Q :=
  mkPool (state_ p) (startupResult_ p) (done_ p) (targetExecutors_ p)
    (allocatedExecutors_ p) (busyExecutors_ p) (readyEvent_ p) (fieldsPublished_ p)
    (managerTask_ p) (managerCancel p) (cancelWatches_ p) (executors_ p) (queue_ p)
    (lifecycle p) (starter p) (stopper p) (manager p) (execs p) (watches p)
    (taskRejectedCounter_ p) (taskCancelledCounter_ p) (tasksTotal_ p) (accepted p)
    (executed p) v (executorCancelled p).
Definition set_executorCancelled v p : Pool Q :=
  mkPool (state_ p) (startupResult_ p) (done_ p) (targetExecutors_ p)
    (allocatedExecutors_ p) (busyExecutors_ p) (readyEvent_ p) (fieldsPublished_ p)
    (managerTask_ p) (managerCancel p) (cancelWatches_ p) (executors_ p) (queue_ p)
    (lifecycle p) (starter p) (stopper p) (manager p) (execs p) (watches p)
    (taskRejectedCounter_ p) (taskCancelledCounter_ p) (tasksTotal_ p) (accepted p)
    (executed p) (maxTarget p) v.
End Writes.

(** ** The code

    Each definition is one atomic action of the function it is named after.  A
    blocked action is [None]. *)
Section Code.
Context {Q : Type} {PQ : PoolQueue Q}.
Implicit Types p : Pool Q.

(** A freshly constructed pool. *)
Definition initial : Pool Q :=
  mkPool kCreated rPending false 0 0 0 false false false false false [] pq_empty
    defaultContext SIdle TIdle MNone ∅ [] 0 0 0 [] [] 0 false.

(** What an action gives back to its caller, if it ends a call. *)
Inductive outcome :=
  | Continue
  | Return (r : result PoolError unit).

Definition reject (e : Env) (err : PoolError) p : Pool Q * outcome :=
  (set_taskRejectedCounter_
     (if metricsEnabled_ e then S (taskRejectedCounter_ p) else taskRejectedCounter_ p) p,
   Return (Err err)).

(** *** start *)

(** The compare-exchange out of [kCreated]. *)
Definition start_call (ctx : ContextState) p : Pool Q * outcome :=
  match state_ p with
  | kCreated => (p |> set_state_ kStarting |> set_lifecycle ctx |> set_starter SEmplace, Continue)
  | kDraining | kStopping | kStopped => (p, Return (Err PoolStoppedError))
  | kStarting | kRunning | kFailed => (p, Return (Err PoolAlreadyStartedError))
  end.

(** The rest of [start], after the compare-exchange. *)
Definition start_step (e : Env) p : option (Pool Q) :=
  let cas to := if decide (state_ p = kStarting) then set_state_ to p else p in
  let returned r q := Some (set_starter (SReturned r) q) in
  match starter p with
  | SIdle | SReturned _ => None
  | SEmplace =>
      if allocation_ok e
      then Some (p |> set_cancelWatches_ true |> set_starter SSpawn)
      else Some (set_starter SFailPublish p)
  | SSpawn =>
      if allocation_ok e
      then Some (p |> set_manager MTop |> set_starter SAssign)
      else Some (set_starter SFailPublish p)
  | SAssign => Some (p |> set_managerTask_ true |> set_starter SPublish)
  | SFailPublish => Some (p |> set_fieldsPublished_ true |> set_starter SFailCas)
  | SFailCas => returned (Err SpawnFailed) (cas kFailed)
  | SPublish => Some (p |> set_fieldsPublished_ true |> set_starter SWait)
  | SWait => if readyEvent_ p then Some (set_starter SSwitch p) else None
  | SSwitch =>
      let won := bool_decide (state_ p = kStarting) in
      match startupResult_ p with
      | rReady =>
          returned (if won then Ok tt else Err PoolStoppedError) (cas kRunning)
      | rCancelled =>
          returned (Err (if won then PoolCancelledError else PoolStoppedError)) (cas kFailed)
      | rStopped | rPending => returned (Err PoolStoppedError) (cas kFailed)
      | rFailed =>
          returned (Err (if won then StartFailed else PoolStoppedError)) (cas kFailed)
      end
  end.

(** [resolveStartup]: first resolution wins. *)
Definition resolveStartup (r : StartupResult) p : Pool Q * bool :=
  if decide (startupResult_ p = rPending) then (set_startupResult_ r p, true) else (p, false).

(** *** stop *)

(** The critical section that claims [kStopping]; [None] while another caller's stop
    is in progress. *)
Definition stop_call p : option (Pool Q * outcome) :=
  match state_ p with
  | kStopped => Some (p, Return (Ok tt))
  | kStopping => None
  | previous =>
      Some (p |> set_state_ kStopping |> set_done_ true |> set_stopper (TFields previous),
            Continue)
  end.

Definition finished (p : Pool Q) (x : nat) : bool :=
  match execs p !! x with
  | Some EFinished | None => true
  | _ => false
  end.

(** The rest of [stop]. *)
Definition stop_step p : option (Pool Q) :=
  match stopper p with
  | TIdle | TReturned => None
  | TFields previous =>
      if bool_decide (previous = kStarting) && negb (fieldsPublished_ p) then None
      else Some (set_stopper (if managerTask_ p then TMgrResolve else TTake) p)
  | TMgrResolve => Some (set_stopper TMgrSend (resolveStartup rStopped p).1)
  | TMgrSend => Some (p |> set_readyEvent_ true |> set_managerCancel true |> set_stopper TMgrSync)
  | TMgrSync =>
      match manager p with
      | MFinished => Some (set_stopper TTake p)
      | _ => None
      end
  | TTake => Some (p |> set_executors_ [] |> set_stopper (TJoin (executors_ p)))
  | TJoin toWait =>
      if forallb (finished p) toWait then Some (set_stopper TWatches p) else None
  | TWatches =>
      if negb (cancelWatches_ p) || bool_decide (watches p = [])
      then Some (set_stopper TStore p) else None
  | TStore => Some (p |> set_state_ kStopped |> set_stopper TReturned)
  end.

(** *** addTask *)

(** The checks before [mu_] is taken: [None] lets the call go on. *)
Definition addTask_precheck (e : Env) (ctx : ContextState) p : option PoolError :=
  match state_ p with
  | kRunning =>
      if cancelled (stopped e) (now e) ctx then Some PoolCancelledError
      else if deadline_reached (deadline ctx) (now e) then Some PoolCancelledError
      else None
  | kDraining | kStopping | kStopped => Some PoolStoppedError
  | kCreated | kStarting | kFailed => Some PoolNotStartedError
  end.

(** The stop sources the cancel callbacks of a task are registered with. *)
Definition sources (ctx : ContextState) : list nat :=
  omap id (stopToken ctx :: externalCancellations ctx).

(** The critical section of [addTask]. *)
Definition addTask_locked (e : Env) (ctx : ContextState) (priority : Z) (k fn : nat) p
    : Pool Q * outcome :=
  if done_ p || negb (bool_decide (state_ p = kRunning)) then reject e PoolStoppedError p
  else if cancelled (stopped e) (now e) ctx || deadline_reached (deadline ctx) (now e)
  then reject e PoolCancelledError p
  else if negb (allocation_ok e) then (p, Return (Err AllocationFailed))
  else (p |> set_queue_ (pq_add k (mkTaskArgs fn (deadline ctx) (sources ctx) priority) (queue_ p))
          |> set_accepted (accepted p ++ [k]), Return (Ok tt)).

(** *** Cancellation watches *)

(** A stop callback of task [k] fires: it detaches a watch. Callbacks are registered
    while the task is queued, and until the executor that took it drops them. *)
Definition cancel_fire (k : nat) p : Pool Q := set_watches (watches p ++ [k]) p.

(** The body of the first pending watch. *)
Definition watch_step (e : Env) p : option (Pool Q) :=
  match watches p with
  | [] => None
  | k :: rest =>
      let '(q', n) := pq_cancel (now e) k (queue_ p) in
      Some (p |> set_queue_ q' |> set_watches rest
              |> set_taskCancelledCounter_ (if metricsEnabled_ e
                   then taskCancelledCounter_ p + n else taskCancelledCounter_ p)%nat)
  end.

(** *** executorLoop *)

Definition set_exec (x : nat) (pc : ExecPc) p : Pool Q :=
  set_execs (<[x := pc]> (execs p)) p.

Definition executor_step (e : Env) (x : nat) p : option (Pool Q) :=
  match execs p !! x with
  | None | Some EFinished => None
  | Some EWait =>
      let excess := targetExecutors_ p <? allocatedExecutors_ p in
      if negb (negb (pq_size (queue_ p) =? 0) || done_ p || excess)
      then (* asleep; a cancelled executor leaves *)
        if task_cancelled e
        then Some (p |> set_exec x EExit |> set_executorCancelled true)
        else None
      else if excess
      then (* shouldExitAsExcess *)
        Some (p |> set_allocatedExecutors_ (allocatedExecutors_ p - 1) |> set_exec x EReturn)
      else if (pq_size (queue_ p) =? 0) && done_ p then Some (set_exec x EExit p)
      else match pq_pop (now e) (queue_ p) with
           | Some (k, n, q') =>
               Some (p |> set_queue_ q' |> set_exec x (EReset k)
                       |> set_taskCancelledCounter_ (if metricsEnabled_ e
                            then taskCancelledCounter_ p + n else taskCancelledCounter_ p)%nat)
           | None => None
           end
  | Some (EReset k) =>
      Some (p |> set_exec x (ERun k) |> set_busyExecutors_ (busyExecutors_ p + 1))
  | Some (ERun k) =>
      Some (p |> set_executed (executed p ++ [k])
              |> set_tasksTotal_ (if metricsEnabled_ e then S (tasksTotal_ p) else tasksTotal_ p)
              |> set_busyExecutors_ (busyExecutors_ p - 1)
              |> set_queue_ (pq_retire k (queue_ p)) |> set_exec x EWait)
  | Some EExit =>
      Some (p |> set_allocatedExecutors_ (allocatedExecutors_ p - 1) |> set_exec x EReturn)
  | Some EReturn => Some (set_exec x EFinished p)
  end.

(** *** managerLoop and reconcileExecutors *)

Definition newTarget (e : Env) : Z :=
  let t := match poolConfig e with
           | Some n => if 0 <? n then n else hardware_concurrency e
           | None => hardware_concurrency e
           end in
  if t <=? 0 then 1 else t.

Definition lifecycleCancelled (e : Env) p : bool :=
  managerCancel p || task_cancelled e || cancelled (stopped e) (now e) (lifecycle p) ||
  deadline_reached (deadline (lifecycle p)) (now e).

(** [requestDrainFromManager]. *)
Definition requestDrainFromManager p : Pool Q :=
  match state_ p with
  | kStarting | kRunning => p |> set_state_ kDraining |> set_done_ true
  | _ => p
  end.

(** The manager leaves because its context ended. *)
Definition manager_cancelled p : Pool Q :=
  let '(p', won) := resolveStartup rCancelled p in
  set_manager (if won then MExit else MDrain) p'.

(** The first critical section of [reconcileExecutors]. *)
Definition reconcile_lock (target : Z) (reserve_ok : bool) p : Pool Q :=
  let p1 := p |> set_targetExecutors_ target |> set_maxTarget (Z.max (maxTarget p) target)
              |> set_executors_ (filter (fun x => finished p x = false) (executors_ p)) in
  let allocated := allocatedExecutors_ p1 in
  if target <? allocated then set_manager MPost p1
  else if target =? allocated then set_manager MPost p1
  else if reserve_ok then set_manager (MSpawn (Z.to_nat (target - allocated)) []) p1
  else set_manager MErr p1.

Definition manager_step (e : Env) (x : nat) p : option (Pool Q) :=
  match manager p with
  | MNone | MFinished => None
  | MTop => Some (if lifecycleCancelled e p then manager_cancelled p else set_manager MDone p)
  | MDone =>
      Some (if done_ p then set_manager MExit (resolveStartup rStopped p).1
            else set_manager MReconcile p)
  | MReconcile => Some (reconcile_lock (newTarget e) (allocation_ok e) p)
  | MSpawn n acc =>
      match n with
      | O => Some (set_manager (MAdopt acc false) p)
      | S n => Some (p |> set_allocatedExecutors_ (allocatedExecutors_ p + 1)
                       |> set_manager (MSpawnGo n acc))
      end
  | MSpawnGo n acc =>
      if allocation_ok e
      then Some (p |> set_exec x EWait |> set_manager (MSpawn n (acc ++ [x])))
      else Some (p |> set_allocatedExecutors_ (allocatedExecutors_ p - 1)
                   |> set_manager (MAdopt acc true))
  | MAdopt acc failed =>
      Some (p |> set_executors_ (executors_ p ++ acc) |> set_manager (if failed then MErr else MPost))
  | MErr =>
      if bool_decide (startupResult_ p = rPending) && (allocatedExecutors_ p =? 0)
      then Some (set_manager MFail p)
      else Some (set_manager MPost p)
  | MFail => Some (set_manager MExit (resolveStartup rFailed p).1)
  | MPost => Some (if lifecycleCancelled e p then manager_cancelled p else set_manager MReady p)
  | MReady => Some (set_manager MSend (resolveStartup rReady p).1)
  | MSend => Some (p |> set_readyEvent_ true |> set_manager MSleep)
  | MSleep => Some (set_manager MTop p)
  | MDrain => Some (set_manager MExit (requestDrainFromManager p))
  | MExit => Some (p |> set_readyEvent_ true |> set_manager MFinished)
  end.

(** A task whose stop callbacks are registered. *)
Definition subscribed (p : Pool Q) (k : nat) : Prop :=
  (exists q live, pq_rep q live (queue_ p) /\ k ∈ q) \/ exists x, execs p !! x = Some (EReset k).

(** ** Steps *)
Inductive step : Pool Q -> Pool Q -> Prop :=
  | step_start_call ctx p : step p (start_call ctx p).1
  | step_start e p p' : start_step e p = Some p' -> step p p'
  | step_stop_call p p' o : stop_call p = Some (p', o) -> step p p'
  | step_stop p p' : stop_step p = Some p' -> step p p'
  | step_precheck e ctx err p :
      addTask_precheck e ctx p = Some err -> step p (reject e err p).1
  | step_add e ctx priority k fn p :
      k ∉ accepted p -> step p (addTask_locked e ctx priority k fn p).1
  | step_fire k p : subscribed p k -> step p (cancel_fire k p)
  | step_watch e p p' : watch_step e p = Some p' -> step p p'
  | step_executor e x p p' : executor_step e x p = Some p' -> step p p'
  | step_manager e x p p' :
      execs p !! x = None -> manager_step e x p = Some p' -> step p p'.

Definition reachable (p : Pool Q) : Prop := rtc step initial p.
End Code.
