(* ===== verification/PoolControl.v ===== *)
(** * Control of a task pool: lifecycle, startup handshake, shutdown order

    The part of the pool invariant that speaks of the program counters, the
    lifecycle state and the two events, and the theorems that follow from it for
    every run queue: how [state_] moves, what [start] reports, that [stop] finds the
    manager gone when it takes the executors over. *)
From Stdlib Require Import ZArith Lia.
From S2P Require Import Prelude Context PoolCore.
Local Open Scope Z_scope.

(** A manager coroutine was created. *)
Definition spawned (s : StarterPc) : bool :=
  match s with
  | SIdle | SEmplace | SSpawn | SFailPublish | SFailCas | SReturned (Err SpawnFailed) => false
  | SAssign | SPublish | SWait | SSwitch | SReturned _ => true
  end.

(** [managerTask_] was assigned. *)
Definition assigned (s : StarterPc) : bool :=
  match s with SAssign => false | _ => spawned s end.

(** [fieldsPublished_] was sent. *)
Definition published (s : StarterPc) : bool :=
  match s with
  | SFailCas | SWait | SSwitch | SReturned _ => true
  | _ => false
  end.

Definition draining (s : PoolState) : bool :=
  match s with kDraining | kStopping | kStopped => true | _ => false end.

Definition rank (s : PoolState) : nat :=
  match s with
  | kCreated => 0 | kStarting => 1 | kRunning | kFailed => 2
  | kDraining => 3 | kStopping => 4 | kStopped => 5
  end.

Definition returned (s : StarterPc) : bool :=
  match s with SReturned _ => true | _ => false end.

(** The manager has nothing left to do but to signal and return. *)
Definition leaving (m : ManagerPc) : bool :=
  match m with MExit | MFinished => true | _ => false end.

(** The manager is past a resolution of the startup. *)
Definition past_resolution (m : ManagerPc) : bool :=
  match m with MSend | MSleep | MDrain | MExit | MFinished => true | _ => false end.

(** No executor can be created any more. *)
Definition quiet (s : StarterPc) (m : ManagerPc) : Prop :=
  leaving m = true \/ (m = MNone /\ s <> SEmplace /\ s <> SSpawn).

(** ** Elementary transitions

    The branches of the step functions, one constructor each, with the part of the
    guard the invariants need. *)
Section Acts.
Context {Q : Type} `{PoolQueue Q}.
Implicit Types p : Pool Q.

Inductive act : Pool Q -> Pool Q -> Prop :=
  | a_same p : act p p
  | a_rejected n p : act p (set_taskRejectedCounter_ n p)
  | a_start ctx p :
      state_ p = kCreated ->
      act p (p |> set_state_ kStarting |> set_lifecycle ctx |> set_starter SEmplace)
  | a_emplace p :
      starter p = SEmplace -> act p (p |> set_cancelWatches_ true |> set_starter SSpawn)
  | a_spawn p :
      starter p = SSpawn -> act p (p |> set_manager MTop |> set_starter SAssign)
  | a_spawn_fail p :
      starter p = SEmplace \/ starter p = SSpawn -> act p (set_starter SFailPublish p)
  | a_assign p :
      starter p = SAssign -> act p (p |> set_managerTask_ true |> set_starter SPublish)
  | a_fail_publish p :
      starter p = SFailPublish -> act p (p |> set_fieldsPublished_ true |> set_starter SFailCas)
  | a_publish p :
      starter p = SPublish -> act p (p |> set_fieldsPublished_ true |> set_starter SWait)
  | a_fail_won p :
      starter p = SFailCas -> state_ p = kStarting ->
      act p (p |> set_state_ kFailed |> set_starter (SReturned (Err SpawnFailed)))
  | a_fail_lost p :
      starter p = SFailCas -> state_ p <> kStarting ->
      act p (set_starter (SReturned (Err SpawnFailed)) p)
  | a_wait p :
      starter p = SWait -> readyEvent_ p = true -> act p (set_starter SSwitch p)
  | a_ready p :
      starter p = SSwitch -> state_ p = kStarting -> startupResult_ p = rReady ->
      act p (p |> set_state_ kRunning |> set_starter (SReturned (Ok tt)))
  | a_start_error err p :
      starter p = SSwitch -> state_ p = kStarting -> startupResult_ p <> rReady ->
      err <> SpawnFailed ->
      act p (p |> set_state_ kFailed |> set_starter (SReturned (Err err)))
  | a_start_lost p :
      starter p = SSwitch -> state_ p <> kStarting ->
      act p (set_starter (SReturned (Err PoolStoppedError)) p)
  | a_stop p :
      (rank (state_ p) < 4)%nat ->
      act p (p |> set_state_ kStopping |> set_done_ true |> set_stopper (TFields (state_ p)))
  | a_stop_manager previous p :
      stopper p = TFields previous -> managerTask_ p = true ->
      act p (set_stopper TMgrResolve p)
  | a_stop_no_manager previous p :
      stopper p = TFields previous -> managerTask_ p = false ->
      (previous = kStarting -> fieldsPublished_ p = true) ->
      act p (set_stopper TTake p)
  | a_stop_resolve p :
      stopper p = TMgrResolve -> startupResult_ p = rPending ->
      act p (p |> set_startupResult_ rStopped |> set_stopper TMgrSend)
  | a_stop_resolved p :
      stopper p = TMgrResolve -> startupResult_ p <> rPending -> act p (set_stopper TMgrSend p)
  | a_stop_send p :
      stopper p = TMgrSend ->
      act p (p |> set_readyEvent_ true |> set_managerCancel true |> set_stopper TMgrSync)
  | a_stop_sync p :
      stopper p = TMgrSync -> manager p = MFinished -> act p (set_stopper TTake p)
  | a_take p :
      stopper p = TTake -> act p (p |> set_executors_ [] |> set_stopper (TJoin (executors_ p)))
  | a_join toWait p :
      stopper p = TJoin toWait -> (forall x, x ∈ toWait -> finished p x = true) ->
      act p (set_stopper TWatches p)
  | a_watches p :
      stopper p = TWatches -> cancelWatches_ p = false \/ watches p = [] ->
      act p (set_stopper TStore p)
  | a_store p : stopper p = TStore -> act p (p |> set_state_ kStopped |> set_stopper TReturned)
  | a_add k a p :
      k ∉ accepted p -> done_ p = false -> state_ p = kRunning ->
      act p (p |> set_queue_ (pq_add k a (queue_ p)) |> set_accepted (accepted p ++ [k]))
  | a_fire k p : subscribed p k -> act p (set_watches (watches p ++ [k]) p)
  | a_watch t k rest n p :
      watches p = k :: rest ->
      act p (p |> set_queue_ (pq_cancel t k (queue_ p)).1 |> set_watches rest
               |> set_taskCancelledCounter_ n)
  | a_idle_cancel x p :
      execs p !! x = Some EWait -> pq_size (queue_ p) = 0 -> done_ p = false ->
      act p (p |> set_exec x EExit |> set_executorCancelled true)
  | a_excess x p :
      execs p !! x = Some EWait -> targetExecutors_ p < allocatedExecutors_ p ->
      act p (p |> set_allocatedExecutors_ (allocatedExecutors_ p - 1) |> set_exec x EReturn)
  | a_drained x p :
      execs p !! x = Some EWait -> pq_size (queue_ p) = 0 -> done_ p = true ->
      act p (set_exec x EExit p)
  | a_pop t x k m n q' p :
      execs p !! x = Some EWait -> allocatedExecutors_ p <= targetExecutors_ p ->
      pq_size (queue_ p) <> 0 -> pq_pop t (queue_ p) = Some (k, m, q') ->
      act p (p |> set_queue_ q' |> set_exec x (EReset k) |> set_taskCancelledCounter_ n)
  | a_run x k p :
      execs p !! x = Some (EReset k) ->
      act p (p |> set_exec x (ERun k) |> set_busyExecutors_ (busyExecutors_ p + 1))
  | a_ran x k n p :
      execs p !! x = Some (ERun k) ->
      act p (p |> set_executed (executed p ++ [k]) |> set_tasksTotal_ n
               |> set_busyExecutors_ (busyExecutors_ p - 1)
               |> set_queue_ (pq_retire k (queue_ p)) |> set_exec x EWait)
  | a_exit x p :
      execs p !! x = Some EExit ->
      act p (p |> set_allocatedExecutors_ (allocatedExecutors_ p - 1) |> set_exec x EReturn)
  | a_return x p : execs p !! x = Some EReturn -> act p (set_exec x EFinished p)
  | a_cancelled p :
      manager p = MTop \/ manager p = MPost -> startupResult_ p = rPending ->
      act p (p |> set_startupResult_ rCancelled |> set_manager MExit)
  | a_must_drain p :
      manager p = MTop \/ manager p = MPost -> startupResult_ p <> rPending ->
      act p (set_manager MDrain p)
  | a_top p : manager p = MTop -> act p (set_manager MDone p)
  | a_done r p :
      manager p = MDone -> done_ p = true ->
      r = startupResult_ p /\ r <> rPending \/ r = rStopped /\ startupResult_ p = rPending ->
      act p (p |> set_startupResult_ r |> set_manager MExit)
  | a_go_on p : manager p = MDone -> done_ p = false -> act p (set_manager MReconcile p)
  | a_target t m p :
      manager p = MReconcile -> 1 <= t ->
      m = MPost /\ t <= allocatedExecutors_ p \/ m = MErr /\ allocatedExecutors_ p < t \/
      m = MSpawn (Z.to_nat (t - allocatedExecutors_ p)) [] /\ allocatedExecutors_ p < t ->
      act p (p |> set_targetExecutors_ t |> set_maxTarget (Z.max (maxTarget p) t)
               |> set_executors_ (filter (fun x => finished p x = false) (executors_ p))
               |> set_manager m)
  | a_slot n acc p :
      manager p = MSpawn (S n) acc ->
      act p (p |> set_allocatedExecutors_ (allocatedExecutors_ p + 1)
               |> set_manager (MSpawnGo n acc))
  | a_slots acc p : manager p = MSpawn 0 acc -> act p (set_manager (MAdopt acc false) p)
  | a_executor x n acc p :
      manager p = MSpawnGo n acc -> execs p !! x = None ->
      act p (p |> set_exec x EWait |> set_manager (MSpawn n (acc ++ [x])))
  | a_no_executor n acc p :
      manager p = MSpawnGo n acc ->
      act p (p |> set_allocatedExecutors_ (allocatedExecutors_ p - 1)
               |> set_manager (MAdopt acc true))
  | a_adopt acc b p :
      manager p = MAdopt acc b ->
      act p (p |> set_executors_ (executors_ p ++ acc)
               |> set_manager (if b then MErr else MPost))
  | a_hopeless p :
      manager p = MErr -> startupResult_ p = rPending -> allocatedExecutors_ p = 0 ->
      act p (set_manager MFail p)
  | a_tolerate p :
      manager p = MErr -> startupResult_ p <> rPending \/ allocatedExecutors_ p <> 0 ->
      act p (set_manager MPost p)
  | a_fail r p :
      manager p = MFail ->
      r = startupResult_ p /\ r <> rPending \/ r = rFailed /\ startupResult_ p = rPending ->
      act p (p |> set_startupResult_ r |> set_manager MExit)
  | a_post p : manager p = MPost -> act p (set_manager MReady p)
  | a_resolve_ready r p :
      manager p = MReady ->
      r = startupResult_ p /\ r <> rPending \/ r = rReady /\ startupResult_ p = rPending ->
      act p (p |> set_startupResult_ r |> set_manager MSend)
  | a_send p : manager p = MSend -> act p (p |> set_readyEvent_ true |> set_manager MSleep)
  | a_sleep p : manager p = MSleep -> act p (set_manager MTop p)
  | a_drain p :
      manager p = MDrain -> state_ p = kStarting \/ state_ p = kRunning ->
      act p (p |> set_state_ kDraining |> set_done_ true |> set_manager MExit)
  | a_no_drain p :
      manager p = MDrain -> state_ p <> kStarting -> state_ p <> kRunning ->
      act p (set_manager MExit p)
  | a_leave p : manager p = MExit -> act p (p |> set_readyEvent_ true |> set_manager MFinished).

Lemma newTarget_pos e : 1 <= newTarget e.
Proof. unfold newTarget. repeat split_case; bool_to_prop; lia. Qed.

Lemma start_act e p p' : start_step e p = Some p' -> act p p'.
Proof.
  unfold start_step. intros Hs. destruct (starter p) eqn:Hst; simplify_eq.
  - destruct (allocation_ok e); simplify_eq; [by apply a_emplace|apply a_spawn_fail; auto].
  - destruct (allocation_ok e); simplify_eq; [by apply a_spawn|apply a_spawn_fail; auto].
  - by apply a_assign.
  - by apply a_publish.
  - by apply a_fail_publish.
  - case_decide; [by apply a_fail_won|by apply a_fail_lost].
  - destruct (readyEvent_ p) eqn:?; simplify_eq. by apply a_wait.
  - destruct (decide (state_ p = kStarting)) as [E|E].
    + rewrite bool_decide_eq_true_2 in Hs by done.
      destruct (startupResult_ p) eqn:Hr; simplify_eq;
        first [by apply a_ready | apply a_start_error; congruence].
    + rewrite bool_decide_eq_false_2 in Hs by done.
      destruct (startupResult_ p) eqn:Hr; simplify_eq; by apply a_start_lost.
Qed.

Lemma stop_call_act p p' o : stop_call p = Some (p', o) -> act p p'.
Proof.
  unfold stop_call. intros Hs. destruct (state_ p) eqn:E; simplify_eq;
    try apply a_same; rewrite <- E; apply a_stop; rewrite E; simpl; lia.
Qed.

Lemma stop_act p p' : stop_step p = Some p' -> act p p'.
Proof.
  unfold stop_step, resolveStartup. intros Hs. destruct (stopper p) eqn:Hst; simplify_eq.
  - destruct (bool_decide _) eqn:E1, (fieldsPublished_ p) eqn:E2,
      (managerTask_ p) eqn:E3; simpl in Hs; simplify_eq; bool_to_prop;
      first [by apply (a_stop_manager previous) | by apply (a_stop_no_manager previous)].
  - case_decide; [by apply a_stop_resolve|by apply a_stop_resolved].
  - by apply a_stop_send.
  - destruct (manager p) eqn:?; simplify_eq. by apply a_stop_sync.
  - by apply a_take.
  - destruct (forallb _ _) eqn:E; simplify_eq. eapply a_join; [done|].
    intros x Hx. rewrite forallb_forall in E. apply E. by apply list_elem_of_In.
  - destruct (_ || _) eqn:E; simplify_eq. apply a_watches; [done|].
    apply orb_true_iff in E as [E|E]; bool_to_prop; auto.
  - by apply a_store.
Qed.

Lemma add_act e ctx priority k fn p :
  k ∉ accepted p -> act p (addTask_locked e ctx priority k fn p).1.
Proof.
  intros Hk. unfold addTask_locked, reject.
  destruct (_ || negb _) eqn:E1; [apply a_rejected|].
  destruct (_ || deadline_reached _ _); [apply a_rejected|].
  destruct (negb (allocation_ok e)); [apply a_same|]. bool_to_prop. by apply a_add.
Qed.

Lemma watch_act e p p' : watch_step e p = Some p' -> act p p'.
Proof.
  unfold watch_step. intros Hs. destruct (watches p) as [|k rest] eqn:E; [done|].
  destruct (pq_cancel _ _ _) as [q' n] eqn:E2. simplify_eq.
  replace q' with (pq_cancel (now e) k (queue_ p)).1 by by rewrite E2.
  by apply a_watch.
Qed.

Lemma executor_act e x p p' : executor_step e x p = Some p' -> act p p'.
Proof.
  unfold executor_step. intros Hs. destruct (execs p !! x) as [[]|] eqn:Hx; simplify_eq.
  - destruct (targetExecutors_ p <? allocatedExecutors_ p) eqn:E1.
    + rewrite orb_true_r in Hs. simpl in Hs. simplify_eq. bool_to_prop. by apply a_excess.
    + rewrite orb_false_r in Hs.
      destruct (pq_size (queue_ p) =? 0) eqn:E2, (done_ p) eqn:E3; simpl in Hs;
        bool_to_prop.
      * simplify_eq. by apply a_drained.
      * destruct (task_cancelled e); simplify_eq. by apply a_idle_cancel.
      * destruct (pq_pop _ _) as [[[k n] q']|] eqn:E4; simplify_eq. by eapply a_pop.
      * destruct (pq_pop _ _) as [[[k n] q']|] eqn:E4; simplify_eq. by eapply a_pop.
  - by apply a_run.
  - by apply a_ran.
  - by apply a_exit.
  - by apply a_return.
Qed.

Lemma manager_act e x p p' :
  execs p !! x = None -> manager_step e x p = Some p' -> act p p'.
Proof.
  unfold manager_step. intros Hx Hs.
  assert (Hc : manager p = MTop \/ manager p = MPost -> act p (manager_cancelled p)).
  { intros Hm. unfold manager_cancelled, resolveStartup.
    case_decide; [by apply a_cancelled|by apply a_must_drain]. }
  assert (Hres : forall r0, exists r, (resolveStartup r0 p).1 = set_startupResult_ r p /\
    (r = startupResult_ p /\ r <> rPending \/ r = r0 /\ startupResult_ p = rPending)).
  { intros r0. unfold resolveStartup. case_decide; eauto.
    exists (startupResult_ p). split; [by destruct p|auto]. }
  destruct (manager p) eqn:Hm; simplify_eq.
  - destruct (lifecycleCancelled _ _); [by auto|by apply a_top].
  - destruct (done_ p) eqn:?; [|by apply a_go_on].
    destruct (Hres rStopped) as (r & -> & Hr). by apply a_done.
  - unfold reconcile_lock. pose proof (newTarget_pos e). simpl.
    destruct (_ <? _) eqn:E1; [|destruct (_ =? _) eqn:E2; [|destruct (allocation_ok e)]];
      bool_to_prop; apply a_target; auto with lia.
  - destruct n; simplify_eq; [by apply a_slots|by apply a_slot].
  - destruct (allocation_ok e); simplify_eq; [by apply a_executor|by eapply a_no_executor].
  - by apply a_adopt.
  - destruct (bool_decide _ && _) eqn:E; simplify_eq.
    + bool_to_prop. by apply a_hopeless.
    + apply a_tolerate; [done|].
      apply andb_false_iff in E as [E|E]; bool_to_prop; auto.
  - destruct (Hres rFailed) as (r & -> & Hr). by apply a_fail.
  - destruct (lifecycleCancelled _ _); [by auto|by apply a_post].
  - destruct (Hres rReady) as (r & -> & Hr). by apply a_resolve_ready.
  - by apply a_send.
  - by apply a_sleep.
  - unfold requestDrainFromManager.
    destruct (state_ p) eqn:?; first [apply a_drain; auto; fail | by apply a_no_drain; congruence].
  - by apply a_leave.
Qed.

Lemma step_act p p' : step p p' -> act p p'.
Proof.
  destruct 1 as [ctx p|e p p' Hs|p p' o Hs|p p' Hs|e ctx err p Hs|e ctx pr k fn p Hs
    |k p Hs|e p p' Hs|e x p p' Hs|e x p p' Hx Hs];
    eauto using start_act, stop_call_act, stop_act, add_act, watch_act, executor_act,
      manager_act.
  - unfold start_call. destruct (state_ p) eqn:?; by first [apply a_start | apply a_same].
  - apply a_rejected.
  - by apply a_fire.
Qed.
End Acts.

(** Use the known program counters and states everywhere. *)
Ltac known t :=
  repeat match goal with
  | E : t = _, H : context [t] |- _ =>
      lazymatch H with E => fail | _ => rewrite E in H end
  | E : t = _ |- context [t] => rewrite E
  end.

Ltac known_control :=
  match goal with p : Pool _ |- _ =>
    known (state_ p); known (starter p); known (stopper p); known (manager p);
    known (startupResult_ p); known (managerTask_ p); known (fieldsPublished_ p);
    simpl in *
  end;
  repeat match goal with H : ?x = ?x -> _ |- _ => specialize (H eq_refl) end.

Ltac by_control :=
  intros; destruct_and?; destruct_or?; known_control; known_control;
  solve [ done | congruence | lia | intuition (congruence || lia || eauto) ].

Section Control.
Context {Q : Type} `{PoolQueueLaws Q}.
Implicit Types p : Pool Q.

Record control p : Prop := {
  ct_done : done_ p = draining (state_ p);
  ct_created : state_ p = kCreated -> starter p = SIdle;
  ct_running : state_ p = kRunning -> starter p = SReturned (Ok tt);
  ct_failed : state_ p = kFailed -> returned (starter p) = true;
  ct_draining : state_ p = kDraining -> leaving (manager p) = true;
  ct_stopper : match stopper p with
               | TIdle => (rank (state_ p) < 4)%nat
               | TReturned => state_ p = kStopped
               | _ => state_ p = kStopping
               end;
  ct_spawned : manager p = MNone <-> spawned (starter p) = false;
  ct_assigned : managerTask_ p = assigned (starter p);
  ct_published : fieldsPublished_ p = published (starter p);
  ct_watches : spawned (starter p) = true -> cancelWatches_ p = true;
  ct_emplaced : starter p = SSpawn -> cancelWatches_ p = true;
  ct_ok : starter p = SReturned (Ok tt) -> startupResult_ p = rReady;
  ct_event : readyEvent_ p = true -> startupResult_ p <> rPending;
  ct_switch : starter p = SSwitch -> readyEvent_ p = true;
  ct_resolved : past_resolution (manager p) = true -> startupResult_ p <> rPending;
  ct_finished : manager p = MFinished -> readyEvent_ p = true;
  ct_send : stopper p = TMgrSend -> startupResult_ p <> rPending;
  ct_fields : match stopper p with
              | TFields kCreated => starter p = SIdle
              | TFields (kRunning | kFailed) => returned (starter p) = true
              | TFields kDraining => leaving (manager p) = true
              | TFields (kStopping | kStopped) => False
              | TMgrResolve | TMgrSend | TMgrSync => assigned (starter p) = true
              | TTake | TJoin _ | TWatches | TStore | TReturned => quiet (starter p) (manager p)
              | _ => True
              end;
}.

Lemma control_initial : control initial.
Proof. split; simpl; try done; lia. Qed.

(** What [stop] knows from the state it left. *)
Lemma control_left p :
  control p -> (rank (state_ p) < 4)%nat ->
  match state_ p with
  | kCreated => starter p = SIdle
  | kRunning | kFailed => returned (starter p) = true
  | kDraining => leaving (manager p) = true
  | kStarting => True
  | kStopping | kStopped => False
  end.
Proof.
  intros [_ C1 C2 C3 C4 _ _ _ _ _ _ _ _ _ _ _ _ _] Hr.
  destruct (state_ p); simpl in *; auto; [by rewrite C2|lia..].
Qed.

(** No manager to wait for: none was created, or it is on its way out. *)
Lemma control_no_manager previous p :
  control p -> stopper p = TFields previous -> managerTask_ p = false ->
  (previous = kStarting -> fieldsPublished_ p = true) ->
  quiet (starter p) (manager p).
Proof.
  intros [_ _ _ _ _ C1 C2 C3 C4 _ _ _ _ _ _ _ _ C5] Hst Hm Hp. unfold quiet.
  rewrite Hst in *. rewrite C3 in Hm. rewrite C4 in Hp.
  destruct previous; auto;
    destruct (starter p) as [| | | | | | | | |[[]|[]]]; simpl in *; intuition congruence.
Qed.

Lemma control_step p p' : control p -> step p p' -> control p'.
Proof.
  intros C Hs. apply step_act in Hs. pose proof (control_left p C) as CL.
  pose proof (fun s => control_no_manager s p C) as CN.
  destruct Hs; destruct C; try (destruct err; try done); try destruct b;
    destruct_and?; destruct_or?; destruct_and?; subst; known_control; known_control.
  all: split; simpl in *; try done.
  all: try solve [congruence | lia | eauto | intuition congruence].
  all: clear CL CN; unfold quiet in *; destruct (stopper p) as [|[]| | | | | | | |] eqn:?;
    known_control; simpl in *; try solve [done | congruence | lia | intuition congruence].
  all: simplify_eq; destruct (manager p); simpl in *; solve [done | intuition congruence].
Qed.

(** An invariant that may use [control] holds in every reachable state. *)
Lemma reachable_ind_control (I : Pool Q -> Prop) :
  I initial -> (forall p p', control p -> I p -> act p p' -> I p') ->
  forall p, reachable p -> control p /\ I p.
Proof.
  intros H0 HI. apply (rtc_ind_r (fun p => control p /\ I p)).
  - split; [apply control_initial|done].
  - intros p p' _ Hs [C HIp]. split; [by eapply control_step|].
    eapply HI; [done..|by apply step_act].
Qed.

Lemma reachable_control p : reachable p -> control p.
Proof. intros Hr. by apply (reachable_ind_control (fun _ => True)). Qed.
End Control.
