(* ===== verification/PoolTasks.v ===== *)
(** * Tasks and executors of a pool

    The part of the pool invariant that speaks of the executor table, the executor
    counters and the accounting of tasks, and the theorems that follow for every run
    queue: every accepted task is queued, in flight or executed, exactly once; the
    executor counters count what they are meant to count; [stop] returns only after
    everything accepted was executed. *)
From Stdlib Require Import ZArith Lia.
From S2P Require Import Prelude Context PoolCore PoolControl.
Local Open Scope Z_scope.

(** An executor that holds a slot. *)
Definition occupies (u : ExecPc) : bool :=
  match u with EWait | EReset _ | ERun _ | EExit => true | _ => false end.
(** An executor that takes tasks. *)
Definition serves (u : ExecPc) : bool :=
  match u with EWait | EReset _ | ERun _ => true | _ => false end.
Definition runs (u : ExecPc) : bool := match u with ERun _ => true | _ => false end.
(** The task an executor took and has not finished. *)
Definition holds (u : ExecPc) : list nat :=
  match u with EReset k | ERun k => [k] | _ => [] end.

Definition inflight (m : gmap nat ExecPc) : list nat := tally holds m.

Section Tasks.
Context {Q : Type} `{PoolQueueLaws Q}.
Implicit Types p : Pool Q.

(** ** Executor slots *)
Record slots p : Prop := {
  sl_alloc : allocatedExecutors_ p =
             count occupies (execs p) +
             match manager p with MSpawnGo _ _ => 1 | _ => 0 end;
  sl_busy : busyExecutors_ p = count runs (execs p);
  sl_target : execs p <> ∅ -> 1 <= targetExecutors_ p;
  sl_ceiling : allocatedExecutors_ p <= maxTarget p;
  sl_max : 0 <= targetExecutors_ p <= maxTarget p;
  sl_spawn : match manager p with
             | MSpawn n _ | MSpawnGo n _ =>
                 1 <= targetExecutors_ p /\
                 allocatedExecutors_ p + Z.of_nat n <= targetExecutors_ p
             | _ => True
             end;
}.

Ltac counts :=
  repeat match goal with
  | Hx : execs ?p !! ?x = Some ?u |- context [count ?P (<[?x := ?v]> (execs ?p))] =>
      rewrite (count_update P (execs p) x u v Hx)
  | Hx : execs ?p !! ?x = None |- context [count ?P (<[?x := ?v]> (execs ?p))] =>
      rewrite (count_new P (execs p) x v Hx)
  end; simpl.

Lemma exec_nonempty p x u : execs p !! x = Some u -> execs p <> ∅.
Proof. intros Hx He. rewrite He, lookup_empty in Hx. done. Qed.

Lemma control_unspawned p : control p -> starter p = SSpawn -> manager p = MNone.
Proof. intros C Hs. apply (ct_spawned _ C). by rewrite Hs. Qed.

Lemma slots_step p p' : control p -> slots p -> act p p' -> slots p'.
Proof.
  intros K C Hs. destruct Hs; destruct C;
    repeat match goal with
    | E : starter p = SSpawn |- _ => apply (control_unspawned p K) in E
    | E : manager p = _ |- _ => progress rewrite E in *
    | Hx : execs p !! _ = Some _ |- _ =>
        lazymatch goal with
        | _ : execs p <> ∅ |- _ => fail
        | _ => pose proof (exec_nonempty _ _ _ Hx)
        end
    end; try destruct b.
  all: split; simpl in *; counts; try done; try lia.
  all: try (rewrite H1; lia).
  all: try (destruct (manager p); lia).
  all: try (destruct_or?; destruct_and?; subst; simpl; lia).
  all: try (intros; destruct_and?; tauto || lia).
  all: destruct_or?; known (manager p); lia.
Qed.

Lemma slots_initial : slots initial.
Proof. split; simpl; try done; lia. Qed.

Lemma reachable_slots p : reachable p -> slots p.
Proof. intros Hr. by apply (reachable_ind_control slots slots_initial slots_step). Qed.

(** ** Accounting of tasks *)
Record accounting_at q (live : gset nat) p : Prop := {
  ac_rep : pq_rep q live (queue_ p);
  ac_tasks : accepted p ≡ₚ q ++ inflight (execs p) ++ executed p;
  ac_nodup : NoDup (accepted p);
  ac_live : live = list_to_set (q ++ inflight (execs p));
}.
Definition accounting p : Prop := exists q live, accounting_at q live p.

Lemma inflight_update m x u v :
  m !! x = Some u -> holds u = holds v -> inflight (<[x := v]> m) ≡ₚ inflight m.
Proof.
  intros Hx Huv. unfold inflight. by rewrite tally_insert, (tally_delete _ m x u Hx), Huv.
Qed.

Lemma inflight_new m x v : m !! x = None -> holds v = [] -> inflight (<[x := v]> m) ≡ₚ inflight m.
Proof. intros Hx Hv. unfold inflight. by rewrite (tally_new _ _ _ _ Hx), Hv. Qed.

(** A change of the pool that moves no task. *)
Lemma accounting_ext q live p p' :
  queue_ p' = queue_ p -> accepted p' = accepted p -> executed p' = executed p ->
  inflight (execs p') ≡ₚ inflight (execs p) ->
  accounting_at q live p -> accounting_at q live p'.
Proof.
  intros E1 E2 E3 E4 []. split; rewrite ?E1, ?E2, ?E3, ?E4; done.
Qed.

Lemma accounting_add q live k a p :
  k ∉ accepted p -> accounting_at q live p ->
  accounting (p |> set_queue_ (pq_add k a (queue_ p)) |> set_accepted (accepted p ++ [k])).
Proof.
  intros Hk []. rewrite ac_tasks0 in Hk.
  destruct (pq_add_rep q live (queue_ p) k a) as (q' & Hr & Hq); [done| |].
  { rewrite ac_live0, elem_of_list_to_set. set_solver. }
  exists q', ({[k]} ∪ live). split; simpl; [done| | |].
  - rewrite ac_tasks0, Hq. solve_Permutation.
  - apply NoDup_app. split; [done|]. split; [|apply NoDup_singleton].
    intros y Hy Hyk. apply list_elem_of_singleton in Hyk as ->. by rewrite ac_tasks0 in Hy.
  - rewrite ac_live0. apply leibniz_equiv. rewrite Hq. set_solver.
Qed.

Lemma accounting_cancel q live t k p :
  accounting_at q live p -> exists q', accounting_at q' live (set_queue_ (pq_cancel t k (queue_ p)).1 p).
Proof.
  intros []. destruct (pq_cancel_rep q live (queue_ p) t k) as (q' & Hr & Hq); [done|].
  exists q'. split; simpl; try done; [by rewrite Hq|]. rewrite ac_live0.
  apply leibniz_equiv. by rewrite Hq.
Qed.

Lemma accounting_pop q live t x k m q' p :
  execs p !! x = Some EWait -> pq_size (queue_ p) <> 0 ->
  pq_pop t (queue_ p) = Some (k, m, q') -> accounting_at q live p ->
  exists q1, accounting_at q1 live (p |> set_queue_ q' |> set_exec x (EReset k)).
Proof.
  intros Hx Hsz Hpop []. rewrite (pq_rep_size q live) in Hsz by done.
  destruct (pq_pop_rep q live (queue_ p) t) as (k' & n' & s' & q1 & Hp & Hr & Hq);
    [done|by intros ->|]. rewrite Hpop in Hp. simplify_eq.
  assert (Hin : inflight (<[x := EReset k']> (execs p)) ≡ₚ k' :: inflight (execs p)).
  { unfold inflight. by rewrite tally_insert, (tally_delete _ _ x EWait Hx). }
  exists q1. split; simpl; try done.
  - rewrite ac_tasks0, Hq, Hin. solve_Permutation.
  - apply leibniz_equiv. rewrite !list_to_set_app, Hq, Hin. set_solver.
Qed.

Lemma accounting_ran q live x k p :
  execs p !! x = Some (ERun k) -> accounting_at q live p ->
  exists live', accounting_at q live'
    (p |> set_executed (executed p ++ [k]) |> set_queue_ (pq_retire k (queue_ p))
       |> set_exec x EWait).
Proof.
  intros Hx [].
  assert (Hin : inflight (execs p) ≡ₚ k :: inflight (<[x := EWait]> (execs p))).
  { unfold inflight. by rewrite tally_insert, (tally_delete _ _ x (ERun k) Hx). }
  rewrite Hin in ac_tasks0.
  assert (Hnd : NoDup (q ++ (k :: inflight (<[x := EWait]> (execs p))) ++ executed p))
    by by rewrite <- ac_tasks0.
  apply NoDup_app in Hnd as (_ & Hd & Hnd). simpl in Hnd.
  apply NoDup_cons in Hnd as [Hki _].
  assert (Hkq : k ∉ q) by (intros Hk; apply (Hd k Hk); left).
  exists (live ∖ {[k]}). split; simpl; try done.
  - by apply pq_retire_rep.
  - rewrite ac_tasks0. solve_Permutation.
  - apply leibniz_equiv. rewrite ac_live0, !list_to_set_app, Hin. simpl. set_solver.
Qed.

Lemma accounting_step p p' : control p -> accounting p -> act p p' -> accounting p'.
Proof.
  intros _ (q & live & C) Hs. destruct Hs;
    try (exists q, live; apply (accounting_ext q live p); simpl; eauto using inflight_update, inflight_new; fail).
  - by eapply accounting_add.
  - destruct (accounting_cancel q live t k p C) as (q' & C').
    exists q', live. by eapply accounting_ext; [..|apply C'].
  - destruct (accounting_pop q live t x k m q' p) as (q1 & C'); [done..|].
    exists q1, live. by eapply accounting_ext; [..|apply C'].
  - destruct (accounting_ran q live x k p) as (l' & C'); [done..|].
    exists q, l'. by eapply accounting_ext; [..|apply C'].
Qed.

Lemma accounting_initial : accounting initial.
Proof.
  exists [], ∅. split; simpl; try done; [apply pq_rep_empty|apply NoDup_nil_2].
Qed.

Lemma reachable_accounting p : reachable p -> accounting p.
Proof.
  intros Hr. by apply (reachable_ind_control accounting accounting_initial accounting_step).
Qed.

(** ** Somebody serves the queue *)

(** An executor serves the queue, or nothing is left to serve; void once an idle
    executor was cancelled from outside. *)
Definition served p : Prop :=
  executorCancelled p = true \/ 1 <= count serves (execs p) \/
  done_ p = true /\ pq_size (queue_ p) = 0.

Record supply p : Prop := {
  su_exit : forall x, execs p !! x = Some EExit ->
            executorCancelled p = true \/ done_ p = true /\ pq_size (queue_ p) = 0;
  su_ready : startupResult_ p = rReady -> served p;
  su_manager : match manager p with
               | MPost | MReady => startupResult_ p = rPending -> served p
               | MSpawn 0 _ | MAdopt _ false => served p
               | MAdopt _ true | MErr => True
               | _ => True
               end;
  su_accepted : accepted p <> [] -> startupResult_ p = rReady;
}.

(** With a slot taken by an executor, the queue is served. *)
Lemma occupied_served p :
  supply p -> 1 <= count occupies (execs p) -> served p.
Proof.
  intros S Hc. apply count_pos in Hc as (x & u & Hx & Hu).
  destruct u; try done.
  1-3: right; left; apply count_pos; eauto.
  destruct (su_exit _ S x Hx); [by left|by right; right].
Qed.

Definition frozen p : Prop := done_ p = true /\ pq_size (queue_ p) = 0.

Lemma frozen_step p p' : accounting p -> act p p' -> frozen p -> frozen p'.
Proof.
  intros (q & live & C) Hs [Hd Hz].
  assert (Hq : q = []).
  { rewrite (pq_rep_size _ _ _ (ac_rep _ _ _ C)) in Hz. by apply length_zero_iff_nil; lia. }
  destruct Hs; split; simpl; try done; try congruence.
  - destruct (accounting_cancel q live t k p C) as (q' & C').
    pose proof (pq_cancel_rep _ _ _ t k (ac_rep _ _ _ C)) as (q1 & Hr & Hp).
    rewrite (pq_rep_size _ _ _ Hr). rewrite Hq in Hp.
    apply Permutation_nil_r in Hp. by rewrite Hp.
  - destruct (accounting_ran q live x k p) as (l' & C'); [done..|].
    pose proof (pq_rep_size _ _ _ (ac_rep _ _ _ C')) as E. simpl in E. by rewrite E, Hq.
Qed.

Lemma cancelled_step p p' : act p p' -> executorCancelled p = true -> executorCancelled p' = true.
Proof. by destruct 1. Qed.

Lemma exit_step p p' :
  accounting p -> act p p' ->
  (forall x, execs p !! x = Some EExit -> executorCancelled p = true \/ frozen p) ->
  forall x, execs p' !! x = Some EExit -> executorCancelled p' = true \/ frozen p'.
Proof.
  intros HA Hs Hex y Hy.
  assert (Hkeep : executorCancelled p = true \/ frozen p ->
                  executorCancelled p' = true \/ frozen p').
  { intros [?|?]; [left; by eapply cancelled_step|right; by eapply frozen_step]. }
  destruct Hs; try (apply Hkeep, (Hex y), Hy); simpl in *.
  all: try (apply lookup_insert_Some in Hy as [[<- ?]|[? Hy]]; [done|by apply Hkeep, (Hex y)]).
  - by left.
  - by right.
Qed.

Lemma served_step p p' :
  control p -> slots p -> accounting p -> supply p -> act p p' -> served p -> served p'.
Proof.
  intros HC HS HA HU Hs Hserved.
  assert (Hex : forall x, execs p' !! x = Some EExit -> executorCancelled p' = true \/ frozen p')
    by by eapply exit_step; [..|apply (su_exit _ HU)].
  pose proof (slots_step p p' HC HS Hs) as HS'.
  destruct Hserved as [Hc|[Hn|Hf]];
    [left; by eapply cancelled_step| |right; right; by eapply frozen_step].
  destruct Hs; try (right; left; apply Hn); simpl in *.
  - by left.
  - (* excess *)
    pose proof (exec_nonempty _ _ _ H0) as Hne. destruct HS, HS'; simpl in *.
    specialize (sl_target0 Hne).
    assert (Hoc : 1 <= count occupies (<[x := EReturn]> (execs p)))
      by (destruct (manager p); lia).
    apply count_pos in Hoc as (y & u & Hy & Hu). destruct u; try done.
    1-3: right; left; apply count_pos; eauto.
    destruct (Hex y Hy); [by left|by right; right].
  - by right; right.
  - right; left; simpl. rewrite (count_update _ _ _ _ _ H0). simpl. lia.
  - right; left; simpl. rewrite (count_update _ _ _ _ _ H0). simpl. lia.
  - right; left; simpl. rewrite (count_update _ _ _ _ _ H0). simpl. lia.
  - right; left; simpl. rewrite (count_update _ _ _ _ _ H0). simpl. lia.
  - right; left; simpl. rewrite (count_update _ _ _ _ _ H0). simpl. lia.
  - right; left; simpl. rewrite (count_new _ _ _ _ H1). simpl. lia.
Qed.

Lemma supply_step p p' :
  control p -> slots p /\ accounting p /\ supply p -> act p p' ->
  slots p' /\ accounting p' /\ supply p'.
Proof.
  intros HC (HS & HA & HU) Hs.
  split; [by eapply slots_step|]. split; [by eapply accounting_step|].
  pose proof (served_step p p' HC HS HA HU Hs) as Hserved.
  pose proof (occupied_served p HU) as Hocc.
  pose proof (exit_step p p' HA Hs (su_exit _ HU)) as Hexit.
  destruct HU as [_ Hready Hmgr Hacc], HS. split; [done|..].
  - intros Hr. apply Hserved. destruct Hs; simpl in *; auto; try done.
    all: destruct_or?; destruct_and?; subst; auto; try done.
    rewrite H0 in Hmgr. auto.
  - clear Hacc. pose proof (count_nonneg occupies (execs p)).
    destruct Hs; simpl in *; try (destruct (manager p) as [| | | |[]| |? []| | | | | | | | |];
      auto; fail).
    all: try (rewrite H1 in Hmgr; simpl in *; auto; fail).
    + rewrite H1 in sl_alloc0. destruct H3 as [[-> ?]|[[-> ?]|[-> ?]]]; simpl; [|done|].
      * intros _. apply Hserved, Hocc. lia.
      * destruct (Z.to_nat _) eqn:E; [lia|done].
    + destruct n; [|done]. right; left. simpl. rewrite (count_new _ _ _ _ H2).
      pose proof (count_nonneg serves (execs p)). simpl. lia.
    + rewrite H1 in Hmgr. destruct b; simpl in *; auto.
    + rewrite H1 in sl_alloc0. intros Hp. apply Hserved, Hocc. destruct H2; [done|lia].
  - destruct Hs; simpl in *; auto; try (intros Ha; specialize (Hacc Ha); destruct_or?;
      destruct_and?; congruence).
    intros _. apply (ct_ok _ HC), (ct_running _ HC). done.
Qed.

Lemma supply_initial : supply initial.
Proof. by split. Qed.

Lemma reachable_supply p : reachable p -> slots p /\ accounting p /\ supply p.
Proof.
  intros Hr. apply (reachable_ind_control (fun p => slots p /\ accounting p /\ supply p));
    [|apply supply_step|done].
  split; [apply slots_initial|]. split; [apply accounting_initial|apply supply_initial].
Qed.

(** ** Who waits for an executor *)

Definition pending (m : ManagerPc) : list nat :=
  match m with MSpawn _ acc | MSpawnGo _ acc | MAdopt acc _ => acc | _ => [] end.

(** Where the handle of a live executor is. *)
Definition owned p (x : nat) : Prop :=
  match stopper p with
  | TJoin toWait => x ∈ toWait
  | TWatches | TStore | TReturned => False
  | _ => x ∈ executors_ p \/ x ∈ pending (manager p)
  end.

Definition ownership p : Prop := forall x, finished p x = false -> owned p x.

Lemma finished_alive p x : finished p x = false <-> exists u, execs p !! x = Some u /\ u <> EFinished.
Proof.
  unfold finished. destruct (execs p !! x) as [[]|]; split; intros Hx; try done; eauto;
    destruct Hx as (u & Hu & Hne); congruence.
Qed.

Lemma quiet_no_spawn p n acc :
  control p -> manager p = MSpawnGo n acc \/ manager p = MSpawn n acc ->
  match stopper p with
  | TTake | TJoin _ | TWatches | TStore | TReturned => False | _ => True end.
Proof.
  intros HC Hm. pose proof (ct_fields _ HC) as Hf. unfold quiet in Hf.
  destruct (stopper p); auto; destruct Hm as [Hm|Hm]; rewrite Hm in Hf; simpl in Hf;
    intuition congruence.
Qed.

Lemma ownership_step p p' : control p -> ownership p -> act p p' -> ownership p'.
Proof.
  intros HC HO Hs y Hy. specialize (HO y).
  assert (Halive : finished p' y = false -> finished p y = false \/
    exists n acc, manager p = MSpawnGo n acc /\ manager p' = MSpawn n (acc ++ [y])).
  { clear Hy HO. rewrite !finished_alive. intros (u & Hu & Hne).
    destruct Hs; simpl in *; try (left; eauto; fail).
    all: apply lookup_insert_Some in Hu as [[<- <-]|[? Hu]]; [|left; by eauto].
    all: first [left; eexists; split; [eassumption|congruence] | right; eauto]. }
  pose proof (ct_fields _ HC) as Hf. unfold quiet in Hf.
  destruct (Halive Hy) as [Hy'|(n & acc & Hm & Hm')].
  - specialize (HO Hy'). unfold owned in *.
    destruct Hs; simpl in *; try exact HO.
    all: try (rewrite H0 in *; simpl in *; tauto).
    + rewrite (control_unspawned p HC H0) in HO. exact HO.
    + pose proof (ct_stopper _ HC) as Hst. destruct (stopper p); auto;
        rewrite Hst in H0; simpl in H0; lia.
    + rewrite H0 in *. destruct HO as [HO|HO]; [done|].
      destruct Hf as [Hf|[Hf _]]; destruct (manager p); try done; by apply elem_of_nil in HO.
    + rewrite H0 in HO. by rewrite (H1 y HO) in Hy'.
    + destruct H0 as [Hm|Hm]; rewrite Hm in HO; exact HO.
    + destruct H0 as [Hm|Hm]; rewrite Hm in HO; exact HO.
    + rewrite H0 in *. assert (HF : y ∈ filter (fun x => finished p x = false) (executors_ p) <->
        y ∈ executors_ p) by (rewrite list_elem_of_filter; tauto).
      destruct (stopper p); auto; rewrite HF; destruct HO as [HO|HO];
        [auto|by apply elem_of_nil in HO|..]; first [by auto | by apply elem_of_nil in HO].
    + rewrite H0 in *. destruct (stopper p); rewrite ?elem_of_app; simpl in *; tauto.
    + rewrite H0 in *. destruct b, (stopper p); rewrite ?elem_of_app; simpl in *; tauto.
  - pose proof (quiet_no_spawn p n acc HC (or_introl Hm)) as Hq. unfold owned.
    destruct Hs; simpl in *; try congruence.
    simplify_eq. rewrite Hm in *. simplify_list_eq.
    destruct (stopper p); try done; right; apply elem_of_app; right; left.
Qed.

Lemma reachable_ownership p : reachable p -> ownership p.
Proof.
  intros Hr. apply (reachable_ind_control ownership); [|apply ownership_step|done].
  intros x Hx. by apply finished_alive in Hx as (u & Hu & _).
Qed.
End Tasks.
