(* ===== verification/PoolTheorems.v ===== *)
(** * What a task pool promises, for every run queue

    Consequences of the invariants of PoolControl.v and PoolTasks.v, stated for any
    run queue that meets [PoolQueueLaws]; the claims about the two pools of the
    library are instances. *)
From Stdlib Require Import ZArith Lia.
From S2P Require Import Prelude Context PoolCore PoolControl PoolTasks.
Local Open Scope Z_scope.

Section Promises.
Context {Q : Type} `{PoolQueueLaws Q}.
Implicit Types p : Pool Q.

(** ** The lifecycle moves forward *)

Lemma act_rank p p' :
  control p -> act p p' ->
  (rank (state_ p) < rank (state_ p'))%nat \/ state_ p' = state_ p.
Proof.
  intros HC Hs. pose proof (ct_stopper _ HC) as Hst.
  destruct Hs; simpl; auto; left; known (state_ p); known (stopper p); simpl in *; try lia.
  - by rewrite Hst; simpl; lia.
  - destruct_or?; known (state_ p); simpl; lia.
Qed.

(** Follow a run from a reachable state. *)
Lemma run_ind (I : Pool Q -> Pool Q -> Prop) :
  (forall p, I p p) ->
  (forall p p1 p2, reachable p1 -> I p p1 -> act p1 p2 -> I p p2) ->
  forall p p', reachable p -> rtc step p p' -> I p p'.
Proof.
  intros H0 HI p p' Hr Hrun.
  assert (Hboth : reachable p' /\ I p p'); [|tauto].
  revert p' Hrun. apply (rtc_ind_r (fun p' => reachable p' /\ I p p')); [auto|].
  intros p1 p2 Hrun Hs [Hr1 HI1]. split; [by eapply rtc_r|].
  eapply HI; [done..|by apply step_act].
Qed.

Lemma lifecycle_forward p p' :
  reachable p -> rtc step p p' ->
  (rank (state_ p) < rank (state_ p'))%nat \/ state_ p' = state_ p.
Proof.
  apply (run_ind (fun p p' =>
    (rank (state_ p) < rank (state_ p'))%nat \/ state_ p' = state_ p)); [auto|].
  intros q q1 q2 Hr HI Hs. destruct (act_rank q1 q2 (reachable_control _ Hr) Hs) as [?|E].
  - left. destruct HI as [?|E]; [lia|]. by rewrite <- E.
  - rewrite E. auto.
Qed.

(** ** Admission *)

Lemma admission_closed p p' :
  reachable p -> rtc step p p' -> done_ p = true ->
  done_ p' = true /\ accepted p' = accepted p.
Proof.
  apply (run_ind (fun p p' => done_ p = true -> done_ p' = true /\ accepted p' = accepted p));
    [auto|].
  intros q q1 q2 Hr HI Hs Hd. destruct (HI Hd) as [Hd1 Ha].
  destruct Hs; simpl; auto. congruence.
Qed.

Lemma addTask_after_done e ctx pr k fn p :
  done_ p = true ->
  (addTask_locked e ctx pr k fn p).2 = Return (Err PoolStoppedError) /\
  queue_ (addTask_locked e ctx pr k fn p).1 = queue_ p.
Proof. intros Hd. unfold addTask_locked. by rewrite Hd. Qed.

(** ** Exactly once *)

Lemma exactly_once p :
  reachable p ->
  exists q live, pq_rep q live (queue_ p) /\
    accepted p ≡ₚ q ++ inflight (execs p) ++ executed p /\
    NoDup (q ++ inflight (execs p) ++ executed p).
Proof.
  intros Hr. destruct (reachable_accounting p Hr) as (q & live & []).
  exists q, live. split; [done|]. split; [done|]. by rewrite <- ac_tasks.
Qed.

(** ** Shutdown *)

Lemma stopped_finished p x :
  reachable p -> stopper p = TWatches \/ stopper p = TStore \/ stopper p = TReturned ->
  finished p x = true.
Proof.
  intros Hr Hst. destruct (finished p x) eqn:Hx; [done|].
  pose proof (reachable_ownership p Hr x Hx) as Ho. unfold owned in Ho.
  destruct_or?; by known (stopper p).
Qed.

Lemma finished_no_task p : (forall x, finished p x = true) -> inflight (execs p) = [].
Proof.
  intros Hf. destruct (inflight (execs p)) as [|k l] eqn:E; [done|].
  assert (Hk : k ∈ inflight (execs p)) by (rewrite E; left).
  apply elem_of_tally in Hk as (x & u & Hx & Hu). specialize (Hf x).
  unfold finished in Hf. rewrite Hx in Hf. destruct u; try done; by apply elem_of_nil in Hu.
Qed.

Lemma finished_unserved p : (forall x, finished p x = true) -> ~ 1 <= count serves (execs p).
Proof.
  intros Hf (x & u & Hx & Hu)%count_pos. specialize (Hf x).
  unfold finished in Hf. rewrite Hx in Hf. by destruct u.
Qed.

Lemma drained p :
  reachable p -> executorCancelled p = false -> (forall x, finished p x = true) ->
  executed p ≡ₚ accepted p /\ pq_size (queue_ p) = 0.
Proof.
  intros Hr Hnc Hf. destruct (reachable_supply p Hr) as (_ & (q & live & HA) & HU).
  rewrite (ac_tasks _ _ _ HA), (finished_no_task p Hf). simpl.
  rewrite (pq_rep_size _ _ _ (ac_rep _ _ _ HA)).
  assert (Hq : q = []); [|by rewrite Hq].
  destruct (accepted p) as [|k l] eqn:Ha.
  - pose proof (ac_tasks _ _ _ HA) as Ht. rewrite Ha in Ht. symmetry in Ht.
    apply Permutation_nil_r, app_nil in Ht. tauto.
  - destruct (su_ready _ HU) as [?|[?|[_ Hz]]]; [|congruence|by apply finished_unserved in Hf|].
    + by apply (su_accepted _ HU); rewrite Ha.
    + rewrite (pq_rep_size _ _ _ (ac_rep _ _ _ HA)) in Hz. apply length_zero_iff_nil. lia.
Qed.

(** After the executors were joined, nothing can register a watch. *)
Lemma drained_unsubscribed p :
  reachable p -> executorCancelled p = false -> (forall x, finished p x = true) ->
  forall k, ~ subscribed p k.
Proof.
  intros Hr Hnc Hf k [(q & live & Hq & Hk)|(x & Hx)].
  - destruct (drained p Hr Hnc Hf) as [_ Hz]. rewrite (pq_rep_size _ _ _ Hq) in Hz.
    assert (q = []) as -> by (apply length_zero_iff_nil; lia). by apply elem_of_nil in Hk.
  - specialize (Hf x). unfold finished in Hf. by rewrite Hx in Hf.
Qed.

Lemma subscribed_accepted p k : reachable p -> subscribed p k -> accepted p <> [].
Proof.
  intros Hr Hsub Ha. destruct (exactly_once p Hr) as (q & live & Hq & Ht & _).
  rewrite Ha in Ht. symmetry in Ht.
  apply Permutation_nil_r, app_nil in Ht as [-> [Ht _]%app_nil].
  destruct Hsub as [(q' & live' & Hq' & Hk)|(x & Hx)].
  - pose proof (pq_rep_size _ _ _ Hq) as E. rewrite (pq_rep_size _ _ _ Hq') in E.
    destruct q'; [by apply elem_of_nil in Hk|done].
  - assert (Hk : k ∈ inflight (execs p)) by (apply elem_of_tally; exists x, (EReset k); set_solver).
    rewrite Ht in Hk. by apply elem_of_nil in Hk.
Qed.

Record watched p : Prop := {
  wa_none : cancelWatches_ p = false -> accepted p = [] /\ watches p = [];
  wa_over : stopper p = TStore \/ stopper p = TReturned ->
            executorCancelled p = false -> watches p = [];
}.

Lemma watched_act p p' : reachable p -> act p p' -> watched p -> watched p'.
Proof.
  intros Hr Hs [Hw1 Hw2]. pose proof (reachable_control _ Hr) as HC.
  pose proof (fun k => subscribed_accepted p k Hr) as Hsub.
  pose proof (fun x => stopped_finished p x Hr) as Hfin.
  pose proof (drained_unsubscribed p Hr) as Hun. split.
  - destruct Hs; simpl in *; auto; try done.
    + intros Hc. pose proof (ct_watches _ HC) as Hw. rewrite (ct_running _ HC) in Hw by done.
      by rewrite Hw in Hc.
    + intros Hc. destruct (Hw1 Hc) as [Ha _]. by destruct (Hsub k).
    + intros Hc. destruct (Hw1 Hc) as [_ Ha]. congruence.
  - destruct Hs; simpl in *; auto; try (intros [?|?]; done).
    all: try (intros; known (stopper p); destruct_or?; simplify_eq; by auto).
    + intros _ _. destruct_or?; [by apply Hw1|done].
    + intros Hst Hnc. exfalso. eapply Hun; [done| |done]. intros x. apply Hfin. tauto.
    + intros Hst Hnc. specialize (Hw2 Hst Hnc). congruence.
Qed.

Lemma watched_reachable p : reachable p -> watched p.
Proof.
  assert (Hb : forall p, reachable p -> reachable p /\ watched p);
    [|intros Hr; by apply Hb].
  apply (rtc_ind_r (fun p => reachable p /\ watched p)); [split; [apply rtc_refl|by split]|].
  intros q q' Hrun Hs [Hr Hw]. split; [by eapply rtc_r|].
  eapply watched_act; [done|by apply step_act|done].
Qed.

(** ** Scripted runs

    A run given by the list of its actions, to exhibit reachable states. *)
Inductive action :=
  | AStart (ctx : ContextState) | AStarter (e : Env) | AStop | AStopper
  | AAdd (e : Env) (ctx : ContextState) (priority : Z) (k fn : nat)
  | AWatch (e : Env) | AExecutor (e : Env) (x : nat) | AManager (e : Env) (x : nat).

Definition perform (a : action) p : option (Pool Q) :=
  match a with
  | AStart ctx => Some (start_call ctx p).1
  | AStarter e => start_step e p
  | AStop => fst <$> stop_call p
  | AStopper => stop_step p
  | AAdd e ctx pr k fn =>
      if bool_decide (k ∈ accepted p) then None else Some (addTask_locked e ctx pr k fn p).1
  | AWatch e => watch_step e p
  | AExecutor e x => executor_step e x p
  | AManager e x =>
      match execs p !! x with None => manager_step e x p | Some _ => None end
  end.

Fixpoint run (l : list action) p : option (Pool Q) :=
  match l with
  | [] => Some p
  | a :: l => perform a p ≫= run l
  end.

Lemma perform_step a p p' : perform a p = Some p' -> step p p'.
Proof.
  destruct a; simpl; intros Hp; simplify_eq.
  - constructor.
  - by econstructor.
  - destruct (stop_call p) as [[p1 o]|] eqn:E; simplify_eq/=. by econstructor.
  - by constructor.
  - case_bool_decide; simplify_eq. by constructor.
  - by econstructor.
  - by econstructor.
  - destruct (execs p !! x) eqn:E; [done|]. by eapply step_manager.
Qed.

Lemma run_rtc l p p' : run l p = Some p' -> rtc step p p'.
Proof.
  revert p. induction l as [|a l IH]; intros q; simpl; intros Hr; [by simplify_eq|].
  destruct (perform a q) as [q'|] eqn:E; simplify_eq/=.
  eapply rtc_l; [by eapply perform_step|by apply IH].
Qed.

Lemma run_reachable l p : run l initial = Some p -> reachable p.
Proof. apply run_rtc. Qed.

(** ** Claims *)

(** C1. [stop] drains: when [state_] is [kStopped], no task is queued or in flight,
    every task [addTask] ever accepted was executed exactly once, no executor is
    alive, and no cancellation watch is pending or can still be launched
    (provided no idle executor was cancelled from outside the pool). *)
Theorem stop_drains p :
  reachable p -> state_ p = kStopped -> executorCancelled p = false ->
  executed p ≡ₚ accepted p /\ NoDup (executed p) /\ pq_size (queue_ p) = 0 /\
  (forall x, finished p x = true) /\ watches p = [] /\ forall k, ~ subscribed p k.
Proof.
  intros Hr Hst Hnc. pose proof (reachable_control _ Hr) as HC.
  assert (Hs : stopper p = TReturned)
    by (pose proof (ct_stopper _ HC) as Hc; destruct (stopper p); try congruence;
        rewrite Hst in Hc; simpl in Hc; lia).
  assert (Hf : forall x, finished p x = true) by (intros; apply stopped_finished; auto).
  destruct (drained p Hr Hnc Hf) as [He Hz]. destruct (exactly_once p Hr) as (q & l & _ & Ht & Hn).
  split; [done|]. split; [by rewrite He, Ht|]. split; [done|]. split; [done|].
  split; [apply (wa_over _ (watched_reachable p Hr)); auto|by apply drained_unsubscribed].
Qed.

(** C2. Exactly once: at every moment each accepted task is in exactly one of the
    queue, the hands of one executor, or the list of executed tasks. *)
Theorem tasks_exactly_once p :
  reachable p ->
  exists q live, pq_rep q live (queue_ p) /\
    accepted p ≡ₚ q ++ inflight (execs p) ++ executed p /\
    NoDup (q ++ inflight (execs p) ++ executed p).
Proof. apply exactly_once. Qed.

(** Admission is closed by [done_]: once it is set, no continuation of the run
    accepts another task, and [addTask] reports [PoolStoppedError] without touching
    the queue. *)
Theorem no_admission_after_done p p' e ctx pr k fn :
  reachable p -> done_ p = true -> rtc step p p' ->
  accepted p' = accepted p /\
  (addTask_locked e ctx pr k fn p').2 = Return (Err PoolStoppedError) /\
  queue_ (addTask_locked e ctx pr k fn p').1 = queue_ p'.
Proof.
  intros Hr Hd Hrun. destruct (admission_closed p p' Hr Hrun Hd) as [Hd' Ha].
  split; [done|]. by apply addTask_after_done.
Qed.

(** The lifecycle only moves forward: along any run [state_] stays the same or
    moves strictly up the order created, starting, running/failed, draining,
    stopping, stopped; no late [start] resurrects a stopped or failed pool. *)
Theorem lifecycle_monotone p p' :
  reachable p -> rtc step p p' ->
  (rank (state_ p) < rank (state_ p'))%nat \/ state_ p' = state_ p.
Proof. apply lifecycle_forward. Qed.

(** C4. Executor accounting: [allocatedExecutors_] counts the executors that hold a
    slot plus the slot the manager has reserved, [busyExecutors_] the executors
    inside a callback, and neither ever exceeds the largest configured target. *)
Theorem executor_ceiling p :
  reachable p ->
  allocatedExecutors_ p =
    count occupies (execs p) + match manager p with MSpawnGo _ _ => 1 | _ => 0 end /\
  busyExecutors_ p = count runs (execs p) /\
  0 <= busyExecutors_ p <= allocatedExecutors_ p /\ allocatedExecutors_ p <= maxTarget p.
Proof.
  intros Hr. destruct (reachable_slots p Hr) as [Ha Hb _ Hc _ _].
  split; [done|]. split; [done|]. split; [|done]. rewrite Ha, Hb.
  assert (Hle : count runs (execs p) <= count occupies (execs p))
    by (apply count_mono; by intros []).
  pose proof (count_nonneg runs (execs p)). destruct (manager p); lia.
Qed.

(** [start] is sound: it reads [startupResult_] only after it was resolved, so
    the branch for [kPending] is dead; and when it has returned normally the startup
    was [kReady] and an executor serves the queue, unless the pool has drained since
    (or an idle executor was cancelled from outside). *)
Theorem start_reports p :
  reachable p ->
  (starter p = SSwitch -> startupResult_ p <> rPending) /\
  (starter p = SReturned (Ok tt) ->
   startupResult_ p = rReady /\
   (executorCancelled p = true \/ 1 <= count serves (execs p) \/
    done_ p = true /\ pq_size (queue_ p) = 0)).
Proof.
  intros Hr. pose proof (reachable_control _ Hr) as HC.
  destruct (reachable_supply p Hr) as (_ & _ & HU). split.
  - intros Hs. by apply (ct_event _ HC), (ct_switch _ HC).
  - intros Hs. pose proof (ct_ok _ HC Hs) as Hr'. split; [done|by apply (su_ready _ HU)].
Qed.
End Promises.

(** ** A scripted start

    [start] with two executors, until both wait for tasks. *)
Definition env (t : Z) : Env := mkEnv t ∅ (Some 2) 4 true false true.
Definition with_deadline (d : Z) : ContextState := set_deadline (Some d) defaultContext.
Definition executor_takes (x : nat) (t : Z) : list action :=
  [AExecutor (env t) x; AExecutor (env t) x; AExecutor (env t) x].

Definition script_start : list action :=
  [AStart defaultContext; AStarter (env 0); AStarter (env 0); AStarter (env 0);
   AStarter (env 0)] ++
  [AManager (env 0) 9; AManager (env 0) 9; AManager (env 0) 9;
   AManager (env 0) 9; AManager (env 0) 0; AManager (env 0) 9; AManager (env 0) 1;
   AManager (env 0) 9; AManager (env 0) 9; AManager (env 0) 9; AManager (env 0) 9;
   AManager (env 0) 9; AStarter (env 0); AStarter (env 0)].
