(* ===== verification/TaskPool.v ===== *)
(** * TaskPoolImpl

    The FIFO pool of runtime/pool/taskpool.hpp: the lifecycle of PoolCore.v over the
    linked queue of FifoQueue.v.  The queue meets the interface the lifecycle is
    proved against, so the claims of PoolTheorems.v hold of this pool; the claims here
    say in which order it hands tasks out. *)
From Stdlib Require Import ZArith Lia.
From S2P Require Import Prelude Context IndexedHeap FifoQueue PoolCore PoolControl PoolTasks.
From S2P Require Import PoolTheorems.
Local Open Scope Z_scope.

Module TaskPool.
Import Fifo.

(** The last reference to a task goes away. *)
Definition retire (k : nat) (f : State) : State :=
  mkState (delete k (tasks f)) (head_ f) (tail_ f) (deadlineHeap_ f) (count_ f).

(** A cancellation watch: nothing to do when the weak pointer no longer locks. *)
Definition cancel (t : Z) (k : nat) (f : State) : State * nat :=
  default (f, 0%nat) (requeueToFront t k f).

Definition add (k : nat) (a : TaskArgs) (f : State) : State :=
  enqueue k (new_task (arg_fn a) (arg_deadline a) (arg_sources a)) f.

#[export] Instance fifo_queue : PoolQueue State := {
  pq_empty := empty;
  pq_size := count_;
  pq_add := add;
  pq_cancel := cancel;
  pq_pop := dequeue;
  pq_retire := retire;
  pq_rep q live f := represents q f /\ dom (tasks f) = live;
}.

(** ** Which task objects exist *)
Section Domain.
Implicit Types (s : Store) (f : State).

Lemma dom_core s s' : hs_core s = hs_core s' -> dom s = (dom s' : gset nat).
Proof.
  simpl. intros E. rewrite <- (dom_fmap_L (set_deadlineIndex None) s), E. by rewrite dom_fmap_L.
Qed.

Lemma relink_dom k hd tl s : dom (relink k hd tl s).1 = (dom s : gset nat).
Proof.
  unfold relink. destruct (field next k s); simpl;
    (destruct (field prev k _); simpl; destruct hd; simpl; by rewrite !dom_alter_L).
Qed.

Lemma requeueToFrontLocked_dom k f :
  dom (tasks (requeueToFrontLocked k f).1) = (dom (tasks f) : gset nat).
Proof.
  unfold requeueToFrontLocked. destruct (tasks f !! k); [|done]. destruct (_ || _); [done|].
  pose proof (heap_remove_core k (deadlineHeap_ f) (alter (set_expedited true) k (tasks f))) as E.
  apply dom_core in E. rewrite dom_alter_L in E. unfold deadlineHeapRemoveLocked.
  destruct (heap_remove _ _ _) as [h1 s1]. simpl in E. case_bool_decide; [done|].
  pose proof (relink_dom k (head_ f) (tail_ f) s1) as E2.
  destruct (relink _ _ _ _) as [s2 tl2]. simpl in *. congruence.
Qed.

Lemma promote_loop_dom fuel t f n :
  dom (tasks (promote_loop fuel t f n).1) = (dom (tasks f) : gset nat).
Proof.
  revert f n. induction fuel as [|fuel IH]; intros f n; simpl; [done|].
  destruct (deadlineHeap_ f) as [|k h] eqn:Eh; [done|]. destruct (_ <=? _); [|done].
  unfold deadlineHeapRemoveAtLocked.
  pose proof (heap_remove_at_core 0 (k :: h) (tasks f)) as E. apply dom_core in E.
  destruct (heap_remove_at _ _ _) as [h1 s1]. simpl in E.
  pose proof (requeueToFrontLocked_dom k (mkState s1 (head_ f) (tail_ f) h1 (count_ f))) as E2.
  destruct (requeueToFrontLocked _ _) as [f2 b]. simpl in E2. by rewrite IH, E2.
Qed.

(** The promotion both [requeueToFront] and [executorLoop] start with. *)
Definition promoted (t : Z) (f : State) : State * nat :=
  if bool_decide (deadlineHeap_ f = []) then (f, 0%nat)
  else promoteExpiredDeadlinesLocked t f.

Lemma promoted_eq t f : promoted t f = promoteExpiredDeadlinesLocked t f.
Proof.
  unfold promoted. case_bool_decide as E; [|done].
  unfold promoteExpiredDeadlinesLocked. by rewrite E.
Qed.

Lemma promoted_dom t f : dom (tasks (promoted t f).1) = (dom (tasks f) : gset nat).
Proof. rewrite promoted_eq. apply promote_loop_dom. Qed.

Lemma cancel_dom t k f : dom (tasks (cancel t k f).1) = (dom (tasks f) : gset nat).
Proof.
  unfold cancel, requeueToFront. destruct (tasks f !! k); [|done].
  fold (promoted t f). pose proof (promoted_dom t f) as E. destruct (promoted t f) as [f1 n].
  pose proof (requeueToFrontLocked_dom k f1) as E2.
  destruct (requeueToFrontLocked k f1). simpl in *. congruence.
Qed.

Lemma dequeue_dom t f k n f' :
  dequeue t f = Some (k, n, f') -> dom (tasks f') = (dom (tasks f) : gset nat).
Proof.
  unfold dequeue. fold (promoted t f). pose proof (promoted_dom t f) as E.
  destruct (promoted t f) as [f1 m]. destruct (head_ f1) as [x|]; [|done].
  destruct (match field next x (tasks f1) with
            | Some h => (alter (set_prev None) h (tasks f1), tail_ f1)
            | None => (tasks f1, None) end) as [s2 tl2] eqn:E2.
  assert (E3 : dom s2 = (dom (tasks f1) : gset nat))
    by (destruct (field next x (tasks f1)); simplify_eq; by rewrite ?dom_alter_L).
  unfold deadlineHeapRemoveLocked.
  pose proof (heap_remove_core x (deadlineHeap_ f1)
    (alter (set_inQueue false) x (alter (set_next None) x s2))) as E4.
  apply dom_core in E4. rewrite !dom_alter_L in E4.
  destruct (heap_remove _ _ _) as [h4 s4]. intros; simplify_eq. simpl in *. congruence.
Qed.

Lemma enqueue_dom k t f : dom (tasks (enqueue k t f)) = {[k]} ∪ (dom (tasks f) : gset nat).
Proof.
  unfold enqueue, deadlineHeapPushLocked.
  set (s0 := <[k := t]> (tasks f)).
  assert (E0 : dom s0 = {[k]} ∪ (dom (tasks f) : gset nat)) by apply dom_insert_L.
  assert (E1 : dom (match deadline t with
      | Some _ => heap_push k (deadlineHeap_ f) s0
      | None => (deadlineHeap_ f, s0) end).2 = (dom s0 : gset nat))
    by (destruct (deadline t); [apply dom_core, heap_push_core|done]).
  destruct (match deadline t with Some _ => _ | None => _ end) as [h1 s1]. simpl in E1.
  destruct (tail_ f); simpl; rewrite !dom_alter_L; congruence.
Qed.
End Domain.

(** ** The queue meets the interface of the lifecycle *)

(** A promotion permutes the queue. *)
Lemma promotes_perm es q f f' :
  represents q f -> promotes es q f f' -> (forall x, x ∈ es -> x ∈ q) ->
  reverse es ++ without_all es q ≡ₚ q.
Proof.
  intros Hr Hp Hin. apply NoDup_Permutation.
  - apply (links_nodup _ _ (repr_links _ _ _ (promotes_repr _ _ _ _ Hp))).
  - apply (links_nodup _ _ (repr_links _ _ _ Hr)).
  - intros x. rewrite elem_of_app, elem_of_reverse. unfold without_all.
    rewrite list_elem_of_filter. destruct (decide (x ∈ es)); naive_solver.
Qed.

Lemma promoted_spec t q f :
  represents q f ->
  exists es f', promoted t f = (f', length es) /\ promotes es q f f' /\
    (forall x, x ∈ es <-> expired t q f x) /\ reverse es ++ without_all es q ≡ₚ q.
Proof.
  intros Hr. rewrite promoted_eq.
  destruct (promoteExpired_spec t q f Hr) as (es & f' & He & Hp & Hx).
  exists es, f'. split_and!; try done. eapply promotes_perm; [done..|].
  intros x Hin. by apply Hx in Hin as [? _].
Qed.

Lemma cancel_spec t k q f :
  represents q f -> exists q', represents q' (cancel t k f).1 /\ q' ≡ₚ q.
Proof.
  intros Hr. unfold cancel, requeueToFront. destruct (tasks f !! k); simpl; [|eauto].
  fold (promoted t f). destruct (promoted_spec t q f Hr) as (es & f1 & -> & Hp & _ & Hq).
  set (q1 := reverse es ++ without_all es q) in *.
  destruct (decide (k ∈ q1 /\ exped f1 k = false)) as [[Hk He]|Hn].
  - destruct (requeueToFrontLocked_spec [] q1 f1 k) as (f2 & -> & Hr2 & _);
      [apply Hp|by intros x ?%elem_of_nil|done..|].
    simpl. eexists. split; [done|]. rewrite <- Hq. symmetry. apply without_perm; [|done].
    apply (links_nodup _ _ (repr_links _ _ _ (promotes_repr _ _ _ _ Hp))).
  - rewrite (requeueToFrontLocked_noop q1); [|apply Hp|].
    + simpl. exists q1. split; [apply Hp|done].
    + destruct (decide (k ∈ q1)); [|by left]. right. destruct (exped f1 k); naive_solver.
Qed.

Lemma dequeue_spec t q f :
  represents q f -> q <> [] ->
  exists es k q' f', dequeue t f = Some (k, length es, f') /\ represents q' f' /\
    reverse es ++ without_all es q = k :: q' /\
    StronglySorted (by_deadline f) es /\ (forall x, x ∈ es <-> expired t q f x) /\ q ≡ₚ k :: q'.
Proof.
  intros Hr Hq. destruct (promoted_spec t q f Hr) as (es & f1 & Hpr & Hp & Hx & Hperm).
  rewrite promoted_eq in Hpr.
  destruct (reverse es ++ without_all es q) as [|k q'] eqn:E.
  { by apply Permutation_nil_l in Hperm. }
  pose proof (promotes_repr _ _ _ _ Hp) as Hr1. rewrite E in Hr1.
  destruct (dequeue_head t k q' f f1 (length es) Hpr Hr1) as (f' & Hd & Hr' & _).
  exists es, k, q', f'. split_and!; try done. apply (promotes_sorted _ _ _ _ Hp).
Qed.

Lemma retire_spec k q f : represents q f -> k ∉ q -> represents q (retire k f).
Proof.
  intros [HL HH HA] Hk.
  assert (Hhk : k ∉ deadlineHeap_ f) by (rewrite HA; intros [_ [? _]]; done).
  assert (Hlk : forall x, x <> k -> delete k (tasks f) !! x = tasks f !! x)
    by (intros; by apply lookup_delete_ne).
  split; simpl.
  - destruct HL. split; simpl; try done.
    + eapply lseg_frame; [|done]. intros x Hx. unfold body. rewrite Hlk; [done|congruence].
    + intros x t Hx. apply lookup_delete_Some in Hx as [_ Hx]. eauto.
  - destruct HH as [Hord Hix]. split.
    + intros i x y Hi Hx Hy. simpl.
      assert (x <> k /\ y <> k) as [? ?]
        by (split; intros ->; apply Hhk, list_elem_of_lookup; eauto).
      unfold deadlineEarlier, deadline_key, field. rewrite !Hlk by done.
      apply (Hord i x y Hi Hx Hy).
    + intros x i. simpl. unfold field. destruct (decide (x = k)) as [->|].
      * rewrite lookup_delete_eq. simpl. split; [done|]. intros Hx.
        exfalso. apply Hhk, list_elem_of_lookup. eauto.
      * rewrite Hlk by done. apply (Hix x i).
  - intros x. rewrite HA. unfold armed. destruct (decide (x = k)) as [->|].
    + naive_solver.
    + by rewrite Hlk.
Qed.

#[export] Instance fifo_laws : PoolQueueLaws State.
Proof.
  split; simpl.
  - split; [apply empty_represents|]. by rewrite dom_empty_L.
  - intros q live f [Hr _]. apply (repr_links _ _ _ Hr).
  - intros q live f [Hr _]. apply (repr_links _ _ _ Hr).
  - intros q live f k [Hr <-] Hk. apply elem_of_dom.
    apply (links_elem q f k (repr_links _ _ _ Hr)) in Hk as (t & Ht & _). eauto.
  - intros q live f k a [Hr <-] Hk. exists (q ++ [k]). split; [|solve_Permutation].
    unfold add. rewrite enqueue_dom. split; [|done].
    apply enqueue_spec; [done|]. by apply not_elem_of_dom.
  - intros q live f t k [Hr <-]. destruct (cancel_spec t k q f Hr) as (q' & Hr' & Hq).
    exists q'. by rewrite cancel_dom.
  - intros q live f t [Hr <-] Hq.
    destruct (dequeue_spec t q f Hr Hq) as (es & k & q' & f' & Hd & Hr' & _ & _ & _ & Hp).
    exists k, (length es), f', q'. split; [done|]. by rewrite (dequeue_dom _ _ _ _ _ Hd).
  - intros q live f k [Hr <-] Hk. split; [by apply retire_spec|]. simpl. by rewrite dom_delete_L.
Qed.

(** ** A run of the pool

    Start, two executors, three tasks of which the second has a deadline, the
    deadline passes, the tasks run, [stop] drains and returns. *)
Definition script_tasks : list action :=
  [AAdd (env 1) defaultContext 0 10 100; AAdd (env 1) (with_deadline 5) 0 11 101;
   AAdd (env 1) defaultContext 0 12 102].
Definition script_stop : list action :=
  [AStop; AStopper; AStopper; AStopper] ++
  executor_takes 0 7 ++ executor_takes 1 7 ++ executor_takes 0 7 ++
  [AExecutor (env 7) 0; AExecutor (env 7) 0; AExecutor (env 7) 0;
   AExecutor (env 7) 1; AExecutor (env 7) 1; AExecutor (env 7) 1] ++
  repeat (AManager (env 8) 9) 4 ++ repeat AStopper 5.

Definition started : Pool State := default initial (run script_start initial).
Definition loaded : Pool State := default initial (run (script_start ++ script_tasks) initial).
Definition stopped : Pool State :=
  default initial (run (script_start ++ script_tasks ++ script_stop) initial).

Lemma scripted_reachable l p :
  run l initial = Some p -> reachable (default initial (run (Q := State) l initial)).
Proof. intros Hr. rewrite Hr. by eapply run_reachable. Qed.

Lemma started_reachable : reachable started.
Proof. eapply scripted_reachable. vm_compute. reflexivity. Qed.
Lemma loaded_reachable : reachable loaded.
Proof. eapply scripted_reachable. vm_compute. reflexivity. Qed.
Lemma stopped_reachable : reachable stopped.
Proof. eapply scripted_reachable. vm_compute. reflexivity. Qed.

Lemma stop_drains_witness :
  state_ stopped = kStopped /\ executed stopped = [11; 10; 12]%nat /\
  executed stopped ≡ₚ accepted stopped.
Proof.
  split; [vm_compute; reflexivity|]. split; [vm_compute; reflexivity|].
  apply (stop_drains stopped); [apply stopped_reachable|vm_compute; reflexivity..].
Defined.

Lemma tasks_exactly_once_witness :
  accepted loaded = [10; 11; 12]%nat /\
  exists q live, pq_rep q live (queue_ loaded) /\
    accepted loaded ≡ₚ q ++ inflight (execs loaded) ++ executed loaded /\
    NoDup (q ++ inflight (execs loaded) ++ executed loaded).
Proof.
  split; [vm_compute; reflexivity|]. apply (tasks_exactly_once loaded), loaded_reachable.
Defined.

Lemma no_admission_after_done_witness :
  done_ stopped = true /\ accepted stopped = accepted stopped.
Proof.
  split; [vm_compute; reflexivity|].
  apply (no_admission_after_done stopped stopped (env 0) defaultContext 0 13 103);
    [apply stopped_reachable|vm_compute; reflexivity|apply rtc_refl].
Defined.

Lemma lifecycle_monotone_witness :
  (rank (state_ loaded) < rank (state_ stopped))%nat \/ state_ stopped = state_ loaded.
Proof.
  apply (lifecycle_monotone loaded stopped); [apply loaded_reachable|].
  apply (run_rtc script_stop). vm_compute. reflexivity.
Defined.

Lemma executor_ceiling_witness :
  allocatedExecutors_ loaded = 2 /\ allocatedExecutors_ loaded <= maxTarget loaded.
Proof.
  split; [vm_compute; reflexivity|]. apply (executor_ceiling loaded), loaded_reachable.
Defined.

Lemma start_reports_witness : startupResult_ started = rReady.
Proof.
  apply (start_reports started); [apply started_reachable|vm_compute; reflexivity].
Defined.

(** ** Single operations *)

Lemma lookup_alter_keeps {A} (proj : PoolTask -> A) g x (s : Store) k :
  keeps proj g -> proj <$> alter g x s !! k = proj <$> s !! k.
Proof.
  intros Hk. destruct (decide (x = k)) as [->|]; [|by rewrite lookup_alter_ne].
  rewrite lookup_alter_eq. destruct (s !! k); simpl; [by rewrite Hk|done].
Qed.

Lemma lookup_core_keeps {A} (proj : PoolTask -> A) (s s' : Store) k :
  (forall i, keeps proj (set_deadlineIndex i)) -> hs_core s = hs_core s' ->
  proj <$> s !! k = proj <$> s' !! k.
Proof.
  intros Hk Hc. pose proof (core_body s s' Hc k) as E. unfold body in E.
  destruct (s !! k) as [t|], (s' !! k) as [t'|]; try done. simpl in *.
  apply (inj Some) in E. f_equal. by rewrite <- (Hk None t), <- (Hk None t'), E.
Qed.

Lemma enqueue_keeps {A} (proj : PoolTask -> A) k t f :
  (forall i, keeps proj (set_deadlineIndex i)) -> (forall n, keeps proj (set_next n)) ->
  (forall n, keeps proj (set_prev n)) -> (forall b, keeps proj (set_inQueue b)) ->
  proj <$> tasks (enqueue k t f) !! k = Some (proj t).
Proof.
  intros K1 K2 K3 K4. unfold enqueue, deadlineHeapPushLocked.
  set (s0 := <[k := t]> (tasks f)).
  assert (E1 : hs_core (match deadline t with
      | Some _ => heap_push k (deadlineHeap_ f) s0
      | None => (deadlineHeap_ f, s0) end).2 = hs_core s0)
    by (destruct (deadline t); [apply heap_push_core|done]).
  destruct (match deadline t with Some _ => _ | None => _ end) as [h1 s1]. simpl in E1.
  assert (E2 : proj <$> s1 !! k = Some (proj t))
    by (rewrite (lookup_core_keeps proj s1 s0 k K1 E1); unfold s0; by rewrite lookup_insert_eq).
  destruct (tail_ f); simpl; by rewrite !lookup_alter_keeps.
Qed.

Lemma enqueue_count k t f : count_ (enqueue k t f) = count_ f + 1.
Proof. unfold enqueue. by repeat destruct (match _ with Some _ => _ | None => _ end). Qed.

(** The first watch of a queued task that was not promoted yet. *)
Lemma cancel_front t k q f :
  represents q f -> k ∈ q -> exped f k = false -> ~ expired t q f k ->
  exists q', represents (k :: q') (cancel t k f).1 /\ k :: q' ≡ₚ q /\
    exped (cancel t k f).1 k = true.
Proof.
  intros Hr Hk Hne Hnx.
  destruct (links_elem q f k (repr_links _ _ _ Hr)) as [Hl _].
  destruct (Hl Hk) as (t0 & Ht0 & _). unfold cancel, requeueToFront. rewrite Ht0.
  fold (promoted t f). destruct (promoted_spec t q f Hr) as (es & f1 & -> & Hp & Hx & Hq).
  set (q1 := reverse es ++ without_all es q) in *.
  assert (Hk1 : k ∈ q1) by by rewrite Hq.
  assert (He1 : exped f1 k = false).
  { rewrite (promotes_exped _ _ _ _ Hp), Hne, orb_false_r.
    apply bool_decide_eq_false_2. by rewrite Hx. }
  destruct (requeueToFrontLocked_spec [] q1 f1 k) as (f2 & -> & Hr2 & _ & He2);
    [apply Hp|by intros x ?%elem_of_nil|done..|].
  simpl. exists (without k q1). split_and!; [done| |].
  - rewrite <- Hq. symmetry. apply without_perm; [|done].
    apply (links_nodup _ _ (repr_links _ _ _ (promotes_repr _ _ _ _ Hp))).
  - rewrite He2. by rewrite bool_decide_eq_true_2.
Qed.

(** A watch of a promoted task, with no deadline passed. *)
Lemma cancel_again t k q f :
  represents q f -> exped f k = true -> (forall x, ~ expired t q f x) ->
  cancel t k f = (f, 0%nat).
Proof.
  intros Hr He Hx. unfold cancel, requeueToFront. destruct (tasks f !! k); [|done].
  fold (promoted t f).
  assert (Hp : promoted t f = (f, 0%nat)).
  { rewrite promoted_eq. unfold promoteExpiredDeadlinesLocked.
    destruct (deadlineHeap_ f) as [|x h] eqn:Eh; simpl; [done|]. rewrite Eh.
    destruct (_ <=? _) eqn:E; [|done]. exfalso. apply (Hx x), (expired_heap _ _ _ _ Hr).
    rewrite Eh. bool_to_prop. split; [left|done]. }
  rewrite Hp, (requeueToFrontLocked_noop q); [done|apply Hr|by right].
Qed.

(** ** Claims: the order of the queue *)

(** C5. What an executor takes: the queued tasks whose deadline has passed and that
    were not promoted before are moved to the front in the order of their deadlines,
    so the latest of them ends up first; then the head of the resulting sequence is
    taken and the rest stays queued in order.  With nothing expired this is FIFO. *)
Theorem dequeue_order t q f :
  represents q f -> q <> [] ->
  exists es k q' f', dequeue t f = Some (k, length es, f') /\ represents q' f' /\
    (forall x, x ∈ es <-> expired t q f x) /\ StronglySorted (by_deadline f) es /\
    k :: q' = reverse es ++ without_all es q /\ (es = [] -> q = k :: q').
Proof.
  intros Hr Hq.
  destruct (dequeue_spec t q f Hr Hq) as (es & k & q' & f' & Hd & Hr' & He & Hs & Hx & _).
  exists es, k, q', f'. split_and!; try done. intros ->.
  rewrite <- He. simpl. by rewrite without_all_nil.
Qed.

(** A task is promoted at most once: a cancellation watch of a queued task that
    was not promoted puts it in front of every other task (those whose deadline has
    passed included) and marks it; from then on every further watch of it leaves the
    whole queue as it is, unless some other deadline has passed. *)
Theorem cancel_promotes_once t k q f :
  represents q f -> k ∈ q -> exped f k = false -> ~ expired t q f k ->
  exists q', represents (k :: q') (cancel t k f).1 /\ k :: q' ≡ₚ q /\
    exped (cancel t k f).1 k = true /\
    forall t', (forall x, ~ expired t' (k :: q') (cancel t k f).1 x) ->
      cancel t' k (cancel t k f).1 = ((cancel t k f).1, 0%nat).
Proof.
  intros Hr Hk Hne Hnx.
  destruct (cancel_front t k q f Hr Hk Hne Hnx) as (q' & Hr' & Hq & He).
  exists q'. split_and!; try done. intros t' Hx. by eapply cancel_again.
Qed.

(** [addTask] appends: an admitted task goes behind every queued task, its
    deadline is recorded, and nothing else changes its place. *)
Theorem add_appends k a q f :
  represents q f -> tasks f !! k = None ->
  represents (q ++ [k]) (add k a f) /\ count_ (add k a f) = count_ f + 1 /\
  exped (add k a f) k = false /\ field deadline k (tasks (add k a f)) = arg_deadline a.
Proof.
  intros Hr Hk. unfold add. split; [by apply enqueue_spec|].
  split; [apply enqueue_count|].
  set (t := new_task (arg_fn a) (arg_deadline a) (arg_sources a)).
  pose proof (enqueue_keeps expedited k t f) as E1. pose proof (enqueue_keeps deadline k t f) as E2.
  unfold exped, field. destruct (tasks (enqueue k t f) !! k); simpl in *.
  - by rewrite (inj Some _ _ (E1 ltac:(done) ltac:(done) ltac:(done) ltac:(done))),
      (inj Some _ _ (E2 ltac:(done) ltac:(done) ltac:(done) ltac:(done))).
  - by discriminate E1.
Qed.

(** ** A queue with three tasks, the second with a deadline *)
Definition plain (f : nat) : TaskArgs := mkTaskArgs f None [] 0.
Definition due (f : nat) (d : Z) : TaskArgs := mkTaskArgs f (Some d) [] 0.
Definition three : State := add 12 (plain 102) (add 11 (due 101 5) (add 10 (plain 100) empty)).

Lemma three_represents : represents [10; 11; 12]%nat three.
Proof.
  apply (enqueue_spec [10; 11]%nat); [|vm_compute; reflexivity].
  apply (enqueue_spec [10]%nat); [|vm_compute; reflexivity].
  apply (enqueue_spec []); [apply empty_represents|vm_compute; reflexivity].
Qed.

Lemma dequeue_order_witness :
  (exists f', dequeue 7 three = Some (11, 1, f')%nat) /\
  exists es k q' f', dequeue 7 three = Some (k, length es, f') /\ represents q' f' /\
    (forall x, x ∈ es <-> expired 7 [10; 11; 12]%nat three x) /\
    StronglySorted (by_deadline three) es /\
    k :: q' = reverse es ++ without_all es [10; 11; 12]%nat /\
    (es = [] -> [10; 11; 12]%nat = k :: q').
Proof.
  split; [eexists; vm_compute; reflexivity|].
  apply (dequeue_order 7 [10; 11; 12]%nat three); [apply three_represents|done].
Defined.

Lemma cancel_promotes_once_witness :
  exists q', represents (12 :: q')%nat (cancel 1 12 three).1.
Proof.
  destruct (cancel_promotes_once 1 12 [10; 11; 12]%nat three) as (q' & Hr & _).
  - apply three_represents.
  - by do 2 right; left.
  - vm_compute. reflexivity.
  - intros (_ & _ & d & Hd & _). vm_compute in Hd. discriminate.
  - exists q'. exact Hr.
Defined.

Lemma add_appends_witness :
  represents [10; 11; 12; 13]%nat (add 13 (due 103 9) three) /\
  count_ (add 13 (due 103 9) three) = 4.
Proof.
  destruct (add_appends 13 (due 103 9) [10; 11; 12]%nat three) as (Hr & Hc & _).
  - apply three_represents.
  - vm_compute. reflexivity.
  - split; [exact Hr|]. rewrite Hc. vm_compute. reflexivity.
Defined.

(** ** The startup handshake and a draining pool

    [stop] waits for [fieldsPublished_] only when it leaves [kStarting].  The manager
    can move [kStarting] to [kDraining] (its context ended after it resolved the
    startup) before [start] has assigned [managerTask_]; a [stop] that leaves
    [kDraining] then goes on while [start] still writes the field. *)
Definition script_overtake : list action :=
  [AStart (with_deadline 5); AStarter (env 0); AStarter (env 0)] ++
  [AManager (env 0) 9; AManager (env 0) 9; AManager (env 0) 9;
   AManager (env 0) 9; AManager (env 0) 0; AManager (env 0) 9; AManager (env 0) 1;
   AManager (env 0) 9; AManager (env 0) 9; AManager (env 0) 9; AManager (env 0) 9;
   AManager (env 0) 9; AManager (env 6) 9; AManager (env 6) 9; AManager (env 6) 9] ++
  [AStop; AStopper].
Definition overtaken : Pool State := default initial (run script_overtake initial).

(** A reachable state in which a [stop] that left [kDraining] has passed the
    handshake and read [managerTask_] as absent, while [start] has spawned the manager
    and is about to assign the field. *)
Theorem stop_overtakes_start :
  reachable overtaken /\ starter overtaken = SAssign /\ managerTask_ overtaken = false /\
  fieldsPublished_ overtaken = false /\ stopper overtaken = TTake.
Proof.
  split; [eapply scripted_reachable; vm_compute; reflexivity|].
  split_and!; vm_compute; reflexivity.
Qed.
End TaskPool.
