(* ===== verification/PrioQueue.v ===== *)
(** * The run queue of PriorityTaskPoolImpl

    runtime/pool/prioritytaskpool.hpp keeps the waiting tasks in two intrusive binary
    heaps over the same task objects: [heap_], ordered by [comesBefore] (priority, then
    arrival), and [deadlineHeap_], ordered by deadline.  Both are instances of
    IndexedHeap.v over the store of task objects; [heapSiftUp], [heapSiftDown] and
    [heapPop], which the source writes differently from their deadline twins, are
    translated as they are and proved equal to the generic operations. *)
From Stdlib Require Import ZArith Lia.
From S2P Require Import Prelude Context IndexedHeap.
Local Open Scope Z_scope.

Module Prio.

(** An [int] argument, and [std::uint64_t] arithmetic. *)
Definition wrap32 (z : Z) : Z := (z + 2 ^ 31) mod 2 ^ 32 - 2 ^ 31.
Definition wrap64 (z : Z) : Z := z mod 2 ^ 64.

Record PriorityPoolTask := mkTask {
  fn : option nat;
  priority : Z;
  sequence : Z;
  priorityIndex : option nat;
  expedited : bool;
  deadline : Deadline;
  deadlineIndex : option nat;
  subscriptions : list nat;
}.

Definition set_priority v t :=
  mkTask (fn t) v (sequence t) (priorityIndex t) (expedited t) (deadline t)
    (deadlineIndex t) (subscriptions t).
Definition set_priorityIndex v t :=
  mkTask (fn t) (priority t) (sequence t) v (expedited t) (deadline t)
    (deadlineIndex t) (subscriptions t).
Definition set_expedited v t :=
  mkTask (fn t) (priority t) (sequence t) (priorityIndex t) v (deadline t)
    (deadlineIndex t) (subscriptions t).
Definition set_deadlineIndex v t :=
  mkTask (fn t) (priority t) (sequence t) (priorityIndex t) (expedited t) (deadline t)
    v (subscriptions t).

Abbreviation Store := (gmap nat PriorityPoolTask).

Definition read {A} (d : A) (proj : PriorityPoolTask -> A) (k : nat) (s : Store) : A :=
  match s !! k with Some t => proj t | None => d end.

(** [comesBefore]. *)
Definition comesBefore (s : Store) (lhs rhs : nat) : bool :=
  let pl := read 0 priority lhs s in
  let pr := read 0 priority rhs s in
  if negb (pl =? pr) then pl <? pr
  else read 0 sequence lhs s <? read 0 sequence rhs s.

Definition deadline_key (s : Store) (k : nat) : Z := default 0 (read None deadline k s).

(** [deadlineEarlier]. *)
Definition deadlineEarlier (s : Store) (lhs rhs : nat) : bool :=
  deadline_key s lhs <? deadline_key s rhs.

Definition priority_heap : HeapStore Store nat Store := {|
  hs_less := comesBefore;
  hs_index s k := read None priorityIndex k s;
  hs_set_index k i := alter (set_priorityIndex i) k;
  hs_live s k := is_Some (s !! k);
  hs_core s := set_priorityIndex None <$> s;
|}.

Definition deadline_heap : HeapStore Store nat Store := {|
  hs_less := deadlineEarlier;
  hs_index s k := read None deadlineIndex k s;
  hs_set_index k i := alter (set_deadlineIndex i) k;
  hs_live s k := is_Some (s !! k);
  hs_core s := set_deadlineIndex None <$> s;
|}.

Record State := mkState {
  tasks : Store;
  heap_ : list nat;
  deadlineHeap_ : list nat;
  nextSequence_ : Z;
}.

Definition empty : State := mkState ∅ [] [] 0.

(** ** The priority heap *)

Definition heapSwap (i j : nat) (h : list nat) (s : Store) : list nat * Store :=
  heap_swap (H := priority_heap) i j h s.

Fixpoint heapSiftUp_loop (fuel i : nat) (h : list nat) (s : Store) : list nat * Store :=
  match fuel with
  | O => (h, s)
  | S fuel =>
      if (0 <? i)%nat then
        match h !! i, h !! parent i with
        | Some x, Some p =>
            if negb (comesBefore s x p) then (h, s)
            else let '(h', s') := heapSwap (parent i) i h s in
                 heapSiftUp_loop fuel (parent i) h' s'
        | _, _ => (h, s)
        end
      else (h, s)
  end.

Definition heapSiftUp (i : nat) (h : list nat) (s : Store) : list nat * Store :=
  heapSiftUp_loop i i h s.

Fixpoint heapSiftDown_loop (fuel i : nat) (h : list nat) (s : Store) : list nat * Store :=
  match fuel with
  | O => (h, s)
  | S fuel =>
      if (i <? length h / 2)%nat then
        let left := (2 * i + 1)%nat in
        let right := (left + 1)%nat in
        let best :=
          match h !! right, h !! left with
          | Some r, Some l => if comesBefore s r l then right else left
          | _, _ => left
          end in
        match h !! best, h !! i with
        | Some b, Some x =>
            if negb (comesBefore s b x) then (h, s)
            else let '(h', s') := heapSwap i best h s in heapSiftDown_loop fuel best h' s'
        | _, _ => (h, s)
        end
      else (h, s)
  end.

Definition heapSiftDown (i : nat) (h : list nat) (s : Store) : list nat * Store :=
  heapSiftDown_loop (length h) i h s.

Definition heapPush (k : nat) (h : list nat) (s : Store) : list nat * Store :=
  let i := length h in
  heapSiftUp i (h ++ [k]) (alter (set_priorityIndex (Some i)) k s).

Definition heapPop (h : list nat) (s : Store) : option (nat * list nat * Store) :=
  match head h, last h with
  | Some top, Some bottom =>
      let h1 := take (length h - 1) h in
      let s1 := alter (set_priorityIndex None) top s in
      if bool_decide (h1 = []) then Some (top, h1, s1)
      else let '(h2, s2) :=
             heapSiftDown 0 (<[0%nat := bottom]> h1)
               (alter (set_priorityIndex (Some 0%nat)) bottom s1) in
           Some (top, h2, s2)
  | _, _ => None
  end.

(** ** The deadline heap *)
Definition deadlineHeapPushLocked (k : nat) (h : list nat) (s : Store) : list nat * Store :=
  heap_push (H := deadline_heap) k h s.
Definition deadlineHeapRemoveAtLocked (i : nat) (h : list nat) (s : Store) : list nat * Store :=
  heap_remove_at (H := deadline_heap) i h s.
Definition deadlineHeapRemoveLocked (k : nat) (h : list nat) (s : Store) : list nat * Store :=
  heap_remove (H := deadline_heap) k h s.

(** ** The operations of the pool *)

(** The part of [addTask] that runs once the task is admitted. *)
Definition enqueue (k f : nat) (prio : Z) (d : Deadline) (subs : list nat) (st : State) : State :=
  let t := mkTask (Some f) (wrap32 prio) (nextSequence_ st) None false d None subs in
  let s0 := <[k := t]> (tasks st) in
  let '(dh, s1) :=
    match d with
    | Some _ => deadlineHeapPushLocked k (deadlineHeap_ st) s0
    | None => (deadlineHeap_ st, s0)
    end in
  let '(h, s2) := heapPush k (heap_ st) s1 in
  mkState s2 h dh (wrap64 (nextSequence_ st + 1)).

(** [expediteLocked]: [true] only for the first promotion of a queued task. *)
Definition expediteLocked (k : nat) (st : State) : State * bool :=
  match tasks st !! k with
  | None => (st, false)
  | Some t =>
      match priorityIndex t with
      | None => (st, false)
      | Some i =>
          if expedited t then (st, false)
          else
            let s0 := alter (set_expedited true) k (tasks st) in
            let '(dh, s1) := deadlineHeapRemoveLocked k (deadlineHeap_ st) s0 in
            let '(h, s2) := heapSiftUp i (heap_ st) (alter (set_priority int32_min) k s1) in
            (mkState s2 h dh (nextSequence_ st), true)
      end
  end.

Fixpoint promote_loop (fuel : nat) (now : Z) (st : State) (promoted : nat) : State * nat :=
  match fuel with
  | O => (st, promoted)
  | S fuel =>
      match deadlineHeap_ st with
      | [] => (st, promoted)
      | k :: _ =>
          if deadline_key (tasks st) k <=? now
          then let '(dh, s1) := deadlineHeapRemoveAtLocked 0 (deadlineHeap_ st) (tasks st) in
               let '(st2, b) := expediteLocked k (mkState s1 (heap_ st) dh (nextSequence_ st)) in
               promote_loop fuel now st2 (if b then S promoted else promoted)
          else (st, promoted)
      end
  end.

Definition promoteExpiredDeadlinesLocked (now : Z) (st : State) : State * nat :=
  promote_loop (length (deadlineHeap_ st)) now st 0.

(** [expedite], the body of a cancellation watch. *)
Definition expedite (now : Z) (k : nat) (st : State) : option (State * nat) :=
  match tasks st !! k with
  | None => None
  | Some _ =>
      let '(st1, deadlinePromotions) :=
        if bool_decide (deadlineHeap_ st = []) then (st, 0%nat)
        else promoteExpiredDeadlinesLocked now st in
      let '(st2, cancellationPromoted) := expediteLocked k st1 in
      Some (st2, (deadlinePromotions + if cancellationPromoted then 1 else 0)%nat)
  end.

(** The dequeue of [executorLoop]. *)
Definition dequeue (now : Z) (st : State) : option (nat * nat * State) :=
  let '(st1, deadlinePromotions) :=
    if bool_decide (deadlineHeap_ st = []) then (st, 0%nat)
    else promoteExpiredDeadlinesLocked now st in
  match heapPop (heap_ st1) (tasks st1) with
  | None => None
  | Some (k, h, s2) =>
      let '(dh, s3) := deadlineHeapRemoveLocked k (deadlineHeap_ st1) s2 in
      Some (k, deadlinePromotions, mkState s3 h dh (nextSequence_ st1))
  end.

(** ** Laws of the two heaps' stores *)

Lemma comesBefore_true s a b :
  comesBefore s a b = true <->
  read 0 priority a s < read 0 priority b s \/
  read 0 priority a s = read 0 priority b s /\ read 0 sequence a s < read 0 sequence b s.
Proof.
  unfold comesBefore. destruct (_ =? _) eqn:E; simpl; rewrite Z.ltb_lt; bool_to_prop; lia.
Qed.

Lemma comesBefore_false s a b :
  comesBefore s a b = false <->
  read 0 priority b s < read 0 priority a s \/
  read 0 priority a s = read 0 priority b s /\ read 0 sequence b s <= read 0 sequence a s.
Proof.
  unfold comesBefore. destruct (_ =? _) eqn:E; simpl; rewrite Z.ltb_ge; bool_to_prop; lia.
Qed.

(** Writes of a field that [proj] does not read. *)
Lemma read_alter {A} (d : A) proj g x k (s : Store) :
  (forall t, proj (g t) = proj t) -> read d proj k (alter g x s) = read d proj k s.
Proof.
  intros Hk. unfold read. destruct (decide (x = k)) as [->|]; [|by rewrite lookup_alter_ne].
  rewrite lookup_alter_eq. destruct (s !! k); simpl; [apply Hk|done].
Qed.

Lemma read_alter_eq {A} (d : A) proj g k t (s : Store) :
  s !! k = Some t -> read d proj k (alter g k s) = proj (g t).
Proof. intros Ht. unfold read. by rewrite lookup_alter_eq, Ht. Qed.

Lemma read_core {A} (d : A) proj (g : PriorityPoolTask -> PriorityPoolTask) k (s s' : Store) :
  (forall t, proj (g t) = proj t) -> g <$> s = g <$> s' -> read d proj k s = read d proj k s'.
Proof.
  intros Hk E. apply (f_equal (lookup k)) in E. rewrite !lookup_fmap in E. unfold read.
  destruct (s !! k) as [t|], (s' !! k) as [t'|]; try done. simpl in E.
  apply (inj Some) in E. by rewrite <- (Hk t), <- (Hk t'), E.
Qed.

Ltac store_laws :=
  split; simpl;
  [ intros s k i [t Ht]; unfold read; by rewrite lookup_alter_eq, Ht
  | intros s k k' i Hne; unfold read; by rewrite lookup_alter_ne
  | intros s k k' i; by rewrite lookup_alter_is_Some
  | intros s s' k Heq [t Ht]; apply (f_equal (lookup k)) in Heq; rewrite !lookup_fmap, Ht in Heq;
    destruct (s' !! k); [by eexists|done]
  | intros s k i; unfold read; destruct (s !! k); [by eexists|done]
  | intros s k i; apply map_eq; intros j; rewrite !lookup_fmap;
    destruct (decide (k = j)) as [->|]; [|by rewrite lookup_alter_ne];
    rewrite lookup_alter_eq; by destruct (s !! j)
  | .. ].

Lemma priority_laws : @HeapStoreLaws Store nat Store _ priority_heap.
Proof.
  store_laws.
  - intros s s' a b E. unfold comesBefore.
    by rewrite !(fun k => read_core 0 priority (set_priorityIndex None) k s s' (fun _ => eq_refl) E),
      !(fun k => read_core 0 sequence (set_priorityIndex None) k s s' (fun _ => eq_refl) E).
  - intros s a. rewrite comesBefore_false. lia.
  - intros s a b c. rewrite !comesBefore_false. lia.
  - intros s a b. rewrite comesBefore_false, comesBefore_true. lia.
Qed.

Lemma deadline_laws : @HeapStoreLaws Store nat Store _ deadline_heap.
Proof.
  store_laws.
  - intros s s' a b E. unfold deadlineEarlier, deadline_key.
    by rewrite !(fun k => read_core None deadline (set_deadlineIndex None) k s s' (fun _ => eq_refl) E).
  - intros s a. unfold deadlineEarlier. apply Z.ltb_irrefl.
  - intros s a b c. unfold deadlineEarlier. rewrite !Z.ltb_ge. lia.
  - intros s a b. unfold deadlineEarlier. rewrite Z.ltb_ge, Z.ltb_lt. lia.
Qed.

(** ** The priority heap's own code is the generic heap *)

Lemma set_priorityIndex_comm i j a b (s : Store) :
  a <> b ->
  alter (set_priorityIndex i) a (alter (set_priorityIndex j) b s) =
  alter (set_priorityIndex j) b (alter (set_priorityIndex i) a s).
Proof.
  intros Hab. apply map_eq. intros k. destruct (decide (a = k)) as [->|].
  - rewrite lookup_alter_eq, !(lookup_alter_ne _ _ b k), lookup_alter_eq by done. done.
  - rewrite lookup_alter_ne by done. destruct (decide (b = k)) as [->|].
    + by rewrite !lookup_alter_eq, lookup_alter_ne.
    + by rewrite !lookup_alter_ne.
Qed.

Lemma set_priorityIndex_twice i j a (s : Store) :
  alter (set_priorityIndex i) a (alter (set_priorityIndex j) a s) =
  alter (set_priorityIndex i) a s.
Proof.
  apply map_eq. intros k. destruct (decide (a = k)) as [->|].
  - rewrite !lookup_alter_eq. by destruct (s !! k).
  - by rewrite !lookup_alter_ne.
Qed.

Abbreviation ordered := (@heap_inv Store nat Store priority_heap).
Abbreviation deadlined := (@heap_inv Store nat Store deadline_heap).

Lemma heapSwap_sym i j h s :
  @indexed _ _ _ priority_heap h s -> i <> j -> heapSwap i j h s = heapSwap j i h s.
Proof.
  intros Hix Hij. unfold heapSwap, heap_swap.
  destruct (h !! i) as [a|] eqn:Hi, (h !! j) as [b|] eqn:Hj; try done. simpl.
  rewrite list_insert_insert_ne by done. f_equal. apply set_priorityIndex_comm.
  intros ->. apply Hij. apply Hix in Hi. apply Hix in Hj. simpl in *. congruence.
Qed.

Lemma heapSiftUp_loop_eq fuel i h s :
  @indexed _ _ _ priority_heap h s ->
  heapSiftUp_loop fuel i h s = sift_up_loop (H := priority_heap) fuel i h s.
Proof.
  revert i h s. induction fuel as [|fuel IH]; intros i h s Hix; simpl; [done|].
  destruct (Nat.eqb_spec i 0) as [->|Hi]; [done|].
  assert ((0 <? i)%nat = true) as -> by (apply Nat.ltb_lt; lia).
  destruct (h !! i), (h !! parent i); try done. destruct (negb _); [done|].
  pose proof (parent_lt i ltac:(lia)). rewrite heapSwap_sym by (done || lia).
  pose proof (heap_swap_indexed (HL := priority_laws) i (parent i) h s ltac:(lia) Hix) as Hix'.
  unfold heapSwap in *. destruct (heap_swap _ _ _ _). by apply IH.
Qed.

Lemma half_guard i n : (i <? n / 2)%nat = negb (n <=? i * 2 + 1)%nat.
Proof.
  pose proof (Nat.div_mod_eq n 2). pose proof (Nat.mod_upper_bound n 2 ltac:(lia)).
  destruct (Nat.ltb_spec i (n / 2)), (Nat.leb_spec n (i * 2 + 1)); simpl; try done; lia.
Qed.

Lemma heapSiftDown_loop_eq fuel i h s :
  heapSiftDown_loop fuel i h s = sift_down_loop (H := priority_heap) fuel i h s.
Proof.
  revert i h s. induction fuel as [|fuel IH]; intros i h s; [done|].
  cbn [heapSiftDown_loop sift_down_loop]. rewrite half_guard.
  destruct (_ <=? _)%nat; [done|]. simpl negb. cbv iota.
  unfold smallest_child. rewrite (Nat.mul_comm i 2). simpl hs_less.
  set (best := match h !! (2 * i + 1 + 1)%nat with Some _ => _ | None => _ end).
  destruct (h !! best), (h !! i); try done. destruct (negb _); [done|].
  unfold heapSwap. destruct (heap_swap _ _ _ _). apply IH.
Qed.

Lemma heapPush_eq k h s :
  ordered h s -> is_Some (s !! k) -> read None priorityIndex k s = None ->
  heapPush k h s = heap_push (H := priority_heap) k h s.
Proof.
  intros [_ Hix] Hl Hn. unfold heapPush, heapSiftUp, heap_push, sift_up.
  apply heapSiftUp_loop_eq. by apply (push_indexed (HL := priority_laws)).
Qed.

Lemma heapPop_eq top h s :
  ordered h s -> head h = Some top ->
  heapPop h s = Some (top, (heap_remove_at (H := priority_heap) 0 h s).1,
                      (heap_remove_at (H := priority_heap) 0 h s).2).
Proof.
  intros [_ Hix] Hh. destruct h as [|x h]; simplify_eq/=.
  unfold heapPop, heap_remove_at, heapSiftDown, sift_down. simpl head. simpl lookup.
  destruct h as [|y h] using rev_ind; [done|clear IHh].
  assert (Hne : top <> y).
  { intros ->. assert (H0 : (y :: h ++ [y]) !! 0%nat = Some y) by done.
    assert (H1 : (y :: h ++ [y]) !! S (length h) = Some y)
      by (simpl; by rewrite lookup_app_r, Nat.sub_diag by lia).
    apply Hix in H0. apply Hix in H1. congruence. }
  assert (Hlen : (length (top :: h ++ [y]) - 1 = S (length h))%nat)
    by (simpl; rewrite length_app; simpl; lia).
  assert (Htake : forall a b, take (S (length h)) (a :: h ++ [b]) = a :: h)
    by (intros; simpl; by rewrite take_app_length).
  assert (Hswap : heap_swap (H := priority_heap) 0 (S (length h)) (top :: h ++ [y]) s =
    (y :: h ++ [top], alter (set_priorityIndex (Some (S (length h)))) top
                        (alter (set_priorityIndex (Some 0%nat)) y s))).
  { unfold heap_swap. simpl. rewrite lookup_app_r, Nat.sub_diag by lia. simpl.
    by rewrite insert_app_r_alt, Nat.sub_diag by lia. }
  rewrite Hlen, Htake, last_cons, last_snoc. simpl (0 =? S _)%nat. cbv iota beta.
  rewrite Hswap. cbv iota beta.
  replace (length (y :: h ++ [top]) - 1)%nat with (S (length h))
    by (simpl; rewrite length_app; simpl; lia).
  rewrite Htake. simpl negb. cbn [andb hs_set_index priority_heap].
  rewrite set_priorityIndex_twice, (set_priorityIndex_comm None _ top y) by done.
  rewrite bool_decide_eq_false_2 by done. simpl insert. simpl length. cbn [lookup list_lookup].
  change (head (top :: h ++ [y])) with (Some top). change (parent 0) with 0%nat.
  change (S (length h) <=? 0)%nat with false. cbv iota beta. change ((y :: h) !! 0%nat) with (Some y).
  rewrite heapSiftDown_loop_eq. by destruct (sift_down_loop _ _ _ _).
Qed.

(** ** Invariant *)

(** A task without its two heap positions. *)
Definition data (t : PriorityPoolTask) : PriorityPoolTask :=
  set_deadlineIndex None (set_priorityIndex None t).
Definition same_data (s s' : Store) : Prop := data <$> s = data <$> s'.

Definition exped (s : Store) (k : nat) : bool := read false expedited k s.
Definition armed (h : list nat) (s : Store) (k : nat) : Prop :=
  k ∈ h /\ exped s k = false /\ is_Some (read None deadline k s).

Record repr (out : list nat) (st : State) : Prop := {
  rp_prio : ordered (heap_ st) (tasks st);
  rp_dead : deadlined (deadlineHeap_ st) (tasks st);
  rp_armed : forall k, k ∈ deadlineHeap_ st <-> (k ∉ out) /\ armed (heap_ st) (tasks st) k;
  rp_range : forall k t, tasks st !! k = Some t -> int32_min <= priority t;
  rp_front : forall k t, tasks st !! k = Some t -> expedited t = true -> priority t = int32_min;
}.

Lemma same_data_sym s s' : same_data s s' -> same_data s' s.
Proof. done. Qed.
Lemma same_data_trans s1 s2 s3 : same_data s1 s2 -> same_data s2 s3 -> same_data s1 s3.
Proof. unfold same_data. congruence. Qed.

Lemma data_read {A} (d : A) proj k s s' :
  (forall t, proj (data t) = proj t) -> same_data s s' -> read d proj k s = read d proj k s'.
Proof. intros Hk E. by apply (read_core d proj data). Qed.

Lemma core_data g s s' :
  (forall t, data (g t) = data t) -> g <$> s = g <$> s' -> same_data s s'.
Proof.
  intros Hg E. unfold same_data. apply map_eq. intros k.
  apply (f_equal (lookup k)) in E. rewrite !lookup_fmap in *.
  destruct (s !! k) as [t|], (s' !! k) as [t'|]; try done. simpl in *.
  apply (inj Some) in E. f_equal. by rewrite <- (Hg t), <- (Hg t'), E.
Qed.

Lemma same_data_dom s s' : same_data s s' -> dom s = (dom s' : gset nat).
Proof. unfold same_data. intros E. by rewrite <- (dom_fmap_L data s), E, dom_fmap_L. Qed.

Lemma same_data_lookup s s' k t :
  same_data s s' -> s !! k = Some t -> exists t', s' !! k = Some t' /\ data t' = data t.
Proof.
  unfold same_data. intros E Ht. apply (f_equal (lookup k)) in E. rewrite !lookup_fmap, Ht in E.
  destruct (s' !! k) as [t'|]; [|done]. apply (inj Some) in E. eauto.
Qed.

Lemma ordered_frame h s s' :
  (forall k, k ∈ h -> read 0 priority k s' = read 0 priority k s) ->
  (forall k, k ∈ h -> read 0 sequence k s' = read 0 sequence k s) ->
  (forall k, read None priorityIndex k s' = read None priorityIndex k s) ->
  ordered h s -> ordered h s'.
Proof.
  intros E1 E2 E3. apply (heap_inv_ext (HS := priority_heap)); simpl; [|done].
  intros a b Ha Hb. unfold comesBefore. by rewrite !E1, !E2.
Qed.

Lemma deadlined_frame h s s' :
  (forall k, k ∈ h -> read None deadline k s' = read None deadline k s) ->
  (forall k, read None deadlineIndex k s' = read None deadlineIndex k s) ->
  deadlined h s -> deadlined h s'.
Proof.
  intros E1 E2. apply (heap_inv_ext (HS := deadline_heap)); simpl; [|done].
  intros a b Ha Hb. unfold deadlineEarlier, deadline_key. by rewrite !E1.
Qed.

(** What an operation of one heap leaves of the other. *)
Lemma deadline_op_frame h s s' :
  set_deadlineIndex None <$> s' = set_deadlineIndex None <$> s ->
  ordered h s -> ordered h s' /\ same_data s' s.
Proof.
  intros E Ho. split; [|by eapply core_data; [|exact E]].
  eapply ordered_frame; [..|exact Ho]; intros k *; intros; by eapply read_core; [|exact E].
Qed.

Lemma priority_op_frame h s s' :
  set_priorityIndex None <$> s' = set_priorityIndex None <$> s ->
  deadlined h s -> deadlined h s' /\ same_data s' s.
Proof.
  intros E Ho. split; [|by eapply core_data; [|exact E]].
  eapply deadlined_frame; [..|exact Ho]; intros k *; intros; by eapply read_core; [|exact E].
Qed.

Lemma armed_data h h' s s' k :
  (forall x, x ∈ h <-> x ∈ h') -> same_data s s' -> armed h s k <-> armed h' s' k.
Proof.
  intros Hh E. unfold armed, exped. rewrite Hh.
  by rewrite (data_read false expedited k s s'), (data_read None deadline k s s').
Qed.

Lemma repr_data out st s' h' dh' n :
  repr out st -> ordered h' s' -> deadlined dh' s' -> same_data s' (tasks st) ->
  (forall x, x ∈ h' <-> x ∈ heap_ st) -> (forall x, x ∈ dh' <-> x ∈ deadlineHeap_ st) ->
  repr out (mkState s' h' dh' n).
Proof.
  intros [] Ho Hd E Hh Hdh. split; simpl; try done.
  - intros k. rewrite Hdh, rp_armed0. by rewrite (armed_data h' (heap_ st) s' (tasks st)).
  - intros k t Ht. destruct (same_data_lookup _ _ _ _ E Ht) as (t' & Ht' & Et).
    apply rp_range0 in Ht'. change (int32_min <= priority (data t)). rewrite <- Et. exact Ht'.
  - intros k t Ht Hx. destruct (same_data_lookup _ _ _ _ E Ht) as (t' & Ht' & Et).
    change (priority (data t) = int32_min). rewrite <- Et. apply (rp_front0 k t'); [done|].
    change (expedited (data t') = true). by rewrite Et.
Qed.

Lemma wrap32_range z : int32_min <= wrap32 z <= 2 ^ 31 - 1.
Proof. unfold wrap32, int32_min. pose proof (Z.mod_pos_bound (z + 2 ^ 31) (2 ^ 32)). lia. Qed.

Lemma ordered_elem h s k :
  ordered h s -> k ∈ h <-> exists i, read None priorityIndex k s = Some i.
Proof.
  intros [_ Hix]. rewrite list_elem_of_lookup. split; intros [i Hi]; exists i; by apply Hix.
Qed.

Lemma ordered_nodup h s : ordered h s -> NoDup h.
Proof. intros [_ Hix]. by apply (indexed_NoDup (HS := priority_heap)) in Hix. Qed.

Lemma read_none {A} (d : A) proj k (s : Store) : s !! k = None -> read d proj k s = d.
Proof. unfold read. by intros ->. Qed.

Lemma read_insert_ne {A} (d : A) proj k x t (s : Store) :
  k <> x -> read d proj x (<[k := t]> s) = read d proj x s.
Proof. intros. unfold read. by rewrite lookup_insert_ne. Qed.
Lemma read_insert_eq {A} (d : A) proj k t (s : Store) : read d proj k (<[k := t]> s) = proj t.
Proof. unfold read. by rewrite lookup_insert_eq. Qed.

(** A fresh object in the store disturbs no heap. *)
Lemma insert_frame h dh k t s :
  s !! k = None -> priorityIndex t = None -> deadlineIndex t = None ->
  ordered h s -> deadlined dh s ->
  ordered h (<[k := t]> s) /\ deadlined dh (<[k := t]> s) /\ k ∉ h /\ k ∉ dh.
Proof.
  intros Hk Hp Hd Ho Hdl.
  assert (Hkh : k ∉ h).
  { intros [i Hi]%(ordered_elem h s k Ho). by rewrite read_none in Hi. }
  assert (Hkd : k ∉ dh).
  { intros [i Hi]%list_elem_of_lookup. destruct Hdl as [_ Hix]. apply Hix in Hi. simpl in Hi.
    by rewrite read_none in Hi. }
  split_and!; try done.
  - eapply ordered_frame; [..|exact Ho]; intros x; try (intros; apply read_insert_ne; congruence).
    destruct (decide (k = x)) as [<-|]; [|by apply read_insert_ne].
    by rewrite read_insert_eq, read_none.
  - eapply deadlined_frame; [..|exact Hdl]; intros x; try (intros; apply read_insert_ne; congruence).
    destruct (decide (k = x)) as [<-|]; [|by apply read_insert_ne].
    by rewrite read_insert_eq, read_none.
Qed.

Lemma prio_enqueue_spec k f prio d subs st :
  repr [] st -> tasks st !! k = None ->
  let t := mkTask (Some f) (wrap32 prio) (nextSequence_ st) None false d None subs in
  let st' := enqueue k f prio d subs st in
  repr [] st' /\ heap_ st' ≡ₚ k :: heap_ st /\ same_data (tasks st') (<[k := t]> (tasks st)) /\
  nextSequence_ st' = wrap64 (nextSequence_ st + 1).
Proof.
  intros HR Hk t. unfold enqueue. fold t. set (s0 := <[k := t]> (tasks st)).
  destruct (insert_frame (heap_ st) (deadlineHeap_ st) k t (tasks st)) as (Ho & Hd & Hkh & Hkd);
    [done..|apply HR|apply HR|]. fold s0 in Ho, Hd.
  assert (H1 : exists dh s1, match d with
      | Some _ => deadlineHeapPushLocked k (deadlineHeap_ st) s0
      | None => (deadlineHeap_ st, s0) end = (dh, s1) /\
    deadlined dh s1 /\ set_deadlineIndex None <$> s1 = set_deadlineIndex None <$> s0 /\
    forall x, x ∈ dh <-> x ∈ deadlineHeap_ st \/ x = k /\ is_Some d).
  { destruct d as [dl|].
    - unfold deadlineHeapPushLocked.
      destruct (heap_push_spec (HL := deadline_laws) k (deadlineHeap_ st) s0) as (Hi & Hp & Hc);
        [done|simpl; unfold s0; rewrite lookup_insert_eq; eauto|simpl; unfold s0; by rewrite read_insert_eq|].
      destruct (heap_push _ _ _) as [dh s1]. exists dh, s1. split_and!; try done.
      intros x. simpl in Hp. rewrite Hp, elem_of_cons. split; [intros [->|?]; eauto|intros [?|[-> _]]; eauto].
    - exists (deadlineHeap_ st), s0. split_and!; try done. intros x. split; [eauto|].
      intros [?|[_ [? ?]]]; done. }
  destruct H1 as (dh & s1 & -> & Hd1 & Hc1 & Hin).
  destruct (deadline_op_frame (heap_ st) s0 s1 Hc1 Ho) as [Ho1 Hs1].
  assert (Hl1 : is_Some (s1 !! k)).
  { apply elem_of_dom. rewrite (same_data_dom _ _ Hs1). unfold s0. rewrite dom_insert_L. set_solver. }
  assert (Hn1 : read None priorityIndex k s1 = None).
  { rewrite (read_core None priorityIndex (set_deadlineIndex None) k s1 s0) by done.
    unfold s0. by rewrite read_insert_eq. }
  rewrite heapPush_eq by done.
  destruct (heap_push_spec (HL := priority_laws) k (heap_ st) s1) as (Ho2 & Hp2 & Hc2); [done..|].
  destruct (heap_push _ _ _) as [h s2]. simpl in *.
  destruct (priority_op_frame dh s1 s2 Hc2 Hd1) as [Hd2 Hs2].
  assert (Hs : same_data s2 s0) by by eapply same_data_trans.
  split_and!; try done. destruct HR as [_ _ HA HRg HF]. split; simpl; try done.
  - intros x. rewrite Hin, HA. rewrite (armed_data h (k :: heap_ st) s2 s0) by
      (try done; intros y; by rewrite Hp2).
    unfold armed, exped, s0. rewrite elem_of_cons. pose proof (not_elem_of_nil x).
    destruct (decide (x = k)) as [->|].
    + rewrite !read_insert_eq. simpl. tauto.
    + rewrite !read_insert_ne by done. tauto.
  - intros x t' Ht'. destruct (same_data_lookup _ _ _ _ Hs Ht') as (t0 & Ht0 & E).
    change (int32_min <= priority (data t')). rewrite <- E. simpl.
    apply lookup_insert_Some in Ht0 as [[_ <-]|[_ Ht0]]; [apply wrap32_range|by eapply HRg].
  - intros x t' Ht' Hx. destruct (same_data_lookup _ _ _ _ Hs Ht') as (t0 & Ht0 & E).
    change (priority (data t') = int32_min). change (expedited (data t') = true) in Hx.
    rewrite <- E in *. simpl in *.
    apply lookup_insert_Some in Ht0 as [[_ <-]|[_ Ht0]]; [done|by eapply HF].
Qed.

(** ** Promotion *)

Lemma alter_same_data k g (s s' : Store) :
  (forall t t', data t = data t' -> data (g t) = data (g t')) ->
  same_data s s' -> same_data (alter g k s) (alter g k s').
Proof.
  intros Hg E. unfold same_data in *. apply map_eq. intros x.
  apply (f_equal (lookup x)) in E. rewrite !lookup_fmap in *.
  destruct (decide (k = x)) as [<-|]; [|by rewrite !lookup_alter_ne].
  rewrite !lookup_alter_eq. destruct (s !! k), (s' !! k); try done. simpl in *.
  f_equal. apply Hg. by apply (inj Some).
Qed.

Definition raise (t : PriorityPoolTask) : PriorityPoolTask :=
  set_priority int32_min (set_expedited true t).

(** A key that drops to the minimum can only violate the order with its parent. *)
Lemma raise_weak_up i k h s :
  ordered h s -> h !! i = Some k -> int32_min <= read 0 priority k s ->
  @weak_up _ _ _ priority_heap i h (alter (set_priority int32_min) k s) /\
  @indexed _ _ _ priority_heap h (alter (set_priority int32_min) k s).
Proof.
  intros Ho Hi Hr. pose proof (ordered_nodup _ _ Ho) as Hnd. destruct Ho as [Hord Hix].
  set (s' := alter (set_priority int32_min) k s).
  assert (Hix' : @indexed _ _ _ priority_heap h s').
  { intros x j. simpl. unfold s'. rewrite read_alter by done. apply (Hix x j). }
  assert (Hlive : is_Some (s !! k)).
  { apply Hix in Hi. simpl in Hi. unfold read in Hi. destruct (s !! k); [eauto|done]. }
  destruct Hlive as [t Ht].
  assert (Ek : read 0 priority k s' = int32_min) by (unfold s'; by erewrite read_alter_eq).
  assert (Ene : forall x, x <> k -> read 0 priority x s' = read 0 priority x s).
  { intros x Hx. unfold s', read. by rewrite lookup_alter_ne. }
  assert (Es : forall x, read 0 sequence x s' = read 0 sequence x s).
  { intros x. unfold s'. by rewrite read_alter. }
  assert (Hxk : forall j x, h !! j = Some x -> j <> i -> x <> k).
  { intros j x Hj Hji ->. by apply Hji, (NoDup_lookup h j i k). }
  split; [|done]. split.
  - intros j x p Hj Hji Hx Hp. pose proof (Hord j x p Hj Hx Hp) as Hf. simpl in *.
    rewrite comesBefore_false in *. rewrite !Es, (Ene x) by by eapply Hxk.
    destruct (decide (p = k)) as [->|]; [rewrite Ek|rewrite Ene by done]; lia.
  - intros c y g H0 Hc Hpar Hy Hg. pose proof (parent_lt i H0). pose proof (parent_lt c Hc).
    pose proof (Hord i k g H0 Hi Hg) as F1.
    pose proof (Hord c y k Hc Hy ltac:(by rewrite Hpar)) as F2. simpl in *.
    rewrite comesBefore_false in *. rewrite !Es, (Ene y), (Ene g); [lia|..].
    + eapply Hxk; [exact Hg|lia].
    + eapply Hxk; [exact Hy|lia].
Qed.

Lemma alter_raise_data k s1 (s : Store) t :
  s !! k = Some t -> same_data s1 (alter (set_expedited true) k s) ->
  same_data (alter (set_priority int32_min) k s1) (alter raise k s).
Proof.
  intros Ht E. unfold same_data in *. apply map_eq. intros x.
  apply (f_equal (lookup x)) in E. rewrite !lookup_fmap in *.
  destruct (decide (k = x)) as [<-|].
  - rewrite !lookup_alter_eq in *. rewrite Ht in *. destruct (s1 !! k); [|done].
    simpl in *. apply (inj Some) in E. f_equal.
    apply (f_equal (set_priority int32_min)) in E. exact E.
  - by rewrite !lookup_alter_ne in *.
Qed.

(** The invariant after task [k] was raised and left the deadline heap. *)
Lemma repr_raised out st k t s' h dh n :
  repr out st -> (forall x, x ∈ out -> x = k) -> tasks st !! k = Some t ->
  same_data s' (alter raise k (tasks st)) -> ordered h s' -> deadlined dh s' ->
  h ≡ₚ heap_ st -> dh ≡ₚ without k (deadlineHeap_ st) -> repr [] (mkState s' h dh n).
Proof.
  intros [_ _ HA HRg HF] Hout Ht Hs Ho Hd Hh Hdh. split; simpl; try done.
  - intros x. rewrite Hdh, elem_of_without, HA.
    rewrite (armed_data h (heap_ st) s' (alter raise k (tasks st)))
      by (try done; intros y; by rewrite Hh).
    unfold armed, exped. pose proof (not_elem_of_nil x). specialize (Hout x).
    destruct (decide (x = k)) as [->|].
    + rewrite (read_alter_eq false expedited raise k t) by done. simpl. split; [tauto|].
      intros (_ & _ & ? & _). done.
    + assert (E : forall A (d : A) proj, read d proj x (alter raise k (tasks st)) =
        read d proj x (tasks st)) by (intros; unfold read; by rewrite lookup_alter_ne).
      rewrite !E. tauto.
  - intros x t' Ht'. destruct (same_data_lookup _ _ _ _ Hs Ht') as (t0 & Ht0 & E).
    change (int32_min <= priority (data t')). rewrite <- E. simpl.
    apply lookup_alter_Some in Ht0 as [(-> & t1 & Ht1 & ->)|[_ Ht0]]; [simpl; lia|by eapply HRg].
  - intros x t' Ht' Hx. destruct (same_data_lookup _ _ _ _ Hs Ht') as (t0 & Ht0 & E).
    change (priority (data t') = int32_min). change (expedited (data t') = true) in Hx.
    rewrite <- E in *. simpl in *.
    apply lookup_alter_Some in Ht0 as [(-> & t1 & Ht1 & ->)|[_ Ht0]]; [done|by eapply HF].
Qed.

Lemma expediteLocked_spec out st k :
  repr out st -> (forall x, x ∈ out -> x = k) -> k ∈ heap_ st -> exped (tasks st) k = false ->
  exists st', expediteLocked k st = (st', true) /\ repr [] st' /\ heap_ st' ≡ₚ heap_ st /\
    same_data (tasks st') (alter raise k (tasks st)) /\ nextSequence_ st' = nextSequence_ st /\
    deadlineHeap_ st' ≡ₚ without k (deadlineHeap_ st).
Proof.
  intros HR Hout Hk He. pose proof (rp_prio _ _ HR) as Ho.
  apply (ordered_elem _ _ _ Ho) in Hk as [i Hi].
  assert (Hhi : heap_ st !! i = Some k) by (apply (proj2 Ho); done).
  unfold expediteLocked, exped, read in *. destruct (tasks st !! k) as [t|] eqn:Ht; [|done].
  simpl in He, Hi. rewrite Hi, He. set (s0 := alter (set_expedited true) k (tasks st)).
  assert (Ho0 : ordered (heap_ st) s0).
  { eapply ordered_frame; [..|exact Ho]; intros; unfold s0; by rewrite read_alter. }
  assert (Hd0 : deadlined (deadlineHeap_ st) s0).
  { eapply deadlined_frame; [..|exact (rp_dead _ _ HR)]; intros; unfold s0; by rewrite read_alter. }
  unfold deadlineHeapRemoveLocked.
  destruct (heap_remove_spec (HL := deadline_laws) k (deadlineHeap_ st) s0 Hd0) as (Hd1 & Hp1 & Hc1).
  destruct (heap_remove _ _ _) as [dh s1]. simpl in Hp1, Hc1, Hd1.
  destruct (deadline_op_frame _ s0 s1 Hc1 Ho0) as [Ho1 Hs1].
  set (s2 := alter (set_priority int32_min) k s1).
  assert (Hr1 : int32_min <= read 0 priority k s1).
  { rewrite (data_read 0 priority k s1 s0) by done. unfold s0. rewrite read_alter by done.
    unfold read. rewrite Ht. by eapply rp_range. }
  destruct (raise_weak_up i k (heap_ st) s1 Ho1 Hhi Hr1) as [Hw Hix2]. fold s2 in Hw, Hix2.
  unfold heapSiftUp. rewrite heapSiftUp_loop_eq by done.
  destruct (sift_up_loop_spec (HL := priority_laws) i i (heap_ st) s2) as [Ho3 (Hp3 & Hc3 & Hix3)];
    [done|by eapply lookup_lt_Some|done..|].
  destruct (sift_up_loop _ _ _ _) as [h s3]. simpl in *.
  assert (Hd2 : deadlined dh s2).
  { eapply deadlined_frame; [..|exact Hd1]; intros; unfold s2; by rewrite read_alter. }
  destruct (priority_op_frame dh s2 s3 Hc3 Hd2) as [Hd3 Hs3].
  assert (Hs : same_data s3 (alter raise k (tasks st))).
  { eapply same_data_trans; [exact Hs3|]. by eapply alter_raise_data. }
  exists (mkState s3 h dh (nextSequence_ st)). split_and!; try done.
  by eapply repr_raised.
Qed.

Lemma expediteLocked_noop st k :
  ordered (heap_ st) (tasks st) -> k ∉ heap_ st \/ exped (tasks st) k = true ->
  expediteLocked k st = (st, false).
Proof.
  intros Ho Hk. unfold expediteLocked, exped, read in *.
  pose proof (ordered_elem (heap_ st) (tasks st) k Ho) as Hel. unfold read in Hel.
  destruct (tasks st !! k) as [t|]; [|done]. destruct (priorityIndex t) eqn:E; [|done].
  destruct (expedited t); [done|]. destruct Hk as [Hk|Hk]; [|done].
  exfalso. apply Hk, Hel. eauto.
Qed.

(** The store after the tasks [es] were raised. *)
Definition raised_in (es : list nat) (x : nat) (t : PriorityPoolTask) : PriorityPoolTask :=
  if decide (x ∈ es) then raise t else t.
Definition raised (es : list nat) (s s' : Store) : Prop :=
  forall x, data <$> s' !! x = data ∘ raised_in es x <$> s !! x.

Lemma raised_nil s s' : same_data s' s -> raised [] s s'.
Proof.
  intros E x. apply (f_equal (lookup x)) in E. rewrite !lookup_fmap in E. rewrite E.
  apply option_fmap_ext. intros t. unfold compose, raised_in.
  by rewrite decide_False by apply not_elem_of_nil.
Qed.

Lemma raise_data t t' : data t = data t' -> data (raise t) = data (raise t').
Proof. intros E. change (raise (data t) = raise (data t')). by rewrite E. Qed.

Lemma raised_cons k es s s1 s' :
  k ∉ es -> same_data s1 (alter raise k s) -> raised es s1 s' -> raised (k :: es) s s'.
Proof.
  intros Hk E Hr x. rewrite Hr. apply (f_equal (lookup x)) in E. rewrite !lookup_fmap in E.
  assert (Hd : decide (x ∈ k :: es) = decide (x ∈ k :: es)) by done.
  destruct (decide (x = k)) as [->|Hx].
  - rewrite lookup_alter_eq in E. destruct (s1 !! k) as [t1|], (s !! k) as [t|]; try done.
    simpl in *. unfold raised_in. rewrite decide_False by done.
    rewrite decide_True by left. done.
  - rewrite lookup_alter_ne in E by done. destruct (s1 !! x) as [t1|], (s !! x) as [t|]; try done.
    simpl in *. apply (inj Some) in E. f_equal. unfold raised_in.
    destruct (decide (x ∈ es)).
    + rewrite decide_True by by right. by apply raise_data.
    + rewrite decide_False by (rewrite elem_of_cons; tauto). done.
Qed.

(** The root of the deadline heap is due: it leaves the heap and is raised. *)
Lemma prio_promote_one st k dh :
  repr [] st -> deadlineHeap_ st = k :: dh ->
  exists st2, (let '(dh1, s1) := deadlineHeapRemoveAtLocked 0 (deadlineHeap_ st) (tasks st) in
     expediteLocked k (mkState s1 (heap_ st) dh1 (nextSequence_ st))) = (st2, true) /\
    repr [] st2 /\ heap_ st2 ≡ₚ heap_ st /\ same_data (tasks st2) (alter raise k (tasks st)) /\
    nextSequence_ st2 = nextSequence_ st /\ deadlineHeap_ st2 ≡ₚ dh /\
    (forall x, x <> k -> deadline_key (tasks st2) x = deadline_key (tasks st) x).
Proof.
  intros HR Eh.
  assert (Hroot : deadlineHeap_ st !! 0%nat = Some k) by by rewrite Eh.
  destruct (proj1 (rp_armed _ _ HR k)) as [_ (Hkh & Hke & _)]; [rewrite Eh; left|].
  unfold deadlineHeapRemoveAtLocked.
  destruct (heap_remove_at_spec (HL := deadline_laws) 0 _ _ k (rp_dead _ _ HR) Hroot)
    as (Hd1 & Hp1 & Hc1).
  destruct (heap_remove_at _ _ _) as [dh1 s1]. simpl in Hd1, Hp1, Hc1.
  destruct (deadline_op_frame _ _ _ Hc1 (rp_prio _ _ HR)) as [Ho1 Hs1].
  assert (Hp : dh1 ≡ₚ dh) by (rewrite Eh in Hp1; by apply Permutation_cons_inv in Hp1).
  assert (Hnd : NoDup (k :: dh)).
  { rewrite <- Eh. eapply (indexed_NoDup (HS := deadline_heap)), (rp_dead _ _ HR). }
  apply NoDup_cons in Hnd as [Hkd Hnd].
  set (mid := mkState s1 (heap_ st) dh1 (nextSequence_ st)).
  assert (HM : repr [k] mid).
  { destruct HR as [_ _ HA HRg HF]. split; simpl; try done.
    - intros x. rewrite Hp. rewrite (armed_data (heap_ st) (heap_ st) s1 (tasks st)) by done.
      assert (Hx : x ∈ k :: dh <-> armed (heap_ st) (tasks st) x).
      { rewrite <- Eh, HA. pose proof (not_elem_of_nil x). tauto. }
      rewrite <- Hx, list_elem_of_singleton, elem_of_cons. split; [|tauto].
      intros Hin. split; [intros ->; done|by right].
    - intros x t Ht. destruct (same_data_lookup _ _ _ _ Hs1 Ht) as (t' & Ht' & E).
      change (int32_min <= priority (data t)). rewrite <- E. exact (HRg x t' Ht').
    - intros x t Ht Hx. destruct (same_data_lookup _ _ _ _ Hs1 Ht) as (t' & Ht' & E).
      change (priority (data t) = int32_min). change (expedited (data t) = true) in Hx.
      rewrite <- E in *. exact (HF x t' Ht' Hx). }
  destruct (expediteLocked_spec [k] mid k HM) as (st2 & Hex & HR2 & Hh2 & Hs2 & Hn2 & Hdh2).
  - by intros x ?%list_elem_of_singleton.
  - done.
  - unfold exped. simpl. by rewrite (data_read false expedited k s1 (tasks st)).
  - exists st2. simpl in *. fold mid. split_and!; try done.
    + eapply same_data_trans; [exact Hs2|]. apply alter_same_data; [exact raise_data|done].
    + rewrite Hdh2. simpl. rewrite without_not_elem; [done|]. by rewrite Hp.
    + intros x Hx. unfold deadline_key. f_equal.
      rewrite (data_read None deadline x (tasks st2) (alter raise k s1)) by done.
      rewrite read_alter by done. by apply data_read.
Qed.

Lemma promote_none now st n :
  repr [] st -> (forall x, x ∈ deadlineHeap_ st -> now < deadline_key (tasks st) x) ->
  exists es st', (st, n) = (st', (n + length es)%nat) /\ repr [] st' /\
    heap_ st' ≡ₚ heap_ st /\ raised es (tasks st) (tasks st') /\
    nextSequence_ st' = nextSequence_ st /\
    (forall x, x ∈ es <-> x ∈ deadlineHeap_ st /\ deadline_key (tasks st) x <= now).
Proof.
  intros HR Hx. exists [], st. split; [f_equal; simpl; lia|]. split; [done|]. split; [done|].
  split; [by apply raised_nil|]. split; [done|]. intros x. specialize (Hx x).
  split; [by intros ?%elem_of_nil|]. intros [Hin Hle]. specialize (Hx Hin). lia.
Qed.

Lemma prio_promote_loop_spec fuel now st n :
  repr [] st -> (length (deadlineHeap_ st) <= fuel)%nat ->
  exists es st', promote_loop fuel now st n = (st', (n + length es)%nat) /\ repr [] st' /\
    heap_ st' ≡ₚ heap_ st /\ raised es (tasks st) (tasks st') /\
    nextSequence_ st' = nextSequence_ st /\
    (forall x, x ∈ es <-> x ∈ deadlineHeap_ st /\ deadline_key (tasks st) x <= now).
Proof.
  revert st n. induction fuel as [|fuel IH]; intros st n HR Hf.
  { apply (promote_none now st n HR). destruct (deadlineHeap_ st); [|simpl in Hf; lia].
    by intros x ?%elem_of_nil. }
  cbn [promote_loop]. destruct (deadlineHeap_ st) as [|k dh] eqn:E.
  { pose proof (promote_none now st n HR) as Hnone. rewrite E in Hnone. apply Hnone.
    by intros x ?%elem_of_nil. }
  destruct (Z.leb_spec (deadline_key (tasks st) k) now) as [Hle|Hgt].
  - destruct (prio_promote_one st k dh HR E) as (st2 & Hex & HR2 & Hh2 & Hs2 & Hn2 & Hd2 & Hk2).
    rewrite <- E. destruct (deadlineHeapRemoveAtLocked _ _ _) as [dh1 s1]. rewrite Hex.
    assert (Hkd : k ∉ dh).
    { assert (Hnd : NoDup (k :: dh)).
      { rewrite <- E. eapply (indexed_NoDup (HS := deadline_heap)), (rp_dead _ _ HR). }
      by apply NoDup_cons in Hnd as [? _]. }
    destruct (IH st2 (S n) HR2) as (es & st' & Hl & HR' & Hh & Hr & Hn & Hx).
    { rewrite Hd2. simpl in Hf. lia. }
    assert (Hke : k ∉ es) by (rewrite Hx, Hd2; tauto).
    exists (k :: es), st'. rewrite Hl. split_and!; try done.
    + f_equal. simpl. lia.
    + by rewrite Hh.
    + by eapply raised_cons.
    + congruence.
    + intros x. rewrite E, !elem_of_cons, Hx, Hd2. destruct (decide (x = k)) as [->|].
      * split; [by auto|by left].
      * rewrite Hk2 by done. tauto.
  - pose proof (promote_none now st n HR) as Hnone. rewrite E in Hnone. apply Hnone. intros x Hx.
    pose proof (heap_root_min (HL := deadline_laws) (deadlineHeap_ st) (tasks st) k x
      (rp_dead _ _ HR)) as Hmin. rewrite E in Hmin. specialize (Hmin eq_refl Hx).
    simpl in Hmin. unfold deadlineEarlier in Hmin. bool_to_prop. lia.
Qed.

(** A queued task whose deadline has passed and that was not promoted. *)
Definition expired (now : Z) (st : State) (x : nat) : Prop :=
  armed (heap_ st) (tasks st) x /\ deadline_key (tasks st) x <= now.

Definition promoted (now : Z) (st : State) : State * nat :=
  if bool_decide (deadlineHeap_ st = []) then (st, 0%nat)
  else promoteExpiredDeadlinesLocked now st.

Lemma prio_promoted_spec now st :
  repr [] st ->
  exists es st', promoted now st = (st', length es) /\ repr [] st' /\
    heap_ st' ≡ₚ heap_ st /\ raised es (tasks st) (tasks st') /\
    nextSequence_ st' = nextSequence_ st /\ (forall x, x ∈ es <-> expired now st x).
Proof.
  intros HR.
  assert (E : promoted now st = promoteExpiredDeadlinesLocked now st).
  { unfold promoted. case_bool_decide as E; [|done].
    unfold promoteExpiredDeadlinesLocked. by rewrite E. }
  rewrite E. unfold promoteExpiredDeadlinesLocked.
  destruct (prio_promote_loop_spec (length (deadlineHeap_ st)) now st 0 HR) as
    (es & st' & Hl & HR' & Hh & Hr & Hn & Hx); [done|].
  exists es, st'. split_and!; try done. intros x. rewrite Hx. unfold expired.
  rewrite (rp_armed _ _ HR). pose proof (not_elem_of_nil x). tauto.
Qed.
End Prio.
