(* ===== verification/PriorityTaskPool.v ===== *)
(** * PriorityTaskPoolImpl

    The priority pool of runtime/pool/prioritytaskpool.hpp: the lifecycle of
    PoolCore.v over the two heaps of PrioQueue.v.  The heaps meet the interface of the
    lifecycle, so the claims of PoolTheorems.v hold of this pool too; the claims here
    say in which order it hands tasks out. *)
From Stdlib Require Import ZArith Lia.
From S2P Require Import Prelude Context IndexedHeap PrioQueue PoolCore PoolControl PoolTasks.
From S2P Require Import PoolTheorems.
Local Open Scope Z_scope.

Module PriorityTaskPool.
Import Prio.

(** The last reference to a task goes away. *)
Definition retire (k : nat) (st : State) : State :=
  mkState (delete k (tasks st)) (heap_ st) (deadlineHeap_ st) (nextSequence_ st).

(** A cancellation watch: nothing to do when the weak pointer no longer locks. *)
Definition cancel (t : Z) (k : nat) (st : State) : State * nat :=
  default (st, 0%nat) (expedite t k st).

Definition add (k : nat) (a : TaskArgs) (st : State) : State :=
  enqueue k (arg_fn a) (arg_priority a) (arg_deadline a) (arg_sources a) st.

#[export] Instance prio_queue : PoolQueue State := {
  pq_empty := empty;
  pq_size st := Z.of_nat (length (heap_ st));
  pq_add := add;
  pq_cancel := cancel;
  pq_pop := dequeue;
  pq_retire := retire;
  pq_rep q live st := q = heap_ st /\ repr [] st /\ dom (tasks st) = live;
}.

(** The priority a task has once the tasks [es] were promoted. *)
Definition effective (es : list nat) (st : State) (x : nat) : Z :=
  if decide (x ∈ es) then int32_min else read 0 priority x (tasks st).
Definition arrival (st : State) (x : nat) : Z := read 0 sequence x (tasks st).

Lemma raised_dom es s s' : raised es s s' -> dom s' = (dom s : gset nat).
Proof.
  intros Hr. apply set_eq. intros x. rewrite !elem_of_dom. specialize (Hr x).
  destruct (s' !! x), (s !! x); try done; split; intros []; eauto; done.
Qed.

Lemma raised_priority es s s' x :
  raised es s s' -> is_Some (s !! x) ->
  read 0 priority x s' = if decide (x ∈ es) then int32_min else read 0 priority x s.
Proof.
  intros Hr [t Ht]. specialize (Hr x). unfold read. rewrite Ht in *. simpl in Hr.
  destruct (s' !! x) as [t'|]; [|done]. apply (inj Some) in Hr.
  apply (f_equal priority) in Hr. simpl in Hr. unfold raised_in in Hr.
  by destruct (decide (x ∈ es)).
Qed.

Lemma raised_sequence es s s' x : raised es s s' -> read 0 sequence x s' = read 0 sequence x s.
Proof.
  intros Hr. specialize (Hr x). unfold read. destruct (s' !! x), (s !! x); try done.
  apply (inj Some), (f_equal sequence) in Hr. simpl in Hr. unfold raised_in in Hr.
  by destruct (decide (x ∈ es)).
Qed.

Lemma raised_exped es s s' x :
  raised es s s' -> is_Some (s !! x) -> exped s' x = bool_decide (x ∈ es) || exped s x.
Proof.
  intros Hr [t Ht]. specialize (Hr x). unfold exped, read. rewrite Ht in *. simpl in Hr.
  destruct (s' !! x) as [t'|]; [|done]. apply (inj Some) in Hr.
  apply (f_equal expedited) in Hr. simpl in Hr. unfold raised_in in Hr.
  rewrite Hr. by destruct (decide (x ∈ es)); case_bool_decide.
Qed.

Lemma heap_live st x : ordered (heap_ st) (tasks st) -> x ∈ heap_ st -> is_Some (tasks st !! x).
Proof.
  intros Ho Hx. apply (ordered_elem _ _ _ Ho) in Hx as [i Hi]. unfold read in Hi.
  destruct (tasks st !! x); [eauto|done].
Qed.

(** ** Operations on the invariant *)

Lemma empty_repr : repr [] empty.
Proof.
  split; simpl.
  - split; [by intros i x p _ ?|]. intros k i. split; intros Hx; [done|by rewrite lookup_nil in Hx].
  - split; [by intros i x p _ ?|]. intros k i. split; intros Hx; [done|by rewrite lookup_nil in Hx].
  - intros k. split; [by intros ?%elem_of_nil|]. by intros [_ [?%elem_of_nil _]].
  - intros k t Hk. by rewrite lookup_empty in Hk.
  - intros k t Hk. by rewrite lookup_empty in Hk.
Qed.

Lemma prio_cancel_spec t k st :
  repr [] st ->
  repr [] (cancel t k st).1 /\ heap_ (cancel t k st).1 ≡ₚ heap_ st /\
  dom (tasks (cancel t k st).1) = (dom (tasks st) : gset nat).
Proof.
  intros HR. unfold cancel, expedite. destruct (tasks st !! k) eqn:Ek; [|done].
  fold (promoted t st).
  destruct (prio_promoted_spec t st HR) as (es & st1 & -> & HR1 & Hh1 & Hr1 & _ & _).
  destruct (decide (k ∈ heap_ st1 /\ exped (tasks st1) k = false)) as [[Hk He]|Hn].
  - destruct (expediteLocked_spec [] st1 k HR1) as (st2 & -> & HR2 & Hh2 & Hs2 & _);
      [by intros x ?%elem_of_nil|done..|].
    simpl. split; [done|]. split; [by rewrite Hh2|].
    rewrite (same_data_dom _ _ Hs2), dom_alter_L. by eapply raised_dom.
  - rewrite expediteLocked_noop; [|apply HR1|].
    + simpl. split; [done|]. split; [done|]. by eapply raised_dom.
    + destruct (decide (k ∈ heap_ st1)); [|by left]. right.
      destruct (exped (tasks st1) k); [done|]. exfalso. by apply Hn.
Qed.

(** Taking the root out of a heap in order. *)
Lemma pop_spec st k :
  repr [] st -> head (heap_ st) = Some k ->
  exists h s2 dh s3, heapPop (heap_ st) (tasks st) = Some (k, h, s2) /\
    deadlineHeapRemoveLocked k (deadlineHeap_ st) s2 = (dh, s3) /\
    repr [] (mkState s3 h dh (nextSequence_ st)) /\ heap_ st ≡ₚ k :: h /\
    same_data s3 (tasks st).
Proof.
  intros HR Hhd. rewrite (heapPop_eq k) by (done || apply HR).
  assert (H0 : heap_ st !! 0%nat = Some k) by by destruct (heap_ st).
  destruct (heap_remove_at_spec (HL := priority_laws) 0 _ _ k (rp_prio _ _ HR) H0)
    as (Ho & Hp & Hc).
  destruct (heap_remove_at _ _ _) as [h s2]. simpl in Ho, Hp, Hc.
  destruct (priority_op_frame _ _ _ Hc (rp_dead _ _ HR)) as [Hd Hs].
  unfold deadlineHeapRemoveLocked.
  destruct (heap_remove_spec (HL := deadline_laws) k _ _ Hd) as (Hd3 & Hp3 & Hc3).
  destruct (heap_remove _ _ _) as [dh s3] eqn:Erem. simpl in Hd3, Hp3, Hc3.
  destruct (deadline_op_frame _ _ _ Hc3 Ho) as [Ho3 Hs3].
  assert (Hs' : same_data s3 (tasks st)) by by eapply same_data_trans.
  exists h, s2, dh, s3. split_and!; try done.
  assert (Hkh : k ∉ h).
  { pose proof (ordered_nodup _ _ (rp_prio _ _ HR)) as Hnd. rewrite <- Hp in Hnd.
    by apply NoDup_cons in Hnd as [? _]. }
  destruct HR as [_ _ HA HRg HF]. split; simpl; try done.
  - intros x. rewrite Hp3, elem_of_without, HA.
    rewrite (armed_data h h s3 (tasks st)) by done. unfold armed. rewrite <- Hp, elem_of_cons.
    pose proof (not_elem_of_nil x). destruct (decide (x = k)) as [->|]; tauto.
  - intros x t Ht. destruct (same_data_lookup _ _ _ _ Hs' Ht) as (t' & Ht' & E).
    change (int32_min <= priority (data t)). rewrite <- E. exact (HRg x t' Ht').
  - intros x t Ht Hx. destruct (same_data_lookup _ _ _ _ Hs' Ht) as (t' & Ht' & E).
    change (priority (data t) = int32_min). change (expedited (data t) = true) in Hx.
    rewrite <- E in *. exact (HF x t' Ht' Hx).
Qed.

Lemma prio_dequeue_spec t st :
  repr [] st -> heap_ st <> [] ->
  exists es k st', dequeue t st = Some (k, length es, st') /\ repr [] st' /\
    heap_ st ≡ₚ k :: heap_ st' /\ dom (tasks st') = (dom (tasks st) : gset nat) /\
    (forall x, x ∈ es <-> expired t st x) /\
    (forall x, x ∈ heap_ st ->
      effective es st k < effective es st x \/
      effective es st k = effective es st x /\ arrival st k <= arrival st x).
Proof.
  intros HR Hne. unfold dequeue. fold (promoted t st).
  destruct (prio_promoted_spec t st HR) as (es & st1 & -> & HR1 & Hh1 & Hr1 & Hn1 & Hx1).
  destruct (head (heap_ st1)) as [k|] eqn:Hhd.
  2:{ destruct (heap_ st1) eqn:E; [|done]. by apply Permutation_nil_l in Hh1. }
  destruct (pop_spec st1 k HR1 Hhd) as (h & s2 & dh & s3 & -> & -> & HR3 & Hp & Hs).
  exists es, k, (mkState s3 h dh (nextSequence_ st1)). split_and!; try done; simpl.
  - by rewrite <- Hh1.
  - rewrite (same_data_dom _ _ Hs). by eapply raised_dom.
  - intros x Hx. rewrite <- Hh1 in Hx.
    assert (H0 : heap_ st1 !! 0%nat = Some k) by by destruct (heap_ st1).
    pose proof (heap_root_min (HL := priority_laws) _ _ k x (rp_prio _ _ HR1) H0 Hx) as Hm.
    simpl in Hm. apply comesBefore_false in Hm.
    assert (Hl : forall y, y ∈ heap_ st1 -> read 0 priority y (tasks st1) = effective es st y).
    { intros y Hy. apply (raised_priority es); [done|].
      eapply heap_live; [apply HR|]. by rewrite <- Hh1. }
    rewrite !Hl, !(raised_sequence es (tasks st) (tasks st1)) in Hm by
      (done || (rewrite Hp; left)). unfold arrival. lia.
Qed.

Lemma prio_retire_spec k st : repr [] st -> k ∉ heap_ st -> repr [] (retire k st).
Proof.
  intros [Ho Hd HA HRg HF] Hk.
  assert (Hdk : k ∉ deadlineHeap_ st) by (rewrite HA; intros [_ [? _]]; done).
  assert (Hne : forall A (d : A) proj x, x <> k ->
    read d proj x (delete k (tasks st)) = read d proj x (tasks st))
    by (intros; unfold read; by rewrite lookup_delete_ne).
  assert (Heq : forall A (d : A) proj, read d proj k (delete k (tasks st)) = d)
    by (intros; unfold read; by rewrite lookup_delete_eq).
  split; simpl.
  - eapply ordered_frame; [..|exact Ho]; intros x; try (intros; apply Hne; congruence).
    destruct (decide (x = k)) as [->|]; [|by apply Hne]. rewrite Heq.
    destruct (read None priorityIndex k (tasks st)) eqn:E; [|done].
    exfalso. apply Hk, (ordered_elem _ _ _ Ho). eauto.
  - eapply deadlined_frame; [..|exact Hd]; intros x; try (intros; apply Hne; congruence).
    destruct (decide (x = k)) as [->|]; [|by apply Hne]. rewrite Heq.
    destruct (read None deadlineIndex k (tasks st)) as [i|] eqn:E; [|done].
    exfalso. apply Hdk, list_elem_of_lookup. exists i. by apply (proj2 Hd).
  - intros x. rewrite HA. unfold armed, exped. destruct (decide (x = k)) as [->|]; [tauto|].
    by rewrite !Hne.
  - intros x t Hx. apply lookup_delete_Some in Hx as [_ Hx]. by eapply HRg.
  - intros x t Hx. apply lookup_delete_Some in Hx as [_ Hx]. by eapply HF.
Qed.

#[export] Instance prio_laws : PoolQueueLaws State.
Proof.
  split; simpl.
  - split; [done|]. split; [apply empty_repr|]. by rewrite dom_empty_L.
  - by intros q live st (-> & _).
  - intros q live st (-> & HR & _). eapply ordered_nodup, HR.
  - intros q live st k (-> & HR & <-) Hk. apply elem_of_dom. by eapply heap_live; [apply HR|].
  - intros q live st k a (-> & HR & <-) Hk. exists (heap_ (add k a st)).
    destruct (prio_enqueue_spec k (arg_fn a) (arg_priority a) (arg_deadline a) (arg_sources a) st HR)
      as (HR' & Hp & Hs & _); [by apply not_elem_of_dom|].
    split; [|done]. split; [done|]. split; [done|].
    unfold add. by rewrite (same_data_dom _ _ Hs), dom_insert_L.
  - intros q live st t k (-> & HR & <-). exists (heap_ (cancel t k st).1).
    by destruct (prio_cancel_spec t k st HR) as (HR' & Hp & Hd).
  - intros q live st t (-> & HR & <-) Hne.
    destruct (prio_dequeue_spec t st HR Hne) as (es & k & st' & Hd & HR' & Hp & Hdom & _).
    exists k, (length es), st', (heap_ st'). done.
  - intros q live st k (-> & HR & <-) Hk. split; [done|]. split; [by apply prio_retire_spec|].
    simpl. by rewrite dom_delete_L.
Qed.

(** ** Arrival order *)

(** Every queued task arrived before the next one will. *)
Definition fresh_sequence (st : State) : Prop :=
  0 <= nextSequence_ st /\ forall x, x ∈ heap_ st -> arrival st x < nextSequence_ st.

Lemma data_arrival st s' x : same_data s' (tasks st) -> read 0 sequence x s' = arrival st x.
Proof. intros E. by apply data_read. Qed.

Lemma cancel_fresh t k st :
  repr [] st -> fresh_sequence st -> fresh_sequence (cancel t k st).1.
Proof.
  intros HR [Hn Hf]. destruct (prio_cancel_spec t k st HR) as (_ & Hh & _).
  assert (Hs : (forall x, arrival (cancel t k st).1 x = arrival st x) /\
               nextSequence_ (cancel t k st).1 = nextSequence_ st).
  { unfold cancel, expedite, arrival. destruct (tasks st !! k); [|done]. fold (promoted t st).
    destruct (prio_promoted_spec t st HR) as (es & st1 & -> & HR1 & Hh1 & Hr1 & Hn1 & _).
    destruct (decide (k ∈ heap_ st1 /\ exped (tasks st1) k = false)) as [[Hk He]|Hx].
    - destruct (expediteLocked_spec [] st1 k HR1) as (st2 & -> & _ & _ & Hs2 & Hn2 & _);
        [by intros x ?%elem_of_nil|done..|]. simpl. split; [|congruence]. intros x.
      rewrite (data_read 0 sequence x _ _) by (try exact Hs2; done).
      rewrite read_alter by done. by eapply raised_sequence.
    - rewrite expediteLocked_noop; [|apply HR1|].
      + simpl. split; [|done]. intros x. by eapply raised_sequence.
      + destruct (decide (k ∈ heap_ st1)); [|by left]. right.
        destruct (exped (tasks st1) k); [done|]. exfalso. by apply Hx. }
  destruct Hs as [Ha Hn']. split; [congruence|]. intros x Hx. rewrite Ha, Hn'.
  apply Hf. by rewrite <- Hh.
Qed.

(** ** The pool

    The bodies of prioritytaskpool.hpp that are those of taskpool.hpp with the two heaps
    in place of the linked list. *)
Definition PriorityPool := PoolCore.Pool State.
Definition start (ctx : ContextState) (p : PriorityPool) : PriorityPool * outcome :=
  start_call ctx p.
Definition start_body (e : Env) (p : PriorityPool) : option PriorityPool := start_step e p.
Definition stop (p : PriorityPool) : option (PriorityPool * outcome) := stop_call p.
Definition stop_body (p : PriorityPool) : option PriorityPool := stop_step p.
Definition addTask (e : Env) (ctx : ContextState) (priority : Z) (k fn : nat)
    (p : PriorityPool) : PriorityPool * outcome :=
  match addTask_precheck e ctx p with
  | Some err => reject e err p
  | None => addTask_locked e ctx priority k fn p
  end.
Definition executorLoop (e : Env) (x : nat) (p : PriorityPool) : option PriorityPool :=
  executor_step e x p.
Definition reconcileExecutors (target : Z) (reserve_ok : bool) (p : PriorityPool) : PriorityPool :=
  reconcile_lock target reserve_ok p.
Definition managerLoop (e : Env) (x : nat) (p : PriorityPool) : option PriorityPool :=
  manager_step e x p.

Lemma reachable_repr (p : PriorityPool) : reachable p -> repr [] (queue_ p).
Proof. intros Hr. by destruct (reachable_accounting p Hr) as (q & live & [(_ & ? & _) _ _]). Qed.

(** ** Claims *)

(** C6. What an executor takes: the queued tasks whose deadline has passed (and that
    were not promoted before) get the most urgent priority, and then the task taken is
    minimal by (priority, arrival) among all queued tasks; all others stay queued. *)
Theorem priority_dequeue_order t st :
  repr [] st -> heap_ st <> [] ->
  exists es k st', dequeue t st = Some (k, length es, st') /\ repr [] st' /\
    heap_ st ≡ₚ k :: heap_ st' /\ (forall x, x ∈ es <-> expired t st x) /\
    (forall x, x ∈ heap_ st ->
      effective es st k < effective es st x \/
      effective es st k = effective es st x /\ arrival st k <= arrival st x).
Proof.
  intros HR Hne.
  destruct (prio_dequeue_spec t st HR Hne) as (es & k & st' & Hd & HR' & Hp & _ & Hx & Hm).
  exists es, k, st'. done.
Qed.

(** Arrival numbers are in order: as long as the 64-bit counter has not wrapped,
    an added task gets a number greater than that of every queued task, keeps its
    priority (as an [int]) until it is promoted, and cancellation watches change no
    number; so tasks of equal priority leave in the order they came. *)
Theorem add_arrives_last t c k a st :
  repr [] st -> fresh_sequence st -> nextSequence_ st < size_max -> tasks st !! k = None ->
  let st' := add k a st in
  repr [] st' /\ heap_ st' ≡ₚ k :: heap_ st /\
  read 0 priority k (tasks st') = wrap32 (arg_priority a) /\
  (forall x, x ∈ heap_ st -> arrival st' x < arrival st' k) /\
  fresh_sequence st' /\ fresh_sequence (cancel t c st').1.
Proof.
  intros HR [Hn Hf] Hmax Hk st'.
  destruct (prio_enqueue_spec k (arg_fn a) (arg_priority a) (arg_deadline a) (arg_sources a) st HR Hk)
    as (HR' & Hp & Hs & Hn'). fold (add k a st) in HR', Hp, Hs, Hn'. fold st' in HR', Hp, Hs, Hn'.
  assert (Hkh : k ∉ heap_ st).
  { intros [t0 Ht0]%(heap_live st k (rp_prio _ _ HR)). congruence. }
  assert (Ek : arrival st' k = nextSequence_ st).
  { unfold arrival. rewrite (data_read 0 sequence k _ _) by (try exact Hs; done).
    by rewrite read_insert_eq. }
  assert (Ene : forall x, x <> k -> arrival st' x = arrival st x).
  { intros x Hx. unfold arrival. rewrite (data_read 0 sequence x _ _) by (try exact Hs; done).
    by rewrite read_insert_ne. }
  assert (En : nextSequence_ st' = nextSequence_ st + 1).
  { rewrite Hn'. unfold wrap64, size_max in *. apply Z.mod_small. lia. }
  assert (HF : fresh_sequence st').
  { split; [lia|]. intros x Hx. rewrite Hp in Hx. apply elem_of_cons in Hx as [->|Hx].
    - lia.
    - rewrite Ene by (intros ->; done). specialize (Hf x Hx). lia. }
  split_and!; try done.
  - rewrite (data_read 0 priority k _ _) by (try exact Hs; done). by rewrite read_insert_eq.
  - intros x Hx. rewrite Ene, Ek by (intros ->; done). by apply Hf.
  - by apply cancel_fresh.
Qed.

(** [heapPop], which overwrites the root with the last task and sifts it down, is
    the removal of slot 0 of the indexed heap: same task, same heap, same positions.
    So it keeps heap order and positions and returns a minimum. *)
Theorem heapPop_refines top h s :
  ordered h s -> head h = Some top ->
  exists h' s', heapPop h s = Some (top, h', s') /\
    (h', s') = heap_remove_at (H := priority_heap) 0 h s /\
    ordered h' s' /\ h ≡ₚ top :: h' /\ forall x, x ∈ h -> comesBefore s x top = false.
Proof.
  intros Ho Hh. assert (H0 : h !! 0%nat = Some top) by by destruct h.
  rewrite (heapPop_eq top) by done.
  destruct (heap_remove_at_spec (HL := priority_laws) 0 h s top Ho H0) as (Ho' & Hp & _).
  eexists _, _. split; [done|]. split; [by rewrite <- surjective_pairing|].
  split; [done|]. split; [done|]. intros x Hx.
  by apply (heap_root_min (HL := priority_laws) h s top x).
Qed.

(** The executor loop hands out the most urgent task: when a waiting executor of a
    reachable pool takes a task, that task was queued, the expired tasks were promoted
    first, no queued task is more urgent by (priority, arrival), and the others stay
    queued. *)
Theorem executor_takes_most_urgent e x (p p' : PriorityPool) k :
  reachable p -> execs p !! x = Some EWait -> executorLoop e x p = Some p' ->
  execs p' !! x = Some (EReset k) ->
  heap_ (queue_ p) ≡ₚ k :: heap_ (queue_ p') /\
  exists es, (forall y, y ∈ es <-> expired (now e) (queue_ p) y) /\
    forall y, y ∈ heap_ (queue_ p) ->
      effective es (queue_ p) k < effective es (queue_ p) y \/
      effective es (queue_ p) k = effective es (queue_ p) y /\
      arrival (queue_ p) k <= arrival (queue_ p) y.
Proof.
  intros Hr Hx Hs Hk. pose proof (reachable_repr p Hr) as HR.
  unfold executorLoop, executor_step in Hs. rewrite Hx in Hs.
  repeat (case_match; simplify_eq/=; rewrite ?lookup_insert_eq in Hk; simplify_eq/=).
  assert (Hne : heap_ (queue_ p) <> []) by (intros E; bool_to_prop; rewrite E in *; simpl in *; by destruct (done_ p), (targetExecutors_ p <? allocatedExecutors_ p)).
  destruct (prio_dequeue_spec (now e) (queue_ p) HR Hne) as (es & k' & st' & Hd & _ & Hp & _ & Hx' & Hm).
  simplify_eq. eauto.
Qed.

(** ** Three tasks with priorities 5, 3 and 3 *)
Definition args (f : nat) (prio : Z) (d : Deadline) : TaskArgs := mkTaskArgs f d [] prio.
Definition three : State :=
  add 12 (args 102 3 None) (add 11 (args 101 3 None) (add 10 (args 100 5 (Some 9)) empty)).

Lemma three_repr : repr [] three.
Proof.
  apply prio_enqueue_spec; [|vm_compute; reflexivity].
  apply prio_enqueue_spec; [|vm_compute; reflexivity].
  apply prio_enqueue_spec; [apply empty_repr|vm_compute; reflexivity].
Qed.

Lemma priority_dequeue_order_witness :
  (exists st', dequeue 1 three = Some (11, 0, st')%nat) /\
  (exists st', dequeue 9 three = Some (10, 1, st')%nat) /\
  exists es k st', dequeue 9 three = Some (k, length es, st') /\
    forall x, x ∈ heap_ three ->
      effective es three k < effective es three x \/
      effective es three k = effective es three x /\ arrival three k <= arrival three x.
Proof.
  split; [eexists; vm_compute; reflexivity|]. split; [eexists; vm_compute; reflexivity|].
  destruct (priority_dequeue_order 9 three) as (es & k & st' & Hd & _ & _ & _ & Hm).
  - apply three_repr.
  - vm_compute. discriminate.
  - exists es, k, st'. split; [exact Hd|exact Hm].
Defined.

Lemma add_arrives_last_witness :
  arrival (add 13 (args 103 3 None) three) 12 < arrival (add 13 (args 103 3 None) three) 13 /\
  fresh_sequence (add 13 (args 103 3 None) three).
Proof.
  destruct (add_arrives_last 0 0 13 (args 103 3 None) three) as (_ & _ & _ & Hx & Hf & _).
  - apply three_repr.
  - split; [vm_compute; discriminate|]. intros x Hx. vm_compute in Hx.
    repeat (apply elem_of_cons in Hx as [->|Hx]; [vm_compute; reflexivity|]).
    by apply elem_of_nil in Hx.
  - vm_compute. reflexivity.
  - vm_compute. reflexivity.
  - split; [apply Hx|exact Hf]. apply list_elem_of_In. vm_compute. tauto.
Defined.

Definition script_three : list action :=
  [AAdd (env 1) defaultContext 5 10 100; AAdd (env 1) defaultContext 3 11 101;
   AAdd (env 1) defaultContext 3 12 102].
Definition loaded : PriorityPool :=
  default initial (run (Q := State) (script_start ++ script_three) initial).

Lemma prio_loaded_reachable : reachable loaded.
Proof.
  unfold loaded. destruct (run (Q := State) (script_start ++ script_three) initial) eqn:E;
    [by eapply run_reachable|apply rtc_refl].
Qed.

Lemma executor_takes_most_urgent_witness :
  heap_ (queue_ loaded) ≡ₚ
    11%nat :: heap_ (queue_ (default loaded (executorLoop (env 2) 0 loaded))).
Proof.
  apply (executor_takes_most_urgent (env 2) 0 loaded (default loaded (executorLoop (env 2) 0 loaded)) 11);
    [apply prio_loaded_reachable|vm_compute; reflexivity..].
Defined.

Lemma heapPop_refines_witness :
  exists h' s', heapPop (heap_ three) (tasks three) = Some (11%nat, h', s') /\ ordered h' s'.
Proof.
  destruct (heapPop_refines 11 (heap_ three) (tasks three)) as (h' & s' & Hp & _ & Ho & _).
  - apply (rp_prio _ _ three_repr).
  - vm_compute. reflexivity.
  - exists h', s'. split; [exact Hp|exact Ho].
Defined.
End PriorityTaskPool.
