(* ===== verification/DelayPool.v ===== *)
(** * DelayPoolImpl

    runtime/pool/delaypool.hpp: callbacks that run after a delay, at their context's
    deadline or when their context is cancelled, whichever is first.  One scheduler
    coroutine owns a [std::multimap] of timers; [std::stop_callback]s run on arbitrary
    threads and only touch atomics and an intrusive inbox; every due task gets a
    coroutine of its own; [stop] waits for all of them.

    The pool is a transition system as in PoolCore.v: one step is one critical section
    under [mu] or one atomic access.  [delay] holds [mu] from the insertion of the timer
    to its return while stop callbacks go on firing, so its critical section is several
    steps ([admitting]), and every other critical section waits for it.  A task object
    is named by an identifier; [waiting] has the calls of [delay] that have built their
    task and not yet taken [mu], [firing] the stop callbacks in progress, [coros] the
    detached callback coroutines. *)
From Stdlib Require Import ZArith Lia.
From S2P Require Import Prelude Context.
Local Open Scope Z_scope.

Module Delay.

(** ** Time *)

(** [saturatedAdd]. *)
Definition saturatedAdd (now delayDuration : Z) : Z :=
  if delayDuration <=? 0 then now
  else if int64_max - now <=? delayDuration then int64_max else now + delayDuration.

(** [steady_clock::time_point::min()]. *)
Definition time_point_min : Z := int64_min.

(** ** The timer queue, a [std::multimap]: sorted, equal keys in insertion order *)
Abbreviation TimerQueue := (list (Z * nat)).

Fixpoint timers_insert (key : Z) (k : nat) (q : TimerQueue) : TimerQueue :=
  match q with
  | [] => [(key, k)]
  | (key', k') :: q' =>
      if key <? key' then (key, k) :: q else (key', k') :: timers_insert key k q'
  end.

(** [timers.extract(it)], the node of task [k]. *)
Definition timers_extract (k : nat) (q : TimerQueue) : TimerQueue :=
  filter (fun e => e.2 <> k) q.

(** ** State *)
Inductive DelayError :=
  | PoolStoppedError | PoolAlreadyStartedError | PoolNotStartedError
  | PoolCancelledError | PoolSelfStopError | AllocationFailed.

Inductive PoolState := kCreated | kRunning | kStopping | kStopped | kFailed.

#[export] Instance PoolState_eq_dec : EqDecision PoolState.
Proof. solve_decision. Defined.

(** The flags of a [DelayTask]; [queued] tells whether it has a timer, [subscribed]
    whether its stop callbacks are registered; [plannedAt], the time that [delay] computed for
    it, and [retriedAt], the time at which it was queued again after its dispatch had failed,
    are history. *)
Record DelayTask := mkDelayTask {
  contextDeadlineWins : bool;
  claimed : bool;
  cancelRequested : bool;
  queued : bool;
  admitted : bool;
  cancellationPublished : bool;
  subscribed : bool;
  retriedAt : option Z;
  plannedAt : Z;
}.

(** [schedulerLoop]. *)
Inductive SchedulerPc :=
  | ScDrain (last : bool)
  | ScDrainLoop (rest : list nat) (last : bool)
  | ScInspect | ScWait (next : option Z) | ScDispatch (k : nat) | ScRetry (k : nat)
  | ScPause | ScFinished.

(** A callback coroutine. *)
Inductive CoroPc := CStart | CClaim (expedited : bool) | CReset | CRun | CRetire | CDone.

(** A stop callback in progress, and [publishCancellation] in it. *)
Inductive FirePc := FCas | FLoad | FExchange | FPush | FSend.

(** The rest of [delay]'s critical section after the timer was inserted. *)
Inductive AdmitPc := AStore | ACheck | AExchange | APush | ASend | ABegin.

(** The [stop] call that owns the transition. *)
Inductive StopperPc := PIdle | PPending | PScheduler | PJoin | PTasks | PStore | PReturned.

#[export] Instance CoroPc_eq_dec : EqDecision CoroPc.
Proof. solve_decision. Defined.
#[export] Instance FirePc_eq_dec : EqDecision FirePc.
Proof. solve_decision. Defined.

Record Pool := mkPool {
  poolState : PoolState;
  pending : Z;
  timers : TimerQueue;
  cancelledHead : list nat;
  queueChanged : bool;
  schedulerStopping : bool;
  storage : bool;
  scheduler : option SchedulerPc;
  stopper : StopperPc;
  objects : gmap nat DelayTask;
  waiting : gmap nat (Z * bool);
  admitting : option (nat * AdmitPc);
  firing : list (nat * FirePc);
  coros : gmap nat (nat * CoroPc);
  accepted : list nat;
  executed : list nat;
}.

Record Env := mkEnv {
  now : Z;
  stopped : gset nat;
  allocation_ok : bool;
}.

(** ** Field writes *)
Definition set_contextDeadlineWins v t : DelayTask :=
  mkDelayTask v (claimed t) (cancelRequested t) (queued t) (admitted t)
    (cancellationPublished t) (subscribed t) (retriedAt t) (plannedAt t).
Definition set_claimed v t : DelayTask :=
  mkDelayTask (contextDeadlineWins t) v (cancelRequested t) (queued t) (admitted t)
    (cancellationPublished t) (subscribed t) (retriedAt t) (plannedAt t).
Definition set_cancelRequested v t : DelayTask :=
  mkDelayTask (contextDeadlineWins t) (claimed t) v (queued t) (admitted t)
    (cancellationPublished t) (subscribed t) (retriedAt t) (plannedAt t).
Definition set_queued v t : DelayTask :=
  mkDelayTask (contextDeadlineWins t) (claimed t) (cancelRequested t) v (admitted t)
    (cancellationPublished t) (subscribed t) (retriedAt t) (plannedAt t).
Definition set_admitted v t : DelayTask :=
  mkDelayTask (contextDeadlineWins t) (claimed t) (cancelRequested t) (queued t) v
    (cancellationPublished t) (subscribed t) (retriedAt t) (plannedAt t).
Definition set_cancellationPublished v t : DelayTask :=
  mkDelayTask (contextDeadlineWins t) (claimed t) (cancelRequested t) (queued t) (admitted
    t) v (subscribed t) (retriedAt t) (plannedAt t).
Definition set_subscribed v t : DelayTask :=
  mkDelayTask (contextDeadlineWins t) (claimed t) (cancelRequested t) (queued t) (admitted
    t) (cancellationPublished t) v (retriedAt t) (plannedAt t).
Definition set_retriedAt v t : DelayTask :=
  mkDelayTask (contextDeadlineWins t) (claimed t) (cancelRequested t) (queued t) (admitted
    t) (cancellationPublished t) (subscribed t) v (plannedAt t).
Definition retried (t : DelayTask) : bool := match retriedAt t with Some _ => true | None => false end.
Definition set_poolState v p : Pool :=
  mkPool v (pending p) (timers p) (cancelledHead p) (queueChanged p) (schedulerStopping p)
    (storage p) (scheduler p) (stopper p) (objects p) (waiting p) (admitting p) (firing p)
    (coros p) (accepted p) (executed p).
Definition set_pending v p : Pool :=
  mkPool (poolState p) v (timers p) (cancelledHead p) (queueChanged p) (schedulerStopping p)
    (storage p) (scheduler p) (stopper p) (objects p) (waiting p) (admitting p) (firing p)
    (coros p) (accepted p) (executed p).
Definition set_timers v p : Pool :=
  mkPool (poolState p) (pending p) v (cancelledHead p) (queueChanged p) (schedulerStopping
    p) (storage p) (scheduler p) (stopper p) (objects p) (waiting p) (admitting p) (firing
    p) (coros p) (accepted p) (executed p).
Definition set_cancelledHead v p : Pool :=
  mkPool (poolState p) (pending p) (timers p) v (queueChanged p) (schedulerStopping p)
    (storage p) (scheduler p) (stopper p) (objects p) (waiting p) (admitting p) (firing p)
    (coros p) (accepted p) (executed p).
Definition set_queueChanged v p : Pool :=
  mkPool (poolState p) (pending p) (timers p) (cancelledHead p) v (schedulerStopping p)
    (storage p) (scheduler p) (stopper p) (objects p) (waiting p) (admitting p) (firing p)
    (coros p) (accepted p) (executed p).
Definition set_schedulerStopping v p : Pool :=
  mkPool (poolState p) (pending p) (timers p) (cancelledHead p) (queueChanged p) v (storage
    p) (scheduler p) (stopper p) (objects p) (waiting p) (admitting p) (firing p) (coros p)
    (accepted p) (executed p).
Definition set_storage v p : Pool :=
  mkPool (poolState p) (pending p) (timers p) (cancelledHead p) (queueChanged p)
    (schedulerStopping p) v (scheduler p) (stopper p) (objects p) (waiting p) (admitting p)
    (firing p) (coros p) (accepted p) (executed p).
Definition set_scheduler v p : Pool :=
  mkPool (poolState p) (pending p) (timers p) (cancelledHead p) (queueChanged p)
    (schedulerStopping p) (storage p) v (stopper p) (objects p) (waiting p) (admitting p)
    (firing p) (coros p) (accepted p) (executed p).
Definition set_stopper v p : Pool :=
  mkPool (poolState p) (pending p) (timers p) (cancelledHead p) (queueChanged p)
    (schedulerStopping p) (storage p) (scheduler p) v (objects p) (waiting p) (admitting p)
    (firing p) (coros p) (accepted p) (executed p).
Definition set_objects v p : Pool :=
  mkPool (poolState p) (pending p) (timers p) (cancelledHead p) (queueChanged p)
    (schedulerStopping p) (storage p) (scheduler p) (stopper p) v (waiting p) (admitting p)
    (firing p) (coros p) (accepted p) (executed p).
Definition set_waiting v p : Pool :=
  mkPool (poolState p) (pending p) (timers p) (cancelledHead p) (queueChanged p)
    (schedulerStopping p) (storage p) (scheduler p) (stopper p) (objects p) v (admitting p)
    (firing p) (coros p) (accepted p) (executed p).
Definition set_admitting v p : Pool :=
  mkPool (poolState p) (pending p) (timers p) (cancelledHead p) (queueChanged p)
    (schedulerStopping p) (storage p) (scheduler p) (stopper p) (objects p) (waiting p) v
    (firing p) (coros p) (accepted p) (executed p).
Definition set_firing v p : Pool :=
  mkPool (poolState p) (pending p) (timers p) (cancelledHead p) (queueChanged p)
    (schedulerStopping p) (storage p) (scheduler p) (stopper p) (objects p) (waiting p)
    (admitting p) v (coros p) (accepted p) (executed p).
Definition set_coros v p : Pool :=
  mkPool (poolState p) (pending p) (timers p) (cancelledHead p) (queueChanged p)
    (schedulerStopping p) (storage p) (scheduler p) (stopper p) (objects p) (waiting p)
    (admitting p) (firing p) v (accepted p) (executed p).
Definition set_accepted v p : Pool :=
  mkPool (poolState p) (pending p) (timers p) (cancelledHead p) (queueChanged p)
    (schedulerStopping p) (storage p) (scheduler p) (stopper p) (objects p) (waiting p)
    (admitting p) (firing p) (coros p) v (executed p).
Definition set_executed v p : Pool :=
  mkPool (poolState p) (pending p) (timers p) (cancelledHead p) (queueChanged p)
    (schedulerStopping p) (storage p) (scheduler p) (stopper p) (objects p) (waiting p)
    (admitting p) (firing p) (coros p) (accepted p) v.

Definition initial : Pool :=
  mkPool kCreated 0 [] [] false false false None PIdle ∅ ∅ None [] ∅ [] [].

Definition modify (k : nat) (f : DelayTask -> DelayTask) (p : Pool) : Pool :=
  set_objects (alter f k (objects p)) p.
Definition flag (g : DelayTask -> bool) (k : nat) (p : Pool) : bool :=
  match objects p !! k with Some t => g t | None => false end.

Inductive outcome := Continue | Return (r : result DelayError unit).

(** [mu] is free. *)
Definition mu_free (p : Pool) : bool :=
  match admitting p with None => true | Some _ => false end.

(** ** start and stop *)

(** [ensureTaskStorageLocked]. *)
Definition ensureTaskStorageLocked (e : Env) (p : Pool) : result DelayError unit * Pool :=
  if storage p then (Ok tt, p)
  else if allocation_ok e
  then (Ok tt, p |> set_storage true |> set_scheduler (Some (ScDrain false)))
  else (Err AllocationFailed, set_poolState kFailed p).

Definition start (e : Env) (p : Pool) : Pool * outcome :=
  match poolState p with
  | kCreated =>
      match ensureTaskStorageLocked e p with
      | (Ok _, p1) => (set_poolState kRunning p1, Return (Ok tt))
      | (Err err, p1) => (p1, Return (Err err))
      end
  | kStopping | kStopped => (p, Return (Err PoolStoppedError))
  | kRunning | kFailed => (p, Return (Err PoolAlreadyStartedError))
  end.

(** The entry of [stop]; [inside] when the caller is a callback of this pool.  [None]
    while another call owns the transition. *)
Definition stop_call (inside : bool) (p : Pool) : option (Pool * outcome) :=
  if inside then Some (p, Return (Err PoolSelfStopError))
  else match poolState p with
       | kStopped => Some (p, Return (Ok tt))
       | kStopping => None
       | _ => Some (p |> set_poolState kStopping |> set_stopper PPending, Continue)
       end.

(** [finishStop]. *)
Definition stop_step (p : Pool) : option Pool :=
  match stopper p with
  | PIdle | PReturned => None
  | PPending =>
      if mu_free p && (pending p =? 0)
      then Some (set_stopper (match scheduler p with Some _ => PScheduler | None => PTasks end) p)
      else None
  | PScheduler =>
      if mu_free p
      then Some (p |> set_schedulerStopping true |> set_queueChanged true |> set_stopper PJoin)
      else None
  | PJoin =>
      match scheduler p with
      | Some ScFinished => Some (p |> set_scheduler None |> set_stopper PTasks)
      | _ => None
      end
  | PTasks =>
      if bool_decide (map_Forall (fun _ c => c.2 = CDone) (coros p))
      then Some (set_stopper PStore p) else None
  | PStore =>
      if mu_free p then Some (p |> set_poolState kStopped |> set_stopper PReturned) else None
  end.

(** ** delay *)

(** Until the task is built: when it is to run and whether its deadline decides that.
    [now] was read first, [now2] is the clock [ctx.cancelled()] reads. *)
Definition delay_plan (srcs : gset nat) (now now2 : Z) (ctx : ContextState) (d : Z)
    : result DelayError (Z * bool) :=
  if cancelled srcs now2 ctx then Err PoolCancelledError
  else
    let runAt := saturatedAdd now d in
    let '(runAt, wins) :=
      match deadline ctx with
      | Some dl => if dl <? runAt then (dl, true) else (runAt, false)
      | None => (runAt, false)
      end in
    if (runAt <=? now) && deadline_reached (deadline ctx) now
    then Err PoolCancelledError else Ok (runAt, wins).

Definition possible (ctx : ContextState) : bool :=
  existsb stop_possible (stopToken ctx :: externalCancellations ctx).

(** [delay] up to the lock: build task [k] and register its stop callbacks. *)
Definition delay_begin (e : Env) (now2 : Z) (ctx : ContextState) (d : Z) (k : nat) (p : Pool)
    : Pool * outcome :=
  match delay_plan (stopped e) (now e) now2 ctx d with
  | Err err => (p, Return (Err err))
  | Ok (runAt, wins) =>
      let immediate := runAt <=? now e in
      (p |> set_objects (<[k := mkDelayTask wins false false false false false
                                  (negb immediate && possible ctx) None runAt]> (objects p))
         |> set_waiting (<[k := (runAt, immediate)]> (waiting p)), Continue)
  end.

(** A call of [delay] ends without having admitted its task. *)
Definition discard (k : nat) (p : Pool) : Pool := set_waiting (delete k (waiting p)) p.

(** No stop callback of task [k] is in progress. *)
Definition quiet_callbacks (k : nat) (p : Pool) : bool :=
  bool_decide (Forall (fun f => f.1 <> k) (firing p)).

(** The task object of a failed call is destroyed: the destructors of its stop
    callbacks wait for those in progress. *)
Definition release (k : nat) (p : Pool) : option Pool :=
  if bool_decide (waiting p !! k = None) && negb (bool_decide (k ∈ accepted p)) &&
     quiet_callbacks k p
  then Some (modify k (set_subscribed false) p) else None.

(** [dispatch]: a coroutine [x] for task [k]. *)
Definition dispatch (x k : nat) (p : Pool) : Pool :=
  set_coros (<[x := (k, CStart)]> (coros p)) p.

(** The critical section of [delay] up to the insertion of the timer.  [None] while
    [mu] is taken. *)
Definition delay_lock (e : Env) (k x : nat) (p : Pool) : option (Pool * outcome) :=
  match (waiting p !! k : option (Z * bool)) with
  | None => None
  | Some (runAt, immediate) =>
      if negb (mu_free p) then None
      else
        let fail (err : DelayError) (q : Pool) : option (Pool * outcome) :=
          Some (discard k q, Return (Err err)) in
        match poolState p with
        | kStopping | kStopped => fail PoolStoppedError p
        | kFailed => fail PoolNotStartedError p
        | kCreated | kRunning =>
            match ensureTaskStorageLocked e p with
            | (Err err, p1) => fail err p1
            | (Ok _, p1) =>
                if negb (allocation_ok e) then fail AllocationFailed p1
                else if immediate
                then Some (p1 |> set_pending (pending p1 + 1) |> dispatch x k
                              |> set_waiting (delete k (waiting p1))
                              |> set_accepted (accepted p1 ++ [k]), Return (Ok tt))
                else
                  let key := if flag cancelRequested k p1 then time_point_min else runAt in
                  Some (p1 |> set_pending (pending p1 + 1)
                           |> set_timers (timers_insert key k (timers p1))
                           |> modify k (set_queued true)
                           |> set_waiting (delete k (waiting p1))
                           |> set_accepted (accepted p1 ++ [k])
                           |> set_admitting (Some (k, AStore)), Continue)
            end
        end
  end.

(** The rest of the critical section, with [publishCancellation] in it. *)
Definition admit_step (p : Pool) : option Pool :=
  match admitting p with
  | None => None
  | Some (k, pc) =>
      let goto pc q := set_admitting (Some (k, pc)) q in
      match pc with
      | AStore => Some (p |> modify k (set_admitted true) |> goto ACheck)
      | ACheck => Some (goto (if flag cancelRequested k p then AExchange else ABegin) p)
      | AExchange =>
          if flag cancellationPublished k p then Some (goto ABegin p)
          else Some (p |> modify k (set_cancellationPublished true) |> goto APush)
      | APush => Some (p |> set_cancelledHead (k :: cancelledHead p) |> goto ASend)
      | ASend => Some (p |> set_queueChanged true |> goto ABegin)
      | ABegin =>
          Some (p |> set_queueChanged (queueChanged p ||
                       bool_decide (snd <$> head (timers p) = Some k))
                  |> set_admitting None)
      end
  end.

(** ** Stop callbacks *)

(** A registered stop callback of task [k] starts. *)
Definition fire (k : nat) (p : Pool) : Pool := set_firing (firing p ++ [(k, FCas)]) p.

(** Progress of the stop callback at position [i]. *)
Definition fire_step (i : nat) (p : Pool) : option Pool :=
  match firing p !! i with
  | None => None
  | Some (k, pc) =>
      let goto pc q := set_firing (<[i := (k, pc)]> (firing p)) q in
      let finish q := set_firing (delete i (firing p)) q in
      match pc with
      | FCas =>
          Some (if flag cancelRequested k p then finish p
                else p |> modify k (set_cancelRequested true) |> goto FLoad)
      | FLoad => Some (if flag admitted k p then goto FExchange p else finish p)
      | FExchange =>
          Some (if flag cancellationPublished k p then finish p
                else p |> modify k (set_cancellationPublished true) |> goto FPush)
      | FPush => Some (p |> set_cancelledHead (k :: cancelledHead p) |> goto FSend)
      | FSend => Some (p |> set_queueChanged true |> finish)
      end
  end.

(** ** schedulerLoop *)

(** One iteration of [drainCancellations]: the timer of a cancelled task moves to the
    front of the queue. *)
Definition drain_one (k : nat) (p : Pool) : Pool :=
  if flag queued k p
  then set_timers (timers_insert time_point_min k (timers_extract k (timers p))) p
  else p.

Definition scheduler_step (e : Env) (x : nat) (p : Pool) : option Pool :=
  let goto pc q := Some (set_scheduler (Some pc) q) in
  match scheduler p with
  | None | Some ScFinished => None
  | Some (ScDrain last) => goto (ScDrainLoop (cancelledHead p) last) (set_cancelledHead [] p)
  | Some (ScDrainLoop [] last) => goto (if last then ScFinished else ScInspect) p
  | Some (ScDrainLoop (k :: rest) last) =>
      if mu_free p then goto (ScDrainLoop rest last) (drain_one k p) else None
  | Some ScInspect =>
      if negb (mu_free p) then None
      else if schedulerStopping p then goto (ScDrain true) p
      else match timers p with
           | [] => goto (ScWait None) p
           | (key, k) :: q =>
               if key <=? now e
               then goto (ScDispatch k) (p |> modify k (set_queued false) |> set_timers q)
               else goto (ScWait (Some key)) p
           end
  | Some (ScWait next) =>
      if queueChanged p then goto (ScDrain false) (set_queueChanged false p)
      else if deadline_reached next (now e) then goto (ScDrain false) p else None
  | Some (ScDispatch k) =>
      if allocation_ok e then goto (ScDrain false) (dispatch x k p) else goto (ScRetry k) p
  | Some (ScRetry k) =>
      if mu_free p
      then goto ScPause (p |> set_timers (timers_insert (now e) k (timers p))
                           |> modify k (fun t => set_queued true (set_retriedAt (Some (now e)) t)))
      else None
  | Some ScPause => goto (ScDrain false) (set_queueChanged false p)
  end.

(** ** execute *)
Definition coro_step (x : nat) (p : Pool) : option Pool :=
  match coros p !! x with
  | None => None
  | Some (k, pc) =>
      let goto pc q := Some (set_coros (<[x := (k, pc)]> (coros p)) q) in
      match pc with
      | CStart => goto (CClaim (flag contextDeadlineWins k p || flag cancelRequested k p)) p
      | CClaim _ =>
          if flag claimed k p then goto CDone p
          else goto CReset (modify k (set_claimed true) p)
      | CReset =>
          if quiet_callbacks k p then goto CRun (modify k (set_subscribed false) p) else None
      | CRun => goto CRetire (set_executed (executed p ++ [k]) p)
      | CRetire => if mu_free p then goto CDone (set_pending (pending p - 1) p) else None
      | CDone => None
      end
  end.

(** ** Steps *)
Inductive step : Pool -> Pool -> Prop :=
  | step_start e p p' o : mu_free p = true -> start e p = (p', o) -> step p p'
  | step_stop_call inside p p' o :
      mu_free p = true -> stop_call inside p = Some (p', o) -> step p p'
  | step_stop p p' : stop_step p = Some p' -> step p p'
  | step_begin e now2 ctx d k p p' o :
      objects p !! k = None -> delay_begin e now2 ctx d k p = (p', o) -> step p p'
  | step_lock e k x p p' o :
      coros p !! x = None -> delay_lock e k x p = Some (p', o) -> step p p'
  | step_admit p p' : admit_step p = Some p' -> step p p'
  | step_release k p p' : release k p = Some p' -> step p p'
  | step_fire k p : flag subscribed k p = true -> step p (fire k p)
  | step_firing i p p' : fire_step i p = Some p' -> step p p'
  | step_scheduler e x p p' :
      coros p !! x = None -> scheduler_step e x p = Some p' -> step p p'
  | step_coro x p p' : coro_step x p = Some p' -> step p p'.

Definition reachable (p : Pool) : Prop := rtc step initial p.
End Delay.
