(* ===== verification/DelayTheorems.v ===== *)
(** * What the delay pool promises

    Invariants of the transition system of DelayPool.v by induction on its steps, and
    the claims that follow: accepted callbacks run exactly once, [stop] returns after
    all of them, a cancellation is never lost, nothing runs before its time. *)
From Stdlib Require Import ZArith Lia.
From S2P Require Import Prelude Context DelayPool.
Import Delay.
Local Open Scope Z_scope.

(** Invert a step into the branches of the code. *)
Ltac split_step Hs :=
  repeat (match type of Hs with
  | context [match ?x with _ => _ end] => destruct x eqn:?
  end; simplify_eq; try done).

Ltac step_cases Hs :=
  destruct Hs as
    [ e p p' o Hmu Hs | inside p p' o Hmu Hs | p p' Hs | e now2 ctx d k p p' o Hnew Hs
    | e k x p p' o Hx Hs | p p' Hs | k p p' Hs | k p Hs | i p p' Hs | e x p p' Hx Hs | x p p' Hs ];
  unfold start, stop_call, stop_step, delay_begin, delay_lock,
    admit_step, release, fire_step, scheduler_step, coro_step, discard, dispatch,
    drain_one in Hs;
  try split_step Hs.

(** ** Timers *)

Lemma timers_insert_perm key k q : timers_insert key k q ≡ₚ (key, k) :: q.
Proof.
  induction q as [|[key' k'] q IH]; simpl; [done|]. destruct (_ <? _); [done|].
  rewrite IH. apply Permutation_swap.
Qed.

Lemma timers_insert_sorted key k q :
  StronglySorted (fun a b => a.1 <= b.1) q ->
  StronglySorted (fun a b => a.1 <= b.1) (timers_insert key k q).
Proof.
  induction 1 as [|[key' k'] q Hq IH Hall]; simpl.
  - repeat constructor.
  - destruct (Z.ltb_spec key key').
    + constructor; [by constructor|]. constructor; [simpl; lia|].
      eapply Forall_impl; [exact Hall|]. simpl. lia.
    + constructor; [done|]. rewrite timers_insert_perm. constructor; [simpl; lia|done].
Qed.

Lemma timers_extract_perm k q :
  NoDup q.*2 -> k ∈ q.*2 -> k :: (timers_extract k q).*2 ≡ₚ q.*2.
Proof.
  intros Hnd Hk.
  assert (E : (timers_extract k q).*2 = without k q.*2).
  { unfold timers_extract, without. clear. induction q as [|[key x] q IH]; [done|].
    rewrite fmap_cons. destruct (decide (x = k)) as [->|].
    - rewrite !filter_cons_False by (simpl; congruence). apply IH.
    - rewrite !filter_cons_True by done. by rewrite fmap_cons, IH. }
  rewrite E. symmetry. by apply without_perm.
Qed.

Lemma timers_extract_sorted k q :
  StronglySorted (fun a b : Z * nat => a.1 <= b.1) q ->
  StronglySorted (fun a b => a.1 <= b.1) (timers_extract k q).
Proof.
  unfold timers_extract. induction 1 as [|e q Hq IH Hall]; [constructor|].
  destruct (decide (e.2 = k)).
  - by rewrite filter_cons_False by congruence.
  - rewrite filter_cons_True by done. constructor; [done|].
    apply list.Forall_forall. intros y Hy. apply list_elem_of_filter in Hy as [_ Hy].
    by eapply list.Forall_forall in Hall.
Qed.

(** ** Accounting *)

(** The task in the scheduler's hands. *)
Definition hand (p : Pool) : list nat :=
  match scheduler p with Some (ScDispatch k) | Some (ScRetry k) => [k] | _ => [] end.
(** A coroutine that has not run its callback. *)
Definition unran (c : nat * CoroPc) : list nat :=
  match c.2 with CStart | CClaim _ | CReset | CRun => [c.1] | _ => [] end.
Definition retiring (c : nat * CoroPc) : bool :=
  match c.2 with CRetire => true | _ => false end.

Record accounting (p : Pool) : Prop := {
  ac_tasks : accepted p ≡ₚ (timers p).*2 ++ hand p ++ tally unran (coros p) ++ executed p;
  ac_nodup : NoDup (accepted p);
  ac_pending : pending p = Z.of_nat (length (accepted p)) - Z.of_nat (length (executed p)) +
                           count retiring (coros p);
  ac_queued : forall k, flag queued k p = true <-> k ∈ (timers p).*2;
  ac_sorted : StronglySorted (fun a b => a.1 <= b.1) (timers p);
  ac_claimed : forall k, flag claimed k p = true ->
    k ∈ executed p \/ exists x pc, coros p !! x = Some (k, pc) /\ (pc = CReset \/ pc = CRun);
  ac_waiting : forall k w, waiting p !! k = Some w ->
    k ∉ accepted p /\ is_Some (objects p !! k) /\
    flag claimed k p = false /\ flag admitted k p = false;
  ac_objects : forall k, k ∈ accepted p -> is_Some (objects p !! k);
  ac_storage : storage p = false -> scheduler p = None;
  ac_admitting : forall k pc, admitting p = Some (k, pc) -> k ∈ accepted p;
}.

Lemma delay_accounting_initial : accounting initial.
Proof.
  split; simpl; try done.
  - apply NoDup_nil_2.
  - intros k. split; [done|]. by intros ?%elem_of_nil.
  - apply SSorted_nil.
  - intros k. by intros ?%elem_of_nil.
Qed.

(** Writes to an object that the flag [g] does not see. *)
Lemma flag_keep g f n k (o : gmap nat DelayTask) :
  (forall t, g (f t) = g t) ->
  match alter f n o !! k with Some t => g t | None => false end =
  match o !! k with Some t => g t | None => false end.
Proof.
  intros Hg. destruct (decide (n = k)) as [->|]; [|by rewrite lookup_alter_ne].
  rewrite lookup_alter_eq. destruct (o !! k); simpl; auto.
Qed.

Lemma flag_alter g f n k (o : gmap nat DelayTask) :
  match alter f n o !! k with Some t => g t | None => false end =
  if decide (n = k) then match o !! k with Some t => g (f t) | None => false end
  else match o !! k with Some t => g t | None => false end.
Proof.
  case_decide as E; [subst n; rewrite lookup_alter_eq; by destruct (o !! k)|].
  by rewrite lookup_alter_ne.
Qed.

(** A step that accepts no task. *)
Lemma accounting_move p p' :
  accounting p -> accepted p' = accepted p ->
  (timers p').*2 ++ hand p' ++ tally unran (coros p') ++ executed p' ≡ₚ
    (timers p).*2 ++ hand p ++ tally unran (coros p) ++ executed p ->
  pending p' - count retiring (coros p') + Z.of_nat (length (executed p')) =
    pending p - count retiring (coros p) + Z.of_nat (length (executed p)) ->
  (forall k, flag queued k p' = true <-> k ∈ (timers p').*2) ->
  StronglySorted (fun a b => a.1 <= b.1) (timers p') ->
  (forall k, flag claimed k p' = true ->
    k ∈ executed p' \/ exists x pc, coros p' !! x = Some (k, pc) /\ (pc = CReset \/ pc = CRun)) ->
  (forall k w, waiting p' !! k = Some w -> waiting p !! k = Some w) ->
  (forall k, flag claimed k p' = true -> flag claimed k p = true \/ k ∈ accepted p) ->
  (forall k, flag admitted k p' = true -> flag admitted k p = true \/ k ∈ accepted p) ->
  (forall k, is_Some (objects p' !! k) <-> is_Some (objects p !! k)) ->
  (storage p' = false -> scheduler p' = None) ->
  (forall k pc, admitting p' = Some (k, pc) -> exists pc', admitting p = Some (k, pc')) ->
  accounting p'.
Proof.
  intros [] E1 E2 E3 F1 F2 F3 F4 F5 F6 F7 F8 F9. split; rewrite ?E1; try done.
  - by rewrite E2.
  - lia.
  - intros k w Hw. destruct (ac_waiting0 k w (F4 _ _ Hw)) as (H1 & H2 & H3 & H4).
    split; [done|]. split; [by apply F7|]. split.
    + destruct (flag claimed k p') eqn:E; [|done]. apply F5 in E as [E|E]; congruence.
    + destruct (flag admitted k p') eqn:E; [|done]. apply F6 in E as [E|E]; congruence.
  - intros k Hk. by apply F7, ac_objects0.
  - intros k pc Hk. apply F9 in Hk as [pc' Hk]. eauto.
Qed.

(** A step that moves no task at all. *)
Lemma delay_accounting_ext p p' :
  accounting p -> timers p' = timers p -> hand p' = hand p -> coros p' = coros p ->
  accepted p' = accepted p -> executed p' = executed p -> pending p' = pending p ->
  (storage p' = false -> scheduler p' = None) ->
  (forall k, flag queued k p' = flag queued k p) ->
  (forall k, flag claimed k p' = flag claimed k p) ->
  (forall k w, waiting p' !! k = Some w -> waiting p !! k = Some w) ->
  (forall k, flag admitted k p' = true -> flag admitted k p = true \/ k ∈ accepted p) ->
  (forall k, is_Some (objects p' !! k) <-> is_Some (objects p !! k)) ->
  (forall k pc, admitting p' = Some (k, pc) -> exists pc', admitting p = Some (k, pc')) ->
  accounting p'.
Proof.
  intros A E1 E2 E3 E4 E5 E6 E7 F1 F2 F3 F4 F5 F6.
  apply (accounting_move p p' A); rewrite ?E1, ?E2, ?E3, ?E4, ?E5, ?E6; auto; try apply A.
  - intros k. rewrite F1. apply A.
  - intros k. rewrite F2. apply A.
  - intros k. rewrite F2. auto.
Qed.

(** Side conditions of the frame lemmas. *)
Ltac by_hand :=
  unfold hand; simpl; first [reflexivity |
    match goal with Hs : scheduler _ = _ |- _ => rewrite Hs; reflexivity end].
Ltac by_storage A :=
  simpl; first [done | exact (ac_storage _ A) |
    let X := fresh in intros X; pose proof (ac_storage _ A X); congruence].
Ltac by_flag := intros; unfold flag, modify; simpl; first [reflexivity | apply flag_keep; done].
Ltac by_waiting :=
  intros ? ?; simpl; first [exact id |
    let X := fresh in intros X; apply lookup_delete_Some in X as [_ X]; exact X].
Ltac by_flag_left :=
  intros ?; unfold flag, modify; simpl; let X := fresh in intros X; left;
  first [exact X | rewrite flag_keep in X by done; exact X].
Ltac by_objects :=
  intros; unfold modify; simpl; first [reflexivity | apply lookup_alter_is_Some].
Ltac by_admitting :=
  intros ? ?; simpl; let X := fresh in intros X; first [eexists; exact X | simplify_eq; eauto].

Ltac untouched A :=
  apply (delay_accounting_ext _ _ A);
  [ reflexivity | by_hand | reflexivity | reflexivity | reflexivity | reflexivity
  | by_storage A | by_flag | by_flag | by_waiting | by_flag_left | by_objects | by_admitting ].

Lemma ensure_accounting e p r p1 :
  accounting p -> ensureTaskStorageLocked e p = (r, p1) ->
  accounting p1 /\ objects p1 = objects p /\ waiting p1 = waiting p /\
  coros p1 = coros p /\ accepted p1 = accepted p /\ match r with Ok _ => storage p1 = true | Err _ => True end.
Proof.
  intros A. unfold ensureTaskStorageLocked. destruct (storage p) eqn:E; intros; simplify_eq.
  { split_and!; auto. }
  pose proof (ac_storage _ A E). destruct (allocation_ok e); simplify_eq; split_and!; auto; untouched A.
Qed.

Lemma begin_accounting p k t w :
  accounting p -> objects p !! k = None ->
  claimed t = false -> queued t = false -> admitted t = false ->
  accounting (p |> set_objects (<[k := t]> (objects p)) |> set_waiting (<[k := w]> (waiting p))).
Proof.
  intros A Hk H1 H2 H3.
  assert (Hka : k ∉ accepted p) by (intros Hin; destruct (ac_objects _ A k Hin); congruence).
  assert (Hfl : forall g j, g t = false ->
    match <[k := t]> (objects p) !! j with Some t => g t | None => false end =
    match objects p !! j with Some t => g t | None => false end).
  { intros g j Hg. destruct (decide (k = j)) as [<-|].
    - by rewrite lookup_insert_eq, Hk.
    - by rewrite lookup_insert_ne. }
  destruct A. split; unfold flag in *; simpl; try done.
  - intros j. by rewrite Hfl.
  - intros j. rewrite Hfl by done. apply ac_claimed0.
  - intros j w' Hj. rewrite !Hfl by done. apply lookup_insert_Some in Hj as [[<- _]|[? Hj]].
    + split; [done|]. split; [by rewrite lookup_insert_eq|]. by rewrite Hk.
    + destruct (ac_waiting0 j w' Hj) as (? & ? & ? & ?). split_and!; try done.
      by rewrite lookup_insert_ne.
  - intros j Hj. rewrite lookup_insert_ne; [auto|]. by intros ->.
Qed.

Section Accept.
Variables (p : Pool) (k : nat) (w : Z * bool).
Hypotheses (A : accounting p) (Hw : waiting p !! k = Some w).

Lemma accept_nodup : NoDup (accepted p ++ [k]).
Proof.
  destruct (ac_waiting _ A k w Hw) as (Hk & _). apply NoDup_app. split; [apply A|].
  split; [|apply NoDup_singleton]. by intros y Hy ->%list_elem_of_singleton.
Qed.

Lemma accept_waiting f j w' :
  (forall t, claimed (f t) = claimed t) -> (forall t, admitted (f t) = admitted t) ->
  delete k (waiting p) !! j = Some w' ->
  j ∉ accepted p ++ [k] /\ is_Some (alter f k (objects p) !! j) /\
  match alter f k (objects p) !! j with Some t => claimed t | None => false end = false /\
  match alter f k (objects p) !! j with Some t => admitted t | None => false end = false.
Proof.
  intros H1 H2 [Hne Hj]%lookup_delete_Some.
  destruct (ac_waiting _ A j w' Hj) as (? & ? & ? & ?).
  rewrite !flag_keep by done. split_and!; try done.
  - rewrite elem_of_app, list_elem_of_singleton. intros [?| ->]; done.
  - by rewrite lookup_alter_ne.
Qed.

Lemma accept_dispatch x :
  coros p !! x = None -> storage p = true ->
  accounting (p |> set_pending (pending p + 1) |> dispatch x k
                |> set_waiting (delete k (waiting p)) |> set_accepted (accepted p ++ [k])).
Proof.
  intros Hx Hst. pose proof accept_nodup. pose proof accept_waiting as HW.
  pose proof (ac_waiting _ A k w Hw) as (Hk & Ho & Hcl & _).
  destruct A. split; unfold hand in *; simpl; try done.
  - rewrite ac_tasks0. rewrite (tally_new unran _ x (k, CStart) Hx). simpl. solve_Permutation.
  - rewrite length_app, (count_new retiring _ x (k, CStart) Hx). simpl. lia.
  - intros j Hj. destruct (ac_claimed0 j Hj) as [?|(y & pc & Hy & Hpc)]; [by left|].
    right. exists y, pc. split; [|done]. rewrite lookup_insert_ne; congruence.
  - intros j w' Hj. specialize (HW id j w'). rewrite alter_id in HW by done. by apply HW.
  - intros j [?|Hj]%elem_of_app; [auto|]. by apply list_elem_of_singleton in Hj as ->.
  - intros j pc Hj. apply elem_of_app. left. eauto.
Qed.

Lemma accept_timer key :
  storage p = true ->
  accounting (p |> set_pending (pending p + 1) |> set_timers (timers_insert key k (timers p))
                |> modify k (set_queued true) |> set_waiting (delete k (waiting p))
                |> set_accepted (accepted p ++ [k]) |> set_admitting (Some (k, AStore))).
Proof.
  intros Hst. pose proof accept_nodup. pose proof (accept_waiting (set_queued true)) as HW.
  pose proof (ac_waiting _ A k w Hw) as (Hk & [t Ho] & Hcl & _).
  destruct A. split; unfold hand, flag, modify in *; simpl; try done.
  - rewrite ac_tasks0, timers_insert_perm. simpl. solve_Permutation.
  - rewrite length_app. simpl. lia.
  - intros j. rewrite flag_alter, timers_insert_perm. simpl. rewrite elem_of_cons.
    case_decide as E; [subst j|].
    + rewrite Ho. simpl. naive_solver.
    + rewrite ac_queued0. naive_solver.
  - by apply timers_insert_sorted.
  - intros j. rewrite flag_keep by done. apply ac_claimed0.
  - intros j w' Hj. by apply HW in Hj.
  - intros j Hj. rewrite lookup_alter_is_Some. apply elem_of_app in Hj as [?|Hj]; [auto|].
    by apply list_elem_of_singleton in Hj as ->.
  - intros j pc Hj. simplify_eq. apply elem_of_app. right. left.
Qed.
End Accept.

Lemma tasks_nodup p :
  accounting p -> NoDup ((timers p).*2 ++ hand p ++ tally unran (coros p) ++ executed p).
Proof. intros A. rewrite <- (ac_tasks _ A). apply A. Qed.

(** Coroutine [x] of task [n] moves on without running the callback. *)
Lemma coro_move p x n pc pc' f :
  accounting p -> coros p !! x = Some (n, pc) -> unran (n, pc) = unran (n, pc') ->
  retiring (n, pc) = retiring (n, pc') ->
  (forall t, queued (f t) = queued t) -> (forall t, admitted (f t) = admitted t) ->
  (forall k, flag claimed k (modify n f p) = true ->
    k ∈ executed p \/ exists y q, <[x := (n, pc')]> (coros p) !! y = Some (k, q) /\
                                (q = CReset \/ q = CRun)) ->
  (forall k, flag claimed k (modify n f p) = true -> flag claimed k p = true \/ k ∈ accepted p) ->
  accounting (set_coros (<[x := (n, pc')]> (coros p)) (modify n f p)).
Proof.
  intros A Hx Hu Hr Hq Ha Hc Hc'. apply (accounting_move _ _ A); try reflexivity; try done.
  - simpl. by rewrite (tally_insert unran (coros p) x), (tally_delete unran _ x _ Hx), Hu.
  - simpl. rewrite (count_update retiring _ x _ (n, pc') Hx), Hr. lia.
  - intros k. unfold flag, modify. simpl. rewrite flag_keep by done. apply (ac_queued _ A).
  - apply A.
  - by_flag_left.
  - by_objects.
  - apply (ac_storage _ A).
  - by_admitting.
Qed.

Lemma unran_accepted p x n pc :
  accounting p -> coros p !! x = Some (n, pc) -> n ∈ unran (n, pc) ->
  n ∈ accepted p /\ n ∉ executed p.
Proof.
  intros A Hx Hu. pose proof (tasks_nodup p A) as Hnd. rewrite (ac_tasks _ A).
  rewrite (tally_delete unran _ x _ Hx) in Hnd |- *. split; [set_solver|].
  intros He. apply NoDup_app in Hnd as (_ & _ & Hnd). apply NoDup_app in Hnd as (_ & _ & Hnd).
  apply NoDup_app in Hnd as (_ & Hd & _). apply (Hd n); [set_solver|done].
Qed.

(** Nobody claims a task twice. *)
Lemma unclaimed p x n e :
  accounting p -> coros p !! x = Some (n, CClaim e) -> flag claimed n p = false.
Proof.
  intros A Hx. destruct (flag claimed n p) eqn:E; [|done]. exfalso.
  destruct (unran_accepted p x n _ A Hx) as [_ Hne]; [by left|].
  destruct (ac_claimed _ A n E) as [?|(y & pc & Hy & Hpc)]; [done|].
  assert (Hxy : x <> y) by (intros ->; destruct_or?; congruence).
  pose proof (tasks_nodup p A) as Hnd. rewrite (tally_delete unran _ x _ Hx) in Hnd.
  assert (Hy' : delete x (coros p) !! y = Some (n, pc)) by by rewrite lookup_delete_ne.
  rewrite (tally_delete unran _ y _ Hy') in Hnd.
  apply NoDup_app in Hnd as (_ & _ & Hnd). apply NoDup_app in Hnd as (_ & _ & Hnd).
  apply NoDup_app in Hnd as (Hnd & _). apply NoDup_app in Hnd as (_ & Hd & _).
  apply (Hd n); [by left|]. apply elem_of_app. left. destruct_or?; subst; by left.
Qed.

Lemma claimed_elsewhere p x n pc k pc' :
  accounting p -> coros p !! x = Some (n, pc) -> pc <> CReset -> pc <> CRun ->
  flag claimed k p = true ->
  k ∈ executed p \/ exists y q, <[x := (n, pc')]> (coros p) !! y = Some (k, q) /\
                              (q = CReset \/ q = CRun).
Proof.
  intros A Hx H1 H2 Hk. destruct (ac_claimed _ A k Hk) as [?|(y & q & Hy & Hq)]; [by left|].
  right. exists y, q. split; [|done]. rewrite lookup_insert_ne; [done|].
  intros ->. destruct_or?; congruence.
Qed.

Lemma drain_accounting p n l last :
  accounting p -> scheduler p = Some (ScDrainLoop (n :: l) last) ->
  accounting (set_scheduler (Some (ScDrainLoop l last))
    (if flag queued n p
     then set_timers (timers_insert time_point_min n (timers_extract n (timers p))) p else p)).
Proof.
  intros A Hsc. destruct (flag queued n p) eqn:Hq; [|untouched A].
  apply (ac_queued _ A) in Hq.
  assert (Hp : (timers_insert time_point_min n (timers_extract n (timers p))).*2 ≡ₚ (timers p).*2).
  { rewrite timers_insert_perm. simpl. apply timers_extract_perm; [|done].
    by destruct (proj1 (NoDup_app _ _) (tasks_nodup p A)) as (? & _). }
  apply (accounting_move _ _ A); try reflexivity; try done.
  - simpl. rewrite Hp. by_hand.
  - intros k. simpl. rewrite Hp. apply (ac_queued _ A).
  - simpl. apply timers_insert_sorted, timers_extract_sorted, A.
  - apply A.
  - by left.
  - by left.
  - by_storage A.
  - by_admitting.
Qed.

Lemma inspect_accounting p z n l :
  accounting p -> scheduler p = Some ScInspect -> timers p = (z, n) :: l ->
  accounting (set_scheduler (Some (ScDispatch n))
    (set_timers l (modify n (set_queued false) p))).
Proof.
  intros A Hsc Ht. pose proof (tasks_nodup p A) as Hnd.
  apply NoDup_app in Hnd as (Hnd & _). rewrite Ht in Hnd. simpl in Hnd.
  apply NoDup_cons in Hnd as [Hn _].
  apply (accounting_move _ _ A); try reflexivity; try done.
  - unfold hand. simpl. rewrite Hsc, Ht. simpl. solve_Permutation.
  - intros k. unfold flag, modify. simpl. rewrite flag_alter. case_decide as E; [subst k|].
    + destruct (objects p !! n); simpl; split; done.
    + pose proof (ac_queued _ A k) as Hq. unfold flag in Hq. rewrite Hq, Ht. simpl.
      rewrite elem_of_cons. split; [intros [?|?]; [congruence|done]|auto].
  - simpl. pose proof (ac_sorted _ A) as Hs. rewrite Ht in Hs. by apply StronglySorted_inv in Hs as [? _].
  - intros k. unfold flag, modify. simpl. rewrite flag_keep by done. apply A.
  - by_flag_left.
  - by_flag_left.
  - by_objects.
  - by_storage A.
  - by_admitting.
Qed.

Lemma hand_over_accounting p x k :
  accounting p -> scheduler p = Some (ScDispatch k) -> coros p !! x = None ->
  accounting (set_scheduler (Some (ScDrain false))
    (set_coros (<[x := (k, CStart)]> (coros p)) p)).
Proof.
  intros A Hsc Hx. apply (accounting_move _ _ A); try reflexivity; try done.
  - unfold hand. simpl. rewrite Hsc, (tally_new unran _ x (k, CStart) Hx). simpl. solve_Permutation.
  - simpl. rewrite (count_new retiring _ x (k, CStart) Hx). simpl. lia.
  - apply A.
  - apply A.
  - intros j Hj. destruct (ac_claimed _ A j Hj) as [?|(y & pc & Hy & Hpc)]; [by left|].
    right. exists y, pc. split; [|done]. simpl. rewrite lookup_insert_ne; congruence.
  - by left.
  - by left.
  - by_storage A.
  - by_admitting.
Qed.

Lemma retry_accounting p t k :
  accounting p -> scheduler p = Some (ScRetry k) ->
  accounting (set_scheduler (Some ScPause)
    (modify k (fun o => set_queued true (set_retriedAt (Some t) o))
       (set_timers (timers_insert t k (timers p)) p))).
Proof.
  intros A Hsc.
  assert (Hk : k ∈ accepted p) by (rewrite (ac_tasks _ A); unfold hand; rewrite Hsc; set_solver).
  destruct (ac_objects _ A k Hk) as [o Ho].
  apply (accounting_move _ _ A); try reflexivity; try done.
  - unfold hand. simpl. rewrite Hsc, timers_insert_perm. simpl. solve_Permutation.
  - intros j. unfold flag, modify. simpl. rewrite flag_alter, timers_insert_perm. simpl.
    rewrite elem_of_cons. pose proof (ac_queued _ A j) as Hq. unfold flag in Hq.
    case_decide as E; [subst j; rewrite Ho; simpl; tauto|]. rewrite Hq.
    split; [auto|intros [?|?]; [congruence|done]].
  - simpl. apply timers_insert_sorted, A.
  - intros j. unfold flag, modify. simpl. rewrite flag_keep by done. apply A.
  - by_flag_left.
  - by_flag_left.
  - by_objects.
  - by_storage A.
  - by_admitting.
Qed.

Lemma ran_accounting p x n :
  accounting p -> coros p !! x = Some (n, CRun) ->
  accounting (set_coros (<[x := (n, CRetire)]> (coros p)) (set_executed (executed p ++ [n]) p)).
Proof.
  intros A Hx. apply (accounting_move _ _ A); try reflexivity; try done.
  - simpl. unfold hand. simpl.
    rewrite (tally_insert unran (coros p) x), (tally_delete unran _ x _ Hx). simpl.
    solve_Permutation.
  - simpl. rewrite (count_update retiring _ x _ (n, CRetire) Hx), length_app. simpl. lia.
  - apply A.
  - apply A.
  - intros k Hk. simpl. destruct (decide (k = n)) as [->|]; [left; set_solver|].
    destruct (ac_claimed _ A k Hk) as [?|(y & q & Hy & Hq)]; [left; set_solver|right].
    exists y, q. rewrite lookup_insert_ne; [done|]. intros ->. congruence.
  - by left.
  - by left.
  - apply (ac_storage _ A).
  - by_admitting.
Qed.

Lemma retire_accounting p x n :
  accounting p -> coros p !! x = Some (n, CRetire) ->
  accounting (set_coros (<[x := (n, CDone)]> (coros p)) (set_pending (pending p - 1) p)).
Proof.
  intros A Hx. apply (accounting_move _ _ A); try reflexivity; try done.
  - simpl. unfold hand. simpl.
    by rewrite (tally_insert unran (coros p) x), (tally_delete unran _ x _ Hx).
  - simpl. rewrite (count_update retiring _ x _ (n, CDone) Hx). simpl. lia.
  - apply A.
  - apply A.
  - intros k Hk. by apply (claimed_elsewhere p x n CRetire).
  - by left.
  - by left.
  - apply (ac_storage _ A).
  - by_admitting.
Qed.

Lemma modify_id n p : modify n id p = p.
Proof. unfold modify. rewrite alter_id by done. by destruct p. Qed.
Lemma delay_accounting_step p p' : accounting p -> step p p' -> accounting p'.
Proof.
  intros A Hs. step_cases Hs.
  all: try (destruct (ensure_accounting _ _ _ _ A ltac:(eassumption)) as
    (A1 & Eo & Ew & Ec & Ea & Est)).
  all: try exact A1.
  all: try (untouched A; fail).
  all: try (untouched A1; fail).
  all: try (repeat split_case; untouched A; fail).
  all: try (eapply accept_dispatch; [done|by rewrite Ew|by rewrite Ec|done]; fail).
  all: try (eapply accept_timer; [done|by rewrite Ew|done]; fail).
  - by apply begin_accounting.
  - (* AStore *) apply (delay_accounting_ext _ _ A); try reflexivity.
    + apply (ac_storage _ A).
    + by_flag.
    + by_flag.
    + done.
    + intros k. unfold flag, modify. simpl. rewrite flag_alter.
      case_decide as E; [subst k; intros _; right; by eapply ac_admitting|by left].
    + by_objects.
    + by_admitting.
  - (* drain *) by eapply drain_accounting.
  - (* inspect *) by eapply inspect_accounting.
  - (* dispatch *) by eapply hand_over_accounting.
  - (* retry *) by eapply retry_accounting.
  - rewrite <- (modify_id n p). eapply (coro_move p x n CStart); try done; intros k;
      rewrite ?modify_id; [|by left]. by eapply claimed_elsewhere.
  - exfalso. by rewrite (unclaimed p x n _ A Heqo) in *.
  - eapply (coro_move p x n (CClaim expedited)); try done; intros k.
    + unfold flag, modify. simpl. rewrite flag_alter. case_decide as E; [subst k; intros _|].
      * right. exists x, CReset. rewrite lookup_insert_eq. auto.
      * intros Hk. by eapply claimed_elsewhere.
    + unfold flag, modify. simpl. rewrite flag_alter. case_decide as E; [subst k|by left].
      intros _. right. eapply unran_accepted; [done..|by left].
  - eapply (coro_move p x n CReset); try done; intros k; unfold flag, modify; simpl;
      rewrite flag_keep by done; [|by left]. intros Hk.
    destruct (ac_claimed _ A k Hk) as [?|(y & q & Hy & Hq)]; [by left|right].
    destruct (decide (y = x)) as [->|].
    + exists x, CRun. rewrite lookup_insert_eq. split; [congruence|auto].
    + exists y, q. by rewrite lookup_insert_ne.
  - (* ran *) by eapply ran_accounting.
  - (* retire *) by eapply retire_accounting.
Qed.

(** Rule induction over the steps of the pool. *)
Lemma reachable_inv (I : Pool -> Prop) :
  I initial -> (forall q q', reachable q -> I q -> step q q' -> I q') ->
  forall p, reachable p -> I p.
Proof.
  intros H0 Hi p Hr. assert (Hb : reachable p /\ I p); [|tauto]. revert p Hr.
  apply (rtc_ind_r (fun p => reachable p /\ I p)).
  - split; [apply rtc_refl|done].
  - intros q q' _ Hs [Hr H]. split; [by eapply rtc_r|by eapply Hi].
Qed.

Lemma delay_reachable_accounting p : reachable p -> accounting p.
Proof.
  revert p. apply reachable_inv; [apply delay_accounting_initial|]. intros; by eapply delay_accounting_step.
Qed.

(** ** Lifecycle *)

Lemma ensure_inv e p r p1 :
  ensureTaskStorageLocked e p = (r, p1) ->
  r = Ok tt /\ storage p = true /\ p1 = p \/
  r = Ok tt /\ storage p = false /\
    p1 = set_scheduler (Some (ScDrain false)) (set_storage true p) \/
  r = Err AllocationFailed /\ storage p = false /\ p1 = set_poolState kFailed p.
Proof.
  unfold ensureTaskStorageLocked. destruct (storage p), (allocation_ok e); intros; simplify_eq; auto.
Qed.

Ltac ensure_cases :=
  repeat match goal with
  | He : ensureTaskStorageLocked _ _ = _ |- _ =>
      apply ensure_inv in He as [(? & ? & ->)|[(? & ? & ->)|(? & ? & ->)]]; simplify_eq; try done
  end.

(** The scheduler is on its last pass. *)
Definition last_pass (s : option SchedulerPc) : bool :=
  match s with
  | Some (ScDrain true) | Some (ScDrainLoop _ true) | Some ScFinished => true
  | _ => false
  end.

(** [stop] has seen [pending] at zero. *)
Definition past_pending (s : StopperPc) : bool :=
  match s with PIdle | PPending => false | _ => true end.

Record lifecycle (p : Pool) : Prop := {
  lc_stopper : match stopper p with
               | PIdle => poolState p <> kStopping /\ poolState p <> kStopped
               | PReturned => poolState p = kStopped
               | _ => poolState p = kStopping
               end;
  lc_pending : past_pending (stopper p) = true -> pending p = 0 /\ admitting p = None;
  lc_scheduler : match stopper p with
                 | PTasks | PStore | PReturned => scheduler p = None
                 | _ => scheduler p = None -> storage p = false
                 end;
  lc_stopping : schedulerStopping p = true ->
                match stopper p with PIdle | PPending | PScheduler => False | _ => True end;
  lc_last : last_pass (scheduler p) = true -> schedulerStopping p = true;
  lc_storage : storage p = false -> accepted p = [] /\ scheduler p = None;
}.

Lemma lifecycle_initial : lifecycle initial.
Proof. split; simpl; done. Qed.

Lemma pending_zero p :
  accounting p -> pending p = 0 ->
  timers p = [] /\ hand p = [] /\ (forall x c, coros p !! x = Some c -> c.2 = CDone) /\
  executed p ≡ₚ accepted p.
Proof.
  intros A Hz. pose proof (ac_pending _ A) as Hp. pose proof (ac_tasks _ A) as Ht.
  pose proof (count_nonneg retiring (coros p)). rewrite Ht in Hp. rewrite !length_app, length_fmap in Hp.
  assert (timers p = []) as E1 by (apply length_zero_iff_nil; lia).
  assert (hand p = []) as E2 by (apply length_zero_iff_nil; lia).
  assert (tally unran (coros p) = []) as E3 by (apply length_zero_iff_nil; lia).
  split_and!; try done; [|by rewrite Ht, E1, E2, E3].
  intros x [k pc] Hx. simpl.
  assert (Hnr : retiring (k, pc) = false).
  { destruct (retiring (k, pc)) eqn:E; [|done].
    assert (1 <= count retiring (coros p)) by (apply count_pos; eauto). lia. }
  assert (Hnu : unran (k, pc) = []).
  { destruct (unran (k, pc)) as [|y l] eqn:E; [done|].
    assert (Hin : y ∈ tally unran (coros p)) by (apply elem_of_tally; exists x, (k, pc); rewrite E; set_solver).
    rewrite E3 in Hin. by apply elem_of_nil in Hin. }
  by destruct pc.
Qed.

Lemma delay_lifecycle_ext p p' :
  lifecycle p -> stopper p' = stopper p -> poolState p' = poolState p ->
  schedulerStopping p' = schedulerStopping p -> storage p' = storage p ->
  accepted p' = accepted p ->
  (past_pending (stopper p) = true -> pending p = 0 -> pending p' = 0) ->
  (admitting p = None -> admitting p' = None) ->
  (scheduler p' = None <-> scheduler p = None) ->
  (last_pass (scheduler p') = true -> last_pass (scheduler p) = true \/ schedulerStopping p = true) ->
  lifecycle p'.
Proof.
  intros [] E1 E2 E3 E4 E5 F1 F2 F3 F4. split; rewrite ?E1, ?E2, ?E3, ?E4, ?E5; try done.
  - intros Hp. destruct (lc_pending0 Hp). auto.
  - destruct (stopper p); rewrite ?F3; auto.
  - intros Hl. destruct (F4 Hl); auto.
  - intros Hs. rewrite F3. auto.
Qed.

Lemma idle p :
  lifecycle p -> poolState p = kCreated \/ poolState p = kRunning \/ poolState p = kFailed ->
  stopper p = PIdle.
Proof.
  intros L Hp. pose proof (lc_stopper _ L) as Hs. destruct (stopper p); try done;
    destruct_or?; congruence.
Qed.

Ltac same_control L :=
  apply (delay_lifecycle_ext _ _ L); try reflexivity;
  [ .. | try (match goal with Hs : scheduler _ = _ |- _ => rewrite Hs end); simpl; tauto ];
  simpl; try (match goal with Hs : scheduler _ = _ |- _ => rewrite Hs end); try done; try tauto.

Lemma delay_lifecycle_step p p' : accounting p -> lifecycle p -> step p p' -> lifecycle p'.
Proof.
  intros A L Hs. step_cases Hs; ensure_cases.
  all: repeat match goal with |- context [if flag ?g ?k ?p then _ else _] =>
    destruct (flag g k p) end.
  all: try exact L.
  all: try (same_control L; fail).
  all: try (assert (Hi : stopper p = PIdle) by (eapply idle; eauto); destruct L;
    split; simpl in *; rewrite Hi in *; simpl in *; try done; intuition congruence).
  all: try (apply (delay_lifecycle_ext _ _ L); try reflexivity; simpl; auto; congruence).
  all: try (destruct last0; same_control L; fail).
  6: { apply (delay_lifecycle_ext _ _ L); try reflexivity; simpl; auto. intros _ Hz.
    destruct (pending_zero p A Hz) as (_ & _ & Hd & _). by specialize (Hd x (n, CRetire) Heqo). }
  all: destruct L; unfold mu_free in *; bool_to_prop;
    repeat match goal with E : stopper _ = _ |- _ => rewrite E in *; clear E end; simpl in *.
  all: try destruct (admitting p) eqn:?; try done.
  all: try destruct (scheduler p) eqn:?; split; simpl in *; try done; try solve [intuition congruence].
  all: by match goal with E : scheduler _ = _ |- _ => rewrite E end.
Qed.

Lemma reachable_lifecycle p : reachable p -> lifecycle p.
Proof.
  revert p. apply reachable_inv; [apply lifecycle_initial|].
  intros; eapply delay_lifecycle_step; [by apply delay_reachable_accounting|done..].
Qed.
