(* ===== verification/DelayCancellation.v ===== *)
(** * Cancellation in the delay pool

    The handshake of a stop callback ([cancelRequested], then [admitted]) with the
    admission of its task ([admitted], then [cancelRequested]), the intrusive inbox and
    its consumer.  The steps of DelayPool.v interleave sequentially consistent accesses;
    under them no cancellation is lost. *)
From Stdlib Require Import ZArith Lia.
From S2P Require Import Prelude Context DelayPool DelayTheorems.
Import Delay.
Local Open Scope Z_scope.

(** ** Positions in a list *)
Lemma elem_of_insert_cases {A} (l : list A) i x y : y ∈ <[i := x]> l -> y = x \/ y ∈ l.
Proof.
  intros [j Hj]%list_elem_of_lookup. apply list_lookup_insert_Some in Hj as [(-> & -> & _)|[_ Hj]];
    [by left|]. right. by eapply list_elem_of_lookup_2.
Qed.

Lemma elem_of_delete_cases {A} (l : list A) i y : y ∈ delete i l -> y ∈ l.
Proof.
  intros [j Hj]%list_elem_of_lookup. rewrite list_lookup_delete in Hj.
  by eapply list_elem_of_lookup_2.
Qed.

Lemma elem_of_insert_keep {A} (l : list A) i x y z :
  l !! i = Some z -> y ∈ l -> y = z \/ y ∈ <[i := x]> l.
Proof.
  intros Hi [j Hj]%list_elem_of_lookup. destruct (decide (i = j)) as [->|]; [left; congruence|].
  right. eapply (list_elem_of_lookup_2 _ j). by rewrite list_lookup_insert_ne.
Qed.

Lemma elem_of_insert_new {A} (l : list A) i x z : l !! i = Some z -> x ∈ <[i := x]> l.
Proof.
  intros Hi. apply (list_elem_of_lookup_2 _ i). apply list_lookup_insert_eq.
  by eapply lookup_lt_Some.
Qed.

Lemma elem_of_delete_keep {A} (l : list A) i y z :
  l !! i = Some z -> y ∈ l -> y = z \/ y ∈ delete i l.
Proof.
  intros Hi Hy. rewrite (delete_Permutation _ _ _ Hi) in Hy. by apply elem_of_cons in Hy.
Qed.

(** ** Flags *)
Lemma flag_modify g f n k p :
  flag g k (modify n f p) =
  if decide (n = k) then match objects p !! k with Some t => g (f t) | None => false end
  else flag g k p.
Proof. unfold flag, modify. simpl. apply flag_alter. Qed.

Definition publishing (pc : FirePc) : bool :=
  match pc with FExchange | FPush | FSend => true | _ => false end.

(** ** Who may touch a task *)
Record callbacks (p : Pool) : Prop := {
  cb_firing : forall k pc, (k, pc) ∈ firing p -> flag subscribed k p = true;
  cb_publishing : forall k pc, (k, pc) ∈ firing p -> publishing pc = true ->
    flag admitted k p = true;
  cb_executed : forall k, flag subscribed k p = true -> k ∉ executed p;
  cb_running : forall k x, flag subscribed k p = true -> coros p !! x <> Some (k, CRun);
  cb_admitted : forall k, flag admitted k p = true -> k ∈ accepted p;
  cb_published : forall k, flag cancellationPublished k p = true -> flag admitted k p = true;
  cb_phase : forall k pc, admitting p = Some (k, pc) ->
    flag admitted k p = match pc with AStore => false | _ => true end;
}.

Lemma callbacks_initial : callbacks initial.
Proof. split; simpl; try done; intros k pc ?%elem_of_nil; done. Qed.

Lemma callbacks_ext p p' :
  callbacks p -> firing p' = firing p -> admitting p' = admitting p ->
  (forall k, flag subscribed k p' = flag subscribed k p) ->
  (forall k, flag admitted k p' = flag admitted k p) ->
  (forall k, flag cancellationPublished k p' = flag cancellationPublished k p) ->
  executed p' = executed p ->
  (forall x k, coros p' !! x = Some (k, CRun) -> exists y, coros p !! y = Some (k, CRun)) ->
  (forall k, k ∈ accepted p -> k ∈ accepted p') ->
  callbacks p'.
Proof.
  intros [] E1 E2 F1 F2 F3 E3 F4 F5. split; rewrite ?E1, ?E2, ?E3; intros k; rewrite ?F1, ?F2, ?F3; eauto.
  - intros x Hk Hx. destruct (F4 _ _ Hx) as [y Hy]. by apply (cb_running0 k y).
Qed.

Ltac by_coros :=
  intros ? ?; simpl; first [eauto; fail |
    let X := fresh in intros X; apply lookup_insert_Some in X as [[_ ?]|[_ X]];
    [congruence|eauto] ].
Ltac same_callbacks B :=
  apply (callbacks_ext _ _ B);
  [ reflexivity | reflexivity | by_flag | by_flag | by_flag | reflexivity | by_coros
  | simpl; first [exact (fun k => id) | intros; apply elem_of_app; left; assumption] ].

(** A flag of the object that a call of [delay] has built. *)
Lemma begin_flag g p k t w j :
  objects p !! k = None ->
  flag g j (p |> set_objects (<[k := t]> (objects p)) |> set_waiting (<[k := w]> (waiting p))) =
  if decide (k = j) then g t else flag g j p.
Proof.
  intros Hk. unfold flag. simpl. case_decide as E; [subst j; by rewrite lookup_insert_eq|].
  by rewrite lookup_insert_ne.
Qed.

Lemma no_flag g k p : objects p !! k = None -> flag g k p = false.
Proof. intros Hk. unfold flag. by rewrite Hk. Qed.

Lemma executed_accepted p k : accounting p -> k ∈ executed p -> k ∈ accepted p.
Proof. intros A Hk. rewrite (ac_tasks _ A), !elem_of_app. auto. Qed.

Lemma begin_callbacks p k t w :
  accounting p -> callbacks p -> objects p !! k = None ->
  admitted t = false -> cancellationPublished t = false ->
  callbacks (p |> set_objects (<[k := t]> (objects p)) |> set_waiting (<[k := w]> (waiting p))).
Proof.
  intros A B Hk H1 H2.
  assert (Hna : k ∉ accepted p) by (intros Ha; destruct (ac_objects _ A k Ha); congruence).
  destruct B; split; intros j; rewrite ?begin_flag by done; simpl; case_decide as E; try subst j;
    try (intros; congruence); eauto.
  - intros pc Hin. apply cb_firing0 in Hin. by rewrite no_flag in Hin.
  - intros _ He. by apply Hna, executed_accepted.
  - intros x _ Hx. apply Hna. eapply unran_accepted; [done..|by left].
  - intros pc Hp. destruct Hna. by eapply (ac_admitting _ A).
Qed.

Lemma accept_callbacks p p' k w :
  accounting p -> callbacks p -> waiting p !! k = Some w ->
  firing p' = firing p -> executed p' = executed p -> coros p' = coros p ->
  (forall j, flag subscribed j p' = flag subscribed j p) ->
  (forall j, flag admitted j p' = flag admitted j p) ->
  (forall j, flag cancellationPublished j p' = flag cancellationPublished j p) ->
  accepted p' = accepted p ++ [k] -> admitting p' = Some (k, AStore) ->
  callbacks p'.
Proof.
  intros A [] Hw E1 E2 E3 F1 F2 F3 E4 E5. destruct (ac_waiting _ A k w Hw) as (_ & _ & _ & Ha).
  split; rewrite ?E1, ?E2, ?E3, ?E4, ?E5; intros j; rewrite ?F1, ?F2, ?F3; eauto.
  - intros Hj. apply elem_of_app. auto.
  - intros pc ?. by simplify_eq.
Qed.

Lemma admit_callbacks p k :
  accounting p -> callbacks p -> admitting p = Some (k, AStore) ->
  callbacks (p |> modify k (set_admitted true) |> set_admitting (Some (k, ACheck))).
Proof.
  intros A B Ha. pose proof (ac_admitting _ A k _ Ha) as Hk. destruct (ac_objects _ A k Hk) as [t Ht].
  assert (E : forall g j, flag g j (p |> modify k (set_admitted true) |> set_admitting (Some (k, ACheck)))
      = if decide (k = j) then g (set_admitted true t) else flag g j p).
  { intros g j. transitivity (flag g j (modify k (set_admitted true) p)); [done|].
    rewrite flag_modify. case_decide as E; [|done]. subst j. by rewrite Ht. }
  destruct B; split; intros j; rewrite ?E; simpl; try case_decide as D; try subst j; eauto.
  - intros pc Hin. apply cb_firing0 in Hin. unfold flag in Hin. by rewrite Ht in Hin.
  - intros He. apply cb_executed0. unfold flag. by rewrite Ht.
  - intros x He. apply cb_running0. unfold flag. by rewrite Ht.
  - intros pc ?. by simplify_eq.
  - intros pc ?. by simplify_eq.
Qed.

Lemma unsubscribe_callbacks p k :
  callbacks p -> quiet_callbacks k p = true -> callbacks (modify k (set_subscribed false) p).
Proof.
  intros [] Hq. unfold quiet_callbacks in Hq. apply bool_decide_eq_true in Hq.
  rewrite list.Forall_forall in Hq.
  assert (Hs : forall j, flag subscribed j (modify k (set_subscribed false) p) = true ->
                         flag subscribed j p = true).
  { intros j. rewrite flag_modify. case_decide; [|done]. by destruct (objects p !! j). }
  split; intros j; try apply Hs; unfold flag, modify; simpl; rewrite ?flag_keep by done; eauto.
  - intros pc Hin. rewrite flag_alter. case_decide as E; [|by eapply cb_firing0].
    subst j. by apply Hq in Hin.
Qed.

Lemma unsubscribed p k :
  quiet_callbacks k p = true -> flag subscribed k (modify k (set_subscribed false) p) = false.
Proof. intros _. rewrite flag_modify, decide_True by done. by destruct (objects p !! k). Qed.

Lemma running_callbacks p x k :
  callbacks p -> flag subscribed k p = false ->
  callbacks (set_coros (<[x := (k, CRun)]> (coros p)) p).
Proof.
  intros [] Hk. split; try done. intros j y Hj. simpl. intros [[_ ?]|[_ Hy]]%lookup_insert_Some.
  - simplify_eq. change (flag subscribed j p = true) in Hj. congruence.
  - by apply (cb_running0 j y).
Qed.

Lemma ran_callbacks p x k :
  callbacks p -> coros p !! x = Some (k, CRun) ->
  callbacks (set_coros (<[x := (k, CRetire)]> (coros p)) (set_executed (executed p ++ [k]) p)).
Proof.
  intros [] Hx. split; try done.
  - intros j Hj. simpl. rewrite elem_of_app, list_elem_of_singleton.
    intros [He| ->]; [by apply (cb_executed0 j)|by apply (cb_running0 k x)].
  - intros j y Hj. simpl. intros [[_ ?]|[_ Hy]]%lookup_insert_Some; [by simplify_eq|by apply (cb_running0 j y)].
Qed.

Lemma callbacks_step p p' : accounting p -> callbacks p -> step p p' -> callbacks p'.
Proof.
  intros A B Hs. step_cases Hs; ensure_cases.
  all: repeat match goal with |- context [if flag ?g ?k ?p then _ else _] =>
    destruct (flag g k p) eqn:? end.
  all: try exact B.
  all: try (same_callbacks B; fail).
  all: try (by apply begin_callbacks).
  all: try (by apply admit_callbacks).
  all: try (by eapply ran_callbacks).
  all: try (eapply (accept_callbacks p); [done|done|eassumption|reflexivity..|by_flag|by_flag|by_flag|done|done]).
  all: unfold release in *; bool_to_prop; destruct_and?.
  all: try (by apply unsubscribe_callbacks).
  all: try (match goal with |- callbacks (set_coros _ ?q) => apply (running_callbacks q) end;
    [by apply unsubscribe_callbacks|by apply unsubscribed]).
  all: destruct B; unfold fire, modify in *; split; unfold flag in *; simpl in *; try done.
  all: try solve [intros ? [=]].
  all: repeat match goal with H : firing _ !! _ = Some _ |- _ => apply list_elem_of_lookup_2 in H end.
  all: intros; repeat match goal with
    | H : _ ∈ <[_:=_]> _ |- _ => apply elem_of_insert_cases in H as [H|H]
    | H : _ ∈ delete _ _ |- _ => apply elem_of_delete_cases in H
    | H : _ ∈ _ ++ [_] |- _ => apply elem_of_app in H as [H|H%list_elem_of_singleton]
    end; rewrite ?flag_alter in *; repeat case_decide; simplify_eq; eauto.
Qed.

Lemma reachable_callbacks p : reachable p -> callbacks p.
Proof.
  revert p. apply reachable_inv; [apply callbacks_initial|].
  intros; eapply callbacks_step; [by apply delay_reachable_accounting|done..].
Qed.

(** ** A request is heard *)

(** A requested cancellation of an admitted task is published, or somebody is about to
    look: the admission at its second check or a stop callback. *)
Definition heard (p : Pool) : Prop := forall k,
  flag cancelRequested k p = true -> flag admitted k p = true ->
  flag cancellationPublished k p = true \/
  admitting p = Some (k, ACheck) \/ admitting p = Some (k, AExchange) \/
  (k, FLoad) ∈ firing p \/ (k, FExchange) ∈ firing p.

Lemma heard_ext p p' :
  heard p -> firing p' = firing p -> admitting p' = admitting p ->
  (forall k, flag admitted k p' = flag admitted k p) ->
  (forall k, flag cancellationPublished k p' = flag cancellationPublished k p) ->
  (forall k, flag cancelRequested k p' = flag cancelRequested k p) ->
  heard p'.
Proof. intros H E1 E2 F1 F2 F3 k. rewrite E1, E2, F1, F2, F3. apply H. Qed.

Ltac same_heard H :=
  apply (heard_ext _ _ H); [ reflexivity | reflexivity | by_flag | by_flag | by_flag ].

Ltac lookups :=
  repeat match goal with
  | H : firing _ !! _ = Some ?z, X : ?y ∈ firing ?p |- context [?y ∈ <[?i := ?x]> (firing ?p)] =>
      let Y := fresh in
      pose proof (elem_of_insert_keep (firing p) i x y z H X) as [Y|Y]; clear X; [simplify_eq|]
  | H : firing _ !! _ = Some ?z, X : ?y ∈ firing ?p |- context [?y ∈ delete ?i (firing ?p)] =>
      let Y := fresh in
      pose proof (elem_of_delete_keep (firing p) i y z H X) as [Y|Y]; clear X; [simplify_eq|]
  end.

Lemma heard_step p p' : accounting p -> callbacks p -> heard p -> step p p' -> heard p'.
Proof.
  intros A B H Hs. step_cases Hs; ensure_cases.
  all: repeat match goal with |- context [if flag ?g ?k ?p then _ else _] =>
    destruct (flag g k p) eqn:? end.
  all: try exact H.
  all: try (same_heard H; fail).
  all: try (intros j; rewrite !begin_flag by done; case_decide; [done|apply H]).
  all: intros j; pose proof (H j) as Hj; unfold fire, modify, mu_free, flag in *; simpl;
    rewrite ?flag_alter; repeat case_decide; subst; simpl in *; intros Hc Ha.
  all: try (destruct (objects p !! j) as [t|] eqn:?; [|done]; simpl in *).
  all: try (destruct (admitting p) as [[? ?]|] eqn:?; try done; []).
  all: try (destruct Hj as [?|[?|[?|[?|?]]]]; [done|done|by left|..]);
    lookups; simplify_eq; try tauto.
  all: repeat match goal with
    | X : objects ?q !! ?n = Some _, Y : context [objects ?q !! ?n] |- _ =>
        lazymatch Y with X => fail | _ => rewrite X in Y end
    end; try congruence; try tauto.
  all: rewrite ?elem_of_app; try tauto.
  all: match goal with X : firing _ !! _ = Some _ |- context [<[_ := ?v]> _] =>
    pose proof (elem_of_insert_new _ _ v _ X) end; tauto.
Qed.

Lemma reachable_heard p : reachable p -> heard p.
Proof.
  revert p. apply reachable_inv; [by intros ?|].
  intros; eapply heard_step; [by apply delay_reachable_accounting|by apply reachable_callbacks|done..].
Qed.

(** ** A heard request reaches the timer *)

(** The tasks of the inbox that the scheduler has taken over. *)
Definition draining (p : Pool) : list nat :=
  match scheduler p with Some (ScDrainLoop rest _) => rest | _ => [] end.

(** The timer of a published task is due at once, or will be: the task is in the inbox,
    in the scheduler's hands or about to be pushed.  A task whose dispatch failed is
    queued again at the current time. *)
Definition delivered (p : Pool) : Prop := forall k,
  flag cancellationPublished k p = true -> flag queued k p = true ->
  (time_point_min, k) ∈ timers p \/ k ∈ cancelledHead p \/ k ∈ draining p \/
  admitting p = Some (k, APush) \/ (k, FPush) ∈ firing p \/ flag retried k p = true.

Lemma delivered_ext p p' :
  delivered p -> firing p' = firing p -> admitting p' = admitting p ->
  (forall k, flag cancellationPublished k p' = flag cancellationPublished k p) ->
  (forall k, flag queued k p' = flag queued k p) ->
  (forall k, flag retried k p' = flag retried k p) ->
  timers p' = timers p ->
  (forall k, k ∈ cancelledHead p \/ k ∈ draining p -> k ∈ cancelledHead p' \/ k ∈ draining p') ->
  delivered p'.
Proof.
  intros D E1 E2 F1 F2 F3 E3 F4 k. rewrite E1, E2, F1, F2, F3, E3. intros H1 H2.
  specialize (D k H1 H2). specialize (F4 k). tauto.
Qed.

Ltac same_delivered D :=
  apply (delivered_ext _ _ D); [ reflexivity | reflexivity | by_flag | by_flag | by_flag | reflexivity
  | let k := fresh in intros k; unfold draining; simpl;
    try (match goal with Hs : scheduler _ = _ |- _ => rewrite Hs end);
    first [exact id | pose proof (not_elem_of_nil k); tauto] ].

Lemma min_timer_insert key k q (e : Z * nat) : e ∈ q -> e ∈ timers_insert key k q.
Proof. intros He. rewrite timers_insert_perm. by right. Qed.

Lemma min_timer_extract j k q : (time_point_min, k) ∈ q -> j <> k -> (time_point_min, k) ∈ timers_extract j q.
Proof. intros He Hj. apply list_elem_of_filter. split; [by simpl|done]. Qed.

Lemma drain_delivered p n l last :
  delivered p -> scheduler p = Some (ScDrainLoop (n :: l) last) ->
  delivered (set_scheduler (Some (ScDrainLoop l last)) (drain_one n p)).
Proof.
  intros D Hsc j. unfold drain_one. specialize (D j). unfold draining in D. rewrite Hsc in D.
  destruct (flag queued n p) eqn:Hn; unfold flag, draining in *; simpl; intros Hp Hq;
    destruct (D Hp Hq) as [Ht|[?|[Hd|[?|[?|?]]]]]; try tauto.
  - left. rewrite timers_insert_perm. destruct (decide (n = j)) as [->|]; [by left|].
    right. by apply min_timer_extract.
  - apply elem_of_cons in Hd as [->|Hd]; [|tauto]. left. rewrite timers_insert_perm. by left.
  - apply elem_of_cons in Hd as [->|Hd]; [congruence|tauto].
Qed.

Lemma begin_delivered p k t w :
  delivered p -> objects p !! k = None -> queued t = false ->
  delivered (p |> set_objects (<[k := t]> (objects p)) |> set_waiting (<[k := w]> (waiting p))).
Proof.
  intros D Hk Ht j. rewrite !begin_flag by done. case_decide as E; [congruence|apply D].
Qed.

Lemma accept_delivered p p' k w key :
  accounting p -> callbacks p -> delivered p -> waiting p !! k = Some w -> mu_free p = true ->
  objects p' = alter (set_queued true) k (objects p) -> firing p' = firing p ->
  timers p' = timers_insert key k (timers p) -> cancelledHead p' = cancelledHead p ->
  (forall j, j ∈ draining p -> j ∈ draining p') -> delivered p'.
Proof.
  intros A B D Hw Hmu E1 E2 E3 E4 F j. unfold mu_free in Hmu.
  destruct (ac_waiting _ A k w Hw) as (_ & _ & _ & Ha).
  assert (Hn : flag cancellationPublished k p = false).
  { destruct (flag cancellationPublished k p) eqn:E; [|done].
    apply (cb_published _ B) in E. congruence. }
  unfold flag in *. rewrite E1, E2, E3, E4, !flag_alter. case_decide as E.
  - subst j. destruct (objects p !! k); simpl; congruence.
  - intros Hp Hq. specialize (F j). pose proof (min_timer_insert key k (timers p) (time_point_min, j)).
    pose proof (D j Hp Hq). destruct (admitting p) as [[? ?]|]; [done|].
    unfold flag in *. intuition congruence.
Qed.

Lemma delivered_step p p' :
  accounting p -> lifecycle p -> callbacks p -> delivered p -> step p p' -> delivered p'.
Proof.
  intros A L B D Hs. step_cases Hs; ensure_cases.
  all: try match goal with X : storage _ = false |- _ => destruct (lc_storage _ L X) end.
  all: try (eapply drain_delivered; [exact D|done]; fail).
  all: repeat match goal with |- context [if flag ?g ?k ?p then _ else _] =>
    destruct (flag g k p) eqn:? end.
  all: try exact D.
  all: try (same_delivered D; fail).
  all: try (apply begin_delivered; [exact D|done|done]; fail).
  all: try (eapply (accept_delivered p); [exact A|exact B|exact D|eassumption|by bool_to_prop
    |reflexivity|reflexivity|reflexivity|reflexivity
    |unfold draining; simpl; try match goal with Hs : scheduler _ = _ |- _ => rewrite Hs end;
     intros ? ?; first [assumption|by apply not_elem_of_nil in H]]; fail).
  all: intros j; pose proof (D j) as Dj; unfold fire, modify, draining, flag in *; simpl;
    repeat match goal with Hs : scheduler _ = _ |- _ => rewrite Hs in Dj; clear Hs
                         | Hs : timers _ = _ |- _ => rewrite Hs in Dj; clear Hs end;
    rewrite ?flag_alter; repeat case_decide; subst; intros Hp Hq.
  all: try (destruct (objects p !! j) as [t|] eqn:?; [|done]; simpl in *).
  all: try (destruct Dj as [?|[?|[?|[?|[?|?]]]]]; [done|done|..]);
    lookups; simplify_eq; rewrite ?elem_of_app, ?elem_of_cons in *; try tauto.
  - pose proof (elem_of_insert_new _ _ (j, FPush) _ Heqo). tauto.
  - destruct H0; [congruence|tauto].
  - left. by apply min_timer_insert.
Qed.

Lemma reachable_delivered p : reachable p -> delivered p.
Proof.
  revert p. apply reachable_inv; [by intros ?|].
  intros; eapply delivered_step; [by apply delay_reachable_accounting|by apply reachable_lifecycle
    |by apply reachable_callbacks|done..].
Qed.

(** ** The last drain empties the inbox *)
Record inbox (p : Pool) : Prop := {
  ib_accepted : forall k, k ∈ cancelledHead p -> k ∈ accepted p;
  ib_last : past_pending (stopper p) = true ->
    match scheduler p with
    | Some (ScDrainLoop _ true) | Some ScFinished | None => cancelledHead p = []
    | _ => True
    end;
}.

Lemma inbox_initial : inbox initial.
Proof. by split. Qed.

(** Once [pending] is zero nobody pushes any more: the callbacks are gone. *)
Lemma no_push p :
  accounting p -> callbacks p -> pending p = 0 -> forall k, (k, FPush) ∉ firing p.
Proof.
  intros A B Hz k Hin. destruct (pending_zero p A Hz) as (_ & _ & _ & He).
  apply (cb_executed _ B k); [by eapply cb_firing|]. rewrite He.
  by eapply cb_admitted, cb_publishing.
Qed.

(** A step that pushes nothing. *)
Lemma inbox_ext p p' :
  inbox p -> cancelledHead p' = cancelledHead p -> (forall k, k ∈ accepted p -> k ∈ accepted p') ->
  (past_pending (stopper p') = true ->
    match scheduler p' with
    | Some (ScDrainLoop _ true) | Some ScFinished | None => cancelledHead p = []
    | _ => True
    end) ->
  inbox p'.
Proof. intros [] E1 F1 F2. split; rewrite E1; auto. Qed.

Ltac same_inbox I :=
  apply (inbox_ext _ _ I); [ reflexivity
  | simpl; first [exact (fun k => id) | intros; apply elem_of_app; left; assumption] | ];
  simpl; let X := fresh in intros X; pose proof (ib_last _ I) as Y;
  repeat match goal with E : scheduler _ = _ |- _ => rewrite E in *; clear E
                       | E : stopper _ = _ |- _ => rewrite E in *; clear E end;
  simpl in *; first [done | exact (Y X) | exact (Y eq_refl)].

Lemma inbox_step p p' :
  accounting p -> lifecycle p -> callbacks p -> inbox p -> step p p' -> inbox p'.
Proof.
  intros A L B I Hs. step_cases Hs; ensure_cases.
  all: repeat match goal with |- context [if flag ?g ?k ?p then _ else _] =>
    destruct (flag g k p) eqn:? end.
  all: try exact I.
  all: try (same_inbox I; fail).
  - (* pending reached zero *)
    apply (inbox_ext _ _ I); [done..|]. simpl. intros _. pose proof (lc_scheduler _ L) as Hsc.
    pose proof (lc_stopping _ L) as Hst. pose proof (lc_last _ L) as Hla.
    rewrite Heqs in Hsc, Hst. destruct (scheduler p) as [[| ? []|  | | | | |]|] eqn:E; try done.
    + destruct (Hst (Hla eq_refl)).
    + destruct (Hst (Hla eq_refl)).
    + destruct (lc_storage _ L (Hsc eq_refl)) as [Ha _].
      destruct (cancelledHead p) as [|k l] eqn:Eh; [done|].
      assert (Hk : k ∈ accepted p) by (apply (ib_accepted _ I); rewrite Eh; left).
      rewrite Ha in Hk. by apply elem_of_nil in Hk.
  - (* the admission pushes *)
    split; simpl.
    + intros k [->|?]%elem_of_cons; [by eapply ac_admitting|by apply (ib_accepted _ I)].
    + intros Hp. destruct (lc_pending _ L Hp) as [_ ?]. congruence.
  - (* a callback pushes *)
    assert (Hin : (n, FPush) ∈ firing p) by by eapply list_elem_of_lookup_2.
    split; simpl.
    + intros k [->|?]%elem_of_cons; [|by apply (ib_accepted _ I)].
      by eapply cb_admitted, cb_publishing.
    + intros Hp. destruct (lc_pending _ L Hp) as [Hz _]. by apply no_push with (k := n) in Hz.
  - split; simpl; [by intros k ?%elem_of_nil|]. by destruct last0.
  - destruct last0; same_inbox I.
Qed.

Lemma reachable_inbox p : reachable p -> inbox p.
Proof.
  revert p. apply reachable_inv; [apply inbox_initial|].
  intros; eapply inbox_step; [by apply delay_reachable_accounting|by apply reachable_lifecycle
    |by apply reachable_callbacks|done..].
Qed.
