(* ===== verification/DelayWakeups.v ===== *)
(** * The scheduler of the delay pool is woken

    [schedulerLoop] sleeps in [ScWait] until [queueChanged] is sent or the time it read from the
    head of the queue is reached.  No wakeup of it is lost: while a task is in the cancellation
    inbox, the event has been sent, or the one that pushed the task is about to send it, or the
    scheduler is about to take the inbox; and a scheduler that sleeps with no event sent sleeps no
    longer than until the first timer. *)
From Stdlib Require Import ZArith Lia.
From S2P Require Import Prelude Context DelayPool DelayTheorems DelayCancellation.
Import Delay.
Local Open Scope Z_scope.

Record awake (p : Pool) : Prop := {
  aw_inbox : forall k, k ∈ cancelledHead p ->
    queueChanged p = true \/ admitting p = Some (k, ASend) \/ (k, FSend) ∈ firing p \/
    exists last, scheduler p = Some (ScDrain last);
  aw_timers : forall next key k, scheduler p = Some (ScWait next) -> queueChanged p = false ->
    (key, k) ∈ timers p -> (forall pc, admitting p <> Some (k, pc)) -> exists n, next = Some n /\ n <= key;
}.

Lemma awake_initial : awake initial.
Proof. split; simpl; [by intros k ?%elem_of_nil|done]. Qed.

(** Steps that take nobody's wakeup away. *)
Lemma awake_ext p p' :
  awake p -> queueChanged p' = queueChanged p -> (forall k, k ∈ cancelledHead p' -> k ∈ cancelledHead p) ->
  (forall k, admitting p = Some (k, ASend) -> admitting p' = Some (k, ASend)) ->
  (forall k, (k, FSend) ∈ firing p -> (k, FSend) ∈ firing p') ->
  (forall last, scheduler p = Some (ScDrain last) -> exists last', scheduler p' = Some (ScDrain last')) ->
  (forall next, scheduler p' = Some (ScWait next) -> scheduler p = Some (ScWait next)) ->
  (forall key k, (key, k) ∈ timers p' -> (forall pc, admitting p' <> Some (k, pc)) ->
     (key, k) ∈ timers p /\ forall pc, admitting p <> Some (k, pc)) -> awake p'.
Proof.
  intros [Wi Wt] Eq Fh Fa Ff Fd Fw Ft. split.
  - intros k Hk. rewrite Eq. destruct (Wi k (Fh k Hk)) as [?|[?|[?|[last Hl]]]]; eauto 7.
  - intros next key k Hw. rewrite Eq. intros Hq Hk Ha. destruct (Ft key k Hk Ha). eauto.
Qed.
(** Whoever sends the event wakes everybody. *)
Lemma awake_sent p : queueChanged p = true -> awake p.
Proof. intros E. split; [auto|congruence]. Qed.

(** The scheduler moves, and does not go to sleep. *)
Lemma awake_moves p p' pc :
  awake p -> (forall last, scheduler p <> Some (ScDrain last)) -> scheduler p' = Some pc ->
  match pc with ScWait _ => False | _ => True end -> (queueChanged p' = queueChanged p \/ exists last, pc = ScDrain last) ->
  cancelledHead p' = cancelledHead p -> admitting p' = admitting p -> firing p' = firing p -> awake p'.
Proof.
  intros [Wi _] Hd E Hpc Eq E1 E2 E3. split; rewrite ?E, ?E1, ?E2, ?E3.
  - intros k Hk. destruct Eq as [->|[last ->]]; [|eauto 6]. destruct (Wi k Hk) as [?|[?|[?|[last Hl]]]]; auto. by destruct (Hd last).
  - intros next key k [= ->]. done.
Qed.

Lemma sorted_head q key k key' k' :
  StronglySorted (fun a b : Z * nat => a.1 <= b.1) ((key, k) :: q) -> (key', k') ∈ (key, k) :: q -> key <= key'.
Proof.
  intros Hso [[= -> ->]|Hin]%elem_of_cons; [lia|]. apply StronglySorted_inv in Hso as [_ Hso].
  rewrite list.Forall_forall in Hso. by apply (Hso _ Hin).
Qed.

(** The end of an admission: the scheduler is woken when the new timer is the first. *)
Lemma awake_admitted p k :
  accounting p -> awake p -> admitting p = Some (k, ABegin) ->
  awake (p |> set_queueChanged (queueChanged p || bool_decide (snd <$> head (timers p) = Some k)) |> set_admitting None).
Proof.
  intros A [Wi Wt] Ha. split; simpl.
  - intros j Hj. destruct (Wi j Hj) as [->|[?|[?|?]]]; auto. congruence.
  - intros next key j Hw [Hq Hh]%orb_false_iff Hj _. apply bool_decide_eq_false in Hh.
    pose proof (ac_sorted _ A) as Hso. destruct (timers p) as [|[key0 k0] q] eqn:Et; [by apply elem_of_nil in Hj|]. simpl in Hh.
    destruct (Wt next key0 k0 Hw Hq) as (n & -> & Hn); [left|intros pc E; congruence|].
    exists n. split; [done|]. pose proof (sorted_head _ _ _ _ _ Hso Hj). lia.
Qed.

(** A new timer, whose admission has just begun. *)
Lemma awake_accept p p' key k :
  awake p -> mu_free p = true -> queueChanged p' = queueChanged p -> cancelledHead p' = cancelledHead p ->
  firing p' = firing p -> timers p' = timers_insert key k (timers p) -> admitting p' = Some (k, AStore) ->
  (scheduler p' = scheduler p \/ scheduler p = None /\ scheduler p' = Some (ScDrain false)) -> awake p'.
Proof.
  intros W Hmu Eq Eh Ef Et Ea Es. unfold mu_free in Hmu. destruct (admitting p) as [[? ?]|] eqn:Ha; [done|].
  apply (awake_ext _ _ W); rewrite ?Eh, ?Ef, ?Ha; try done.
  - intros last Hl. destruct Es as [->|[Hn _]]; [eauto|congruence].
  - intros next Hw. destruct Es as [<-|[_ Hd]]; [done|congruence].
  - rewrite Et, Ea. intros key' j Hj Hn. split; [|done]. rewrite timers_insert_perm in Hj.
    apply elem_of_cons in Hj as [[= -> ->]|Hj]; [by destruct (Hn AStore)|done].
Qed.

(** A stop callback that is not about to send the event moves or ends. *)
Lemma awake_firing p p' i k pc :
  awake p -> firing p !! i = Some (k, pc) -> pc <> FSend ->
  (firing p' = delete i (firing p) \/ exists pc', firing p' = <[i := (k, pc')]> (firing p)) ->
  queueChanged p' = queueChanged p -> cancelledHead p' = cancelledHead p -> admitting p' = admitting p ->
  scheduler p' = scheduler p -> timers p' = timers p -> awake p'.
Proof.
  intros W Hi Hpc Ef Eq Eh Ea Es Et. apply (awake_ext _ _ W); rewrite ?Eh, ?Ea, ?Es, ?Et; try done; [|by eauto].
  intros j Hj. destruct Ef as [->|[pc' ->]].
  - destruct (elem_of_delete_keep _ _ _ _ Hi Hj); [simplify_eq|done].
  - destruct (elem_of_insert_keep _ _ (k, pc') _ _ Hi Hj); [simplify_eq|done].
Qed.

(** A task is pushed, and the one who pushed it is to send the event. *)
Lemma awake_push p p' k :
  awake p -> cancelledHead p' = k :: cancelledHead p -> queueChanged p' = queueChanged p ->
  scheduler p' = scheduler p -> timers p' = timers p ->
  (admitting p' = Some (k, ASend) \/ (k, FSend) ∈ firing p') ->
  (forall j, admitting p = Some (j, ASend) -> admitting p' = Some (j, ASend)) ->
  (forall j, (j, FSend) ∈ firing p -> (j, FSend) ∈ firing p') ->
  (forall j, (forall pc, admitting p' <> Some (j, pc)) -> forall pc, admitting p <> Some (j, pc)) -> awake p'.
Proof.
  intros [Wi Wt] Eh Eq Es Et Hk Fa Ff Fn. split; rewrite ?Eh, ?Eq, ?Es, ?Et.
  - intros j [->|Hj]%elem_of_cons; [destruct Hk; auto|]. destruct (Wi j Hj) as [?|[?|[?|?]]]; auto.
  - intros next key j Hw Hq Hj Hn. eauto.
Qed.

(** The scheduler goes to sleep until the first timer. *)
Lemma awake_sleeps p next :
  accounting p -> awake p -> scheduler p = Some ScInspect ->
  match timers p with [] => next = None | (key, _) :: _ => next = Some key end ->
  awake (set_scheduler (Some (ScWait next)) p).
Proof.
  intros A [Wi _] Hs Hn. split; simpl.
  - intros k Hk. destruct (Wi k Hk) as [?|[?|[?|[last ?]]]]; auto. congruence.
  - intros next' key k [= <-] _ Hk _. pose proof (ac_sorted _ A) as Hso. destruct (timers p) as [|[key0 k0] q].
    + by apply elem_of_nil in Hk.
    + exists key0. split; [done|]. by eapply sorted_head.
Qed.

Lemma awake_step p p' : accounting p -> lifecycle p -> awake p -> step p p' -> awake p'.
Proof.
  intros A L W Hs. step_cases Hs; ensure_cases.
  all: try match goal with X : storage _ = false |- _ => destruct (lc_storage _ L X) end.
  all: repeat match goal with |- context [if flag ?g ?k ?p then _ else _] =>
    destruct (flag g k p) eqn:? end.
  all: try exact W.
  all: try (by apply awake_sent).
  all: try (by eapply awake_admitted).
  all: try (eapply (awake_accept p); [exact W|by bool_to_prop|reflexivity..|by auto]; fail).
  all: try (eapply (awake_firing p); [exact W|eassumption|done|eauto|reflexivity..]; fail).
  all: try (apply awake_sleeps; [done|done|done|]; match goal with E : timers _ = _ |- _ => by rewrite E end).
  all: try (destruct last0).
  all: try (eapply (awake_moves p); [exact W|intros; congruence|reflexivity|done|simpl; eauto|reflexivity..]; fail).
  all: try (apply (awake_ext _ _ W); simpl; [done|try done|try congruence|try done|try (intros; congruence || eauto)|try (intros; congruence || eauto)|try (intros; split; congruence || eauto)]; fail).
  - (* the admission pushes *)
    eapply (awake_push p); simpl; try reflexivity; auto; intros j; [congruence|].
    intros Hn pc Hp. rewrite Heqo in Hp. injection Hp as <- <-. by destruct (Hn ASend).
  - apply (awake_ext _ _ W); simpl; try done; [|by eauto]. intros j Hj. apply elem_of_app. by left.
  - (* a callback pushes *)
    eapply (awake_push p); simpl; try reflexivity; auto.
    + right. by eapply elem_of_insert_new.
    + intros j Hj. destruct (elem_of_insert_keep _ _ (n, FSend) _ _ Heqo Hj); [simplify_eq|done].
  - split; simpl; [by intros k ?%elem_of_nil|done].
  - split; simpl; [by intros k ?%elem_of_nil|done].
Qed.

Lemma reachable_awake p : reachable p -> awake p.
Proof.
  revert p. apply reachable_inv; [apply awake_initial|].
  intros; eapply awake_step; [by apply delay_reachable_accounting|by apply reachable_lifecycle|done..].
Qed.

(** The scheduler lives as long as a task is queued. *)
Lemma queued_scheduled p k :
  reachable p -> flag queued k p = true -> exists pc, scheduler p = Some pc /\ pc <> ScFinished.
Proof.
  intros Hr Hq. pose proof (delay_reachable_accounting p Hr) as A. pose proof (reachable_lifecycle p Hr) as L.
  apply (ac_queued _ A) in Hq.
  assert (Hpast : past_pending (stopper p) = false).
  { destruct (past_pending (stopper p)) eqn:E; [|done]. destruct (lc_pending _ L E) as [Hz _].
    destruct (pending_zero p A Hz) as (Ht & _). rewrite Ht in Hq. by apply elem_of_nil in Hq. }
  pose proof (lc_scheduler _ L) as Hs. pose proof (lc_stopping _ L) as Hst. pose proof (lc_last _ L) as Hl.
  destruct (scheduler p) as [pc|].
  - exists pc. split; [done|]. intros ->. specialize (Hst (Hl eq_refl)). by destruct (stopper p).
  - assert (Hstorage : storage p = false) by (destruct (stopper p); try done; by apply Hs).
    destruct (lc_storage _ L Hstorage) as [Ha _]. apply list_elem_of_fmap in Hq as ([key j] & -> & Hin).
    assert (Hk : j ∈ accepted p).
    { rewrite (ac_tasks _ A). apply elem_of_app. left. apply list_elem_of_fmap. by exists (key, j). }
    rewrite Ha in Hk. by apply elem_of_nil in Hk.
Qed.

(** A task that is due, in the inbox or being drained keeps the scheduler awake: it has a step at
    every time that is not before the time of the task. *)
Lemma scheduler_moves p k due e x :
  reachable p -> flag queued k p = true -> quiet_callbacks k p = true -> mu_free p = true ->
  (due, k) ∈ timers p \/ k ∈ cancelledHead p \/ k ∈ draining p -> due <= now e ->
  is_Some (scheduler_step e x p).
Proof.
  intros Hr Hq Hqc Hmu Hw Hle. pose proof (reachable_awake p Hr) as [Wi Wt].
  unfold quiet_callbacks in Hqc. apply bool_decide_eq_true in Hqc. rewrite list.Forall_forall in Hqc.
  assert (Hna : forall z, admitting p <> Some z)
    by (intros z Hz; unfold mu_free in Hmu; by rewrite Hz in Hmu).
  destruct (queued_scheduled p k Hr Hq) as (pc & Hs & Hf). unfold scheduler_step. rewrite Hs.
  unfold draining in Hw. rewrite Hs in Hw.
  destruct pc as [last|[|j rest] last| |next|j|j| |]; rewrite ?Hmu; try done; try (by eexists).
  - simpl. destruct (schedulerStopping p); [by eexists|]. destruct (timers p) as [|[key j] q]; [by eexists|].
    destruct (key <=? now e); by eexists.
  - destruct (queueChanged p) eqn:Hc; [by eexists|].
    assert (Hd : deadline_reached next (now e) = true).
    { destruct Hw as [Hin|[Hin|Hin]]; [| |by apply elem_of_nil in Hin].
      - destruct (Wt next due k Hs eq_refl Hin) as (n & -> & Hn); [by intros pc; apply Hna|]. simpl. apply Z.leb_le. lia.
      - destruct (Wi k Hin) as [?|[Ha|[Hfi|[last Hl]]]]; [congruence|by apply Hna in Ha| |congruence].
        by apply Hqc in Hfi. }
    rewrite Hd. by eexists.
  - destruct (allocation_ok e); by eexists.
Qed.
