(* ===== verification/DelayPromises.v ===== *)
(** * What the delay pool promises

    The claims on delaypool.hpp: [stop] returns after every accepted callback, each of
    which runs exactly once; nothing runs before its time unless its context was
    cancelled, and no cancellation is lost.  The last section shows that the handshake
    behind the last claim needs more than the release and acquire accesses of the code. *)
From Stdlib Require Import ZArith Lia.
From S2P Require Import Prelude Context DelayPool DelayTheorems DelayCancellation DelayWakeups.
Import Delay.
Local Open Scope Z_scope.

(** ** Timers keep their time *)

(** Only the tasks of cancelled contexts are published. *)
Record requested (p : Pool) : Prop := {
  rq_published : forall k, flag cancellationPublished k p = true -> flag cancelRequested k p = true;
  rq_inbox : forall k, k ∈ cancelledHead p \/ k ∈ draining p -> flag cancelRequested k p = true;
  rq_firing : forall k pc, (k, pc) ∈ firing p -> pc = FCas \/ flag cancelRequested k p = true;
  rq_admitting : forall k pc, admitting p = Some (k, pc) ->
    match pc with AExchange | APush => flag cancelRequested k p = true | _ => True end;
}.

Lemma requested_initial : requested initial.
Proof.
  split; try done; [intros k [?%elem_of_nil|?%elem_of_nil]|intros k pc ?%elem_of_nil]; done.
Qed.

(** A step after which nothing more is published. *)
Lemma requested_ext p p' :
  requested p -> (forall x, x ∈ firing p' -> x ∈ firing p \/ x.2 = FCas \/ flag cancelRequested x.1 p' = true) ->
  (forall k, flag cancelRequested k p = true -> flag cancelRequested k p' = true) ->
  (forall k, flag cancellationPublished k p' = true -> flag cancellationPublished k p = true \/
     flag cancelRequested k p = true) ->
  (forall k, k ∈ cancelledHead p' \/ k ∈ draining p' ->
     (k ∈ cancelledHead p \/ k ∈ draining p) \/ flag cancelRequested k p = true) ->
  (forall k pc, admitting p' = Some (k, pc) -> admitting p = Some (k, pc) \/
     match pc with AExchange | APush => flag cancelRequested k p = true | _ => True end) ->
  requested p'.
Proof.
  intros [] F1 F2 F3 F4 F5. split.
  - intros k Hk. destruct (F3 k Hk); auto.
  - intros k Hk. destruct (F4 k Hk); auto.
  - intros k pc Hk. destruct (F1 _ Hk) as [Hf|[Hf|Hf]]; [|by left|by right].
    destruct (rq_firing0 k pc Hf); auto.
  - intros k pc Hk. destruct (F5 k pc Hk) as [Ha|Ha]; [specialize (rq_admitting0 k pc Ha)|];
      destruct pc; auto.
Qed.

Ltac raise_flag :=
  intros ?; unfold flag, fire, modify; simpl; rewrite ?flag_alter; repeat case_decide; subst;
  try (match goal with |- context [objects ?q !! ?n] => destruct (objects q !! n) eqn:? end);
  simpl; solve [done | tauto | auto].

Lemma requested_step p p' :
  accounting p -> lifecycle p -> callbacks p -> requested p -> step p p' -> requested p'.
Proof.
  intros A L B R Hs. step_cases Hs; ensure_cases.
  all: try match goal with X : storage _ = false |- _ => destruct (lc_storage _ L X) end.
  all: repeat match goal with |- context [if flag ?g ?k ?p then _ else _] =>
    destruct (flag g k p) eqn:? end.
  all: try exact R.
  all: try (apply (requested_ext _ _ R);
    [ simpl; first [by left | intros ? ?%elem_of_delete_cases; by left]
    | raise_flag | raise_flag
    | unfold draining; simpl; try match goal with E : scheduler _ = _ |- _ => rewrite E end;
      let X := fresh in intros X; pose proof (not_elem_of_nil X); rewrite ?elem_of_cons; tauto
    | simpl; first [by left | by intros ? ? [=] | intros ? ? [= <- <-]; right; done] ]; fail).
  all: try (assert (Hc : flag cancelRequested n p = true) by first
    [ by apply (rq_admitting _ R _ _ Heqo)
    | match goal with X : firing _ !! _ = Some _ |- _ =>
        apply list_elem_of_lookup_2 in X; by destruct (rq_firing _ R _ _ X) end ]).
  1: { (* begin *)
    assert (Hno : flag cancelRequested k p = false) by by apply no_flag.
    apply (requested_ext _ _ R); try (by left).
    + intros j Hj. rewrite begin_flag by done. case_decide; [congruence|done].
    + intros j. rewrite begin_flag by done. case_decide; [done|by left]. }
  all: try (destruct last0).
  all: apply (requested_ext _ _ R); simpl.
  all: try raise_flag.
  all: try (by left).
  all: try (intros ? ? [= <- <-]; auto; fail).
  all: try (intros j; unfold draining; simpl; rewrite ?elem_of_cons;
    try match goal with E : scheduler _ = _ |- _ => rewrite E end; intros ?;
    destruct_or?; subst; tauto).
  all: try (intros j; unfold flag, modify; simpl; rewrite flag_alter; case_decide; subst; auto; fail).
  all: intros y Hy; first [apply elem_of_insert_cases in Hy as [->|Hy]
    |apply elem_of_app in Hy as [Hy|Hy%list_elem_of_singleton]; [|subst y]]; auto.
  all: right; right; simpl; unfold flag, modify; simpl; rewrite ?flag_keep by done; try done.
  apply list_elem_of_lookup_2, (cb_firing _ B) in Heqo. rewrite flag_alter, decide_True by done.
  unfold flag in Heqo. by destruct (objects p !! n).
Qed.

Lemma reachable_requested p : reachable p -> requested p.
Proof.
  revert p. apply reachable_inv; [apply requested_initial|].
  intros; eapply requested_step; [by apply delay_reachable_accounting|by apply reachable_lifecycle
    |by apply reachable_callbacks|done..].
Qed.

(** When a timer of task [k] may have the key [key]. *)
Definition justified (key : Z) (k : nat) (p : Pool) : Prop :=
  match (objects p !! k : option DelayTask) with
  | Some t => (key = plannedAt t /\ retriedAt t = None) \/ (key = time_point_min /\ cancelRequested t = true) \/
              retriedAt t = Some key
  | None => False
  end.

Record timely (p : Pool) : Prop := {
  tm_waiting : forall k runAt immediate, waiting p !! k = Some (runAt, immediate) ->
    justified runAt k p;
  tm_timers : forall key k, (key, k) ∈ timers p -> justified key k p;
}.

Lemma justified_ext p p' key k :
  justified key k p -> (forall t, objects p !! k = Some t ->
    exists t', objects p' !! k = Some t' /\ plannedAt t' = plannedAt t /\
      (cancelRequested t = true -> cancelRequested t' = true) /\
      retriedAt t' = retriedAt t) ->
  justified key k p'.
Proof.
  unfold justified. intros Hj Ho. destruct (objects p !! k) as [t|]; [|done].
  destruct (Ho t eq_refl) as (t' & -> & -> & Hc & ->). tauto.
Qed.

(** No timer is new and no task forgets what justifies its timer. *)
Lemma timely_ext p p' :
  timely p -> (forall key k, (key, k) ∈ timers p' -> (key, k) ∈ timers p \/ justified key k p') ->
  (forall k w, waiting p' !! k = Some w -> waiting p !! k = Some w) ->
  (forall k t, objects p !! k = Some t ->
    exists t', objects p' !! k = Some t' /\ plannedAt t' = plannedAt t /\
      (cancelRequested t = true -> cancelRequested t' = true) /\
      retriedAt t' = retriedAt t) ->
  timely p'.
Proof.
  intros [] F1 F2 F3. split.
  - intros k r i Hw. eapply justified_ext; [by eapply tm_waiting0, F2|apply F3].
  - intros key k Hk. destruct (F1 key k Hk); [|done]. eapply justified_ext; [by eapply tm_timers0|apply F3].
Qed.

Lemma altered (f : DelayTask -> DelayTask) n (o : gmap nat DelayTask) :
  (forall t, plannedAt (f t) = plannedAt t) ->
  (forall t, cancelRequested t = true -> cancelRequested (f t) = true) ->
  (forall t, retriedAt (f t) = retriedAt t) ->
  forall k t, o !! k = Some t ->
    exists t', alter f n o !! k = Some t' /\ plannedAt t' = plannedAt t /\
      (cancelRequested t = true -> cancelRequested t' = true) /\
      retriedAt t' = retriedAt t.
Proof.
  intros H1 H2 H3 k t Ht. destruct (decide (n = k)) as [->|].
  - exists (f t). rewrite lookup_alter_eq, Ht. auto.
  - exists t. by rewrite lookup_alter_ne.
Qed.

Ltac by_altered := simpl; intros; first [by (eexists; eauto) | by apply altered].


(** One timer of task [k] is added. *)
Lemma timely_insert p p' key k :
  timely p -> timers p' ≡ₚ (key, k) :: timers p \/ timers p' ≡ₚ (key, k) :: timers_extract k (timers p) ->
  justified key k p' ->
  (forall j w, waiting p' !! j = Some w -> waiting p !! j = Some w) ->
  (forall j t, objects p !! j = Some t ->
    exists t', objects p' !! j = Some t' /\ plannedAt t' = plannedAt t /\
      (cancelRequested t = true -> cancelRequested t' = true) /\
      retriedAt t' = retriedAt t) ->
  timely p'.
Proof.
  intros T Et Hj F1 F2. apply (timely_ext _ _ T); try done.
  intros key' j Hin. destruct Et as [Et|Et]; rewrite Et in Hin;
    apply elem_of_cons in Hin as [?|Hin]; simplify_eq; auto.
  apply list_elem_of_filter in Hin as [_ Hin]. auto.
Qed.

Lemma justified_flag k p p' :
  flag cancelRequested k p = true -> (forall t, objects p !! k = Some t ->
    exists t', objects p' !! k = Some t' /\ plannedAt t' = plannedAt t /\
      (cancelRequested t = true -> cancelRequested t' = true) /\
      retriedAt t' = retriedAt t) -> justified time_point_min k p'.
Proof.
  unfold flag, justified. intros Hc Ho. destruct (objects p !! k) as [t|]; [|done].
  destruct (Ho t eq_refl) as (t' & -> & _ & H & _). auto.
Qed.

Lemma timely_step p p' :
  accounting p -> requested p -> timely p -> step p p' -> timely p'.
Proof.
  intros A R T Hs. step_cases Hs; ensure_cases.
  all: repeat match goal with |- context [if flag ?g ?k ?p then _ else _] =>
    destruct (flag g k p) eqn:? end.
  all: try exact T.
  all: try (apply (timely_ext _ _ T); [by left|by_waiting|by_altered]; fail).
  all: try (eapply (timely_insert p); [exact T|left; simpl; apply timers_insert_perm|
    first [ eapply (justified_flag _ p); [eassumption|by_altered]
          | eapply (justified_ext p); [by eapply tm_waiting|by_altered] ]
    |by_waiting|by_altered]; fail).
  - (* begin *)
    assert (Ho : forall j t, objects p !! j = Some t -> k <> j) by (intros j t Ht ->; congruence).
    destruct T. split; simpl.
    + intros j r i Hw. apply lookup_insert_Some in Hw as [[<- [= <- <-]]|[Hne Hw]].
      * unfold justified. simpl. rewrite lookup_insert_eq. auto.
      * eapply (justified_ext p); [by eapply tm_waiting0|]. intros t Ht. simpl.
        rewrite lookup_insert_ne by done. eauto.
    + intros key j Hin. eapply (justified_ext p); [by eapply tm_timers0|]. intros t Ht. simpl.
      rewrite lookup_insert_ne by eauto. eauto.
  - (* drain *)
    eapply (timely_insert p); [exact T|right; simpl; apply timers_insert_perm| |by_waiting|by_altered].
    eapply (justified_flag _ p); [|by_altered]. apply (rq_inbox _ R). right. unfold draining.
    rewrite Heqo. left.
  - (* inspect *)
    apply (timely_ext _ _ T); [|by_waiting|by_altered]. simpl. intros key j Hin. left.
    match goal with E : timers p = _ |- _ => rewrite E end. by right.
  - (* retry *)
    assert (Hk : k ∈ accepted p).
    { rewrite (ac_tasks _ A). unfold hand. rewrite Heqo, !elem_of_app, list_elem_of_singleton. auto. }
    pose proof (tasks_nodup p A) as Hnd. unfold hand in Hnd. rewrite Heqo in Hnd.
    assert (Hout : forall key, (key, k) ∉ timers p).
    { intros key Hin. apply NoDup_app in Hnd as (_ & Hnd & _). apply (Hnd k); [|left].
      apply list_elem_of_fmap. by exists (key, k). }
    assert (Hkeep : forall key j, j <> k -> justified key j p -> justified key j (p |> set_timers (timers_insert (now e) k (timers p))
      |> modify k (fun t => set_queued true (set_retriedAt (Some (now e)) t)) |> set_scheduler (Some ScPause))).
    { intros key j Hj. unfold justified, modify. simpl. by rewrite lookup_alter_ne. }
    split; simpl.
    + intros j r i Hw. apply Hkeep; [|by eapply (tm_waiting _ T)]. intros ->. by destruct (ac_waiting _ A k _ Hw).
    + intros key j Hin. rewrite timers_insert_perm in Hin. apply elem_of_cons in Hin as [[= -> ->]|Hin].
      * unfold justified, modify. simpl. rewrite lookup_alter_eq. destruct (ac_objects _ A k Hk) as [t ->]. simpl. auto.
      * apply Hkeep; [|by apply (tm_timers _ T)]. intros ->. by apply Hout in Hin.
Qed.

Lemma reachable_timely p : reachable p -> timely p.
Proof.
  revert p. apply reachable_inv; [split; simpl; [done|by intros ? ? ?%elem_of_nil]|].
  intros; eapply timely_step; [by apply delay_reachable_accounting|by apply reachable_requested|done..].
Qed.

(** ** A task with a timer was admitted *)
Definition entered (p : Pool) : Prop := forall k,
  flag queued k p = true \/ k ∈ hand p ->
  flag admitted k p = true \/ admitting p = Some (k, AStore).

Lemma entered_ext p p' :
  entered p ->
  (forall k, flag queued k p' = true \/ k ∈ hand p' -> flag queued k p = true \/ k ∈ hand p) ->
  (forall k, flag admitted k p = true -> flag admitted k p' = true) ->
  (forall k, admitting p = Some (k, AStore) -> flag admitted k p' = true \/ admitting p' = Some (k, AStore)) ->
  entered p'.
Proof. intros E F1 F2 F3 k Hk. destruct (E k (F1 k Hk)); auto. Qed.

Lemma entered_step p p' : accounting p -> lifecycle p -> entered p -> step p p' -> entered p'.
Proof.
  intros A L E Hs. step_cases Hs; ensure_cases.
  all: try match goal with X : storage _ = false |- _ => destruct (lc_storage _ L X) end.
  all: repeat match goal with |- context [if flag ?g ?k ?p then _ else _] =>
    destruct (flag g k p) eqn:? end.
  all: try exact E.
  all: try (apply (entered_ext _ _ E);
    [ intros ?; unfold hand, flag, modify; simpl; rewrite ?flag_keep by done;
      try (match goal with X : scheduler _ = _ |- _ => rewrite X end); first [exact id | tauto]
    | intros ?; unfold flag, modify; simpl; rewrite ?flag_keep by done; exact id
    | simpl; first [by right | intros ? X; congruence] ]; fail).
  all: try (intros j; unfold hand, flag, modify; simpl; rewrite ?flag_alter;
    try (match goal with X : scheduler _ = _ |- _ => rewrite X end);
    case_decide as D; [subst j; auto|]; intros Hj;
    specialize (E j); unfold hand, flag, mu_free in *;
    try (match goal with X : scheduler _ = _ |- _ => rewrite X in E end);
    pose proof (not_elem_of_nil j);
    destruct (admitting p) as [[? ?]|]; [done|]; left; destruct E as [?|?]; [tauto|done..]; fail).
  - intros j. rewrite !begin_flag by done. case_decide; [|apply E]. subst j.
    intros [?|Hh]; [done|]. exfalso.
    assert (Hk : k ∈ accepted p) by (rewrite (ac_tasks _ A), !elem_of_app; auto).
    destruct (ac_objects _ A k Hk). congruence.
  - pose proof (ac_admitting _ A _ _ Heqo) as Hn. destruct (ac_objects _ A n Hn) as [t Ht].
    apply (entered_ext _ _ E); simpl.
    + intros j. unfold flag, modify. simpl. by rewrite flag_keep by done.
    + raise_flag.
    + intros j Hj. left. unfold flag, modify. simpl. simplify_eq.
      by rewrite flag_alter, decide_True, Ht by done.
  - intros j. specialize (E j). unfold hand, flag in *. rewrite Heqo in E. by destruct last0.
  - (* inspect *)
    assert (Hn : flag queued n p = true).
    { apply (ac_queued _ A). match goal with X : timers p = _ |- _ => rewrite X end. left. }
    intros j. specialize (E j). unfold hand, flag, modify in *. simpl. rewrite !flag_alter.
    case_decide as D; [subst j|intros [?|?%list_elem_of_singleton]; [auto|congruence]].
    intros _. destruct E as [?|?]; [auto|destruct (objects p !! n); auto|auto].
  - intros j. specialize (E j). unfold hand, flag in *. rewrite Heqo in E. simpl.
    intros [?|?%elem_of_nil]; [auto|done].
  - (* retry *)
    intros j. specialize (E j). unfold hand, flag, modify in *. rewrite Heqo in E. simpl.
    rewrite !flag_alter, list_elem_of_singleton in *.
    case_decide as D; [subst j|intros [?|?%elem_of_nil]; [auto|done]].
    intros _. destruct E as [?|?]; [auto|destruct (objects p !! k); auto|auto].
Qed.

Lemma queued_admitted p k :
  reachable p -> mu_free p = true -> flag queued k p = true -> flag admitted k p = true.
Proof.
  intros Hr Hmu Hq. assert (E : entered p).
  { revert p Hr Hmu Hq. intros p Hr _ _. revert p Hr. apply reachable_inv.
    - by intros j [?|?%elem_of_nil].
    - intros; eapply entered_step; [by apply delay_reachable_accounting|by apply reachable_lifecycle|done..]. }
  destruct (E k (or_introl Hq)) as [?|H]; [done|]. unfold mu_free in Hmu. by rewrite H in Hmu.
Qed.

(** ** Scripted runs *)
Inductive action :=
  | AStart (e : Env)
  | AStopCall (inside : bool)
  | AStop
  | ADelay (e : Env) (now2 : Z) (ctx : ContextState) (d : Z) (k : nat)
  | ALock (e : Env) (k x : nat)
  | AAdmit
  | AFire (k : nat)
  | AFiring (i : nat)
  | AScheduler (e : Env) (x : nat)
  | ACoro (x : nat).

Definition guard {A} (b : bool) (o : option A) : option A := if b then o else None.
Definition free {A} (x : nat) (m : gmap nat A) : bool :=
  match m !! x with None => true | Some _ => false end.

Definition perform (a : action) (p : Pool) : option Pool :=
  match a with
  | AStart e => guard (mu_free p) (Some (start e p).1)
  | AStopCall inside => guard (mu_free p) (fst <$> stop_call inside p)
  | AStop => stop_step p
  | ADelay e now2 ctx d k => guard (free k (objects p)) (Some (delay_begin e now2 ctx d k p).1)
  | ALock e k x => guard (free x (coros p)) (fst <$> delay_lock e k x p)
  | AAdmit => admit_step p
  | AFire k => guard (flag Delay.subscribed k p) (Some (fire k p))
  | AFiring i => fire_step i p
  | AScheduler e x => guard (free x (coros p)) (scheduler_step e x p)
  | ACoro x => coro_step x p
  end.

Fixpoint run (l : list action) (p : Pool) : option Pool :=
  match l with
  | [] => Some p
  | a :: l' => match perform a p with Some p' => run l' p' | None => None end
  end.

Lemma delay_perform_step a p p' : perform a p = Some p' -> step p p'.
Proof.
  destruct a; simpl; unfold guard, free; intros Hs;
    repeat match type of Hs with (if ?b then _ else _) = _ => destruct b eqn:?; [|done] end;
    simplify_eq.
  - eapply step_start; [done|apply surjective_pairing].
  - apply fmap_Some in Hs as ([q o] & Hs & ->). by eapply step_stop_call.
  - by apply step_stop.
  - eapply (step_begin e now2 ctx d k p); [by destruct (objects p !! k)|apply surjective_pairing].
  - apply fmap_Some in Hs as ([q o] & Hs & ->). eapply (step_lock e k x p); [by destruct (coros p !! x)|done].
  - by apply step_admit.
  - by apply step_fire.
  - by eapply step_firing.
  - eapply (step_scheduler e x p); [by destruct (coros p !! x)|done].
  - by eapply step_coro.
Qed.

Lemma delay_run_reachable l p : run l initial = Some p -> reachable p.
Proof.
  enough (Hrun : forall q, run l q = Some p -> rtc step q p) by apply Hrun.
  induction l as [|a l IH]; simpl; intros q Hq; [by simplify_eq|].
  destruct (perform a q) as [q'|] eqn:E; [|done]. eapply rtc_l; [by eapply delay_perform_step|by apply IH].
Qed.

(** Two callbacks, [1] due at 5 and [2] at 100 with a stop token that fires. *)
Definition env (t : Z) : Env := mkEnv t ∅ true.
Definition admission : list action := [AAdmit; AAdmit; AAdmit].
Definition cancellable : ContextState := set_stopToken (Some 7%nat) defaultContext.
Definition script_queued : list action :=
  [AStart (env 0); ADelay (env 0) 0 defaultContext 5 1; ALock (env 0) 1 0] ++ admission ++
  [ADelay (env 0) 0 cancellable 100 2; ALock (env 0) 2 0] ++ admission.
Definition script_cancelled : list action :=
  script_queued ++ [AFire 2; AFiring 0; AFiring 0; AFiring 0; AFiring 0; AFiring 0].
Definition script_inspecting : list action :=
  script_cancelled ++ repeat (AScheduler (env 0) 20) 3.
Definition script_finished : list action :=
  script_inspecting ++ repeat (AScheduler (env 0) 20) 2 ++ repeat (ACoro 20) 5 ++
  repeat (AScheduler (env 5) 21) 4 ++ repeat (ACoro 21) 5 ++
  [AStopCall false; AStop; AStop] ++ repeat (AScheduler (env 5) 22) 5 ++ repeat AStop 3.
Definition scripted (l : list action) : Pool := default initial (run l initial).

Lemma delay_scripted_reachable l : reachable (scripted l).
Proof.
  unfold scripted. destruct (run l initial) eqn:E; simpl; [by eapply delay_run_reachable|apply rtc_refl].
Qed.

(** ** Claims *)

(** C7. [stop] of the delay pool drains: when the pool is [kStopped] every accepted
    callback was executed, once; no timer is queued and no callback coroutine is alive,
    the scheduler is gone, and the cancellation inbox is empty, so that no task keeps
    itself alive through [cancellationKeepAlive]. *)
Theorem delay_stop_drains p :
  reachable p -> poolState p = kStopped ->
  executed p ≡ₚ accepted p /\ NoDup (executed p) /\ timers p = [] /\ scheduler p = None /\
  cancelledHead p = [] /\ admitting p = None /\
  forall x c, coros p !! x = Some c -> c.2 = CDone.
Proof.
  intros Hr Hst. pose proof (delay_reachable_accounting p Hr) as A. pose proof (reachable_lifecycle p Hr) as L.
  pose proof (reachable_inbox p Hr) as I.
  assert (Hs : stopper p = PReturned)
    by (pose proof (lc_stopper _ L) as Hl; destruct (stopper p); destruct_and?; congruence).
  pose proof (lc_scheduler _ L) as Hsc. pose proof (lc_pending _ L) as Hp.
  pose proof (ib_last _ I) as Hi. rewrite Hs in Hsc, Hp, Hi. rewrite Hsc in Hi.
  destruct (Hp eq_refl) as [Hz Ha]. destruct (pending_zero p A Hz) as (Ht & _ & Hd & He).
  split_and!; auto. rewrite He. apply A.
Qed.

Lemma delay_stop_drains_witness :
  poolState (scripted script_finished) = kStopped /\
  executed (scripted script_finished) = [2; 1]%nat /\
  executed (scripted script_finished) ≡ₚ accepted (scripted script_finished).
Proof.
  split; [vm_compute; reflexivity|]. split; [vm_compute; reflexivity|].
  apply (delay_stop_drains (scripted script_finished)); [apply delay_scripted_reachable|vm_compute; reflexivity].
Defined.

(** Every accepted callback is at each moment in exactly one place: a timer, the
    hands of the scheduler, a coroutine that has not run it yet, or the executed ones;
    [pending] counts those that are not retired. *)
Theorem delay_exactly_once p :
  reachable p ->
  accepted p ≡ₚ (timers p).*2 ++ hand p ++ tally unran (coros p) ++ executed p /\
  NoDup ((timers p).*2 ++ hand p ++ tally unran (coros p) ++ executed p) /\
  pending p = Z.of_nat (length (accepted p)) - Z.of_nat (length (executed p)) +
              count retiring (coros p).
Proof.
  intros Hr. pose proof (delay_reachable_accounting p Hr) as A.
  split; [apply A|]. split; [by apply tasks_nodup|apply A].
Qed.

Lemma delay_exactly_once_witness :
  accepted (scripted script_cancelled) = [1; 2]%nat /\ pending (scripted script_cancelled) = 2 /\
  NoDup ((timers (scripted script_cancelled)).*2 ++ hand (scripted script_cancelled) ++
    tally unran (coros (scripted script_cancelled)) ++ executed (scripted script_cancelled)).
Proof.
  split; [vm_compute; reflexivity|]. split; [vm_compute; reflexivity|].
  apply (delay_exactly_once (scripted script_cancelled)), delay_scripted_reachable.
Defined.

(** C10. No cancellation is lost (under sequentially consistent accesses): once a stop
    callback of a queued task has fired and neither a stop callback of it nor an admission is
    in progress, the task has a time [due] at which it is to be taken: the beginning of time, or,
    when its dispatch had failed, the time of that failure.  It has a timer with this time, or is
    in the inbox, or among those the scheduler is draining; and the scheduler is awake: it is
    there and has a step, whatever the clock says from [due] on, so that it does not sleep
    until the time the task was planned for. *)
Theorem no_lost_cancellation p k :
  reachable p -> flag cancelRequested k p = true -> flag queued k p = true ->
  quiet_callbacks k p = true -> mu_free p = true ->
  exists t due, objects p !! k = Some t /\ (due = time_point_min \/ retriedAt t = Some due) /\
    ((due, k) ∈ timers p \/ k ∈ cancelledHead p \/ k ∈ draining p) /\
    forall e x, due <= now e -> is_Some (scheduler_step e x p).
Proof.
  intros Hr Hc Hq Hqc Hmu. pose proof (delay_reachable_accounting p Hr) as A.
  assert (Hno : forall pc, (k, pc) ∉ firing p).
  { unfold quiet_callbacks in Hqc. apply bool_decide_eq_true in Hqc. rewrite list.Forall_forall in Hqc.
    intros pc Hin. by apply Hqc in Hin. }
  assert (Hna : forall x, admitting p <> Some x)
    by (intros x Hx; unfold mu_free in Hmu; by rewrite Hx in Hmu).
  pose proof (queued_admitted p k Hr Hmu Hq) as Had.
  assert (Hp : flag cancellationPublished k p = true).
  { destruct (reachable_heard p Hr k Hc Had) as [?|[H|[H|[H|H]]]]; [done|..];
      first [by apply Hna in H | by apply Hno in H]. }
  assert (Ht : exists t, objects p !! k = Some t) by (unfold flag in Hq; destruct (objects p !! k); [by eexists|done]).
  destruct Ht as [t Ht].
  assert (Hdue : exists due, (due = time_point_min \/ retriedAt t = Some due) /\
    ((due, k) ∈ timers p \/ k ∈ cancelledHead p \/ k ∈ draining p)).
  { destruct (reachable_delivered p Hr k Hp Hq) as [?|[?|[?|[H|[H|Hre]]]]];
      try (exists time_point_min; by auto); [by apply Hna in H|by apply Hno in H|].
    apply (ac_queued _ A), list_elem_of_fmap in Hq as ([key j] & -> & Hin). exists key. split; [|by left].
    pose proof (tm_timers _ (reachable_timely p Hr) _ _ Hin) as Hj. unfold justified in Hj. simpl in *. rewrite Ht in Hj.
    unfold flag, retried in Hre. rewrite Ht in Hre. destruct Hj as [[_ Hn]|[[-> _]|Hk]]; [by rewrite Hn in Hre|auto|auto]. }
  destruct Hdue as (due & Hd & Hw). exists t, due. split_and!; [done|done|done|].
  intros e x Hle. by eapply scheduler_moves.
Qed.

(** The scheduler sleeps until 5 when task 2, which is due at 100, is cancelled at 0. *)
Definition script_asleep : list action :=
  script_queued ++ repeat (AScheduler (env 0) 20) 7 ++ [AFire 2; AFiring 0; AFiring 0; AFiring 0; AFiring 0; AFiring 0].
Lemma no_lost_cancellation_witness :
  flag cancelRequested 2 (scripted script_asleep) = true /\ scheduler (scripted script_asleep) = Some (ScWait (Some 5)) /\
  timers (scripted script_asleep) = [(5, 1%nat); (100, 2%nat)] /\
  exists t due, objects (scripted script_asleep) !! 2%nat = Some t /\ (due = time_point_min \/ retriedAt t = Some due) /\
    ((due, 2%nat) ∈ timers (scripted script_asleep) \/ 2%nat ∈ cancelledHead (scripted script_asleep) \/
     2%nat ∈ draining (scripted script_asleep)) /\
    forall e x, due <= now e -> is_Some (scheduler_step e x (scripted script_asleep)).
Proof.
  split; [vm_compute; reflexivity|]. split; [vm_compute; reflexivity|]. split; [vm_compute; reflexivity|].
  apply (no_lost_cancellation (scripted script_asleep) 2);
    [apply delay_scripted_reachable|vm_compute; reflexivity..].
Defined.

(** Nothing runs early: the timer the scheduler takes for dispatch is due, no queued
    timer is due before it, and its task has reached the time [delay] computed for it,
    unless its context was cancelled (or an earlier dispatch of it failed). *)
Theorem never_early e x p p' k :
  reachable p -> scheduler p = Some ScInspect -> scheduler_step e x p = Some p' ->
  scheduler p' = Some (ScDispatch k) ->
  exists key t, (key, k) ∈ timers p /\ key <= now e /\
    (forall key' k', (key', k') ∈ timers p -> key <= key') /\
    objects p !! k = Some t /\
    (plannedAt t <= now e \/ cancelRequested t = true \/ retried t = true).
Proof.
  intros Hr Hsc Hs Hd. pose proof (ac_sorted _ (delay_reachable_accounting p Hr)) as Hso.
  pose proof (tm_timers _ (reachable_timely p Hr)) as Ht.
  unfold scheduler_step in Hs. rewrite Hsc in Hs. split_step Hs; simpl in Hd; simplify_eq.
  match goal with E : (_ <=? _) = true |- _ => apply Z.leb_le in E as Hle end.
  assert (Hin : (z, k) ∈ (z, k) :: l) by left.
  specialize (Ht z k Hin). unfold justified in Ht. destruct (objects p !! k) as [t|]; [|done].
  exists z, t. split; [done|]. split; [done|]. split.
  - apply StronglySorted_inv in Hso as [_ Hso]. rewrite list.Forall_forall in Hso.
    intros key' k' [?|Hk]%elem_of_cons; [simplify_eq; lia|]. apply (Hso _ Hk).
  - split; [done|]. unfold retried. destruct Ht as [[-> _]|[[_ ?]| ->]]; auto.
Qed.

Lemma never_early_witness :
  exists key t, (key, 2%nat) ∈ timers (scripted script_inspecting) /\ key <= 0 /\
    (forall key' k', (key', k') ∈ timers (scripted script_inspecting) -> key <= key') /\
    objects (scripted script_inspecting) !! 2%nat = Some t /\
    (plannedAt t <= 0 \/ cancelRequested t = true \/ retried t = true).
Proof.
  apply (never_early (env 0) 20 (scripted script_inspecting)
           (default initial (scheduler_step (env 0) 20 (scripted script_inspecting))));
    [apply delay_scripted_reachable|vm_compute; reflexivity..].
Defined.

Lemma saturatedAdd_range now d :
  in_int64 now -> now <= saturatedAdd now d <= int64_max /\
  (saturatedAdd now d = int64_max \/ saturatedAdd now d = now + Z.max 0 d).
Proof.
  unfold in_int64, saturatedAdd. intros Hn. repeat split_case; bool_to_prop; lia.
Qed.

(** When a callback is to run: [delay] rejects a call exactly when its context is
    cancelled or its deadline has passed; otherwise the time is the sum of now and a
    positive delay, clamped to the largest time point instead of overflowing, or the
    context's deadline when that is earlier, and it is never in the past. *)
Theorem delay_plan_exact srcs now now2 ctx d :
  in_int64 now ->
  match delay_plan srcs now now2 ctx d with
  | Err err => err = PoolCancelledError /\
      (cancelled srcs now2 ctx = true \/ deadline_reached (deadline ctx) now = true)
  | Ok (runAt, wins) =>
      cancelled srcs now2 ctx = false /\ deadline_reached (deadline ctx) now = false /\
      now <= runAt /\
      runAt = match deadline ctx with
              | Some dl => Z.min dl (Z.min int64_max (now + Z.max 0 d))
              | None => Z.min int64_max (now + Z.max 0 d)
              end /\
      wins = match deadline ctx with
             | Some dl => dl <? Z.min int64_max (now + Z.max 0 d)
             | None => false
             end
  end.
Proof.
  intros Hn. assert (E : saturatedAdd now d = Z.min int64_max (now + Z.max 0 d)).
  { destruct (saturatedAdd_range now d Hn) as [Hr [E|E]]; unfold in_int64, saturatedAdd in *;
      repeat (case_match; bool_to_prop; try lia). }
  destruct (saturatedAdd_range now d Hn) as [Hr _].
  unfold delay_plan. rewrite E in *. unfold deadline_reached.
  destruct (cancelled srcs now2 ctx); [auto|].
  destruct (deadline ctx) as [dl|]; repeat (case_match; bool_to_prop; simplify_eq);
    split_and?; auto; try lia; try (by apply Z.leb_gt; lia); try (by apply Z.leb_le; lia).
Qed.

Lemma delay_plan_exact_witness :
  delay_plan ∅ 10 10 (set_deadline (Some 15) defaultContext) int64_max = Ok (15, true) /\
  match delay_plan ∅ 10 10 defaultContext int64_max with
  | Ok (runAt, wins) => runAt = int64_max /\ wins = false
  | Err _ => False
  end.
Proof.
  split; [vm_compute; reflexivity|].
  assert (Hn : in_int64 10) by (unfold in_int64, int64_min, int64_max; lia).
  pose proof (delay_plan_exact ∅ 10 10 defaultContext int64_max Hn) as H.
  destruct (delay_plan ∅ 10 10 defaultContext int64_max) as [[r w]|err]; simpl in H.
  - destruct H as (_ & _ & _ & Hr & Hw). split; [|exact Hw]. rewrite Hr. vm_compute. reflexivity.
  - destruct H as (_ & [H|H]); vm_compute in H; discriminate.
Defined.
