(* ===== verification/DelayFence.v ===== *)
(** * The cancellation handshake with store buffers

    [delay] stores [admitted] with release order and then loads [cancelRequested] with
    acquire order; a stop callback updates [cancelRequested] and then loads [admitted].
    Each must see the other's write or the cancellation is lost, but a release store
    followed by an acquire load of another object may be reordered: on x86 the store
    waits in the store buffer of its core while the load reads memory.  This file has
    the two fragments over such a buffer.  [fenced] tells whether the store is drained
    before the load, as sequentially consistent accesses would do. *)
From S2P Require Import Prelude.

Module Fence.
(** [delay] from the store of [admitted] on, and the callback [onCancel]. *)
Inductive DelayPc := DStore | DLoad | DPublish | DDone.
Inductive CallbackPc := KCas | KLoad | KPublish | KDone.

Record State := mkState {
  cancelRequested : bool;
  admitted : bool;
  cancellationPublished : bool;
  buffered : bool;  (* the store of [admitted] is in the buffer of [delay]'s core *)
  delay_pc : DelayPc;
  callback_pc : CallbackPc;
}.

Definition initial : State := mkState false false false false DStore KCas.

(** The buffer reaches memory. *)
Definition flush (s : State) : option State :=
  if buffered s
  then Some (mkState (cancelRequested s) true (cancellationPublished s) false
               (delay_pc s) (callback_pc s))
  else None.

(** One access of [delay].  The exchange in [publishCancellation] is a locked
    instruction: it waits until the buffer is empty. *)
Definition delay_access (fenced : bool) (s : State) : option State :=
  match delay_pc s with
  | DStore =>
      Some (mkState (cancelRequested s) (admitted s) (cancellationPublished s) true
              DLoad (callback_pc s))
  | DLoad =>
      if fenced && buffered s then None
      else Some (mkState (cancelRequested s) (admitted s) (cancellationPublished s) (buffered s)
                   (if cancelRequested s then DPublish else DDone) (callback_pc s))
  | DPublish =>
      if buffered s then None
      else Some (mkState (cancelRequested s) (admitted s) true (buffered s) DDone (callback_pc s))
  | DDone => None
  end.

(** One access of the stop callback; it stores nothing but through locked instructions. *)
Definition callback_access (s : State) : option State :=
  match callback_pc s with
  | KCas =>
      Some (mkState true (admitted s) (cancellationPublished s) (buffered s) (delay_pc s) KLoad)
  | KLoad =>
      Some (mkState (cancelRequested s) (admitted s) (cancellationPublished s) (buffered s)
              (delay_pc s) (if admitted s then KPublish else KDone))
  | KPublish =>
      Some (mkState (cancelRequested s) (admitted s) true (buffered s) (delay_pc s) KDone)
  | KDone => None
  end.

Inductive step (fenced : bool) : State -> State -> Prop :=
  | step_flush s s' : flush s = Some s' -> step fenced s s'
  | step_delay s s' : delay_access fenced s = Some s' -> step fenced s s'
  | step_callback s s' : callback_access s = Some s' -> step fenced s s'.

(** Both fragments have run and the buffer is empty. *)
Definition finished (s : State) : Prop :=
  delay_pc s = DDone /\ callback_pc s = KDone /\ buffered s = false.

(** A request that was missed so far will be noticed by the other side. *)
Record handshake (s : State) : Prop := {
  hs_delay : delay_pc s = DStore <-> admitted s = false /\ buffered s = false;
  hs_load : delay_pc s = DPublish \/ delay_pc s = DDone -> admitted s = true;
  hs_callback : cancelRequested s = true <-> callback_pc s <> KCas;
  hs_done : delay_pc s = DDone -> cancellationPublished s = true \/ callback_pc s <> KDone;
  hs_buffer : buffered s = true -> admitted s = false;
}.

Lemma handshake_step s s' : handshake s -> step true s s' -> handshake s'.
Proof.
  intros [] Hs.
  destruct Hs as [s s' Hs|s s' Hs|s s' Hs]; destruct s as [cr ad pu bu dp kp];
    unfold flush, delay_access, callback_access in Hs; simpl in *;
    destruct cr, ad, pu, bu, dp, kp; simpl in *; simplify_eq; split; simpl; intuition congruence.
Qed.

(** With sequentially consistent accesses the handshake closes the race. *)
Theorem fenced_publishes s :
  rtc (step true) initial s -> finished s -> cancellationPublished s = true.
Proof.
  intros Hr (H1 & H2 & _). assert (H : handshake s).
  { revert s Hr H1 H2. intros s Hr _ _. revert s Hr. apply (rtc_ind_r handshake).
    - split; simpl; intuition congruence.
    - intros s s' _ Hs H. by eapply handshake_step. }
  by destruct (hs_done _ H H1).
Qed.

(** With release stores and acquire loads it does not: both sides finish, the task is
    admitted and its cancellation requested, and nobody has published it. *)
Theorem unfenced_loses_cancellation :
  exists s, rtc (step false) initial s /\ finished s /\ admitted s = true /\
    cancelRequested s = true /\ cancellationPublished s = false.
Proof.
  exists (mkState true true false false DDone KDone). split; [|done].
  eapply rtc_l; [by eapply step_delay|]. eapply rtc_l; [by eapply step_delay|].
  eapply rtc_l; [by eapply step_callback|]. eapply rtc_l; [by eapply step_callback|].
  eapply rtc_l; [by eapply step_flush|]. apply rtc_refl.
Qed.
End Fence.
