(* ===== verification/RotatingMap.v ===== *)
(** * RotatingMap

    runtime/store/rotatingmap.hpp: a sharded hash map of two generations.  A timer
    merges both generations of a shard into a map of the right capacity once the shard
    has shrunk to a quarter of its high-water mark.  The model has the shards with their
    locks as atomic operations, the lifecycle and the timer coroutine, which takes one
    shard at a time; the claim is that the whole refines one finite map, whatever the
    timer does. *)
From Stdlib Require Import ZArith Lia.
From S2P Require Import Prelude.
Local Open Scope Z_scope.

Module Rotating.

Definition kRotatingMapShrinkFactor : Z := 4.
Definition kRotatingMapShardCount : nat := 64.
Definition kRotatingMapMinCapacity : Z := 1000.

(** storage.hpp *)
Inductive StoreError :=
  | StoreAlreadyStartedError | StoreStoppedError | StoreNotStartedError
  | DuplicateKeyError | InvalidArgument | SpawnFailed | FactoryFailed.

Inductive State := kCreated | kRunning | kStopping | kStopped | kFailed.

#[export] Instance State_eq_dec : EqDecision State.
Proof. solve_decision. Defined.

(** [timerLoop] with [rotate] in it. *)
Inductive TimerPc := TmNone | TmTop | TmSleep | TmAwake | TmCheck | TmShard (i : nat) | TmDone.

(** [stop] by the caller that owns the transition. *)
Inductive StopperPc := RIdle | RCancel | RJoin | RFinish | RReturned.

Section Map.
Context {K V : Type} `{Countable K}.
(** [hash_], any function into [size_t]. *)
Variable hash_ : K -> nat.

Record Shard := mkShard {
  current : gmap K V;
  previous : gmap K V;
  highWaterMark : Z;
}.

Record RotatingMap := mkMap {
  interval_ : Z;
  minCapacity_ : Z;
  shards_ : list Shard;
  state_ : State;
  timer : TimerPc;
  timerCancel : bool;
  stopper : StopperPc;
}.

Definition set_shards v m : RotatingMap :=
  mkMap (interval_ m) (minCapacity_ m) v (state_ m) (timer m) (timerCancel m) (stopper m).
Definition set_state v m : RotatingMap :=
  mkMap (interval_ m) (minCapacity_ m) (shards_ m) v (timer m) (timerCancel m) (stopper m).
Definition set_timer v m : RotatingMap :=
  mkMap (interval_ m) (minCapacity_ m) (shards_ m) (state_ m) v (timerCancel m) (stopper m).
Definition set_timerCancel v m : RotatingMap :=
  mkMap (interval_ m) (minCapacity_ m) (shards_ m) (state_ m) (timer m) v (stopper m).
Definition set_stopper v m : RotatingMap :=
  mkMap (interval_ m) (minCapacity_ m) (shards_ m) (state_ m) (timer m) (timerCancel m) v.

Definition emptyShard : Shard := mkShard ∅ ∅ 0.

(** The constructor. *)
Definition make (interval minCapacity : Z) : result StoreError RotatingMap :=
  if interval <=? 0 then Err InvalidArgument
  else Ok (mkMap interval minCapacity (replicate kRotatingMapShardCount emptyShard)
             kCreated TmNone false RIdle).

(** ** Lifecycle *)
Definition start (spawn_ok : bool) (m : RotatingMap) : RotatingMap * result StoreError unit :=
  match state_ m with
  | kCreated =>
      if spawn_ok then (m |> set_state kRunning |> set_timer TmTop, Ok tt)
      else (set_state kFailed m, Err SpawnFailed)
  | kRunning | kFailed => (m, Err StoreAlreadyStartedError)
  | kStopping | kStopped => (m, Err StoreStoppedError)
  end.

(** The first critical section of [stop]; [None] while another call owns it. *)
Definition stop_call (m : RotatingMap) : option RotatingMap :=
  match state_ m with
  | kStopped => Some m
  | kStopping => None
  | _ => Some (m |> set_state kStopping |> set_stopper RCancel)
  end.

Definition stop_step (m : RotatingMap) : option RotatingMap :=
  match stopper m with
  | RIdle | RReturned => None
  | RCancel =>
      match timer m with
      | TmNone => Some (set_stopper RFinish m)
      | _ => Some (m |> set_timerCancel true |> set_stopper RJoin)
      end
  | RJoin => match timer m with TmDone => Some (set_stopper RFinish m) | _ => None end
  | RFinish => Some (m |> set_state kStopped |> set_stopper RReturned)
  end.

(** ** Operations *)
Definition shardIndex (key : K) : nat := (hash_ key mod kRotatingMapShardCount)%nat.
Definition shardFor (key : K) (m : RotatingMap) : Shard :=
  default emptyShard (shards_ m !! shardIndex key).
Definition update (i : nat) (f : Shard -> Shard) (m : RotatingMap) : RotatingMap :=
  set_shards (alter f i (shards_ m)) m.

Definition emplace (key : K) (value : V) (s : Shard) : Shard :=
  mkShard (<[key := value]> (current s)) (previous s) (highWaterMark s).
Definition erase_current (key : K) (s : Shard) : Shard :=
  mkShard (delete key (current s)) (previous s) (highWaterMark s).
Definition erase_previous (key : K) (s : Shard) : Shard :=
  mkShard (current s) (delete key (previous s)) (highWaterMark s).

Definition set (key : K) (value : V) (m : RotatingMap) : RotatingMap * result StoreError unit :=
  let shard := shardFor key m in
  match current shard !! key, previous shard !! key with
  | None, None => (update (shardIndex key) (emplace key value) m, Ok tt)
  | _, _ => (m, Err DuplicateKeyError)
  end.

(** [factory]: [None] when it throws. *)
Definition getOrCreate (key : K) (factory : option V) (m : RotatingMap)
    : RotatingMap * result StoreError (V * bool) :=
  let shard := shardFor key m in
  match current shard !! key with
  | Some v => (m, Ok (v, true))
  | None =>
      match previous shard !! key with
      | Some v => (m, Ok (v, true))
      | None =>
          match factory with
          | Some v => (update (shardIndex key) (emplace key v) m, Ok (v, false))
          | None => (m, Err FactoryFailed)
          end
      end
  end.

Definition get (key : K) (m : RotatingMap) : option V :=
  let shard := shardFor key m in
  match current shard !! key with
  | Some v => Some v
  | None => previous shard !! key
  end.

Definition pop (key : K) (m : RotatingMap) : RotatingMap * option V :=
  let shard := shardFor key m in
  match current shard !! key with
  | Some v => (update (shardIndex key) (erase_current key) m, Some v)
  | None =>
      match previous shard !! key with
      | Some v => (update (shardIndex key) (erase_previous key) m, Some v)
      | None => (m, None)
      end
  end.

Definition shard_size (s : Shard) : nat := (size (current s) + size (previous s))%nat.
Definition msize (m : RotatingMap) : nat := sum_list (shard_size <$> shards_ m).

(** ** Rotation *)
Definition rotateShard (minCapacity : Z) (s : Shard) : Shard :=
  let total := Z.of_nat (shard_size s) in
  let shouldRotate := (highWaterMark s =? 0) ||
    (total <? (highWaterMark s + kRotatingMapShrinkFactor - 1) / kRotatingMapShrinkFactor) in
  let high := if highWaterMark s <? total then total else highWaterMark s in
  if high <? minCapacity then mkShard (current s) (previous s) high
  else if negb shouldRotate then mkShard (current s) (previous s) high
  else mkShard ∅ (current s ∪ previous s) total.

(** [timerLoop]: one step of the timer coroutine. *)
Definition timer_step (m : RotatingMap) : option RotatingMap :=
  match timer m with
  | TmNone | TmDone => None
  | TmTop => Some (set_timer (if timerCancel m then TmDone else TmSleep) m)
  | TmSleep => Some (set_timer TmAwake m)
  | TmAwake => Some (set_timer (if timerCancel m then TmDone else TmCheck) m)
  | TmCheck => Some (set_timer (if decide (state_ m = kRunning) then TmShard 0 else TmTop) m)
  | TmShard i =>
      if (i <? kRotatingMapShardCount)%nat
      then Some (m |> update i (rotateShard (minCapacity_ m)) |> set_timer (TmShard (S i)))
      else Some (set_timer TmTop m)
  end.

(** ** Steps, labelled with what the caller sees *)
Inductive event :=
  | ESet (key : K) (value : V) (r : result StoreError unit)
  | EGetOrCreate (key : K) (factory : option V) (r : result StoreError (V * bool))
  | EGet (key : K) (r : option V)
  | EPop (key : K) (r : option V)
  | EInternal.

Inductive step : event -> RotatingMap -> RotatingMap -> Prop :=
  | step_set key value m : step (ESet key value (set key value m).2) m (set key value m).1
  | step_getOrCreate key factory m :
      step (EGetOrCreate key factory (getOrCreate key factory m).2) m (getOrCreate key factory m).1
  | step_get key m : step (EGet key (get key m)) m m
  | step_pop key m : step (EPop key (pop key m).2) m (pop key m).1
  | step_start spawn_ok m : step EInternal m (start spawn_ok m).1
  | step_stop_call m m' : stop_call m = Some m' -> step EInternal m m'
  | step_stop m m' : stop_step m = Some m' -> step EInternal m m'
  | step_timer m m' : timer_step m = Some m' -> step EInternal m m'.
End Map.
Arguments RotatingMap K V {_ _}.
Arguments Shard K V {_ _}.
Arguments event K V : clear implicits.

(** ** The abstract map *)
Section Spec.
Context {K V : Type} `{Countable K}.
Implicit Types (a : gmap K V).

(** What each operation does to one finite map, and what it answers. *)
Definition spec (e : event K V) (a a' : gmap K V) : Prop :=
  match e with
  | ESet key value r =>
      match a !! key with
      | None => r = Ok tt /\ a' = <[key := value]> a
      | Some _ => r = Err DuplicateKeyError /\ a' = a
      end
  | EGetOrCreate key factory r =>
      match a !! key, factory with
      | Some v, _ => r = Ok (v, true) /\ a' = a
      | None, Some v => r = Ok (v, false) /\ a' = <[key := v]> a
      | None, None => r = Err FactoryFailed /\ a' = a
      end
  | EGet key r => r = a !! key /\ a' = a
  | EPop key r => r = a !! key /\ a' = delete key a
  | EInternal => a' = a
  end.
End Spec.

(** ** Refinement *)
Section Refinement.
Context {K V : Type} `{Countable K}.
Variable hash_ : K -> nat.
Implicit Types (m : RotatingMap K V) (s : Shard K V) (l : list (Shard K V)).

Definition contents s : gmap K V := current s ∪ previous s.
Definition abs_list l : gmap K V := foldr (fun s a => contents s ∪ a) ∅ l.
Definition abs m : gmap K V := abs_list (shards_ m).

(** Generations are disjoint and keys are in the shard of their hash. *)
Definition shard_ok (i : nat) s : Prop :=
  current s ##ₘ previous s /\ 0 <= highWaterMark s /\
  forall k, is_Some (contents s !! k) -> shardIndex hash_ k = i.

Record wf m : Prop := {
  wf_length : length (shards_ m) = kRotatingMapShardCount;
  wf_shards : forall i s, shards_ m !! i = Some s -> shard_ok i s;
}.

Lemma abs_list_lookup l k v :
  abs_list l !! k = Some v -> exists i s, l !! i = Some s /\ contents s !! k = Some v.
Proof.
  induction l as [|s l IH]; simpl; [by rewrite lookup_empty|]. intros Hk.
  apply lookup_union_Some_raw in Hk as [Hk|[_ Hk]].
  - by exists 0%nat, s.
  - destruct (IH Hk) as (i & t & Hi & Ht). by exists (S i), t.
Qed.

Lemma abs_list_some l i s k :
  l !! i = Some s -> is_Some (contents s !! k) -> is_Some (abs_list l !! k).
Proof.
  revert i. induction l as [|t l IH]; intros [|i] Hi Hk; simplify_eq/=.
  - apply lookup_union_is_Some. by left.
  - apply lookup_union_is_Some. right. eauto.
Qed.

Lemma shardFor_lookup m k :
  wf m -> shards_ m !! shardIndex hash_ k = Some (shardFor hash_ k m).
Proof.
  intros W. unfold shardFor. destruct (shards_ m !! shardIndex hash_ k) eqn:E; [done|].
  apply lookup_ge_None in E. rewrite (wf_length _ W) in E. unfold shardIndex in E.
  pose proof (Nat.mod_upper_bound (hash_ k) kRotatingMapShardCount). unfold kRotatingMapShardCount in *. lia.
Qed.

Lemma abs_lookup m k : wf m -> abs m !! k = contents (shardFor hash_ k m) !! k.
Proof.
  intros W. pose proof (shardFor_lookup m k W) as Hs. unfold abs.
  destruct (abs_list (shards_ m) !! k) as [v|] eqn:E.
  - destruct (abs_list_lookup _ _ _ E) as (i & s & Hi & Hk).
    destruct (wf_shards _ W i s Hi) as (_ & _ & Hx).
    rewrite (Hx k) in Hs by (rewrite Hk; eauto). congruence.
  - destruct (contents (shardFor hash_ k m) !! k) eqn:Hk; [|done].
    destruct (abs_list_some _ _ _ k Hs) as [? ?]; [by rewrite Hk|congruence].
Qed.

(** One shard changes. *)
Lemma update_shardFor m i f k :
  wf m -> shardFor hash_ k (update i f m) =
          if decide (shardIndex hash_ k = i) then f (shardFor hash_ k m) else shardFor hash_ k m.
Proof.
  intros W. unfold shardFor at 1, update. simpl. case_decide as E.
  - rewrite <- E, list_lookup_alter_eq, (shardFor_lookup m k W). done.
  - rewrite list_lookup_alter_ne by done. done.
Qed.

Lemma update_wf m i f :
  wf m -> (forall s, shards_ m !! i = Some s -> shard_ok i s -> shard_ok i (f s)) -> wf (update i f m).
Proof.
  intros W Hf. split.
  - unfold update. simpl. rewrite length_alter. apply W.
  - intros j s. unfold update. simpl. intros Hj.
    destruct (decide (i = j)) as [->|].
    + rewrite list_lookup_alter_eq in Hj. apply fmap_Some in Hj as (t & Ht & ->).
      apply Hf; [done|]. by apply (wf_shards _ W).
    + rewrite list_lookup_alter_ne in Hj by done. by apply (wf_shards _ W).
Qed.

Lemma update_abs m i f a :
  wf m -> wf (update i f m) ->
  (forall k, a !! k = if decide (shardIndex hash_ k = i)
                      then contents (f (shardFor hash_ k m)) !! k
                      else contents (shardFor hash_ k m) !! k) ->
  abs (update i f m) = a.
Proof.
  intros W W' Ha. apply map_eq. intros k. rewrite abs_lookup, update_shardFor, Ha by done.
  by case_decide.
Qed.

Lemma contents_lookup s k :
  contents s !! k = match current s !! k with Some v => Some v | None => previous s !! k end.
Proof.
  unfold contents. rewrite lookup_union. by destruct (current s !! k), (previous s !! k).
Qed.

Lemma emplace_ok i k v s :
  shard_ok i s -> shardIndex hash_ k = i -> current s !! k = None -> previous s !! k = None ->
  shard_ok i (emplace k v s).
Proof.
  intros (Hd & Hh & Hx) Hk Hc Hp. split; [|split; [done|]]; simpl.
  - by apply map_disjoint_insert_l.
  - intros j. rewrite contents_lookup. simpl. rewrite lookup_insert. case_decide as E; [by subst j|].
    rewrite <- contents_lookup. apply Hx.
Qed.

Lemma emplace_contents k v s j :
  contents (emplace k v s) !! j = if decide (k = j) then Some v else contents s !! j.
Proof. rewrite !contents_lookup. simpl. rewrite lookup_insert. by case_decide. Qed.

Lemma erase_current_ok i k s : shard_ok i s -> shard_ok i (erase_current k s).
Proof.
  intros (Hd & Hh & Hx). split; [|split; [done|]]; simpl.
  - by apply map_disjoint_delete_l.
  - intros j. rewrite contents_lookup. simpl. intros Hj. apply Hx. rewrite contents_lookup.
    rewrite lookup_delete in Hj. case_decide; [|done].
    destruct (current s !! j); [eauto|done].
Qed.

Lemma erase_previous_ok i k s : shard_ok i s -> shard_ok i (erase_previous k s).
Proof.
  intros (Hd & Hh & Hx). split; [|split; [done|]]; simpl.
  - by apply map_disjoint_delete_r.
  - intros j. rewrite contents_lookup. simpl. intros Hj. apply Hx. rewrite contents_lookup.
    destruct (current s !! j); [done|]. rewrite lookup_delete in Hj.
    case_decide; [by destruct Hj|done].
Qed.

Lemma erase_current_contents i k v s j :
  shard_ok i s -> current s !! k = Some v ->
  contents (erase_current k s) !! j = if decide (k = j) then None else contents s !! j.
Proof.
  intros (Hd & _) Hk. rewrite !contents_lookup. simpl. rewrite lookup_delete. case_decide; [|done].
  subst j. by eapply map_disjoint_Some_l.
Qed.

Lemma erase_previous_contents k s j :
  current s !! k = None ->
  contents (erase_previous k s) !! j = if decide (k = j) then None else contents s !! j.
Proof.
  intros Hk. rewrite !contents_lookup. simpl. rewrite lookup_delete. case_decide; [|done].
  subst j. by rewrite Hk.
Qed.

Lemma rotateShard_contents c s : contents (rotateShard c s) = contents s.
Proof.
  unfold rotateShard, contents. repeat case_match; simpl; try done; by rewrite (left_id_L ∅ (∪)).
Qed.

Lemma rotateShard_ok i c s : shard_ok i s -> shard_ok i (rotateShard c s).
Proof.
  intros (Hd & Hh & Hx). split; [|split].
  - unfold rotateShard. repeat case_match; simpl; try done; apply map_disjoint_empty_l.
  - unfold rotateShard. repeat (case_match; bool_to_prop); simpl; lia.
  - rewrite rotateShard_contents. done.
Qed.

(** Writes outside the shards. *)
Lemma same_shards m m' : shards_ m' = shards_ m -> wf m -> wf m' /\ abs m' = abs m.
Proof.
  intros E [W1 W2]. unfold abs. rewrite E. split; [|done]. split; rewrite E; done.
Qed.

Lemma rotate_refines m i :
  wf m -> wf (update i (rotateShard (minCapacity_ m)) m) /\
  abs (update i (rotateShard (minCapacity_ m)) m) = abs m.
Proof.
  intros W. assert (W' : wf (update i (rotateShard (minCapacity_ m)) m)).
  { apply update_wf; [done|]. intros s _ Hs. by apply rotateShard_ok. }
  split; [done|]. apply update_abs; [done..|]. intros k.
  rewrite rotateShard_contents, abs_lookup by done. by case_decide.
Qed.

Lemma insert_refines m k v :
  wf m -> abs m !! k = None ->
  wf (update (shardIndex hash_ k) (emplace k v) m) /\
  abs (update (shardIndex hash_ k) (emplace k v) m) = <[k := v]> (abs m).
Proof.
  intros W Hk. rewrite abs_lookup, contents_lookup in Hk by done.
  destruct (current (shardFor hash_ k m) !! k) eqn:Hc; [done|].
  assert (W' : wf (update (shardIndex hash_ k) (emplace k v) m)).
  { apply update_wf; [done|]. intros s Hs Hok. rewrite (shardFor_lookup m k W) in Hs. simplify_eq.
    by apply emplace_ok. }
  split; [done|]. apply update_abs; [done..|]. intros j. rewrite lookup_insert, abs_lookup by done.
  rewrite emplace_contents. repeat case_decide; congruence.
Qed.

Lemma erase_refines m k (f : Shard K V -> Shard K V) :
  wf m -> (forall s, shard_ok (shardIndex hash_ k) s -> shard_ok (shardIndex hash_ k) (f s)) ->
  (forall j, contents (f (shardFor hash_ k m)) !! j =
             if decide (k = j) then None else contents (shardFor hash_ k m) !! j) ->
  wf (update (shardIndex hash_ k) f m) /\
  abs (update (shardIndex hash_ k) f m) = delete k (abs m).
Proof.
  intros W Hf Hc. assert (W' : wf (update (shardIndex hash_ k) f m)).
  { apply update_wf; [done|]. intros s _. apply Hf. }
  split; [done|]. apply update_abs; [done..|]. intros j. rewrite lookup_delete, abs_lookup by done.
  destruct (decide (k = j)) as [<-|Hne].
  - rewrite decide_True by done. rewrite Hc, decide_True by done. done.
  - case_decide as E; [|done].
    assert (Es : shardFor hash_ j m = shardFor hash_ k m) by (unfold shardFor; by rewrite E).
    by rewrite Es, Hc, decide_False.
Qed.

Lemma step_refines e m m' : wf m -> step hash_ e m m' -> wf m' /\ spec e (abs m) (abs m').
Proof.
  intros W Hs. destruct Hs as [k v m|k f m|k m|k m|b m|m m' Hs|m m' Hs|m m' Hs]; simpl.
  - unfold set. pose proof (abs_lookup m k W) as Hk. rewrite contents_lookup in Hk.
    pose proof (insert_refines m k v W) as Hi.
    destruct (current (shardFor hash_ k m) !! k); [by rewrite Hk|].
    destruct (previous (shardFor hash_ k m) !! k); rewrite Hk; [done|]. simpl.
    destruct (Hi Hk) as [? ->]. done.
  - unfold getOrCreate. pose proof (abs_lookup m k W) as Hk. rewrite contents_lookup in Hk.
    destruct (current (shardFor hash_ k m) !! k); [by rewrite Hk|].
    destruct (previous (shardFor hash_ k m) !! k); rewrite Hk; [done|].
    destruct f as [v|]; [|done]. simpl. destruct (insert_refines m k v W Hk) as [? ->]. done.
  - unfold get. by rewrite abs_lookup, contents_lookup.
  - unfold pop. pose proof (abs_lookup m k W) as Hk. rewrite contents_lookup in Hk.
    pose proof (wf_shards _ W _ _ (shardFor_lookup m k W)) as Hok.
    destruct (current (shardFor hash_ k m) !! k) as [v|] eqn:Hc; [|destruct (previous _ !! k) eqn:Hp]; simpl.
    + destruct (erase_refines m k (erase_current k)) as [? ->]; try done.
      * intros s. apply erase_current_ok.
      * intros j. by eapply erase_current_contents.
    + destruct (erase_refines m k (erase_previous k)) as [? ->]; try done.
      * intros s. apply erase_previous_ok.
      * intros j. by apply erase_previous_contents.
    + split; [done|]. split; [done|]. symmetry. by apply delete_id.
  - apply same_shards; [|done]. unfold start. by repeat case_match.
  - apply same_shards; [|done]. unfold stop_call in Hs. by destruct (state_ m); simplify_eq.
  - apply same_shards; [|done]. unfold stop_step in Hs. by repeat (case_match; simplify_eq).
  - unfold timer_step in Hs. destruct (timer m); simplify_eq; try (by apply same_shards).
    destruct (i <? _)%nat; simplify_eq; [|by apply same_shards].
    destruct (rotate_refines m i W) as [W' Ha]. rewrite <- Ha. by apply same_shards.
Qed.

(** ** Size *)
Lemma abs_list_disjoint s l :
  (forall i t, l !! i = Some t -> contents s ##ₘ contents t) -> contents s ##ₘ abs_list l.
Proof.
  induction l as [|t l IH]; intros Hd; simpl; [apply map_disjoint_empty_r|].
  apply map_disjoint_union_r. split; [by apply (Hd 0%nat)|]. apply IH. intros i u Hi.
  by apply (Hd (S i)).
Qed.

Lemma abs_list_size l :
  (forall i j s t, i <> j -> l !! i = Some s -> l !! j = Some t -> contents s ##ₘ contents t) ->
  (forall i s, l !! i = Some s -> current s ##ₘ previous s) ->
  sum_list (shard_size <$> l) = size (abs_list l).
Proof.
  induction l as [|s l IH]; intros Hd Hg; [done|]. rewrite fmap_cons. simpl.
  rewrite map_size_disj_union; [|apply abs_list_disjoint; intros i t Hi; by apply (Hd 0%nat (S i))].
  unfold shard_size at 1. unfold contents at 1. rewrite map_size_disj_union by by apply (Hg 0%nat).
  rewrite IH; [done|..].
  - intros i j u t Hij Hi Hj. apply (Hd (S i) (S j)); [congruence|done..].
  - intros i u Hi. by apply (Hg (S i)).
Qed.

Lemma wf_size m : wf m -> msize m = size (abs m).
Proof.
  intros W. apply abs_list_size.
  - intros i j s t Hij Hi Hj. apply map_disjoint_spec. intros k x y Hx Hy.
    destruct (wf_shards _ W i s Hi) as (_ & _ & H1), (wf_shards _ W j t Hj) as (_ & _ & H2).
    apply Hij. rewrite <- (H1 k), <- (H2 k); eauto.
  - intros i s Hi. apply (wf_shards _ W i s Hi).
Qed.

(** ** Runs *)
Inductive steps : list (event K V) -> RotatingMap K V -> RotatingMap K V -> Prop :=
  | steps_nil m : steps [] m m
  | steps_cons e es m1 m2 m3 : step hash_ e m1 m2 -> steps es m2 m3 -> steps (e :: es) m1 m3.

Inductive specs : list (event K V) -> gmap K V -> gmap K V -> Prop :=
  | specs_nil a : specs [] a a
  | specs_cons e es a1 a2 a3 : spec e a1 a2 -> specs es a2 a3 -> specs (e :: es) a1 a3.

Lemma steps_refine es m m' : steps es m m' -> wf m -> wf m' /\ specs es (abs m) (abs m').
Proof.
  induction 1 as [m|e es m1 m2 m3 Hs _ IH]; intros W; [split; [done|constructor]|].
  destruct (step_refines e m1 m2 W Hs) as [W2 Hspec]. destruct (IH W2) as [W3 Hspecs].
  split; [done|]. by econstructor.
Qed.

Lemma make_wf i c m : make i c = Ok m -> wf m /\ abs m = ∅.
Proof.
  unfold make. destruct (i <=? 0); [done|]. intros [= <-]. split.
  - split; [by vm_compute|]. intros j s Hj.
    change (replicate kRotatingMapShardCount (emptyShard (K := K) (V := V)) !! j = Some s) in Hj.
    apply lookup_replicate in Hj as [-> _].
    split; [apply map_disjoint_empty_l|]. split; [done|]. intros k. rewrite contents_lookup.
    simpl. rewrite !lookup_empty. by intros [].
  - vm_compute. done.
Qed.

(** ** Lifecycle of the timer *)
Definition quiet (t : TimerPc) : bool := match t with TmNone | TmDone => true | _ => false end.

Record lifecycle m : Prop := {
  lc_timer : match state_ m with
             | kCreated | kFailed => timer m = TmNone
             | kStopped => quiet (timer m) = true
             | _ => True
             end;
  lc_stopper : match stopper m with
               | RIdle => state_ m <> kStopping /\ state_ m <> kStopped
               | RReturned => state_ m = kStopped
               | _ => state_ m = kStopping
               end;
  lc_finish : stopper m = RFinish -> quiet (timer m) = true;
  lc_cancel : timer m = TmNone \/ timer m = TmDone \/ stopper m = RIdle \/ stopper m = RCancel \/
              timerCancel m = true;
}.

Lemma lifecycle_ext m m' :
  lifecycle m -> state_ m' = state_ m -> timer m' = timer m -> timerCancel m' = timerCancel m ->
  stopper m' = stopper m -> lifecycle m'.
Proof. intros [] E1 E2 E3 E4. split; rewrite ?E1, ?E2, ?E3, ?E4; done. Qed.

Lemma lifecycle_step e m m' : lifecycle m -> step hash_ e m m' -> lifecycle m'.
Proof.
  intros L Hs. destruct Hs as [k v m|k f m|k m|k m|b m|m m' Hs|m m' Hs|m m' Hs]; simpl.
  - apply (lifecycle_ext m); unfold set; by repeat case_match.
  - apply (lifecycle_ext m); unfold getOrCreate; by repeat case_match.
  - done.
  - apply (lifecycle_ext m); unfold pop; by repeat case_match.
  - destruct L. unfold start. destruct (state_ m) eqn:E, b; split; simpl; rewrite ?E in *; try done;
      destruct (stopper m); intuition congruence.
  - destruct L. unfold stop_call in Hs. destruct (state_ m) eqn:E; simplify_eq; split; simpl; rewrite ?E in *;
      try done; intuition congruence.
  - destruct L. unfold stop_step in Hs. destruct (stopper m) eqn:E, (timer m) eqn:Et; simplify_eq; split; simpl;
      rewrite ?E, ?Et in *; try done; try (by rewrite lc_stopper0); intuition congruence.
  - destruct L. unfold timer_step in Hs.
    destruct (timer m) eqn:Et, (timerCancel m) eqn:Ec; repeat split_case_in Hs; simplify_eq;
      split; simpl in *; rewrite ?Et, ?Ec in *; try done;
      try (destruct (state_ m)); intuition congruence.
Qed.

Lemma steps_lifecycle es m m' : steps es m m' -> lifecycle m -> lifecycle m'.
Proof. induction 1; eauto using lifecycle_step. Qed.

Lemma make_lifecycle i c m : make i c = Ok m -> lifecycle m.
Proof. unfold make. destruct (i <=? 0); [done|]. intros [= <-]. split; simpl; auto. Qed.

(** C16. The rotating map is one finite map: every run from the constructor (operations
    in any order, the timer rotating shards in between, [start] and [stop] at any time)
    answers exactly as the abstract map does, no operation and no rotation loses or
    changes an entry, generations stay disjoint, and [size] counts the entries. *)
Theorem rotating_refines interval c m es m' :
  make interval c = Ok m -> steps es m m' ->
  specs es ∅ (abs m') /\ msize m' = size (abs m') /\
  forall i s, shards_ m' !! i = Some s -> current s ##ₘ previous s.
Proof.
  intros Hm Hs. destruct (make_wf _ _ _ Hm) as [W Ha].
  destruct (steps_refine _ _ _ Hs W) as [W' Hsp]. rewrite Ha in Hsp.
  split; [done|]. split; [by apply wf_size|]. intros i s Hi. apply (wf_shards _ W' i s Hi).
Qed.

(** When a shard is rebuilt: the rounded quarter of the code is the exact one (a
    quarter of the high-water mark exceeds the shard), only shards that once reached
    the minimum capacity are rebuilt, a rebuilt shard has everything in [previous] and
    starts counting from its size, another keeps both generations, and the high-water
    mark never is below the size. *)
Theorem rotation_policy c s :
  0 <= highWaterMark s -> current s ##ₘ previous s ->
  let total := Z.of_nat (size (contents s)) in
  let s' := rotateShard c s in
  contents s' = contents s /\ total <= highWaterMark s' /\
  (if decide (c <= Z.max (highWaterMark s) total /\
              (highWaterMark s = 0 \/ 4 * total < highWaterMark s))
   then current s' = ∅ /\ previous s' = contents s /\ highWaterMark s' = total
   else current s' = current s /\ previous s' = previous s /\
        highWaterMark s' = Z.max (highWaterMark s) total).
Proof.
  intros Hh Hd total s'. split; [apply rotateShard_contents|].
  assert (Et : Z.of_nat (shard_size s) = total)
    by (unfold total, contents, shard_size; by rewrite map_size_disj_union).
  assert (Hq : total < (highWaterMark s + 4 - 1) / 4 <-> 4 * total < highWaterMark s).
  { split; intros Hx.
    - pose proof (Z.mul_div_le (highWaterMark s + 4 - 1) 4). lia.
    - apply Z.lt_le_trans with (total + 1); [lia|]. apply Z.div_le_lower_bound; lia. }
  subst s'. unfold rotateShard, kRotatingMapShrinkFactor. rewrite Et.
  assert (0 <= total) by (unfold total; lia).
  assert (Hr : (highWaterMark s =? 0) || (total <? (highWaterMark s + 4 - 1) / 4) =
               bool_decide (highWaterMark s = 0 \/ 4 * total < highWaterMark s)).
  { apply eq_true_iff_eq. rewrite orb_true_iff, Z.eqb_eq, Z.ltb_lt, bool_decide_eq_true. tauto. }
  rewrite Hr. clear Hr Hq.
  destruct (Z.ltb_spec (highWaterMark s) total), (Z.ltb_spec total c), (Z.ltb_spec (highWaterMark s) c);
    repeat case_bool_decide; simpl; case_decide; split_and?; try done; lia.
Qed.

(** The timer ends with [stop]: once the state is [kStopped] no rotation is in
    progress and the timer coroutine never takes another step. *)
Theorem timer_ends_with_stop interval c m es m' es' m'' :
  make interval c = Ok m -> steps es m m' -> state_ m' = kStopped -> steps es' m' m'' ->
  state_ m'' = kStopped /\ timer_step m'' = None /\ timer m'' = timer m'.
Proof.
  intros Hm Hs Hst Hs'. pose proof (steps_lifecycle _ _ _ Hs (make_lifecycle _ _ _ Hm)) as L.
  clear Hs Hm. induction Hs' as [m1|e es1 m1 m2 m3 H1 _ IH].
  - pose proof (lc_timer _ L) as Ht. rewrite Hst in Ht. unfold timer_step.
    by destruct (timer m1).
  - pose proof (lc_timer _ L) as Ht. pose proof (lc_stopper _ L) as Hp. rewrite Hst in Ht, Hp.
    assert (E : state_ m2 = kStopped /\ timer m2 = timer m1).
    { destruct H1 as [k v m1|k f m1|k m1|k m1|b m1|m1 m2 Hq|m1 m2 Hq|m1 m2 Hq]; simpl.
      - unfold set. by repeat case_match.
      - unfold getOrCreate. by repeat case_match.
      - done.
      - unfold pop. by repeat case_match.
      - unfold start. by rewrite Hst.
      - unfold stop_call in Hq. rewrite Hst in Hq. by simplify_eq.
      - unfold stop_step in Hq. destruct (stopper m1); destruct_and?; simplify_eq; congruence.
      - unfold timer_step in Hq. by destruct (timer m1). }
    destruct E as [E1 E2]. rewrite <- E2. apply IH; [done|by eapply lifecycle_step].
Qed.
End Refinement.

(** ** A small run *)
Definition hash_id (k : nat) : nat := k.
Definition demo : RotatingMap nat nat :=
  match make 1 0 with Ok m => m | Err _ => mkMap 1 0 [] kCreated TmNone false RIdle end.

(** Follow the timer [n] times. *)
Fixpoint ticks (n : nat) (m : RotatingMap nat nat) : RotatingMap nat nat :=
  match n with
  | O => m
  | S n => match timer_step m with Some m' => ticks n m' | None => m end
  end.

Lemma ticks_steps n m : steps hash_id (repeat EInternal
  ((fix count n m := match n with O => O | S n => match timer_step m with
      Some m' => S (count n m') | None => O end end) n m)) m (ticks n m).
Proof.
  revert m. induction n as [|n IH]; intros m; simpl; [constructor|].
  destruct (timer_step m) eqn:E; simpl; [|constructor]. econstructor; [by apply step_timer|apply IH].
Qed.

Definition demo_events : list (event nat nat) :=
  [EInternal; ESet 5 50 (Ok tt); ESet 69 51 (Ok tt); ESet 5 52 (Err DuplicateKeyError)]%nat ++
  repeat EInternal 68 ++ [EGet 69 (Some 51); EPop 5 (Some 50); EGet 5 None]%nat.
Definition demo_loaded : RotatingMap nat nat :=
  (set hash_id 69 51 (set hash_id 5 50 (start true demo).1).1).1%nat.
Definition demo_final : RotatingMap nat nat := (pop hash_id 5%nat (ticks 68 demo_loaded)).1.

Lemma steps_app {K V} `{Countable K} (hash_ : K -> nat) es1 es2 (m1 m2 m3 : RotatingMap K V) :
  steps hash_ es1 m1 m2 -> steps hash_ es2 m2 m3 -> steps hash_ (es1 ++ es2) m1 m3.
Proof. induction 1; simpl; [done|]. intros Hs. econstructor; eauto. Qed.

Lemma demo_steps : steps hash_id demo_events demo demo_final.
Proof.
  unfold demo_events. apply steps_app with demo_loaded.
  { eapply steps_cons; [apply (step_start hash_id true demo)|].
    eapply steps_cons; [apply (step_set hash_id 5%nat 50%nat (start true demo).1)|].
    eapply steps_cons; [apply (step_set hash_id 69%nat 51%nat (set hash_id 5%nat 50%nat (start true demo).1).1)|].
    eapply steps_cons; [apply (step_set hash_id 5%nat 52%nat demo_loaded)|]. apply steps_nil. }
  apply steps_app with (ticks 68 demo_loaded).
  { apply (ticks_steps 68 demo_loaded). }
  eapply steps_cons; [apply (step_get hash_id 69%nat (ticks 68 demo_loaded))|].
  eapply steps_cons; [apply (step_pop hash_id 5%nat (ticks 68 demo_loaded))|].
  eapply steps_cons; [apply (step_get hash_id 5%nat demo_final)|]. apply steps_nil.
Qed.

Lemma rotating_refines_witness :
  specs demo_events ∅ (abs demo_final) /\ msize demo_final = 1%nat /\
  msize demo_final = size (abs demo_final).
Proof.
  destruct (rotating_refines hash_id 1 0 demo demo_events demo_final) as (Hs & Hz & _).
  - vm_compute. reflexivity.
  - apply demo_steps.
  - split; [exact Hs|]. split; [vm_compute; reflexivity|exact Hz].
Defined.

Definition shrunk : Shard nat nat := mkShard {[1 := 1]}%nat {[2 := 2]}%nat 9.

Lemma rotation_policy_witness :
  current (rotateShard 5 shrunk) = ∅ /\ highWaterMark (rotateShard 5 shrunk) = 2.
Proof.
  destruct (rotation_policy 5 shrunk) as (_ & _ & Hp).
  - simpl. lia.
  - apply map_disjoint_singleton_l. vm_compute. reflexivity.
  - rewrite decide_True in Hp by (vm_compute; split; [discriminate|right; reflexivity]).
    destruct Hp as (Hc & _ & Hh). split; [exact Hc|]. rewrite Hh. vm_compute. reflexivity.
Defined.

(** [stop] of a running map whose timer ends. *)
Definition demo_stopping : RotatingMap nat nat :=
  default demo (stop_call demo_loaded).
Definition demo_joining : RotatingMap nat nat := ticks 2 (default demo (stop_step demo_stopping)).
Definition demo_stopped : RotatingMap nat nat :=
  default demo (stop_step (default demo (stop_step demo_joining))).

Lemma demo_stopped_steps :
  steps hash_id ([EInternal; ESet 5 50 (Ok tt); ESet 69 51 (Ok tt)]%nat ++ repeat EInternal 5)
    demo demo_stopped.
Proof.
  eapply steps_cons; [apply (step_start hash_id true demo)|].
  eapply steps_cons; [apply (step_set hash_id 5%nat 50%nat (start true demo).1)|].
  eapply steps_cons; [apply (step_set hash_id 69%nat 51%nat (set hash_id 5%nat 50%nat (start true demo).1).1)|].
  eapply steps_cons; [apply (step_stop_call _ _ demo_stopping); vm_compute; reflexivity|].
  eapply steps_cons; [apply (step_stop _ _ (default demo (stop_step demo_stopping))); vm_compute; reflexivity|].
  eapply steps_cons; [apply (step_timer _ _ demo_joining); vm_compute; reflexivity|].
  eapply steps_cons; [apply (step_stop _ _ (default demo (stop_step demo_joining))); vm_compute; reflexivity|].
  eapply steps_cons; [apply (step_stop _ _ demo_stopped); vm_compute; reflexivity|].
  apply steps_nil.
Qed.

(** After [stop] the map still accepts entries: [set] does not look at [state_], while
    the comment of [IStorage::stop] has implementations reject new operations. *)
Lemma stopped_map_accepts :
  state_ demo_stopped = kStopped /\
  (set hash_id 7%nat 70%nat demo_stopped).2 = Ok tt /\
  get hash_id 7%nat (set hash_id 7%nat 70%nat demo_stopped).1 = Some 70%nat.
Proof. vm_compute. done. Qed.

Lemma timer_ends_with_stop_witness :
  state_ demo_stopped = kStopped /\ timer_step (set hash_id 7%nat 70%nat demo_stopped).1 = None.
Proof.
  split; [vm_compute; reflexivity|].
  apply (timer_ends_with_stop hash_id 1 0 demo
    ([EInternal; ESet 5 50 (Ok tt); ESet 69 51 (Ok tt)]%nat ++ repeat EInternal 5) demo_stopped
    [ESet 7%nat 70%nat (Ok tt)]).
  - vm_compute. reflexivity.
  - apply demo_stopped_steps.
  - vm_compute. reflexivity.
  - eapply steps_cons; [apply (step_set hash_id 7%nat 70%nat demo_stopped)|apply steps_nil].
Defined.
End Rotating.
