(* ===== verification/JoinStorage.v ===== *)
(** * The join storage: values of one key, joined until complete or expired

    [HashMapJoinStorage] of runtime/store/hashmap.hpp as a transition system.  A
    [std::shared_ptr<Item>] is the name of an item in a store of items that is never
    reused; [current_] and [previous_] map keys to names.  An activation of [joinValue] is
    an [Op] with a program counter; each acquisition of [mu_] or of an item's mutex starts a
    step.  The item's mutex is its field [mu]; [mu_] is never held between steps.
    Expiry coroutines, the rotation coroutine, the stop callbacks of contexts and the one
    call of [stop] that does the work have program counters of their own.

    [std::stop_callback]'s destructor waits for a running callback, so a [reset] is a step
    that is possible only while the callback does not run.  A weak pointer is the name of
    the item: an item that left both maps is processed, and an expiry that finds it does
    nothing, as one that finds it gone.

    A join callback maps the values to its answer and the values as it leaves them; it does
    not throw, as its contract in joinstore.hpp asks.  Metrics are left out, and with them
    what the [eviction] flag of [removeIfSame] is for.

    [history] and [delivered] are history: the joins and expirations in the order in which
    they took effect, and what the expiry callbacks were given. *)
From Stdlib Require Import ZArith Lia.
From S2P Require Import Prelude Context.
Local Open Scope Z_scope.

Module Join.

Inductive StoreError :=
  | StoreAlreadyStartedError | StoreStoppedError | StoreNotStartedError | DuplicateKeyError
  | UnsupportedStoreError | SchedulingFailed.

Inductive StoreState := kCreated | kRunning | kStopping | kStopped | kFailed.
#[export] Instance StoreState_eq_dec : EqDecision StoreState.
Proof. solve_decision. Defined.

(** [saturatedAdd]. *)
Definition saturatedAdd (now ttl : Z) : Z :=
  if ttl <=? 0 then now
  else let maxTtl := int64_max - now in
       if maxTtl <=? ttl then int64_max else now + ttl.

(** [publishMax]: the loop ends with the maximum. *)
Definition publishMax (target value : Z) : Z := Z.max target value.

(** The program counters that carry no data of the key or value types. *)
Inductive CbPc := CIdle | CFired | CDone.
Inductive TaskPc := TSleep | TExpire | TCall | TRemove | TDone.
#[export] Instance TaskPc_eq_dec : EqDecision TaskPc.
Proof. solve_decision. Defined.
Inductive RotPc := RNone | RTop | RSleep | RRotate | RDone.
Inductive StopPc :=
  | SIdle | SDrain | SReset (items : list nat) | SRotation | SRotationJoin
  | STasks | STasksJoin | SClear | SReturned.
Inductive ArmStage := ARegister | ADetach | AStore | ALoad | ASchedule.
(** What the catch block of a renewal restores. *)
Inductive ArmMode :=
  | AInitial
  | ARenew (previousDeadline : Deadline) (previousGeneration previousArmed previousCancelled : Z).
Inductive After := Retry | Finish.
Inductive OpPc :=
  | JFind
  | JCreate
  | JInsert (candidateDeadline : Deadline)
  | JArm (item : nat) (stage : ArmStage) (mode : ArmMode)
  | JArmFailed (item : nat) (mode : ArmMode)
  | JLock (item : nat)
  | JChecked (item : nat) (newlyInserted : bool)
  | JMove (item : nat)
  | JAppend (item : nat)
  | JExpireCall (item : nat)
  | JRemove (item : nat) (eviction : bool) (next : After)
  | JLeave.

(** A registered stop callback: the generation and token it was made with. *)
Record CancelCallback := mkCb {
  cbGeneration : Z;
  cbToken : StopToken;
  cbPc : CbPc;
}.

Section Storage.
Context {K A : Type} `{Countable K}.

Abbreviation JoinValues := (list (list A)).
Abbreviation JoinValueFunction := (JoinValues -> bool * JoinValues).

(** [Item].  [itemKey], the key it was inserted for, [fresh], that nothing was joined to
    it yet, and [marker], the activation or coroutine that marked it expired, are history. *)
Record Item := mkItem {
  itemKey : K;
  fresh : bool;
  marker : option (nat + nat);
  mu : option nat;
  values : JoinValues;
  ideadline : Deadline;
  processed : bool;
  generation : Z;
  armedGeneration : Z;
  cancelledGeneration : Z;
  onExpire : JoinValueFunction;
  cancelCallback : option CancelCallback;
}.

(** An activation of [joinValue]; [omarked] is history as [tMarked] is. *)
Record Op := mkOp {
  okey : K;
  oindex : nat;
  ovalue : A;
  ocallback : JoinValueFunction;
  odeadline : Deadline;
  otoken : StopToken;
  ottl : Z;
  omarked : JoinValues;
  pc : OpPc;
}.

(** An expiry coroutine; without a deadline it was scheduled to run now.  [tToken], the
    token of the context that armed it, and [tMarked], the values of the item when the
    coroutine marked it processed, are history. *)
Record Task := mkTask {
  tKey : K;
  tItem : nat;
  tGeneration : Z;
  tDeadline : option Z;
  tToken : StopToken;
  tMarked : JoinValues;
  tPc : TaskPc;
}.

Record JoinStorageConfig := mkConfig {
  ttl : Z;
  renewTtl : bool;
}.

Inductive Event :=
  | EvJoin (key : K) (index : nat) (value : A) (callback : JoinValueFunction)
  | EvExpire (key : K).

Record Storage := mkStorage {
  config_ : JoinStorageConfig;
  clock : Z;
  stopped : gset nat;
  state_ : StoreState;
  current_ : gmap K nat;
  previous_ : gmap K nat;
  items : gmap nat Item;
  count_ : Z;
  highWaterMark_ : Z;
  activeOperations_ : Z;
  ops : gmap nat Op;
  tasks : gmap nat Task;
  tasksCancel : bool;
  rotation : RotPc;
  rotationCancel : bool;
  stopper : StopPc;
  history : list Event;
  delivered : list (K * JoinValues);
}.

(** Field updates. *)
Definition set_fresh v it : Item :=
  mkItem (itemKey it) v (marker it) (mu it) (values it) (ideadline it) (processed it)
    (generation it) (armedGeneration it) (cancelledGeneration it) (onExpire it)
    (cancelCallback it).
Definition set_marker v it : Item :=
  mkItem (itemKey it) (fresh it) v (mu it) (values it) (ideadline it) (processed it)
    (generation it) (armedGeneration it) (cancelledGeneration it) (onExpire it)
    (cancelCallback it).
Definition set_mu v it : Item :=
  mkItem (itemKey it) (fresh it) (marker it) v (values it) (ideadline it) (processed it)
    (generation it) (armedGeneration it) (cancelledGeneration it) (onExpire it)
    (cancelCallback it).
Definition set_values v it : Item :=
  mkItem (itemKey it) (fresh it) (marker it) (mu it) v (ideadline it) (processed it)
    (generation it) (armedGeneration it) (cancelledGeneration it) (onExpire it)
    (cancelCallback it).
Definition set_ideadline v it : Item :=
  mkItem (itemKey it) (fresh it) (marker it) (mu it) (values it) v (processed it)
    (generation it) (armedGeneration it) (cancelledGeneration it) (onExpire it)
    (cancelCallback it).
Definition set_processed v it : Item :=
  mkItem (itemKey it) (fresh it) (marker it) (mu it) (values it) (ideadline it) v
    (generation it) (armedGeneration it) (cancelledGeneration it) (onExpire it)
    (cancelCallback it).
Definition set_generation v it : Item :=
  mkItem (itemKey it) (fresh it) (marker it) (mu it) (values it) (ideadline it) (processed
    it) v (armedGeneration it) (cancelledGeneration it) (onExpire it) (cancelCallback it).
Definition set_armedGeneration v it : Item :=
  mkItem (itemKey it) (fresh it) (marker it) (mu it) (values it) (ideadline it) (processed
    it) (generation it) v (cancelledGeneration it) (onExpire it) (cancelCallback it).
Definition set_cancelledGeneration v it : Item :=
  mkItem (itemKey it) (fresh it) (marker it) (mu it) (values it) (ideadline it) (processed
    it) (generation it) (armedGeneration it) v (onExpire it) (cancelCallback it).
Definition set_cancelCallback v it : Item :=
  mkItem (itemKey it) (fresh it) (marker it) (mu it) (values it) (ideadline it) (processed
    it) (generation it) (armedGeneration it) (cancelledGeneration it) (onExpire it) v.
Definition set_omarked v o : Op :=
  mkOp (okey o) (oindex o) (ovalue o) (ocallback o) (odeadline o) (otoken o) (ottl o) v (pc
    o).
Definition set_pc v o : Op :=
  mkOp (okey o) (oindex o) (ovalue o) (ocallback o) (odeadline o) (otoken o) (ottl o)
    (omarked o) v.
Definition set_tMarked v tk : Task :=
  mkTask (tKey tk) (tItem tk) (tGeneration tk) (tDeadline tk) (tToken tk) v (tPc tk).
Definition set_tPc v tk : Task :=
  mkTask (tKey tk) (tItem tk) (tGeneration tk) (tDeadline tk) (tToken tk) (tMarked tk) v.
Definition set_clock v st : Storage :=
  mkStorage (config_ st) v (stopped st) (state_ st) (current_ st) (previous_ st) (items st)
    (count_ st) (highWaterMark_ st) (activeOperations_ st) (ops st) (tasks st) (tasksCancel
    st) (rotation st) (rotationCancel st) (stopper st) (history st) (delivered st).
Definition set_stopped v st : Storage :=
  mkStorage (config_ st) (clock st) v (state_ st) (current_ st) (previous_ st) (items st)
    (count_ st) (highWaterMark_ st) (activeOperations_ st) (ops st) (tasks st) (tasksCancel
    st) (rotation st) (rotationCancel st) (stopper st) (history st) (delivered st).
Definition set_state_ v st : Storage :=
  mkStorage (config_ st) (clock st) (stopped st) v (current_ st) (previous_ st) (items st)
    (count_ st) (highWaterMark_ st) (activeOperations_ st) (ops st) (tasks st) (tasksCancel
    st) (rotation st) (rotationCancel st) (stopper st) (history st) (delivered st).
Definition set_current_ v st : Storage :=
  mkStorage (config_ st) (clock st) (stopped st) (state_ st) v (previous_ st) (items st)
    (count_ st) (highWaterMark_ st) (activeOperations_ st) (ops st) (tasks st) (tasksCancel
    st) (rotation st) (rotationCancel st) (stopper st) (history st) (delivered st).
Definition set_previous_ v st : Storage :=
  mkStorage (config_ st) (clock st) (stopped st) (state_ st) (current_ st) v (items st)
    (count_ st) (highWaterMark_ st) (activeOperations_ st) (ops st) (tasks st) (tasksCancel
    st) (rotation st) (rotationCancel st) (stopper st) (history st) (delivered st).
Definition set_items v st : Storage :=
  mkStorage (config_ st) (clock st) (stopped st) (state_ st) (current_ st) (previous_ st) v
    (count_ st) (highWaterMark_ st) (activeOperations_ st) (ops st) (tasks st) (tasksCancel
    st) (rotation st) (rotationCancel st) (stopper st) (history st) (delivered st).
Definition set_count_ v st : Storage :=
  mkStorage (config_ st) (clock st) (stopped st) (state_ st) (current_ st) (previous_ st)
    (items st) v (highWaterMark_ st) (activeOperations_ st) (ops st) (tasks st) (tasksCancel
    st) (rotation st) (rotationCancel st) (stopper st) (history st) (delivered st).
Definition set_highWaterMark_ v st : Storage :=
  mkStorage (config_ st) (clock st) (stopped st) (state_ st) (current_ st) (previous_ st)
    (items st) (count_ st) v (activeOperations_ st) (ops st) (tasks st) (tasksCancel st)
    (rotation st) (rotationCancel st) (stopper st) (history st) (delivered st).
Definition set_activeOperations_ v st : Storage :=
  mkStorage (config_ st) (clock st) (stopped st) (state_ st) (current_ st) (previous_ st)
    (items st) (count_ st) (highWaterMark_ st) v (ops st) (tasks st) (tasksCancel st)
    (rotation st) (rotationCancel st) (stopper st) (history st) (delivered st).
Definition set_ops v st : Storage :=
  mkStorage (config_ st) (clock st) (stopped st) (state_ st) (current_ st) (previous_ st)
    (items st) (count_ st) (highWaterMark_ st) (activeOperations_ st) v (tasks st)
    (tasksCancel st) (rotation st) (rotationCancel st) (stopper st) (history st) (delivered
    st).
Definition set_tasks v st : Storage :=
  mkStorage (config_ st) (clock st) (stopped st) (state_ st) (current_ st) (previous_ st)
    (items st) (count_ st) (highWaterMark_ st) (activeOperations_ st) (ops st) v
    (tasksCancel st) (rotation st) (rotationCancel st) (stopper st) (history st) (delivered
    st).
Definition set_tasksCancel v st : Storage :=
  mkStorage (config_ st) (clock st) (stopped st) (state_ st) (current_ st) (previous_ st)
    (items st) (count_ st) (highWaterMark_ st) (activeOperations_ st) (ops st) (tasks st) v
    (rotation st) (rotationCancel st) (stopper st) (history st) (delivered st).
Definition set_rotation v st : Storage :=
  mkStorage (config_ st) (clock st) (stopped st) (state_ st) (current_ st) (previous_ st)
    (items st) (count_ st) (highWaterMark_ st) (activeOperations_ st) (ops st) (tasks st)
    (tasksCancel st) v (rotationCancel st) (stopper st) (history st) (delivered st).
Definition set_rotationCancel v st : Storage :=
  mkStorage (config_ st) (clock st) (stopped st) (state_ st) (current_ st) (previous_ st)
    (items st) (count_ st) (highWaterMark_ st) (activeOperations_ st) (ops st) (tasks st)
    (tasksCancel st) (rotation st) v (stopper st) (history st) (delivered st).
Definition set_stopper v st : Storage :=
  mkStorage (config_ st) (clock st) (stopped st) (state_ st) (current_ st) (previous_ st)
    (items st) (count_ st) (highWaterMark_ st) (activeOperations_ st) (ops st) (tasks st)
    (tasksCancel st) (rotation st) (rotationCancel st) v (history st) (delivered st).
Definition set_history v st : Storage :=
  mkStorage (config_ st) (clock st) (stopped st) (state_ st) (current_ st) (previous_ st)
    (items st) (count_ st) (highWaterMark_ st) (activeOperations_ st) (ops st) (tasks st)
    (tasksCancel st) (rotation st) (rotationCancel st) (stopper st) v (delivered st).
Definition set_delivered v st : Storage :=
  mkStorage (config_ st) (clock st) (stopped st) (state_ st) (current_ st) (previous_ st)
    (items st) (count_ st) (highWaterMark_ st) (activeOperations_ st) (ops st) (tasks st)
    (tasksCancel st) (rotation st) (rotationCancel st) (stopper st) (history st) v.

Implicit Types (st : Storage) (it : Item) (o : Op).

Definition initial (config : JoinStorageConfig) : Storage :=
  mkStorage config 0 ∅ kCreated ∅ ∅ ∅ 0 0 0 ∅ ∅ false RNone false SIdle [] [].

Definition upd_item (i : nat) (f : Item -> Item) st : Storage := set_items (alter f i (items st)) st.
Definition upd_op (t : nat) (f : Op -> Op) st : Storage := set_ops (alter f t (ops st)) st.
Definition goto (t : nat) (p : OpPc) : Storage -> Storage := upd_op t (set_pc p).
Definition log (e : Event) st : Storage := set_history (history st ++ [e]) st.

(** [findItemLocked]. *)
Definition findItemLocked (key : K) st : option nat :=
  match current_ st !! key with
  | Some i => Some i
  | None => previous_ st !! key
  end.

Definition removeIfSame (key : K) (i : nat) st : Storage :=
  if bool_decide (current_ st !! key = Some i)
  then st |> set_current_ (delete key (current_ st)) |> set_count_ (count_ st - 1)
  else if bool_decide (previous_ st !! key = Some i)
  then st |> set_previous_ (delete key (previous_ st)) |> set_count_ (count_ st - 1)
  else st.

(** ** Cancellation and expiry *)

(** [cancelCallback.reset()] can return: no callback runs. *)
Definition quiet it : bool :=
  match cancelCallback it with
  | Some cb => match cbPc cb with CFired => false | _ => true end
  | None => true
  end.

(** [CriticalAsyncDetach]; [u] names the coroutine. *)
Definition spawn (u : nat) (tk : Task) st : option Storage :=
  match tasks st !! u with
  | Some _ => None
  | None => Some (set_tasks (<[u := tk]> (tasks st)) st)
  end.

Definition scheduleExpiryNow (u : nat) (key : K) (i : nat) (g : Z) (token : StopToken) (ok : bool) st : option Storage :=
  if bool_decide (state_ st = kRunning) && ok then spawn u (mkTask key i g None token [] TSleep) st
  else Some st.

(** [cancelCallback.emplace]: a callback on a token that is already stopped runs at once. *)
Definition register (sources : gset nat) (token : StopToken) it : Item :=
  let g := generation it in
  if stop_requested sources token
  then it |> set_cancelledGeneration (publishMax (cancelledGeneration it) g)
          |> set_cancelCallback (Some (mkCb g token (if g <=? armedGeneration it then CFired else CDone)))
  else set_cancelCallback (Some (mkCb g token CIdle)) it.

(** The stop callback of item [i]. *)
Definition callback_step (i u : nat) (ok : bool) st : option Storage :=
  match items st !! i with
  | Some it =>
      match cancelCallback it with
      | Some cb =>
          let g := cbGeneration cb in
          match cbPc cb with
          | CIdle =>
              if stop_requested (stopped st) (cbToken cb)
              then Some (upd_item i (fun it =>
                     it |> set_cancelledGeneration (publishMax (cancelledGeneration it) g)
                        |> set_cancelCallback (Some (mkCb g (cbToken cb) CFired))) st)
              else None
          | CFired =>
              let st1 := upd_item i (set_cancelCallback (Some (mkCb g (cbToken cb) CDone))) st in
              if g <=? armedGeneration it then scheduleExpiryNow u (itemKey it) i g (cbToken cb) ok st1 else Some st1
          | CDone => None
          end
      | None => None
      end
  | None => None
  end.

Definition task_upd (t : nat) (f : Task -> Task) st : Storage := set_tasks (alter f t (tasks st)) st.
Definition task_goto (t : nat) (p : TaskPc) : Storage -> Storage := task_upd t (set_tPc p).

(** Run the expiry callback of item [i] on its values. *)
Definition deliver (key : K) (i : nat) it st : Storage :=
  st |> upd_item i (set_values (onExpire it (values it)).2)
     |> set_delivered (delivered st ++ [(key, values it)]).

(** The expiry coroutines and [expire]. *)
Definition task_step (t : nat) st : option Storage :=
  match tasks st !! t with
  | Some tk =>
      match items st !! tItem tk with
      | Some it =>
          match tPc tk with
          | TSleep =>
              if tasksCancel st then Some (task_goto t TDone st)
              else if match tDeadline tk with Some d => d <=? clock st | None => true end
              then Some (task_goto t TExpire st) else None
          | TExpire =>
              match mu it with
              | Some _ => None
              | None =>
                  if processed it || negb (generation it =? tGeneration tk)
                  then Some (task_goto t TDone st)
                  else if quiet it
                  then Some (st |> upd_item (tItem tk) (fun it => it |> set_processed true |> set_cancelCallback None
                                                                     |> set_marker (Some (inr t)))
                                |> log (EvExpire (tKey tk))
                                |> task_upd t (fun tk => tk |> set_tMarked (values it) |> set_tPc TCall))
                  else None
              end
          | TCall => Some (st |> deliver (tKey tk) (tItem tk) it |> task_goto t TRemove)
          | TRemove => Some (st |> removeIfSame (tKey tk) (tItem tk) |> task_goto t TDone)
          | TDone => None
          end
      | None => None
      end
  | None => None
  end.

(** ** joinValue *)

(** [OperationGuard], the clock and the time to live; [t] names the activation. *)
Definition joinValue (t : nat) (ctx : ContextState) (key : K) (index : nat) (value : A)
    (callback : JoinValueFunction) st : option (Storage * result StoreError unit) :=
  match state_ st with
  | kRunning =>
      match ops st !! t with
      | Some _ => None
      | None =>
          let ottl := match deadline ctx with Some d => d - clock st | None => ttl (config_ st) end in
          Some (st |> set_activeOperations_ (activeOperations_ st + 1)
                   |> set_ops (<[t := mkOp key index value callback (deadline ctx) (stopToken ctx) ottl [] JFind]> (ops st)),
                Ok tt)
      end
  | kStopping | kStopped => Some (st, Err StoreStoppedError)
  | kCreated | kFailed => Some (st, Err StoreNotStartedError)
  end.

(** [values.resize] and [push_back]. *)
Definition append_value (index : nat) (value : A) (vs : JoinValues) : JoinValues :=
  let vs := if (length vs <=? index)%nat then vs ++ replicate (S index - length vs) [] else vs in
  alter (fun l => l ++ [value]) index vs.

(** The deadline that an activation gives an item at time [now]. *)
Definition newDeadline o (now : Z) : Z :=
  match odeadline o with Some d => d | None => saturatedAdd now (ottl o) end.

Definition arm_done (i : nat) (mode : ArmMode) : OpPc :=
  match mode with AInitial => JChecked i true | ARenew _ _ _ _ => JMove i end.

(** [armExpiryLocked], called by activation [t] on item [i]. *)
Definition arm_step (t u : nat) (ok : bool) o (i : nat) it (stage : ArmStage) (mode : ArmMode) st :
    option Storage :=
  match stage with
  | ARegister =>
      if ok then Some (st |> upd_item i (register (stopped st) (otoken o)) |> goto t (JArm i ADetach mode))
      else Some (goto t (JArmFailed i mode) st)
  | ADetach =>
      if bool_decide (state_ st = kRunning \/ state_ st = kStopping) && ok
      then fmap (goto t (JArm i AStore mode))
             (spawn u (mkTask (okey o) i (generation it) (ideadline it) (otoken o) [] TSleep) st)
      else Some (goto t (JArmFailed i mode) st)
  | AStore => Some (st |> upd_item i (set_armedGeneration (generation it)) |> goto t (JArm i ALoad mode))
  | ALoad =>
      Some (goto t (if generation it <=? cancelledGeneration it then JArm i ASchedule mode else arm_done i mode) st)
  | ASchedule => fmap (goto t (arm_done i mode)) (scheduleExpiryNow u (okey o) i (generation it) (otoken o) ok st)
  end.

(** The item is marked processed and its mutex released. *)
Definition finish_item it : Item :=
  it |> set_processed true |> set_cancelCallback None |> set_mu None.

(** The checks behind the acquisition of the item's mutex. *)
Definition checked_step (t : nat) o (i : nat) it (newlyInserted : bool) st : option Storage :=
  if processed it then Some (st |> upd_item i (set_mu None) |> goto t (JRemove i false Retry))
  else if negb newlyInserted && deadline_reached (ideadline it) (clock st) then
    if quiet it
    then Some (st |> upd_item i (fun it => it |> set_generation (generation it + 1) |> finish_item
                                             |> set_marker (Some (inl t)))
                  |> log (EvExpire (okey o))
                  |> upd_op t (fun o => o |> set_omarked (values it) |> set_pc (JExpireCall i)))
    else None
  else if (0 <? ottl o) && renewTtl (config_ st) && negb newlyInserted then
    if quiet it
    then Some (st |> upd_item i (fun it => it |> set_ideadline (Some (newDeadline o (clock st)))
                                               |> set_generation (generation it + 1)
                                               |> set_cancelCallback None)
                  |> goto t (JArm i ARegister (ARenew (ideadline it) (generation it) (armedGeneration it)
                                                 (cancelledGeneration it))))
    else None
  else Some (goto t (JAppend i) st).

(** The value is joined and the callback evaluated, under the item's mutex. *)
Definition append_step (t : nat) o (i : nat) it st : option Storage :=
  let '(complete, vs) := ocallback o (append_value (oindex o) (ovalue o) (values it)) in
  let st1 := log (EvJoin (okey o) (oindex o) (ovalue o) (ocallback o)) st in
  if complete then
    if quiet it
    then Some (st1 |> upd_item i (fun it => it |> set_values vs |> set_fresh false
                                               |> set_generation (generation it + 1) |> finish_item)
                   |> goto t (JRemove i false Finish))
    else None
  else Some (st1 |> upd_item i (fun it => it |> set_values vs |> set_fresh false |> set_mu None)
                 |> goto t JLeave).

(** The catch blocks of the two calls of [armExpiryLocked]. *)
Definition arm_failed_step (t i : nat) it (mode : ArmMode) st : option Storage :=
  if quiet it then
    match mode with
    | AInitial => Some (st |> upd_item i finish_item |> goto t (JRemove i false Finish))
    | ARenew d g a c =>
        Some (st |> upd_item i (fun it => it |> set_cancelCallback None |> set_ideadline d |> set_generation g
                                             |> set_armedGeneration a |> set_cancelledGeneration c |> set_mu None)
                 |> goto t JLeave)
    end
  else None.

(** One step of activation [t]; [u] names what it creates, [ok] is false when a registration
    or the start of a coroutine throws. *)
Definition op_step (t u : nat) (ok : bool) st : option Storage :=
  match ops st !! t with
  | None => None
  | Some o =>
      match pc o with
      | JFind =>
          Some (goto t (match findItemLocked (okey o) st with Some i => JLock i | None => JCreate end) st)
      | JCreate =>
          Some (goto t (JInsert (if 0 <? ottl o then Some (newDeadline o (clock st)) else None)) st)
      | JInsert d =>
          match findItemLocked (okey o) st with
          | Some i => Some (goto t (JLock i) st)
          | None =>
              match items st !! u with
              | Some _ => None
              | None =>
                  let g := match d with Some _ => 1 | None => 0 end in
                  Some (st |> set_items (<[u := mkItem (okey o) true None (Some t) (replicate (S (oindex o)) []) d
                                                  false g 0 0 (ocallback o) None]> (items st))
                           |> set_current_ (<[okey o := u]> (current_ st))
                           |> set_count_ (count_ st + 1)
                           |> goto t (match d with Some _ => JArm u ARegister AInitial | None => JChecked u true end))
              end
          end
      | JLeave => Some (st |> set_activeOperations_ (activeOperations_ st - 1) |> set_ops (delete t (ops st)))
      | JRemove i _ next =>
          Some (st |> removeIfSame (okey o) i
                   |> goto t (match next with Retry => JFind | Finish => JLeave end))
      | JArm i stage mode => it ← items st !! i; arm_step t u ok o i it stage mode st
      | JArmFailed i mode => it ← items st !! i; arm_failed_step t i it mode st
      | JLock i =>
          it ← items st !! i;
          match mu it with
          | Some _ => None
          | None => Some (st |> upd_item i (set_mu (Some t)) |> goto t (JChecked i false))
          end
      | JChecked i newlyInserted => it ← items st !! i; checked_step t o i it newlyInserted st
      | JMove i =>
          Some ((if bool_decide (previous_ st !! okey o = Some i)
                 then st |> set_previous_ (delete (okey o) (previous_ st))
                         |> set_current_ (<[okey o := i]> (current_ st))
                 else st) |> goto t (JAppend i))
      | JAppend i => it ← items st !! i; append_step t o i it st
      | JExpireCall i => it ← items st !! i; Some (st |> deliver (okey o) i it |> goto t (JRemove i true Retry))
      end
  end.

Definition size_ st : Z := count_ st.

(** ** Rotation *)
Definition kRotatingMapShrinkFactor : Z := 4.

Definition rotate st : Storage :=
  if negb (bool_decide (state_ st = kRunning)) then st
  else
    let total := Z.of_nat (size (current_ st)) + Z.of_nat (size (previous_ st)) in
    let shouldRotate := (highWaterMark_ st =? 0) ||
      (total <? (highWaterMark_ st + kRotatingMapShrinkFactor - 1) / kRotatingMapShrinkFactor) in
    let st := set_highWaterMark_ (Z.max (highWaterMark_ st) total) st in
    if negb shouldRotate then st
    else
      let rescued := filter (fun kv => current_ st !! kv.1 = None) (previous_ st) in
      let evicted := Z.of_nat (size (previous_ st)) - Z.of_nat (size rescued) in
      st |> set_highWaterMark_ total
         |> set_previous_ (current_ st ∪ rescued)
         |> set_current_ ∅
         |> set_count_ (count_ st - evicted).

Definition rotation_step st : option Storage :=
  match rotation st with
  | RNone | RDone => None
  | RTop => Some (set_rotation (if rotationCancel st then RDone else RSleep) st)
  | RSleep => Some (set_rotation (if rotationCancel st then RDone else RRotate) st)
  | RRotate => Some (st |> rotate |> set_rotation RTop)
  end.

(** ** Lifecycle *)
Definition start (ok : bool) st : Storage * result StoreError unit :=
  match state_ st with
  | kCreated =>
      if ok then (st |> set_state_ kRunning
                     |> set_rotation (if 0 <? ttl (config_ st) then RTop else RNone), Ok tt)
      else (set_state_ kFailed st, Err SchedulingFailed)
  | kRunning | kFailed => (st, Err StoreAlreadyStartedError)
  | kStopping | kStopped => (st, Err StoreStoppedError)
  end.

(** The first critical section of [stop]; [None] while another call does the work. *)
Definition stop_call st : option Storage :=
  match state_ st with
  | kStopped => Some st
  | kStopping => None
  | _ => Some (st |> set_state_ kStopping |> set_stopper SDrain)
  end.

(** The items of both maps, each once. *)
Definition collect st : list nat :=
  foldl (fun acc i => if bool_decide (i ∈ acc) then acc else acc ++ [i])
    (map_to_list (current_ st)).*2 (map_to_list (previous_ st)).*2.

Definition stop_step st : option Storage :=
  match stopper st with
  | SIdle | SReturned => None
  | SDrain => if activeOperations_ st =? 0 then Some (set_stopper (SReset (collect st)) st) else None
  | SReset [] => Some (set_stopper SRotation st)
  | SReset (i :: l) =>
      it ← items st !! i;
      if bool_decide (mu it = None) && quiet it
      then Some (st |> upd_item i (set_cancelCallback None) |> set_stopper (SReset l)) else None
  | SRotation =>
      match rotation st with
      | RNone => Some (set_stopper STasks st)
      | _ => Some (st |> set_rotationCancel true |> set_stopper SRotationJoin)
      end
  | SRotationJoin => match rotation st with RDone => Some (set_stopper STasks st) | _ => None end
  | STasks => Some (st |> set_tasksCancel true |> set_stopper STasksJoin)
  | STasksJoin =>
      if bool_decide (map_Forall (fun _ tk => tPc tk = TDone) (tasks st))
      then Some (set_stopper SClear st) else None
  | SClear => Some (st |> set_current_ ∅ |> set_previous_ ∅ |> set_count_ 0 |> set_state_ kStopped
                       |> set_stopper SReturned)
  end.

(** ** Runs *)
Inductive Action :=
  | DoStart (ok : bool)
  | DoStop
  | DoStopStep
  | DoJoin (t : nat) (ctx : ContextState) (key : K) (index : nat) (value : A) (callback : JoinValueFunction)
  | DoOp (t u : nat) (ok : bool)
  | DoTask (t : nat)
  | DoCallback (i u : nat) (ok : bool)
  | DoRotation
  | DoTick (d : Z)
  | DoRequestStop (source : nat).

Definition perform (a : Action) st : option Storage :=
  match a with
  | DoStart ok => Some (start ok st).1
  | DoStop => stop_call st
  | DoStopStep => stop_step st
  | DoJoin t ctx key index value callback => fst <$> joinValue t ctx key index value callback st
  | DoOp t u ok => op_step t u ok st
  | DoTask t => task_step t st
  | DoCallback i u ok => callback_step i u ok st
  | DoRotation => rotation_step st
  | DoTick d => if 0 <=? d then Some (set_clock (clock st + d) st) else None
  | DoRequestStop source => Some (set_stopped ({[source]} ∪ stopped st) st)
  end.

Definition step st st' : Prop := exists a, perform a st = Some st'.
Definition reachable (config : JoinStorageConfig) st : Prop := rtc step (initial config) st.

Fixpoint run (l : list Action) st : option Storage :=
  match l with
  | [] => Some st
  | a :: l => st ← perform a st; run l st
  end.
End Storage.
End Join.
