(* ===== verification/JoinInvariants.v ===== *)
(** * Invariants of the join storage

    In layers: the two maps and their count; the items, their mutexes and the program
    counters; the stop protocol; the expiry coroutines and stop callbacks.  Each layer is an
    inductive invariant that uses the ones before it. *)
From Stdlib Require Import ZArith Lia.
From S2P Require Import Prelude Context JoinStorage.
Import Join.
Local Open Scope Z_scope.

(** All outcomes of an action, outermost test first. *)
Ltac head_case Hp :=
  lazymatch type of Hp with
  | match ?x with _ => _ end = _ => destruct x eqn:?
  | _ ≫= _ = Some _ => apply bind_Some in Hp as (? & ? & Hp)
  | _ <$> _ = Some _ => apply fmap_Some in Hp as (? & Hp & ?)
  | None = Some _ => discriminate Hp
  | Some _ = Some _ => injection Hp as Hp
  end.
Ltac join_cases Hp :=
  unfold perform, stop_call, stop_step, joinValue, op_step, arm_step, arm_failed_step, checked_step,
    append_step, task_step, callback_step, rotation_step, scheduleExpiryNow, spawn in Hp;
  repeat head_case Hp; subst.

Create HintDb join_fields discriminated.

Section Invariants.
Context {K A : Type} `{Countable K}.
Implicit Types (st : Storage (K := K) (A := A)) (it : Item (K := K) (A := A)) (o : Op (K := K) (A := A)).
Implicit Types (tk : Task (K := K) (A := A)).

Lemma alter_some {B} (f : B -> B) (m : gmap nat B) i x : m !! i = Some x -> alter f i m = <[i := f x]> m.
Proof.
  intros Hx. apply map_eq. intros j. destruct (decide (i = j)) as [<-|Hj].
  - by rewrite lookup_alter_eq, lookup_insert_eq, Hx.
  - by rewrite lookup_alter_ne, lookup_insert_ne.
Qed.

(** ** The maps *)

(** What a step does to the maps and their count. *)
Inductive map_effect st st' : Prop :=
  | me_same :
      current_ st' = current_ st -> previous_ st' = previous_ st -> count_ st' = count_ st -> map_effect st st'
  | me_insert k i it :
      findItemLocked k st = None -> current_ st' = <[k := i]> (current_ st) ->
      previous_ st' = previous_ st -> count_ st' = count_ st + 1 ->
      items st !! i = None -> items st' !! i = Some it -> itemKey it = k -> map_effect st st'
  | me_remove k i :
      current_ st' = current_ (removeIfSame k i st) -> previous_ st' = previous_ (removeIfSame k i st) ->
      count_ st' = count_ (removeIfSame k i st) ->
      (exists t o e n, ops st !! t = Some o /\ pc o = JRemove i e n /\ okey o = k) \/
      (exists t tk, tasks st !! t = Some tk /\ tPc tk = TRemove /\ tItem tk = i /\ tKey tk = k) ->
      map_effect st st'
  | me_move k i :
      previous_ st !! k = Some i -> current_ st' = <[k := i]> (current_ st) ->
      previous_ st' = delete k (previous_ st) -> count_ st' = count_ st -> map_effect st st'
  | me_rotate :
      current_ st' = current_ (rotate st) -> previous_ st' = previous_ (rotate st) ->
      count_ st' = count_ (rotate st) -> map_effect st st'
  | me_clear :
      current_ st' = ∅ -> previous_ st' = ∅ -> count_ st' = 0 -> stopper st' = SReturned -> map_effect st st'.

Lemma removeIfSame_other k i st :
  items (removeIfSame k i st) = items st /\ ops (removeIfSame k i st) = ops st /\
  tasks (removeIfSame k i st) = tasks st /\ stopper (removeIfSame k i st) = stopper st.
Proof. unfold removeIfSame. by repeat split_case. Qed.

Lemma step_map_effect a st st' : perform a st = Some st' -> map_effect st st'.
Proof.
  intros Hp. destruct a; join_cases Hp; try (by apply me_same).
  - unfold start. destruct (state_ st), ok; by apply me_same.
  - by apply me_clear.
  - eapply (me_insert _ _ (okey o) u); try done. apply lookup_insert_eq. done.
  - case_bool_decide; [by eapply me_move|by apply me_same].
  - eapply me_remove; try done. left. eauto 10.
  - eapply me_remove; try done. right. eauto 10.
  - by apply me_rotate.
Qed.

(** The fields that a rotation, a removal or a start leaves alone. *)
Lemma items_rotate st : items (rotate st) = items st.
Proof. unfold rotate. by repeat split_case. Qed.
Lemma items_remove k i st : items (removeIfSame k i st) = items st.
Proof. unfold removeIfSame. by repeat split_case. Qed.
Lemma items_start ok st : items (start ok st).1 = items st.
Proof. unfold start. by destruct (state_ st), ok. Qed.
Lemma ops_rotate st : ops (rotate st) = ops st.
Proof. unfold rotate. by repeat split_case. Qed.
Lemma ops_remove k i st : ops (removeIfSame k i st) = ops st.
Proof. unfold removeIfSame. by repeat split_case. Qed.
Lemma ops_start ok st : ops (start ok st).1 = ops st.
Proof. unfold start. by destruct (state_ st), ok. Qed.
Lemma tasks_rotate st : tasks (rotate st) = tasks st.
Proof. unfold rotate. by repeat split_case. Qed.
Lemma tasks_remove k i st : tasks (removeIfSame k i st) = tasks st.
Proof. unfold removeIfSame. by repeat split_case. Qed.
Lemma tasks_start ok st : tasks (start ok st).1 = tasks st.
Proof. unfold start. by destruct (state_ st), ok. Qed.
Lemma history_rotate st : history (rotate st) = history st.
Proof. unfold rotate. by repeat split_case. Qed.
Lemma history_remove k i st : history (removeIfSame k i st) = history st.
Proof. unfold removeIfSame. by repeat split_case. Qed.
Lemma history_start ok st : history (start ok st).1 = history st.
Proof. unfold start. by destruct (state_ st), ok. Qed.
Lemma delivered_rotate st : delivered (rotate st) = delivered st.
Proof. unfold rotate. by repeat split_case. Qed.
Lemma delivered_remove k i st : delivered (removeIfSame k i st) = delivered st.
Proof. unfold removeIfSame. by repeat split_case. Qed.
Lemma delivered_start ok st : delivered (start ok st).1 = delivered st.
Proof. unfold start. by destruct (state_ st), ok. Qed.
Lemma stopped_rotate st : stopped (rotate st) = stopped st.
Proof. unfold rotate. by repeat split_case. Qed.
Lemma stopped_remove k i st : stopped (removeIfSame k i st) = stopped st.
Proof. unfold removeIfSame. by repeat split_case. Qed.
Lemma stopped_start ok st : stopped (start ok st).1 = stopped st.
Proof. unfold start. by destruct (state_ st), ok. Qed.
Lemma clock_rotate st : clock (rotate st) = clock st.
Proof. unfold rotate. by repeat split_case. Qed.
Lemma clock_remove k i st : clock (removeIfSame k i st) = clock st.
Proof. unfold removeIfSame. by repeat split_case. Qed.
Lemma clock_start ok st : clock (start ok st).1 = clock st.
Proof. unfold start. by destruct (state_ st), ok. Qed.
Lemma tasksCancel_rotate st : tasksCancel (rotate st) = tasksCancel st.
Proof. unfold rotate. by repeat split_case. Qed.
Lemma tasksCancel_remove k i st : tasksCancel (removeIfSame k i st) = tasksCancel st.
Proof. unfold removeIfSame. by repeat split_case. Qed.
Lemma tasksCancel_start ok st : tasksCancel (start ok st).1 = tasksCancel st.
Proof. unfold start. by destruct (state_ st), ok. Qed.
Lemma config_rotate st : config_ (rotate st) = config_ st.
Proof. unfold rotate. by repeat split_case. Qed.
Lemma config_remove k i st : config_ (removeIfSame k i st) = config_ st.
Proof. unfold removeIfSame. by repeat split_case. Qed.
Lemma config_start ok st : config_ (start ok st).1 = config_ st.
Proof. unfold start. by destruct (state_ st), ok. Qed.
Lemma stopper_rotate st : stopper (rotate st) = stopper st.
Proof. unfold rotate. by repeat split_case. Qed.
Lemma stopper_remove k i st : stopper (removeIfSame k i st) = stopper st.
Proof. unfold removeIfSame. by repeat split_case. Qed.
Lemma state_rotate st : state_ (rotate st) = state_ st.
Proof. unfold rotate. by repeat split_case. Qed.
Lemma state_remove k i st : state_ (removeIfSame k i st) = state_ st.
Proof. unfold removeIfSame. by repeat split_case. Qed.
Lemma activeOperations_rotate st : activeOperations_ (rotate st) = activeOperations_ st.
Proof. unfold rotate. by repeat split_case. Qed.
Lemma activeOperations_remove k i st : activeOperations_ (removeIfSame k i st) = activeOperations_ st.
Proof. unfold removeIfSame. by repeat split_case. Qed.
Lemma rotation_rotate st : rotation (rotate st) = rotation st.
Proof. unfold rotate. by repeat split_case. Qed.
Lemma rotation_remove k i st : rotation (removeIfSame k i st) = rotation st.
Proof. unfold removeIfSame. by repeat split_case. Qed.
Lemma stopper_start ok st : stopper (start ok st).1 = stopper st.
Proof. unfold start. by destruct (state_ st), ok. Qed.
Hint Rewrite items_rotate items_remove items_start ops_rotate ops_remove ops_start tasks_rotate
  tasks_remove tasks_start history_rotate history_remove history_start delivered_rotate
  delivered_remove delivered_start stopped_rotate stopped_remove stopped_start clock_rotate
  clock_remove clock_start tasksCancel_rotate tasksCancel_remove tasksCancel_start
  config_rotate config_remove config_start stopper_rotate stopper_remove state_rotate
  state_remove activeOperations_rotate activeOperations_remove rotation_rotate
  rotation_remove stopper_start : join_fields.

(** Items stay where they are and keep their keys, and processed ones stay processed. *)
Definition items_grow st st' : Prop :=
  forall i it, items st !! i = Some it -> exists it', items st' !! i = Some it' /\
    itemKey it' = itemKey it /\ (processed it = true -> processed it' = true).

Lemma items_grow_alter st st' i f :
  items st' = alter f i (items st) ->
  (forall it, itemKey (f it) = itemKey it /\ (processed it = true -> processed (f it) = true)) ->
  items_grow st st'.
Proof.
  intros E Hf j it Hj. rewrite E. destruct (decide (i = j)) as [<-|Hij].
  - rewrite lookup_alter_eq, Hj. simpl. destruct (Hf it). eauto.
  - rewrite lookup_alter_ne by done. eauto.
Qed.
Lemma items_grow_same st st' : items st' = items st -> items_grow st st'.
Proof. intros E i it Hi. rewrite E. eauto. Qed.

Section Register.
Context (sources : gset nat) (token : StopToken) (it0 : Item (K := K) (A := A)).
Lemma register_key : itemKey (register sources token it0) = itemKey it0.
Proof. unfold register. by split_case. Qed.
Lemma register_processed : processed (register sources token it0) = processed it0.
Proof. unfold register. by split_case. Qed.
Lemma register_mu : mu (register sources token it0) = mu it0.
Proof. unfold register. by split_case. Qed.
Lemma register_fresh : fresh (register sources token it0) = fresh it0.
Proof. unfold register. by split_case. Qed.
Lemma register_marker : marker (register sources token it0) = marker it0.
Proof. unfold register. by split_case. Qed.
Lemma register_values : values (register sources token it0) = values it0.
Proof. unfold register. by split_case. Qed.
Lemma register_generation : generation (register sources token it0) = generation it0.
Proof. unfold register. by split_case. Qed.
Lemma register_deadline : ideadline (register sources token it0) = ideadline it0.
Proof. unfold register. by split_case. Qed.
Lemma register_armed : armedGeneration (register sources token it0) = armedGeneration it0.
Proof. unfold register. by split_case. Qed.
End Register.
Hint Rewrite register_key register_processed register_mu register_fresh register_marker register_values
  register_generation register_deadline register_armed : join_fields.

Lemma step_items_grow a st st' : perform a st = Some st' -> items_grow st st'.
Proof.
  intros Hp. destruct a; join_cases Hp; try (by apply items_grow_same);
    try (by eapply items_grow_alter; [reflexivity|intros it'; split]).
  - unfold start. destruct (state_ st), ok; by apply items_grow_same.
  - intros i it Hi. exists it. split; [|done]. simpl. rewrite lookup_insert_ne; [done|congruence].
  - eapply items_grow_alter; [reflexivity|]. intros it'. by autorewrite with join_fields.
  - apply items_grow_same. by case_bool_decide.
  - apply items_grow_same. apply removeIfSame_other.
  - apply items_grow_same. apply removeIfSame_other.
  - apply items_grow_same. unfold rotate. by repeat split_case.
Qed.

Record maps_ok st : Prop := {
  maps_disjoint k i : current_ st !! k = Some i -> previous_ st !! k = None;
  maps_count : count_ st = Z.of_nat (size (current_ st)) + Z.of_nat (size (previous_ st));
  maps_items k i : findItemLocked k st = Some i -> exists it, items st !! i = Some it /\ itemKey it = k;
}.

(** A rotation changes neither what is found nor the count: it evicts nothing. *)
Lemma rescued_all (c p : gmap K nat) :
  (forall k i, c !! k = Some i -> p !! k = None) -> filter (fun kv => c !! kv.1 = None) p = p.
Proof.
  intros Hd. apply map_filter_id. intros k i Hk. simpl. destruct (c !! k) eqn:E; [|done].
  apply Hd in E. congruence.
Qed.

Lemma rotate_maps st :
  maps_ok st ->
  (forall k, findItemLocked k (rotate st) = findItemLocked k st) /\ count_ (rotate st) = count_ st /\
  (forall k i, current_ (rotate st) !! k = Some i -> previous_ (rotate st) !! k = None) /\
  Z.of_nat (size (current_ (rotate st))) + Z.of_nat (size (previous_ (rotate st))) =
    Z.of_nat (size (current_ st)) + Z.of_nat (size (previous_ st)).
Proof.
  intros [Hd Hc _]. unfold rotate.
  destruct (negb (bool_decide (state_ st = kRunning))); [done|].
  match goal with |- context [if negb ?b then _ else _] => destruct b end; simpl; [|done].
  rewrite rescued_all by done. split; [|split; [lia|split]].
  - intros k. unfold findItemLocked. simpl. rewrite lookup_empty, lookup_union.
    destruct (current_ st !! k), (previous_ st !! k); done.
  - intros k i. by rewrite lookup_empty.
  - rewrite map_size_empty. rewrite map_size_disj_union; [lia|]. apply map_disjoint_spec.
    intros k x y Hx Hy. apply Hd in Hx. congruence.
Qed.

Lemma removeIfSame_maps k i st :
  maps_ok st ->
  (forall k', findItemLocked k' (removeIfSame k i st) =
     if bool_decide (k' = k /\ findItemLocked k st = Some i) then None else findItemLocked k' st) /\
  (forall k' i', current_ (removeIfSame k i st) !! k' = Some i' -> previous_ (removeIfSame k i st) !! k' = None) /\
  count_ (removeIfSame k i st) =
    Z.of_nat (size (current_ (removeIfSame k i st))) + Z.of_nat (size (previous_ (removeIfSame k i st))).
Proof.
  intros [Hd Hc _]. unfold removeIfSame, findItemLocked.
  destruct (bool_decide_reflect (current_ st !! k = Some i)) as [Hk|Hk]; simpl.
  - rewrite Hk. split; [|split].
    + intros k'. destruct (decide (k' = k)) as [->|Hne].
      * rewrite lookup_delete_eq, (Hd _ _ Hk), bool_decide_true by done. done.
      * rewrite lookup_delete_ne, bool_decide_false by naive_solver. done.
    + intros k' i' Hk'. apply lookup_delete_Some in Hk' as [_ Hk']. eauto.
    + rewrite map_size_delete, Hk. simpl.
      assert (0 < size (current_ st))%nat by (apply Nat.neq_0_lt_0; intros E%map_size_empty_inv; by rewrite E in Hk).
      lia.
  - destruct (bool_decide_reflect (previous_ st !! k = Some i)) as [Hp|Hp]; simpl.
    + assert (Hn : current_ st !! k = None).
      { destruct (current_ st !! k) eqn:E; [|done]. apply Hd in E. congruence. }
      split; [|split].
      * intros k'. destruct (decide (k' = k)) as [->|Hne].
        -- rewrite Hn, lookup_delete_eq, bool_decide_true by done. done.
        -- rewrite lookup_delete_ne, bool_decide_false by naive_solver. done.
      * intros k' i' Hk'. apply Hd in Hk'. apply lookup_delete_None. eauto.
      * rewrite map_size_delete, Hp. simpl.
        assert (0 < size (previous_ st))%nat by (apply Nat.neq_0_lt_0; intros E%map_size_empty_inv; by rewrite E in Hp).
        lia.
    + split; [|split; [done|done]]. intros k'. rewrite bool_decide_false; [done|].
      intros [-> E]. destruct (current_ st !! k); simplify_eq.
Qed.

Lemma findItemLocked_eq k st st' :
  current_ st' = current_ st -> previous_ st' = previous_ st -> findItemLocked k st' = findItemLocked k st.
Proof. intros Hc Hp. unfold findItemLocked. by rewrite Hc, Hp. Qed.

(** What is found after a step. *)
Lemma map_effect_find st st' :
  maps_ok st -> map_effect st st' ->
  forall k, findItemLocked k st' = findItemLocked k st \/
    (findItemLocked k st = None /\ exists i it, findItemLocked k st' = Some i /\ items st !! i = None /\
       items st' !! i = Some it /\ itemKey it = k) \/
    (findItemLocked k st' = None /\ (stopper st' = SReturned \/ exists i, findItemLocked k st = Some i /\
      ((exists t o e n, ops st !! t = Some o /\ pc o = JRemove i e n /\ okey o = k) \/
       (exists t tk, tasks st !! t = Some tk /\ tPc tk = TRemove /\ tItem tk = i /\ tKey tk = k)))).
Proof.
  intros Hm He k. destruct He as [Hc Hp _|k' i it Hn Hc Hp _ Hf Hi Hk|k' i Hc Hp _ Hr|k' i Hk Hc Hp _|Hc Hp _|Hc Hp _ Hs].
  - left. by apply findItemLocked_eq.
  - destruct (decide (k = k')) as [->|Hne].
    + right. left. split; [done|]. exists i, it. split; [|done]. unfold findItemLocked. by rewrite Hc, lookup_insert_eq.
    + left. unfold findItemLocked. by rewrite Hc, Hp, lookup_insert_ne.
  - rewrite (findItemLocked_eq k (removeIfSame k' i st) st' Hc Hp), (proj1 (removeIfSame_maps k' i st Hm)).
    case_bool_decide as E; [|by left]. destruct E as [-> E]. right. right. eauto 10.
  - left. unfold findItemLocked. rewrite Hc, Hp. destruct (decide (k = k')) as [->|Hne].
    + rewrite lookup_insert_eq. destruct (current_ st !! k') eqn:E; [|done].
      apply (maps_disjoint _ Hm) in E. congruence.
    + by rewrite lookup_insert_ne, lookup_delete_ne.
  - left. rewrite (findItemLocked_eq k (rotate st) st' Hc Hp). by apply rotate_maps.
  - right. right. split; [|by left]. unfold findItemLocked. by rewrite Hc, Hp, !lookup_empty.
Qed.

Lemma maps_ok_step a st st' : maps_ok st -> perform a st = Some st' -> maps_ok st'.
Proof.
  intros Hm Hp. pose proof (step_map_effect _ _ _ Hp) as He. pose proof (map_effect_find _ _ Hm He) as Hfind.
  assert (Hi : forall k i, findItemLocked k st' = Some i -> exists it, items st' !! i = Some it /\ itemKey it = k).
  { intros k i Hk. destruct (Hfind k) as [E|[(_ & i' & it & E & _ & Hi & Hkey)|[E _]]]; [|rewrite Hk in E; simplify_eq; eauto|congruence].
    rewrite E in Hk. apply (maps_items _ Hm) in Hk as (it & Hit & Hkey).
    apply (step_items_grow _ _ _ Hp) in Hit as (it' & ? & ? & _). exists it'. split; [done|congruence]. }
  destruct Hm as [Hd Hcount Hitems]. assert (Hm : maps_ok st) by done. clear Hfind. split; [| |done].
  - destruct He as [Hc Hp' _|k' i it Hn Hc Hp' _ _ _ _|k' i Hc Hp' _ _|k' i Hk Hc Hp' _|Hc Hp' _|Hc Hp' _ _];
      rewrite Hc, Hp'; [done| | | | |by intros k i; rewrite lookup_empty].
    + intros k j Hj. unfold findItemLocked in Hn. destruct (decide (k = k')) as [->|Hne].
      * by destruct (current_ st !! k').
      * rewrite lookup_insert_ne in Hj by done. eauto.
    + intros k j. by apply (removeIfSame_maps k' i st Hm).
    + intros k j Hj. apply lookup_delete_None. destruct (decide (k' = k)) as [->|Hne]; [by left|right].
      rewrite lookup_insert_ne in Hj by done. eauto.
    + apply (rotate_maps st Hm).
  - destruct He as [Hc Hp' E|k' i it Hn Hc Hp' E _ _ _|k' i Hc Hp' E _|k' i Hk Hc Hp' E|Hc Hp' E|Hc Hp' E _]; rewrite Hc, Hp', E.
    + done.
    + unfold findItemLocked in Hn. rewrite map_size_insert. destruct (current_ st !! k'); [done|]. simpl. lia.
    + apply (removeIfSame_maps k' i st Hm).
    + rewrite map_size_insert, map_size_delete, Hk. simpl. destruct (current_ st !! k') eqn:E'; [apply Hd in E'; congruence|].
      simpl. assert (0 < size (previous_ st))%nat by (apply Nat.neq_0_lt_0; intros E0%map_size_empty_inv; by rewrite E0 in Hk). lia.
    + destruct (rotate_maps st Hm) as (_ & -> & _ & ->). done.
    + by rewrite map_size_empty.
Qed.

(** ** Mutexes and program counters *)

(** The item whose mutex a program counter holds, and the one it refers to as processed. *)
Definition holds (p : OpPc) : option nat :=
  match p with
  | JArm i _ _ | JArmFailed i _ | JChecked i _ | JMove i | JAppend i => Some i
  | _ => None
  end.
Definition retired (p : OpPc) : option nat :=
  match p with JExpireCall i | JRemove i _ _ => Some i | _ => None end.

Definition held_ok o it : Prop :=
  match pc o with
  | JArm _ _ AInitial | JArmFailed _ AInitial | JChecked _ true => processed it = false /\ fresh it = true
  | JArm _ _ _ | JArmFailed _ _ | JMove _ => processed it = false /\ fresh it = false
  | JChecked _ false => processed it = false -> fresh it = false
  | JAppend _ => processed it = false
  | _ => True
  end /\
  (fresh it = true -> processed it = false -> values it = replicate (S (oindex o)) []).

Record op_ok st (t : nat) o : Prop := {
  op_holds i : holds (pc o) = Some i ->
    exists it, items st !! i = Some it /\ itemKey it = okey o /\ mu it = Some t /\ held_ok o it;
  op_retired i : retired (pc o) = Some i ->
    exists it, items st !! i = Some it /\ itemKey it = okey o /\ processed it = true;
  op_marked i : pc o = JExpireCall i ->
    exists it, items st !! i = Some it /\ marker it = Some (inl t) /\ values it = omarked o;
  op_refers i : pc o = JLock i -> exists it, items st !! i = Some it /\ itemKey it = okey o;
}.

Record task_ok st (t : nat) tk : Prop := {
  task_item : exists it, items st !! tItem tk = Some it /\ itemKey it = tKey tk;
  task_retired : tPc tk = TCall \/ tPc tk = TRemove ->
    exists it, items st !! tItem tk = Some it /\ processed it = true;
  task_marked : tPc tk = TCall ->
    exists it, items st !! tItem tk = Some it /\ marker it = Some (inr t) /\ values it = tMarked tk;
}.

Record item_ok st (i : nat) it : Prop := {
  item_mu t : mu it = Some t -> exists o, ops st !! t = Some o /\ holds (pc o) = Some i;
  item_reset : processed it = true -> cancelCallback it = None;
  item_fresh : fresh it = true -> processed it = false -> mu it <> None;
  item_marker : marker it <> None -> processed it = true;
}.

Record locks_ok st : Prop := {
  locks_ops t o : ops st !! t = Some o -> op_ok st t o;
  locks_tasks t tk : tasks st !! t = Some tk -> task_ok st t tk;
  locks_items i it : items st !! i = Some it -> item_ok st i it;
}.

(** Who acts: an activation or an expiry coroutine. *)
Definition agent (a : Action (K := K) (A := A)) : option (nat + nat) :=
  match a with DoOp t _ _ => Some (inl t) | DoTask t => Some (inr t) | _ => None end.

(** What an agent [x] relies on: the item it has locked, and the values it has marked. *)
Definition unchanged (x : nat + nat) it it' : Prop :=
  itemKey it' = itemKey it /\ (processed it = true -> processed it' = true) /\
  (forall t, x = inl t -> mu it = Some t ->
     mu it' = Some t /\ processed it' = processed it /\ fresh it' = fresh it /\
     (processed it = false -> values it' = values it)) /\
  (marker it = Some x -> marker it' = Some x /\ values it' = values it).
Definition undisturbed (x : nat + nat) st st' : Prop :=
  forall i it, items st !! i = Some it -> exists it', items st' !! i = Some it' /\ unchanged x it it'.

Lemma unchanged_refl x it : unchanged x it it.
Proof. split; [done|]. split; [done|]. split; [by intros|done]. Qed.

Lemma undisturbed_same x st st' : items st' = items st -> undisturbed x st st'.
Proof. intros E i it Hi. rewrite E. exists it. split; [done|apply unchanged_refl]. Qed.

Lemma undisturbed_alter x st st' i it f :
  items st !! i = Some it -> items st' = alter f i (items st) -> unchanged x it (f it) -> undisturbed x st st'.
Proof.
  intros Hi E Hu j jt Hj. rewrite E. destruct (decide (i = j)) as [<-|Hij].
  - rewrite lookup_alter_eq, Hj. simpl. simplify_eq. eauto.
  - rewrite lookup_alter_ne by done. exists jt. split; [done|apply unchanged_refl].
Qed.

End Invariants.

#[export] Hint Rewrite @items_rotate @items_remove @items_start @ops_rotate @ops_remove @ops_start @tasks_rotate
  @tasks_remove @tasks_start @history_rotate @history_remove @history_start
  @delivered_rotate @delivered_remove @delivered_start @stopped_rotate @stopped_remove
  @stopped_start @clock_rotate @clock_remove @clock_start @tasksCancel_rotate
  @tasksCancel_remove @tasksCancel_start @config_rotate @config_remove @config_start
  @stopper_rotate @stopper_remove @state_rotate @state_remove @activeOperations_rotate
  @activeOperations_remove @rotation_rotate @rotation_remove @stopper_start : join_fields.
#[export] Hint Rewrite @register_key @register_processed @register_mu @register_fresh @register_marker
  @register_values @register_generation @register_deadline @register_armed : join_fields.

(** The facts about the item of the acting activation or coroutine. *)
Ltac op_facts Ho :=
  match goal with
  | Hl : ops ?st !! ?t = Some ?o, Hpc : pc ?o = _ |- _ =>
      pose proof (Ho t o Hl) as Hop;
      try (destruct (op_holds _ _ _ Hop _ ltac:(rewrite Hpc; reflexivity)) as (?it & ?Hit & ?Hkey & ?Hmu & ?Hheld));
      try (destruct (op_retired _ _ _ Hop _ ltac:(rewrite Hpc; reflexivity)) as (?it & ?Hit & ?Hkey & ?Hpr));
      try (destruct (op_marked _ _ _ Hop _ Hpc) as (?it & ?Hit & ?Hmark & ?Hvals));
      try (destruct (op_refers _ _ _ Hop _ Hpc) as (?it & ?Hit & ?Hkey))
  end; simplify_eq;
  try match goal with Hpc : pc ?o = _, Hheld : held_ok ?o _ |- _ => unfold held_ok in Hheld; rewrite Hpc in Hheld end.
Ltac task_facts Ht :=
  match goal with
  | Hl : tasks ?st !! ?t = Some ?tk, Hpc : tPc ?tk = _ |- _ =>
      pose proof (Ht t tk Hl) as Htask;
      destruct (task_item _ _ _ Htask) as (?it & ?Hit & ?Hkey);
      try (destruct (task_retired _ _ _ Htask ltac:(rewrite Hpc; auto)) as (?it & ?Hit & ?Hpr));
      try (destruct (task_marked _ _ _ Htask Hpc) as (?it & ?Hit & ?Hmark & ?Hvals))
  end; simplify_eq.

Section Steps.
Context {K A : Type} `{Countable K}.
Implicit Types (st : Storage (K := K) (A := A)) (it : Item (K := K) (A := A)) (o : Op (K := K) (A := A)).
Implicit Types (tk : Task (K := K) (A := A)).

Lemma marker_none st i it : item_ok st i it -> processed it = false -> marker it = None.
Proof. intros Hi Hp. destruct (marker it) eqn:E; [|done]. rewrite (item_marker _ _ _ Hi) in Hp; [done|congruence]. Qed.

Ltac unmarked Hi :=
  match goal with
  | Hit : items ?st !! ?i = Some ?it |- _ =>
      assert (Hunmarked : marker it = None)
        by (apply (marker_none st i it); [by apply Hi|bool_to_prop; tauto])
  end.

(** The cases of [unchanged] that come up: the item is locked by somebody else, or keeps
    its values and marker, or belongs to the actor. *)
Ltac solve_unchanged :=
  split; [reflexivity|]; split; [simpl; intros; congruence|]; split;
    [intros ? ?; simpl; intros ?; simplify_eq; try done; try congruence; repeat split; simpl; intros; try congruence; auto
    |simpl; intros ?; simplify_eq; try done; try congruence; auto].

Lemma step_undisturbed x a st st' :
  locks_ok st -> perform a st = Some st' -> agent a <> Some x -> undisturbed x st st'.
Proof.
  intros [Ho Ht Hi] Hp Hx. destruct a; join_cases Hp; try (by apply undisturbed_same); simpl in Hx;
    try op_facts Ho; try task_facts Ht;
    try (by eapply undisturbed_alter; [eassumption|reflexivity|solve_unchanged]).
  - apply undisturbed_same. unfold start. by destruct (state_ st), ok.
  - intros i it Hit. exists it. split; [|apply unchanged_refl]. simpl. rewrite lookup_insert_ne; congruence.
  - eapply undisturbed_alter; [eassumption|reflexivity|]. unfold register. split_case; solve_unchanged.
  - eapply undisturbed_alter; [eassumption|reflexivity|]. unmarked Hi. solve_unchanged.
  - apply undisturbed_same. by case_bool_decide.
  - eapply undisturbed_alter; [eassumption|reflexivity|]. unmarked Hi. solve_unchanged.
  - eapply undisturbed_alter; [eassumption|reflexivity|]. unmarked Hi. solve_unchanged.
  - apply undisturbed_same. apply removeIfSame_other.
  - eapply undisturbed_alter; [eassumption|reflexivity|]. unmarked Hi. solve_unchanged.
  - apply undisturbed_same. apply removeIfSame_other.
  - apply undisturbed_same. unfold rotate. by repeat split_case.
Qed.

Lemma op_ok_frame st st' t o : op_ok st t o -> undisturbed (inl t) st st' -> op_ok st' t o.
Proof.
  intros [Hh Hr Hm Hf] Hu. split; intros i Hpc.
  - destruct (Hh i Hpc) as (it & Hit & Hk & Hmu & Hheld).
    destruct (Hu _ _ Hit) as (it' & Hit' & Hk' & _ & Hl & _).
    destruct (Hl t eq_refl Hmu) as (Hmu' & Hp & Hfr & Hv). exists it'. split; [done|]. split; [congruence|].
    split; [done|]. destruct Hheld as [H1 H2]. unfold held_ok. rewrite Hp, Hfr. split; [done|].
    intros E1 E2. rewrite Hv by done. auto.
  - destruct (Hr i Hpc) as (it & Hit & Hk & Hp). destruct (Hu _ _ Hit) as (it' & Hit' & Hk' & Hp' & _).
    exists it'. split; [done|]. split; [congruence|auto].
  - destruct (Hm i Hpc) as (it & Hit & Hmk & Hv). destruct (Hu _ _ Hit) as (it' & Hit' & _ & _ & _ & Hm').
    destruct (Hm' Hmk) as [? Hv']. exists it'. split; [done|]. split; [done|congruence].
  - destruct (Hf i Hpc) as (it & Hit & Hk). destruct (Hu _ _ Hit) as (it' & Hit' & Hk' & _).
    exists it'. split; [done|congruence].
Qed.

Lemma task_ok_frame st st' t tk : task_ok st t tk -> undisturbed (inr t) st st' -> task_ok st' t tk.
Proof.
  intros [Hi Hr Hm] Hu. split.
  - destruct Hi as (it & Hit & Hk). destruct (Hu _ _ Hit) as (it' & Hit' & Hk' & _).
    exists it'. split; [done|congruence].
  - intros Hpc. destruct (Hr Hpc) as (it & Hit & Hp). destruct (Hu _ _ Hit) as (it' & Hit' & _ & Hp' & _). eauto.
  - intros Hpc. destruct (Hm Hpc) as (it & Hit & Hmk & Hv). destruct (Hu _ _ Hit) as (it' & Hit' & _ & _ & _ & Hm').
    destruct (Hm' Hmk) as [? Hv']. exists it'. split; [done|]. split; [done|congruence].
Qed.

(** Activations and coroutines that do not act stay as they are, or are new. *)
Lemma step_ops a st st' t o :
  perform a st = Some st' -> agent a <> Some (inl t) -> ops st' !! t = Some o ->
  ops st !! t = Some o \/ (ops st !! t = None /\ pc o = JFind).
Proof.
  intros Hp Ha. destruct a; join_cases Hp; simpl in *; autorewrite with join_fields; auto;
    try (match goal with |- alter _ _ _ !! _ = _ -> _ => rewrite lookup_alter_ne by congruence; auto end).
  - rewrite lookup_insert_Some. intros [[<- <-]|[_ ?]]; auto.
  - case_bool_decide; auto.
  - rewrite lookup_delete_Some. intros [_ ?]. auto.
Qed.

Lemma step_tasks a st st' t tk :
  locks_ok st -> perform a st = Some st' -> agent a <> Some (inr t) -> tasks st' !! t = Some tk ->
  tasks st !! t = Some tk \/
  (tasks st !! t = None /\ tPc tk = TSleep /\ exists it, items st !! tItem tk = Some it /\ itemKey it = tKey tk).
Proof.
  intros [Ho _ _] Hp Ha. destruct a; join_cases Hp; simpl in *; autorewrite with join_fields; auto;
    try (match goal with |- alter _ _ _ !! _ = _ -> _ => rewrite lookup_alter_ne by congruence; auto end);
    try (rewrite lookup_insert_Some; intros [[<- <-]|[_ ?]]; auto; right; op_facts Ho; eauto).
  - case_bool_decide; auto.
  - rewrite lookup_insert_Some. intros [[<- <-]|[_ ?]]; auto. right. simpl. eauto.
Qed.

(** [op_ok] by the kind of program counter. *)
Lemma op_ok_idle st t o :
  match pc o with JFind | JCreate | JInsert _ | JLeave => True | _ => False end -> op_ok st t o.
Proof. intros Hpc. split; intros i E; destruct (pc o); done. Qed.
Lemma op_ok_held st t o i it :
  holds (pc o) = Some i -> items st !! i = Some it -> itemKey it = okey o -> mu it = Some t ->
  held_ok o it -> op_ok st t o.
Proof. intros Hh Hi Hk Hmu Hheld. split; intros j E; destruct (pc o); simplify_eq/=; eauto 10. Qed.
Lemma op_ok_removing st t o i e n it :
  pc o = JRemove i e n -> items st !! i = Some it -> itemKey it = okey o -> processed it = true -> op_ok st t o.
Proof. intros Hpc Hi Hk Hp. split; intros j E; rewrite Hpc in E; simplify_eq/=; eauto. Qed.
Lemma op_ok_locking st t o i it :
  pc o = JLock i -> items st !! i = Some it -> itemKey it = okey o -> op_ok st t o.
Proof. intros Hpc Hi Hk. split; intros j E; rewrite Hpc in E; simplify_eq/=; eauto. Qed.
Lemma op_ok_marking st t o i it :
  pc o = JExpireCall i -> items st !! i = Some it -> itemKey it = okey o -> processed it = true ->
  marker it = Some (inl t) -> values it = omarked o -> op_ok st t o.
Proof. intros Hpc Hi Hk Hp Hm Hv. split; intros j E; rewrite Hpc in E; simplify_eq/=; eauto 10. Qed.

(** The item of the actor after the step. *)
Ltac item_now :=
  simpl items; autorewrite with join_fields; simpl items; rewrite ?lookup_alter_eq, ?lookup_insert_eq;
  match goal with
  | Hit : items _ !! _ = Some _ |- _ => first [exact Hit | rewrite Hit; reflexivity]
  | _ => reflexivity
  end.

Ltac held_now := unfold held_ok; simpl; destruct_and?; repeat split; intros; try done; try congruence; tauto.

Lemma op_ok_acts t u ok st st' o' :
  maps_ok st -> locks_ok st -> perform (DoOp t u ok) st = Some st' -> ops st' !! t = Some o' -> op_ok st' t o'.
Proof.
  intros Hm [Ho Ht Hi] Hp. join_cases Hp; simpl ops; autorewrite with join_fields;
    rewrite ?lookup_alter_eq, ?lookup_delete_eq; simpl ops; autorewrite with join_fields; try done;
    op_facts Ho;
    match goal with Hl : ops _ !! _ = Some _ |- _ => try rewrite Hl end; simpl fmap;
    try (intros [= <-]);
    try (by apply op_ok_idle);
    try (by eapply op_ok_held; [reflexivity|item_now|simpl; congruence|simpl; congruence|held_now]);
    try (by eapply op_ok_removing; [reflexivity|item_now|simpl; congruence|simpl; congruence]).
  - destruct (findItemLocked (okey o) st) as [i|] eqn:E; [|by apply op_ok_idle].
    destruct (maps_items _ Hm _ _ E) as (it & Hit & Hk). by eapply op_ok_locking.
  - match goal with E : findItemLocked _ _ = Some _ |- _ => destruct (maps_items _ Hm _ _ E) as (it & Hit & Hk) end.
    by eapply op_ok_locking.
  - destruct candidateDeadline;
      (eapply op_ok_held; [reflexivity|simpl; apply lookup_insert_eq|done|done|held_now]).
  - destruct mode; (eapply op_ok_held; [reflexivity|item_now|..]);
      unfold register; split_case; simpl; try congruence; held_now.
  - destruct (generation x <=? cancelledGeneration x), mode; simpl;
      (eapply op_ok_held; [reflexivity|item_now|simpl; congruence|simpl; congruence|held_now]).
  - destruct mode; (eapply op_ok_held; [reflexivity|item_now|simpl; congruence|simpl; congruence|held_now]).
  - destruct mode; (eapply op_ok_held; [reflexivity|item_now|simpl; congruence|simpl; congruence|held_now]).
  - match goal with Hit : items _ !! _ = Some _ |- _ => pose proof (item_fresh _ _ _ (Hi _ _ Hit)) as Hf end.
    eapply op_ok_held; [reflexivity|item_now|simpl; congruence|done|]. unfold held_ok. simpl.
    split; intros; [destruct (fresh x) eqn:E; [|done]|]; exfalso; by apply Hf.
  - eapply op_ok_marking; [reflexivity|item_now|simpl; congruence|done|done|done].
  - eapply op_ok_held; [reflexivity|item_now|simpl; congruence|simpl; congruence|].
    match goal with Hb : _ && _ && _ = true |- _ => apply andb_prop in Hb as [_ Hn] end.
    destruct newlyInserted; [done|]. held_now.
  - case_bool_decide; simpl ops; match goal with Hl : ops _ !! _ = Some _ |- _ => rewrite Hl end; intros [= <-];
      (eapply op_ok_held; [reflexivity|item_now|simpl; congruence|simpl; congruence|held_now]).
  - destruct next; by apply op_ok_idle.
Qed.

Lemma task_ok_acts t st st' tk' :
  locks_ok st -> perform (DoTask t) st = Some st' -> tasks st' !! t = Some tk' -> task_ok st' t tk'.
Proof.
  intros [Ho Ht Hi] Hp. join_cases Hp; simpl tasks; autorewrite with join_fields;
    rewrite ?lookup_alter_eq; simpl tasks; autorewrite with join_fields;
    task_facts Ht; match goal with Hl : tasks _ !! _ = Some _ |- _ => rewrite Hl end; intros [= <-];
    split; try (by intros []); simpl; try done; try (by intros [[=]|[=]]);
    try (by intros; eexists; split; [item_now|simpl; try split; congruence]).
  all: match goal with |- ?g => idtac g end.
Qed.

(** Items that the actor does not touch. *)
Lemma item_ok_frame st st' i it :
  item_ok st i it ->
  (forall t o, ops st !! t = Some o -> holds (pc o) = Some i ->
     exists o', ops st' !! t = Some o' /\ holds (pc o') = Some i) ->
  item_ok st' i it.
Proof.
  intros [Hmu Hr Hf Hm] Hops. split; try done. intros t E. destruct (Hmu t E) as (o & Hl & Hh). eauto.
Qed.

Lemma item_ok_same st st' :
  locks_ok st -> items st' = items st -> ops st' = ops st ->
  forall j jt, items st' !! j = Some jt -> item_ok st' j jt.
Proof.
  intros [_ _ Hi] Ei Eo j jt Hj. rewrite Ei in Hj. apply (item_ok_frame st); [by apply Hi|].
  intros t o Hl Hh. rewrite Eo. eauto.
Qed.

Lemma item_ok_ops st st' t o f :
  locks_ok st -> items st' = items st -> ops st' = alter f t (ops st) -> ops st !! t = Some o ->
  (holds (pc o) = None \/ holds (pc (f o)) = holds (pc o)) ->
  forall j jt, items st' !! j = Some jt -> item_ok st' j jt.
Proof.
  intros [_ _ Hi] Ei Eo Hl Hh j jt Hj. rewrite Ei in Hj. apply (item_ok_frame st); [by apply Hi|].
  intros t' o' Hl' Hh'. rewrite Eo. destruct (decide (t = t')) as [<-|Hne].
  - rewrite lookup_alter_eq, Hl. simplify_eq. eexists. split; [done|]. destruct Hh; congruence.
  - rewrite lookup_alter_ne by done. eauto.
Qed.

Lemma item_ok_alter st st' t o f i it g :
  locks_ok st -> items st !! i = Some it -> items st' = alter g i (items st) ->
  ops st' = alter f t (ops st) -> ops st !! t = Some o ->
  (holds (pc o) = None \/ holds (pc o) = Some i) ->
  (item_ok st i it -> item_ok st' i (g it)) ->
  forall j jt, items st' !! j = Some jt -> item_ok st' j jt.
Proof.
  intros [_ _ Hi] Hit Ei Eo Hl Hh Hok j jt Hj. rewrite Ei in Hj. destruct (decide (i = j)) as [<-|Hne].
  - rewrite lookup_alter_eq, Hit in Hj. injection Hj as <-. auto.
  - rewrite lookup_alter_ne in Hj by done. apply (item_ok_frame st); [by apply Hi|].
    intros t' o' Hl' Hh'. rewrite Eo. destruct (decide (t = t')) as [<-|Hne'].
    + exfalso. simplify_eq. destruct Hh; congruence.
    + rewrite lookup_alter_ne by done. eauto.
Qed.

Lemma item_ok_alter_only st st' i it g :
  locks_ok st -> items st !! i = Some it -> items st' = alter g i (items st) -> ops st' = ops st ->
  mu (g it) = mu it -> fresh (g it) = fresh it ->
  (processed it = true -> processed (g it) = true) ->
  (processed (g it) = true -> cancelCallback (g it) = None) ->
  (marker (g it) <> None -> processed (g it) = true) ->
  forall j jt, items st' !! j = Some jt -> item_ok st' j jt.
Proof.
  intros [_ _ Hi] Hit Ei Eo Hmu Hf Hp Hcb Hmk j jt Hj. rewrite Ei in Hj. destruct (decide (i = j)) as [<-|Hne].
  - rewrite lookup_alter_eq, Hit in Hj. injection Hj as <-. destruct (Hi _ _ Hit) as [Hm _ Hfr _].
    split; try done; rewrite ?Hmu, ?Hf, ?Eo; [done|]. intros E1 E2. apply Hfr; [done|].
    destruct (processed it); [|done]. by rewrite Hp in E2.
  - rewrite lookup_alter_ne in Hj by done. apply (item_ok_frame st); [by apply Hi|].
    intros t' o' Hl' Hh'. rewrite Eo. eauto.
Qed.

(** The item that the actor keeps locked. *)
Ltac item_held :=
  match goal with
  | Hlocks : locks_ok ?st, Hl : ops ?st !! ?t = Some ?o, Hpc : pc ?o = _ |- _ =>
      eapply (item_ok_alter st); [exact Hlocks|eassumption|reflexivity|reflexivity|exact Hl|
        rewrite Hpc; by (left + right)|];
      intros [Hmu' Hr' Hf' Hm']; split;
        [let t' := fresh "t'" in let E := fresh "E" in
         intros t' E; assert (t' = t) as -> by (simpl in *; autorewrite with join_fields in *; congruence);
         eexists; split; [simpl ops; rewrite lookup_alter_eq, Hl; reflexivity|reflexivity]|simpl in *; autorewrite with join_fields in *..]
  end.

Ltac callback_case :=
  match goal with
  | Hlocks : locks_ok ?st, Hit : items ?st !! ?i = Some ?it, Hcb : cancelCallback ?it = Some _ |- _ =>
      eapply (item_ok_alter_only st); [exact Hlocks|exact Hit|reflexivity|done..| |];
      pose proof (locks_items _ Hlocks _ _ Hit) as [_ ? _ ?]; simpl; [intros; exfalso|auto];
      assert (cancelCallback it = None) by auto; congruence
  end.

Lemma item_ok_step a st st' :
  locks_ok st -> perform a st = Some st' -> forall j jt, items st' !! j = Some jt -> item_ok st' j jt.
Proof.
  intros Hlocks Hp. pose proof Hlocks as [Ho Ht Hi]. destruct a; join_cases Hp;
    try (eapply item_ok_same; [exact Hlocks|by (done || (simpl; autorewrite with join_fields))..]);
    try op_facts Ho; try task_facts Ht;
    try (eapply (item_ok_ops st); [exact Hlocks|done|reflexivity|eassumption|];
         match goal with Hpc : pc _ = _ |- _ => rewrite Hpc end; by (left + right));
    try (by eapply (item_ok_alter st); [exact Hlocks|eassumption|reflexivity|reflexivity|eassumption|
         match goal with Hpc : pc _ = _ |- _ => rewrite Hpc end; by (left + right)|
         intros [Hmu' Hr' Hf' Hm']; split; simpl in *; intros; destruct_and?; try done; try congruence; auto]).
  - eapply (item_ok_alter_only st); [exact Hlocks|eassumption|reflexivity|done..|]. simpl. apply Hi in H0. apply H0.
  - intros j jt Hj. apply (item_ok_frame st); [by apply Hi|]. intros t' o' Hl' Hh'. simpl.
    rewrite lookup_insert_ne by congruence. eauto.
  - intros j jt. simpl. rewrite lookup_insert_Some. intros [[<- <-]|[Hne Hj]].
    + split; simpl; try done. intros t' [= <-]. eexists. split; [by rewrite lookup_alter_eq, Heqo|].
      by destruct candidateDeadline.
    + apply (item_ok_frame st); [by apply Hi|]. intros t' o' Hl' Hh'. simpl. rewrite lookup_alter_ne; [eauto|].
      intros <-. simplify_eq. by rewrite Heqo0 in Hh'.
  - item_held; destruct mode; destruct_and?; try congruence; auto.
  - item_held; destruct mode; destruct_and?; try congruence; auto.
  - eapply (item_ok_ops st); [exact Hlocks|done|reflexivity|eassumption|].
    rewrite Heqo0. right. by destruct (generation x <=? cancelledGeneration x), mode.
  - eapply (item_ok_ops st); [exact Hlocks|done|reflexivity|eassumption|].
    rewrite Heqo0. right. by destruct mode.
  - eapply item_ok_ops; [exact Hlocks|done|reflexivity|eassumption|].
    rewrite Heqo0. right. by destruct mode.
  - item_held; try congruence; auto.
  - item_held; destruct_and?; try congruence; auto.
  - eapply (item_ok_ops st); [exact Hlocks|by case_bool_decide|by case_bool_decide|eassumption|].
    rewrite Heqo0. by right.
  - eapply (item_ok_alter st); [exact Hlocks|eassumption|reflexivity|reflexivity|eassumption|rewrite Heqo0; by left|].
    intros [Hmu' Hr' Hf' Hm']. split; simpl; try done; try congruence. intros t' E.
    destruct (Hmu' t' E) as (o' & Hl' & Hh'). rewrite lookup_alter_ne; [eauto|].
    intros <-. simplify_eq. by rewrite Heqo0 in Hh'.
  - eapply (item_ok_ops st); [exact Hlocks|simpl; by autorewrite with join_fields|simpl; by autorewrite with join_fields|eassumption|].
    rewrite Heqo0. by left.
  - intros j jt Hj. apply (item_ok_frame st); [by apply Hi|]. intros t' o' Hl' Hh'. simpl.
    rewrite lookup_delete_ne; [eauto|]. intros <-. simplify_eq. by rewrite Heqo0 in Hh'.
  - by eapply (item_ok_alter_only st); [exact Hlocks|eassumption|reflexivity|..].
  - eapply (item_ok_alter_only st); [exact Hlocks|eassumption|reflexivity|done..| |]; simpl;
      match goal with Hit : items _ !! _ = Some _ |- _ => apply (Hi _ _ Hit) end.
  - callback_case.
  - callback_case.
  - callback_case.
  - callback_case.
Qed.

Lemma locks_ok_step a st st' : maps_ok st -> locks_ok st -> perform a st = Some st' -> locks_ok st'.
Proof.
  intros Hm Hl Hp. split; [| |by eapply item_ok_step].
  - intros t o Ho. destruct (decide (agent a = Some (inl t))) as [E|Hne].
    + destruct a; simplify_eq/=. by eapply op_ok_acts.
    + destruct (step_ops _ _ _ _ _ Hp Hne Ho) as [Ho'|[_ Hpc]].
      * eapply op_ok_frame; [by eapply locks_ops|by eapply step_undisturbed].
      * apply op_ok_idle. by rewrite Hpc.
  - intros t tk Ht. destruct (decide (agent a = Some (inr t))) as [E|Hne].
    + destruct a; simplify_eq/=. by eapply task_ok_acts.
    + destruct (step_tasks _ _ _ _ _ Hl Hp Hne Ht) as [Ht'|(_ & Hpc & it & Hit & Hk)].
      * eapply task_ok_frame; [by eapply locks_tasks|by eapply step_undisturbed].
      * destruct (step_items_grow _ _ _ Hp _ _ Hit) as (it' & Hit' & Hk' & _).
        split; try (rewrite Hpc; by intros [[=]|[=]] || done). exists it'. split; [done|congruence].
Qed.

(** An item that is not processed is found under its key. *)
Definition found_ok st : Prop :=
  forall i it, items st !! i = Some it -> processed it = false -> stopper st <> SReturned ->
    findItemLocked (itemKey it) st = Some i.

(** An item of the state after a step, seen from the state before. *)
Lemma step_items_back a st st' i it' :
  perform a st = Some st' -> items st' !! i = Some it' ->
  (exists it, items st !! i = Some it /\ itemKey it' = itemKey it /\ (processed it = true -> processed it' = true)) \/
  (items st !! i = None /\ processed it' = false /\ findItemLocked (itemKey it') st' = Some i).
Proof.
  intros Hp Hi. destruct (items st !! i) as [it|] eqn:E.
  - left. destruct (step_items_grow _ _ _ Hp _ _ E) as (it2 & H2 & ? & ?). simplify_eq. eauto.
  - right. destruct a; join_cases Hp; simpl in Hi; autorewrite with join_fields in Hi; try congruence;
      try (rewrite lookup_alter_Some in Hi; destruct Hi as [(? & ? & ? & ?)|[? ?]]; congruence).
    + rewrite lookup_insert_Some in Hi. destruct Hi as [[<- <-]|[_ ?]]; [|congruence].
      unfold findItemLocked. simpl. by rewrite lookup_insert_eq.
    + case_bool_decide; simpl in Hi; congruence.
Qed.

(** ** The stop protocol *)

(** [stop] has waited for the activations, the callbacks, the rotation, the coroutines. *)
Definition drained (p : StopPc) : bool := match p with SIdle | SDrain => false | _ => true end.
Definition unregistered (p : StopPc) : bool :=
  match p with SIdle | SDrain | SReset _ => false | _ => true end.
Definition unrotated (p : StopPc) : bool :=
  match p with STasks | STasksJoin | SClear | SReturned => true | _ => false end.
Definition cancelling (p : StopPc) : bool :=
  match p with STasksJoin | SClear | SReturned => true | _ => false end.
Definition joined_tasks (p : StopPc) : bool := match p with SClear | SReturned => true | _ => false end.

Record control_ok st : Prop := {
  control_state :
    match stopper st with
    | SIdle => state_ st <> kStopping /\ state_ st <> kStopped
    | SReturned => state_ st = kStopped
    | _ => state_ st = kStopping
    end;
  control_active : activeOperations_ st = Z.of_nat (size (ops st));
  control_drained : drained (stopper st) = true -> ops st = ∅;
  control_cancel : tasksCancel st = cancelling (stopper st);
  control_rotation : unrotated (stopper st) = true -> rotation st = RNone \/ rotation st = RDone;
}.

Lemma control_frame st st' :
  stopper st' = stopper st -> state_ st' = state_ st -> activeOperations_ st' = activeOperations_ st ->
  tasksCancel st' = tasksCancel st -> rotation st' = rotation st -> dom (ops st') = dom (ops st) ->
  control_ok st -> control_ok st'.
Proof.
  intros E1 E2 E3 E4 E5 E6 [Hs Ha Hd Hc Hr]. split; rewrite ?E1, ?E2, ?E3, ?E4, ?E5; try done.
  - by rewrite <- !size_dom, E6, size_dom.
  - intros E. apply dom_empty_inv_L. rewrite E6, Hd by done. apply dom_empty_L.
Qed.

Lemma control_ok_step a st st' : control_ok st -> perform a st = Some st' -> control_ok st'.
Proof.
  intros Hok Hp. pose proof Hok as [Hs Ha Hd Hc Hr]. destruct a; join_cases Hp;
    try (eapply control_frame; [..|exact Hok]; simpl; autorewrite with join_fields; by rewrite ?dom_alter_L);
    try (match goal with E : stopper _ = _ |- _ => split; simpl in *; try done; try (intros; auto); try congruence end);
    try (match goal with |- control_ok (set_stopper SDrain _) =>
           destruct (stopper st) eqn:Es; try done; try (destruct Hs; done); split; simpl; try done; rewrite Hc; done end).
  - unfold start. destruct (state_ st) eqn:E; [destruct ok|done..]; split; simpl; try done;
      destruct (stopper st); try done; destruct Hs; done.
  - apply map_size_empty_inv. bool_to_prop. lia.
  - assert (Es : stopper st = SIdle) by (destruct (stopper st); done || (destruct Hs; done)).
    rewrite Es in *. split; simpl; rewrite ?Es; try done; try (split; congruence).
    rewrite map_size_insert_None by done. lia.
  - eapply control_frame; [..|exact Hok]; case_bool_decide; simpl; by rewrite ?dom_alter_L.
  - split; simpl; try done.
    + rewrite map_size_delete, Heqo. simpl.
      assert (0 < size (ops st))%nat by (apply Nat.neq_0_lt_0; intros E%map_size_empty_inv; by rewrite E in Heqo). lia.
    + intros E. apply Hd in E. by rewrite E in Heqo.
  - split; simpl; try done. intros E. apply Hr in E. destruct E; congruence.
  - split; simpl; try done. intros E. apply Hr in E. destruct E; congruence.
  - split; simpl; autorewrite with join_fields; try done. intros E. apply Hr in E. destruct E; congruence.
Qed.

Lemma stopper_returned a st st' :
  control_ok st -> perform a st = Some st' -> stopper st = SReturned -> stopper st' = SReturned.
Proof.
  intros Hc Hp Hs. pose proof (control_state _ Hc) as Hst. rewrite Hs in Hst.
  destruct a; join_cases Hp; simpl; autorewrite with join_fields; try done; try congruence.
  by case_bool_decide.
Qed.

Lemma found_ok_step a st st' :
  maps_ok st -> locks_ok st -> control_ok st -> found_ok st -> perform a st = Some st' -> found_ok st'.
Proof.
  intros Hm Hl Hc Hf Hp i it' Hi' Hpr Hs'.
  destruct (step_items_back _ _ _ _ _ Hp Hi') as [(it & Hi & Hk & Hmono)|(_ & _ & ?)]; [|done].
  assert (Hpr0 : processed it = false) by (destruct (processed it); [by rewrite Hmono in Hpr|done]).
  assert (Hs : stopper st <> SReturned) by (intros E; apply Hs'; by eapply stopper_returned).
  specialize (Hf i it Hi Hpr0 Hs). rewrite Hk.
  destruct (map_effect_find _ _ Hm (step_map_effect _ _ _ Hp) (itemKey it))
    as [E|[(E & _)|(_ & [?|(j & Ej & Hrem)])]]; [congruence|congruence|done|exfalso].
  rewrite Hf in Ej. injection Ej as <-. destruct Hrem as [(t & o & e & n & Ho & Hpc & _)|(t & tk & Ht & Hpc & E & _)].
  - destruct (op_retired _ _ _ (locks_ops _ Hl _ _ Ho) i) as (it2 & Hi2 & _ & ?); [by rewrite Hpc|congruence].
  - destruct (task_retired _ _ _ (locks_tasks _ Hl _ _ Ht)) as (it2 & Hi2 & ?); [auto|congruence].
Qed.

(** The items that [stop] collects are those found. *)
Lemma elem_of_collect st k i : maps_ok st -> findItemLocked k st = Some i -> i ∈ collect st.
Proof.
  intros Hm Hf. unfold collect. unfold findItemLocked in Hf.
  assert (Hfold : forall l acc, (i ∈ acc \/ i ∈ l) ->
    i ∈ foldl (fun acc i => if bool_decide (i ∈ acc) then acc else acc ++ [i]) acc l).
  { intros l. induction l as [|x l IH]; intros acc [Ha|Hl]; simpl; try done; try (by apply elem_of_nil in Hl).
    - apply IH. left. case_bool_decide; [done|]. apply elem_of_app. by left.
    - apply IH. apply elem_of_cons in Hl as [<-|Hl]; [|by right]. left. case_bool_decide; [done|].
      apply elem_of_app. right. by apply list_elem_of_singleton. }
  apply Hfold. destruct (current_ st !! k) as [j|] eqn:E; simplify_eq.
  - left. apply list_elem_of_fmap. exists (k, i). split; [done|]. by apply elem_of_map_to_list.
  - right. apply list_elem_of_fmap. exists (k, i). split; [done|]. by apply elem_of_map_to_list.
Qed.

Definition registered st (i : nat) : Prop :=
  exists it, items st !! i = Some it /\ cancelCallback it <> None.

Lemma registered_alter st st' j f i :
  items st' = alter f j (items st) ->
  (forall it, items st !! j = Some it -> cancelCallback (f it) <> None -> cancelCallback it <> None) ->
  registered st' i -> registered st i.
Proof.
  intros E Hf (it & Hi & Hcb). rewrite E, lookup_alter_Some in Hi.
  destruct Hi as [(-> & it0 & Hi & ->)|[_ Hi]]; [|by exists it]. exists it0. auto.
Qed.

Lemma step_registered a st st' i :
  perform a st = Some st' -> ops st = ∅ -> registered st' i -> registered st i.
Proof.
  intros Hp Ho. destruct a; join_cases Hp; try (rewrite Ho, lookup_empty in *; done); try done;
    try (eapply registered_alter; [reflexivity|]; simpl; intros; congruence);
    try (intros (it & Hi & Hcb); simpl in Hi; autorewrite with join_fields in Hi; by exists it).
Qed.

Definition callbacks_ok st : Prop :=
  forall i, registered st i ->
    match stopper st with
    | SIdle | SDrain => True
    | SReset l => i ∈ l
    | _ => False
    end.

Lemma step_stopper a st st' :
  perform a st = Some st' -> stopper st' = stopper st \/ stopper st' = SDrain \/ stop_step st = Some st'.
Proof.
  intros Hp. destruct a; try (by right; right); join_cases Hp; simpl; autorewrite with join_fields; auto.
  case_bool_decide; auto.
Qed.

Lemma callbacks_ok_step a st st' :
  maps_ok st -> locks_ok st -> control_ok st -> found_ok st -> callbacks_ok st ->
  perform a st = Some st' -> callbacks_ok st'.
Proof.
  intros Hm Hl Hc Hf Hcb Hp i Hi'. destruct (drained (stopper st)) eqn:Hd.
  - pose proof (control_drained _ Hc Hd) as Ho. pose proof (step_registered _ _ _ _ Hp Ho Hi') as Hi.
    specialize (Hcb i Hi). destruct (step_stopper _ _ _ Hp) as [->|[->|Hs]]; [done|done|].
    unfold stop_step in Hs. clear Hp. repeat head_case Hs; subst; simpl in *; try done; try congruence.
    + by apply elem_of_nil in Hcb.
    + apply elem_of_cons in Hcb as [->|?]; [|done]. destruct Hi' as (it & Hi' & Hn). simpl in Hi'.
      rewrite lookup_alter_eq in Hi'. apply fmap_Some in Hi' as (? & _ & ->). done.
  - destruct (step_stopper _ _ _ Hp) as [->|[->|Hs]]; [|done|]; [by destruct (stopper st)|].
    unfold stop_step in Hs. clear Hp. destruct (stopper st) eqn:Es; try done.
    repeat head_case Hs; subst; simpl. destruct Hi' as (it & Hi & Hn). simpl in Hi.
    destruct (processed it) eqn:Hpr; [by rewrite (item_reset _ _ _ (locks_items _ Hl _ _ Hi)) in Hn|].
    eapply elem_of_collect; [done|]. apply Hf; [done|done|congruence].
Qed.

(** Once [stop] has waited for them, no coroutine runs. *)
Definition tasks_done st : Prop :=
  joined_tasks (stopper st) = true -> forall t tk, tasks st !! t = Some tk -> tPc tk = TDone.

Lemma tasks_done_step a st st' :
  locks_ok st -> control_ok st -> callbacks_ok st -> tasks_done st -> perform a st = Some st' -> tasks_done st'.
Proof.
  intros Hl Hc Hcb Ht Hp Hj t tk. destruct (joined_tasks (stopper st)) eqn:Hj0.
  - assert (Hn : forall i it cb, items st !! i = Some it -> cancelCallback it = Some cb -> False).
    { intros i it cb Hi E. specialize (Hcb i). destruct (stopper st); try done; apply Hcb; exists it; split; congruence. }
    assert (Ho : ops st = ∅) by (apply Hc; by destruct (stopper st)).
    specialize (Ht Hj0). destruct a; join_cases Hp; try (rewrite Ho, lookup_empty in *; done);
      try (match goal with Hi : items st !! _ = Some ?it, E : cancelCallback ?it = Some _ |- _ =>
             exfalso; exact (Hn _ _ _ Hi E) end); simpl; autorewrite with join_fields; eauto;
      match goal with E : tasks st !! _ = Some _, Epc : tPc _ = _ |- _ => apply Ht in E; congruence end.
  - destruct (step_stopper _ _ _ Hp) as [E|[E|Hs]]; [congruence|by rewrite E in Hj|].
    unfold stop_step in Hs. clear Hp. repeat head_case Hs; subst; simpl in *; try done.
    bool_to_prop. eauto.
Qed.
End Steps.
