(* ===== verification/JoinRefinement.v ===== *)
(** * The join storage refines a map of joined values

    The specification keeps, for each key, the values joined so far, and the list of what
    expired.  A join appends its value and hands all values to its callback, which either
    completes the key or replaces the values; an expiration removes the key.  Every run of
    the storage is explained by the sequence [history] of such events: the items that are
    neither processed nor fresh hold exactly the values of the specification, and the expiry
    callbacks were given exactly what expired. *)
From Stdlib Require Import ZArith Lia.
From S2P Require Import Prelude Context JoinStorage JoinInvariants.
Import Join.
Local Open Scope Z_scope.

Section Refinement.
Context {K A : Type} `{Countable K}.
Implicit Types (st : Storage (K := K) (A := A)) (it : Item (K := K) (A := A)) (o : Op (K := K) (A := A)).
Implicit Types (tk : Task (K := K) (A := A)).
Abbreviation JoinValues := (list (list A)).

Record inv st : Prop := {
  inv_maps : maps_ok st;
  inv_locks : locks_ok st;
  inv_control : control_ok st;
  inv_found : found_ok st;
  inv_callbacks : callbacks_ok st;
  inv_tasks : tasks_done st;
}.

Lemma inv_initial config : inv (initial config).
Proof.
  split.
  - by split.
  - by split.
  - by split.
  - by intros i it.
  - intros i (it & Hi & _). done.
  - by intros E.
Qed.

Lemma inv_step a st st' : inv st -> perform a st = Some st' -> inv st'.
Proof.
  intros [Hm Hl Hc Hf Hcb Ht] Hp. split.
  - by eapply maps_ok_step.
  - by eapply locks_ok_step.
  - by eapply control_ok_step.
  - by eapply found_ok_step.
  - by eapply callbacks_ok_step.
  - by eapply tasks_done_step.
Qed.

(** Induction over the runs, with the invariants at hand. *)
Lemma reachable_ind config (P : Storage (K := K) (A := A) -> Prop) :
  P (initial config) ->
  (forall a st st', inv st -> P st -> perform a st = Some st' -> P st') ->
  forall st, reachable config st -> inv st /\ P st.
Proof.
  intros H0 Hstep. apply (rtc_ind_r (fun st => inv st /\ P st)).
  - split; [apply inv_initial|done].
  - intros st st' _ [a Ha] [Hi HP]. split; [by eapply inv_step|by eapply Hstep].
Qed.

Lemma join_reachable_inv config st : reachable config st -> inv st.
Proof. intros Hr. by apply (reachable_ind config (fun _ => True)). Qed.

(** ** The specification *)
Record Spec := mkSpec {
  joined : gmap K JoinValues;
  expirations : list (K * JoinValues);
}.

Definition spec_step (s : Spec) (e : Event (K := K) (A := A)) : Spec :=
  match e with
  | EvJoin k index value callback =>
      let '(complete, vs) := callback (append_value index value (default [] (joined s !! k))) in
      mkSpec (if complete : bool then delete k (joined s) else <[k := vs]> (joined s)) (expirations s)
  | EvExpire k => mkSpec (delete k (joined s)) (expirations s ++ [(k, default [] (joined s !! k))])
  end.
Definition replay (l : list (Event (K := K) (A := A))) : Spec := foldl spec_step (mkSpec ∅ []) l.

Lemma replay_snoc l e : replay (l ++ [e]) = spec_step (replay l) e.
Proof. unfold replay. by rewrite foldl_app. Qed.

(** What the storage holds for a key. *)
Definition item_view st (i : nat) : option JoinValues :=
  match items st !! i with
  | Some it => if processed it || fresh it then None else Some (values it)
  | None => None
  end.
Definition live st (k : K) : option JoinValues := findItemLocked k st ≫= item_view st.

(** What a step does to the views and the history. *)
Inductive view_effect st st' : Prop :=
  | ve_same :
      history st' = history st -> (forall i it, items st !! i = Some it -> item_view st' i = item_view st i) ->
      (forall i, items st !! i = None -> item_view st' i = None) -> view_effect st st'
  | ve_join t o i it vs :
      ops st !! t = Some o -> items st !! i = Some it -> processed it = false -> itemKey it = okey o ->
      (fresh it = true -> values it = replicate (S (oindex o)) []) ->
      history st' = history st ++ [EvJoin (okey o) (oindex o) (ovalue o) (ocallback o)] ->
      (ocallback o (append_value (oindex o) (ovalue o) (values it))).2 = vs ->
      item_view st' i =
        (if (ocallback o (append_value (oindex o) (ovalue o) (values it))).1 then None else Some vs) ->
      (forall j, j <> i -> item_view st' j = item_view st j) ->
      (forall k, findItemLocked k st' = findItemLocked k st) -> view_effect st st'
  | ve_expire i it :
      items st !! i = Some it -> processed it = false -> fresh it = false ->
      (ops st <> ∅ \/ joined_tasks (stopper st) = false) ->
      history st' = history st ++ [EvExpire (itemKey it)] -> item_view st' i = None ->
      (forall j, j <> i -> item_view st' j = item_view st j) ->
      (forall k, findItemLocked k st' = findItemLocked k st) -> view_effect st st'.

Lemma item_view_alter st st' i f j :
  items st' = alter f i (items st) ->
  (forall it, items st !! i = Some it ->
     (if processed (f it) || fresh (f it) then None else Some (values (f it))) = item_view st i) ->
  item_view st' j = item_view st j.
Proof.
  intros E Hf. unfold item_view. rewrite E. destruct (decide (i = j)) as [<-|Hne].
  - rewrite lookup_alter_eq. specialize (Hf). unfold item_view in Hf. destruct (items st !! i) as [it|]; [|done].
    simpl. by apply Hf.
  - by rewrite lookup_alter_ne.
Qed.

Lemma ve_alter st st' i f :
  items st' = alter f i (items st) -> history st' = history st ->
  (forall it, items st !! i = Some it ->
     (if processed (f it) || fresh (f it) then None else Some (values (f it))) = item_view st i) ->
  view_effect st st'.
Proof.
  intros E Eh Hf. apply ve_same; [done| |].
  - intros j jt _. by eapply item_view_alter.
  - intros j Hj. erewrite item_view_alter by done. unfold item_view. by rewrite Hj.
Qed.
Lemma ve_unchanged st st' : items st' = items st -> history st' = history st -> view_effect st st'.
Proof.
  intros E Eh. apply ve_same; [done| |].
  - intros j jt _. unfold item_view. by rewrite E.
  - intros j Hj. unfold item_view. by rewrite E, Hj.
Qed.

Lemma step_view a st st' : inv st -> perform a st = Some st' -> view_effect st st'.
Proof.
  intros Hinv Hp. pose proof (inv_locks _ Hinv) as [Ho Ht Hi]. destruct a; join_cases Hp;
    try (apply ve_unchanged; by (done || (simpl; autorewrite with join_fields)));
    try op_facts Ho; try task_facts Ht;
    try (by eapply ve_alter; [reflexivity|done|]; intros it' Hit'; unfold item_view; rewrite Hit'; simplify_eq;
         simpl; autorewrite with join_fields;
         repeat match goal with E : processed _ = _ |- _ => rewrite E end; destruct_and?;
         repeat match goal with E : fresh _ = true |- _ => rewrite E end; rewrite ?orb_true_r).
  - apply ve_same; [done| |].
    + intros i it Hit'. unfold item_view. simpl. rewrite lookup_insert_ne; [done|congruence].
    + intros i Hn. unfold item_view. simpl. destruct (decide (u = i)) as [<-|Hne].
      * by rewrite lookup_insert_eq.
      * by rewrite lookup_insert_ne, Hn.
  - bool_to_prop. subst. eapply (ve_expire _ _ item); [eassumption|tauto|tauto| | | | |done].
    + left. intros E. by rewrite E in Heqo.
    + simpl. congruence.
    + unfold item_view. simpl. by rewrite lookup_alter_eq, H0.
    + intros j Hj. unfold item_view. simpl. by rewrite lookup_alter_ne.
  - apply ve_unchanged; by case_bool_decide.
  - eapply (ve_join _ _ t o item); try done; try tauto; rewrite ?Heqp; try done.
    + unfold item_view. simpl. by rewrite lookup_alter_eq, H0.
    + intros j Hj. unfold item_view. simpl. by rewrite lookup_alter_ne.
  - eapply (ve_join _ _ t o item); try done; try tauto; rewrite ?Heqp; try done.
    + unfold item_view. simpl. rewrite lookup_alter_eq, H0. simpl. destruct Hheld as [-> _]. done.
    + intros j Hj. unfold item_view. simpl. by rewrite lookup_alter_ne.
  - bool_to_prop. pose proof (item_fresh _ _ _ (Hi _ _ Heqo0)) as Hfr.
    eapply (ve_expire _ _ (tItem t0)); [eassumption|done| | | | | |done].
    + destruct (fresh i); [|done]. exfalso. by apply Hfr.
    + right. destruct (joined_tasks (stopper st)) eqn:Ej; [|done].
      pose proof (inv_tasks _ Hinv Ej _ _ Heqo). congruence.
    + simpl. congruence.
    + unfold item_view. simpl. by rewrite lookup_alter_eq, Heqo0.
    + intros j Hj. unfold item_view. simpl. by rewrite lookup_alter_ne.
Qed.

(** A fresh vector has room for the value that made it. *)
Lemma append_value_fresh index (value : A) :
  append_value index value (replicate (S index) []) = append_value index value [].
Proof.
  unfold append_value. rewrite length_replicate. simpl length.
  destruct (Nat.leb_spec (S index) index); [lia|]. by rewrite Nat.sub_0_r.
Qed.

Definition represented st : Prop :=
  stopper st <> SReturned -> forall k, joined (replay (history st)) !! k = live st k.

Lemma live_ops_nonempty st t o : inv st -> ops st !! t = Some o -> stopper st <> SReturned.
Proof.
  intros Hinv Hl E. assert (Ho : ops st = ∅) by (apply (inv_control _ Hinv); by rewrite E).
  by rewrite Ho in Hl.
Qed.

Lemma live_item st i it :
  inv st -> items st !! i = Some it -> processed it = false -> stopper st <> SReturned ->
  live st (itemKey it) = if fresh it then None else Some (values it).
Proof.
  intros Hinv Hi Hp Hs. unfold live. rewrite (inv_found _ Hinv i it Hi Hp Hs). simpl.
  unfold item_view. rewrite Hi, Hp. done.
Qed.

(** Another key finds another item. *)
Lemma find_other st i it k j :
  inv st -> items st !! i = Some it -> k <> itemKey it -> findItemLocked k st = Some j -> j <> i.
Proof.
  intros Hinv Hi Hk Hj ->. destruct (maps_items _ (inv_maps _ Hinv) _ _ Hj) as (it' & Hi' & E). congruence.
Qed.

Lemma represented_step a st st' : inv st -> represented st -> perform a st = Some st' -> represented st'.
Proof.
  intros Hinv Hrep Hp Hs' k.
  assert (Hs : stopper st <> SReturned)
    by (intros E; apply Hs'; eapply stopper_returned; [apply Hinv|done|done]).
  specialize (Hrep Hs). destruct (step_view _ _ _ Hinv Hp) as [Eh Hv Hnew|t o i it vs Ho Hi Hpr Hk Hfr Eh Evs Hv Hother Hfind|i it Hi Hpr Hfr _ Eh Hv Hother Hfind].
  - rewrite Eh, Hrep. unfold live.
    destruct (map_effect_find _ _ (inv_maps _ Hinv) (step_map_effect _ _ _ Hp) k)
      as [E|[(E & i & it & E' & Hn & _)|(E & [?|(i & E' & Hrem)])]]; [rewrite E| |done|].
    + destruct (findItemLocked k st) as [i|] eqn:Ef; [|done]. simpl.
      destruct (maps_items _ (inv_maps _ Hinv) _ _ Ef) as (it & Hi & _). by rewrite (Hv i it).
    + rewrite E, E'. simpl. by rewrite Hnew.
    + rewrite E, E'. simpl. pose proof (inv_locks _ Hinv) as [Hlo Hlt _].
      destruct Hrem as [(t & o & e & n & Ho & Hpc & _)|(t & tk & Htk & Hpc & <- & _)]; unfold item_view.
      * destruct (op_retired _ _ _ (Hlo _ _ Ho) i) as (it & -> & _ & ->); [by rewrite Hpc|done].
      * destruct (task_retired _ _ _ (Hlt _ _ Htk)) as (it & -> & ->); [auto|done].
  - rewrite Eh, replay_snoc. simpl. rewrite Hrep, <- Hk, (live_item st i it) by done.
    assert (Evals : append_value (oindex o) (ovalue o) (default [] (if fresh it then None else Some (values it))) =
      append_value (oindex o) (ovalue o) (values it)).
    { destruct (fresh it); [|done]. rewrite Hfr by done. symmetry. apply append_value_fresh. }
    rewrite Evals. destruct (ocallback o _) as [b vs'] eqn:Ecb. simpl in Evs, Hv. subst vs'. simpl.
    unfold live. rewrite Hfind. destruct (decide (k = itemKey it)) as [->|Hne].
    + rewrite (inv_found _ Hinv i it Hi Hpr Hs). simpl. rewrite Hv.
      destruct b; [apply lookup_delete_eq|apply lookup_insert_eq].
    + assert (E : (if b then delete (itemKey it) (joined (replay (history st)))
          else <[itemKey it:=vs]> (joined (replay (history st)))) !! k = joined (replay (history st)) !! k)
        by (destruct b; [by rewrite lookup_delete_ne|by rewrite lookup_insert_ne]).
      rewrite E, Hrep. unfold live. destruct (findItemLocked k st) as [j|] eqn:Ef; [|done]. simpl.
      rewrite Hother; [done|]. by eapply find_other.
  - rewrite Eh, replay_snoc. simpl. unfold live. rewrite Hfind.
    destruct (decide (k = itemKey it)) as [->|Hne].
    + rewrite (inv_found _ Hinv i it Hi Hpr Hs). simpl. by rewrite Hv, lookup_delete_eq.
    + rewrite lookup_delete_ne, Hrep by done. unfold live. destruct (findItemLocked k st) as [j|] eqn:Ef; [|done].
      simpl. rewrite Hother; [done|]. by eapply find_other.
Qed.

(** ** Deliveries *)

(** What is marked expired and not yet handed to the callback. *)
Definition pending_op o : list (K * JoinValues) :=
  match pc o with JExpireCall _ => [(okey o, omarked o)] | _ => [] end.
Definition pending_task tk : list (K * JoinValues) :=
  match tPc tk with TCall => [(tKey tk, tMarked tk)] | _ => [] end.
Definition pending st : list (K * JoinValues) := tally pending_op (ops st) ++ tally pending_task (tasks st).

Definition accounted st : Prop := expirations (replay (history st)) ≡ₚ delivered st ++ pending st.

Lemma tally_alter {V B} (f : V -> list B) (g : V -> V) (m : gmap nat V) x u :
  m !! x = Some u -> tally f (alter g x m) ≡ₚ f (g u) ++ tally f (delete x m).
Proof. intros Hx. by rewrite (alter_some g m x u Hx), tally_insert. Qed.

Lemma tally_alter_same {V B} (f : V -> list B) (g : V -> V) (m : gmap nat V) x u :
  m !! x = Some u -> f (g u) = f u -> tally f (alter g x m) ≡ₚ tally f m.
Proof. intros Hx E. by rewrite (tally_alter f g m x u Hx), E, <- (tally_delete f m x u Hx). Qed.

(** Steps that mark and deliver nothing. *)
Lemma accounted_frame st st' :
  expirations (replay (history st')) = expirations (replay (history st)) -> delivered st' = delivered st ->
  tally pending_op (ops st') ≡ₚ tally pending_op (ops st) ->
  tally pending_task (tasks st') ≡ₚ tally pending_task (tasks st) ->
  accounted st -> accounted st'.
Proof. intros E1 E2 E3 E4. unfold accounted, pending. by rewrite E1, E2, E3, E4. Qed.

Lemma expirations_join l k index value callback :
  expirations (replay (l ++ [EvJoin k index value callback])) = expirations (replay l).
Proof. rewrite replay_snoc. simpl. by destruct (callback _). Qed.

Local Ltac pending_pc Hacc := match goal with E : tPc _ = _ |- _ => rewrite E in Hacc end.

Lemma accounted_step a st st' :
  inv st -> represented st -> accounted st -> perform a st = Some st' -> accounted st'.
Proof.
  intros Hinv Hrep Hacc Hp. pose proof (inv_locks _ Hinv) as [Ho Ht Hi]. destruct a; join_cases Hp;
    try op_facts Ho; try task_facts Ht;
    try (eapply accounted_frame; [..|exact Hacc]; simpl; autorewrite with join_fields; try done;
         try apply expirations_join;
         try (eapply tally_alter_same; [eassumption|]; unfold pending_op, pending_task; simpl;
              match goal with E : pc _ = _ |- _ => rewrite E | E : tPc _ = _ |- _ => rewrite E end; repeat split_case; done);
         by rewrite ?tally_new by done).
  - eapply accounted_frame; [..|exact Hacc]; try done. eapply tally_alter_same; [eassumption|].
    unfold pending_op. rewrite Heqo0. simpl. by destruct (findItemLocked (okey o) st).
  - eapply accounted_frame; [..|exact Hacc]; try done. eapply tally_alter_same; [eassumption|].
    unfold pending_op. rewrite Heqo0. simpl. by destruct (generation x <=? cancelledGeneration x), mode.
  - eapply accounted_frame; [..|exact Hacc]; try done; [|simpl; by rewrite tally_new].
    eapply tally_alter_same; [eassumption|]. unfold pending_op. rewrite Heqo0. by destruct mode.
  - eapply accounted_frame; [..|exact Hacc]; try done. eapply tally_alter_same; [eassumption|].
    unfold pending_op. rewrite Heqo0. by destruct mode.
  - bool_to_prop. subst. unfold accounted, pending in *. simpl. rewrite replay_snoc. simpl.
    rewrite (tally_alter _ _ _ _ _ Heqo). rewrite (tally_delete _ _ _ _ Heqo) in Hacc.
    unfold pending_op at 1 in Hacc. rewrite Heqo0 in Hacc. unfold pending_op at 1. simpl in *.
    rewrite <- Hkey, Hrep, (live_item st item x) by (done || by eapply live_ops_nonempty).
    destruct Hheld as [Hfr _]. rewrite Hfr by done. simpl. rewrite Hacc. solve_Permutation.
  - eapply accounted_frame; [..|exact Hacc]; case_bool_decide; try done;
      (eapply tally_alter_same; [eassumption|]; unfold pending_op; by rewrite Heqo0).
  - unfold accounted, pending in *. simpl. rewrite (tally_alter _ _ _ _ _ Heqo).
    rewrite (tally_delete _ _ _ _ Heqo) in Hacc. unfold pending_op at 1 in Hacc. rewrite Heqo0 in Hacc.
    unfold pending_op at 1. simpl in *. rewrite Hacc, Hvals. solve_Permutation.
  - eapply accounted_frame; [..|exact Hacc]; try done. simpl. rewrite (tally_delete pending_op (ops st) t o Heqo).
    assert (E : pending_op o = []) by (unfold pending_op; by rewrite Heqo0). by rewrite E.
  - bool_to_prop. unfold accounted, pending in *. simpl. rewrite replay_snoc. simpl.
    rewrite (tally_alter _ _ _ _ _ Heqo). rewrite (tally_delete _ _ _ _ Heqo) in Hacc.
    unfold pending_task at 1 in Hacc. pending_pc Hacc. unfold pending_task at 1. simpl in *.
    assert (Hs : stopper st <> SReturned).
    { intros E. assert (Ej : joined_tasks (stopper st) = true) by by rewrite E.
      pose proof (inv_tasks _ Hinv Ej _ _ Heqo). congruence. }
    rewrite <- Hkey, Hrep, (live_item st _ _ Hinv Heqo0) by done.
    assert (Efr : fresh i = false).
    { destruct (fresh i) eqn:Efr; [|done]. exfalso. by apply (item_fresh _ _ _ (Hi _ _ Heqo0)). }
    rewrite Efr. simpl. rewrite Hacc. solve_Permutation.
  - unfold accounted, pending in *. simpl. rewrite (tally_alter _ _ _ _ _ Heqo).
    rewrite (tally_delete _ _ _ _ Heqo) in Hacc. unfold pending_task at 1 in Hacc. pending_pc Hacc.
    unfold pending_task at 1. simpl in *. rewrite Hacc, Hvals. solve_Permutation.
Qed.
End Refinement.
