(* ===== verification/JoinLedger.v ===== *)
(** * The calls of a join storage and its history

    An observer that sees the calls of [joinValue] from outside: which were accepted, with what
    arguments, which have appended their value, and how they ended.  The joins in the history of
    the storage are those of the calls that returned, each once and with its own arguments, and
    of the calls under way that have appended their value; a call that ends in the exception of
    a failed arming has joined nothing. *)
From Stdlib Require Import ZArith Lia.
From S2P Require Import Prelude Context JoinStorage JoinInvariants JoinRefinement.
Import Join.

Section Ledger.
Context {K A : Type} `{Countable K}.
Implicit Types (st : Storage (K := K) (A := A)) (o : Op (K := K) (A := A)).

(** The arguments of a call: key, index of the input, value, callback. *)
Definition Call : Type := K * nat * A * (list (list A) -> bool * list (list A)).
Definition call o : Call := (okey o, oindex o, ovalue o, ocallback o).

(** The calls under way, with what was seen of them; then those that ended. *)
Inductive Progress := Waiting | Appended | Failing.
Record Ledger := mkLedger {
  requested : list Call;
  callers : gmap nat (Call * Progress);
  returned : list Call;
  thrown : list Call;
}.
Definition no_calls : Ledger := mkLedger [] ∅ [] [].
Definition mark (t : nat) (p : Progress) (L : Ledger) : Ledger :=
  mkLedger (requested L) (alter (fun c => (c.1, p)) t (callers L)) (returned L) (thrown L).

(** What the observer notes when [a] is performed in [st]. *)
Definition observe (a : Action (K := K) (A := A)) st (L : Ledger) : Ledger :=
  match a with
  | DoJoin t ctx k index value callback =>
      match joinValue t ctx k index value callback st with
      | Some (_, Ok _) =>
          mkLedger ((k, index, value, callback) :: requested L) (<[t := (k, index, value, callback, Waiting)]> (callers L))
            (returned L) (thrown L)
      | _ => L
      end
  | DoOp t _ _ =>
      match pc <$> ops st !! t, callers L !! t with
      | Some (JAppend _), _ => mark t Appended L
      | Some (JArmFailed _ _), _ => mark t Failing L
      | Some JLeave, Some (c, p) =>
          mkLedger (requested L) (delete t (callers L))
            (match p with Failing => returned L | _ => c :: returned L end)
            (match p with Failing => c :: thrown L | _ => thrown L end)
      | _, _ => L
      end
  | _ => L
  end.
Definition observed_step (x y : Storage (K := K) (A := A) * Ledger) : Prop :=
  exists a, perform a x.1 = Some y.1 /\ y.2 = observe a x.1 x.2.
Definition observed config st (L : Ledger) : Prop := rtc observed_step (initial config, no_calls) (st, L).

(** The joins of a history, and the calls under way that have joined. *)
Definition join_of (e : Event (K := K) (A := A)) : list Call :=
  match e with EvJoin k index value callback => [(k, index, value, callback)] | EvExpire _ => [] end.
Definition joins (l : list (Event (K := K) (A := A))) : list Call := l ≫= join_of.
Definition appended (x : Call * Progress) : list Call := match x.2 with Appended => [x.1] | _ => [] end.

Lemma observed_reachable config st L : observed config st L -> reachable config st.
Proof.
  assert (Hr : forall x y, rtc observed_step x y -> rtc step x.1 y.1).
  { intros x y Hxy. induction Hxy as [x|x y z (a & Ha & _) _ IH]; [apply rtc_refl|]. eapply rtc_l; [by exists a|exact IH]. }
  apply Hr.
Qed.
Lemma reachable_observed config st : reachable config st -> exists L, observed config st L.
Proof.
  intros Hr. revert st Hr. apply (rtc_ind_r (fun st => exists L, observed config st L)).
  - exists no_calls. apply rtc_refl.
  - intros s s' _ [a Ha] [L HL]. exists (observe a s L). eapply rtc_r; [exact HL|]. by exists a.
Qed.

(** ** The invariant *)

(** On the way out: after the value was appended, or after the arming failed. *)
Definition settled (p : OpPc) : bool := match p with JLeave | JRemove _ _ Finish => true | _ => false end.

Record ledger_ok st (L : Ledger) : Prop := {
  lg_ops t o : ops st !! t = Some o -> exists p, callers L !! t = Some (call o, p) /\ (p = Waiting <-> settled (pc o) = false);
  lg_callers t c : callers L !! t = Some c -> is_Some (ops st !! t);
  lg_requested : requested L ≡ₚ returned L ++ thrown L ++ tally (fun x => [x.1]) (callers L);
  lg_joins : joins (history st) ≡ₚ returned L ++ tally appended (callers L);
}.

Lemma ledger_initial config : ledger_ok (initial config) no_calls.
Proof. split; simpl; try done. Qed.

(** Steps that the observer does not note. *)
Lemma ledger_frame st st' L :
  (forall t o', ops st' !! t = Some o' -> exists o, ops st !! t = Some o /\ call o' = call o /\ settled (pc o') = settled (pc o)) ->
  (forall t o, ops st !! t = Some o -> is_Some (ops st' !! t)) -> joins (history st') = joins (history st) ->
  ledger_ok st L -> ledger_ok st' L.
Proof.
  intros Hback Hforth Ej [Ho Hc Hr Hj]. split; [|..|done|by rewrite Ej].
  - intros t o' Ho'. destruct (Hback t o' Ho') as (o & Hl & -> & ->). eauto.
  - intros t c Hl. destruct (Hc t c Hl) as [o Hl']. eauto.
Qed.
Lemma ledger_same st st' L : ops st' = ops st -> joins (history st') = joins (history st) -> ledger_ok st L -> ledger_ok st' L.
Proof. intros E. apply ledger_frame; rewrite E; eauto. Qed.
Lemma ledger_goto st st' L t o g :
  ops st !! t = Some o -> ops st' = alter g t (ops st) -> call (g o) = call o -> settled (pc (g o)) = settled (pc o) ->
  joins (history st') = joins (history st) -> ledger_ok st L -> ledger_ok st' L.
Proof.
  intros Ht E Ec Es. apply ledger_frame; rewrite E.
  - intros t' o' [(<- & o2 & Ho2 & ->)|[_ Ho']]%lookup_alter_Some; [|eauto]. rewrite Ht in Ho2. injection Ho2 as <-. by exists o.
  - intros t' o' Ho'. rewrite lookup_alter_is_Some. by eexists.
Qed.
Lemma joins_snoc l e : joins (l ++ [e]) = joins l ++ join_of e.
Proof. unfold joins. rewrite bind_app. simpl. by rewrite app_nil_r. Qed.

(** The two steps by which a call settles. *)
Lemma ledger_settles st st' L t o g p :
  ledger_ok st L -> ops st !! t = Some o -> settled (pc o) = false -> p <> Waiting ->
  ops st' = alter g t (ops st) -> call (g o) = call o -> settled (pc (g o)) = true ->
  joins (history st') = joins (history st) ++ match p with Appended => [call o] | _ => [] end ->
  ledger_ok st' (mark t p L).
Proof.
  intros [Ho Hc Hr Hj] Ht Hu Hp E Ec Es Ej. destruct (Ho t o Ht) as (q & Hq & Hqs). assert (q = Waiting) as -> by by apply Hqs.
  split; simpl.
  - rewrite E. intros t' o' [(<- & o2 & Ho2 & ->)|[Hne Ho']]%lookup_alter_Some.
    + rewrite Ht in Ho2. injection Ho2 as <-. exists p. rewrite lookup_alter_eq, Hq, Ec, Es. split; [done|]. split; [done|congruence].
    + rewrite lookup_alter_ne by done. eauto.
  - intros t' c Hl. rewrite E, lookup_alter_is_Some. apply lookup_alter_Some in Hl as [(<- & c' & Hl & _)|[_ Hl]]; eauto.
  - by rewrite (tally_alter_same _ _ _ _ _ Hq).
  - rewrite Ej, Hj, (tally_alter _ _ _ _ _ Hq), (tally_delete appended (callers L) t _ Hq). unfold appended at 2 3. simpl.
    destruct p; [done|simpl; solve_Permutation|simpl; solve_Permutation].
Qed.

Lemma ledger_join t ctx k index value callback st st' L :
  ledger_ok st L -> perform (DoJoin t ctx k index value callback) st = Some st' ->
  ledger_ok st' (observe (DoJoin t ctx k index value callback) st L).
Proof.
  intros Hok Hp. simpl in *. unfold joinValue in *. destruct (state_ st); try (by injection Hp as <-).
  destruct (ops st !! t) as [o|] eqn:Ht; [done|]. simpl in Hp. injection Hp as <-. destruct Hok as [Ho Hc Hr Hj].
  assert (Hn : callers L !! t = None).
  { destruct (callers L !! t) as [c|] eqn:Hl; [|done]. destruct (Hc t c Hl) as [? Hl']. congruence. }
  split; simpl.
  - intros t' o' [[<- <-]|[Hne Ho']]%lookup_insert_Some.
    + exists Waiting. by rewrite lookup_insert_eq.
    + rewrite lookup_insert_ne by done. eauto.
  - intros t' c [[<- _]|[Hne Hl]]%lookup_insert_Some; [by rewrite lookup_insert_eq|]. rewrite lookup_insert_ne by done. eauto.
  - rewrite (tally_new _ _ _ _ Hn), Hr. simpl. solve_Permutation.
  - rewrite (tally_new _ _ _ _ Hn), Hj. done.
Qed.

Lemma ledger_leave st st' L t o u ok :
  ledger_ok st L -> ops st !! t = Some o -> pc o = JLeave -> ops st' = delete t (ops st) -> history st' = history st ->
  ledger_ok st' (observe (DoOp t u ok) st L).
Proof.
  intros [Ho Hc Hr Hj] Ht Hpc E Eh. destruct (Ho t o Ht) as (p & Hl & Hs). simpl. rewrite Ht, Hl. simpl. rewrite Hpc.
  rewrite Hpc in Hs. simpl in Hs. rewrite (tally_delete _ _ _ _ Hl) in Hr. rewrite (tally_delete appended _ _ _ Hl) in Hj. split; simpl.
  - rewrite E. intros t' o' [Hne Ho']%lookup_delete_Some. rewrite lookup_delete_ne by done. eauto.
  - intros t' c [Hne Hl']%lookup_delete_Some. rewrite E, lookup_delete_ne by done. eauto.
  - rewrite Hr. simpl. destruct p; simpl; solve_Permutation.
  - rewrite Eh, Hj. unfold appended at 1. simpl. destruct p; [by destruct Hs as [Hs _]; specialize (Hs eq_refl)|simpl; solve_Permutation|done].
Qed.

(** An activation moves on without settling, or leaves after it has settled. *)
Local Ltac goes_on Ht Hpc Hok :=
  eapply (ledger_goto _ _ _ _ _ _ Ht); [..|exact Hok]; simpl; autorewrite with join_fields;
  [reflexivity|done|rewrite Hpc; repeat split_case; done|try done].

Lemma ledger_op t u ok st st' L :
  ledger_ok st L -> perform (DoOp t u ok) st = Some st' -> ledger_ok st' (observe (DoOp t u ok) st L).
Proof.
  intros Hok Hp. simpl in Hp. unfold op_step in Hp. destruct (ops st !! t) as [o|] eqn:Ht; [|done].
  destruct (pc o) eqn:Hpc; [..|injection Hp as <-; by eapply ledger_leave].
  all: simpl; rewrite Ht; simpl; rewrite Hpc; unfold arm_step, arm_failed_step, checked_step, append_step, scheduleExpiryNow, spawn in Hp;
    repeat head_case Hp; subst; try (by goes_on Ht Hpc Hok).
  all: try (destruct mode; by goes_on Ht Hpc Hok).
  all: try (eapply (ledger_settles _ _ _ _ _ _ _ Hok Ht); [by rewrite Hpc|done|reflexivity|done..|]; simpl; rewrite ?joins_snoc, ?app_nil_r; done).
  - goes_on Ht Hpc Hok. rewrite joins_snoc. by rewrite app_nil_r.
  - case_bool_decide; goes_on Ht Hpc Hok.
Qed.

Lemma ledger_step a st st' L : ledger_ok st L -> perform a st = Some st' -> ledger_ok st' (observe a st L).
Proof.
  intros Hok Hp. destruct a; try (by apply ledger_join || by apply ledger_op); simpl;
    (eapply ledger_same; [..|exact Hok]); join_cases Hp; simpl; autorewrite with join_fields; try done;
    by rewrite joins_snoc, app_nil_r.
Qed.
Lemma ledger_observed config st L : observed config st L -> ledger_ok st L.
Proof.
  intros Ho. assert (Hall : forall y, rtc observed_step (initial config, no_calls) y -> ledger_ok y.1 y.2).
  { apply (rtc_ind_r (fun y => ledger_ok y.1 y.2)); [apply ledger_initial|].
    intros x y _ (a & Ha & ->) Hx. by eapply ledger_step. }
  exact (Hall _ Ho).
Qed.
End Ledger.
