(* ===== verification/JoinExpiry.v ===== *)
(** * Expiry of joined values

    An item with a deadline always has a coroutine that will expire it: the coroutine of
    its current generation sleeps until exactly the item's deadline.  A renewal replaces it
    by one of the next generation, or, when the new one cannot be scheduled, leaves the
    item with the previous one.  No coroutine expires an item before its deadline unless the
    context that armed it was cancelled. *)
From Stdlib Require Import ZArith Lia.
From S2P Require Import Prelude Context JoinStorage JoinInvariants JoinRefinement.
Import Join.
Local Open Scope Z_scope.

Section Expiry.
Context {K A : Type} `{Countable K}.
Implicit Types (st : Storage (K := K) (A := A)) (it : Item (K := K) (A := A)) (o : Op (K := K) (A := A)).
Implicit Types (tk : Task (K := K) (A := A)).

(** A coroutine will expire item [i] of generation [g] at [d]; not once [stop] cancels them. *)
Definition waits tk (i : nat) (g d : Z) : Prop :=
  tItem tk = i /\ tGeneration tk = g /\ tDeadline tk = Some d /\ (tPc tk = TSleep \/ tPc tk = TExpire).
Definition armed st (i : nat) (g d : Z) : Prop :=
  tasksCancel st = true \/ exists t tk, tasks st !! t = Some tk /\ waits tk i g d.

(** The coroutines of item [i] are of generation at most [g]; those of [g] with a deadline
    have the deadline [d]. *)
Definition bounded_by st (i : nat) (g : Z) (d : Deadline) : Prop :=
  forall t tk, tasks st !! t = Some tk -> tItem tk = i ->
    tGeneration tk <= g /\ (tGeneration tk = g -> forall d', tDeadline tk = Some d' -> d = Some d').

(** The item is armed for its deadline. *)
Definition settled st (i : nat) it : Prop :=
  bounded_by st i (generation it) (ideadline it) /\
  (processed it = false -> forall d, ideadline it = Some d -> armed st i (generation it) d) /\
  armedGeneration it <= generation it /\ cancelledGeneration it <= generation it.

(** The item is about to be armed. *)
Definition unarmed st (i : nat) it (mode : ArmMode) : Prop :=
  ideadline it <> None /\
  match mode with
  | AInitial =>
      generation it = 1 /\ armedGeneration it = 0 /\ (forall t tk, tasks st !! t = Some tk -> tItem tk <> i)
  | ARenew d g a c =>
      generation it = g + 1 /\ armedGeneration it = a /\ a <= g /\ c <= g /\ bounded_by st i g d /\
      (forall d', d = Some d' -> armed st i g d')
  end.

(** The token of the callback of the generation under way. *)
Definition cancelled_by st it (token : StopToken) : Prop :=
  cancelledGeneration it <= generation it /\
  (generation it <= cancelledGeneration it -> stop_requested (stopped st) token = true).

Definition op_armed st (t : nat) o : Prop :=
  forall i it, holds (pc o) = Some i -> items st !! i = Some it ->
    match pc o with
    | JArm _ ARegister mode => unarmed st i it mode /\ cancelledGeneration it < generation it /\
        cancelCallback it = None
    | JArm _ ADetach mode => unarmed st i it mode /\ cancelled_by st it (otoken o) /\
        exists cb, cancelCallback it = Some cb /\ cbToken cb = otoken o
    | JArm _ ASchedule _ => settled st i it /\ stop_requested (stopped st) (otoken o) = true
    | JArmFailed _ mode => unarmed st i it mode /\ cancelledGeneration it <= generation it
    | JArm _ _ _ => settled st i it /\ cancelled_by st it (otoken o) /\
        exists cb, cancelCallback it = Some cb /\ cbToken cb = otoken o
    | _ => settled st i it
    end.

Definition callback_fired st it : Prop :=
  forall cb, cancelCallback it = Some cb ->
    cbGeneration cb = generation it /\
    (cbPc cb <> CIdle -> stop_requested (stopped st) (cbToken cb) = true).

Definition task_due st tk : Prop :=
  (tDeadline tk = None -> stop_requested (stopped st) (tToken tk) = true) /\
  (tPc tk = TExpire -> forall d, tDeadline tk = Some d -> d <= clock st).

Record expiry_ok st : Prop := {
  expiry_ops t o : ops st !! t = Some o -> op_armed st t o;
  expiry_items i it : items st !! i = Some it -> mu it = None -> settled st i it;
  expiry_callbacks i it : items st !! i = Some it -> callback_fired st it;
  expiry_tasks t tk : tasks st !! t = Some tk -> task_due st tk;
}.

(** ** Frames *)

(** The step adds at most coroutines of item [i], and time, cancellations and the end of
    the coroutines do not change. *)
Record extends st st' (i : nat) : Prop := {
  extends_cancel : tasksCancel st' = tasksCancel st;
  extends_stopped : stopped st' = stopped st;
  extends_clock : clock st' = clock st;
  extends_tasks t : tasks st' !! t = tasks st !! t \/
    (tasks st !! t = None /\ exists tk, tasks st' !! t = Some tk /\ tItem tk = i /\ task_due st tk);
}.

Lemma extends_same st st' i :
  tasksCancel st' = tasksCancel st -> stopped st' = stopped st -> clock st' = clock st -> tasks st' = tasks st ->
  extends st st' i.
Proof. intros E1 E2 E3 E4. split; try done. intros t. left. by rewrite E4. Qed.

Lemma extends_bounded st st' i j g d :
  extends st st' i -> j <> i -> bounded_by st j g d -> bounded_by st' j g d.
Proof.
  intros He Hj Hb t tk Ht Hi. destruct (extends_tasks _ _ _ He t) as [E|(_ & tk' & E & E' & _)]; [|congruence].
  rewrite E in Ht. eauto.
Qed.
Lemma extends_armed st st' i j g d : extends st st' i -> armed st j g d -> armed st' j g d.
Proof.
  intros He [Hc|(t & tk & Ht & Hw)]; [left; by rewrite (extends_cancel _ _ _ He)|right].
  exists t, tk. split; [|done]. destruct (extends_tasks _ _ _ He t) as [E|[E _]]; congruence.
Qed.
Lemma extends_settled st st' i j it : extends st st' i -> j <> i -> settled st j it -> settled st' j it.
Proof.
  intros He Hj (Hb & Ha & Hr). split; [by eapply extends_bounded|]. split; [|done].
  intros Hp d Hd. eapply extends_armed; eauto.
Qed.
Lemma extends_unarmed st st' i j it mode : extends st st' i -> j <> i -> unarmed st j it mode -> unarmed st' j it mode.
Proof.
  intros He Hj [Hd Hm]. split; [done|]. destruct mode.
  - destruct Hm as (Hg & Ha & Ht). split; [done|]. split; [done|]. intros t tk Htk Ei.
    destruct (extends_tasks _ _ _ He t) as [E|(_ & tk' & E & E' & _)]; [|congruence]. rewrite E in Htk. by eapply Ht.
  - destruct Hm as (Hg & Ha & Hag & Hcg & Hb & Hw).
    do 4 (split; [done|]). split; [by eapply extends_bounded|]. intros d' Ed. eapply extends_armed; eauto.
Qed.
Lemma extends_due st st' i tk : extends st st' i -> task_due st tk -> task_due st' tk.
Proof.
  intros He [H1 H2]. unfold task_due. by rewrite (extends_stopped _ _ _ He), (extends_clock _ _ _ He).
Qed.
Lemma extends_op st st' i t o j :
  extends st st' i -> holds (pc o) = Some j -> j <> i -> items st' !! j = items st !! j ->
  op_armed st t o -> op_armed st' t o.
Proof.
  intros He Hh Hj Ei Ho j' it Hh' Hit. rewrite Hh in Hh'. injection Hh' as <-. rewrite Ei in Hit.
  specialize (Ho j it Hh Hit). unfold cancelled_by in *. rewrite (extends_stopped _ _ _ He).
  destruct (pc o); try done; try (by eapply extends_settled).
  - destruct stage; destruct Ho as [Ho ?]; (split; [|done]); by (eapply extends_settled || eapply extends_unarmed).
  - destruct Ho as [Ho ?]; split; [|done]. by eapply extends_unarmed.
Qed.

Lemma extends_tasks_due st st' i :
  expiry_ok st -> extends st st' i -> forall t tk, tasks st' !! t = Some tk -> task_due st' tk.
Proof.
  intros Hx He t tk Ht. eapply extends_due; [done|].
  destruct (extends_tasks _ _ _ He t) as [E|(_ & tk' & E & _ & Hd)]; [|congruence].
  rewrite E in Ht. by eapply expiry_tasks.
Qed.

(** An activation [t] that changes its own item. *)
Lemma expiry_update st st' t o f i it g :
  locks_ok st -> expiry_ok st -> extends st st' i ->
  ops st !! t = Some o -> ops st' = alter f t (ops st) ->
  items st !! i = Some it -> items st' = alter g i (items st) ->
  (mu it = None \/ mu it = Some t) ->
  op_armed st' t (f o) -> (mu (g it) = None -> settled st' i (g it)) -> callback_fired st' (g it) ->
  expiry_ok st'.
Proof.
  intros Hl Hx He Ho Eo Hi Ei Hmu Hop Hset Hcb. split.
  - intros t' o' Hl'. rewrite Eo in Hl'. destruct (decide (t = t')) as [<-|Hne].
    + rewrite lookup_alter_eq, Ho in Hl'. injection Hl' as <-. done.
    + rewrite lookup_alter_ne in Hl' by done. intros j jt Hh Hjt.
      destruct (op_holds _ _ _ (locks_ops _ Hl _ _ Hl') j Hh) as (jt' & Hjt' & _ & Hmu' & _).
      assert (Hj : j <> i) by (intros ->; destruct Hmu; congruence).
      eapply extends_op; [done|done|done|by rewrite Ei, lookup_alter_ne|by eapply expiry_ops|done|done].
  - intros j jt Hj Hm. rewrite Ei in Hj. destruct (decide (i = j)) as [<-|Hne].
    + rewrite lookup_alter_eq, Hi in Hj. injection Hj as <-. auto.
    + rewrite lookup_alter_ne in Hj by done. eapply extends_settled; [done|done|by eapply expiry_items].
  - intros j jt Hj. rewrite Ei in Hj. destruct (decide (i = j)) as [<-|Hne].
    + rewrite lookup_alter_eq, Hi in Hj. injection Hj as <-. done.
    + rewrite lookup_alter_ne in Hj by done. intros cb Hc. rewrite (extends_stopped _ _ _ He).
      by apply (expiry_callbacks _ Hx _ _ Hj).
  - by eapply extends_tasks_due.
Qed.

(** The same when the activation leaves its item as it is. *)
Lemma expiry_update_same st st' t o f i it :
  locks_ok st -> expiry_ok st -> extends st st' i ->
  ops st !! t = Some o -> ops st' = alter f t (ops st) ->
  items st !! i = Some it -> items st' = items st -> mu it = Some t ->
  op_armed st' t (f o) -> expiry_ok st'.
Proof.
  intros Hl Hx He Ho Eo Hi Ei Hmu Hop.
  eapply (expiry_update st st' t o f i it (fun it => it)); try done; [|by right| |].
  - rewrite Ei. symmetry. by apply alter_id.
  - congruence.
  - intros cb Hc. rewrite (extends_stopped _ _ _ He). by apply (expiry_callbacks _ Hx _ _ Hi).
Qed.

(** Steps of others: the items keep what matters here, and the coroutines their item,
    generation and deadline. *)
Definition same_timing it it' : Prop :=
  mu it' = mu it /\ ideadline it' = ideadline it /\ processed it' = processed it /\ generation it' = generation it /\
  armedGeneration it' = armedGeneration it /\ cancelledGeneration it' = cancelledGeneration it /\
  cancelCallback it' = cancelCallback it.
Lemma same_timing_refl it : same_timing it it.
Proof. by repeat split. Qed.

Record evolves st st' : Prop := {
  evolves_cancel : tasksCancel st = true -> tasksCancel st' = true;
  evolves_stopped : stopped st ⊆ stopped st';
  evolves_clock : clock st <= clock st';
  evolves_tasks t tk' : tasks st' !! t = Some tk' -> exists tk, tasks st !! t = Some tk /\
    tItem tk' = tItem tk /\ tGeneration tk' = tGeneration tk /\ tDeadline tk' = tDeadline tk;
  evolves_due t tk' : tasks st' !! t = Some tk' -> task_due st' tk';
  evolves_armed i it g d : items st !! i = Some it ->
    (mu it <> None \/ (generation it = g /\ processed it = false)) -> armed st i g d -> armed st' i g d;
}.

Lemma stop_requested_mono (s s' : gset nat) token :
  s ⊆ s' -> stop_requested s token = true -> stop_requested s' token = true.
Proof. intros Hs. destruct token; [|done]. simpl. rewrite !bool_decide_eq_true. set_solver. Qed.

Lemma evolves_bounded st st' i g d : evolves st st' -> bounded_by st i g d -> bounded_by st' i g d.
Proof.
  intros He Hb t tk' Ht Hi. destruct (evolves_tasks _ _ He _ _ Ht) as (tk & Htk & E1 & E2 & E3).
  rewrite E2, E3. apply (Hb t tk Htk). congruence.
Qed.
Lemma evolves_settled st st' i it it' :
  evolves st st' -> items st !! i = Some it -> same_timing it it' -> settled st i it -> settled st' i it'.
Proof.
  intros He Hi (_ & Ed & Ep & Eg & Ea & Ec & _) (Hb & Ha & Hr). unfold settled. rewrite Ed, Ep, Eg, Ea, Ec.
  split; [by eapply evolves_bounded|]. split; [|done]. intros Hp d Hd. eapply evolves_armed; eauto.
Qed.
Lemma evolves_unarmed st st' i it it' mode :
  evolves st st' -> items st !! i = Some it -> mu it <> None -> same_timing it it' ->
  unarmed st i it mode -> unarmed st' i it' mode.
Proof.
  intros He Hi Hmu (_ & Ed & Ep & Eg & Ea & Ec & _) [Hd Hm]. unfold unarmed. rewrite Ed, Eg, Ea. split; [done|].
  destruct mode.
  - destruct Hm as (Hg & Har & Ht). split; [done|]. split; [done|]. intros t tk' Htk Ei.
    destruct (evolves_tasks _ _ He _ _ Htk) as (tk & Htk' & E1 & _). eapply Ht; [done|congruence].
  - destruct Hm as (Hg & Ha & Hag & Hcg & Hb & Hw).
    do 4 (split; [done|]). split; [by eapply evolves_bounded|]. intros d' E. eapply evolves_armed; eauto.
Qed.
Lemma evolves_cancelled st st' it it' token :
  evolves st st' -> same_timing it it' -> cancelled_by st it token -> cancelled_by st' it' token.
Proof.
  intros He (_ & _ & _ & Eg & _ & Ec & _) [H1 H2]. unfold cancelled_by. rewrite Eg, Ec. split; [done|].
  intros E. eapply stop_requested_mono; [by apply evolves_stopped|auto].
Qed.

(** An activation under a mutex owns it. *)
Definition owned st : Prop :=
  forall t o i, ops st !! t = Some o -> holds (pc o) = Some i -> exists it, items st !! i = Some it /\ mu it = Some t.
Lemma inv_owned st : inv st -> owned st.
Proof.
  intros Hinv t o i Ho Hh.
  destruct (op_holds _ _ _ (locks_ops _ (inv_locks _ Hinv) _ _ Ho) i Hh) as (it & Hi & _ & Hmu & _). eauto.
Qed.

Lemma expiry_passive st st' :
  owned st -> expiry_ok st -> evolves st st' ->
  (forall t o, ops st' !! t = Some o -> ops st !! t = Some o \/ holds (pc o) = None) ->
  (forall i it', items st' !! i = Some it' -> exists it, items st !! i = Some it /\ same_timing it it') ->
  expiry_ok st'.
Proof.
  intros Hl Hx He Hops Hitems. split.
  - intros t o Ho i it' Hh Hi'. destruct (Hops t o Ho) as [Ho'|E]; [|congruence].
    destruct (Hitems _ _ Hi') as (it & Hi & Hs). pose proof (expiry_ops _ Hx _ _ Ho' i it Hh Hi) as Ha.
    destruct (Hl _ _ _ Ho' Hh) as (it2 & Hi2 & Hmu). simplify_eq.
    assert (Hn : mu it <> None) by congruence. pose proof Hs as (_ & _ & _ & Eg & _ & Ec & Ecb).
    destruct (pc o); try done; try (by eapply evolves_settled).
    + destruct stage; destruct_and?; repeat match goal with |- _ /\ _ => split end;
        try (by eapply evolves_unarmed); try (by eapply evolves_settled); try (by eapply evolves_cancelled);
        rewrite ?Eg, ?Ec, ?Ecb; try done.
      eapply stop_requested_mono; [by apply evolves_stopped|done].
    + destruct Ha as [Ha Hc]. split; [by eapply evolves_unarmed|]. by rewrite Eg, Ec.
  - intros i it' Hi' Hm. destruct (Hitems _ _ Hi') as (it & Hi & Hs). pose proof Hs as (Em & _).
    eapply evolves_settled; [done|done|done|]. eapply expiry_items; [done|done|congruence].
  - intros i it' Hi' cb Hc. destruct (Hitems _ _ Hi') as (it & Hi & Hs). destruct Hs as (_ & _ & _ & Eg & _ & _ & Ecb).
    rewrite Ecb in Hc. destruct (expiry_callbacks _ Hx _ _ Hi cb Hc) as [E1 E2]. split; [congruence|].
    intros E. eapply stop_requested_mono; [by apply evolves_stopped|auto].
  - intros t tk Ht. by eapply evolves_due.
Qed.

(** Nothing happens to the coroutines. *)
Lemma evolves_still st st' :
  expiry_ok st -> (tasksCancel st = true -> tasksCancel st' = true) -> stopped st ⊆ stopped st' ->
  clock st <= clock st' -> tasks st' = tasks st -> evolves st st'.
Proof.
  intros Hx Hc Hs Hk Et. split; try done.
  - intros t tk Ht. rewrite Et in Ht. eauto 10.
  - intros t tk Ht. rewrite Et in Ht. destruct (expiry_tasks _ Hx _ _ Ht) as [H1 H2]. split.
    + intros E. eapply stop_requested_mono; [done|auto].
    + intros E d Hd. specialize (H2 E d Hd). lia.
  - intros i it g d _ _ [E|(t & tk & Ht & Hw)]; [left; auto|right]. exists t, tk. by rewrite Et.
Qed.

(** An activation outside every mutex. *)
Lemma ops_idle st st' t f :
  ops st' = alter f t (ops st) -> (forall o, ops st !! t = Some o -> holds (pc (f o)) = None) ->
  forall t' o, ops st' !! t' = Some o -> ops st !! t' = Some o \/ holds (pc o) = None.
Proof.
  intros E Hf t' o Ho. rewrite E, lookup_alter_Some in Ho. destruct Ho as [(-> & o' & Ho & ->)|[_ Ho]]; auto.
Qed.
Lemma items_still st st' :
  items st' = items st ->
  forall i it', items st' !! i = Some it' -> exists it, items st !! i = Some it /\ same_timing it it'.
Proof. intros E i it' Hi. rewrite E in Hi. exists it'. split; [done|apply same_timing_refl]. Qed.

(** ** Steps of an activation that holds the mutex of its item *)
Section Holder.
Context (st st' : Storage (K := K) (A := A)) (t i : nat) (o : Op (K := K) (A := A)) (it : Item (K := K) (A := A)).
Context (Hinv : inv st) (Hx : expiry_ok st).
Context (Ho : ops st !! t = Some o) (Hi : items st !! i = Some it) (Hh : holds (pc o) = Some i).

Lemma holder_mu : mu it = Some t.
Proof.
  destruct (op_holds _ _ _ (locks_ops _ (inv_locks _ Hinv) _ _ Ho) i Hh) as (it' & Hi' & _ & Hmu & _). congruence.
Qed.

(** The activation moves on and nothing else happens. *)
Lemma holder_goto p :
  (forall it', items (goto t p st) !! i = Some it' -> holds p = Some i -> op_armed (goto t p st) t (set_pc p o)) ->
  holds p = Some i -> expiry_ok (goto t p st).
Proof.
  intros Hp Hhp. eapply (expiry_update_same st); try done.
  - apply Hinv.
  - by apply extends_same.
  - apply holder_mu.
  - by apply (Hp it).
Qed.

(** The activation changes its item and no coroutine. *)
Lemma holder_update f g :
  ops st' = alter f t (ops st) -> items st' = alter g i (items st) ->
  tasksCancel st' = tasksCancel st -> stopped st' = stopped st -> clock st' = clock st -> tasks st' = tasks st ->
  op_armed st' t (f o) -> (mu (g it) = None -> settled st' i (g it)) -> callback_fired st' (g it) -> expiry_ok st'.
Proof.
  intros Eo Ei E1 E2 E3 E4 Hop Hs Hcb. eapply (expiry_update st); try done.
  - apply Hinv.
  - by apply extends_same.
  - right. apply holder_mu.
Qed.

(** Predicates that only look at fields that do not change. *)
Lemma bounded_same i' g d : tasks st' = tasks st -> bounded_by st i' g d -> bounded_by st' i' g d.
Proof. intros E Hb t' tk. rewrite E. apply Hb. Qed.
Lemma armed_same i' g d :
  tasks st' = tasks st -> tasksCancel st' = tasksCancel st -> armed st i' g d -> armed st' i' g d.
Proof. intros E E' Ha. unfold armed. by rewrite E, E'. Qed.

Lemma settled_next it' :
  tasks st' = tasks st -> settled st i it -> processed it' = true -> generation it' = generation it + 1 ->
  armedGeneration it' = armedGeneration it -> cancelledGeneration it' = cancelledGeneration it -> settled st' i it'.
Proof.
  intros Et (Hb & _ & Ha & Hc) Hp Eg Ea Ec. unfold settled. rewrite Hp, Eg, Ea, Ec.
  split; [|split; [done|lia]]. intros t' tk Ht Hti. rewrite Et in Ht. destruct (Hb t' tk Ht Hti) as [? _]. lia.
Qed.
End Holder.

(** ** New coroutines *)
Section Spawn.
Context (st st' : Storage (K := K) (A := A)) (u i : nat) (tk : Task (K := K) (A := A)) (it : Item (K := K) (A := A)).
Context (Et : tasks st' = <[u := tk]> (tasks st)) (Hu : tasks st !! u = None) (Hti : tItem tk = i).
Context (Ec : tasksCancel st' = tasksCancel st).

Lemma extends_spawn :
  stopped st' = stopped st -> clock st' = clock st -> task_due st tk -> extends st st' i.
Proof.
  intros Es Ek Hd. split; try done. intros t. rewrite Et. destruct (decide (u = t)) as [<-|Hne].
  - right. split; [done|]. exists tk. by rewrite lookup_insert_eq.
  - left. by rewrite lookup_insert_ne.
Qed.

Lemma armed_spawn j g d : armed st j g d -> armed st' j g d.
Proof.
  intros [E|(t & tk' & Ht & Hw)]; [left; congruence|right]. exists t, tk'. split; [|done].
  rewrite Et, lookup_insert_ne; [done|congruence].
Qed.

(** An expiry that runs now does not replace the one at the deadline. *)
Lemma settled_spawn_now :
  tGeneration tk = generation it -> tDeadline tk = None -> settled st i it -> settled st' i it.
Proof.
  intros Hg Hd (Hb & Ha & Hr). split; [|split; [|done]].
  - intros t tk' Ht Hi. rewrite Et, lookup_insert_Some in Ht. destruct Ht as [[<- <-]|[_ Ht]]; [|eauto].
    rewrite Hg, Hd. split; [lia|done].
  - intros Hp d E. apply armed_spawn. auto.
Qed.

(** The coroutine at the deadline settles the item. *)
Lemma settled_spawn mode :
  tGeneration tk = generation it -> tDeadline tk = ideadline it -> tPc tk = TSleep ->
  cancelledGeneration it <= generation it -> unarmed st i it mode -> settled st' i it.
Proof.
  intros Hg Hd Hpc Hcg [Hn Hm]. split; [|split; [|split; [|done]]].
  - intros t tk' Ht Hi. rewrite Et, lookup_insert_Some in Ht. destruct Ht as [[<- <-]|[_ Ht]].
    + rewrite Hg, Hd. split; [lia|]. by intros _ d' ->.
    + destruct mode; [by destruct Hm as (_ & _ & Hno); eapply Hno in Ht|].
      destruct Hm as (E & _ & _ & _ & Hb & _). destruct (Hb t tk' Ht Hi). lia.
  - intros _ d E. right. exists u, tk. rewrite Et, lookup_insert_eq. split; [done|]. split; [done|].
    split; [done|]. split; [congruence|auto].
  - destruct mode; destruct_and?; lia.
Qed.
End Spawn.

Lemma expiry_arm t u ok st st' o i it stage mode :
  inv st -> expiry_ok st -> ops st !! t = Some o -> items st !! i = Some it -> pc o = JArm i stage mode ->
  arm_step t u ok o i it stage mode st = Some st' -> expiry_ok st'.
Proof.
  intros Hinv Hx Ho Hi Hpc Hp. assert (Hh : holds (pc o) = Some i) by by rewrite Hpc.
  pose proof (holder_mu st t i o it Hinv Ho Hi Hh) as Hmu.
  pose proof (expiry_ops _ Hx _ _ Ho i it Hh Hi) as Ha. rewrite Hpc in Ha.
  pose proof (expiry_callbacks _ Hx _ _ Hi) as Hcb.
  unfold arm_step, scheduleExpiryNow, spawn in Hp. repeat head_case Hp; subst.
  - (* ARegister *) destruct Ha as (Hu & Hc & _). eapply (holder_update st _ t i o it); try done.
    + intros i' it' [= <-] Hi'. simpl in Hi'. rewrite lookup_alter_eq, Hi in Hi'. injection Hi' as <-. simpl.
      unfold register. destruct (stop_requested (stopped st) (otoken o)) eqn:Es; simpl.
      * split; [done|]. split; [|by eexists]. unfold cancelled_by, publishMax. simpl. split; [lia|done].
      * split; [done|]. split; [|by eexists]. unfold cancelled_by. simpl. split; lia.
    + by autorewrite with join_fields; rewrite Hmu.
    + intros cb. unfold register. destruct (stop_requested (stopped st) (otoken o)) eqn:Es; simpl; intros [= <-]; done.
  - (* the registration throws *) eapply (holder_goto st t i o it); try done.
    intros _ _ _ i' it' [= <-] Hi'. simpl in Hi'. simplify_eq. simpl. destruct Ha as (Hu & Hc & _). split; [done|lia].
  - (* ADetach *) destruct Ha as (Hu & Hc & Hcb').
    apply (expiry_update_same st _ t o (set_pc (JArm i AStore mode)) i it); try done; [apply Hinv| |].
    + eapply extends_spawn; try done. split; simpl; [|done]. intros E. by destruct (proj1 Hu).
    + intros i' it' [= <-] Hi'. simpl in Hi'. simplify_eq. simpl. split; [|by split].
      eapply settled_spawn; try done. apply Hc.
  - (* the start throws *) eapply (holder_goto st t i o it); try done.
    intros _ _ _ i' it' [= <-] Hi'. simpl in Hi'. simplify_eq. simpl. destruct Ha as (Hu & [Hc _] & _). by split.
  - (* AStore *) destruct Ha as (Hs & Hc & Hcb'). eapply (holder_update st _ t i o it); try done.
    + intros i' it' [= <-] Hi'. simpl in Hi'. rewrite lookup_alter_eq, Hi in Hi'. injection Hi' as <-. simpl.
      split; [|by split]. destruct Hs as (Hb & Har & _ & Hcg). split; [done|]. split; [done|]. simpl. split; [lia|done].
    + simpl. by rewrite Hmu.
  - (* ALoad *) destruct Ha as (Hs & Hc & Hcb').
    destruct (Z.leb_spec (generation it) (cancelledGeneration it)).
    + eapply (holder_goto st t i o it); try done. intros _ _ _ i' it' [= <-] Hi'. simpl in Hi'. simplify_eq. simpl.
      split; [done|]. by apply Hc.
    + eapply (holder_goto st t i o it); try done; [|by destruct mode].
      intros _ _ _ i' it' Hh' Hi'. simpl in Hi', Hh'. destruct mode; simpl in *; by simplify_eq.
  - (* ASchedule *) destruct Ha as [Hs Hreq].
    apply (expiry_update_same st _ t o (set_pc (arm_done i mode)) i it); try done; [apply Hinv| |].
    + eapply extends_spawn; try done.
    + intros i' it' Hh' Hi'. simpl in Hh', Hi'.
      assert (Hs' : settled (goto t (arm_done i mode) (set_tasks (<[u:=mkTask (okey o) i (generation it) None
        (otoken o) [] TSleep]> (tasks st)) st)) i it) by (by eapply settled_spawn_now).
      destruct mode; simpl in *; by simplify_eq.
  - (* not scheduled *) eapply (holder_goto _ t i o it); try done; [|by destruct mode].
    intros _ _ _ i' it' Hh' Hi'. simpl in Hi', Hh'. destruct Ha as [Hs _]. destruct mode; simpl in *; by simplify_eq.
Qed.

Lemma expiry_arm_failed t st st' o i it mode :
  inv st -> expiry_ok st -> ops st !! t = Some o -> items st !! i = Some it -> pc o = JArmFailed i mode ->
  arm_failed_step t i it mode st = Some st' -> expiry_ok st'.
Proof.
  intros Hinv Hx Ho Hi Hpc Hp. assert (Hh : holds (pc o) = Some i) by by rewrite Hpc.
  pose proof (expiry_ops _ Hx _ _ Ho i it Hh Hi) as Ha. rewrite Hpc in Ha. destruct Ha as [[Hd Hm] Hc].
  unfold arm_failed_step in Hp. repeat head_case Hp; subst; eapply (holder_update st _ t i o it); try done.
  - intros _. destruct Hm as (Hg & Ha & Hno). split; [|split; [done|simpl; lia]].
    intros t' tk Ht Hti. exfalso. by eapply Hno.
  - intros _. destruct Hm as (_ & _ & Hag & Hcg & Hb & Har). split; [done|]. split; [|done]. simpl. auto.
Qed.

Lemma expiry_checked t st st' o i it newlyInserted :
  inv st -> expiry_ok st -> ops st !! t = Some o -> items st !! i = Some it -> pc o = JChecked i newlyInserted ->
  checked_step t o i it newlyInserted st = Some st' -> expiry_ok st'.
Proof.
  intros Hinv Hx Ho Hi Hpc Hp. assert (Hh : holds (pc o) = Some i) by by rewrite Hpc.
  pose proof (holder_mu st t i o it Hinv Ho Hi Hh) as Hmu.
  pose proof (expiry_ops _ Hx _ _ Ho i it Hh Hi) as Hs. rewrite Hpc in Hs.
  pose proof (expiry_callbacks _ Hx _ _ Hi) as Hcb.
  unfold checked_step in Hp. repeat head_case Hp; subst.
  - by eapply (holder_update st _ t i o it).
  - eapply (holder_update st _ t i o it); try done. intros _. by eapply (settled_next st).
  - eapply (holder_update st _ t i o it); try done; [|simpl; congruence].
    intros i' it' [= <-] Hi'. simpl in Hi'. rewrite lookup_alter_eq, Hi in Hi'. injection Hi' as <-. simpl.
    destruct Hs as (Hb & Ha & Hag & Hcg). split; [|split; [lia|done]]. split; [done|]. simpl. split; [done|]. split; [done|].
    split; [done|]. split; [done|]. split; [done|]. by apply Ha.
  - eapply (holder_goto st t i o it); try done. intros _ _ _ i' it' [= <-] Hi'. simpl in Hi'. by simplify_eq.
Qed.

Lemma expiry_append t st st' o i it :
  inv st -> expiry_ok st -> ops st !! t = Some o -> items st !! i = Some it -> pc o = JAppend i ->
  append_step t o i it st = Some st' -> expiry_ok st'.
Proof.
  intros Hinv Hx Ho Hi Hpc Hp. assert (Hh : holds (pc o) = Some i) by by rewrite Hpc.
  pose proof (expiry_ops _ Hx _ _ Ho i it Hh Hi) as Hs. rewrite Hpc in Hs.
  pose proof (expiry_callbacks _ Hx _ _ Hi) as Hcb.
  unfold append_step in Hp. repeat head_case Hp; subst; eapply (holder_update st _ t i o it); try done.
  intros _. by eapply (settled_next st).
Qed.

Lemma expiry_insert t u st o d :
  inv st -> expiry_ok st -> ops st !! t = Some o -> pc o = JInsert d -> items st !! u = None ->
  expiry_ok (st |> set_items (<[u := mkItem (okey o) true None (Some t) (replicate (S (oindex o)) []) d
                                false (match d with Some _ => 1 | None => 0 end) 0 0 (ocallback o) None]> (items st))
                |> set_current_ (<[okey o := u]> (current_ st))
                |> set_count_ (count_ st + 1)
                |> goto t (match d with Some _ => JArm u ARegister AInitial | None => JChecked u true end)).
Proof.
  intros Hinv Hx Ho Hpc Hu. pose proof (inv_locks _ Hinv) as Hl.
  assert (Hno : forall t tk, tasks st !! t = Some tk -> tItem tk <> u).
  { intros t' tk Ht E. destruct (task_item _ _ _ (locks_tasks _ Hl _ _ Ht)) as (it & Hit & _). congruence. }
  split; simpl; [| | |apply Hx].
  - intros t' o' Hl' i it Hh Hi. simpl in Hl', Hi. destruct (decide (t = t')) as [<-|Hne].
    + rewrite lookup_alter_eq, Ho in Hl'. injection Hl' as <-.
      destruct d; simpl in Hh; injection Hh as <-; rewrite lookup_insert_eq in Hi; injection Hi as <-; simpl.
      * done.
      * split; [|done]. intros t' tk Ht E. exfalso. by eapply Hno.
    + rewrite lookup_alter_ne in Hl' by done.
      destruct (op_holds _ _ _ (locks_ops _ Hl _ _ Hl') i Hh) as (it' & Hi' & _).
      rewrite lookup_insert_ne in Hi by congruence. exact (expiry_ops _ Hx _ _ Hl' i it Hh Hi).
  - intros i it Hi Hm. rewrite lookup_insert_Some in Hi. destruct Hi as [[<- <-]|[_ Hi]]; [done|].
    exact (expiry_items _ Hx _ _ Hi Hm).
  - intros i it Hi. rewrite lookup_insert_Some in Hi. destruct Hi as [[<- <-]|[_ Hi]]; [done|].
    exact (expiry_callbacks _ Hx _ _ Hi).
Qed.

(** A change of an item that leaves its timing alone. *)
Lemma items_timing st st' i g :
  items st' = alter g i (items st) -> (forall it, same_timing it (g it)) ->
  forall j jt, items st' !! j = Some jt -> exists it, items st !! j = Some it /\ same_timing it jt.
Proof.
  intros E Hg j jt Hj. rewrite E, lookup_alter_Some in Hj.
  destruct Hj as [(-> & it & Hi & ->)|[_ Hj]]; [eauto|]. exists jt. split; [done|apply same_timing_refl].
Qed.

(** An activation outside every mutex, which touches no coroutine. *)
Lemma expiry_idle st st' t p i g :
  inv st -> expiry_ok st -> ops st' = alter (set_pc p) t (ops st) -> holds p = None ->
  items st' = alter g i (items st) -> (forall it, same_timing it (g it)) ->
  tasksCancel st' = tasksCancel st -> stopped st' = stopped st -> clock st' = clock st -> tasks st' = tasks st ->
  expiry_ok st'.
Proof.
  intros Hinv Hx Eo Hp Ei Hg E1 E2 E3 E4. eapply (expiry_passive st); [by apply inv_owned|done| | |by eapply items_timing].
  - apply evolves_still; [done|congruence|by rewrite E2|lia|done].
  - by eapply ops_idle.
Qed.

Lemma alter_same_items st i : items st = alter (fun it => it) i (items st).
Proof. symmetry. by apply alter_id. Qed.

Lemma expiry_goto_idle st t p : inv st -> expiry_ok st -> holds p = None -> expiry_ok (goto t p st).
Proof.
  intros Hinv Hx Hp. apply (expiry_idle st _ t p 0%nat (fun it => it)); try done. exact (alter_same_items st 0%nat).
Qed.

Lemma expiry_op t u ok st st' : inv st -> expiry_ok st -> op_step t u ok st = Some st' -> expiry_ok st'.
Proof.
  intros Hinv Hx Hp. pose proof (inv_locks _ Hinv) as [Ho _ _]. unfold op_step in Hp.
  destruct (ops st !! t) as [o|] eqn:Hl; [|done].
  destruct (pc o) eqn:Hpc; repeat head_case Hp; subst;
    try (apply expiry_goto_idle; [exact Hinv|exact Hx|by destruct (findItemLocked (okey o) st)]).
  - by eapply expiry_insert.
  - by eapply expiry_arm.
  - by eapply expiry_arm_failed.
  - match goal with Hi : items st !! item = Some ?it, Hm : mu ?it = None |- _ =>
      pose proof (expiry_items _ Hx _ _ Hi Hm) as Hs;
      apply (expiry_update st _ t o (set_pc (JChecked item false)) item it (set_mu (Some t))); try done end.
    + apply Hinv.
    + by apply extends_same.
    + by left.
    + intros i' it' [= <-] Hi'. simpl in Hi'. rewrite lookup_alter_eq, H0 in Hi'. injection Hi' as <-. done.
    + intros cb Hc. by apply (expiry_callbacks _ Hx _ _ H0).
  - by eapply expiry_checked.
  - destruct (op_holds _ _ _ (Ho _ _ Hl) item) as (it & Hi & _ & Hmu & _); [by rewrite Hpc|].
    pose proof (expiry_ops _ Hx _ _ Hl item it ltac:(by rewrite Hpc) Hi) as Hs. rewrite Hpc in Hs.
    apply (expiry_update_same st _ t o (set_pc (JAppend item)) item it); try done; try (by case_bool_decide).
    + apply Hinv.
    + apply extends_same; by case_bool_decide.
    + intros i' it' [= <-] Hi'. assert (E : items st !! item = Some it') by (by case_bool_decide).
      simplify_eq. by case_bool_decide.
  - by eapply expiry_append.
  - by eapply (expiry_idle st _ t _ item).
  - eapply (expiry_idle st _ t _ item (fun it => it));
      [exact Hinv|exact Hx|simpl; by autorewrite with join_fields|by destruct next
      |simpl; autorewrite with join_fields; apply alter_same_items|intros; apply same_timing_refl
      |simpl; by autorewrite with join_fields..].
  - eapply (expiry_passive st); [by apply inv_owned|done|by apply evolves_still| |by apply items_still].
    intros t' o'. simpl. rewrite lookup_delete_Some. intros [_ ?]. auto.
Qed.

(** ** Steps of the coroutines *)

(** Coroutine [t] moves on, and was not what an item relies on, or still is. *)
Lemma evolves_task st st' t tk f :
  expiry_ok st -> tasks st !! t = Some tk -> tasks st' = alter f t (tasks st) ->
  tasksCancel st' = tasksCancel st -> stopped st' = stopped st -> clock st' = clock st ->
  tItem (f tk) = tItem tk -> tGeneration (f tk) = tGeneration tk -> tDeadline (f tk) = tDeadline tk ->
  task_due st (f tk) ->
  (forall it g d, items st !! tItem tk = Some it -> (mu it <> None \/ (generation it = g /\ processed it = false)) ->
     tasksCancel st = false -> waits tk (tItem tk) g d -> waits (f tk) (tItem tk) g d) ->
  evolves st st'.
Proof.
  intros Hx Ht Et Ec Es Ek E1 E2 E3 Hd Hw. split; [congruence|by rewrite Es|lia| | |].
  - intros t' tk'. rewrite Et, lookup_alter_Some. intros [(<- & tk2 & Ht2 & ->)|[_ Ht2]]; simplify_eq; eauto 10.
  - intros t' tk'. unfold task_due. rewrite Es, Ek, Et, lookup_alter_Some.
    intros [(<- & tk2 & Ht2 & ->)|[_ Ht2]]; simplify_eq; [done|]. by apply (expiry_tasks _ Hx _ _ Ht2).
  - intros i it g d Hi Hs [Hc|(t' & tk' & Ht' & Hw')]; [left; congruence|].
    destruct (tasksCancel st) eqn:Ecan; [left; congruence|right].
    destruct (decide (t = t')) as [<-|Hne].
    + simplify_eq. exists t, (f tk). rewrite Et, lookup_alter_eq, Ht. split; [done|].
      pose proof (proj1 Hw'). subst i. by eapply Hw.
    + exists t', tk'. by rewrite Et, lookup_alter_ne.
Qed.

Lemma expiry_task_move st st' t tk f :
  owned st -> expiry_ok st -> tasks st !! t = Some tk -> tasks st' = alter f t (tasks st) ->
  tasksCancel st' = tasksCancel st -> stopped st' = stopped st -> clock st' = clock st ->
  tItem (f tk) = tItem tk -> tGeneration (f tk) = tGeneration tk -> tDeadline (f tk) = tDeadline tk ->
  task_due st (f tk) ->
  (forall it g d, items st !! tItem tk = Some it -> (mu it <> None \/ (generation it = g /\ processed it = false)) ->
     tasksCancel st = false -> waits tk (tItem tk) g d -> waits (f tk) (tItem tk) g d) ->
  ops st' = ops st ->
  (forall i it', items st' !! i = Some it' -> exists it, items st !! i = Some it /\ same_timing it it') ->
  expiry_ok st'.
Proof.
  intros Hown Hx Ht Et Ec Es Ek E1 E2 E3 Hd Hw Eo Hit. eapply (expiry_passive st); [done|done| | |done].
  - by eapply evolves_task.
  - intros t' o. rewrite Eo. auto.
Qed.

(** Marking an item processed, with no activation in its mutex. *)
Definition mark_expired (t : nat) it : Item :=
  it |> set_processed true |> set_cancelCallback None |> set_marker (Some (inr t)).

Lemma expiry_mark st i it t :
  inv st -> expiry_ok st -> items st !! i = Some it -> mu it = None ->
  owned (upd_item i (mark_expired t) st) /\ expiry_ok (upd_item i (mark_expired t) st).
Proof.
  intros Hinv Hx Hi Hmu.
  assert (Hne : forall t' o j, ops st !! t' = Some o -> holds (pc o) = Some j -> i <> j).
  { intros t' o j Ho Hh ->. destruct (inv_owned _ Hinv _ _ _ Ho Hh) as (it' & ? & ?). congruence. }
  split; [|split; simpl].
  - intros t' o j Ho Hh. simpl in *. rewrite lookup_alter_ne by eauto. by eapply inv_owned.
  - intros t' o Ho j jt Hh Hj. simpl in Hj. rewrite lookup_alter_ne in Hj by eauto.
    by apply (expiry_ops _ Hx _ _ Ho).
  - intros j jt Hj Hm. apply lookup_alter_Some in Hj as [(<- & it' & Hi' & ->)|[_ Hj]];
      [|by apply (expiry_items _ Hx _ _ Hj)].
    simplify_eq. destruct (expiry_items _ Hx _ _ Hi Hmu) as (Hb & _ & Hr). split; [done|]. by split.
  - intros j jt Hj. apply lookup_alter_Some in Hj as [(<- & it' & Hi' & ->)|[_ Hj]]; [done|].
    by apply (expiry_callbacks _ Hx _ _ Hj).
  - apply Hx.
Qed.

Lemma expiry_task t st st' : inv st -> expiry_ok st -> task_step t st = Some st' -> expiry_ok st'.
Proof.
  intros Hinv Hx Hp. pose proof (inv_owned _ Hinv) as Hown. unfold task_step in Hp.
  destruct (tasks st !! t) as [tk|] eqn:Ht; [|done].
  destruct (items st !! tItem tk) as [it|] eqn:Hi; [|done].
  pose proof (expiry_tasks _ Hx _ _ Ht) as [Hd1 Hd2].
  destruct (tPc tk) eqn:Hpc; repeat head_case Hp; subst.
  - eapply (expiry_task_move st _ t tk (set_tPc TDone)); try done; [congruence|by apply items_still].
  - eapply (expiry_task_move st _ t tk (set_tPc TExpire)); try done; [| |by apply items_still].
    + split; simpl; [done|]. intros _ d Hd. destruct (tDeadline tk); simplify_eq; lia.
    + intros it' g d _ _ _ (W1 & W2 & W3 & _). repeat split; auto.
  - eapply (expiry_task_move st _ t tk (set_tPc TDone)); try done; [|by apply items_still].
    intros it' g d Hi' Hs _ (_ & Hg & _). simplify_eq. bool_to_prop. destruct Hs as [?|[? ?]]; [done|].
    rewrite H1, H0, Z.eqb_refl in Heqb. done.
  - destruct (expiry_mark st _ it t Hinv Hx Hi) as [Hown' Hx']; [done|].
    eapply (expiry_task_move (upd_item (tItem tk) (mark_expired t) st) _ t tk
              (fun tk => set_tPc TCall (set_tMarked (values it) tk))); try done; [|by apply items_still].
    intros it' g d Hi' Hs. simpl in Hi'. rewrite lookup_alter_eq, Hi in Hi'. injection Hi' as <-. simpl in Hs.
    destruct Hs as [?|[? ?]]; congruence.
  - eapply (expiry_task_move st _ t tk (set_tPc TRemove)); try done; [|by eapply (items_timing _ _ (tItem tk))].
    intros it' g d _ _ _ (_ & _ & _ & [?|?]); congruence.
  - eapply (expiry_task_move st _ t tk (set_tPc TDone)); simpl; autorewrite with join_fields; try done.
    + intros it' g d _ _ _ (_ & _ & _ & [?|?]); congruence.
    + apply items_still. simpl. by autorewrite with join_fields.
Qed.

(** ** Steps of the stop callbacks *)

(** The callback of item [i] acts, whoever holds the item's mutex. *)
Lemma expiry_signal st st' i it f :
  expiry_ok st -> extends st st' i -> ops st' = ops st ->
  items st !! i = Some it -> items st' = alter f i (items st) -> mu (f it) = mu it ->
  (settled st i it -> settled st' i (f it)) -> callback_fired st' (f it) ->
  (forall t o, ops st !! t = Some o -> holds (pc o) = Some i -> op_armed st t o -> op_armed st' t o) ->
  owned st -> expiry_ok st'.
Proof.
  intros Hx He Eo Hi Ei Emu Hs Hcb Hop Hown. split.
  - intros t o Ho. rewrite Eo in Ho. pose proof (expiry_ops _ Hx _ _ Ho) as Ha.
    destruct (holds (pc o)) as [j|] eqn:Hh; [|intros j jt Hj; congruence].
    destruct (decide (j = i)) as [->|Hne]; [by apply Hop|].
    eapply extends_op; [done|done|done| |done]. by rewrite Ei, lookup_alter_ne.
  - intros j jt Hj Hm. rewrite Ei, lookup_alter_Some in Hj. destruct Hj as [(<- & it' & Hi' & ->)|[Hne Hj]].
    + simplify_eq. apply Hs, (expiry_items _ Hx _ _ Hi). congruence.
    + eapply extends_settled; [done|done|by eapply expiry_items].
  - intros j jt Hj. rewrite Ei, lookup_alter_Some in Hj. destruct Hj as [(<- & it' & Hi' & ->)|[Hne Hj]].
    + by simplify_eq.
    + intros cb Hc. rewrite (extends_stopped _ _ _ He). by apply (expiry_callbacks _ Hx _ _ Hj).
  - by eapply extends_tasks_due.
Qed.

(** Transport of what an activation under the mutex of item [i] knows. *)
Lemma op_armed_signal st st' t o i it f :
  items st !! i = Some it -> items st' = alter f i (items st) -> holds (pc o) = Some i ->
  stopped st' = stopped st -> generation (f it) = generation it ->
  cancelledGeneration (f it) <= generation it ->
  (cancelCallback it <> None) ->
  (forall cb, cancelCallback it = Some cb -> exists cb', cancelCallback (f it) = Some cb' /\ cbToken cb' = cbToken cb) ->
  (settled st i it -> settled st' i (f it)) -> (forall mode, unarmed st i it mode -> unarmed st' i (f it) mode) ->
  (forall cb, cancelCallback it = Some cb -> cancelled_by st it (cbToken cb) -> cancelled_by st' (f it) (cbToken cb)) ->
  op_armed st t o -> op_armed st' t o.
Proof.
  intros Hi Ei Hh Es Eg Hc Hn Hcb Hs Hu Hcan Ho j it' Hh' Hit. rewrite Hh in Hh'. injection Hh' as <-.
  rewrite Ei, lookup_alter_eq, Hi in Hit. injection Hit as <-. specialize (Ho i it Hh Hi).
  destruct (pc o); try done; try (by apply Hs).
  - assert (Hk : (exists cb, cancelCallback it = Some cb /\ cbToken cb = otoken o) ->
      (exists cb, cancelCallback (f it) = Some cb /\ cbToken cb = otoken o) /\
      (cancelled_by st it (otoken o) -> cancelled_by st' (f it) (otoken o))).
    { intros (cb & Ecb & Et). destruct (Hcb cb Ecb) as (cb' & Ecb' & Et'). split; [exists cb'; split; congruence|].
      rewrite <- Et. auto. }
    destruct stage; rewrite ?Es; destruct_and?; try done; try (destruct Hk as [Hk1 Hk2]; [done|]);
      repeat match goal with |- _ /\ _ => split end; auto.
  - destruct Ho as [Ho _]. rewrite Eg. auto.
Qed.

Lemma cancelled_le st i it :
  inv st -> expiry_ok st -> items st !! i = Some it -> cancelledGeneration it <= generation it.
Proof.
  intros Hinv Hx Hi. destruct (mu it) as [t|] eqn:Hmu; [|by apply (expiry_items _ Hx _ _ Hi Hmu)].
  destruct (item_mu _ _ _ (locks_items _ (inv_locks _ Hinv) _ _ Hi) t Hmu) as (o & Ho & Hh).
  pose proof (expiry_ops _ Hx _ _ Ho i it Hh Hi) as Ha. unfold settled, cancelled_by in Ha.
  destruct (pc o); simplify_eq; try tauto. destruct stage; try tauto. lia.
Qed.

Lemma expiry_signalled st st' i it f cb p :
  inv st -> expiry_ok st -> extends st st' i -> ops st' = ops st ->
  items st !! i = Some it -> items st' = alter f i (items st) -> cancelCallback it = Some cb ->
  mu (f it) = mu it -> generation (f it) = generation it -> cancelledGeneration (f it) <= generation it ->
  cancelCallback (f it) = Some (mkCb (cbGeneration cb) (cbToken cb) p) ->
  stop_requested (stopped st) (cbToken cb) = true ->
  (settled st i it -> settled st' i (f it)) -> (forall mode, unarmed st i it mode -> unarmed st' i (f it) mode) ->
  expiry_ok st'.
Proof.
  intros Hinv Hx He Eo Hi Ei Hcb Emu Eg Hle Hcb' Hreq Hs Hu.
  eapply (expiry_signal st _ i it f); try done; [| |by apply inv_owned].
  - intros cb' E. rewrite Hcb' in E. injection E as <-. simpl. rewrite (extends_stopped _ _ _ He), Eg.
    split; [|done]. by apply (expiry_callbacks _ Hx _ _ Hi).
  - intros t o Ho Hh. eapply op_armed_signal; try done; [apply He|congruence| |].
    + intros cb' E. rewrite Hcb in E. injection E as <-. by eexists.
    + intros cb' E _. rewrite Hcb in E. injection E as <-. split; [lia|]. by rewrite (extends_stopped _ _ _ He).
Qed.

(** A callback that finds its generation armed finds the item settled. *)
Lemma unarmed_not_yet st i it mode : unarmed st i it mode -> armedGeneration it < generation it.
Proof. intros [_ Hm]. destruct mode; destruct_and?; lia. Qed.

Lemma expiry_callback i u ok st st' : inv st -> expiry_ok st -> callback_step i u ok st = Some st' -> expiry_ok st'.
Proof.
  intros Hinv Hx Hp. pose proof (inv_owned _ Hinv) as Hown. unfold callback_step, scheduleExpiryNow, spawn in Hp.
  destruct (items st !! i) as [it|] eqn:Hi; [|done].
  destruct (cancelCallback it) as [cb|] eqn:Hcb; [|done].
  destruct (expiry_callbacks _ Hx _ _ Hi cb Hcb) as [Eg Hreq]. pose proof (cancelled_le _ _ _ Hinv Hx Hi) as Hle.
  destruct (cbPc cb) eqn:Hpc; repeat head_case Hp; subst.
  - eapply (expiry_signalled st _ i it); try done; simpl; [by apply extends_same| |].
    + unfold publishMax. lia.
    + intros (Hb & Ha & Hg & _). split; [done|]. split; [done|]. split; [done|]. simpl. unfold publishMax. lia.
  - bool_to_prop. specialize (Hreq ltac:(done)). eapply (expiry_signalled st _ i it); try done; simpl.
    + eapply extends_spawn; try done.
    + intros Hs. eapply (settled_spawn_now st _ u i _ it) in Hs; done.
    + intros mode Hu. apply unarmed_not_yet in Hu. lia.
  - eapply (expiry_signalled st _ i it); try done; [by apply extends_same|by apply Hreq].
  - eapply (expiry_signalled st _ i it); try done; [by apply extends_same|by apply Hreq].
Qed.

(** ** The other steps *)
Lemma expiry_still st st' :
  inv st -> expiry_ok st -> (tasksCancel st = true -> tasksCancel st' = true) -> stopped st ⊆ stopped st' ->
  clock st <= clock st' -> tasks st' = tasks st -> items st' = items st ->
  (forall t o, ops st' !! t = Some o -> ops st !! t = Some o \/ holds (pc o) = None) -> expiry_ok st'.
Proof.
  intros Hinv Hx Hc Hs Hk Et Ei Ho.
  eapply (expiry_passive st); [by apply inv_owned|done|by apply evolves_still|done|by apply items_still].
Qed.

Lemma expiry_stop st st' : inv st -> expiry_ok st -> stop_step st = Some st' -> expiry_ok st'.
Proof.
  intros Hinv Hx Hp. pose proof (inv_owned _ Hinv) as Hown. unfold stop_step in Hp. repeat head_case Hp; subst;
    try (by eapply (expiry_still st); try done; auto). bool_to_prop.
  match goal with Hi : items st !! ?i = Some ?it |- _ =>
    apply (expiry_signal st _ i it (set_cancelCallback None)); try done; [by apply extends_same|] end.
  intros t o Ho Hh. destruct (Hown _ _ _ Ho Hh) as (it' & ? & ?). congruence.
Qed.

Lemma expiry_ok_step a st st' : inv st -> expiry_ok st -> perform a st = Some st' -> expiry_ok st'.
Proof.
  intros Hinv Hx. destruct a; simpl.
  - intros [= <-]. eapply (expiry_still st); autorewrite with join_fields; try done; auto.
  - unfold stop_call. intros Hp. repeat head_case Hp; subst; try done; eapply (expiry_still st); try done; auto.
  - by apply expiry_stop.
  - intros Hp. apply fmap_Some in Hp as ([st1 r] & Hp & ->). unfold joinValue in Hp. repeat head_case Hp;
      simplify_eq; try done. eapply (expiry_still st); try done.
    intros t' o'. simpl. rewrite lookup_insert_Some. intros [[<- <-]|[_ ?]]; auto.
  - by apply expiry_op.
  - by apply expiry_task.
  - by apply expiry_callback.
  - unfold rotation_step. intros Hp. repeat head_case Hp; subst; eapply (expiry_still st); simpl;
      autorewrite with join_fields; try done; auto.
  - intros Hp. repeat head_case Hp; subst. eapply (expiry_still st); try done; auto. simpl. lia.
  - intros [= <-]. eapply (expiry_still st); try done; auto. simpl. set_solver.
Qed.

Lemma expiry_ok_initial config : expiry_ok (initial (K := K) (A := A) config).
Proof. by split. Qed.

Lemma reachable_expiry config st : reachable config st -> expiry_ok st.
Proof.
  intros Hr. apply (reachable_ind config expiry_ok); [apply expiry_ok_initial| |done].
  intros a s s'. apply expiry_ok_step.
Qed.
End Expiry.
