(* ===== verification/JoinTheorems.v ===== *)
(** * What the join storage promises

    The properties of [HashMapJoinStorage] of runtime/store/hashmap.hpp, each for every
    reachable state, that is, for every interleaving of activations of [joinValue], expiry
    coroutines, stop callbacks, rotations, [start] and [stop]. *)
From Stdlib Require Import ZArith Lia.
From S2P Require Import Prelude Context JoinStorage JoinInvariants JoinRefinement JoinLedger JoinExpiry.
Import Join.
Local Open Scope Z_scope.

(** Evaluate the next step of an activation that was just inserted. *)
Ltac join_now := simpl; unfold op_step; simpl; rewrite ?lookup_alter_eq, ?lookup_insert_eq; simpl.

Section Promises.
Context {K A : Type} `{Countable K}.
Implicit Types (st : Storage (K := K) (A := A)) (it : Item (K := K) (A := A)) (tk : Task (K := K) (A := A)).

Lemma join_run_reachable config l st : run l (initial (K := K) (A := A) config) = Some st -> reachable config st.
Proof.
  unfold reachable. generalize (initial (K := K) (A := A) config) as st0. induction l as [|a l IH]; intros st0 Hr; simpl in Hr.
  - by injection Hr as <-.
  - apply bind_Some in Hr as (st1 & Ha & Hr). eapply rtc_l; [by exists a|by apply IH].
Qed.

Lemma reachable_represented config st : reachable config st -> represented st /\ accounted st.
Proof.
  intros Hr. apply (reachable_ind config (fun st => represented st /\ accounted st)); [|intros a s s' Hi [H1 H2] Hp|done].
  - split; [by intros _ k|]. unfold accounted, pending. simpl. by rewrite !tally_empty.
  - split; [by eapply represented_step|by eapply accounted_step].
Qed.

(** ** After a stop *)
Definition cleared st : Prop :=
  stopper st = SReturned -> current_ st = ∅ /\ previous_ st = ∅ /\ count_ st = 0.

Lemma cleared_step a st st' : inv st -> cleared st -> perform a st = Some st' -> cleared st'.
Proof.
  intros Hinv Hc Hp Hs'. destruct (step_stopper _ _ _ Hp) as [E|[E|Hp']]; [|congruence|].
  - rewrite Hs' in E. symmetry in E. destruct (Hc E) as (E1 & E2 & E3).
    pose proof (control_state _ (inv_control _ Hinv)) as Hst. rewrite E in Hst.
    assert (Ho : ops st = ∅) by (apply (inv_control _ Hinv); by rewrite E).
    assert (Ht : forall t tk, tasks st !! t = Some tk -> tPc tk = TDone) by (apply (inv_tasks _ Hinv); by rewrite E).
    assert (Hr : rotation st = RNone \/ rotation st = RDone) by (apply (inv_control _ Hinv); by rewrite E).
    destruct a; join_cases Hp; try (rewrite Ho, lookup_empty in *; done); try done; try (by destruct Hr; congruence);
      try (match goal with Et : tasks st !! _ = Some _ |- _ => apply Ht in Et; congruence end).
    unfold start. by rewrite Hst.
  - unfold stop_step in Hp'. repeat head_case Hp'; subst; done.
Qed.

Lemma reachable_cleared config st : reachable config st -> cleared st.
Proof.
  intros Hr. apply (reachable_ind config cleared); [done| |done]. intros a s s'. apply cleared_step.
Qed.

Lemma stopped_returned st : inv st -> state_ st = kStopped -> stopper st = SReturned.
Proof.
  intros Hinv Hs. pose proof (control_state _ (inv_control _ Hinv)) as E. rewrite Hs in E.
  destruct (stopper st); try done. by destruct E.
Qed.

Lemma pending_none st :
  ops st = ∅ -> (forall t tk, tasks st !! t = Some tk -> tPc tk = TDone) -> pending st = [].
Proof.
  intros Ho Ht. unfold pending. rewrite Ho, tally_empty. simpl. apply elem_of_nil_inv. intros x.
  rewrite elem_of_tally. intros (t & tk & Htk & Hx). unfold pending_task in Hx. rewrite (Ht _ _ Htk) in Hx.
  by apply elem_of_nil in Hx.
Qed.

(** ** Why an item expires *)
Lemma history_longer (l : list (Event (K := K) (A := A))) e : l <> l ++ [e].
Proof. intros E. apply (f_equal length) in E. rewrite length_app in E. simpl in E. lia. Qed.

(** What marks an item expired, and on what grounds. *)
Definition grounds st (a : Action (K := K) (A := A)) (i : nat) it : Prop :=
  deadline_reached (ideadline it) (clock st) = true \/
  exists t tk, a = DoTask t /\ tasks st !! t = Some tk /\ tItem tk = i /\ tGeneration tk = generation it /\
    stop_requested (stopped st) (tToken tk) = true.

Lemma task_grounds st t tk it :
  inv st -> expiry_ok st -> tasks st !! t = Some tk -> items st !! tItem tk = Some it -> tPc tk = TExpire ->
  mu it = None -> tGeneration tk = generation it -> grounds st (DoTask t) (tItem tk) it.
Proof.
  intros Hinv Hx Ht Hi Hpc Hmu Hg. destruct (expiry_tasks _ Hx _ _ Ht) as [H1 H2].
  destruct (tDeadline tk) as [d|] eqn:Hd.
  - left. destruct (expiry_items _ Hx _ _ Hi Hmu) as (Hb & _). destruct (Hb t tk Ht eq_refl) as [_ E].
    rewrite (E Hg d Hd). simpl. apply Z.leb_le. by apply H2.
  - right. exists t, tk. split; [done|]. auto 10.
Qed.

Lemma expire_grounds a st st' k :
  inv st -> expiry_ok st -> perform a st = Some st' -> history st' = history st ++ [EvExpire k] ->
  exists i it, items st !! i = Some it /\ itemKey it = k /\ processed it = false /\ fresh it = false /\ grounds st a i it.
Proof.
  intros Hinv Hx Hp Hh. pose proof (inv_locks _ Hinv) as [Ho Ht Hi].
  destruct a; join_cases Hp; simpl in Hh; autorewrite with join_fields in Hh;
    try (by apply history_longer in Hh);
    try (apply app_inj_tail in Hh as [_ Hh]; try discriminate Hh; injection Hh as <-).
  - op_facts Ho. bool_to_prop. subst. exists item, x. split; [done|]. split; [done|]. split; [done|].
    split; [by apply Hheld|by left].
  - case_bool_decide; simpl in Hh; by apply history_longer in Hh.
  - task_facts Ht. bool_to_prop. exists (tItem t0), i. split; [done|]. split; [done|]. split; [done|]. split.
    + destruct (fresh i) eqn:Efr; [|done]. exfalso. by eapply item_fresh; [by apply Hi|..].
    + by eapply task_grounds.
Qed.

(** ** Runs of one activation *)
Lemma run_cons a l st st1 : perform a st = Some st1 -> run (a :: l) st = run l st1.
Proof. intros E. simpl. by rewrite E. Qed.

(** ** The properties *)

(** C11.  Refinement: until [stop] has cleared the storage, what every key holds is what a
    map of joined values holds after the joins and expirations in the order in which they
    took effect; and what those expirations removed was handed to the expiry callbacks,
    each once, or is held by the activation or coroutine that is about to do so.  The joins that
    took effect are those that were asked for: to an observer of the calls of [joinValue], every
    accepted call is under way, has returned, or has ended in the exception of a failed arming,
    and the joins are, each once and with the arguments of its call, those of the calls that
    returned and of the calls under way that have appended their value.  So no call returns
    without having joined its value. *)
Theorem join_refines config st :
  reachable config st ->
  (state_ st <> kStopped -> forall k, joined (replay (history st)) !! k = live st k) /\
  expirations (replay (history st)) ≡ₚ delivered st ++ pending st /\
  (exists L, observed config st L) /\
  forall L, observed config st L ->
    requested L ≡ₚ returned L ++ thrown L ++ tally (fun x => [x.1]) (callers L) /\
    joins (history st) ≡ₚ returned L ++ tally appended (callers L) /\
    (forall t, is_Some (callers L !! t) <-> is_Some (ops st !! t)).
Proof.
  intros Hr. pose proof (join_reachable_inv _ _ Hr) as Hinv. destruct (reachable_represented _ _ Hr) as [H1 H2].
  split; [|split; [done|split; [by apply reachable_observed|]]].
  - intros Hs. apply H1. intros E. pose proof (control_state _ (inv_control _ Hinv)) as Hc. by rewrite E in Hc.
  - intros L HL%ledger_observed. split; [apply HL|split; [apply HL|]]. intros t. split; intros [x Hx].
    + by eapply lg_callers.
    + destruct (lg_ops _ _ HL _ _ Hx) as (p & -> & _). by eexists.
Qed.

(** Invariant: no key is in both maps, [size] counts the keys that are found, every
    item that is not processed is found under its key, and a rotation changes neither what
    is found nor the size: it evicts nothing. *)
Theorem join_maps_sound config st :
  reachable config st ->
  (forall k i, current_ st !! k = Some i -> previous_ st !! k = None) /\
  size_ st = Z.of_nat (size (current_ st ∪ previous_ st)) /\
  (forall i it, items st !! i = Some it -> processed it = false -> state_ st <> kStopped ->
     findItemLocked (itemKey it) st = Some i) /\
  (forall k, findItemLocked k (rotate st) = findItemLocked k st) /\ size_ (rotate st) = size_ st.
Proof.
  intros Hr. pose proof (join_reachable_inv _ _ Hr) as Hinv. pose proof (inv_maps _ Hinv) as Hm.
  destruct (rotate_maps _ Hm) as (Hf & Hc & _). split; [apply Hm|]. split; [|split; [|done]].
  - unfold size_. rewrite (maps_count _ Hm), map_size_disj_union; [lia|]. apply map_disjoint_spec.
    intros k i j Hk Hk'. apply (maps_disjoint _ Hm) in Hk. congruence.
  - intros i it Hi Hp Hs. apply (inv_found _ Hinv); [done|done|]. intros E.
    pose proof (control_state _ (inv_control _ Hinv)) as Hst. by rewrite E in Hst.
Qed.

(** C13.  Safety: when the storage is [kStopped] it is empty, no activation, expiry
    coroutine or stop callback is left, everything that expired was delivered, and
    [joinValue] and [start] answer [StoreStoppedError]. *)
Theorem join_stop_drains config st :
  reachable config st -> state_ st = kStopped ->
  size_ st = 0 /\ (forall k, findItemLocked k st = None) /\ ops st = ∅ /\
  (forall t tk, tasks st !! t = Some tk -> tPc tk = TDone) /\
  (forall i it, items st !! i = Some it -> cancelCallback it = None) /\
  expirations (replay (history st)) ≡ₚ delivered st /\
  (forall t ctx k index value callback,
     joinValue t ctx k index value callback st = Some (st, Err StoreStoppedError)) /\
  (forall ok, start ok st = (st, Err StoreStoppedError)).
Proof.
  intros Hr Hs. pose proof (join_reachable_inv _ _ Hr) as Hinv. pose proof (stopped_returned _ Hinv Hs) as Hret.
  destruct (reachable_cleared _ _ Hr Hret) as (E1 & E2 & E3).
  assert (Ho : ops st = ∅) by (apply (inv_control _ Hinv); by rewrite Hret).
  assert (Ht : forall t tk, tasks st !! t = Some tk -> tPc tk = TDone) by (apply (inv_tasks _ Hinv); by rewrite Hret).
  split; [done|]. split; [intros k; unfold findItemLocked; by rewrite E1, E2, !lookup_empty|].
  split; [done|]. split; [done|]. split; [|split; [|split]].
  - intros i it Hi. destruct (cancelCallback it) eqn:E; [|done]. exfalso.
    pose proof (inv_callbacks _ Hinv i) as Hc. rewrite Hret in Hc. apply Hc. exists it. split; congruence.
  - destruct (reachable_represented _ _ Hr) as [_ Ha]. unfold accounted in Ha.
    by rewrite (pending_none st Ho Ht), app_nil_r in Ha.
  - intros. unfold joinValue. by rewrite Hs.
  - intros. unfold start. by rewrite Hs.
Qed.

(** C14.  Liveness of expiry: an item with a deadline that nobody holds locked and that is
    not processed has a coroutine of its current generation that waits for exactly that
    deadline, or has reached it, whatever renewals, failed renewals and cancellations came
    before; only a [stop] that cancels the coroutines ends this.  The coroutines of earlier
    generations that are left cannot expire it. *)
Theorem expiry_armed config st i it d :
  reachable config st -> items st !! i = Some it -> mu it = None -> processed it = false -> ideadline it = Some d ->
  (tasksCancel st = true \/
   exists t tk, tasks st !! t = Some tk /\ tItem tk = i /\ tGeneration tk = generation it /\ tDeadline tk = Some d /\
     (tPc tk = TSleep \/ tPc tk = TExpire)) /\
  (forall t tk st', tasks st !! t = Some tk -> tItem tk = i -> tGeneration tk <> generation it ->
     perform (DoTask t) st = Some st' -> items st' !! i = Some it).
Proof.
  intros Hr Hi Hmu Hp Hd. pose proof (reachable_expiry _ _ Hr) as Hx.
  destruct (expiry_items _ Hx _ _ Hi Hmu) as (_ & Ha & _). split; [by apply Ha|].
  intros t tk st' Ht Hti Hg Hstep. pose proof (locks_tasks _ (inv_locks _ (join_reachable_inv _ _ Hr)) _ _ Ht) as Hok.
  simpl in Hstep. unfold task_step in Hstep. rewrite Ht, Hti, Hi, Hmu, Hp in Hstep.
  assert (Hn : tPc tk <> TCall) by (intros E; destruct (task_retired _ _ _ Hok) as (it' & ? & ?); [auto|congruence]).
  assert (Hneq : (generation it =? tGeneration tk) = false) by (apply Z.eqb_neq; congruence). rewrite Hneq in Hstep.
  repeat head_case Hstep; subst; simpl; autorewrite with join_fields; done.
Qed.

(** Safety: whatever step expires a key expires an item that holds joined values, and
    only on good grounds: the item's deadline has been reached, or the coroutine was
    started for the item's current generation and the context that armed it was cancelled. *)
Theorem never_expires_early config st st' a k :
  reachable config st -> perform a st = Some st' -> history st' = history st ++ [EvExpire k] ->
  exists i it, items st !! i = Some it /\ itemKey it = k /\ processed it = false /\ fresh it = false /\
    (deadline_reached (ideadline it) (clock st) = true \/
     exists t tk, a = DoTask t /\ tasks st !! t = Some tk /\ tItem tk = i /\ tGeneration tk = generation it /\
       stop_requested (stopped st) (tToken tk) = true).
Proof.
  intros Hr Hp Hh.
  exact (expire_grounds a st st' k (join_reachable_inv _ _ Hr) (reachable_expiry _ _ Hr) Hp Hh).
Qed.

(** A join whose context has already passed its deadline is accepted for an absent
    key, and leaves an item without a deadline and without any coroutine that could expire
    it. *)
Theorem expired_context_untimed config st t u ctx d k index value callback :
  reachable config st -> state_ st = kRunning -> ops st !! t = None -> items st !! u = None ->
  findItemLocked k st = None -> deadline ctx = Some d -> d <= clock st ->
  (callback (append_value index value (replicate (S index) []))).1 = false ->
  exists st' it,
    run (DoJoin t ctx k index value callback :: replicate 6 (DoOp t u true)) st = Some st' /\
    findItemLocked k st' = Some u /\ items st' !! u = Some it /\ processed it = false /\
    values it = (callback (append_value index value (replicate (S index) []))).2 /\
    ideadline it = None /\ tasks st' = tasks st /\ (forall t' tk, tasks st' !! t' = Some tk -> tItem tk <> u).
Proof.
  intros Hr Hs Ht Hu Hk Hd Hle Hcb. pose proof (join_reachable_inv _ _ Hr) as Hinv.
  assert (Hno : forall t' tk, tasks st !! t' = Some tk -> tItem tk <> u).
  { intros t' tk Htk E. destruct (task_item _ _ _ (locks_tasks _ (inv_locks _ Hinv) _ _ Htk)) as (it & Hit & _). congruence. }
  destruct (callback (append_value index value (replicate (S index) []))) as [b vs] eqn:Ecb. simpl in Hcb. subst b.
  assert (Hz : (0 <? d - clock st) = false) by (apply Z.ltb_ge; lia).
  simpl replicate. erewrite run_cons; [|simpl; unfold joinValue; rewrite Hs, Ht, Hd; reflexivity].
  erewrite run_cons; [|by join_now; unfold findItemLocked in *; simpl; rewrite Hk].
  erewrite run_cons; [|by join_now; rewrite Hz].
  erewrite run_cons; [|by join_now; unfold findItemLocked in *; simpl; rewrite Hk, Hu].
  erewrite run_cons; [|by join_now; rewrite lookup_insert_eq; simpl; unfold checked_step; simpl; rewrite Hz].
  erewrite run_cons; [|by join_now; rewrite lookup_insert_eq; simpl; unfold append_step; simpl; simpl in Ecb; rewrite Ecb].
  erewrite run_cons; [|by join_now].
  eexists _, _. split; [reflexivity|]. simpl. unfold findItemLocked. simpl. rewrite !lookup_insert_eq, lookup_alter_eq, lookup_insert_eq.
  split; [done|]. split; [done|]. done.
Qed.
End Promises.

(** ** Concrete runs *)
Section Runs.
Local Abbreviation store := (Storage (K := nat) (A := nat)).
Local Abbreviation action := (Action (K := nat) (A := nat)).

Definition pair_config : JoinStorageConfig := mkConfig 10 true.
(** Complete when both sides are there. *)
Definition both (vs : list (list nat)) : bool * list (list nat) :=
  (forallb (fun l => negb (Nat.eqb (length l) 0)) vs && (2 <=? length vs)%nat, vs).
Definition context (source : option nat) (d : Deadline) : ContextState :=
  defaultContext |> set_stopToken source |> set_deadline d.

(** Activation 0 joins 100 on side 0 of key 7, with a deadline by the configuration. *)
Definition first_join : list action :=
  [DoStart true; DoJoin 0 (context (Some 1%nat) None) 7%nat 0 100%nat both] ++ replicate 10 (DoOp 0 0 true).
(** Its deadline passes and the coroutine is about to expire it. *)
Definition due : list action := first_join ++ [DoTick 10; DoTask 0].
Definition expired : list action := due ++ [DoTask 0; DoTask 0; DoTask 0].
Definition finished : list action :=
  expired ++ [DoStop; DoStopStep; DoStopStep; DoStopStep; DoRotation; DoStopStep; DoStopStep; DoStopStep; DoStopStep].

Definition after (l : list action) : store := default (initial pair_config) (run l (initial pair_config)).
Lemma after_reachable l : is_Some (run l (initial pair_config)) -> reachable pair_config (after l).
Proof. intros [st E]. apply (join_run_reachable _ l). unfold after. by rewrite E. Qed.

Local Ltac reached := apply after_reachable; vm_compute; eexists; reflexivity.

(** Runs with their observer. *)
Fixpoint watch (l : list action) (x : store * Ledger) : option (store * Ledger) :=
  match l with [] => Some x | a :: l => st ← perform a x.1; watch l (st, observe a x.1 x.2) end.
Lemma watch_observed l : forall x y, watch l x = Some y -> rtc observed_step x y.
Proof.
  induction l as [|a l IH]; intros x y Hw; simpl in Hw; [injection Hw as <-; apply rtc_refl|].
  apply bind_Some in Hw as (st & Ha & Hw). apply (rtc_l _ _ (st, observe a x.1 x.2)); [by exists a|by apply IH].
Qed.
Definition watched (l : list action) : store * Ledger :=
  default (initial pair_config, no_calls) (watch l (initial pair_config, no_calls)).

Lemma join_refines_witness :
  joined (replay (history (after due))) !! 7%nat = live (after due) 7%nat /\ live (after due) 7%nat = Some [[100%nat]] /\
  joins (history (after due)) ≡ₚ returned (watched due).2 /\ returned (watched due).2 = [(7%nat, 0%nat, 100%nat, both)].
Proof.
  assert (Hr : reachable pair_config (after due)) by reached.
  destruct (join_refines pair_config (after due) Hr) as (E & _ & _ & Hl).
  split; [apply E; vm_compute; discriminate|]. split; [vm_compute; reflexivity|]. split; [|reflexivity].
  assert (Ho : observed pair_config (after due) (watched due).2) by (apply (watch_observed due); vm_compute; reflexivity).
  destruct (Hl _ Ho) as (_ & Hj & _). exact Hj.
Defined.

Lemma join_maps_sound_witness :
  size_ (after due) = Z.of_nat (size (current_ (after due) ∪ previous_ (after due))) /\ size_ (after due) = 1.
Proof.
  split; [|vm_compute; reflexivity].
  destruct (join_maps_sound pair_config (after due)) as (_ & E & _); [reached|exact E].
Defined.

Lemma join_stop_drains_witness :
  expirations (replay (history (after finished))) ≡ₚ delivered (after finished) /\
  delivered (after finished) = [(7%nat, [[100%nat]])].
Proof.
  split; [|vm_compute; reflexivity].
  destruct (join_stop_drains pair_config (after finished)) as (_ & _ & _ & _ & _ & E & _);
    [reached|vm_compute; reflexivity|exact E].
Defined.

Lemma expiry_armed_witness :
  tasksCancel (after first_join) = true \/
  exists t tk, tasks (after first_join) !! t = Some tk /\ tItem tk = 0%nat /\ tGeneration tk = 1 /\ tDeadline tk = Some 10 /\
    (tPc tk = TSleep \/ tPc tk = TExpire).
Proof.
  assert (E : (fun it => (mu it, processed it, ideadline it, generation it)) <$> (items (after first_join) !! 0%nat) =
    Some (None, false, Some 10, 1)) by (vm_compute; reflexivity).
  destruct (items (after first_join) !! 0%nat) as [it|] eqn:Hi; [|discriminate E]. injection E as E1 E2 E3 E4.
  rewrite <- E4. apply (expiry_armed pair_config (after first_join) 0%nat it 10); [reached|done..].
Defined.

Lemma never_expires_early_witness :
  exists i it, items (after due) !! i = Some it /\ itemKey it = 7%nat /\ processed it = false /\ fresh it = false /\
    (deadline_reached (ideadline it) (clock (after due)) = true \/
     exists t tk, DoTask (K := nat) (A := nat) 0 = DoTask t /\ tasks (after due) !! t = Some tk /\ tItem tk = i /\
       tGeneration tk = generation it /\ stop_requested (stopped (after due)) (tToken tk) = true).
Proof.
  apply (never_expires_early pair_config (after due) (after (due ++ [DoTask 0])) (DoTask 0) 7%nat);
    [reached|vm_compute; reflexivity|vm_compute; reflexivity].
Defined.

(** A context whose deadline was at 4, used at 5. *)
Lemma expired_context_untimed_witness :
  exists st' it,
    run (DoJoin 0 (context None (Some 4)) 7%nat 0 100%nat both :: replicate 6 (DoOp 0 0 true))
      (after [DoStart true; DoTick 5]) = Some st' /\
    findItemLocked 7%nat st' = Some 0%nat /\ items st' !! 0%nat = Some it /\ processed it = false /\
    values it = [[100%nat]] /\ ideadline it = None /\ tasks st' = tasks (after [DoStart true; DoTick 5]) /\
    (forall t' tk, tasks st' !! t' = Some tk -> tItem tk <> 0%nat).
Proof.
  apply (expired_context_untimed pair_config (after [DoStart true; DoTick 5]) 0 0 (context None (Some 4)) 4 7%nat 0 100%nat both);
    [reached|vm_compute; reflexivity..|vm_compute; discriminate|vm_compute; reflexivity].
Defined.
End Runs.
