(* ===== verification/JoinOperators.v ===== *)
(** * The join operators over the join storage

    [JoinImpl] of operators/join.inl and [MultiJoinImpl] of operators/multijoin.inl hand every
    message to the join storage together with a callback, which decides by the kind of join
    whether the user's function may be called, casts the type-erased values back and calls
    it.  Input [i] of an operator carries values of one C++ type, here the number [ty i]; a
    [std::any] is a value with the number of its type, and [None] stands for
    [std::bad_any_cast].  The user's function is a parameter: from the key and the values of
    each input to the answer whether the key is complete.

    The specification is a table of windows: for every key, the values of each input since
    the key was last completed or expired. *)
From Stdlib Require Import ZArith Lia.
From S2P Require Import Prelude Context JoinStorage JoinInvariants JoinRefinement JoinTheorems.
Import Join.
Local Open Scope Z_scope.

Module Operators.

Inductive JoinTypeEnum := Inner | Left | Right | Outer.

Inductive JoinStorageType := kUndefined | kHashMap | kRocksDB | kAerospike.

Inductive OperatorError :=
  | InvalidArgument | LogicError | StoreFailed (e : StoreError).

Record Any {V : Type} := mkAny {
  anyType : nat;
  anyValue : V;
}.
Arguments Any : clear implicits.
Arguments mkAny {V}.

(** The kinds of operator, with the number of inputs of a multi-join. *)
Inductive Operator := JoinOp (joinType : JoinTypeEnum) | MultiJoinOp (inputs : nat).

Definition arity (op : Operator) : nat := match op with JoinOp _ => 2 | MultiJoinOp n => n end.

(** [makeJoinStorageConfig]: milliseconds to the nanoseconds of the steady clock. *)
Definition makeJoinStorageConfig (ttl_ms : Z) (renewTTL : bool) : JoinStorageConfig :=
  mkConfig (ttl_ms * 1000000) renewTTL.

Section Operator.
Context {K V : Type} `{Countable K}.
Abbreviation AnyValues := (list (list (Any V))).

Definition hasInput {B} (i : nat) (values : list (list B)) : bool :=
  match values !! i with Some (_ :: _) => true | _ => false end.

(** The guard of the callback of [JoinImpl::consumeValue]. *)
Definition canCall {B} (joinType : JoinTypeEnum) (values : list (list B)) : bool :=
  let hasLeft := hasInput 0 values in
  let hasRight := hasInput 1 values in
  match joinType with
  | Inner => hasLeft && hasRight
  | Left => hasLeft
  | Right => hasRight
  | Outer => true
  end.

Definition evaluates {B} (op : Operator) (values : list (list B)) : bool :=
  match op with JoinOp joinType => canCall joinType values | MultiJoinOp _ => hasInput 0 values end.

(** The types of the inputs, and the user's function. *)
Context (ty : nat -> nat) (f : K -> list (list V) -> bool).

Definition any_cast (t : nat) (a : Any V) : option V :=
  if Nat.eqb (anyType a) t then Some (anyValue a) else None.

(** [copyValues]: nothing for an input that has not appeared yet. *)
Definition copyValues (index : nat) (values : AnyValues) : option (list V) :=
  match values !! index with
  | Some l => mapM (any_cast (ty index)) l
  | None => Some []
  end.
Definition makeTypedValues (inputs : nat) (values : AnyValues) : option (list (list V)) :=
  mapM (fun index => copyValues index values) (seq 0 inputs).

(** The pair that the callback of [JoinImpl::consumeValue] fills. *)
Definition typedPair (values : AnyValues) : option (list V * list V) :=
  first ← match values with l :: _ => mapM (any_cast (ty 0)) l | [] => Some [] end;
  second ← match values with _ :: r :: _ => mapM (any_cast (ty 1)) r | _ => Some [] end;
  Some (first, second).

Definition typedValues (op : Operator) (values : AnyValues) : option (list (list V)) :=
  match op with
  | JoinOp _ => (fun p => [p.1; p.2]) <$> typedPair values
  | MultiJoinOp inputs => makeTypedValues inputs values
  end.

(** The callback of [consumeValue]; [None] when a cast throws.  It does not change the
    values of the storage. *)
Definition callback (op : Operator) (key : K) (values : AnyValues) : option bool :=
  if evaluates op values then f key <$> typedValues op values else Some false.

(** The call of the user's function that the callback makes. *)
Definition call_of (op : Operator) (key : K) (values : AnyValues) : list (K * list (list V)) :=
  if evaluates op values then option_list ((fun w => (key, w)) <$> typedValues op values) else [].

(** The callback as the storage sees it.  Were it to throw, the value it was called for
    would stay joined, as after the answer [false]. *)
Definition joinFunction (op : Operator) (key : K) (values : AnyValues) : bool * AnyValues :=
  (default false (callback op key values), values).

(** [makeJoinStorage] and [initializeStorage]; [hasEnv] is whether the environment is
    given, [canRegister] whether the application can register storages. *)
Definition makeJoinStorage (type : JoinStorageType) (config : JoinStorageConfig) :
    result StoreError (Storage (K := K) (A := Any V)) :=
  match type with
  | kHashMap => Ok (initial config)
  | kUndefined | kRocksDB | kAerospike => Err UnsupportedStoreError
  end.
Definition initializeStorage (hasEnv canRegister : bool) (type : JoinStorageType) (ttl_ms : Z) (renewTTL : bool) :
    result OperatorError (Storage (K := K) (A := Any V)) :=
  if hasEnv then
    match makeJoinStorage type (makeJoinStorageConfig ttl_ms renewTTL) with
    | Ok st => if canRegister then Ok st else Err LogicError
    | Err e => Err (StoreFailed e)
    end
  else Err InvalidArgument.

(** [consumeValue]; activation [t] runs [joinValue]. *)
Definition consumeValue (op : Operator) (storage : option (Storage (K := K) (A := Any V))) (t : nat)
    (ctx : ContextState) (key : K) (index : nat) (value : V) :
    option (option (Storage (K := K) (A := Any V)) * result OperatorError unit) :=
  match storage with
  | None => Some (None, Err LogicError)
  | Some st =>
      match joinValue t ctx key index (mkAny (ty index) value) (joinFunction op key) st with
      | Some (st', Ok _) => Some (Some st', Ok tt)
      | Some (st', Err e) => Some (Some st', Err (StoreFailed e))
      | None => None
      end
  end.
(** The first input, and input [N] of the links. *)
Definition consume op storage t ctx key value := consumeValue op storage t ctx key 0 value.
Definition consumeRight (N : nat) op storage t ctx key value := consumeValue op storage t ctx key (S N) value.

(** A message for the storage comes from an input of the operator. *)
Definition feeds (op : Operator) (a : Action (K := K) (A := Any V)) : Prop :=
  match a with
  | DoJoin t ctx key index value cb =>
      (index < arity op)%nat /\ anyType value = ty index /\ cb = joinFunction op key
  | _ => True
  end.
Definition fed (op : Operator) (config : JoinStorageConfig) (st : Storage (K := K) (A := Any V)) : Prop :=
  rtc (fun st st' => exists a, feeds op a /\ perform a st = Some st') (initial config) st.

(** ** The specification *)
Record Windows := mkWindows {
  windows : gmap K (list (list V));
  calls : list (K * list (list V));
  lapsed : list (K * list (list V));
}.
(** The windows for which each kind of join calls the function: an inner join wants a value of
    both inputs, a left join one of the left input, a right join one of the right input, an
    outer join takes every window, and a multi-join wants a value of its first input. *)
Definition admitted (op : Operator) (w : list (list V)) : bool :=
  match op, w with
  | JoinOp Inner, (_ :: _) :: (_ :: _) :: _ => true
  | JoinOp Left, (_ :: _) :: _ => true
  | JoinOp Right, _ :: (_ :: _) :: _ => true
  | JoinOp Outer, _ => true
  | MultiJoinOp _, (_ :: _) :: _ => true
  | _, _ => false
  end.
Definition empty_window (op : Operator) : list (list V) := replicate (arity op) [].
Definition window_step (op : Operator) (s : Windows) (e : Event (K := K) (A := Any V)) : Windows :=
  match e with
  | EvJoin k index value _ =>
      let w := alter (fun l => l ++ [anyValue value]) index (default (empty_window op) (windows s !! k)) in
      if admitted op w
      then mkWindows (if f k w then delete k (windows s) else <[k := w]> (windows s)) (calls s ++ [(k, w)]) (lapsed s)
      else mkWindows (<[k := w]> (windows s)) (calls s) (lapsed s)
  | EvExpire k =>
      mkWindows (delete k (windows s)) (calls s) (lapsed s ++ [(k, default (empty_window op) (windows s !! k))])
  end.
Definition window_replay (op : Operator) (l : list (Event (K := K) (A := Any V))) : Windows :=
  foldl (window_step op) (mkWindows ∅ [] []) l.

(** The calls of the user's function by the joins of a history, in order. *)
Definition calls_step (op : Operator) (s : Spec (K := K) (A := Any V) * list (K * list (list V)))
    (e : Event (K := K) (A := Any V)) : Spec (K := K) (A := Any V) * list (K * list (list V)) :=
  (spec_step s.1 e,
   s.2 ++ match e with
          | EvJoin k index value _ => call_of op k (append_value index value (default [] (joined s.1 !! k)))
          | EvExpire _ => []
          end).
Definition called (op : Operator) (l : list (Event (K := K) (A := Any V))) : list (K * list (list V)) :=
  (foldl (calls_step op) (mkSpec ∅ [], []) l).2.

(** ** Well-typed values *)
Definition well_typed (op : Operator) (values : AnyValues) : Prop :=
  (length values <= arity op)%nat /\
  forall i l, values !! i = Some l -> Forall (fun a => anyType a = ty i) l.

(** The values of each input without their types. *)
Definition input (i : nat) (values : AnyValues) : list V := anyValue <$> default [] (values !! i).
Definition untag (op : Operator) (values : AnyValues) : list (list V) :=
  (fun i => input i values) <$> seq 0 (arity op).

Lemma cast_all t (l : list (Any V)) :
  Forall (fun a => anyType a = t) l -> mapM (any_cast t) l = Some (anyValue <$> l).
Proof.
  intros Hl. apply mapM_Some. induction Hl as [|a l Ha _ IH]; constructor; [|done].
  unfold any_cast. by rewrite Ha, Nat.eqb_refl.
Qed.

Lemma copy_all op i values : well_typed op values -> copyValues i values = Some (input i values).
Proof.
  intros [_ Ht]. unfold copyValues, input. destruct (values !! i) as [l|] eqn:E; [|done].
  by rewrite (cast_all (ty i) l) by eauto.
Qed.

Lemma typedPair_copies values :
  typedPair values = first ← copyValues 0 values; second ← copyValues 1 values; Some (first, second).
Proof. unfold typedPair, copyValues. by destruct values as [|l [|r values]]. Qed.

(** Well-typed values are cast without an exception. *)
Lemma typed_values op values : well_typed op values -> typedValues op values = Some (untag op values).
Proof.
  intros Hw. destruct op as [jt|n]; simpl.
  - rewrite typedPair_copies, !(copy_all _ _ _ Hw). done.
  - unfold makeTypedValues, untag. simpl. apply mapM_Some. generalize (seq 0 n) as l. induction l; constructor; [|done].
    by eapply copy_all.
Qed.

Lemma has_input_untag op i values :
  (i < arity op)%nat -> hasInput i (untag op values) = hasInput i values.
Proof.
  intros Hi. unfold hasInput, untag. rewrite list_lookup_fmap, lookup_seq_lt by done. simpl. unfold input.
  by destruct (values !! i) as [[|]|].
Qed.
(** The guard of the code decides what the kinds of join ask for. *)
Lemma evaluates_admitted op values : well_typed op values -> evaluates op values = admitted op (untag op values).
Proof.
  intros [Hl _]. destruct op as [[]|[|n]]; simpl in Hl; unfold evaluates, canCall, hasInput, admitted, untag, input; simpl;
    destruct values as [|[|a l] [|[|b r] values]]; simpl in *; first [done | lia].
Qed.

Lemma untag_empty op : untag op [] = empty_window op.
Proof.
  unfold untag, empty_window. generalize (arity op) as n. intros n. apply list_eq. intros i.
  rewrite list_lookup_fmap. destruct (decide (i < n)%nat) as [Hi|Hi].
  - rewrite lookup_seq_lt, lookup_replicate_2 by done. done.
  - rewrite lookup_seq_ge by lia. simpl. symmetry. apply lookup_replicate_None. lia.
Qed.

(** What [append_value] does to each input. *)
Lemma append_lookup {B} index (a : B) vs i :
  default [] (append_value index a vs !! i) = default [] (vs !! i) ++ (if Nat.eqb i index then [a] else []).
Proof.
  unfold append_value. set (vs' := if (length vs <=? index)%nat then vs ++ replicate (S index - length vs) [] else vs).
  assert (Hl : (index < length vs')%nat).
  { subst vs'. destruct (Nat.leb_spec (length vs) index); [rewrite length_app, length_replicate|]; lia. }
  assert (Hv : forall j, default [] (vs' !! j) = default [] (vs !! j)).
  { intros j. subst vs'. destruct (Nat.leb_spec (length vs) index); [|done].
    destruct (decide (j < length vs)%nat) as [Hj|Hj]; [by rewrite lookup_app_l|].
    rewrite lookup_app_r, (lookup_ge_None_2 vs j) by lia.
    destruct (replicate _ _ !! _) eqn:E; [|done]. by apply lookup_replicate in E as [-> _]. }
  destruct (Nat.eqb_spec i index) as [->|Hne].
  - rewrite list_lookup_alter_eq. rewrite <- (Hv index). destruct (lookup_lt_is_Some_2 vs' index Hl) as [l ->]. done.
  - by rewrite list_lookup_alter_ne, Hv, app_nil_r by done.
Qed.
Lemma append_length {B} index (a : B) vs : length (append_value index a vs) = Nat.max (length vs) (S index).
Proof.
  unfold append_value. rewrite length_alter.
  destruct (Nat.leb_spec (length vs) index); [rewrite length_app, length_replicate|]; lia.
Qed.

Lemma append_typed op index a values :
  (index < arity op)%nat -> anyType a = ty index -> well_typed op values -> well_typed op (append_value index a values).
Proof.
  intros Hi Ha [Hl Ht]. split; [rewrite append_length; lia|]. intros i l E.
  pose proof (append_lookup index a values i) as Ev. rewrite E in Ev. simpl in Ev. subst l.
  apply Forall_app. split.
  - destruct (values !! i) as [l|] eqn:Ei; simpl; eauto.
  - destruct (Nat.eqb_spec i index) as [Ei|]; [rewrite Ei; by constructor|constructor].
Qed.

Lemma append_untag op index a values :
  (index < arity op)%nat ->
  untag op (append_value index a values) = alter (fun l => l ++ [anyValue a]) index (untag op values).
Proof.
  intros Hi. apply list_eq. intros i. unfold untag. destruct (decide (i < arity op)%nat) as [Hlt|Hge].
  - rewrite list_lookup_fmap, lookup_seq_lt by done. simpl. unfold input. rewrite append_lookup, fmap_app.
    destruct (Nat.eqb_spec i index) as [->|Hne].
    + by rewrite list_lookup_alter_eq, list_lookup_fmap, lookup_seq_lt.
    + rewrite list_lookup_alter_ne, list_lookup_fmap, lookup_seq_lt by done. simpl. by rewrite app_nil_r.
  - rewrite !lookup_ge_None_2; [done|rewrite length_alter, length_fmap, length_seq; lia|rewrite length_fmap, length_seq; lia].
Qed.

Lemma well_typed_nil op : well_typed op [].
Proof. split; [simpl; lia|]. intros i l. by rewrite lookup_nil. Qed.
Lemma well_typed_fresh op index : (index < arity op)%nat -> well_typed op (replicate (S index) []).
Proof.
  intros Hi. split; [rewrite length_replicate; lia|]. intros i l E. apply lookup_replicate in E as [-> _]. constructor.
Qed.

(** ** The simulation, event by event *)
Definition wf_event (op : Operator) (e : Event (K := K) (A := Any V)) : Prop :=
  match e with
  | EvJoin k index value cb => (index < arity op)%nat /\ anyType value = ty index /\ cb = joinFunction op k
  | EvExpire _ => True
  end.

(** The values of the storage and the windows of the specification. *)
Definition matches (op : Operator) (m : gmap K AnyValues) (w : gmap K (list (list V))) : Prop :=
  forall k, match m !! k with
            | Some vs => well_typed op vs /\ w !! k = Some (untag op vs)
            | None => w !! k = None
            end.

Lemma matches_default op m w k :
  matches op m w -> well_typed op (default [] (m !! k)) /\ default (empty_window op) (w !! k) = untag op (default [] (m !! k)).
Proof.
  intros Hm. specialize (Hm k). destruct (m !! k) as [vs|]; simpl.
  - destruct Hm as [Hw ->]. done.
  - rewrite Hm. split; [apply well_typed_nil|]. by rewrite untag_empty.
Qed.
Lemma matches_insert op m w k vs :
  matches op m w -> well_typed op vs -> matches op (<[k := vs]> m) (<[k := untag op vs]> w).
Proof.
  intros Hm Hw j. destruct (decide (k = j)) as [<-|Hne].
  - by rewrite !lookup_insert_eq.
  - rewrite !lookup_insert_ne by done. apply Hm.
Qed.
Lemma matches_delete op m w k : matches op m w -> matches op (delete k m) (delete k w).
Proof.
  intros Hm j. destruct (decide (k = j)) as [<-|Hne].
  - by rewrite !lookup_delete_eq.
  - rewrite !lookup_delete_ne by done. apply Hm.
Qed.

Definition typed_pair (op : Operator) (p : K * AnyValues) : K * option (list (list V)) := (p.1, typedValues op p.2).
Definition some_pair (p : K * list (list V)) : K * option (list (list V)) := (p.1, Some p.2).

Lemma calls_fold op l : foldl (calls_step op) (mkSpec ∅ [], []) l = (replay l, called op l).
Proof.
  rewrite (surjective_pairing (foldl _ _ l)). f_equal. unfold replay.
  change (mkSpec ∅ []) with (@fst (Spec (K := K) (A := Any V)) (list (K * list (list V))) (mkSpec ∅ [], [])) at 2.
  generalize (@mkSpec K (Any V) _ _ ∅ [], @nil (K * list (list V))) as s.
  induction l as [|e l IH]; intros s; simpl; [done|]. by rewrite IH.
Qed.

Lemma replay_matches op l :
  Forall (wf_event op) l ->
  matches op (joined (replay l)) (windows (window_replay op l)) /\
  called op l = calls (window_replay op l) /\
  typed_pair op <$> expirations (replay l) = some_pair <$> lapsed (window_replay op l).
Proof.
  induction l as [|e l IH] using rev_ind; intros Hl; [done|].
  apply Forall_app in Hl as [Hl He]. rewrite Forall_singleton in He. destruct (IH Hl) as (Hm & Hcalls & Hx). clear IH.
  assert (Hsnoc : called op (l ++ [e]) = (calls_step op (replay l, called op l) e).2).
  { unfold called at 1. by rewrite foldl_app, calls_fold. }
  rewrite Hsnoc, Hcalls, replay_snoc. unfold window_replay. rewrite foldl_app. fold (window_replay op l). simpl.
  destruct e as [k index value cb|k]; simpl.
  - destruct He as (Hi & Hty & ->). destruct (matches_default _ _ _ k Hm) as [Hw Ew].
    pose proof (append_typed _ _ _ _ Hi Hty Hw) as Hw'. rewrite Ew, <- append_untag by done.
    set (vs := append_value index value (default [] (joined (replay l) !! k))) in *.
    unfold call_of, joinFunction, callback. rewrite <- evaluates_admitted, typed_values by done.
    destruct (evaluates op vs); simpl.
    + split; [|done]. destruct (f k (untag op vs)); simpl; [by apply matches_delete|by apply matches_insert].
    + rewrite app_nil_r. split; [by apply matches_insert|done].
  - destruct (matches_default _ _ _ k Hm) as [Hw Ew]. rewrite app_nil_r. split; [by apply matches_delete|]. split; [done|].
    rewrite !fmap_app, Hx. simpl. unfold typed_pair at 1, some_pair at 2. simpl. by rewrite Ew, typed_values.
Qed.

(** ** The runs *)
Definition args_ok (op : Operator) (o : Op (K := K) (A := Any V)) : Prop :=
  (oindex o < arity op)%nat /\ anyType (ovalue o) = ty (oindex o) /\ ocallback o = joinFunction op (okey o).
Definition item_typed (op : Operator) (it : Item (K := K) (A := Any V)) : Prop :=
  well_typed op (values it) /\ onExpire it = joinFunction op (itemKey it).

Record typed_ok (op : Operator) (st : Storage (K := K) (A := Any V)) : Prop := {
  typed_ops t o : ops st !! t = Some o -> args_ok op o;
  typed_items i it : items st !! i = Some it -> item_typed op it;
  typed_history : Forall (wf_event op) (history st);
}.

Lemma typed_alter op (g : Item -> Item) (m : gmap nat (Item (K := K) (A := Any V))) i it :
  (forall j jt, m !! j = Some jt -> item_typed op jt) -> m !! i = Some it -> item_typed op (g it) ->
  forall j jt, alter g i m !! j = Some jt -> item_typed op jt.
Proof.
  intros Hm Hi Hg j jt Hj. apply lookup_alter_Some in Hj as [(<- & it' & Hi' & ->)|[_ Hj]]; [|eauto].
  by simplify_eq.
Qed.
Lemma typed_goto op (m : gmap nat (Op (K := K) (A := Any V))) (g : Op -> Op) t :
  (forall t o, m !! t = Some o -> args_ok op o) ->
  (forall o, oindex (g o) = oindex o /\ ovalue (g o) = ovalue o /\ ocallback (g o) = ocallback o /\ okey (g o) = okey o) ->
  forall t' o, alter g t m !! t' = Some o -> args_ok op o.
Proof.
  intros Hm Hg t' o Ho. apply lookup_alter_Some in Ho as [(<- & o' & Ho & ->)|[_ Ho]]; [|eauto].
  unfold args_ok. destruct (Hg o') as (-> & -> & -> & ->). by eapply Hm.
Qed.

(** Steps that keep the values, the keys and the expiry callbacks of the items. *)
Definition same_data (g : Item (K := K) (A := Any V) -> Item (K := K) (A := Any V)) : Prop :=
  forall it, values (g it) = values it /\ onExpire (g it) = onExpire it /\ itemKey (g it) = itemKey it.
Lemma typed_same op g (m : gmap nat (Item (K := K) (A := Any V))) i :
  (forall j jt, m !! j = Some jt -> item_typed op jt) -> same_data g ->
  forall j jt, alter g i m !! j = Some jt -> item_typed op jt.
Proof.
  intros Hm Hg j jt Hj. apply lookup_alter_Some in Hj as [(<- & it & Hi & ->)|[_ Hj]]; [|eauto].
  unfold item_typed. destruct (Hg it) as (-> & -> & ->). by apply (Hm _ _ Hi).
Qed.
Lemma same_register sources token : same_data (register sources token).
Proof. intros it. unfold register. by destruct (stop_requested sources token). Qed.

Local Ltac typed_fields Hi Ho :=
  simpl; autorewrite with join_fields;
  first [ done | by eapply typed_goto
        | eapply typed_same; [exact Hi|]; first [apply same_register | done]
        | case_bool_decide; [by eapply typed_goto || done..]
        | apply Forall_app; split; [done|apply Forall_singleton; by done || (eapply (Ho _); eassumption)] | idtac ].

(** The values as a callback leaves them. *)
Lemma appended_typed op o it b vs it' :
  args_ok op o -> item_typed op it -> ocallback o (append_value (oindex o) (ovalue o) (values it)) = (b, vs) ->
  values it' = vs -> onExpire it' = onExpire it -> itemKey it' = itemKey it -> item_typed op it'.
Proof.
  intros (Hi & Ht & Hc) [Hw Hx] E Ev Ee Ek. rewrite Hc in E. injection E as _ <-. unfold item_typed.
  rewrite Ev, Ee, Ek. split; [|done]. by apply append_typed.
Qed.
Lemma delivered_typed op it : item_typed op it -> item_typed op (set_values (onExpire it (values it)).2 it).
Proof. intros [Hw Hx]. unfold item_typed. simpl. by rewrite Hx. Qed.

Lemma typed_step op a st st' :
  locks_ok st -> feeds op a -> typed_ok op st -> perform a st = Some st' -> typed_ok op st'.
Proof.
  intros [Hlo Hlt _] Hf [Ho Hi Hh] Hp. destruct a; join_cases Hp; try op_facts Hlo; try task_facts Hlt;
    split; typed_fields Hi Ho.
  - intros t' o Hl. apply lookup_insert_Some in Hl as [[<- <-]|[_ Hl]]; [done|eauto].
  - intros i it Hl. apply lookup_insert_Some in Hl as [[<- <-]|[_ Hl]]; [|eauto]. destruct (Ho _ _ Heqo) as (? & _ & ?).
    split; [|done]. by apply (well_typed_fresh op (oindex o)).
  - eapply typed_alter; [exact Hi|eassumption|]. by eapply (appended_typed op o x); eauto.
  - eapply typed_alter; [exact Hi|eassumption|]. by eapply (appended_typed op o x); eauto.
  - eapply typed_alter; [exact Hi|eassumption|]. by eapply delivered_typed, Hi.
  - intros t' o' Hl. apply lookup_delete_Some in Hl as [_ Hl]. eauto.
  - eapply typed_alter; [exact Hi|eassumption|]. by eapply delivered_typed, Hi.
Qed.

Lemma fed_reachable op config st : fed op config st -> reachable config st.
Proof. intros Hr. eapply (rtc_subrel); [|exact Hr]. intros s s' (a & _ & Ha). by exists a. Qed.

Lemma fed_typed op config st : fed op config st -> typed_ok op st.
Proof.
  intros Hr. assert (Hinit : typed_ok op (initial config)) by (split; done || constructor).
  enough (Hall : inv st /\ typed_ok op st) by apply Hall.
  revert st Hr. apply (rtc_ind_r (fun st => inv st /\ typed_ok op st)).
  - split; [apply inv_initial|done].
  - intros s s' _ (a & Hf & Ha) [Hinv Ht]. split; [by eapply inv_step|].
    eapply typed_step; [apply Hinv|done..].
Qed.

(** Messages that come through the operator keep its storage [fed]. *)
Lemma consume_fed op config st t ctx key index value st' r :
  fed op config st -> (index < arity op)%nat ->
  consumeValue op (Some st) t ctx key index value = Some (Some st', r) -> fed op config st'.
Proof.
  intros Hf Hi E. eapply rtc_r; [exact Hf|].
  exists (DoJoin t ctx key index (mkAny (ty index) value) (joinFunction op key)). split; [done|].
  unfold consumeValue in E. simpl. destruct (joinValue _ _ _ _ _ _ st) as [[st1 [[]|e]]|]; by simplify_eq.
Qed.

(** C15.  Refinement: for every key the storage of a join operator holds, once cast back to
    the types of the inputs, exactly the window of the key: the values of each input since
    it was last completed or expired, in the order of the joins.  The user's function was
    called by the joins with exactly the windows that the kind of join admits ([admitted]: both
    inputs for an inner join, the left one for a left join, the right one for a right join, any
    window for an outer join, the first input for a multi-join), and what expired, delivered or
    about to be, are windows. *)
Theorem join_operator_refines op config st :
  fed op config st ->
  (state_ st <> kStopped -> forall k, typedValues op <$> live st k = Some <$> windows (window_replay op (history st)) !! k) /\
  called op (history st) = calls (window_replay op (history st)) /\
  typed_pair op <$> (delivered st ++ pending st) ≡ₚ some_pair <$> lapsed (window_replay op (history st)).
Proof.
  intros Hf. pose proof (fed_reachable _ _ _ Hf) as Hr. pose proof (fed_typed _ _ _ Hf) as Ht.
  destruct (reachable_represented _ _ Hr) as [Hrep Hacc].
  destruct (replay_matches op (history st) (typed_history _ _ Ht)) as (Hm & Hcalls & Hx).
  split; [|split; [done|]].
  - intros Hs k. assert (Hsr : stopper st <> SReturned).
    { intros E. pose proof (control_state _ (inv_control _ (join_reachable_inv _ _ Hr))) as Hc. by rewrite E in Hc. }
    rewrite <- (Hrep Hsr k). specialize (Hm k). destruct (joined (replay (history st)) !! k) as [vs|]; simpl.
    + destruct Hm as [Hw ->]. simpl. by rewrite typed_values.
    + by rewrite Hm.
  - rewrite <- Hx. apply fmap_Permutation. symmetry. exact Hacc.
Qed.

(** Type safety of the erased values: whenever the storage of a join operator runs a
    callback, for a join under way or for an expiry, that callback is the operator's and
    none of its casts throws. *)
Theorem join_operator_typed op config st :
  fed op config st ->
  (forall t o i it, ops st !! t = Some o -> pc o = JAppend i -> items st !! i = Some it ->
     ocallback o = joinFunction op (okey o) /\
     is_Some (callback op (okey o) (append_value (oindex o) (ovalue o) (values it)))) /\
  (forall i it, items st !! i = Some it ->
     onExpire it = joinFunction op (itemKey it) /\ is_Some (callback op (itemKey it) (values it))).
Proof.
  intros Hf. pose proof (fed_typed _ _ _ Hf) as [Ho Hi _].
  assert (Hcb : forall k vs, well_typed op vs -> is_Some (callback op k vs)).
  { intros k vs Hw. unfold callback. destruct (evaluates op vs); [|by eexists]. rewrite typed_values by done. by eexists. }
  split.
  - intros t o i it Hl _ Hit. destruct (Ho _ _ Hl) as (H1 & H2 & H3). split; [done|]. apply Hcb, append_typed; [done|done|].
    by apply (Hi _ _ Hit).
  - intros i it Hit. destruct (Hi _ _ Hit) as [Hw He]. split; [done|by apply Hcb].
Qed.
End Operator.

(** ** A concrete inner join *)
Section Example.
Local Abbreviation action := (Action (K := nat) (A := Any nat)).
Definition side (i : nat) : nat := i.
(** The user's function completes the key once it has two values of the second input. *)
Definition two_rights (k : nat) (w : list (list nat)) : bool := (2 <=? length (default [] (w !! 1%nat)))%nat.
Definition inner : Operator := JoinOp Inner.
Definition plain_config : JoinStorageConfig := mkConfig 0 false.
Definition send (t index value : nat) : action :=
  DoJoin t defaultContext 7%nat index (mkAny (side index) value) (joinFunction side two_rights inner 7%nat).
(** A left and a right value of key 7. *)
Definition pair_run : list action :=
  [DoStart true; send 0 0 100] ++ replicate 6 (DoOp 0 0 true) ++ [send 1 1 200] ++ replicate 5 (DoOp 1 0 true).
Definition joined_pair : Storage (K := nat) (A := Any nat) :=
  default (initial plain_config) (run pair_run (initial plain_config)).

Lemma run_fed {K V} `{Countable K} ty f op (l : list (Action (K := K) (A := Any V))) :
  Forall (feeds ty f op) l -> forall st st' config, fed ty f op config st -> run l st = Some st' -> fed ty f op config st'.
Proof.
  induction 1 as [|a l Ha _ IH]; intros st st' config Hf Hr; simpl in Hr; [by injection Hr as <-|].
  apply bind_Some in Hr as (st1 & Hp & Hr). eapply IH; [|exact Hr]. eapply rtc_r; [exact Hf|]. by exists a.
Qed.
Lemma joined_pair_fed : fed side two_rights inner plain_config joined_pair.
Proof.
  eapply (run_fed side two_rights inner pair_run) with (st := initial plain_config).
  - repeat constructor.
  - constructor.
  - vm_compute. reflexivity.
Qed.

Lemma join_operator_refines_witness :
  called side inner (history joined_pair) = calls (window_replay two_rights inner (history joined_pair)) /\
  calls (window_replay two_rights inner (history joined_pair)) = [(7%nat, [[100%nat]; [200%nat]])].
Proof.
  split; [|vm_compute; reflexivity].
  destruct (join_operator_refines side two_rights inner plain_config joined_pair joined_pair_fed) as (_ & E & _). exact E.
Defined.

Lemma join_operator_typed_witness :
  is_Some (callback side two_rights inner 7%nat [[mkAny 0 100%nat]; [mkAny 1 200%nat]]) /\
  (values <$> (items joined_pair !! 0%nat)) = Some [[mkAny 0 100%nat]; [mkAny 1 200%nat]].
Proof.
  assert (E : (fun it => (itemKey it, values it)) <$> (items joined_pair !! 0%nat) =
    Some (7%nat, [[mkAny 0 100%nat]; [mkAny 1 200%nat]])) by (vm_compute; reflexivity).
  destruct (join_operator_typed side two_rights inner plain_config joined_pair joined_pair_fed) as [_ Hc].
  destruct (items joined_pair !! 0%nat) as [it|] eqn:Hi; [|discriminate E]. injection E as Ek Ev.
  destruct (Hc _ _ Hi) as [_ Hs]. rewrite Ek, Ev in Hs. split; [exact Hs|]. simpl. by rewrite Ev.
Defined.
End Example.
End Operators.
