(* ===== verification/Monitor.v ===== *)
(** * Threads that share a mutex and a condition variable

    The coroutine mutex and condition variable of the runtime with the wait of
    runtime/detail/context_wait.hpp on top of them, for any number of threads that run the
    code of a client.  A client gives its shared fields, its program counters and one atomic
    action per step; which thread holds the mutex follows from the program counters.
    [WaitWithContext] is a machine of its own: the predicate is evaluated with the mutex
    held, and only the step after that enqueues the thread and releases the mutex, so that
    a notification in between is lost on the thread.

    [Exclusive] and [Notifies] are what a client promises: that it takes and releases the
    mutex properly, and that what makes the predicate true is done with the mutex held and
    followed by a notification.  A client that keeps both never loses a wakeup. *)
From Stdlib Require Import Lia.
From S2P Require Import Prelude.

Module Monitor.

Inductive WPc := WReady | WEval | WEnqueue | WSleep | WWake | WUnlock | WRelock | WFinal.
#[export] Instance WPc_eq_dec : EqDecision WPc.
Proof. solve_decision. Defined.
Definition wait_locked (w : WPc) : bool :=
  match w with WReady | WEval | WEnqueue | WUnlock | WFinal => true | _ => false end.

Inductive Effect (Sh Pc : Type) :=
  | Do (s : Sh) (p : Pc)
  | Lock (p : Pc)
  | Unlock (p : Pc)
  | NotifyAll (p : Pc)
  | WaitFor (subscribed cancelled : bool).
Arguments Do {Sh Pc}. Arguments Lock {Sh Pc}. Arguments Unlock {Sh Pc}.
Arguments NotifyAll {Sh Pc}. Arguments WaitFor {Sh Pc}.

Record Client := mkClient {
  Sh : Type;
  Pc : Type;
  Choice : Type;
  act : Choice -> Sh -> Pc -> option (Effect Sh Pc);
  locked : Pc -> bool;
  ready : Sh -> bool;
  after : bool -> Pc;
}.

Section Machine.
Context (C : Client).

Inductive Thread :=
  | Run (p : Pc C)
  | Waiting (w : WPc) (subscribed cancelled : bool).
Record State := mkState {
  shared : Sh C;
  threads : list Thread;
}.
Implicit Types (g : State) (thr : Thread).

Definition holds thr : bool := match thr with Run p => locked C p | Waiting w _ _ => wait_locked w end.
Definition asleep thr : bool := match thr with Waiting WSleep _ _ => true | _ => false end.
Definition free g : bool := negb (existsb holds (threads g)).
Definition put (t : nat) thr g : State := mkState (shared g) (<[t := thr]> (threads g)).

Definition wake thr : Thread := match thr with Waiting WSleep s c => Waiting WWake s c | _ => thr end.
Definition wake_all g : State := mkState (shared g) (wake <$> threads g).

(** One step of [WaitWithContext]: [subscribed] when the context has stop tokens, whose
    notifier is joined with the mutex released. *)
Definition wait_step (t : nat) (w : WPc) (sub canc : bool) g : option State :=
  let rdy := ready C (shared g) in
  let go w := Some (put t (Waiting w sub canc) g) in
  match w with
  | WReady => if rdy then Some (put t (Run (after C true)) g)
              else if canc then Some (put t (Run (after C false)) g) else go WEval
  | WEval => if rdy || canc then go (if sub then WUnlock else WFinal) else go WEnqueue
  | WEnqueue => go WSleep
  | WSleep => None
  | WWake => if free g then go WEval else None
  | WUnlock => go WRelock
  | WRelock => if free g then go WFinal else None
  | WFinal => Some (put t (Run (after C rdy)) g)
  end.

Definition effect (t : nat) (e : Effect (Sh C) (Pc C)) g : option State :=
  match e with
  | Do s p => Some (put t (Run p) (mkState s (threads g)))
  | Lock p => if free g then Some (put t (Run p) g) else None
  | Unlock p => Some (put t (Run p) g)
  | NotifyAll p => Some (put t (Run p) (wake_all g))
  | WaitFor sub canc => Some (put t (Waiting WReady sub canc) g)
  end.

(** [Wake]: the deadline of a sleeping thread passes, or it wakes for no reason.  [Cancel]:
    its context is cancelled.  [Notifier]: the task that its subscription wakes takes the
    mutex and notifies. *)
Inductive Action :=
  | Act (t : nat) (c : Choice C)
  | Go (t : nat)
  | Wake (t : nat)
  | Cancel (t : nat)
  | Notifier (t : nat).

Definition perform (a : Action) g : option State :=
  match a with
  | Act t c =>
      match threads g !! t with
      | Some (Run p) => e ← act C c (shared g) p; effect t e g
      | _ => None
      end
  | Go t => match threads g !! t with Some (Waiting w sub canc) => wait_step t w sub canc g | _ => None end
  | Wake t =>
      match threads g !! t with
      | Some (Waiting WSleep sub canc) => Some (put t (Waiting WWake sub canc) g)
      | _ => None
      end
  | Cancel t => match threads g !! t with Some (Waiting w sub _) => Some (put t (Waiting w sub true) g) | _ => None end
  | Notifier t =>
      match threads g !! t with
      | Some (Waiting _ true true) => if free g then Some (wake_all g) else None
      | _ => None
      end
  end.

Definition step g g' : Prop := exists a, perform a g = Some g'.
Definition boot (s : Sh C) (ps : list (Pc C)) : State := mkState s (Run <$> ps).

Fixpoint run (acts : list Action) g : option State :=
  match acts with
  | [] => Some g
  | a :: acts => g ← perform a g; run acts g
  end.
End Machine.

Arguments Run {C}. Arguments Waiting {C}. Arguments shared {C}. Arguments threads {C}. Arguments mkState {C}.
Arguments holds {C}. Arguments asleep {C}. Arguments free {C}. Arguments put {C}. Arguments wake {C}. Arguments wake_all {C}.
Arguments wait_step {C}. Arguments effect {C}. Arguments perform {C}. Arguments step {C}. Arguments boot {C}. Arguments run {C}.
Arguments Act {C}. Arguments Go {C}. Arguments Wake {C}. Arguments Cancel {C}. Arguments Notifier {C}.

(** ** What a client promises *)
Definition notifying {C : Client} (p : Pc C) : Prop :=
  forall c s, exists p', act C c s p = Some (NotifyAll p').

Class Exclusive (C : Client) : Prop := {
  law_after b : locked C (after C b) = true;
  law_do c s p s' p' : act C c s p = Some (Do s' p') -> locked C p' = locked C p;
  law_lock c s p p' : act C c s p = Some (Lock p') -> locked C p = false /\ locked C p' = true;
  law_unlock c s p p' : act C c s p = Some (Unlock p') -> locked C p = true /\ locked C p' = false;
  law_notify c s p p' : act C c s p = Some (NotifyAll p') -> locked C p' = locked C p;
  law_wait c s p sub canc : act C c s p = Some (WaitFor sub canc) -> locked C p = true;
}.

(** [Inv] is the client's own invariant. *)
Class Notifies (C : Client) (g0 : State C) (Inv : State C -> Prop) : Prop := {
  law_boot : forall thr, thr ∈ threads g0 -> exists p, thr = Run p /\ locked C p = false;
  law_inv g : rtc step g0 g -> Inv g;
  law_ready g t p c s' p' :
    Inv g -> threads g !! t = Some (Run p) -> act C c (shared g) p = Some (Do s' p') ->
    ready C (shared g) = false -> ready C s' = true ->
    locked C p = true /\ (notifying p' \/ forall thr, thr ∈ threads g -> asleep thr = false);
}.

(** ** Counting threads *)
Section Counting.
Context {A : Type}.
Definition tallied (P : A -> bool) (l : list A) : Z := Z.of_nat (length (filter (fun x => P x = true) l)).

Lemma tallied_cons P x (l : list A) : tallied P (x :: l) = (Z.b2z (P x) + tallied P l)%Z.
Proof. unfold tallied. rewrite filter_cons. destruct (P x); simpl; lia. Qed.
Lemma tallied_insert P (l : list A) t x y :
  l !! t = Some x -> tallied P (<[t := y]> l) = (tallied P l - Z.b2z (P x) + Z.b2z (P y))%Z.
Proof.
  revert t. induction l as [|z l IH]; intros [|t] Hx; simpl in *; try done.
  - injection Hx as ->. rewrite !tallied_cons. lia.
  - rewrite !tallied_cons, (IH _ Hx). lia.
Qed.
Lemma tallied_map P (f : A -> A) (l : list A) : (forall x, P (f x) = P x) -> tallied P (f <$> l) = tallied P l.
Proof. intros Hf. induction l as [|x l IH]; [done|]. by rewrite fmap_cons, !tallied_cons, IH, Hf. Qed.
Lemma tallied_le P (l : list A) : (0 <= tallied P l <= Z.of_nat (length l))%Z.
Proof. unfold tallied. pose proof (length_filter (fun x => P x = true) l). lia. Qed.
Lemma tallied_pos P (l : list A) : (1 <= tallied P l)%Z <-> exists t x, l !! t = Some x /\ P x = true.
Proof.
  induction l as [|y l IH]; simpl.
  { split; [|by intros (t & x & ? & _)]. unfold tallied. simpl. lia. }
  rewrite tallied_cons. pose proof (tallied_le P l). split.
  - destruct (P y) eqn:Hy; [intros _; by exists 0%nat, y|]. simpl. intros H1.
    destruct IH as [IH _]. destruct (IH ltac:(lia)) as (t & x & ? & ?). by exists (S t), x.
  - intros ([|t] & x & Hx & Hp); simpl in Hx; [injection Hx as ->; rewrite Hp; simpl; lia|].
    destruct IH as [_ IH]. specialize (IH ltac:(by exists t, x)). destruct (P y); simpl; lia.
Qed.
Lemma tallied_zero P (l : list A) t x : tallied P l = 0%Z -> l !! t = Some x -> P x = false.
Proof.
  intros H0 Hx. destruct (P x) eqn:Hp; [|done].
  assert (1 <= tallied P l)%Z by (apply tallied_pos; eauto). lia.
Qed.
End Counting.

(** ** Mutual exclusion and wakeups *)
Section Promises.
Context (C : Client) `{!Exclusive C}.
Implicit Types (g : State C) (thr : Thread C).

(** Who holds the mutex. *)
Definition holder g (t : nat) : Prop := exists thr, threads g !! t = Some thr /\ holds thr = true.
Definition exclusive g : Prop := forall t t', holder g t -> holder g t' -> t = t'.

Lemma free_spec g : free g = true <-> forall t, ~ holder g t.
Proof.
  unfold free. rewrite negb_true_iff. split.
  - intros E t (thr & Ht & Hh). apply not_true_iff_false in E. apply E, existsb_exists.
    exists thr. split; [|done]. apply list_elem_of_In. by eapply list_elem_of_lookup_2.
  - intros Hn. apply not_true_iff_false. intros (thr & Hin & Hh)%existsb_exists.
    apply list_elem_of_In, list_elem_of_lookup_1 in Hin as [t Ht]. apply (Hn t). by exists thr.
Qed.
Lemma holds_wake thr : holds (wake thr) = holds thr.
Proof. by destruct thr as [|[]]. Qed.
Lemma holder_wake g t : holder (wake_all g) t <-> holder g t.
Proof.
  unfold holder. simpl. rewrite list_lookup_fmap. destruct (threads g !! t) as [thr|] eqn:Ht; simpl.
  - split; intros (? & [= <-] & Hh); eexists; (split; [done|]); by rewrite holds_wake in *.
  - split; by intros (? & ? & _).
Qed.

Lemma lookup_put g t thr x t' :
  threads g !! t = Some x -> threads (put t thr g) !! t' = if decide (t = t') then Some thr else threads g !! t'.
Proof.
  intros Hx. simpl. destruct (decide (t = t')) as [<-|Hne]; [|by rewrite list_lookup_insert_ne].
  rewrite list_lookup_insert_eq; [done|]. by eapply lookup_lt_Some.
Qed.
Lemma holder_put g t thr x t' :
  threads g !! t = Some x -> holder (put t thr g) t' <-> (if decide (t = t') then holds thr = true else holder g t').
Proof.
  intros Hx. unfold holder. rewrite (lookup_put _ _ _ _ _ Hx). destruct (decide (t = t')); [|done].
  split; [by intros (? & [= <-] & ?)|by eexists].
Qed.

(** A thread may hold the mutex after its step when it held it before, or when it was free. *)
Lemma exclusive_put g t thr x :
  exclusive g -> threads g !! t = Some x -> (holds thr = true -> holds x = true \/ free g = true) ->
  exclusive (put t thr g).
Proof.
  intros He Hx Hh t1 t2. rewrite !(holder_put _ _ _ _ _ Hx).
  assert (Hno : holds thr = true -> forall t', t <> t' -> ~ holder g t').
  { intros Ht t' Hne Hho. destruct (Hh Ht) as [Hx'|Hf].
    - apply Hne, He; [by exists x|done].
    - by apply (proj1 (free_spec g) Hf t'). }
  destruct (decide (t = t1)) as [E1|E1], (decide (t = t2)) as [E2|E2]; intros H1 H2; [congruence| | |by apply He].
  - exfalso. by apply (Hno H1 t2).
  - exfalso. by apply (Hno H2 t1).
Qed.
Lemma lookup_wake g t thr : threads (wake_all g) !! t = Some thr -> exists x, threads g !! t = Some x /\ thr = wake x.
Proof. simpl. rewrite list_lookup_fmap. destruct (threads g !! t) as [x|]; simpl; [|done]. intros [= <-]. eauto. Qed.
Lemma put_same g t thr : put t thr g = put t thr (mkState (shared g) (threads g)).
Proof. by destruct g. Qed.
Lemma exclusive_wake g : exclusive g -> exclusive (wake_all g).
Proof. intros He t t'. rewrite !holder_wake. apply He. Qed.

(** Every step of a thread is a change of its own state, with the mutex free when it takes
    it, of the shared fields, and a notification. *)
Lemma step_shape g g' :
  step g g' ->
  exists t x thr, threads g !! t = Some x /\ (holds thr = true -> holds x = true \/ free g = true) /\
    (g' = put t thr g \/ g' = put t thr (wake_all g) \/ g' = wake_all g \/
     exists c p s' p', x = Run p /\ thr = Run p' /\ act C c (shared g) p = Some (Do s' p') /\
       g' = put t (Run p') (mkState s' (threads g))).
Proof.
  intros [a Ha]. destruct a as [t c|t|t|t|t]; simpl in Ha; destruct (threads g !! t) as [[p|w sub canc]|] eqn:Ht; try done.
  - apply bind_Some in Ha as (e & He & Ha). exists t, (Run p).
    destruct e as [s' p'|p'|p'|p'|sub canc]; simpl in Ha.
    + injection Ha as <-. exists (Run p'). split; [done|]. simpl. rewrite (law_do _ _ _ _ _ He).
      split; [auto|]. right; right; right. by exists c, p, s', p'.
    + destruct (free g) eqn:Hf; [|done]. injection Ha as <-. exists (Run p'). split; [done|]. split; auto.
    + injection Ha as <-. exists (Run p'). split; [done|]. simpl. destruct (law_unlock _ _ _ _ He) as [-> _].
      split; auto.
    + injection Ha as <-. exists (Run p'). split; [done|]. simpl. rewrite (law_notify _ _ _ _ He). split; auto.
    + injection Ha as <-. exists (Waiting WReady sub canc). split; [done|]. simpl.
      rewrite (law_wait _ _ _ _ _ He). split; auto.
  - exists t, (Waiting w sub canc). unfold wait_step in Ha.
    destruct w; try done; repeat (case_match; try done); injection Ha as <-;
      (eexists; split; [done|]; split; [|by left]); simpl; auto.
  - destruct w; try done. injection Ha as <-. exists t, (Waiting WSleep sub canc), (Waiting WWake sub canc).
    split; [done|]. split; auto.
  - injection Ha as <-. exists t, (Waiting w sub canc), (Waiting w sub true). split; [done|]. split; auto.
  - destruct sub, canc; try done. destruct (free g) eqn:Hf; [|done]. injection Ha as <-.
    exists t, (Waiting w true true), (Waiting w true true). split; [done|]. split; auto.
Qed.

Lemma exclusive_step g g' : exclusive g -> step g g' -> exclusive g'.
Proof.
  intros He (t & x & thr & Hx & Hh & [->|[->|[->|(c & p & s' & p' & -> & -> & Hact & ->)]]])%step_shape.
  - by eapply exclusive_put.
  - eapply (exclusive_put _ _ _ (wake x)); [by apply exclusive_wake| |].
    + simpl. by rewrite list_lookup_fmap, Hx.
    + intros Ht. rewrite holds_wake. destruct (Hh Ht) as [?|Hf]; [by left|right].
      apply free_spec. intros t'. rewrite holder_wake. by apply free_spec.
  - by apply exclusive_wake.
  - by eapply (exclusive_put (mkState s' (threads g)) _ _ (Run p)).
Qed.

(** Whoever sleeps although the predicate holds has a notification coming. *)
Record wakes g : Prop := {
  wakes_exclusive : exclusive g;
  wakes_enqueue t sub canc : threads g !! t = Some (Waiting WEnqueue sub canc) -> ready C (shared g) = false;
  wakes_sleep t thr : threads g !! t = Some thr -> asleep thr = true -> ready C (shared g) = true ->
    exists t' p, threads g !! t' = Some (Run p) /\ notifying p /\ locked C p = true;
}.

Definition waits_on thr : bool := match thr with Waiting WEnqueue _ _ | Waiting WSleep _ _ => true | _ => false end.

Lemma wakes_put g t x thr :
  wakes g -> exclusive (put t thr g) -> threads g !! t = Some x ->
  (waits_on thr = true -> ready C (shared g) = false \/ (asleep x = true /\ asleep thr = true)) ->
  (forall p, x = Run p -> ~ notifying p) -> wakes (put t thr g).
Proof.
  intros [_ Henq Hsl] Hex Hx Hthr Hn. split; [done|..].
  - intros t' sub canc. rewrite (lookup_put _ _ _ _ _ Hx). destruct (decide (t = t')); [|apply Henq].
    intros [= ->]. by destruct (Hthr eq_refl) as [?|[_ ?]].
  - intros t' thr'. rewrite (lookup_put _ _ _ _ _ Hx). intros Ht' Has Hr.
    assert (Hold : exists t1 p, threads g !! t1 = Some (Run p) /\ notifying p /\ locked C p = true).
    { destruct (decide (t = t')) as [->|]; [|by eapply Hsl]. injection Ht' as ->. simpl in Hr.
      destruct Hthr as [E|[Hax _]]; [by destruct thr' as [|[]]|congruence|by eapply Hsl]. }
    destruct Hold as (t1 & p & Ht1 & Hnp & Hl). exists t1, p. rewrite (lookup_put _ _ _ _ _ Hx).
    destruct (decide (t = t1)) as [->|]; [|done]. exfalso. apply (Hn p); [congruence|done].
Qed.

Lemma asleep_wake thr : asleep (wake thr) = false.
Proof. by destruct thr as [|[]]. Qed.
Lemma wakes_all g : wakes g -> wakes (wake_all g).
Proof.
  intros [Hex Henq Hsl]. split; [by apply exclusive_wake|..].
  - intros t sub canc. simpl. rewrite list_lookup_fmap. destruct (threads g !! t) as [[p|w s c]|] eqn:Ht; simpl; try done.
    destruct w; try done. intros _. by eapply Henq.
  - intros t thr. simpl. rewrite list_lookup_fmap. destruct (threads g !! t) as [x|]; simpl; [|done].
    intros [= <-]. by rewrite asleep_wake.
Qed.
(** After a notification nobody sleeps. *)
Lemma wakes_notify g t x p :
  wakes g -> exclusive (put t (Run p) (wake_all g)) -> threads g !! t = Some x -> wakes (put t (Run p) (wake_all g)).
Proof.
  intros Hw Hex Hx. pose proof (wakes_all _ Hw) as [_ Henq Hsl]. split; [done|..].
  - intros t' sub canc. erewrite lookup_put; [|simpl; by rewrite list_lookup_fmap, Hx].
    destruct (decide (t = t')); [done|apply Henq].
  - intros t' thr. erewrite lookup_put; [|simpl; by rewrite list_lookup_fmap, Hx].
    destruct (decide (t = t')); [by intros [= <-]|]. simpl. rewrite list_lookup_fmap.
    destruct (threads g !! t') as [y|]; simpl; [|done]. intros [= <-]. by rewrite asleep_wake.
Qed.

Context (g0 : State C) (Inv : State C -> Prop) `{!Notifies C g0 Inv}.

Lemma wakes_do g t p c s' p' :
  wakes g -> Inv g -> threads g !! t = Some (Run p) -> act C c (shared g) p = Some (Do s' p') ->
  exclusive (put t (Run p') (mkState s' (threads g))) -> wakes (put t (Run p') (mkState s' (threads g))).
Proof.
  intros [Hex Henq Hsl] Hinv Ht Hact Hex'.
  assert (Hlaw : ready C (shared g) = false -> ready C s' = true ->
    locked C p = true /\ (notifying p' \/ forall thr, thr ∈ threads g -> asleep thr = false)) by (by eapply law_ready).
  assert (Hne : ~ notifying p) by (intros Hn; destruct (Hn c (shared g)); congruence).
  split; [done|..].
  - intros t' sub canc. erewrite lookup_put by exact Ht. destruct (decide (t = t')) as [->|Hd]; [done|].
    simpl. intros Ht'. pose proof (Henq _ _ _ Ht') as Hr. destruct (ready C s') eqn:Hr'; [|done].
    destruct (Hlaw Hr eq_refl) as [Hl _]. exfalso. apply Hd, Hex; [by exists (Run p)|by eexists].
  - intros t' thr. erewrite lookup_put by exact Ht. intros Ht' Has. simpl. intros Hr'.
    destruct (decide (t = t')) as [->|Hd]; [by injection Ht' as <-|]. simpl in Ht'.
    destruct (ready C (shared g)) eqn:Hr.
    + destruct (Hsl _ _ Ht' Has eq_refl) as (t1 & p1 & Ht1 & Hn1 & Hl1). exists t1, p1.
      rewrite list_lookup_insert_ne; [done|]. intros ->. rewrite Ht in Ht1. by injection Ht1 as <-.
    + destruct (Hlaw eq_refl Hr') as [Hl [Hn|Hno]].
      * exists t, p'. rewrite list_lookup_insert_eq by (by eapply lookup_lt_Some). split; [done|]. split; [done|].
        by rewrite (law_do _ _ _ _ _ Hact).
      * rewrite (Hno thr) in Has; [done|]. by eapply list_elem_of_lookup_2.
Qed.

Lemma wakes_step g g' : wakes g -> Inv g -> step g g' -> wakes g'.
Proof.
  intros Hw Hinv Hs. pose proof (exclusive_step _ _ (wakes_exclusive _ Hw) Hs) as Hex. destruct Hs as [a Ha].
  destruct a as [t c|t|t|t|t]; simpl in Ha; destruct (threads g !! t) as [[p|w sub canc]|] eqn:Ht; try done.
  - apply bind_Some in Ha as (e & He & Ha).
    assert (Hput : forall thr, g' = put t thr g -> waits_on thr = false -> (forall p', e <> NotifyAll p') -> wakes g').
    { intros thr -> Hq Hne. eapply wakes_put; [done|done|exact Ht|congruence|]. intros q [= <-] Hn.
      destruct (Hn c (shared g)) as [p' E]. rewrite He in E. injection E as ->. by apply (Hne p'). }
    destruct e; simpl in Ha; try (destruct (free g); [|done]); injection Ha as <-; try (by eapply Hput).
    + by eapply wakes_do.
    + by eapply wakes_notify.
  - assert (Hput : forall thr, Some (put t thr g) = Some g' -> (waits_on thr = true -> ready C (shared g) = false) -> wakes g').
    { intros thr [= <-] Hq. eapply wakes_put; [done|done|exact Ht|auto|done]. }
    pose proof (wakes_enqueue _ Hw t sub canc) as Henq. unfold wait_step in Ha.
    destruct w; try done; repeat (case_match; try done); try (by eapply Hput); apply (Hput _ Ha); simpl; intros; auto.
    bool_to_prop. done.
  - destruct w; try done. injection Ha as <-. by eapply wakes_put.
  - injection Ha as <-. eapply wakes_put; [done|done|exact Ht| |done]. simpl. intros Hq.
    destruct w; try done; [left; by eapply wakes_enqueue|by right].
  - destruct sub, canc; try done. destruct (free g); [|done]. injection Ha as <-. by apply wakes_all.
Qed.

Lemma wakes_boot : wakes g0.
Proof.
  assert (Hb : forall t thr, threads g0 !! t = Some thr -> exists p, thr = Run p /\ locked C p = false).
  { intros t thr Ht. apply (law_boot (Inv := Inv)). by eapply list_elem_of_lookup_2. }
  split.
  - intros t t' (thr & Ht & Hh). destruct (Hb _ _ Ht) as (p & -> & Hp). simpl in Hh. congruence.
  - intros t sub canc Ht. destruct (Hb _ _ Ht) as (p & ? & _). done.
  - intros t thr Ht Has. destruct (Hb _ _ Ht) as (p & -> & _). done.
Qed.
Lemma wakes_reachable g : rtc step g0 g -> wakes g.
Proof.
  revert g. apply (rtc_ind_r wakes); [apply wakes_boot|]. intros g1 g2 Hr Hs Hw.
  eapply wakes_step; [done| |done]. by apply law_inv.
Qed.

(** [t] alone takes [k] steps. *)
Fixpoint solo (k t : nat) g : option (State C) :=
  match k with O => Some g | S k => g ← perform (Go t) g; solo k t g end.

Lemma put_put g t thr thr' : put t thr' (put t thr g) = put t thr' g.
Proof. unfold put. simpl. by rewrite list_insert_insert_eq. Qed.
Lemma perform_go g t w sub canc x :
  threads g !! t = Some x ->
  perform (Go t) (put t (Waiting w sub canc) g) = wait_step t w sub canc (put t (Waiting w sub canc) g).
Proof. intros Hx. simpl. by rewrite list_lookup_insert_eq by (by eapply lookup_lt_Some). Qed.
Lemma free_put g t thr x :
  threads g !! t = Some x -> (forall t', holder g t' -> t' = t) -> holds thr = false -> free (put t thr g) = true.
Proof.
  intros Hx Ho Hh. apply free_spec. intros t'. rewrite (holder_put _ _ _ _ _ Hx).
  destruct (decide (t = t')); [congruence|]. intros Ht'. by apply Ho in Ht' as ->.
Qed.

(** From each program counter of the wait but sleep, with the predicate true. *)
Lemma solo_wait g t w sub canc x :
  threads g !! t = Some x -> (forall t', holder g t' -> t' = t) -> ready C (shared g) = true -> waits_on (Waiting (C := C) w sub canc) = false ->
  exists k, solo k t (put t (Waiting w sub canc) g) = Some (put t (Run (after C true)) g).
Proof.
  intros Hx Ho Hr Hw.
  assert (HF : forall w', wait_locked w' = false -> free (put t (Waiting w' sub canc) g) = true) by (intros; by eapply free_put).
  assert (H1 : solo 1 t (put t (Waiting WFinal sub canc) g) = Some (put t (Run (after C true)) g)).
  { unfold solo. rewrite (perform_go _ _ _ _ _ _ Hx). simpl. by rewrite Hr, put_put. }
  assert (Hgo : forall w1 w2 k, wait_step t w1 sub canc (put t (Waiting w1 sub canc) g) = Some (put t (Waiting w2 sub canc) g) ->
     solo k t (put t (Waiting w2 sub canc) g) = Some (put t (Run (after C true)) g) ->
     solo (S k) t (put t (Waiting w1 sub canc) g) = Some (put t (Run (after C true)) g)).
  { intros w1 w2 k E Hk. cbn [solo]. rewrite (perform_go _ _ _ _ _ _ Hx), E. exact Hk. }
  assert (H2 : solo 2 t (put t (Waiting WRelock sub canc) g) = Some (put t (Run (after C true)) g)).
  { apply (Hgo _ WFinal); [|done]. unfold wait_step. rewrite HF by done. by rewrite put_put. }
  assert (H3 : solo 3 t (put t (Waiting WUnlock sub canc) g) = Some (put t (Run (after C true)) g)).
  { apply (Hgo _ WRelock); [|done]. unfold wait_step. by rewrite put_put. }
  assert (HE : exists k, solo k t (put t (Waiting WEval sub canc) g) = Some (put t (Run (after C true)) g)).
  { destruct sub eqn:Es; [exists 4%nat; apply (Hgo _ WUnlock)|exists 2%nat; apply (Hgo _ WFinal)]; try done;
      unfold wait_step; simpl; by rewrite Hr, put_put. }
  destruct w; try done; eauto.
  - exists 1%nat. unfold solo. rewrite (perform_go _ _ _ _ _ _ Hx). unfold wait_step. simpl. by rewrite Hr, put_put.
  - destruct HE as [k HE]. exists (S k). apply (Hgo _ WEval); [|done]. unfold wait_step. rewrite HF by done. by rewrite put_put.
Qed.

(** A wait whose predicate holds, with the mutex in nobody else's hands, returns true on its
    own: it does not sleep. *)
Lemma wait_completes g t w sub canc :
  rtc step g0 g -> threads g !! t = Some (Waiting w sub canc) -> ready C (shared g) = true ->
  (forall t', holder g t' -> t' = t) ->
  exists k, solo k t g = Some (put t (Run (after C true)) g).
Proof.
  intros Hr%wakes_reachable Ht Hready Ho.
  assert (Eg : put t (Waiting w sub canc) g = g).
  { unfold put. rewrite list_insert_id by done. by destruct g. }
  destruct (solo_wait g t w sub canc _ Ht Ho Hready) as [k Hk]; [|exists k; by rewrite Eg in Hk].
  destruct (waits_on _) eqn:Hq; [|done]. destruct w; try done.
  - apply (wakes_enqueue _ Hr) in Ht. congruence.
  - destruct (wakes_sleep _ Hr _ _ Ht eq_refl Hready) as (t' & p & Ht' & _ & Hl).
    assert (t' = t) as -> by (apply Ho; by exists (Run p)). congruence.
Qed.
End Promises.

(** Concrete runs. *)
Lemma run_steps {C : Client} (acts : list (Action C)) (g g' : State C) : run acts g = Some g' -> rtc step g g'.
Proof.
  revert g. induction acts as [|a acts IH]; intros g Hrun; simpl in Hrun; [injection Hrun as <-; apply rtc_refl|].
  destruct (perform a g) as [g1|] eqn:Ha; [|done]. eapply rtc_l; [by exists a|by apply IH].
Qed.
End Monitor.
