(* ===== verification/CountWord.v ===== *)
(** * A counter with a closed bit

    The 64-bit words of [RequestAdmission] and of the execution environment: the low 63 bits
    count what is under way, the top bit says that nothing more is admitted. *)
From Stdlib Require Import Lia.
From S2P Require Import Prelude.

Module Word.
Local Open Scope Z_scope.

Definition wrap (z : Z) : Z := z mod 2 ^ 64.
Definition kClosed : Z := Z.shiftl 1 63.
(** The complement of the closed bit. *)
Definition kCountMask : Z := Z.lxor (2 ^ 64 - 1) kClosed.
Definition closed (state : Z) : bool := negb (Z.land state kClosed =? 0).
Definition count (state : Z) : Z := Z.land state kCountMask.

(** The word for a count of [n]. *)
Definition word (b : bool) (n : Z) : Z := (if b then kClosed else 0) + n.

Lemma kClosed_eq : kClosed = 2 ^ 63.
Proof. reflexivity. Qed.
Lemma closed_word b n : 0 <= n < 2 ^ 63 -> closed (word b n) = b.
Proof.
  intros Hn. unfold closed, word. rewrite kClosed_eq. destruct b.
  - assert (Z.testbit (Z.land (2 ^ 63 + n) (2 ^ 63)) 63 = true) as Ht.
    { rewrite Z.land_spec, Z.pow2_bits_true by lia. rewrite Z.testbit_eqb by lia.
      replace (2 ^ 63 + n) with (1 * 2 ^ 63 + n) by lia. rewrite Z.div_add_l by lia.
      rewrite (Z.div_small n) by lia. reflexivity. }
    destruct (Z.eqb_spec (Z.land (2 ^ 63 + n) (2 ^ 63)) 0) as [E|]; [|done]. rewrite E in Ht. by rewrite Z.bits_0 in Ht.
  - destruct (Z.eqb_spec (Z.land (0 + n) (2 ^ 63)) 0) as [|E]; [done|]. exfalso. apply E.
    apply Z.bits_inj'. intros k Hk. rewrite Z.land_spec, Z.bits_0. destruct (decide (k = 63)) as [->|Hne].
    + rewrite Z.testbit_eqb by lia. rewrite Z.div_small by lia. done.
    + rewrite Z.pow2_bits_false by lia. by rewrite andb_false_r.
Qed.
Lemma lor_word b n : 0 <= n < 2 ^ 63 -> Z.lor (word b n) kClosed = word true n.
Proof.
  intros Hn. unfold word. assert (Hd : Z.lor n kClosed = kClosed + n).
  { rewrite Z.lor_comm. rewrite <- Z.lxor_lor, Z.add_nocarry_lxor; [done|..];
      apply Z.eqb_eq; pose proof (closed_word false n Hn) as Hc; unfold closed, word in Hc;
      rewrite negb_false_iff in Hc; by rewrite Z.land_comm. }
  destruct b; [|by rewrite Z.add_0_l]. rewrite <- Hd at 1. by rewrite <- Z.lor_assoc, Z.lor_diag.
Qed.

Lemma word_wrap b n : 0 <= n < 2 ^ 63 -> wrap (word b n) = word b n.
Proof. intros Hn. unfold wrap, word. rewrite kClosed_eq. apply Z.mod_small. destruct b; lia. Qed.
Lemma word_add b n d : word b n + d = word b (n + d).
Proof. unfold word. lia. Qed.
Lemma word_closed n : 0 <= n < 2 ^ 63 -> word true n = kClosed <-> n = 0.
Proof. unfold word. lia. Qed.


Lemma count_word b n : 0 <= n < 2 ^ 63 -> count (word b n) = n.
Proof.
  intros Hn. unfold count. change kCountMask with (Z.ones 63). rewrite Z.land_ones by lia. unfold word. rewrite kClosed_eq.
  destruct b.
  - replace (2 ^ 63 + n) with (n + 1 * 2 ^ 63) by lia. rewrite Z.mod_add by lia. by apply Z.mod_small.
  - by apply Z.mod_small.
Qed.
End Word.
