(* ===== verification/ContextGate.v ===== *)
(** * The gate that serializes lifecycle transitions

    [ContextGate] of runtime/detail/context_wait.hpp as a client of the monitor.  It is what
    lets one transition of [ServiceLifecycle] and of [ServiceApp] run at a time. *)
From Stdlib Require Import Lia.
From S2P Require Import Prelude Monitor.
Import Monitor.

Module Gate.

(** [GWait], [GDone], [GTaken]: [acquire] with the mutex held; [GHeld]: a lease;
    [GRelease], [GNotify], [GUnlock]: the destructor of the lease with the mutex held. *)
Inductive GPc :=
  | GIdle
  | GWait (subscribed cancelled : bool)
  | GDone (ok : bool)
  | GTaken
  | GHeld
  | GRelease | GNotify | GUnlock.

(** Whether the context of the caller has stop tokens, and whether it is cancelled. *)
Record GChoice := mkChoice { subscribed : bool; cancelled : bool }.

Definition acquire (ok : bool) : Effect bool GPc := if ok then Do true GTaken else Unlock GIdle.

Definition act (c : GChoice) (busy_ : bool) (p : GPc) : option (Effect bool GPc) :=
  Some match p with
  | GIdle => Lock (GWait (subscribed c) (cancelled c))
  | GWait sub canc => WaitFor sub canc
  | GDone ok => acquire ok
  | GTaken => Unlock GHeld
  | GHeld => Lock GRelease
  | GRelease => Do false GNotify
  | GNotify => NotifyAll GUnlock
  | GUnlock => Unlock GIdle
  end.

Definition locked (p : GPc) : bool := match p with GIdle | GHeld => false | _ => true end.
Definition client : Client := mkClient bool GPc GChoice act locked negb GDone.
Definition start (n : nat) : State client := boot (C := client) false (replicate n GIdle).

Implicit Types (g : State client) (thr : Thread client).

(** The thread owns the lease. *)
Definition leased thr : bool := match thr with Run (GTaken | GHeld | GRelease) => true | _ => false end.
Definition leases g : Z := tallied leased (threads g).
(** The thread has found the gate open and holds the mutex. *)
Definition entering thr : bool := match thr with Run (GDone true) => true | _ => false end.

Record inv g : Prop := {
  inv_busy : leases g = Z.b2z (shared g);
  inv_entering t thr : threads g !! t = Some thr -> entering thr = true -> shared g = false;
}.

#[export] Instance gate_exclusive : Exclusive client.
Proof.
  split; simpl; [done|..]; intros c s p; destruct p; unfold act, acquire; intros;
    repeat (case_match; try done); simplify_eq; auto.
Qed.

Lemma gate_wake_view thr : leased (wake thr) = leased thr /\ entering (wake thr) = entering thr.
Proof. by destruct thr as [|[]]. Qed.
Lemma gate_wake g : inv g -> inv (wake_all g).
Proof.
  intros [Hb He]. split.
  - unfold leases. simpl. rewrite tallied_map by (intros; apply gate_wake_view). exact Hb.
  - intros t thr. simpl. rewrite list_lookup_fmap. destruct (threads g !! t) as [x|] eqn:Hx; simpl; [|done].
    intros [= <-]. destruct (gate_wake_view x) as [_ ->]. by apply (He t).
Qed.

Lemma gate_put g t x thr s' :
  inv g -> threads g !! t = Some x -> Z.b2z s' = (Z.b2z (shared g) - Z.b2z (leased x) + Z.b2z (leased thr))%Z ->
  (entering thr = true -> s' = false) ->
  (forall t' thr', t <> t' -> threads g !! t' = Some thr' -> entering thr' = true -> s' = false) ->
  inv (put t thr (mkState (C := client) s' (threads g))).
Proof.
  intros [Hb He] Hx Hs Ht Ho. split.
  - unfold leases. simpl. rewrite (tallied_insert _ _ _ _ _ Hx). unfold leases in Hb. lia.
  - intros t' thr'. rewrite (lookup_put client (mkState (C := client) s' (threads g)) t thr x t' Hx).
    destruct (decide (t = t')); [by intros [= <-]|]. simpl. by apply Ho.
Qed.
Lemma gate_quiet g t x thr :
  inv g -> threads g !! t = Some x -> leased thr = leased x -> (entering thr = true -> shared g = false) -> inv (put t thr g).
Proof.
  intros Hinv Hx El He. replace (put t thr g) with (put t thr (mkState (C := client) (shared g) (threads g))) by (by destruct g).
  eapply gate_put; try done; [rewrite El; lia|]. intros t' thr' _ Ht'. by eapply inv_entering.
Qed.

(** What a thread does with the mutex held, nobody else is in the middle of. *)
Lemma gate_others_out g t x t' thr' :
  exclusive client g -> threads g !! t = Some x -> holds x = true -> t <> t' -> threads g !! t' = Some thr' -> entering thr' = false.
Proof.
  intros Hex Hx Hh Hne Ht'. destruct (entering thr') eqn:He; [|done]. exfalso. apply Hne, Hex; [by exists x|].
  exists thr'. split; [done|]. by destruct thr' as [[]|].
Qed.

Lemma gate_act g t c p g' :
  inv g -> exclusive client g -> threads g !! t = Some (Run p) ->
  (e ← Monitor.act client c (shared g) p; effect t e g) = Some g' -> inv g'.
Proof.
  intros Hinv Hex Ht Ha.
  assert (Hoth : forall s' : bool, locked p = true ->
    forall t' thr', t <> t' -> threads g !! t' = Some thr' -> entering thr' = true -> s' = false).
  { intros s' Hl t' thr' Hne Ht' He. by rewrite (gate_others_out g t (Run p) t' thr') in He. }
  destruct p; simpl in Ha; try (destruct (free g); [|done]); try (injection Ha as <-; by eapply (gate_quiet g t)).
  - destruct ok; simpl in Ha; injection Ha as <-; [|by eapply (gate_quiet g t)].
    eapply gate_put; try done; [|by apply Hoth]. simpl. by rewrite (inv_entering _ Hinv t _ Ht).
  - injection Ha as <-. eapply gate_put; try done.
    assert (1 <= leases g)%Z by (apply tallied_pos; eauto).
    rewrite (inv_busy _ Hinv) in *. simpl in *. destruct (shared g); simpl in *; lia.
  - injection Ha as <-. eapply (gate_quiet (wake_all g) t (Run (C := client) GNotify)); try done; [by apply gate_wake|].
    simpl. by rewrite list_lookup_fmap, Ht.
Qed.

Lemma gate_step g g' : inv g -> exclusive client g -> step g g' -> inv g'.
Proof.
  intros Hinv Hex [a Ha]. destruct a as [t c|t|t|t|t]; unfold perform in Ha; destruct (threads g !! t) as [[p|w sub canc]|] eqn:Ht; try done.
  - by eapply gate_act.
  - unfold wait_step in Ha. destruct w; simpl in Ha; repeat (case_match; try done); simplify_eq; eapply (gate_quiet g t); try done;
      simpl; by destruct (shared g).
  - destruct w; try done. injection Ha as <-. by eapply (gate_quiet g t).
  - injection Ha as <-. by eapply (gate_quiet g t).
  - destruct sub, canc; try done. destruct (free g); [|done]. injection Ha as <-. by apply gate_wake.
Qed.

Lemma gate_start_idle n thr : thr ∈ threads (start n) -> thr = Run (C := client) GIdle.
Proof.
  unfold start. simpl. intros (p & -> & Hp)%list_elem_of_fmap. by apply elem_of_replicate in Hp as [-> _].
Qed.
Lemma gate_start n : inv (start n).
Proof.
  split.
  - change (Z.b2z (shared (start n))) with 0%Z. pose proof (tallied_le leased (threads (start n))) as Hle.
    destruct (decide (1 <= leases (start n))%Z) as [(t & thr & Ht & Hl)%tallied_pos|]; [|unfold leases in *; lia].
    apply list_elem_of_lookup_2, gate_start_idle in Ht as ->. done.
  - intros t thr Ht%list_elem_of_lookup_2%gate_start_idle. by subst.
Qed.
Lemma gate_reachable n g : rtc step (start n) g -> inv g /\ exclusive client g.
Proof.
  revert g. apply (rtc_ind_r (fun g => inv g /\ exclusive client g)).
  - split; [apply gate_start|]. intros t t' (thr & Ht & Hh). apply list_elem_of_lookup_2, gate_start_idle in Ht as ->. done.
  - intros g1 g2 _ Hs [Hi He]. split; [by eapply gate_step|]. exact (exclusive_step client _ _ He Hs).
Qed.

#[export] Instance gate_notifies n : Notifies client (start n) inv.
Proof.
  split.
  - intros thr ->%gate_start_idle. by exists GIdle.
  - intros g Hg. by apply (gate_reachable n).
  - intros g t p c s' p' _ _ Ha Hr Hr'. destruct p; simpl in Ha; try done.
    + destruct ok; simpl in Ha; [|done]. by injection Ha as <- <-.
    + injection Ha as <- <-. split; [done|]. left. intros c' s. by eexists.
Qed.

(** ** The properties *)

(** One transition at a time: whatever the interleaving, at most one caller owns the
    lease of the gate, and the gate is busy exactly while one does. *)
Theorem gate_one_lease n g : rtc step (start n) g -> leases g = Z.b2z (shared g) /\ (leases g <= 1)%Z.
Proof.
  intros [Hinv _]%gate_reachable. rewrite (inv_busy _ Hinv). split; [done|]. destruct (shared g); simpl; lia.
Qed.

(** No wakeup is lost: a caller that waits while nobody owns the lease and nobody else
    holds the mutex is not asleep and gets in by its own steps. *)
Theorem gate_acquire_completes n g t w sub canc :
  rtc step (start n) g -> threads g !! t = Some (Waiting w sub canc) -> leases g = 0%Z ->
  (forall t', holder client g t' -> t' = t) ->
  exists k, solo client k t g = Some (put t (Run (C := client) (GDone true)) g).
Proof.
  intros Hr Ht Hl Ho. destruct (gate_reachable n g Hr) as [Hinv _].
  apply (wait_completes client (start n) inv g t w sub canc Hr Ht); [|done].
  simpl. rewrite (inv_busy _ Hinv) in Hl. by destruct (shared g).
Qed.

(** ** Two callers *)

(** Thread 1 owns the lease when thread 0 falls asleep; then it is released. *)
Definition plain : GChoice := mkChoice false false.
Definition sample_handover : list (Action client) :=
  replicate 2 (Act (C := client) 1 plain) ++ [Go 1] ++ replicate 2 (Act (C := client) 1 plain)
  ++ replicate 2 (Act (C := client) 0 plain) ++ [Go 0; Go 0; Go 0]
  ++ replicate 4 (Act (C := client) 1 plain).
Definition sample_open : State client := mkState (C := client) false [Waiting WWake false false; Run (C := client) GIdle].

Lemma gate_one_lease_witness : leases sample_open = 0%Z /\ (leases sample_open <= 1)%Z.
Proof.
  assert (Hr : rtc step (start 2) sample_open) by (apply (run_steps sample_handover); vm_cast_no_check (eq_refl (Some sample_open))).
  exact (gate_one_lease 2 sample_open Hr).
Defined.

Lemma gate_acquire_completes_witness :
  exists k, solo client k 0 sample_open = Some (put 0 (Run (C := client) (GDone true)) sample_open).
Proof.
  assert (Hr : rtc step (start 2) sample_open) by (apply (run_steps sample_handover); vm_cast_no_check (eq_refl (Some sample_open))).
  apply (gate_acquire_completes 2 sample_open 0 WWake false false Hr eq_refl); [reflexivity|].
  intros t' (thr & Ht & Hh). destruct t' as [|[|t']]; [done| |done]. by injection Ht as <-.
Defined.
End Gate.
