(* ===== verification/RequestAdmission.v ===== *)
(** * Admission of requests to a data source

    [RequestAdmission] of datasource/detail/request_admission.hpp as a client of the monitor:
    one 64-bit word counts the leases that are out, its top bit says that the gate is closed.
    A thread is a handler that acquires and releases leases or a caller of [stop]; every
    load, compare-exchange, fetch-or and fetch-sub is a step of its own. *)
From Stdlib Require Import Lia.
From S2P Require Import Prelude Monitor CountWord.
Import Monitor Word.

Module Admission.
Local Open Scope Z_scope.

(** [ALoaded], [RLoaded]: the loops of [acquire] and [release] with the value they loaded;
    [RSub], [RNotify]: [release] with the mutex held, before the subtraction and before the
    notification; [SOr], [SWait], [SDone]: [stop] with the mutex held. *)
Inductive APc :=
  | Idle
  | ALoaded (state : Z)
  | Holding
  | RLoaded (state : Z)
  | RSub | RNotify | RUnlock
  | SOr (subscribed cancelled : bool)
  | SWait (subscribed cancelled : bool)
  | SDone (ok : bool)
  | SReturn (ok : bool).

(** What an idle thread does, and whether a weak compare-exchange fails. *)
Inductive AChoice := Acquire | Stop (subscribed cancelled : bool) | Spurious.
Definition fails (c : AChoice) : bool := match c with Spurious => true | _ => false end.

Definition acquire (c : AChoice) (state_ state : Z) : Effect Z APc :=
  if closed state then Do state_ Idle
  else if negb (fails c) && (state_ =? state) then Do (wrap (state + 1)) Holding
  else Do state_ (ALoaded state_).

Definition release (c : AChoice) (state_ state : Z) : Effect Z APc :=
  if closed state then Lock RSub
  else if negb (fails c) && (state_ =? state) then Do (wrap (state - 1)) Idle
  else Do state_ (RLoaded state_).
Definition release_locked (state_ : Z) : Effect Z APc :=
  Do (wrap (state_ - 1)) (if state_ =? kClosed + 1 then RNotify else RUnlock).

Definition act (c : AChoice) (state_ : Z) (p : APc) : option (Effect Z APc) :=
  match p with
  | Idle => Some (match c with Stop sub canc => Lock (SOr sub canc) | _ => Do state_ (ALoaded state_) end)
  | ALoaded state => Some (acquire c state_ state)
  | Holding => Some (Do state_ (RLoaded state_))
  | RLoaded state => Some (release c state_ state)
  | RSub => Some (release_locked state_)
  | RNotify => Some (NotifyAll RUnlock)
  | RUnlock => Some (Unlock Idle)
  | SOr sub canc => Some (Do (Z.lor state_ kClosed) (SWait sub canc))
  | SWait sub canc => Some (WaitFor sub canc)
  | SDone ok => Some (Unlock (SReturn ok))
  | SReturn _ => None
  end.

Definition locked (p : APc) : bool :=
  match p with RSub | RNotify | RUnlock | SOr _ _ | SWait _ _ | SDone _ => true | _ => false end.
Definition drained (state_ : Z) : bool := state_ =? kClosed.

Definition client : Client := mkClient Z APc AChoice act locked drained SDone.

(** A gate with [n] threads. *)
Definition start (n : nat) : State client := boot (C := client) 0 (replicate n Idle).

(** ** Leases *)

(** A lease is out, or being given back. *)
Definition leased (thr : Thread client) : bool :=
  match thr with Run (Holding | RLoaded _ | RSub) => true | _ => false end.
(** The thread has touched the gate for a lease and will again. *)
Definition releasing (thr : Thread client) : bool :=
  match thr with Run (Holding | RLoaded _ | RSub | RNotify | RUnlock) => true | _ => false end.
Definition leases (g : State client) : Z := tallied leased (threads g).

(** ** The invariant *)

(** The thread is past the closing of the gate. *)
Definition closer (thr : Thread client) : bool :=
  match thr with
  | Run (RLoaded state) => closed state
  | Run (RSub | RNotify | RUnlock | SWait _ _ | SDone _ | SReturn _) | Waiting _ _ _ => true
  | _ => false
  end.
(** [stop] has found the gate drained. *)
Definition finished (thr : Thread client) : bool :=
  match thr with Run (SDone true | SReturn true) => true | _ => false end.

Implicit Types (g : State client) (thr : Thread client).

Definition gone g (except : nat -> Prop) : Prop :=
  forall t thr, ~ except t -> threads g !! t = Some thr -> releasing thr = false.

Record inv g : Prop := {
  inv_length : Z.of_nat (length (threads g)) < 2 ^ 63;
  inv_word : exists b, shared g = word b (leases g) /\
    forall t thr, threads g !! t = Some thr -> closer thr = true -> b = true;
  inv_done : (exists t thr, threads g !! t = Some thr /\ finished thr = true) ->
    shared g = kClosed /\ gone g (fun _ => False);
}.

Lemma admission_start n : Z.of_nat n < 2 ^ 63 -> inv (start n).
Proof.
  intros Hn.
  assert (Hall : forall t thr, threads (start n) !! t = Some thr -> thr = Run (C := client) Idle).
  { intros t thr. unfold start. simpl. rewrite list_lookup_fmap. destruct (replicate n Idle !! t) as [q|] eqn:Eq; simpl; [|done].
    apply lookup_replicate in Eq as [-> _]. by intros [= <-]. }
  split.
  - unfold start. simpl. by rewrite length_fmap, length_replicate.
  - exists false. split; [|intros t thr Ht; by rewrite (Hall _ _ Ht)]. unfold word. change (shared (start n)) with 0. symmetry.
    destruct (decide (1 <= leases (start n))) as [(t & thr & Ht & Hl)%tallied_pos|Hlt]; [by rewrite (Hall _ _ Ht) in Hl|].
    pose proof (tallied_le leased (threads (start n))). unfold leases in *. lia.
  - intros (t & thr & Ht & Hf). by rewrite (Hall _ _ Ht) in Hf.
Qed.

Lemma leases_bounds g : inv g -> 0 <= leases g < 2 ^ 63.
Proof. intros [Hlen _ _]. pose proof (tallied_le leased (threads g)). unfold leases. lia. Qed.

Lemma finished_closer thr : finished thr = true -> closer thr = true.
Proof. by destruct thr as [[]|]. Qed.
Lemma finished_gone thr : finished thr = true -> releasing thr = false.
Proof. by destruct thr as [[]|]. Qed.

(** One thread moves, with a new value of the word. *)
Lemma admission_put g t x thr s' :
  inv g -> threads g !! t = Some x ->
  (forall b, shared g = word b (leases g) -> (closer x = true -> b = true) ->
     exists b' : bool, s' = word b' (leases g - Z.b2z (leased x) + Z.b2z (leased thr)) /\
       (b = true -> b' = true) /\ (closer thr = true -> b' = true)) ->
  (finished thr = true -> finished x = true \/ (s' = kClosed /\ gone g (eq t))) ->
  (shared g = kClosed -> releasing x = false -> s' = kClosed) ->
  (releasing thr = true -> releasing x = true) \/ closed (shared g) = false ->
  inv (put t thr (mkState (C := client) s' (threads g))).
Proof.
  intros Hinv Hx Hword Hfin Hdone Hrel. pose proof (leases_bounds _ Hinv) as Hbd. destruct Hinv as [Hlen (b & Eb & Hcl) Hd].
  assert (Hlk : forall t', threads (put t thr (mkState (C := client) s' (threads g))) !! t' =
    if decide (t = t') then Some thr else threads g !! t').
  { intros t'. by rewrite (lookup_put client (mkState (C := client) s' (threads g)) t thr x t' Hx). }
  split.
  - simpl. by rewrite length_insert.
  - destruct (Hword b Eb (Hcl t x Hx)) as (b' & E & H1 & H2). exists b'. split.
    + unfold leases. simpl. by rewrite (tallied_insert _ _ _ _ _ Hx).
    + intros t' thr'. rewrite Hlk. destruct (decide (t = t')); [intros [= <-]; auto|eauto].
  - intros (t' & thr' & Ht' & Hf). rewrite Hlk in Ht'.
    assert (Hold : (exists t1 thr1, threads g !! t1 = Some thr1 /\ finished thr1 = true) -> s' = kClosed /\ releasing thr = false /\ gone g (eq t)).
    { intros Hex. destruct (Hd Hex) as [Hs Hg]. pose proof (Hg t x (fun H => H) Hx) as Hrx. split; [auto|]. split.
      - destruct Hrel as [Hr|Hcs]; [destruct (releasing thr); [by rewrite (Hr eq_refl) in Hrx|done]|].
        rewrite Eb, closed_word in Hcs by done. destruct Hex as (t1 & thr1 & Ht1 & Hf1).
        rewrite (Hcl _ _ Ht1) in Hcs; [done|]. by apply finished_closer.
      - intros t1 thr1 _ Ht1. exact (Hg t1 thr1 (fun H => H) Ht1). }
    assert (Hnew : s' = kClosed /\ releasing thr = false /\ gone g (eq t)).
    { destruct (decide (t = t')) as [->|]; [|by apply Hold; eauto]. injection Ht' as ->.
      destruct (Hfin Hf) as [Hfx|[Hs Hg]]; [apply Hold; eauto|]. split; [done|]. split; [|done]. by apply finished_gone. }
    destruct Hnew as (Hs & Hr & Hg). split; [done|]. intros t1 thr1 _. rewrite Hlk.
    destruct (decide (t = t1)) as [->|Hne]; [by intros [= <-]|]. intros Ht1. by apply (Hg t1).
Qed.

(** Waking sleepers changes nothing the invariant looks at. *)
Lemma admission_wake_view thr :
  leased (wake thr) = leased thr /\ closer (wake thr) = closer thr /\
  finished (wake thr) = finished thr /\ releasing (wake thr) = releasing thr.
Proof. by destruct thr as [|[]]. Qed.
Lemma admission_wake g : inv g -> inv (wake_all g).
Proof.
  intros [Hlen (b & Eb & Hcl) Hd].
  assert (El : leases (wake_all g) = leases g) by (apply tallied_map; intros; apply admission_wake_view).
  split.
  - simpl. by rewrite length_fmap.
  - exists b. rewrite El. split; [done|]. intros t thr (x & Hx & ->)%(lookup_wake client).
    destruct (admission_wake_view x) as (_ & -> & _). eauto.
  - intros (t & thr & (x & Hx & ->)%(lookup_wake client) & Hf). destruct (admission_wake_view x) as (_ & _ & E & _). rewrite E in Hf.
    destruct Hd as [Hs Hg]; [eauto|]. split; [done|]. intros t' thr' _ (y & Hy & ->)%(lookup_wake client).
    destruct (admission_wake_view y) as (_ & _ & _ & ->). exact (Hg t' y (fun H => H) Hy).
Qed.

#[export] Instance admission_exclusive : Exclusive client.
Proof.
  split; simpl; [done|..]; intros c s p; destruct p; simpl; unfold acquire, release, release_locked; intros;
    repeat (case_match; try done); simplify_eq; try done; by destruct (_ =? _).
Qed.


(** A move that leaves the word and the leases. *)
Lemma admission_quiet g t x thr :
  inv g -> threads g !! t = Some x -> leased thr = leased x -> (closer thr = true -> closer x = true \/ closed (shared g) = true) ->
  (finished thr = true -> finished x = true) -> (releasing thr = true -> releasing x = true) -> inv (put t thr g).
Proof.
  intros Hinv Hx El Hc Hf Hr. pose proof (leases_bounds _ Hinv) as Hbd. rewrite put_same. eapply admission_put; try done; auto.
  intros b Eb Hcx. exists b. rewrite El. split; [rewrite Eb; f_equal; lia|]. split; [done|].
  intros Ht. destruct (Hc Ht) as [?|Hcs]; [auto|]. by rewrite Eb, closed_word in Hcs.
Qed.

(** The compare-exchange of [acquire] and of [release], and the subtraction under the mutex. *)
Lemma admission_acquire g t state :
  inv g -> threads g !! t = Some (Run (C := client) (ALoaded state)) -> closed state = false -> shared g = state ->
  inv (put t (Run (C := client) Holding) (mkState (C := client) (wrap (state + 1)) (threads g))).
Proof.
  intros Hinv Ht Hc Hs. pose proof (leases_bounds _ Hinv) as Hbd.
  assert (Hroom : leases g + 1 < 2 ^ 63).
  { pose proof (tallied_le leased (<[t := Run (C := client) Holding]> (threads g))) as Hle.
    rewrite (tallied_insert _ _ _ _ _ Ht), length_insert in Hle. simpl in Hle. pose proof (inv_length _ Hinv). unfold leases. lia. }
  eapply admission_put; try done; [|intros E; exfalso|by right; rewrite Hs].
  - intros b Eb _. exists b. simpl. rewrite <- Hs, Eb, word_add, word_wrap by lia. split; [f_equal; lia|]. done.
  - rewrite <- Hs, E in Hc. done.
Qed.
Lemma admission_release g t state :
  inv g -> threads g !! t = Some (Run (C := client) (RLoaded state)) -> closed state = false -> shared g = state ->
  inv (put t (Run (C := client) Idle) (mkState (C := client) (wrap (state - 1)) (threads g))).
Proof.
  intros Hinv Ht Hc Hs. pose proof (leases_bounds _ Hinv) as Hbd.
  assert (Hpos : 1 <= leases g) by (apply tallied_pos; eauto).
  eapply admission_put; try done; [|by left].
  intros b Eb _. exists b. simpl. rewrite <- Hs, Eb. unfold Z.sub at 1. rewrite word_add, word_wrap by lia.
  split; [f_equal; lia|]. done.
Qed.
Lemma admission_release_locked g t p' :
  inv g -> threads g !! t = Some (Run (C := client) RSub) -> p' = RNotify \/ p' = RUnlock ->
  inv (put t (Run (C := client) p') (mkState (C := client) (wrap (shared g - 1)) (threads g))).
Proof.
  intros Hinv Ht Hp. pose proof (leases_bounds _ Hinv) as Hbd.
  assert (Hpos : 1 <= leases g) by (apply tallied_pos; eauto).
  eapply admission_put; try done; [|by destruct Hp as [->| ->]|by left].
  intros b Eb Hb. rewrite (Hb eq_refl) in *. exists true. rewrite Eb. unfold Z.sub at 1. rewrite word_add, word_wrap by lia.
  split; [|done]. f_equal. destruct Hp as [->| ->]; simpl; lia.
Qed.
Lemma admission_close g t sub canc :
  inv g -> threads g !! t = Some (Run (C := client) (SOr sub canc)) ->
  inv (put t (Run (C := client) (SWait sub canc)) (mkState (C := client) (Z.lor (shared g) kClosed) (threads g))).
Proof.
  intros Hinv Ht. pose proof (leases_bounds _ Hinv) as Hbd. eapply admission_put; try done; [| |by left].
  - intros b Eb _. exists true. simpl. rewrite Eb, lor_word by done. split; [f_equal; lia|]. done.
  - intros -> _. done.
Qed.

(** The actions of a thread outside the wait. *)
Lemma admission_act g t c p g' :
  inv g -> threads g !! t = Some (Run p) -> (e ← Monitor.act client c (shared g) p; effect t e g) = Some g' -> inv g'.
Proof.
  intros Hinv Ht Ha. destruct p; simpl in Ha.
  - destruct c; simpl in Ha; [|destruct (free g); [|done]|]; injection Ha as <-; by eapply (admission_quiet g t).
  - unfold acquire in Ha. destruct (closed state) eqn:Hc; [injection Ha as <-; by eapply (admission_quiet g t)|].
    destruct (negb (fails c) && _) eqn:E; injection Ha as <-; [|by eapply (admission_quiet g t)].
    bool_to_prop. by apply admission_acquire.
  - injection Ha as <-. eapply (admission_quiet g t); try done. by right.
  - unfold release in Ha. destruct (closed state) eqn:Hc.
    { simpl in Ha. destruct (free g); [|done]. injection Ha as <-. eapply (admission_quiet g t); try done. by left. }
    destruct (negb (fails c) && _) eqn:E; injection Ha as <-; [|eapply (admission_quiet g t); try done; by right].
    bool_to_prop. by apply admission_release.
  - injection Ha as <-. apply admission_release_locked; [done|done|]. destruct (_ =? _); auto.
  - injection Ha as <-. eapply (admission_quiet (wake_all g) t (Run (C := client) RNotify)); try done; [by apply admission_wake| |by left].
    simpl. by rewrite list_lookup_fmap, Ht.
  - injection Ha as <-. by eapply (admission_quiet g t).
  - injection Ha as <-. by apply admission_close.
  - injection Ha as <-. eapply (admission_quiet g t); try done. by left.
  - injection Ha as <-. eapply (admission_quiet g t); try done; by left.
  - done.
Qed.

(** [stop] finds the gate drained while it holds the mutex. *)
Lemma admission_drained g t w sub canc :
  inv g -> exclusive client g -> threads g !! t = Some (Waiting w sub canc) -> wait_locked w = true ->
  inv (put t (Run (C := client) (SDone (drained (shared g)))) g).
Proof.
  intros Hinv Hex Ht Hw. pose proof (leases_bounds _ Hinv) as Hbd. destruct (drained (shared g)) eqn:Hd.
  2:{ eapply (admission_quiet g t); try done. by left. }
  apply Z.eqb_eq in Hd. rewrite put_same. eapply admission_put; try done; [| |by left].
  - intros b Eb Hb. exists b. simpl. split; [rewrite Eb; f_equal; lia|]. split; auto.
  - intros _. right. split; [done|]. intros t' thr' Hne Ht'.
    destruct (inv_word _ Hinv) as (b & Eb & Hcl). rewrite (Hcl t _ Ht eq_refl) in Eb.
    rewrite Hd in Eb. symmetry in Eb. apply word_closed in Eb; [|done].
    pose proof (tallied_zero leased _ _ _ Eb Ht') as Hl. destruct (holds thr') eqn:Hh.
    + exfalso. apply Hne, Hex; [by eexists|by eexists].
    + by destruct thr' as [[]|].
Qed.

Lemma admission_step g g' : inv g -> exclusive client g -> step g g' -> inv g'.
Proof.
  intros Hinv Hex [a Ha]. destruct a as [t c|t|t|t|t]; simpl in Ha; destruct (threads g !! t) as [[p|w sub canc]|] eqn:Ht; try done.
  - by eapply admission_act.
  - assert (Hput : forall w', inv (put t (Waiting (C := client) w' sub canc) g)) by (intros w'; eapply (admission_quiet g t); try done; by left).
    pose proof (admission_drained g t w sub canc Hinv Hex Ht) as Hdr. unfold wait_step in Ha.
    destruct w; simpl in Ha; repeat (case_match; try done); simplify_eq; auto; rewrite ?H in Hdr; auto.
  - destruct w; try done. injection Ha as <-. eapply (admission_quiet g t); try done; by left.
  - injection Ha as <-. eapply (admission_quiet g t); try done; by left.
  - destruct sub, canc; try done. destruct (free g); [|done]. injection Ha as <-. by apply admission_wake.
Qed.

Section Gate.
Context (n : nat) (Hn : Z.of_nat n < 2 ^ 63).

Lemma admission_start_idle thr : thr ∈ threads (start n) -> thr = Run (C := client) Idle.
Proof.
  unfold start. simpl. intros (p & -> & Hp)%list_elem_of_fmap. by apply elem_of_replicate in Hp as [-> _].
Qed.
Lemma admission_reachable g : rtc step (start n) g -> inv g /\ exclusive client g.
Proof.
  revert g. apply (rtc_ind_r (fun g => inv g /\ exclusive client g)).
  - split; [by apply admission_start|]. intros t t' (thr & Ht & Hh).
    apply list_elem_of_lookup_2, admission_start_idle in Ht as ->. done.
  - intros g1 g2 _ Hs [Hi He]. split; [by eapply admission_step|]. exact (exclusive_step client _ _ He Hs).
Qed.

Lemma drained_word b m : 0 <= m < 2 ^ 63 -> drained (word b m) = true -> b = true /\ m = 0.
Proof. unfold drained, word. rewrite Z.eqb_eq, kClosed_eq. destruct b; lia. Qed.

Lemma ready_notified g t p c s' p' :
  inv g -> threads g !! t = Some (Run p) -> Monitor.act client c (shared g) p = Some (Do s' p') ->
  drained (shared g) = false -> drained s' = true ->
  locked p = true /\ (notifying (C := client) p' \/ forall thr, thr ∈ threads g -> asleep thr = false).
Proof.
  intros Hinv Ht Ha Hr Hr'. pose proof (leases_bounds _ Hinv) as Hbd. destruct (inv_word _ Hinv) as (b & Eb & Hcl).
  destruct p; simpl in Ha; unfold acquire, release, release_locked in Ha.
  - destruct c; try done; injection Ha as <- <-; congruence.
  - destruct (closed state) eqn:Hc; [injection Ha as <- <-; congruence|].
    destruct (negb (fails c) && _) eqn:E; injection Ha as <- <-; [|congruence]. bool_to_prop.
    pose proof (admission_acquire g t state Hinv Ht Hc ltac:(done)) as Hi. pose proof (leases_bounds _ Hi) as Hbd'.
    destruct (inv_word _ Hi) as (b' & Eb' & _). simpl in Eb'. rewrite Eb' in Hr'.
    apply drained_word in Hr' as [_ E0]; [|done]. unfold leases in E0. simpl in E0.
    rewrite (tallied_insert _ _ _ _ _ Ht) in E0. simpl in E0. fold (leases g) in E0. lia.
  - injection Ha as <- <-. congruence.
  - destruct (closed state) eqn:Hc; [done|]. destruct (negb (fails c) && _) eqn:E; injection Ha as <- <-; [|congruence].
    bool_to_prop. subst state. exfalso. rewrite Eb in *. rewrite closed_word in Hc by lia. subst b.
    assert (1 <= leases g) by (apply tallied_pos; eauto). unfold Z.sub in Hr'. rewrite word_add, word_wrap in Hr' by lia.
    by apply drained_word in Hr' as [? _]; [|lia].
  - injection Ha as <- <-. split; [done|]. left. destruct (Z.eqb_spec (shared g) (kClosed + 1)) as [|Hne].
    { intros c' s. by eexists. }
    exfalso. apply Hne. rewrite (Hcl _ _ Ht eq_refl) in Eb. rewrite Eb in *.
    assert (1 <= leases g) by (apply tallied_pos; eauto). unfold Z.sub in Hr'. rewrite word_add, word_wrap in Hr' by lia.
    apply drained_word in Hr' as [_ ?]; [|lia]. unfold word. lia.
  - done.
  - done.
  - injection Ha as <- <-. split; [done|]. right. intros thr Hin. apply list_elem_of_lookup_1 in Hin as [t' Ht'].
    destruct (asleep thr) eqn:Has; [|done]. exfalso. rewrite (Hcl _ _ Ht') in Eb by (by destruct thr as [|[]]).
    rewrite Eb, lor_word in Hr' by done. congruence.
  - done.
  - done.
  - done.
Qed.

#[export] Instance admission_notifies : Notifies client (start n) inv.
Proof.
  split.
  - intros thr ->%admission_start_idle. by exists Idle.
  - intros g Hg. by apply admission_reachable.
  - intros g t p c s' p'. apply ready_notified.
Qed.
End Gate.

(** ** The properties *)

(** C20.  When [stop] returns without an error the gate is drained for good: in that state
    and in every later one no lease is out, no handler is still giving one back (so none
    touches the gate again for it), and the word is the closed bit alone, so that every
    later [acquire] is refused. *)
Theorem admission_stop_drains (n t : nat) (g : State client) :
  Z.of_nat n < 2 ^ 63 -> rtc step (start n) g -> threads g !! t = Some (Run (C := client) (SReturn true)) ->
  shared g = kClosed /\ leases g = 0 /\ forall t' thr, threads g !! t' = Some thr -> releasing thr = false.
Proof.
  intros Hn Hr Ht. destruct (admission_reachable n Hn g Hr) as [Hinv _].
  destruct (inv_done _ Hinv) as [Hs Hg]; [eauto|]. split; [done|]. split.
  - destruct (inv_word _ Hinv) as (b & Eb & Hcl). rewrite (Hcl _ _ Ht eq_refl), Hs in Eb. symmetry in Eb.
    apply word_closed in Eb; [done|]. by apply leases_bounds.
  - intros t' thr Ht'. exact (Hg t' thr (fun H => H) Ht').
Qed.

(** C21.  No wakeup is lost: a [stop] that waits while no lease is out and nobody else holds
    the mutex is not asleep, and its own steps take it to a return without an error. *)
Theorem admission_stop_completes (n t : nat) w sub canc (g : State client) :
  Z.of_nat n < 2 ^ 63 -> rtc step (start n) g -> threads g !! t = Some (Waiting w sub canc) ->
  leases g = 0 -> (forall t', holder client g t' -> t' = t) ->
  exists k, solo client k t g = Some (put t (Run (C := client) (SDone true)) g).
Proof.
  intros Hn Hr Ht Hl Ho. destruct (admission_reachable n Hn g Hr) as [Hinv _].
  pose proof (admission_notifies n Hn) as Hnot.
  apply (wait_completes client (start n) inv g t w sub canc Hr Ht); [|done].
  destruct (inv_word _ Hinv) as (b & Eb & Hcl). simpl. rewrite Eb, Hl, (Hcl _ _ Ht eq_refl). done.
Qed.

(** ** A gate that is drained by the last handler *)

(** Thread 1 holds a lease when thread 0 stops the gate and falls asleep; then it releases. *)
Definition sample_release : list (Action client) :=
  [Act (C := client) 1 Acquire; Act (C := client) 1 Acquire; Act (C := client) 0 (Stop false false);
   Act (C := client) 0 Acquire; Act (C := client) 0 Acquire; Go 0; Go 0; Go 0]
  ++ replicate 5 (Act (C := client) 1 Acquire).
Definition sample_return : list (Action client) := sample_release ++ [Go 0; Go 0; Go 0; Act (C := client) 0 Acquire].
Definition sample_woken : State client :=
  mkState (C := client) kClosed [Waiting WWake false false; Run (C := client) Idle].
Definition sample_drained : State client :=
  mkState (C := client) kClosed [Run (C := client) (SReturn true); Run (C := client) Idle].

Lemma admission_stop_drains_witness :
  leases sample_drained = 0 /\ forall t' thr, threads sample_drained !! t' = Some thr -> releasing thr = false.
Proof.
  assert (Hr : rtc step (start 2) sample_drained) by (apply (run_steps sample_return); vm_cast_no_check (eq_refl (Some sample_drained))).
  destruct (admission_stop_drains 2 0 sample_drained ltac:(lia) Hr eq_refl) as (_ & Hl & Hg). by split.
Defined.

Lemma admission_stop_completes_witness :
  exists k, solo client k 0 sample_woken = Some (put 0 (Run (C := client) (SDone true)) sample_woken).
Proof.
  assert (Hr : rtc step (start 2) sample_woken) by (apply (run_steps sample_release); vm_cast_no_check (eq_refl (Some sample_woken))).
  apply (admission_stop_completes 2 0 WWake false false sample_woken ltac:(lia) Hr eq_refl); [reflexivity|].
  intros t' (thr & Ht & Hh). destruct t' as [|[|t']]; [done| |done]. by injection Ht as <-.
Defined.
End Admission.
