(* ===== verification/ExecutionRuntime.v ===== *)
(** * The execution runtime of a graph: input invocations, parallel tasks and the drain

    The part of [StreamExecutionEnvironment] (runtime/environment.hpp) that decides when the
    graph may be released, as a client of the monitor.  [inputInvocations_] counts the input
    invocations under way behind a closed bit and is changed without the mutex;
    [parallelActive_] counts the tasks of [parallel] under [parallelMutex_].  A worker thread
    is a caller of [beginInputInvocation] for as long as it has the invocation, or a call of
    [parallel] and then the task that it detached; a controller thread calls
    [drainExecutionRuntime] and [releaseExecutionRuntime].

    A run is one life of the runtime: it begins when a [startExecutionRuntime] has succeeded, in
    whatever state that was called, and contains no further start.  Without an active runtime a
    drain promises nothing, and the end of the file shows what that means before the first start
    and after a start that the topology made fail. *)
From Stdlib Require Import Lia.
From S2P Require Import Prelude Monitor CountWord.
Import Monitor Word.

Module Runtime.
Local Open Scope Z_scope.

Record Env := mkEnv {
  inputInvocations_ : Z;
  parallelActive_ : Z;
  parallelAccepting_ : bool;
  activeRuntime_ : bool;
}.
Definition set_inputInvocations_ v s : Env := mkEnv v (parallelActive_ s) (parallelAccepting_ s) (activeRuntime_ s).
Definition set_parallelActive_ v s : Env := mkEnv (inputInvocations_ s) v (parallelAccepting_ s) (activeRuntime_ s).
Definition set_parallelAccepting_ v s : Env := mkEnv (inputInvocations_ s) (parallelActive_ s) v (activeRuntime_ s).
Definition set_activeRuntime_ v s : Env := mkEnv (inputInvocations_ s) (parallelActive_ s) (parallelAccepting_ s) v.
Implicit Types (s : Env).

Inductive RuntimeError := AlreadyStarted | NotDrained | TopologyError | InitError.

(** [startExecutionRuntime]; [built] when building and verifying the topology succeeds,
    [inited] when [runtimeInit] does. *)
Definition startExecutionRuntime (built inited : bool) s : Env * result RuntimeError unit :=
  if activeRuntime_ s then (s, Err AlreadyStarted)
  else
    let s := set_inputInvocations_ 0 s in
    if negb (parallelActive_ s =? 0) then (s, Err NotDrained)
    else
      let s := set_parallelAccepting_ true s in
      if negb built then (s, Err TopologyError)
      else if inited then (set_activeRuntime_ true s, Ok tt)
      else (set_parallelAccepting_ false s, Err InitError).

(** [BLoaded]: the loop of [beginInputInvocation] with the value it loaded; [Invoked]: an
    invocation under way; [FNotify]: [finishInputInvocation] after the subtraction, without
    the mutex.  [PCheck] to [PTask]: [parallel], then its task; [PRetire] to [PUnlock]: the
    end of the task, or the handler of a failed spawn.  [KClose] to [KUnlock]:
    [drainExecutionRuntime]. *)
Inductive RPc :=
  | Idle
  | BLoaded (state : Z)
  | Invoked
  | FNotify
  | PCheck | PAdmitted | PRefused | PSpawn | PTask
  | PRetire | PNotify | PUnlock
  | KIdle
  | KClose (subscribed cancelled : bool)
  | KLock (subscribed cancelled : bool)
  | KWait (subscribed cancelled : bool)
  | KDone (ok : bool)
  | KUnlock (ok : bool)
  | KReturn (ok : bool)
  | KReleased.

(** What an idle worker starts, what a controller asks for, whether a weak compare-exchange
    or a spawn fails. *)
Inductive RChoice := Begin | Parallel | Drain (subscribed cancelled : bool) | Release | Failure.
Definition fails (c : RChoice) : bool := match c with Failure => true | _ => false end.

(** One round of the loop; both refusals throw. *)
Definition beginInputInvocation (c : RChoice) s (state : Z) : Effect Env RPc :=
  if closed state then Do s Idle
  else if count state =? kCountMask then Do s Idle
  else if negb (fails c) && (inputInvocations_ s =? state)
  then Do (set_inputInvocations_ (wrap (state + 1)) s) Invoked
  else Do s (BLoaded (inputInvocations_ s)).

Definition finishInputInvocation s : Effect Env RPc :=
  Do (set_inputInvocations_ (wrap (inputInvocations_ s - 1)) s)
     (if count (inputInvocations_ s) =? 1 then FNotify else Idle).

(** The admission of [parallel] with the mutex held. *)
Definition parallel s : Effect Env RPc :=
  if negb (parallelAccepting_ s) then Do s PRefused
  else Do (set_parallelActive_ (wrap (parallelActive_ s + 1)) s) PAdmitted.
Definition retire s : Effect Env RPc :=
  let active := wrap (parallelActive_ s - 1) in
  Do (set_parallelActive_ active s) (if active =? 0 then PNotify else PUnlock).

Definition drained s : bool := (count (inputInvocations_ s) =? 0) && (parallelActive_ s =? 0).
Definition drainExecutionRuntime (ok : bool) s : Effect Env RPc :=
  Do (if ok then set_parallelAccepting_ false s else s) (KUnlock ok).
Definition releaseExecutionRuntime s : Effect Env RPc := Do (set_activeRuntime_ false s) KReleased.

Definition act (c : RChoice) s (p : RPc) : option (Effect Env RPc) :=
  match p with
  | Idle => Some (match c with Parallel => Lock PCheck | _ => Do s (BLoaded (inputInvocations_ s)) end)
  | BLoaded state => Some (beginInputInvocation c s state)
  | Invoked => Some (finishInputInvocation s)
  | FNotify => Some (NotifyAll Idle)
  | PCheck => Some (parallel s)
  | PAdmitted => Some (Unlock PSpawn)
  | PRefused => Some (Unlock Idle)
  | PSpawn => Some (if fails c then Lock PRetire else Do s PTask)
  | PTask => Some (Lock PRetire)
  | PRetire => Some (retire s)
  | PNotify => Some (NotifyAll PUnlock)
  | PUnlock => Some (Unlock Idle)
  | KIdle =>
      match c with
      | Drain sub canc => Some (Do s (if activeRuntime_ s then KClose sub canc else KReturn true))
      | _ => None
      end
  | KClose sub canc => Some (Do (set_inputInvocations_ (Z.lor (inputInvocations_ s) kClosed) s) (KLock sub canc))
  | KLock sub canc => Some (Lock (KWait sub canc))
  | KWait sub canc => Some (WaitFor sub canc)
  | KDone ok => Some (drainExecutionRuntime ok s)
  | KUnlock ok => Some (Unlock (KReturn ok))
  | KReturn ok =>
      Some (match c with
            | Release => if ok && activeRuntime_ s then releaseExecutionRuntime s else Do s (KReturn ok)
            | _ => if ok then Do s (KReturn ok) else Do s KIdle
            end)
  | KReleased => None
  end.

Definition locked (p : RPc) : bool :=
  match p with
  | PCheck | PAdmitted | PRefused | PRetire | PNotify | PUnlock | KWait _ _ | KDone _ | KUnlock _ => true
  | _ => false
  end.

Definition client : Client := mkClient Env RPc RChoice act locked drained KDone.

(** An environment before its first start, after a start, and after one that failed because of
    its topology. *)
Definition created : Env := mkEnv 0 0 false false.
Definition opened : Env := (startExecutionRuntime true true created).1.
Definition unbuilt : Env := (startExecutionRuntime false true created).1.
Definition start s (workers controllers : nat) : State client :=
  boot (C := client) s (replicate controllers KIdle ++ replicate workers Idle).

(** ** The invariant *)
Implicit Types (g : State client) (thr : Thread client).

Definition invoked thr : bool := match thr with Run Invoked => true | _ => false end.
Definition tasked thr : bool := match thr with Run (PAdmitted | PSpawn | PTask | PRetire) => true | _ => false end.
Definition invocations g : Z := tallied invoked (threads g).
Definition tasks g : Z := tallied tasked (threads g).








#[export] Instance runtime_exclusive : Exclusive client.
Proof.
  split; simpl; [done|..]; intros c s p; destruct p; unfold act, beginInputInvocation, finishInputInvocation, parallel, retire,
    drainExecutionRuntime, releaseExecutionRuntime; intros; repeat (case_match; try done); simplify_eq; auto.
Qed.












Section Graph.
Context (workers controllers : nat) (Hn : Z.of_nat (controllers + workers) < 2 ^ 64).

End Graph.

(** ** The properties *)


(** An input invocation ends between the evaluation of the predicate and the sleep. *)
Definition sample_missed : list (Action client) :=
  [Act (C := client) 1 Begin; Act (C := client) 1 Begin;
   Act (C := client) 0 (Drain false false); Act (C := client) 0 Begin; Act (C := client) 0 Begin; Act (C := client) 0 Begin;
   Go 0; Go 0; Act (C := client) 1 Begin; Act (C := client) 1 Begin; Go 0].
Definition sample_stuck : State client :=
  mkState (C := client) (mkEnv kClosed 0 true true) [Waiting WSleep false false; Run (C := client) Idle].

(** The drain can miss its wakeup, since the end of an input invocation subtracts and
    notifies without the mutex: a run of one invocation and one drain reaches a state in
    which nothing is under way, no thread is inside any call and nobody holds the mutex,
    and yet the drain sleeps. *)
Theorem drain_misses_wakeup :
  exists g, rtc step (start opened 1 1) g /\ threads g !! 0%nat = Some (Waiting WSleep false false) /\
    drained (shared g) = true /\ invocations g = 0 /\ tasks g = 0 /\ free g = true /\
    (forall t, t <> 0%nat -> forall thr, threads g !! t = Some thr -> thr = Run (C := client) Idle) /\
    forall k, solo client (S k) 0 g = None.
Proof.
  exists sample_stuck. split; [apply (run_steps sample_missed); vm_cast_no_check (eq_refl (Some sample_stuck))|].
  do 5 (split; [reflexivity|]). split; [|done].
  intros [|[|t]] Hne thr; simpl; [done|by intros [= <-]|done].
Qed.



(** Without an active runtime a drain returns true at once, whatever is under way: before the
    first start an input invocation can be admitted afterwards, and after a start that the
    topology made fail a parallel task too. *)
Definition sample_idle_drain (c : RChoice) : list (Action client) :=
  [Act (C := client) 0 (Drain false false); Act (C := client) 1 c; Act (C := client) 1 Begin; Act (C := client) 1 Begin;
   Act (C := client) 1 Begin].
Definition sample_before : State client :=
  mkState (C := client) (mkEnv 1 0 false false) [Run (C := client) (KReturn true); Run (C := client) Invoked].
Definition sample_failed : State client :=
  mkState (C := client) (mkEnv 0 1 true false) [Run (C := client) (KReturn true); Run (C := client) PTask].
Theorem drain_without_runtime :
  (rtc step (start created 1 1) sample_before /\ invocations sample_before = 1) /\
  (rtc step (start unbuilt 1 1) sample_failed /\ tasks sample_failed = 1).
Proof.
  split; (split; [|reflexivity]).
  - apply (run_steps (take 3 (sample_idle_drain Begin))). vm_cast_no_check (eq_refl (Some sample_before)).
  - apply (run_steps (sample_idle_drain Parallel)). vm_cast_no_check (eq_refl (Some sample_failed)).
Qed.
End Runtime.
