(* ===== verification/Lifecycle.v ===== *)
(** * The lifecycle of a service: ordered start, rollback and shutdown

    [ServiceLifecycle] of runtime/serviceapp.hpp as a transition system.  A registered
    component is named by its position in the list of all entries; [entries_[kind]] is the
    sublist of that kind.  [transition_] lets one call of [start], [startGraph],
    [stopBeforeGraphDrain] or [stopAfterGraphDrain] run at a time, whose program counter is
    [pc]; the stop operations that [stopPhase] spawns are coroutines of their own and go on
    when the call that waits for them gives up.  Whether the start or stop of a component
    throws, when its stop returns and when a wait is cancelled are chosen at each step.
    [log] is history: the calls of the components and their returns. *)
From Stdlib Require Import Lia.
From S2P Require Import Prelude.

Module Life.

Inductive Kind :=
  | kDataSource | kDataSink | kStorage | kDelayPool | kTaskPool | kPriorityTaskPool | kComponent.
#[export] Instance Kind_eq_dec : EqDecision Kind.
Proof. solve_decision. Defined.

Inductive LifeState := kCreated | kStarting | kRunning | kStopping | kStopped.
#[export] Instance LifeState_eq_dec : EqDecision LifeState.
Proof. solve_decision. Defined.

Inductive LifeError := InvalidArgument | LogicError | StartFailed | ShutdownFailed.

(** [StopOperation]: the stop of a component, running or finished, and whether it threw. *)
Record StopOperation := mkStop {
  done : bool;
  failed : bool;
}.

Record Entry := mkEntry {
  kind : Kind;
  identity : nat;
  started : bool;
  stopping : option StopOperation;
}.

(** What follows a [stopPhase]: the rest of a rollback, within a failed start or a later
    stop, or the next phase of a shutdown. *)
Inductive Cont :=
  | CRollback (rest : list nat) (fromStart : bool)
  | CAdmission | CExecutors | CSinks.

Inductive Pc :=
  | PIdle
  | PStart (todo : list nat)
  | PStarting (i : nat) (todo : list nat)
  | PWait (todo : list nat) (failure : bool) (next : Cont).

Inductive LifeEvent :=
  | EStart (i : nat) | EStarted (i : nat) | EStartFailed (i : nat)
  | EStop (i : nat) | EStopped (i : nat) (ok : bool).

Record Lifecycle := mkLifecycle {
  state_ : LifeState;
  entries_ : list Entry;
  started_ : list nat;
  rollbackPending_ : bool;
  beforeGraphDrained_ : bool;
  pc : Pc;
  returned : option (result LifeError unit);
  log : list LifeEvent;
}.

(** Field updates. *)
Definition set_kind v e : Entry :=
  mkEntry v (identity e) (started e) (stopping e).
Definition set_identity v e : Entry :=
  mkEntry (kind e) v (started e) (stopping e).
Definition set_started v e : Entry :=
  mkEntry (kind e) (identity e) v (stopping e).
Definition set_stopping v e : Entry :=
  mkEntry (kind e) (identity e) (started e) v.
Definition set_state_ v l : Lifecycle :=
  mkLifecycle v (entries_ l) (started_ l) (rollbackPending_ l) (beforeGraphDrained_ l) (pc
    l) (returned l) (log l).
Definition set_entries_ v l : Lifecycle :=
  mkLifecycle (state_ l) v (started_ l) (rollbackPending_ l) (beforeGraphDrained_ l) (pc l)
    (returned l) (log l).
Definition set_started_ v l : Lifecycle :=
  mkLifecycle (state_ l) (entries_ l) v (rollbackPending_ l) (beforeGraphDrained_ l) (pc l)
    (returned l) (log l).
Definition set_rollbackPending_ v l : Lifecycle :=
  mkLifecycle (state_ l) (entries_ l) (started_ l) v (beforeGraphDrained_ l) (pc l)
    (returned l) (log l).
Definition set_beforeGraphDrained_ v l : Lifecycle :=
  mkLifecycle (state_ l) (entries_ l) (started_ l) (rollbackPending_ l) v (pc l) (returned
    l) (log l).
Definition set_pc v l : Lifecycle :=
  mkLifecycle (state_ l) (entries_ l) (started_ l) (rollbackPending_ l) (beforeGraphDrained_
    l) v (returned l) (log l).
Definition set_returned v l : Lifecycle :=
  mkLifecycle (state_ l) (entries_ l) (started_ l) (rollbackPending_ l) (beforeGraphDrained_
    l) (pc l) v (log l).
Definition set_log v l : Lifecycle :=
  mkLifecycle (state_ l) (entries_ l) (started_ l) (rollbackPending_ l) (beforeGraphDrained_
    l) (pc l) (returned l) v.

Implicit Types (l : Lifecycle) (e : Entry).

Definition initial : Lifecycle := mkLifecycle kCreated [] [] false false PIdle None [].

Definition upd (i : nat) (f : Entry -> Entry) l : Lifecycle := set_entries_ (alter f i (entries_ l)) l.
Definition emit (ev : LifeEvent) l : Lifecycle := set_log (log l ++ [ev]) l.
Definition return_ (r : result LifeError unit) l : Lifecycle := l |> set_pc PIdle |> set_returned (Some r).

(** [entries_[index(kind)]], as positions. *)
Definition of_kind (k : Kind) (es : list Entry) : list nat :=
  filter (fun i => kind <$> es !! i = Some k) (seq 0 (length es)).

(** [ServiceLifecycle::add]; no component is a null pointer. *)
Definition add (k : Kind) (component : option nat) l : Lifecycle * result LifeError unit :=
  match component with
  | None => (l, Err InvalidArgument)
  | Some ident =>
      if negb (bool_decide (state_ l = kCreated)) then (l, Err LogicError)
      else if existsb (fun e => bool_decide (kind e = k) && (identity e =? ident)%nat) (entries_ l)
      then (l, Err LogicError)
      else (set_entries_ (entries_ l ++ [mkEntry k ident false None]) l, Ok tt)
  end.

Definition kStartOrder : list Kind :=
  [kStorage; kDelayPool; kTaskPool; kPriorityTaskPool; kComponent; kDataSink; kDataSource].

Definition start_list (admission : bool) (es : list Entry) : list nat :=
  kStartOrder ≫= (fun k => if negb admission && bool_decide (k = kDataSource) then [] else of_kind k es).

(** [appendReverse] of several kinds. *)
Definition reverse_of (ks : list Kind) (es : list Entry) : list nat := ks ≫= (fun k => reverse (of_kind k es)).
Definition admission_kinds : list Kind := [kDataSource; kComponent].
Definition executor_kinds : list Kind := [kPriorityTaskPool; kTaskPool; kDelayPool; kStorage].
Definition sink_kinds : list Kind := [kDataSink].

Definition clear l : Lifecycle := l |> set_started_ [] |> set_entries_ [].

(** ** stopPhase *)

(** The first loop starts the stop of one entry, unless it was not started or is under way. *)
Definition launch l (i : nat) : Lifecycle :=
  match entries_ l !! i with
  | Some e =>
      if started e && bool_decide (stopping e = None)
      then l |> upd i (set_stopping (Some (mkStop false false))) |> emit (EStop i) else l
  | None => l
  end.
Definition stopPhase (es : list nat) (next : Cont) l : Lifecycle :=
  foldl launch l es |> set_pc (PWait es false next).

(** After the second loop: rethrow, or what the caller does next. *)
Definition proceed (failure : bool) (next : Cont) l : Lifecycle :=
  if failure then
    return_ (Err (match next with CRollback _ true => StartFailed | _ => ShutdownFailed end)) l
  else
    match next with
    | CRollback (i :: rest) fromStart => stopPhase [i] (CRollback rest fromStart) l
    | CRollback [] fromStart =>
        l |> set_rollbackPending_ false |> set_state_ kStopped |> clear
          |> return_ (if fromStart then Err StartFailed else Ok tt)
    | CAdmission => stopPhase (reverse_of executor_kinds (entries_ l)) CExecutors l
    | CExecutors => l |> set_beforeGraphDrained_ true |> return_ (Ok tt)
    | CSinks => l |> set_state_ kStopped |> clear |> return_ (Ok tt)
    end.

(** One round of the second loop; [cancelled] when the wait gives up. *)
Definition wait_step (cancelled : bool) (i : nat) (todo : list nat) (failure : bool) (next : Cont) l :
    option Lifecycle :=
  match entries_ l !! i with
  | None => None
  | Some e =>
      if negb (started e) then Some (set_pc (PWait todo failure next) l)
      else match stopping e with
           | None => None
           | Some op =>
               if done op then
                 Some (if failed op
                       then l |> upd i (set_stopping None) |> set_pc (PWait todo true next)
                       else l |> upd i (fun e => e |> set_stopping None |> set_started false)
                              |> set_pc (PWait todo failure next))
               else if cancelled then Some (set_pc (PWait todo true next) l) else None
           end
  end.

(** [stopStarted]. *)
Definition stopStarted (fromStart : bool) l : Lifecycle :=
  proceed false (CRollback (reverse (started_ l)) fromStart) l.

(** ** The calls *)

(** [startImpl]: the beginning; [None] while another transition runs. *)
Definition startImpl (admission : bool) l : option Lifecycle :=
  match pc l with
  | PIdle =>
      Some (if bool_decide (state_ l = kCreated)
            then l |> set_state_ kStarting |> set_returned None
                   |> set_pc (PStart (start_list admission (entries_ l)))
            else return_ (Err LogicError) l)
  | _ => None
  end.

Definition stopBeforeGraphDrain l : option Lifecycle :=
  match pc l with
  | PIdle =>
      Some (match state_ l with
            | kCreated => l |> set_state_ kStopped |> clear |> return_ (Ok tt)
            | kStopped => return_ (Ok tt) l
            | _ =>
                if rollbackPending_ l then l |> set_returned None |> stopStarted false
                else if beforeGraphDrained_ l then return_ (Ok tt) l
                else match state_ l with
                     | kRunning | kStopping =>
                         l |> set_state_ kStopping |> set_returned None
                           |> stopPhase (reverse_of admission_kinds (entries_ l)) CAdmission
                     | _ => return_ (Err LogicError) l
                     end
            end)
  | _ => None
  end.

Definition stopAfterGraphDrain l : option Lifecycle :=
  match pc l with
  | PIdle =>
      Some (match state_ l with
            | kStopped => return_ (Ok tt) l
            | _ =>
                if negb (bool_decide (state_ l = kStopping)) || negb (beforeGraphDrained_ l)
                then return_ (Err LogicError) l
                else l |> set_returned None |> stopPhase (reverse_of sink_kinds (entries_ l)) CSinks
            end)
  | _ => None
  end.

Definition isStopped l : bool := bool_decide (state_ l = kStopped).

(** One step of the call under way; [choice] is whether the start of a component succeeds,
    or whether a wait gives up. *)
Definition call_step (choice : bool) l : option Lifecycle :=
  match pc l with
  | PIdle => None
  | PStart [] => Some (l |> set_state_ kRunning |> return_ (Ok tt))
  | PStart (i :: todo) =>
      Some (l |> upd i (set_started true) |> set_started_ (started_ l ++ [i]) |> emit (EStart i)
              |> set_pc (PStarting i todo))
  | PStarting i todo =>
      Some (if choice then l |> emit (EStarted i) |> set_pc (PStart todo)
            else l |> emit (EStartFailed i) |> set_state_ kStopping |> set_rollbackPending_ true
                   |> stopStarted true)
  | PWait [] failure next => Some (proceed failure next l)
  | PWait (i :: todo) failure next => wait_step choice i todo failure next l
  end.

(** The stop of component [i] returns, or throws. *)
Definition complete (i : nat) (ok : bool) l : option Lifecycle :=
  match entries_ l !! i with
  | Some e =>
      match stopping e with
      | Some op =>
          if done op then None
          else Some (l |> upd i (set_stopping (Some (mkStop true (negb ok)))) |> emit (EStopped i ok))
      | None => None
      end
  | None => None
  end.

Inductive Action :=
  | DoAdd (k : Kind) (component : option nat)
  | DoStart (admission : bool)
  | DoStopBefore
  | DoStopAfter
  | DoStep (choice : bool)
  | DoComplete (i : nat) (ok : bool).

Definition perform (a : Action) l : option Lifecycle :=
  match a with
  | DoAdd k component => Some (add k component l).1
  | DoStart admission => startImpl admission l
  | DoStopBefore => stopBeforeGraphDrain l
  | DoStopAfter => stopAfterGraphDrain l
  | DoStep choice => call_step choice l
  | DoComplete i ok => complete i ok l
  end.

Definition step l l' : Prop := exists a, perform a l = Some l'.
Definition reachable l : Prop := rtc step initial l.

Fixpoint run (acts : list Action) l : option Lifecycle :=
  match acts with
  | [] => Some l
  | a :: acts => l ← perform a l; run acts l
  end.
End Life.
