(* ===== verification/LifecycleTheorems.v ===== *)
(** * What the service lifecycle promises

    The history of every component is a path of a small automaton: started once, then
    stopped, again only after a stop that threw, and never after one that returned.  The
    invariants tie the fields of the entries to the state of that automaton and say, for
    each phase of a shutdown, which components may still be up. *)
From Stdlib Require Import Lia.
From S2P Require Import Prelude Lifecycle.
Import Life.

(** ** The automaton of one component *)
Inductive CState := CNew | CStarting | CUp | CStopping | CDown | CBad.

Definition cstep (i : nat) (s : CState) (ev : LifeEvent) : CState :=
  match ev with
  | EStart j => if (j =? i)%nat then match s with CNew => CStarting | _ => CBad end else s
  | EStarted j | EStartFailed j => if (j =? i)%nat then match s with CStarting => CUp | _ => CBad end else s
  | EStop j => if (j =? i)%nat then match s with CUp => CStopping | _ => CBad end else s
  | EStopped j ok =>
      if (j =? i)%nat then match s with CStopping => if ok then CDown else CUp | _ => CBad end else s
  end.
Definition cstate (evs : list LifeEvent) (i : nat) : CState := foldl (cstep i) CNew evs.

(** Not started, or stopped. *)
Definition idle (s : CState) : Prop := s = CNew \/ s = CDown.

Definition subject (ev : LifeEvent) : nat :=
  match ev with EStart j | EStarted j | EStartFailed j | EStop j | EStopped j _ => j end.

Lemma cstate_snoc evs ev i : cstate (evs ++ [ev]) i = cstep i (cstate evs i) ev.
Proof. unfold cstate. by rewrite foldl_app. Qed.
Lemma cstep_other i s ev : subject ev <> i -> cstep i s ev = s.
Proof. intros Hne. destruct ev; simpl in *; destruct (Nat.eqb_spec i0 i); done. Qed.
Lemma cstate_other evs ev i : subject ev <> i -> cstate (evs ++ [ev]) i = cstate evs i.
Proof. intros Hne. by rewrite cstate_snoc, cstep_other. Qed.

(** ** What the invariants look at *)
Implicit Types (l : Lifecycle) (e : Entry).
Definition up l (i : nat) : bool := match entries_ l !! i with Some e => started e | None => false end.
Definition busy l (i : nat) : bool :=
  match entries_ l !! i with Some e => bool_decide (stopping e <> None) | None => false end.
Definition kind_of l (i : nat) : option Kind := kind <$> entries_ l !! i.

Definition starting (p : Pc) : option nat := match p with PStarting i _ => Some i | _ => None end.

(** [sp] is the component whose start is under way. *)
Definition entry_ok l (sp : option nat) (i : nat) e : Prop :=
  match stopping e with
  | None =>
      if started e
      then cstate (log l) i = CUp \/ (cstate (log l) i = CStarting /\ sp = Some i)
      else idle (cstate (log l) i)
  | Some op =>
      started e = true /\
      cstate (log l) i = if done op then (if failed op then CUp else CDown) else CStopping
  end.

Record entries_ok l (sp : option nat) : Prop := {
  entries_in i e : entries_ l !! i = Some e -> entry_ok l sp i e;
  entries_out i : entries_ l !! i = None -> idle (cstate (log l) i);
}.

(** The components of kinds [ks] are down, but for those still waited for. *)
Definition down_but l (ks : list Kind) (todo : list nat) : Prop :=
  forall i k, kind_of l i = Some k -> k ∈ ks -> up l i = true -> i ∈ todo.

Definition cont_ok l (todo : list nat) (failure : bool) (next : Cont) : Prop :=
  match next with
  | CRollback rest _ =>
      rollbackPending_ l = true /\ beforeGraphDrained_ l = false /\
      exists visited, reverse (started_ l) = visited ++ todo ++ rest /\
        (failure = false -> forall i, i ∈ visited -> up l i = false)
  | CAdmission =>
      rollbackPending_ l = false /\ beforeGraphDrained_ l = false /\
      (failure = false -> down_but l admission_kinds todo)
  | CExecutors =>
      rollbackPending_ l = false /\ beforeGraphDrained_ l = false /\ down_but l admission_kinds [] /\
      (failure = false -> down_but l executor_kinds todo)
  | CSinks => beforeGraphDrained_ l = true /\ (failure = false -> down_but l sink_kinds todo)
  end.

Definition fresh l (i : nat) : Prop :=
  is_Some (entries_ l !! i) /\ up l i = false /\ cstate (log l) i = CNew.
Definition quiet l : Prop := forall i, busy l i = false.

Definition pair_events (i : nat) : list LifeEvent := [EStart i; EStarted i].
(** A start under way: what was started so far, in order. *)
Definition start_ok l (doing todo : list nat) : Prop :=
  state_ l = kStarting /\ rollbackPending_ l = false /\ beforeGraphDrained_ l = false /\
  quiet l /\ (forall i, i ∈ todo -> fresh l i) /\ NoDup todo /\
  exists admission before, start_list admission (entries_ l) = before ++ doing ++ todo /\
    started_ l = before ++ doing /\ log l = (before ≫= pair_events) ++ (EStart <$> doing).

Definition pc_ok l : Prop :=
  match pc l with
  | PIdle => state_ l <> kStarting
  | PStart todo => start_ok l [] todo
  | PStarting i todo => start_ok l [i] todo /\ up l i = true /\ cstate (log l) i = CStarting
  | PWait todo failure next =>
      state_ l = kStopping /\ NoDup todo /\
      (forall i, i ∈ todo -> is_Some (entries_ l !! i) /\ (up l i = true -> busy l i = true)) /\
      cont_ok l todo failure next
  end.

(** What does not depend on the program counter. *)
Record base l : Prop := {
  base_started i : up l i = true -> i ∈ started_ l;
  base_range i : i ∈ started_ l -> is_Some (entries_ l !! i);
  base_nodup : NoDup (started_ l);
  base_rollback : rollbackPending_ l = true -> state_ l = kStopping /\ beforeGraphDrained_ l = false;
  base_drained : beforeGraphDrained_ l = true ->
    (state_ l = kStopping \/ state_ l = kStopped) /\ down_but l (admission_kinds ++ executor_kinds) [];
}.

Record inv l : Prop := {
  inv_entries : entries_ok l (starting (pc l));
  inv_pc : pc_ok l;
  inv_base : base l;
  inv_created : state_ l = kCreated ->
    log l = [] /\ started_ l = [] /\ pc l = PIdle /\ rollbackPending_ l = false /\ beforeGraphDrained_ l = false /\
    quiet l /\ (forall i, up l i = false);
  inv_stopped : state_ l = kStopped -> entries_ l = [] /\ started_ l = [] /\ pc l = PIdle;
  inv_running : state_ l = kRunning ->
    rollbackPending_ l = false /\ beforeGraphDrained_ l = false /\ pc l = PIdle /\ quiet l /\
    exists admission, started_ l = start_list admission (entries_ l) /\ log l = started_ l ≫= pair_events;
}.

(** ** Positions by kind *)
Lemma elem_of_kind k es i : i ∈ of_kind k es <-> kind <$> es !! i = Some k.
Proof.
  unfold of_kind. rewrite list_elem_of_filter. split; [by intros [? _]|]. intros E. split; [done|].
  apply elem_of_seq. destruct (es !! i) eqn:Ei; [|done]. apply lookup_lt_Some in Ei. lia.
Qed.
Lemma nodup_of_kind k es : NoDup (of_kind k es).
Proof. apply NoDup_filter, NoDup_seq. Qed.

Lemma nodup_kinds (f : Kind -> list nat) (es : list Entry) ks :
  NoDup ks -> (forall k, NoDup (f k)) -> (forall k i, i ∈ f k -> kind <$> es !! i = Some k) -> NoDup (ks ≫= f).
Proof.
  intros Hks Hf He. induction Hks as [|k ks Hk _ IH]; simpl; [constructor|].
  apply NoDup_app. split; [done|]. split; [|done]. intros i Hi Hi'.
  apply list_elem_of_bind in Hi' as (k' & Hi' & Hk'). apply He in Hi, Hi'. congruence.
Qed.
Lemma nodup_start adm es : NoDup (start_list adm es).
Proof.
  unfold start_list. apply (nodup_kinds _ es).
  - repeat (constructor; [set_solver|]). constructor.
  - intros k. destruct (negb adm && _); [constructor|apply nodup_of_kind].
  - intros k i. destruct (negb adm && _); [by intros ?%elem_of_nil|apply elem_of_kind].
Qed.
Lemma elem_of_reverse_of ks es i : i ∈ reverse_of ks es <-> exists k, k ∈ ks /\ kind <$> es !! i = Some k.
Proof.
  unfold reverse_of. rewrite list_elem_of_bind. split.
  - intros (k & Hi & Hk). exists k. split; [done|]. by apply elem_of_kind, elem_of_reverse.
  - intros (k & Hk & E). exists k. split; [|done]. by apply elem_of_reverse, elem_of_kind.
Qed.
Lemma nodup_reverse_of ks es : NoDup ks -> NoDup (reverse_of ks es).
Proof.
  intros Hks. apply (nodup_kinds _ es); [done| |].
  - intros k. rewrite reverse_Permutation. apply nodup_of_kind.
  - intros k i Hi. by apply elem_of_kind, elem_of_reverse.
Qed.
Lemma start_range adm es i : i ∈ start_list adm es -> is_Some (es !! i).
Proof.
  unfold start_list. rewrite list_elem_of_bind. intros (k & Hi & _).
  destruct (negb adm && _); [by apply elem_of_nil in Hi|]. apply elem_of_kind in Hi. destruct (es !! i); [by eexists|done].
Qed.
Lemma reverse_of_range ks es i : i ∈ reverse_of ks es -> is_Some (es !! i).
Proof. rewrite elem_of_reverse_of. intros (k & _ & E). destruct (es !! i); [by eexists|done]. Qed.

(** ** stopPhase *)

(** What launching keeps. *)
Record kept l l' : Prop := {
  kept_state : state_ l' = state_ l;
  kept_started : started_ l' = started_ l;
  kept_rollback : rollbackPending_ l' = rollbackPending_ l;
  kept_drained : beforeGraphDrained_ l' = beforeGraphDrained_ l;
  kept_view i : kind_of l' i = kind_of l i /\ up l' i = up l i /\ (is_Some (entries_ l' !! i) <-> is_Some (entries_ l !! i));
}.
Lemma kept_refl l : kept l l.
Proof. by split. Qed.
Lemma kept_trans l1 l2 l3 : kept l1 l2 -> kept l2 l3 -> kept l1 l3.
Proof.
  intros [A1 A2 A3 A4 A5] [B1 B2 B3 B4 B5]. split; try congruence. intros i.
  destruct (A5 i) as (? & ? & ?), (B5 i) as (? & ? & ?). split; [congruence|]. split; [congruence|tauto].
Qed.

Lemma down_but_kept l l' ks todo : kept l l' -> down_but l ks todo -> down_but l' ks todo.
Proof.
  intros [_ _ _ _ Hv] Hd i k. destruct (Hv i) as (-> & -> & _). apply Hd.
Qed.
Lemma base_kept l l' : kept l l' -> base l -> base l'.
Proof.
  intros Hk [B1 B2 B3 B4 B5]. pose proof Hk as [K1 K2 K3 K4 K5]. split; rewrite ?K1, ?K2, ?K3, ?K4; try done.
  - intros i. destruct (K5 i) as (_ & -> & _). apply B1.
  - intros i Hi. apply K5, B2, Hi.
  - intros E. destruct (B5 E). split; [done|]. by eapply down_but_kept.
Qed.
Lemma cont_kept l l' todo failure next : kept l l' -> cont_ok l todo failure next -> cont_ok l' todo failure next.
Proof.
  intros Hk. pose proof Hk as [K1 K2 K3 K4 K5]. destruct next; simpl; rewrite ?K2, ?K3, ?K4.
  - intros (? & ? & visited & ? & Hv). split; [done|]. split; [done|]. exists visited. split; [done|].
    intros E i Hi. destruct (K5 i) as (_ & -> & _). by apply Hv.
  - intros (? & ? & ?). split; [done|]. split; [done|]. intros. eapply down_but_kept; eauto.
  - intros (? & ? & ? & ?). split; [done|]. split; [done|]. split; [by eapply down_but_kept|]. intros. eapply down_but_kept; eauto.
  - intros (? & ?). split; [done|]. intros. eapply down_but_kept; eauto.
Qed.

Lemma lookup_upd l i f j :
  entries_ (upd i f l) !! j = if decide (i = j) then f <$> entries_ l !! j else entries_ l !! j.
Proof.
  unfold upd. simpl. destruct (decide (i = j)) as [<-|Hne]; [by rewrite list_lookup_alter_eq|by rewrite list_lookup_alter_ne].
Qed.

Lemma kept_upd l l' i f :
  entries_ l' = alter f i (entries_ l) -> state_ l' = state_ l -> started_ l' = started_ l ->
  rollbackPending_ l' = rollbackPending_ l -> beforeGraphDrained_ l' = beforeGraphDrained_ l ->
  (forall e, kind (f e) = kind e /\ started (f e) = started e) -> kept l l'.
Proof.
  intros E E1 E2 E3 E4 Hf. split; try done. intros j. unfold kind_of, up. rewrite E.
  destruct (decide (i = j)) as [<-|Hne]; [rewrite list_lookup_alter_eq|by rewrite list_lookup_alter_ne].
  destruct (entries_ l !! i) as [e|]; simpl; [|done]. destruct (Hf e) as [-> ->]. split; [done|]. split; [done|].
  split; by eexists.
Qed.

(** An event about entry [i], with the new fields of the entry. *)
Lemma entries_event l l' sp sp' i e e' evs :
  entries_ok l sp -> entries_ l !! i = Some e -> entries_ l' = alter (fun _ => e') i (entries_ l) ->
  log l' = log l ++ evs -> (forall ev, ev ∈ evs -> subject ev = i) -> entry_ok l' sp' i e' ->
  (forall j, j <> i -> sp = Some j -> sp' = Some j) -> entries_ok l' sp'.
Proof.
  intros [Hin Hout] Hi Ee El Hs He Hsp.
  assert (Hc : forall j, j <> i -> cstate (log l') j = cstate (log l) j).
  { intros j Hj. rewrite El. clear -Hs Hj. induction evs as [|ev evs IH] using rev_ind; [by rewrite app_nil_r|].
    rewrite app_assoc, cstate_other; [apply IH; set_solver|]. rewrite Hs; [done|set_solver]. }
  split.
  - intros j ej Hj. rewrite Ee in Hj. destruct (decide (j = i)) as [->|Hne].
    + rewrite list_lookup_alter_eq, Hi in Hj. injection Hj as <-. done.
    + rewrite list_lookup_alter_ne in Hj by done. specialize (Hin j ej Hj). unfold entry_ok in *. rewrite Hc by done.
      destruct (stopping ej); [done|]. destruct (started ej); [|done]. destruct Hin as [?|[? ?]]; [by left|right]. auto.
  - intros j Hj. rewrite Ee in Hj. destruct (decide (j = i)) as [->|Hne].
    + rewrite list_lookup_alter_eq, Hi in Hj. done.
    + rewrite list_lookup_alter_ne in Hj by done. rewrite Hc by done. auto.
Qed.

Lemma alter_const {B} (f : B -> B) (m : list B) i x : m !! i = Some x -> alter f i m = alter (fun _ => f x) i m.
Proof.
  intros Hx. apply list_eq. intros j. destruct (decide (i = j)) as [<-|Hne].
  - by rewrite !list_lookup_alter_eq, Hx.
  - by rewrite !list_lookup_alter_ne.
Qed.

Lemma launch_ok l i :
  entries_ok l None -> entries_ok (launch l i) None /\ kept l (launch l i) /\
  (up (launch l i) i = true -> busy (launch l i) i = true) /\ (forall j, busy l j = true -> busy (launch l i) j = true).
Proof.
  intros Hok. unfold launch. destruct (entries_ l !! i) as [e|] eqn:Hi.
  2:{ split; [done|]. split; [apply kept_refl|]. split; [|done]. unfold up. by rewrite Hi. }
  destruct (started e && bool_decide (stopping e = None)) eqn:Eb.
  - bool_to_prop. split; [|split; [|split]].
    + eapply entries_event with (evs := [EStop i]); [exact Hok|exact Hi|simpl; by apply alter_const|done|..].
      * intros ev ->%list_elem_of_singleton. done.
      * pose proof (entries_in _ _ Hok i e Hi) as He. unfold entry_ok in *. simpl.
        rewrite H0, H in He. destruct He as [He|[_ ?]]; [|done]. split; [done|]. rewrite cstate_snoc, He. simpl.
        by rewrite Nat.eqb_refl.
      * done.
    + by eapply kept_upd.
    + unfold busy. simpl. rewrite list_lookup_alter_eq, Hi. done.
    + intros j. unfold busy. simpl. destruct (decide (i = j)) as [<-|Hne].
      * rewrite list_lookup_alter_eq, Hi. done.
      * by rewrite list_lookup_alter_ne.
  - split; [done|]. split; [apply kept_refl|]. split; [|done]. unfold up, busy. rewrite Hi. intros Es. rewrite Es in Eb. simpl in Eb.
    bool_to_prop. by apply bool_decide_eq_true.
Qed.

Lemma launch_all l es :
  entries_ok l None -> entries_ok (foldl launch l es) None /\ kept l (foldl launch l es) /\
  (forall i, i ∈ es -> up (foldl launch l es) i = true -> busy (foldl launch l es) i = true) /\
  (forall j, busy l j = true -> busy (foldl launch l es) j = true).
Proof.
  revert l. induction es as [|i es IH]; intros l Hok; simpl.
  { split; [done|]. split; [apply kept_refl|]. split; [by intros i ?%elem_of_nil|done]. }
  destruct (launch_ok l i Hok) as (Hok1 & Hk1 & Hb1 & Hm1). destruct (IH _ Hok1) as (Hok2 & Hk2 & Hb2 & Hm2).
  split; [done|]. split; [by eapply kept_trans|]. split; [|auto]. intros j [->|Hj]%elem_of_cons Hu; [|auto].
  apply Hm2, Hb1. destruct (kept_view _ _ Hk2 i) as (_ & E & _). congruence.
Qed.

(** The invariant of a state in a shutdown or a rollback. *)
Lemma inv_stopping l :
  state_ l = kStopping -> entries_ok l None -> starting (pc l) = None -> base l -> pc_ok l -> inv l.
Proof. intros Hs He Hn Hb Hp. split; rewrite ?Hn; try done; congruence. Qed.

Lemma inv_phase l es next :
  entries_ok l None -> state_ l = kStopping -> base l -> NoDup es -> (forall i, i ∈ es -> is_Some (entries_ l !! i)) ->
  cont_ok l es false next -> inv (stopPhase es next l).
Proof.
  intros He Hs Hb Hn Hr Hc. unfold stopPhase. destruct (launch_all l es He) as (He' & Hk & Hbusy & _).
  set (l' := foldl launch l es) in *. apply inv_stopping; try done.
  - simpl. by rewrite (kept_state _ _ Hk).
  - destruct He' as [Hin Hout]. by split.
  - destruct (base_kept _ _ Hk Hb) as [? ? ? ? ?]. by split.
  - unfold pc_ok. simpl. rewrite (kept_state _ _ Hk). split; [done|]. split; [done|]. split.
    + intros i Hi. split; [by apply (kept_view _ _ Hk), Hr|]. by apply Hbusy.
    + apply (cont_kept _ _ _ _ _ Hk) in Hc. destruct next; exact Hc.
Qed.

Lemma idle_all l : entries_ok l None -> (forall i, up l i = false) -> forall i, idle (cstate (log l) i).
Proof.
  intros [Hin Hout] Hup i. destruct (entries_ l !! i) as [e|] eqn:Hi; [|auto]. specialize (Hin i e Hi).
  specialize (Hup i). unfold up in Hup. rewrite Hi in Hup. unfold entry_ok in Hin.
  destruct (stopping e); [destruct Hin; congruence|]. by rewrite Hup in Hin.
Qed.

(** Everything is down: the entries can be forgotten. *)
Lemma inv_cleared l l' :
  entries_ok l None -> (forall i, up l i = false) -> entries_ l' = [] -> started_ l' = [] -> log l' = log l ->
  state_ l' = kStopped -> pc l' = PIdle -> rollbackPending_ l' = false -> inv l'.
Proof.
  intros He Hup E1 E2 E3 E4 E5 E6. pose proof (idle_all l He Hup) as Hidle.
  assert (Hup' : forall i, up l' i = false) by (intros i; unfold up; by rewrite E1).
  split; rewrite ?E5; simpl; try done; try congruence.
  - split; rewrite ?E1, ?E3; [done|auto].
  - unfold pc_ok. rewrite E5. congruence.
  - split; rewrite ?E2, ?E4, ?E6; try done; try (by constructor).
    + intros i. by rewrite Hup'.
    + by intros i ?%elem_of_nil.
    + intros _. split; [by right|]. intros i k _ _. by rewrite Hup'.
Qed.

Lemma down_all l : down_but l (admission_kinds ++ executor_kinds) [] -> down_but l sink_kinds [] -> forall i, up l i = false.
Proof.
  intros H1 H2 i. destruct (up l i) eqn:Hu; [exfalso|done]. unfold up in Hu.
  destruct (entries_ l !! i) as [e|] eqn:Hi; [|done].
  assert (Hk : kind_of l i = Some (kind e)) by (unfold kind_of; by rewrite Hi).
  assert (Hup : up l i = true) by (unfold up; by rewrite Hi).
  destruct (decide (kind e ∈ sink_kinds)) as [Hin|Hin].
  - specialize (H2 i _ Hk Hin Hup). by apply elem_of_nil in H2.
  - assert (Hin' : kind e ∈ admission_kinds ++ executor_kinds)
      by (unfold sink_kinds, admission_kinds, executor_kinds in *; destruct (kind e); set_solver).
    specialize (H1 i _ Hk Hin' Hup). by apply elem_of_nil in H1.
Qed.

Lemma down_all_of l ks : down_but l ks (reverse_of ks (entries_ l)).
Proof. intros i k Hk Hin _. apply elem_of_reverse_of. by exists k. Qed.

Lemma inv_return l r : entries_ok l None -> state_ l = kStopping -> base l -> inv (return_ r l).
Proof.
  intros He Hs [? ? ? ? ?]. apply inv_stopping; try done.
  - destruct He. by split.
  - unfold pc_ok. simpl. congruence.
Qed.

Lemma inv_proceed l failure next :
  entries_ok l None -> state_ l = kStopping -> base l -> cont_ok l [] failure next -> inv (proceed failure next l).
Proof.
  intros He Hs Hb Hc. unfold proceed. destruct failure; [by apply inv_return|]. destruct next as [[|i rest] fs| | |]; simpl in Hc.
  - destruct Hc as (_ & _ & visited & Ev & Hv). eapply (inv_cleared l); try done. intros i.
    destruct (up l i) eqn:Hu; [exfalso|done]. apply (base_started _ Hb) in Hu as Hi. apply elem_of_reverse in Hi.
    rewrite Ev, app_nil_r in Hi. rewrite Hv in Hu by done. done.
  - destruct Hc as (Hr & Hd & visited & Ev & Hv). apply inv_phase; try done.
    + repeat constructor. set_solver.
    + intros j ->%list_elem_of_singleton. apply (base_range _ Hb), elem_of_reverse. rewrite Ev. set_solver.
    + split; [done|]. split; [done|]. exists visited. split; [done|auto].
  - destruct Hc as (Hr & Hd & Hdown). apply inv_phase; try done.
    + apply nodup_reverse_of. repeat (constructor; [set_solver|]). constructor.
    + intros i. apply reverse_of_range.
    + split; [done|]. split; [done|]. split; [auto|]. intros _. apply down_all_of.
  - destruct Hc as (Hr & Hd & Ha & Hx). specialize (Hx eq_refl). apply inv_return.
    + destruct He. by split.
    + done.
    + destruct Hb as [B1 B2 B3 B4 B5]. split; try done; simpl.
      * intros E. congruence.
      * intros _. split; [by left|]. intros i k Hk Hin Hu. change (k ∈ admission_kinds ++ executor_kinds) in Hin.
        apply elem_of_app in Hin as [Hin|Hin]; [by eapply Ha|by eapply Hx].
  - destruct Hc as (Hd & Hx). eapply (inv_cleared l); try done.
    + apply down_all; [by apply (base_drained _ Hb)|by apply Hx].
    + simpl. destruct (rollbackPending_ l) eqn:E; [|done]. destruct (base_rollback _ Hb E). congruence.
Qed.

(** ** The steps *)
Lemma of_kind_ext k (es es' : list Entry) : kind <$> es = kind <$> es' -> of_kind k es = of_kind k es'.
Proof.
  intros E. assert (Hl : length es = length es') by (rewrite <- (length_fmap kind es), E; apply length_fmap).
  unfold of_kind. rewrite Hl. apply list_filter_iff. intros i. by rewrite <- !list_lookup_fmap, E.
Qed.
Lemma start_list_ext adm (es es' : list Entry) : kind <$> es = kind <$> es' -> start_list adm es = start_list adm es'.
Proof. intros E. unfold start_list, kStartOrder. simpl. by rewrite !(of_kind_ext _ _ _ E). Qed.
Lemma kinds_alter f i (es : list Entry) : (forall e, kind (f e) = kind e) -> kind <$> alter f i es = kind <$> es.
Proof.
  intros Hf. apply list_eq. intros j. rewrite !list_lookup_fmap. destruct (decide (i = j)) as [<-|Hne].
  - rewrite list_lookup_alter_eq. destruct (es !! i); simpl; congruence.
  - by rewrite list_lookup_alter_ne.
Qed.

Lemma up_upd l l' i f j : entries_ l' = alter f i (entries_ l) -> j <> i -> up l' j = up l j /\ busy l' j = busy l j.
Proof. intros E Hj. unfold up, busy. by rewrite E, list_lookup_alter_ne by done. Qed.

Lemma pairs_snoc before i : (before ≫= pair_events) ++ [EStart i] ++ [EStarted i] = (before ++ [i]) ≫= pair_events.
Proof. by rewrite bind_app. Qed.

Lemma inv_add k component l : inv l -> inv (add k component l).1.
Proof.
  intros Hinv. unfold add. destruct component as [ident|]; [|done].
  case_bool_decide as Hs; [|done]. simpl. destruct (existsb _ _); [done|]. simpl.
  destruct (inv_created _ Hinv Hs) as (E1 & E2 & E3 & E4 & E5 & Hq & Hu).
  set (l' := set_entries_ (entries_ l ++ [mkEntry k ident false None]) l).
  assert (Hv : forall i, up l' i = false /\ busy l' i = false).
  { intros i. specialize (Hq i). specialize (Hu i). unfold up, busy in *. simpl.
    destruct (decide (i < length (entries_ l))%nat) as [Hi|Hi]; [by rewrite lookup_app_l|].
    rewrite lookup_app_r by lia. destruct (i - length (entries_ l))%nat as [|[|]]; done. }
  split; simpl; try (by rewrite Hs); try congruence.
  - split.
    + intros i e Hi. unfold entry_ok. simpl. rewrite E1. destruct (Hv i) as [Hu' Hb']. unfold up, busy in *. simpl in *.
      rewrite Hi in *. destruct (stopping e); [done|]. rewrite Hu'. by left.
    + intros i _. simpl. rewrite E1. by left.
  - unfold pc_ok. simpl. rewrite E3, Hs. done.
  - split; simpl; rewrite ?E2, ?E4, ?E5; try done; try (by constructor).
    + intros i. destruct (Hv i) as [-> _]. done.
    + by intros i ?%elem_of_nil.
  - intros _. repeat split; try done; intros i; apply Hv.
Qed.

(** A call that returns at once. *)
Lemma inv_idle r l : inv l -> pc l = PIdle -> inv (return_ r l).
Proof.
  intros [[Hin Hout] Hpok [? ? ? ? ?] Hcr Hst Hru] Hpc. rewrite Hpc in Hin. unfold pc_ok in Hpok. rewrite Hpc in Hpok.
  split; try done.
  - simpl. intros E. destruct (Hcr E) as (? & ? & _ & ?). done.
  - simpl. intros E. destruct (Hst E) as (? & ? & _). done.
  - simpl. intros E. destruct (Hru E) as (? & ? & _ & ?). done.
Qed.

Lemma life_start adm l l' : inv l -> startImpl adm l = Some l' -> inv l'.
Proof.
  intros Hinv Hp. unfold startImpl in Hp. destruct (pc l) eqn:Hpc; try done. injection Hp as <-.
  case_bool_decide as Hs.
  - destruct (inv_created _ Hinv Hs) as (E1 & E2 & E3 & E4 & E5 & Hq & Hu). destruct (inv_entries _ Hinv) as [Hin Hout].
    rewrite Hpc in Hin. split; simpl; try done.
    + unfold pc_ok. simpl. split; [done|]. split; [done|]. split; [done|]. split; [done|].
      split; [|split; [apply nodup_start|]].
      * intros i Hi. split; [by eapply start_range|]. split; [apply Hu|]. simpl. by rewrite E1.
      * exists adm, []. simpl. rewrite E1, E2. done.
    + destruct (inv_base _ Hinv) as [? ? ? ? ?]. split; simpl; try done; congruence.
  - by apply inv_idle.
Qed.

Lemma not_busy l i e : busy l i = false -> entries_ l !! i = Some e -> stopping e = None.
Proof.
  unfold busy. intros Hb Hi. rewrite Hi in Hb. apply bool_decide_eq_false in Hb. destruct (stopping e); [|done].
  by destruct Hb.
Qed.
Lemma alter_self {B} (m : list B) i x : m !! i = Some x -> m = alter (fun _ => x) i m.
Proof.
  intros Hx. apply list_eq. intros j. destruct (decide (i = j)) as [<-|Hne].
  - by rewrite list_lookup_alter_eq, Hx.
  - by rewrite list_lookup_alter_ne.
Qed.

Lemma inv_start_one l i todo :
  inv l -> pc l = PStart (i :: todo) ->
  inv (l |> upd i (set_started true) |> set_started_ (started_ l ++ [i]) |> emit (EStart i) |> set_pc (PStarting i todo)).
Proof.
  intros Hinv Hpc. pose proof (inv_pc _ Hinv) as Hok. unfold pc_ok in Hok. rewrite Hpc in Hok.
  destruct Hok as (Hs & Hr & Hd & Hq & Hf & Hn & adm & before & Es & Est & El). apply NoDup_cons in Hn as [Hni Hn].
  destruct (Hf i) as ([e Hi] & Hui & Hci); [set_solver|].
  assert (Hse : stopping e = None).
  { by apply (not_busy l i). }
  set (l' := l |> upd i (set_started true) |> set_started_ (started_ l ++ [i]) |> emit (EStart i) |> set_pc (PStarting i todo)).
  assert (Ee : entries_ l' = alter (set_started true) i (entries_ l)) by done.
  assert (Hv : forall j, j <> i -> up l' j = up l j /\ busy l' j = busy l j) by (intros; by eapply up_upd).
  assert (Hvi : up l' i = true /\ busy l' i = false).
  { unfold up, busy. rewrite Ee, list_lookup_alter_eq, Hi. simpl. by rewrite Hse. }
  split; try (simpl; congruence).
  - simpl. eapply entries_event with (evs := [EStart i]);
      [exact (inv_entries _ Hinv)|exact Hi|rewrite Ee; by apply alter_const|done|..].
    + by intros ev ->%list_elem_of_singleton.
    + unfold entry_ok. simpl. rewrite Hse, cstate_snoc, Hci. simpl. rewrite Nat.eqb_refl. by right.
    + rewrite Hpc. done.
  - unfold pc_ok. simpl. rewrite cstate_snoc, Hci. simpl. rewrite Nat.eqb_refl. split; [|by destruct Hvi].
    split; [done|]. split; [done|]. split; [done|]. split; [|split; [|split; [done|]]].
    + intros j. destruct (decide (j = i)) as [->|Hne]; [by destruct Hvi|]. destruct (Hv j Hne) as [_ ->]. apply Hq.
    + intros j Hj. assert (Hne : j <> i) by (intros ->; done). destruct (Hf j) as (Hj1 & Hj2 & Hj3); [set_solver|].
      split; [|split].
      * rewrite Ee, list_lookup_alter_ne by done. done.
      * destruct (Hv j Hne) as [-> _]. done.
      * simpl. by rewrite cstate_other.
    + exists adm, before. split; [|split].
      * rewrite Ee. rewrite (start_list_ext adm _ (entries_ l)) by (by apply kinds_alter). done.
      * simpl. by rewrite Est, app_nil_r.
      * simpl. rewrite El. simpl. by rewrite app_nil_r.
  - destruct (inv_base _ Hinv) as [B1 B2 B3 B4 B5]. split; simpl; try done; try congruence.
    + intros j Hu. apply elem_of_app. destruct (decide (j = i)) as [->|Hne]; [right; set_solver|left].
      apply B1. destruct (Hv j Hne) as [<- _]. done.
    + intros j Hj. destruct (decide (i = j)) as [<-|Hne]; [rewrite list_lookup_alter_eq, Hi; by eexists|].
      rewrite list_lookup_alter_ne by done. apply elem_of_app in Hj as [Hj| ->%list_elem_of_singleton]; [by apply B2|done].
    + apply NoDup_app. split; [done|]. split; [|apply NoDup_singleton]. intros j Hj ->%list_elem_of_singleton.
      rewrite Est in Hj. pose proof (nodup_start adm (entries_ l)) as Hnd. rewrite Es in Hnd.
      apply NoDup_app in Hnd as (_ & Hdis & _). apply (Hdis i); set_solver.
Qed.

(** The start of a component ends. *)
Lemma entries_start_over l l' i todo ev :
  inv l -> pc l = PStarting i todo -> entries_ l' = entries_ l -> log l' = log l ++ [ev] -> subject ev = i ->
  cstep i CStarting ev = CUp -> entries_ok l' None.
Proof.
  intros Hinv Hpc Ee El Hs Hev. pose proof (inv_pc _ Hinv) as Hok. unfold pc_ok in Hok. rewrite Hpc in Hok.
  destruct Hok as (_ & Hu & Hc).
  assert (Hi : exists e, entries_ l !! i = Some e) by (unfold up in Hu; destruct (entries_ l !! i); [eauto|done]).
  destruct Hi as [e Hi]. eapply entries_event with (evs := [ev]);
    [exact (inv_entries _ Hinv)|exact Hi|rewrite Ee; by apply alter_self|done|..].
  - by intros ev' ->%list_elem_of_singleton.
  - pose proof (entries_in _ _ (inv_entries _ Hinv) i e Hi) as He. unfold entry_ok in *. rewrite El, cstate_snoc, Hc, Hev.
    destruct (stopping e) as [op|].
    + destruct He as [_ He]. rewrite Hc in He. destruct (done op), (failed op); done.
    + destruct (started e); [by left|]. destruct He; congruence.
  - rewrite Hpc. simpl. congruence.
Qed.

Lemma inv_started_one l i todo :
  inv l -> pc l = PStarting i todo -> inv (l |> emit (EStarted i) |> set_pc (PStart todo)).
Proof.
  intros Hinv Hpc. pose proof (inv_pc _ Hinv) as Hok. unfold pc_ok in Hok. rewrite Hpc in Hok.
  destruct Hok as ((Hs & Hr & Hd & Hq & Hf & Hn & adm & before & Es & Est & El) & Hu & Hc).
  assert (Hni : forall j, j ∈ todo -> j <> i).
  { intros j Hj ->. destruct (Hf i Hj) as (_ & ? & _). congruence. }
  split; try (simpl; congruence).
  - eapply (entries_start_over l); try done. simpl. by rewrite Nat.eqb_refl.
  - unfold pc_ok. simpl. split; [done|]. split; [done|]. split; [done|]. split; [done|]. split; [|split; [done|]].
    + intros j Hj. destruct (Hf j Hj) as (? & ? & ?). split; [done|]. split; [done|]. simpl.
      rewrite cstate_other; [done|]. simpl. intros ->. by eapply Hni.
    + exists adm, (before ++ [i]). split; [simpl in *; by rewrite Es, <- app_assoc|]. split; [simpl; by rewrite app_nil_r|].
      simpl. rewrite El, app_nil_r. simpl. by rewrite <- app_assoc, pairs_snoc.
  - destruct (inv_base _ Hinv) as [? ? ? ? ?]. by split.
Qed.

Lemma inv_start_failed l i todo :
  inv l -> pc l = PStarting i todo ->
  inv (l |> emit (EStartFailed i) |> set_state_ kStopping |> set_rollbackPending_ true |> stopStarted true).
Proof.
  intros Hinv Hpc. pose proof (inv_pc _ Hinv) as Hok. unfold pc_ok in Hok. rewrite Hpc in Hok.
  destruct Hok as ((Hs & Hr & Hd & _) & _). unfold stopStarted. apply inv_proceed; [|done| |].
  - eapply (entries_start_over l); try done. simpl. by rewrite Nat.eqb_refl.
  - destruct (inv_base _ Hinv) as [? ? ? ? ?]. split; simpl; try done. congruence.
  - simpl. split; [done|]. split; [done|]. exists []. split; [done|]. by intros _ j ?%elem_of_nil.
Qed.

Lemma inv_start_done l : inv l -> pc l = PStart [] -> inv (l |> set_state_ kRunning |> return_ (Ok tt)).
Proof.
  intros Hinv Hpc. pose proof (inv_pc _ Hinv) as Hok. unfold pc_ok in Hok. rewrite Hpc in Hok.
  destruct Hok as (Hs & Hr & Hd & Hq & _ & _ & adm & before & Es & Est & El).
  destruct (inv_entries _ Hinv) as [Hin Hout]. rewrite Hpc in Hin. split; try done.
  - destruct (inv_base _ Hinv) as [? ? ? ? ?]. split; simpl; try done; congruence.
  - intros _. split; [done|]. split; [done|]. split; [done|]. split; [done|]. exists adm. simpl in *.
    rewrite Es, Est, El, !app_nil_r. done.
Qed.

(** One entry less to wait for. *)
Lemma cont_next l l' i todo failure failure' next :
  cont_ok l (i :: todo) failure next -> state_ l' = state_ l -> started_ l' = started_ l ->
  rollbackPending_ l' = rollbackPending_ l -> beforeGraphDrained_ l' = beforeGraphDrained_ l ->
  (forall j, kind_of l' j = kind_of l j) -> (forall j, up l' j = true -> up l j = true) ->
  (failure' = false -> failure = false /\ up l' i = false) -> cont_ok l' todo failure' next.
Proof.
  intros Hc E1 E2 E3 E4 Hk Hu Hf.
  assert (Hd : forall ks, (failure = false -> down_but l ks (i :: todo)) -> failure' = false -> down_but l' ks todo).
  { intros ks Hd E j k. rewrite Hk. intros Hj Hin Hup. destruct (Hf E) as [E' Hi].
    pose proof (Hd E' j k Hj Hin (Hu _ Hup)) as Hj'. apply elem_of_cons in Hj' as [->|?]; [congruence|done]. }
  destruct next; simpl in *; rewrite ?E2, ?E3, ?E4.
  - destruct Hc as (? & ? & visited & Ev & Hv). split; [done|]. split; [done|]. exists (visited ++ [i]).
    split; [by rewrite Ev, <- app_assoc|]. intros E j Hj. destruct (Hf E) as [E' Hi].
    destruct (up l' j) eqn:Hj'; [|done]. apply elem_of_app in Hj as [Hj| ->%list_elem_of_singleton]; [|congruence].
    rewrite <- (Hv E' j Hj). symmetry. by apply Hu.
  - destruct Hc as (? & ? & ?). auto.
  - destruct Hc as (? & ? & Ha & ?). split; [done|]. split; [done|]. split; [|auto].
    intros j k. rewrite Hk. intros Hj Hin Hup. by apply (Ha j k Hj Hin), Hu.
  - destruct Hc as (? & ?). auto.
Qed.

Lemma inv_wait cancelled l l' i todo failure next :
  inv l -> pc l = PWait (i :: todo) failure next -> wait_step cancelled i todo failure next l = Some l' -> inv l'.
Proof.
  intros Hinv Hpc Hw. pose proof (inv_pc _ Hinv) as Hok. unfold pc_ok in Hok. rewrite Hpc in Hok.
  destruct Hok as (Hs & Hn & Hall & Hc). apply NoDup_cons in Hn as [Hni Hn].
  pose proof (inv_entries _ Hinv) as He. rewrite Hpc in He. simpl in He. pose proof (inv_base _ Hinv) as Hb.
  assert (Hmove : forall failure', (failure' = false -> failure = false /\ up l i = false) ->
    inv (set_pc (PWait todo failure' next) l)).
  { intros failure' Hf. apply inv_stopping; try done.
    - destruct He. by split.
    - destruct Hb. by split.
    - unfold pc_ok. simpl. split; [done|]. split; [done|]. split; [intros j Hj; apply Hall; set_solver|].
      by eapply (cont_next l). }
  unfold wait_step in Hw. destruct (entries_ l !! i) as [e|] eqn:Hi; [|done].
  destruct (started e) eqn:Hse; simpl in Hw.
  2:{ injection Hw as <-. apply Hmove. intros E. split; [done|]. unfold up. by rewrite Hi. }
  destruct (stopping e) as [op|] eqn:Hop; [|done]. pose proof (entries_in _ _ He i e Hi) as Hent.
  unfold entry_ok in Hent. rewrite Hop in Hent. destruct Hent as [_ Hcs].
  destruct (done op) eqn:Hdone; [|destruct cancelled; [|done]; injection Hw as <-; by apply Hmove].
  injection Hw as <-.
  assert (Hres : forall f failure', kind (f e) = kind e -> (forall e, kind (f e) = kind e) -> stopping (f e) = None ->
    entry_ok l None i (f e) -> (failure' = false -> failure = false /\ started (f e) = false) ->
    inv (l |> upd i f |> set_pc (PWait todo failure' next))).
  { intros f failure' Hk Hks Hst Hent Hf. set (l' := l |> upd i f |> set_pc (PWait todo failure' next)).
    assert (Ee : entries_ l' = alter f i (entries_ l)) by done.
    assert (Hv : forall j, j <> i -> up l' j = up l j /\ busy l' j = busy l j) by (intros; by eapply up_upd).
    assert (Hvi : up l' i = started (f e)) by (unfold up; by rewrite Ee, list_lookup_alter_eq, Hi).
    assert (Hup : forall j, up l' j = true -> up l j = true).
    { intros j. destruct (decide (j = i)) as [->|Hne]; [intros _; unfold up; by rewrite Hi|by destruct (Hv j Hne) as [-> _]]. }
    assert (Hkk : forall j, kind_of l' j = kind_of l j).
    { intros j. unfold kind_of. rewrite <- !list_lookup_fmap, Ee, kinds_alter by done. done. }
    assert (Hsome : forall j, is_Some (entries_ l !! j) -> is_Some (entries_ l' !! j)).
    { intros j Hj. rewrite Ee. destruct (decide (i = j)) as [<-|Hne]; [rewrite list_lookup_alter_eq; by apply fmap_is_Some|].
      by rewrite list_lookup_alter_ne. }
    apply inv_stopping; try done.
    - eapply entries_event with (evs := []); [exact He|exact Hi|rewrite Ee; by apply alter_const|simpl; by rewrite app_nil_r|..];
        [by intros ev ?%elem_of_nil|done|done].
    - destruct Hb as [B1 B2 B3 B4 B5]. split; try done.
      + intros j Hu. apply B1, Hup, Hu.
      + intros j Hj. apply Hsome, B2, Hj.
      + intros E. destruct (B5 E) as [? Hd]. split; [done|]. intros j k. rewrite Hkk. intros Hj Hin Hu. by eapply Hd; eauto.
    - unfold pc_ok. simpl. split; [done|]. split; [done|]. split.
      + intros j Hj. assert (Hne : j <> i) by (intros ->; done). destruct (Hall j) as [Hj1 Hj2]; [set_solver|].
        split; [by apply Hsome|]. destruct (Hv j Hne) as [-> ->]. done.
      + eapply (cont_next l); try done. intros E. rewrite Hvi. auto. }
  destruct (failed op) eqn:Hfail; (eapply Hres; try done); unfold entry_ok; simpl.
  - rewrite Hse. by left.
  - by right.
Qed.

Lemma inv_complete i ok l l' : inv l -> complete i ok l = Some l' -> inv l'.
Proof.
  intros Hinv Hp. unfold complete in Hp. destruct (entries_ l !! i) as [e|] eqn:Hi; [|done].
  destruct (stopping e) as [op|] eqn:Hop; [|done]. destruct (done op) eqn:Hdone; [done|]. injection Hp as <-.
  set (l' := l |> upd i (set_stopping (Some (mkStop true (negb ok)))) |> emit (EStopped i ok)).
  assert (Hk : kept l l') by (by eapply kept_upd).
  pose proof (entries_in _ _ (inv_entries _ Hinv) i e Hi) as Hent. unfold entry_ok in Hent. rewrite Hop, Hdone in Hent.
  destruct Hent as [Hst Hcs].
  assert (Hbusy : busy l i = true) by (unfold busy; rewrite Hi, Hop; done).
  assert (He : entries_ok l' (starting (pc l))).
  { eapply entries_event with (evs := [EStopped i ok]);
      [exact (inv_entries _ Hinv)|exact Hi|simpl; by apply alter_const|done|..].
    - by intros ev ->%list_elem_of_singleton.
    - unfold entry_ok. simpl. split; [done|]. rewrite cstate_snoc, Hcs. simpl. rewrite Nat.eqb_refl. by destruct ok.
    - done. }
  assert (Hnq : ~ quiet l) by (intros Hq; specialize (Hq i); congruence).
  assert (Hpc : match pc l with PStart _ | PStarting _ _ => False | _ => True end).
  { pose proof (inv_pc _ Hinv) as Hok. unfold pc_ok in Hok.
    destruct (pc l); try done; [destruct Hok as (_ & _ & _ & ? & _)|destruct Hok as [(_ & _ & _ & ? & _) _]]; done. }
  split; [done| | | | |].
  - pose proof (inv_pc _ Hinv) as Hok. unfold pc_ok in *. simpl. destruct (pc l); try done.
    destruct Hok as (? & ? & Hall & Hc). split; [done|]. split; [done|]. split.
    + intros j Hj. destruct (Hall j Hj) as [H1 H2]. destruct (kept_view _ _ Hk j) as (_ & -> & Hsome). split; [by apply Hsome|].
      intros Hu. specialize (H2 Hu). unfold busy in *. simpl. destruct (decide (i = j)) as [<-|Hne].
      * by rewrite list_lookup_alter_eq, Hi.
      * by rewrite list_lookup_alter_ne.
    + by eapply cont_kept.
  - by eapply base_kept, Hinv.
  - intros E. destruct (inv_created _ Hinv E) as (_ & _ & _ & _ & _ & ? & _). done.
  - intros E. destruct (inv_stopped _ Hinv E) as (Ee & _). rewrite Ee in Hi. done.
  - intros E. destruct (inv_running _ Hinv E) as (_ & _ & _ & ? & _). done.
Qed.

Lemma entries_idle l : inv l -> pc l = PIdle -> entries_ok l None.
Proof. intros Hinv Hpc. pose proof (inv_entries _ Hinv) as He. by rewrite Hpc in He. Qed.

Lemma inv_stop_before l l' : inv l -> stopBeforeGraphDrain l = Some l' -> inv l'.
Proof.
  intros Hinv Hp. unfold stopBeforeGraphDrain in Hp. destruct (pc l) eqn:Hpc; try done. injection Hp as <-.
  pose proof (entries_idle l Hinv Hpc) as He. pose proof (inv_base _ Hinv) as Hb.
  assert (Hroll : rollbackPending_ l = true -> inv (l |> set_returned None |> stopStarted false)).
  { intros Hr. destruct (base_rollback _ Hb Hr) as [Hs Hd]. apply inv_proceed; [by destruct He; split|done|by destruct Hb; split|].
    simpl. split; [done|]. split; [done|]. exists []. split; [done|]. by intros _ j ?%elem_of_nil. }
  assert (Hphase : state_ l = kRunning \/ state_ l = kStopping -> rollbackPending_ l = false -> beforeGraphDrained_ l = false ->
    inv (l |> set_state_ kStopping |> set_returned None |> stopPhase (reverse_of admission_kinds (entries_ l)) CAdmission)).
  { intros _ Hr Hd. apply inv_phase; [by destruct He; split|done| |apply nodup_reverse_of|intros i; apply reverse_of_range|].
    - destruct Hb as [? ? ? ? ?]. split; simpl; try done; congruence.
    - repeat (constructor; [set_solver|]). constructor.
    - split; [done|]. split; [done|]. intros _. exact (down_all_of l admission_kinds). }
  destruct (state_ l) eqn:Hs.
  - destruct (inv_created _ Hinv Hs) as (_ & _ & _ & Hr & _ & _ & Hu). by eapply (inv_cleared l).
  - pose proof (inv_pc _ Hinv) as Hok. unfold pc_ok in Hok. rewrite Hpc in Hok. congruence.
  - destruct (rollbackPending_ l) eqn:Hr; [auto|]. destruct (beforeGraphDrained_ l) eqn:Hd; [by apply inv_idle|auto].
  - destruct (rollbackPending_ l) eqn:Hr; [auto|]. destruct (beforeGraphDrained_ l) eqn:Hd; [by apply inv_idle|auto].
  - by apply inv_idle.
Qed.

Lemma inv_stop_after l l' : inv l -> stopAfterGraphDrain l = Some l' -> inv l'.
Proof.
  intros Hinv Hp. unfold stopAfterGraphDrain in Hp. destruct (pc l) eqn:Hpc; try done. injection Hp as <-.
  pose proof (entries_idle l Hinv Hpc) as He. pose proof (inv_base _ Hinv) as Hb.
  destruct (negb (bool_decide (state_ l = kStopping)) || negb (beforeGraphDrained_ l)) eqn:Eb.
  { destruct (state_ l); by apply inv_idle. }
  bool_to_prop. rewrite H. apply inv_phase; [by destruct He; split|done| |apply (nodup_reverse_of sink_kinds (entries_ l))|intros i; apply (reverse_of_range sink_kinds (entries_ l))|].
  - destruct Hb as [? ? ? ? ?]. split; simpl; try done; congruence.
  - repeat (constructor; [set_solver|]). constructor.
  - split; [done|]. intros _. exact (down_all_of l sink_kinds).
Qed.

Lemma life_step a l l' : inv l -> perform a l = Some l' -> inv l'.
Proof.
  intros Hinv. destruct a; simpl.
  - intros [= <-]. by apply inv_add.
  - by apply life_start.
  - by apply inv_stop_before.
  - by apply inv_stop_after.
  - unfold call_step. destruct (pc l) as [|[|i todo]|i todo|[|i todo] failure next] eqn:Hpc; intros Hp; try done.
    + injection Hp as <-. by apply inv_start_done.
    + injection Hp as <-. by apply inv_start_one.
    + injection Hp as <-. destruct choice; [by apply inv_started_one|by eapply inv_start_failed].
    + injection Hp as <-. pose proof (inv_pc _ Hinv) as Hok. unfold pc_ok in Hok. rewrite Hpc in Hok.
      destruct Hok as (Hs & _ & _ & Hc). pose proof (inv_entries _ Hinv) as He. rewrite Hpc in He.
      apply inv_proceed; [done|done|apply Hinv|done].
    + by eapply inv_wait.
  - by apply inv_complete.
Qed.

Lemma life_initial : inv initial.
Proof.
  split; try done.
  - split; [done|]. intros i _. by left.
  - split; try done; try constructor; by intros i ?%elem_of_nil.
Qed.
Lemma reachable_life l : reachable l -> inv l.
Proof.
  revert l. apply (rtc_ind_r inv); [apply life_initial|].
  intros l1 l2 _ [a Ha] Hi. by eapply life_step.
Qed.

(** ** Which steps stop components *)
Lemma launch_log l es : exists evs, log (foldl launch l es) = log l ++ evs /\ forall j, EStop j ∈ evs -> j ∈ es.
Proof.
  revert l. induction es as [|i es IH]; intros l; simpl.
  { exists []. split; [by rewrite app_nil_r|]. by intros j ?%elem_of_nil. }
  destruct (IH (launch l i)) as (evs & E & Hin). unfold launch in *. destruct (entries_ l !! i) as [e|].
  2:{ exists evs. split; [done|]. intros j Hj. apply elem_of_cons. auto. }
  destruct (started e && _).
  - exists ([EStop i] ++ evs). rewrite E. simpl. split; [by rewrite <- app_assoc|].
    intros j Hj. apply elem_of_cons in Hj as [Hj|Hj]; [injection Hj as ->; by left|apply elem_of_cons; auto].
  - exists evs. split; [done|]. intros j Hj. apply elem_of_cons. auto.
Qed.

(** The phase that a stop belongs to. *)
Definition phase_kinds (next : Cont) : list Kind :=
  match next with
  | CRollback _ _ => kStartOrder
  | CAdmission => admission_kinds | CExecutors => executor_kinds | CSinks => sink_kinds
  end.
Definition in_phase (es : list Entry) (todo : list nat) (next : Cont) : Prop :=
  match next with
  | CRollback _ _ => exists j, todo = [j]
  | _ => todo = reverse_of (phase_kinds next) es
  end.

Definition stops l l' (j : nat) : Prop := exists evs, log l' = log l ++ evs /\ EStop j ∈ evs.

(** The kinds of the entries do not change while components are stopped. *)
Lemma kinds_launch l es : kind <$> entries_ (foldl launch l es) = kind <$> entries_ l.
Proof.
  revert l. induction es as [|i es IH]; intros l; simpl; [done|]. rewrite IH. unfold launch.
  destruct (entries_ l !! i) as [e|]; [|done]. destruct (started e && _); [|done]. simpl. by apply kinds_alter.
Qed.

Lemma in_phase_ext es es' todo next : kind <$> es = kind <$> es' -> in_phase es todo next -> in_phase es' todo next.
Proof.
  intros E. destruct next; simpl; try done; unfold reverse_of; simpl; by rewrite !(of_kind_ext _ _ _ E).
Qed.

(** Step [l] to [l'] stops [j] in the first loop of a [stopPhase]. *)
Definition stops_in_phase l' (j : nat) : Prop :=
  exists todo next, pc l' = PWait todo false next /\ j ∈ todo /\ in_phase (entries_ l') todo next.

Lemma phase_stops l0 l ev0 es next j :
  in_phase (entries_ l0) es next -> log l0 = log l ++ ev0 -> (forall k, EStop k ∉ ev0) ->
  stops l (stopPhase es next l0) j -> stops_in_phase (stopPhase es next l0) j.
Proof.
  intros Hph E0 Hno (evs & E & Hj). exists es, next. split; [done|]. split.
  - destruct (launch_log l0 es) as (evs' & E' & Hin). unfold stopPhase in E. simpl in E. rewrite E', E0, <- app_assoc in E.
    apply app_inv_head in E. rewrite <- E in Hj. apply elem_of_app in Hj as [Hj|Hj]; [by apply Hno in Hj|auto].
  - eapply in_phase_ext; [|exact Hph]. unfold stopPhase. simpl. symmetry. apply kinds_launch.
Qed.

Lemma no_stop l l' ev j : log l' = log l ++ ev -> (forall k, EStop k ∉ ev) -> ~ stops l l' j.
Proof. intros E Hno (evs & E' & Hj). rewrite E in E'. apply app_inv_head in E'. subst evs. by apply Hno in Hj. Qed.
Lemma no_stop_same l l' j : log l' = log l -> ~ stops l l' j.
Proof. intros E. apply (no_stop l l' []); [by rewrite E, app_nil_r|set_solver]. Qed.


Lemma proceed_stops l0 l ev0 failure next j :
  log l0 = log l ++ ev0 -> (forall k, EStop k ∉ ev0) ->
  stops l (proceed failure next l0) j -> stops_in_phase (proceed failure next l0) j.
Proof.
  intros E0 Hno Hst. unfold proceed in *. destruct failure; [by apply (no_stop _ _ ev0) in Hst|].
  destruct next as [[|i rest] fs| | |]; try (by apply (no_stop _ _ ev0) in Hst).
  - eapply phase_stops; [|exact E0|exact Hno|exact Hst]. by exists i.
  - eapply phase_stops; [|exact E0|exact Hno|exact Hst]. done.
Qed.

Lemma step_stops a l l' j : perform a l = Some l' -> stops l l' j -> stops_in_phase l' j.
Proof.
  intros Hp Hst. destruct a; simpl in Hp.
  - injection Hp as <-. exfalso. revert Hst. apply no_stop_same. unfold add. destruct component; [|done].
    destruct (negb _); [done|]. by destruct (existsb _ _).
  - unfold startImpl in Hp. destruct (pc l); try done. injection Hp as <-. exfalso. revert Hst. apply no_stop_same.
    by case_bool_decide.
  - assert (E0 : log l = log l ++ []) by (by rewrite app_nil_r). assert (Hno : forall k, EStop k ∉ []) by set_solver.
    unfold stopBeforeGraphDrain in Hp. destruct (pc l); try done. injection Hp as <-.
    destruct (state_ l), (rollbackPending_ l), (beforeGraphDrained_ l); try (by apply no_stop_same in Hst);
      first [by eapply proceed_stops | eapply (phase_stops _ _ [] _ CAdmission); [|exact E0|exact Hno|exact Hst]; done].
  - assert (E0 : log l = log l ++ []) by (by rewrite app_nil_r). assert (Hno : forall k, EStop k ∉ []) by set_solver.
    unfold stopAfterGraphDrain in Hp. destruct (pc l); try done. injection Hp as <-.
    destruct (state_ l); try (by apply no_stop_same in Hst); destruct (negb _ || _); try (by apply no_stop_same in Hst);
      eapply (phase_stops _ _ [] _ CSinks); [|exact E0|exact Hno|exact Hst]; done.
  - unfold call_step in Hp. destruct (pc l) as [|[|i todo]|i todo|[|i todo] failure next]; try done.
    + injection Hp as <-. by apply no_stop_same in Hst.
    + injection Hp as <-. apply (no_stop _ _ [EStart i]) in Hst; [done|done|set_solver].
    + injection Hp as <-. destruct choice; [apply (no_stop _ _ [EStarted i]) in Hst; [done|done|set_solver]|].
      eapply (proceed_stops _ _ [EStartFailed i]); [|set_solver|exact Hst]. done.
    + injection Hp as <-. eapply (proceed_stops _ _ []); [by rewrite app_nil_r|set_solver|done].
    + exfalso. revert Hst. apply no_stop_same. unfold wait_step in Hp. destruct (entries_ l !! i) as [e|]; [|done].
      destruct (negb (started e)); [by injection Hp as <-|]. destruct (stopping e) as [op|]; [|done].
      destruct (done op); [injection Hp as <-; by destruct (failed op)|]. destruct choice; [by injection Hp as <-|done].
  - unfold complete in Hp. destruct (entries_ l !! i) as [e|]; [|done]. destruct (stopping e) as [op|]; [|done].
    destruct (done op); [done|]. injection Hp as <-. apply (no_stop _ _ [EStopped i ok]) in Hst; [done|done|set_solver].
Qed.

Lemma down_idle l i : inv l -> up l i = false -> idle (cstate (log l) i).
Proof.
  intros Hinv Hu. destruct (inv_entries _ Hinv) as [Hin Hout]. destruct (entries_ l !! i) as [e|] eqn:Hi; [|auto].
  specialize (Hin i e Hi). unfold up in Hu. rewrite Hi in Hu. unfold entry_ok in Hin.
  destruct (stopping e); [destruct Hin; congruence|]. by rewrite Hu in Hin.
Qed.

Lemma down_but_idle l ks i k :
  inv l -> down_but l ks [] -> kind_of l i = Some k -> k ∈ ks -> idle (cstate (log l) i).
Proof.
  intros Hinv Hd Hk Hin. apply down_idle; [done|]. destruct (up l i) eqn:Hu; [|done].
  specialize (Hd i k Hk Hin Hu). by apply elem_of_nil in Hd.
Qed.

Lemma elem_sink k : k <> kDataSink -> k ∈ admission_kinds ++ executor_kinds.
Proof. destruct k; intros Hk; set_solver. Qed.

(** The rollback stops one component at a time, the latest started first. *)
Lemma rollback_idle l j rest fromStart :
  inv l -> cont_ok l [j] false (CRollback rest fromStart) ->
  exists before after, started_ l = before ++ j :: after /\ forall i, i ∈ after -> idle (cstate (log l) i).
Proof.
  intros Hinv (_ & _ & visited & E & Hv). exists (reverse rest), (reverse visited). split.
  - rewrite <- (reverse_involutive (started_ l)), E, reverse_app. simpl. by rewrite reverse_cons, <- app_assoc.
  - intros i Hi. apply down_idle; [done|]. apply Hv; [done|]. by apply elem_of_reverse.
Qed.

(** ** The properties *)

(** C9.  Whatever the order of calls, failures, cancelled waits and returns, every component
    is started at most once, is never stopped while it is not started or while another stop
    of it runs, and never again after a stop that returned; and when the lifecycle reports
    that it is stopped, every component that was started has been stopped. *)
Theorem lifecycle_stops_all l :
  reachable l ->
  (forall i, cstate (log l) i <> CBad) /\ (isStopped l = true -> forall i, idle (cstate (log l) i)).
Proof.
  intros Hinv%reachable_life. destruct (inv_entries _ Hinv) as [Hin Hout]. split.
  - intros i Hb. destruct (entries_ l !! i) as [e|] eqn:Hi.
    + specialize (Hin i e Hi). unfold entry_ok in Hin. rewrite Hb in Hin. unfold idle in Hin.
      destruct (stopping e) as [op|]; [destruct Hin as [_ ?]; destruct (done op), (failed op); done|].
      destruct (started e); naive_solver.
    + destruct (Hout i Hi); congruence.
  - intros Hs%bool_decide_eq_true i. apply Hout. by destruct (inv_stopped _ Hinv Hs) as (-> & _).
Qed.

(** The order of a shutdown: an executor or storage is stopped only when no data source
    and no component is up, and a data sink only when nothing else is; in a rollback of a
    failed start a component is stopped only when everything started after it is down. *)
Theorem lifecycle_stop_order l l' j :
  reachable l -> step l l' -> stops l l' j ->
  if rollbackPending_ l'
  then exists before after, started_ l' = before ++ j :: after /\ forall i, i ∈ after -> idle (cstate (log l') i)
  else exists k, kind_of l' j = Some k /\
    (k ∈ executor_kinds ->
       forall i ki, kind_of l' i = Some ki -> ki ∈ admission_kinds -> idle (cstate (log l') i)) /\
    (k = kDataSink -> forall i ki, kind_of l' i = Some ki -> ki <> kDataSink -> idle (cstate (log l') i)).
Proof.
  intros Hr [a Ha] Hst. assert (Hinv : inv l').
  { apply reachable_life. eapply rtc_r; [exact Hr|by exists a]. }
  destruct (step_stops _ _ _ _ Ha Hst) as (todo & next & Hpc & Hj & Hph).
  pose proof (inv_pc _ Hinv) as Hok. unfold pc_ok in Hok. rewrite Hpc in Hok.
  destruct Hok as (_ & _ & Hrange & Hcont). destruct next as [rest fs| | |]; unfold in_phase, phase_kinds in Hph.
  - destruct Hph as [j' ->]. apply list_elem_of_singleton in Hj as ->. pose proof Hcont as (Hrb & _).
    rewrite Hrb. by eapply rollback_idle.
  - subst todo. apply elem_of_reverse_of in Hj as (k & Hk & E). destruct Hcont as (-> & _).
    exists k. split; [exact E|]. split; intros Hk'; exfalso; set_solver.
  - subst todo. apply elem_of_reverse_of in Hj as (k & Hk & E). destruct Hcont as (-> & _ & Hd & _).
    exists k. split; [exact E|]. split; [intros _ i ki; by apply down_but_idle|]. intros ->. exfalso. set_solver.
  - subst todo. apply elem_of_reverse_of in Hj as (k & Hk & E). destruct Hcont as (Hdr & _).
    destruct (base_drained _ (inv_base _ Hinv) Hdr) as [_ Hd].
    destruct (rollbackPending_ l') eqn:Hrb.
    { destruct (base_rollback _ (inv_base _ Hinv) Hrb). congruence. }
    exists k. split; [exact E|]. split.
    + intros Hk'. exfalso. set_solver.
    + intros _ i ki Hi Hki. eapply down_but_idle; [done|exact Hd|exact Hi|]. by apply elem_sink.
Qed.

(** The order of a start: storages, delay pools, task pools, priority task pools,
    components, data sinks and, when admission is asked for, data sources, each kind in
    the order of registration and each started before the next; nothing else happens
    before the lifecycle is running, and then every one of them was started. *)
Theorem lifecycle_start_order l :
  reachable l ->
  match state_ l with
  | kCreated => log l = []
  | kStarting => exists admission before doing after,
      start_list admission (entries_ l) = before ++ doing ++ after /\ (length doing <= 1)%nat /\
      log l = (before ≫= pair_events) ++ (EStart <$> doing)
  | kRunning => exists admission, log l = start_list admission (entries_ l) ≫= pair_events
  | _ => True
  end.
Proof.
  intros Hinv%reachable_life. destruct (state_ l) eqn:Hs; try done.
  - by destruct (inv_created _ Hinv Hs).
  - pose proof (inv_pc _ Hinv) as Hok. unfold pc_ok in Hok. destruct (pc l) as [|todo|i todo|todo failure next].
    + done.
    + destruct Hok as (_ & _ & _ & _ & _ & _ & adm & before & E & _ & El). exists adm, before, [], todo. auto.
    + destruct Hok as [(_ & _ & _ & _ & _ & _ & adm & before & E & _ & El) _]. exists adm, before, [i], todo. auto.
    + destruct Hok; congruence.
  - destruct (inv_running _ Hinv Hs) as (_ & _ & _ & _ & adm & E & El). exists adm. by rewrite El, E.
Qed.

(** ** A service with one component of each role *)
Definition sample_boot : list Action :=
  [DoAdd kDataSource (Some 1%nat); DoAdd kDataSink (Some 2%nat); DoAdd kTaskPool (Some 3%nat); DoStart true]
  ++ concat (replicate 3 [DoStep true; DoStep true]) ++ [DoStep true].
(** The data source is stopped, its stop is waited for, then the pool. *)
Definition sample_shutdown : list Action :=
  [DoStopBefore; DoComplete 0 true; DoStep false; DoStep false; DoComplete 2 true; DoStep false; DoStep false;
   DoStopAfter; DoComplete 1 true; DoStep false; DoStep false].

Lemma life_run_reachable acts l l' : rtc step initial l -> run acts l = Some l' -> reachable l'.
Proof.
  revert l. induction acts as [|a acts IH]; intros l Hr Hrun; simpl in Hrun; [by injection Hrun as <-|].
  destruct (perform a l) as [l1|] eqn:Ha; [|done]. eapply IH; [|exact Hrun]. eapply rtc_r; [exact Hr|by exists a].
Qed.

Definition after (acts : list Action) : Lifecycle := default initial (run acts initial).
Lemma life_after_reachable acts : is_Some (run acts initial) -> reachable (after acts).
Proof.
  unfold after. intros [l E]. rewrite E. simpl. eapply life_run_reachable; [apply rtc_refl|exact E].
Qed.

Definition sample_stopped : Lifecycle := after (sample_boot ++ sample_shutdown).
(** Before and after the step that starts to stop the pool. *)
Definition sample_before : Lifecycle := after (sample_boot ++ take 3 sample_shutdown).
Definition sample_after : Lifecycle := after (sample_boot ++ take 4 sample_shutdown).

Lemma lifecycle_stops_all_witness :
  isStopped sample_stopped = true /\
  log sample_stopped =
    [EStart 2; EStarted 2; EStart 1; EStarted 1; EStart 0; EStarted 0;
     EStop 0; EStopped 0 true; EStop 2; EStopped 2 true; EStop 1; EStopped 1 true] /\
  forall i, idle (cstate (log sample_stopped) i).
Proof.
  split; [vm_compute; reflexivity|]. split; [vm_compute; reflexivity|].
  destruct (lifecycle_stops_all sample_stopped) as [_ H].
  - apply life_after_reachable. eexists. vm_compute. reflexivity.
  - apply H. vm_compute. reflexivity.
Defined.

Lemma lifecycle_stop_order_witness :
  exists k, kind_of sample_after 2 = Some k /\
    (k ∈ executor_kinds ->
       forall i ki, kind_of sample_after i = Some ki -> ki ∈ admission_kinds -> idle (cstate (log sample_after) i)) /\
    (k = kDataSink ->
       forall i ki, kind_of sample_after i = Some ki -> ki <> kDataSink -> idle (cstate (log sample_after) i)).
Proof.
  assert (Hs : stops sample_before sample_after 2).
  { exists [EStop 2]. split; [vm_compute; reflexivity|by left]. }
  assert (Hp : step sample_before sample_after) by (exists (DoStep false); vm_compute; reflexivity).
  assert (Hr : reachable sample_before) by (apply life_after_reachable; eexists; vm_compute; reflexivity).
  pose proof (lifecycle_stop_order sample_before sample_after 2 Hr Hp Hs) as H.
  assert (E : rollbackPending_ sample_after = false) by (vm_compute; reflexivity).
  rewrite E in H. exact H.
Defined.

Lemma lifecycle_start_order_witness :
  state_ (after sample_boot) = kRunning /\
  exists admission, log (after sample_boot) = start_list admission (entries_ (after sample_boot)) ≫= pair_events.
Proof.
  assert (Hr : reachable (after sample_boot)) by (apply life_after_reachable; eexists; vm_compute; reflexivity).
  pose proof (lifecycle_start_order (after sample_boot) Hr) as H.
  assert (E : state_ (after sample_boot) = kRunning) by (vm_compute; reflexivity).
  rewrite E in H. split; [exact E|exact H].
Defined.
