(* ===== verification/ServiceApp.v ===== *)
(** * A service: its pools, its lifecycle and its graph

    [ServiceApp] of runtime/serviceapp.hpp over [ServiceLifecycle] (Module [Life]) and the
    execution runtime (Module [Runtime]), of which it sees whether it is inactive, active or
    drained.  One call of [start], [startGraph] or [stop] runs at a time ([transition_]);
    [apc] says which call of the lifecycle it is waiting for, and the lifecycle itself moves
    in between.  Whether a drain succeeds and whether the topology can be built are chosen. *)
From Stdlib Require Import Lia.
From stdpp Require Import strings.
From S2P Require Import Prelude Lifecycle LifecycleTheorems.
Import Life.

Module App.

(** The pools that the call semantics of a link name. *)
Record CallSemantics := mkSemantics {
  taskPool : option string;
  priorityTaskPool : option string;
}.
(** What a runtime configuration says of pools: the default of the service, and the links. *)
Record Config := mkConfig {
  defaultCallSemantics : option CallSemantics;
  links : list CallSemantics;
}.

Inductive GraphPhase := Inactive | Active | Drained.
#[export] Instance GraphPhase_eq_dec : EqDecision GraphPhase.
Proof. solve_decision. Defined.

Inductive AppError := AppLogicError | AppInvalidArgument | AppStartError | AppGraphTimeout | AppStopError.

Inductive APc := AIdle | AStarting | AFailBefore | AFailAfter | AStopBefore | AStopAfter.

(** [fresh] names the next pool that is made. *)
Record App := mkApp {
  life : Lifecycle;
  delayPool_ : bool;
  taskPools_ : list string;
  priorityTaskPools_ : list string;
  running_ : bool;
  lifecyclePending_ : bool;
  graph : GraphPhase;
  fresh : nat;
  apc : APc;
  outcome : option (result AppError unit);
}.
Definition set_life v a : App :=
  mkApp v (delayPool_ a) (taskPools_ a) (priorityTaskPools_ a) (running_ a) (lifecyclePending_ a) (graph a)
    (fresh a) (apc a) (outcome a).
Definition set_pools d ts ps a : App :=
  mkApp (life a) d ts ps (running_ a) (lifecyclePending_ a) (graph a) (fresh a) (apc a) (outcome a).
Definition set_running_ v a : App :=
  mkApp (life a) (delayPool_ a) (taskPools_ a) (priorityTaskPools_ a) v (lifecyclePending_ a) (graph a) (fresh a)
    (apc a) (outcome a).
Definition set_lifecyclePending_ v a : App :=
  mkApp (life a) (delayPool_ a) (taskPools_ a) (priorityTaskPools_ a) (running_ a) v (graph a) (fresh a) (apc a)
    (outcome a).
Definition set_graph v a : App :=
  mkApp (life a) (delayPool_ a) (taskPools_ a) (priorityTaskPools_ a) (running_ a) (lifecyclePending_ a) v (fresh a)
    (apc a) (outcome a).
Definition set_fresh v a : App :=
  mkApp (life a) (delayPool_ a) (taskPools_ a) (priorityTaskPools_ a) (running_ a) (lifecyclePending_ a) (graph a) v
    (apc a) (outcome a).
Definition set_call pc out a : App :=
  mkApp (life a) (delayPool_ a) (taskPools_ a) (priorityTaskPools_ a) (running_ a) (lifecyclePending_ a) (graph a)
    (fresh a) pc out.
Implicit Types (a : App).

Definition created : App := mkApp Life.initial false [] [] false false Inactive 0 AIdle None.

(** ** Pools *)

(** [lifecycle_.add] of a component that was just made. *)
Definition addPool (k : Kind) a : App * result AppError unit :=
  let (l, r) := Life.add k (Some (fresh a)) (life a) in
  (a |> set_life l |> set_fresh (S (fresh a)),
   match r with Ok _ => Ok tt | Err _ => Err AppLogicError end).

Definition registerDelayPool a : App * result AppError unit :=
  if delayPool_ a then (a, Err AppLogicError)
  else addPool kDelayPool (set_pools true (taskPools_ a) (priorityTaskPools_ a) a).
Definition registerTaskPool (name : string) a : App * result AppError unit :=
  if bool_decide (name ∈ taskPools_ a) then (a, Err AppLogicError)
  else addPool kTaskPool (set_pools (delayPool_ a) (taskPools_ a ++ [name]) (priorityTaskPools_ a) a).
Definition registerPriorityTaskPool (name : string) a : App * result AppError unit :=
  if bool_decide (name ∈ priorityTaskPools_ a) then (a, Err AppLogicError)
  else addPool kPriorityTaskPool (set_pools (delayPool_ a) (taskPools_ a) (priorityTaskPools_ a ++ [name]) a).

(** Run the second part if the first did not throw. *)
Definition andThen (r : App * result AppError unit) (k : App -> App * result AppError unit) :
    App * result AppError unit :=
  match r with (a, Ok _) => k a | (a, Err e) => (a, Err e) end.

Definition ensurePool (name : option string) (known : App -> list string)
    (register : string -> App -> App * result AppError unit) a : App * result AppError unit :=
  match name with
  | None => (a, Ok tt)
  | Some name =>
      if bool_decide (name = EmptyString) then (a, Err AppInvalidArgument)
      else if bool_decide (name ∈ known a) then (a, Ok tt) else register name a
  end.
Definition ensureCallSemantics (sem : CallSemantics) a : App * result AppError unit :=
  andThen (ensurePool (taskPool sem) taskPools_ registerTaskPool a)
          (ensurePool (priorityTaskPool sem) priorityTaskPools_ registerPriorityTaskPool).
Fixpoint ensureAll (sems : list CallSemantics) a : App * result AppError unit :=
  match sems with
  | [] => (a, Ok tt)
  | sem :: sems => andThen (ensureCallSemantics sem a) (ensureAll sems)
  end.

(** [ensureConfiguredPools]; [None] when no configuration is published. *)
Definition ensureConfiguredPools (cfg : option Config) a : App * result AppError unit :=
  andThen (if delayPool_ a then (a, Ok tt) else registerDelayPool a)
    (fun a => match cfg with
              | None => (a, Err AppLogicError)
              | Some cfg =>
                  andThen (match defaultCallSemantics cfg with Some sem => ensureCallSemantics sem a | None => (a, Ok tt) end)
                          (ensureAll (links cfg))
              end).

Definition releaseOwnedRuntimeObjects a : App := set_pools false [] [] a.

(** ** start and stop *)

(** A call of the lifecycle, which is idle. *)
Definition call (f : Lifecycle -> option Lifecycle) (pc : APc) a : App :=
  match f (life a) with Some l => a |> set_life l |> set_call pc None | None => a end.
Definition finish (r : result AppError unit) a : App := set_call AIdle (Some r) a.

(** The handler of a failed start. *)
Definition fail a : App := a |> set_running_ false |> call stopBeforeGraphDrain AFailBefore.

(** The beginning of [startImpl], to its first wait; [built] when the topology can be built
    and initialized. *)
Definition startImpl (cfg : option Config) (built admission : bool) a : option App :=
  match apc a with
  | AIdle =>
      Some (if lifecyclePending_ a then finish (Err AppLogicError) a
            else match ensureConfiguredPools cfg (set_lifecyclePending_ true a) with
                 | (a, Err _) => fail a
                 | (a, Ok _) =>
                     if bool_decide (graph a = Inactive) && built
                     then a |> set_graph Active |> call (Life.startImpl admission) AStarting
                     else fail a
                 end)
  | _ => None
  end.

Definition stop a : option App :=
  match apc a with
  | AIdle =>
      Some (if negb (lifecyclePending_ a) then finish (Ok tt) a
            else a |> set_running_ false |> call stopBeforeGraphDrain AStopBefore)
  | _ => None
  end.

(** [drainExecutionRuntime] and [stopExecutionRuntime]; [drains] when the wait succeeds. *)
Definition drain (drains : bool) a : bool := bool_decide (graph a = Inactive) || drains.
Definition drainGraph a : App := if bool_decide (graph a = Inactive) then a else set_graph Drained a.
Definition release a : App :=
  a |> set_graph Inactive |> releaseOwnedRuntimeObjects |> set_lifecyclePending_ false.

(** The lifecycle has returned: what the call does next. *)
Definition resume (drains : bool) a : option App :=
  match pc (life a), returned (life a) with
  | PIdle, Some r =>
      match apc a, r with
      | AIdle, _ => None
      | AStarting, Ok _ => Some (a |> set_running_ true |> finish (Ok tt))
      | AStarting, Err _ => Some (fail a)
      | AFailBefore, Ok _ => Some (call stopAfterGraphDrain AFailAfter a)
      | AFailBefore, Err _ | AFailAfter, Err _ => Some (finish (Err AppStartError) a)
      | AFailAfter, Ok _ =>
          Some (finish (Err AppStartError) (if drain drains a then release a else a))
      | AStopBefore, Ok _ =>
          Some (if drain drains a then a |> drainGraph |> call stopAfterGraphDrain AStopAfter
                else finish (Err AppGraphTimeout) a)
      | AStopBefore, Err _ | AStopAfter, Err _ => Some (finish (Err AppStopError) a)
      | AStopAfter, Ok _ => Some (a |> release |> finish (Ok tt))
      end
  | _, _ => None
  end.

Definition isRunning a : bool := running_ a.
Definition isStopped a : bool := negb (lifecyclePending_ a).

Inductive AppAction :=
  | DoRegister (k : Kind) (component : option nat)
  | DoEnsure (cfg : option Config)
  | DoStart (cfg : option Config) (built admission : bool)
  | DoStop
  | DoResume (drains : bool)
  | DoLife (choice : bool)
  | DoComplete (i : nat) (ok : bool).

Definition perform (act : AppAction) a : option App :=
  match act with
  | DoRegister k component => Some (set_life (Life.add k component (life a)).1 a)
  | DoEnsure cfg => Some (ensureConfiguredPools cfg a).1
  | DoStart cfg built admission => startImpl cfg built admission a
  | DoStop => stop a
  | DoResume drains => resume drains a
  | DoLife choice => (fun l => set_life l a) <$> call_step choice (life a)
  | DoComplete i ok => (fun l => set_life l a) <$> complete i ok (life a)
  end.

Definition step a a' : Prop := exists act, perform act a = Some a'.
Definition reachable a : Prop := rtc step created a.
Fixpoint run (acts : list AppAction) a : option App :=
  match acts with
  | [] => Some a
  | act :: acts => a ← perform act a; run acts a
  end.
End App.
