(* ===== verification/ServiceAppTheorems.v ===== *)
(** * What a service promises

    A run of the service is a run of its lifecycle, so that what holds of every reachable
    lifecycle holds here; the invariant adds which lifecycle call is under way and what the
    graph is meanwhile. *)
From Stdlib Require Import Lia.
From stdpp Require Import strings.
From S2P Require Import Prelude Lifecycle LifecycleTheorems ServiceApp.
Import Life App.

Implicit Types (a : App).

(** ** Adding components *)

(** What the registration of a pool may change of the lifecycle. *)
Record added (l l' : Lifecycle) : Prop := {
  added_steps : rtc Life.step l l';
  added_log : log l' = log l;
  added_pc : pc l' = pc l;
  added_state : state_ l' = state_ l;
  added_returned : returned l' = returned l;
  added_rollback : rollbackPending_ l' = rollbackPending_ l;
  added_drained : beforeGraphDrained_ l' = beforeGraphDrained_ l;
}.
Lemma added_refl l : added l l.
Proof. by split. Qed.
Lemma added_trans l1 l2 l3 : added l1 l2 -> added l2 l3 -> added l1 l3.
Proof. intros [? ? ? ? ? ? ?] [? ? ? ? ? ? ?]. split; try congruence. by etrans. Qed.
Lemma added_add k component l : added l (Life.add k component l).1.
Proof.
  split; [apply rtc_once; by exists (DoAdd k component)|..]; unfold Life.add; destruct component; simpl; try done;
    destruct (negb _); try done; by destruct (existsb _ _).
Qed.

(** What registering pools keeps of the service. *)
Record grown a a' : Prop := {
  grown_life : added (life a) (life a');
  grown_graph : graph a' = graph a;
  grown_running : running_ a' = running_ a;
  grown_pending : lifecyclePending_ a' = lifecyclePending_ a;
  grown_apc : apc a' = apc a;
}.
Lemma grown_refl a : grown a a.
Proof. split; [apply added_refl|done..]. Qed.
Lemma grown_trans a1 a2 a3 : grown a1 a2 -> grown a2 a3 -> grown a1 a3.
Proof. intros [? ? ? ? ?] [? ? ? ? ?]. split; try congruence. by eapply added_trans. Qed.

Definition grows (f : App -> App * result AppError unit) : Prop := forall a, grown a (f a).1.
Lemma grows_then f k : grows f -> grows k -> grows (fun a => andThen (f a) k).
Proof.
  intros Hf Hk a. specialize (Hf a). destruct (f a) as [a1 [u|e]]; simpl in *; [|done].
  eapply grown_trans; [done|apply Hk].
Qed.
Lemma grows_add k ts ps d a : grown a (addPool k (set_pools d ts ps a)).1.
Proof.
  pose proof (added_add k (Some (fresh a)) (life a)) as Ha. unfold addPool. change (life (set_pools d ts ps a)) with (life a). change (fresh (set_pools d ts ps a)) with (fresh a).
  destruct (Life.add k (Some (fresh a)) (life a)) as [l r]. split; [exact Ha|done..].
Qed.
Lemma grows_ensure name known register : (forall n, grows (register n)) -> grows (ensurePool name known register).
Proof.
  intros Hr a. unfold ensurePool. destruct name as [n|]; [|apply grown_refl].
  case_bool_decide; [apply grown_refl|]. case_bool_decide; [apply grown_refl|apply Hr].
Qed.
Lemma grows_task n : grows (registerTaskPool n).
Proof. intros a. unfold registerTaskPool. case_bool_decide; [apply grown_refl|apply grows_add]. Qed.
Lemma grows_priority n : grows (registerPriorityTaskPool n).
Proof. intros a. unfold registerPriorityTaskPool. case_bool_decide; [apply grown_refl|apply grows_add]. Qed.
Lemma grows_delay a : grown a (registerDelayPool a).1.
Proof. unfold registerDelayPool. destruct (delayPool_ a); [apply grown_refl|apply grows_add]. Qed.
Lemma grows_semantics sem : grows (ensureCallSemantics sem).
Proof.
  intros a. apply (grows_then (ensurePool (taskPool sem) taskPools_ registerTaskPool)); apply grows_ensure.
  - apply grows_task.
  - apply grows_priority.
Qed.
Lemma grows_all sems : grows (ensureAll sems).
Proof.
  induction sems as [|sem sems IH]; [intros a; apply grown_refl|]. intros a. simpl.
  by apply (grows_then (ensureCallSemantics sem)); [apply grows_semantics|].
Qed.
Lemma grows_configured cfg : grows (ensureConfiguredPools cfg).
Proof.
  intros a. apply (grows_then (fun a => if delayPool_ a then (a, Ok tt) else registerDelayPool a)).
  - clear a. intros a. destruct (delayPool_ a); [apply grown_refl|apply grows_delay].
  - clear a. intros a. destruct cfg as [cfg|]; [|apply grown_refl].
    apply (grows_then (fun a => match defaultCallSemantics cfg with Some sem => ensureCallSemantics sem a | None => (a, Ok tt) end)).
    + clear a. intros a. destruct (defaultCallSemantics cfg); [apply grows_semantics|apply grown_refl].
    + apply grows_all.
Qed.

(** ** The call of the lifecycle that is under way *)
Definition call_ok (p : APc) (l : Lifecycle) : Prop :=
  match p with
  | AIdle => pc l = PIdle
  | AStarting =>
      match pc l with
      | PIdle =>
          match returned l with
          | Some (Ok _) => state_ l = kRunning
          | Some (Err _) => state_ l = kStopped \/ rollbackPending_ l = true
          | None => False
          end
      | PStart _ | PStarting _ _ => True
      | PWait _ _ (CRollback _ true) => rollbackPending_ l = true
      | PWait _ _ _ => False
      end
  | AFailBefore =>
      match pc l with
      | PIdle => match returned l with Some (Ok _) => state_ l = kStopped | Some (Err _) => True | None => False end
      | PWait _ _ (CRollback _ false) => True
      | _ => False
      end
  | AFailAfter => pc l = PIdle /\ returned l = Some (Ok tt) /\ state_ l = kStopped
  | AStopBefore =>
      match pc l with
      | PIdle =>
          match returned l with
          | Some (Ok _) => state_ l = kStopped \/ beforeGraphDrained_ l = true
          | Some (Err _) => True
          | None => False
          end
      | PWait _ _ (CRollback _ false | CAdmission | CExecutors) => True
      | _ => False
      end
  | AStopAfter =>
      match pc l with
      | PIdle => match returned l with Some (Ok _) => state_ l = kStopped | Some (Err _) => True | None => False end
      | PWait _ _ CSinks => True
      | _ => False
      end
  end.

Lemma call_ok_added p l l' : added l l' -> call_ok p l -> call_ok p l'.
Proof.
  intros [_ _ E1 E2 E3 E4 E5]. destruct p; simpl; rewrite ?E1, ?E2, ?E3, ?E4, ?E5; done.
Qed.

Lemma stopPhase_pc es next l : pc (stopPhase es next l) = PWait es false next.
Proof. done. Qed.
Lemma stopPhase_rollback es next l : rollbackPending_ (stopPhase es next l) = rollbackPending_ l.
Proof.
  unfold stopPhase. simpl. revert l. induction es as [|i es IH]; intros l; simpl; [done|]. rewrite IH. unfold launch.
  destruct (entries_ l !! i) as [e|]; [|done]. by destruct (started e && _).
Qed.

Lemma call_ok_proceed p failure next todo l :
  pc l = PWait todo failure next -> call_ok p l -> call_ok p (proceed failure next l).
Proof.
  intros Hpc Hok. unfold proceed. destruct p; simpl in Hok; rewrite Hpc in Hok; try done.
  - destruct next as [rest []| | |]; try done. destruct failure; [simpl; by right|]. destruct rest; [simpl; by left|].
    unfold call_ok. by rewrite stopPhase_pc, stopPhase_rollback.
  - destruct next as [rest []| | |]; try done. destruct failure; [done|]. destruct rest; [done|].
    unfold call_ok. by rewrite stopPhase_pc.
  - destruct Hok as [? _]. congruence.
  - destruct next as [rest []| | |]; try done; destruct failure; try done.
    + destruct rest; [simpl; by left|]. unfold call_ok. by rewrite stopPhase_pc.
    + simpl. by right.
  - destruct next as [rest []| | |]; try done; by destruct failure.
Qed.

Lemma call_ok_step p choice l l' : call_ok p l -> call_step choice l = Some l' -> call_ok p l'.
Proof.
  intros Hok Hs. unfold call_step in Hs. destruct (pc l) as [|[|i todo]|i todo|[|i todo] failure next] eqn:Hpc; try done.
  - injection Hs as <-. destruct p; simpl in *; rewrite Hpc in Hok; try done. by destruct Hok.
  - injection Hs as <-. destruct p; simpl in *; rewrite Hpc in Hok; try done. by destruct Hok.
  - destruct p; simpl in Hok; rewrite Hpc in Hok; try done; [|by destruct Hok].
    injection Hs as <-. destruct choice; [done|].
    unfold stopStarted, proceed. simpl. destruct (reverse (started_ l)) as [|j rest]; [simpl; by left|].
    unfold call_ok. by rewrite stopPhase_pc, stopPhase_rollback.
  - injection Hs as <-. by eapply call_ok_proceed.
  - unfold wait_step in Hs. destruct (entries_ l !! i) as [e|]; [|done].
    assert (Hw : forall failure' l1, pc l1 = PWait todo failure' next -> rollbackPending_ l1 = rollbackPending_ l -> call_ok p l1).
    { intros failure' l1 E Er. destruct p; simpl in *; rewrite Hpc in Hok; rewrite ?E, ?Er; try done. by destruct Hok. }
    destruct (negb (started e)); [injection Hs as <-; by eapply Hw|]. destruct (stopping e) as [op|]; [|done].
    destruct (done op); [|destruct choice; [|done]]; injection Hs as <-; [|by eapply Hw].
    destruct (failed op); by eapply Hw.
Qed.

Lemma call_ok_complete p i ok l l' : call_ok p l -> complete i ok l = Some l' -> call_ok p l'.
Proof.
  intros Hok Hs. unfold complete in Hs. destruct (entries_ l !! i) as [e|]; [|done]. destruct (stopping e) as [op|]; [|done].
  destruct (done op); [done|]. injection Hs as <-. by destruct p.
Qed.

(** The calls from an idle lifecycle. *)
Lemma call_stop_before l :
  pc l = PIdle -> exists l', stopBeforeGraphDrain l = Some l' /\ Life.step l l' /\ call_ok AStopBefore l' /\
    (state_ l = kCreated \/ state_ l = kStopped \/ (rollbackPending_ l = true /\ state_ l <> kCreated) -> call_ok AFailBefore l').
Proof.
  intros Hpc. destruct (stopBeforeGraphDrain l) as [l'|] eqn:Hs; [|unfold stopBeforeGraphDrain in Hs; by rewrite Hpc in Hs].
  exists l'. split; [done|]. split; [by exists DoStopBefore|].
  assert (Hroll : call_ok AStopBefore (stopStarted false (set_returned None l)) /\ call_ok AFailBefore (stopStarted false (set_returned None l))).
  { unfold stopStarted, proceed. simpl. destruct (reverse (started_ l)) as [|i rest]; [split; simpl; auto|].
    unfold call_ok. by rewrite stopPhase_pc. }
  unfold stopBeforeGraphDrain in Hs. rewrite Hpc in Hs. injection Hs as <-.
  destruct (state_ l) eqn:Hst; [split; simpl; auto| | | |split; simpl; auto];
    (destruct (rollbackPending_ l); [split; [apply Hroll|intros _; apply Hroll]|]); destruct (beforeGraphDrained_ l) eqn:Hd; (split; [simpl; auto|naive_solver]).
Qed.

Lemma call_stop_after l :
  pc l = PIdle -> exists l', stopAfterGraphDrain l = Some l' /\ Life.step l l' /\ call_ok AStopAfter l' /\
    (state_ l = kStopped -> call_ok AFailAfter l').
Proof.
  intros Hpc. destruct (stopAfterGraphDrain l) as [l'|] eqn:Hs; [|unfold stopAfterGraphDrain in Hs; by rewrite Hpc in Hs].
  exists l'. split; [done|]. split; [by exists DoStopAfter|].
  unfold stopAfterGraphDrain in Hs. rewrite Hpc in Hs. injection Hs as <-.
  destruct (state_ l) eqn:Hst; try (split; [|done]; by destruct (negb _ || _)). split; simpl; auto.
Qed.

Lemma call_start admission l :
  pc l = PIdle -> state_ l = kCreated \/ state_ l = kStopped ->
  exists l', Life.startImpl admission l = Some l' /\ Life.step l l' /\ call_ok AStarting l'.
Proof.
  intros Hpc Hst. destruct (Life.startImpl admission l) as [l'|] eqn:Hs; [|unfold Life.startImpl in Hs; by rewrite Hpc in Hs].
  exists l'. split; [done|]. split; [by exists (Life.DoStart admission)|].
  unfold Life.startImpl in Hs. rewrite Hpc in Hs. injection Hs as <-. case_bool_decide; [done|].
  simpl. destruct Hst; [done|by left].
Qed.

(** ** The invariant of the service *)
Record ainv a : Prop := {
  ainv_life : Life.reachable (life a);
  ainv_call : call_ok (apc a) (life a);
  ainv_clean : lifecyclePending_ a = false ->
    graph a = Inactive /\ (state_ (life a) = kCreated \/ state_ (life a) = kStopped) /\ apc a = AIdle /\ running_ a = false;
  ainv_running : running_ a = true -> apc a = AIdle /\ state_ (life a) = kRunning /\ graph a = Active;
  ainv_graph : match apc a with AStarting => graph a = Active | AStopAfter => graph a <> Active | _ => True end;
}.

Lemma reachable_added l l' : Life.reachable l -> added l l' -> Life.reachable l'.
Proof. unfold Life.reachable. intros ? Ha. etrans; [done|apply Ha]. Qed.

Lemma ainv_created : ainv created.
Proof. split; simpl; try done; [apply rtc_refl|]. intros _. auto. Qed.

Lemma ainv_grown a a' : grown a a' -> ainv a -> ainv a'.
Proof.
  intros [Hl Eg Er Ep Ea] [A1 A2 A3 A4 A5]. pose proof (added_state _ _ Hl) as Es.
  split; rewrite ?Eg, ?Er, ?Ep, ?Ea, ?Es; try done.
  - by eapply reachable_added.
  - by eapply call_ok_added.
Qed.

(** A pending service with a lifecycle call under way. *)
Lemma ainv_pending a : Life.reachable (life a) -> call_ok (apc a) (life a) -> lifecyclePending_ a = true -> running_ a = false ->
  match apc a with AStarting => graph a = Active | AStopAfter => graph a <> Active | _ => True end -> ainv a.
Proof. intros ? ? Hp Hr ?. split; try done; congruence. Qed.

Lemma reachable_step l l' : Life.reachable l -> Life.step l l' -> Life.reachable l'.
Proof. intros ? ?. by eapply rtc_r. Qed.

Lemma ainv_fail a :
  Life.reachable (life a) -> pc (life a) = PIdle -> lifecyclePending_ a = true ->
  state_ (life a) = kCreated \/ state_ (life a) = kStopped \/ rollbackPending_ (life a) = true -> ainv (fail a).
Proof.
  intros Hr Hpc Hp Hst. unfold fail, call. simpl.
  destruct (call_stop_before (life a) Hpc) as (l' & E & Hs & _ & Hf). rewrite E. apply ainv_pending; simpl; try done.
  - by eapply reachable_step.
  - apply Hf. destruct Hst as [?|[?|Hrb]]; auto. right; right. split; [done|].
    destruct (base_rollback _ (inv_base _ (reachable_life _ Hr)) Hrb). congruence.
Qed.

Lemma ainv_start cfg built admission a a' : ainv a -> startImpl cfg built admission a = Some a' -> ainv a'.
Proof.
  intros Hinv Hs. unfold startImpl in Hs. destruct (apc a) eqn:Ea; try done. injection Hs as <-.
  pose proof (ainv_call _ Hinv) as Hpc. rewrite Ea in Hpc. simpl in Hpc.
  destruct (lifecyclePending_ a) eqn:Hp.
  { destruct Hinv as [A1 A2 A3 A4 A5]. split; simpl; try done; try congruence. intros Hr. by destruct (A4 Hr). }
  destruct (ainv_clean _ Hinv Hp) as (Eg & Est & _ & Er).
  pose proof (grows_configured cfg (set_lifecyclePending_ true a)) as Hg.
  destruct (ensureConfiguredPools cfg (set_lifecyclePending_ true a)) as [a1 r]. simpl in Hg.
  destruct Hg as [Hl Eg1 Er1 Ep1 Ea1]. simpl in *.
  assert (Hr1 : Life.reachable (life a1)) by (eapply reachable_added; [apply Hinv|done]).
  assert (Hpc1 : pc (life a1) = PIdle) by (by rewrite (added_pc _ _ Hl)).
  assert (Hst1 : state_ (life a1) = kCreated \/ state_ (life a1) = kStopped) by (by rewrite (added_state _ _ Hl)).
  assert (Hfail : ainv (fail a1)) by (apply ainv_fail; try done; naive_solver).
  destruct r as [u|e]; [|done]. destruct (bool_decide (graph a1 = Inactive) && built); [|done].
  destruct (call_start admission (life a1) Hpc1 Hst1) as (l' & E & Hs & Hok). unfold call. simpl. rewrite E.
  apply ainv_pending; simpl; try done; [by eapply reachable_step|congruence].
Qed.

Lemma ainv_stop a a' : ainv a -> stop a = Some a' -> ainv a'.
Proof.
  intros Hinv Hs. unfold stop in Hs. destruct (apc a) eqn:Ea; try done. injection Hs as <-.
  pose proof (ainv_call _ Hinv) as Hpc. rewrite Ea in Hpc. simpl in Hpc.
  destruct (lifecyclePending_ a) eqn:Hp; simpl.
  - unfold call. simpl. destruct (call_stop_before (life a) Hpc) as (l' & E & Hs & Hok & _). rewrite E.
    apply ainv_pending; simpl; try done. eapply reachable_step; [apply Hinv|done].
  - destruct Hinv as [A1 A2 A3 A4 A5]. destruct (A3 Hp) as (? & ? & ? & Er). split; simpl; try done. congruence.
Qed.

Lemma ainv_resume drains a a' : ainv a -> resume drains a = Some a' -> ainv a'.
Proof.
  intros Hinv Hs. unfold resume in Hs. destruct (pc (life a)) eqn:Hpc; try done.
  destruct (returned (life a)) as [r|] eqn:Hret; [|done]. pose proof (ainv_call _ Hinv) as Hok. pose proof (ainv_life _ Hinv) as Hr.
  assert (Hp : apc a <> AIdle -> lifecyclePending_ a = true /\ running_ a = false).
  { intros Hne. split.
    - destruct (lifecyclePending_ a) eqn:Hp; [done|]. by destruct (ainv_clean _ Hinv Hp) as (_ & _ & ? & _).
    - destruct (running_ a) eqn:Hru; [|done]. by destruct (ainv_running _ Hinv Hru). }
  assert (Hidle : forall o, apc a <> AIdle -> ainv (finish o a)).
  { intros o Hne. destruct (Hp Hne) as [? ?]. by apply ainv_pending. }
  destruct (call_stop_after (life a) Hpc) as (l' & E & Hst & Hok1 & Hok2).
  pose proof (reachable_step _ _ Hr Hst) as Hr'.
  destruct (apc a) eqn:Ea; simpl in Hok; rewrite ?Hpc, ?Hret in Hok; try done; destruct (Hp ltac:(done)) as [Hpe Hru];
    destruct r as [u|e]; injection Hs as <-; try (by apply Hidle).
  - pose proof (ainv_graph _ Hinv) as Hg. rewrite Ea in Hg. split; simpl; try done. congruence.
  - apply ainv_fail; [done|done|done|]. by destruct Hok; auto.
  - unfold call. rewrite E. apply ainv_pending; try done. exact (Hok2 Hok).
  - destruct Hok as (_ & _ & Hstop). destruct (drain drains a); [|by apply Hidle].
    split; simpl; try done; [auto|congruence].
  - destruct (drain drains a) eqn:Hd; [|by apply Hidle]. unfold call.
    assert (El : life (drainGraph a) = life a) by (unfold drainGraph; by case_bool_decide). rewrite El, E.
    apply ainv_pending; simpl; try done; unfold drainGraph; case_bool_decide as Hgi; simpl; congruence.
  - split; simpl; try done; [auto|congruence].
Qed.

Lemma ainv_step a a' : ainv a -> App.step a a' -> ainv a'.
Proof.
  intros Hinv [act Ha]. destruct act as [k component|cfg|cfg built admission| |drains|choice|i ok]; simpl in Ha.
  - injection Ha as <-. eapply ainv_grown; [|done]. split; simpl; [apply added_add|done..].
  - injection Ha as <-. eapply ainv_grown; [apply grows_configured|done].
  - by eapply ainv_start.
  - by eapply ainv_stop.
  - by eapply ainv_resume.
  - apply fmap_Some in Ha as (l' & Hs & ->).
    assert (Hr' : Life.reachable l') by (eapply reachable_step; [apply Hinv|by exists (DoStep choice)]).
    assert (Hne : apc a <> AIdle).
    { intros Ea. pose proof (ainv_call _ Hinv) as Hok. rewrite Ea in Hok. simpl in Hok. unfold call_step in Hs. by rewrite Hok in Hs. }
    pose proof (call_ok_step _ _ _ _ (ainv_call _ Hinv) Hs) as Hok. destruct Hinv as [A1 A2 A3 A4 A5]. split; simpl; try done.
    + intros Hp. by destruct (A3 Hp) as (_ & _ & ? & _).
    + intros Hru. by destruct (A4 Hru).
  - apply fmap_Some in Ha as (l' & Hs & ->).
    assert (Hr' : Life.reachable l') by (eapply reachable_step; [apply Hinv|by exists (Life.DoComplete i ok)]).
    pose proof (call_ok_complete _ _ _ _ _ (ainv_call _ Hinv) Hs) as Hok.
    assert (Es : state_ l' = state_ (life a)).
    { unfold complete in Hs. destruct (entries_ (life a) !! i) as [e|]; [|done]. destruct (stopping e) as [op|]; [|done].
      destruct (Life.done op); [done|]. by injection Hs as <-. }
    destruct Hinv as [A1 A2 A3 A4 A5]. split; simpl; rewrite ?Es; done.
Qed.
Lemma reachable_app a : App.reachable a -> ainv a.
Proof. revert a. apply (rtc_ind_r ainv); [apply ainv_created|]. intros a1 a2 _ Hs Hi. by eapply ainv_step. Qed.

(** ** The properties *)

(** C8.  A service that says it is stopped has let nothing go early: the graph is released,
    and every component that was ever started has been stopped; a service that says it is
    running has all its components up and its graph active. *)
Theorem service_stopped_clean a :
  App.reachable a ->
  (App.isStopped a = true -> graph a = Inactive /\ forall i, idle (cstate (log (life a)) i)) /\
  (isRunning a = true -> graph a = Active /\ lifecyclePending_ a = true /\ state_ (life a) = kRunning).
Proof.
  intros Hinv%reachable_app. split.
  - intros Hs. apply negb_true_iff in Hs. destruct (ainv_clean _ Hinv Hs) as (Eg & Hst & _). split; [done|]. intros i.
    pose proof (reachable_life _ (ainv_life _ Hinv)) as Hl. destruct Hst as [Hst|Hst].
    + destruct (inv_created _ Hl Hst) as (-> & _). by left.
    + destruct (inv_entries _ Hl) as [_ Hout]. apply Hout. by destruct (inv_stopped _ Hl Hst) as (-> & _).
  - intros Hru. destruct (ainv_running _ Hinv Hru) as (_ & Hst & Hg). split; [done|]. split; [|done].
    destruct (lifecyclePending_ a) eqn:Hp; [done|]. destruct (ainv_clean _ Hinv Hp). congruence.
Qed.

(** A step of the service moves its lifecycle by registrations and at most one more step. *)
Lemma step_life a a' :
  ainv a -> App.step a a' -> exists l1, log l1 = log (life a) /\ (life a' = l1 \/ Life.step l1 (life a')).
Proof.
  intros Hinv [act Ha].
  assert (Hcall : forall f p a1, log (life a1) = log (life a) -> (forall l l', f l = Some l' -> Life.step l l') ->
    exists l1, log l1 = log (life a) /\ (life (call f p a1) = l1 \/ Life.step l1 (life (call f p a1)))).
  { intros f p a1 El Hf. exists (life a1). split; [done|]. unfold call. destruct (f (life a1)) as [l'|] eqn:E; [|by left].
    right. by apply Hf. }
  assert (Hb : forall l l', stopBeforeGraphDrain l = Some l' -> Life.step l l') by (intros; by exists DoStopBefore).
  assert (Hf : forall l l', stopAfterGraphDrain l = Some l' -> Life.step l l') by (intros; by exists DoStopAfter).
  assert (Hsame : life a' = life a -> exists l1, log l1 = log (life a) /\ (life a' = l1 \/ Life.step l1 (life a'))).
  { intros E. exists (life a). auto. }
  destruct act as [k component|cfg|cfg built admission| |drains|choice|i ok]; simpl in Ha.
  - injection Ha as <-. eexists. split; [|by left]. apply (added_add k component (life a)).
  - injection Ha as <-. eexists. split; [|by left]. apply (grows_configured cfg a).
  - unfold startImpl in Ha. destruct (apc a); try done. injection Ha as <-. destruct (lifecyclePending_ a); [by apply Hsame|].
    pose proof (grows_configured cfg (set_lifecyclePending_ true a)) as Hg.
    destruct (ensureConfiguredPools cfg (set_lifecyclePending_ true a)) as [a1 r]. simpl in Hg.
    pose proof (added_log _ _ (grown_life _ _ Hg)) as El. simpl in El.
    destruct r; [destruct (bool_decide _ && built)|]; try (by apply Hcall).
    apply Hcall; [done|]. intros. by exists (Life.DoStart admission).
  - unfold stop in Ha. destruct (apc a); try done. injection Ha as <-. destruct (negb _); [by apply Hsame|by apply Hcall].
  - unfold resume in Ha. destruct (pc (life a)); try done. destruct (returned (life a)) as [r|]; [|done].
    destruct (apc a), r; try done; injection Ha as <-; try (by apply Hcall); try (by apply Hsame);
      destruct (drain drains a); try (by apply Hsame).
    apply Hcall; [|done]. unfold drainGraph. by case_bool_decide.
  - apply fmap_Some in Ha as (l' & Hs & ->). exists (life a). split; [done|]. right. by exists (DoStep choice).
  - apply fmap_Some in Ha as (l' & Hs & ->). exists (life a). split; [done|]. right. by exists (Life.DoComplete i ok).
Qed.

(** Data sinks outlive the graph: in a shutdown no sink is stopped while the graph can
    still have work under way. *)
Theorem sinks_outlive_graph a a' j :
  App.reachable a -> App.step a a' -> stops (life a) (life a') j ->
  rollbackPending_ (life a') = false -> kind_of (life a') j = Some kDataSink -> graph a' <> Active.
Proof.
  intros Hr Hs Hst Hrb Hk. pose proof (reachable_app _ Hr) as Hinv. pose proof (ainv_step _ _ Hinv Hs) as Hinv'.
  destruct (step_life _ _ Hinv Hs) as (l1 & El & Hl1). destruct Hst as (evs & Ev & Hj). rewrite <- El in Ev.
  destruct Hl1 as [E|[act Hact]].
  { rewrite <- E, <- (app_nil_r (log (life a'))) in Ev at 1. apply app_inv_head in Ev. by subst evs; apply elem_of_nil in Hj. }
  destruct (step_stops act l1 (life a') j Hact (ex_intro _ evs (conj Ev Hj))) as (todo & next & Hpc & Hin & Hph).
  pose proof (inv_pc _ (reachable_life _ (ainv_life _ Hinv'))) as Hok. unfold pc_ok in Hok. rewrite Hpc in Hok.
  destruct Hok as (_ & _ & _ & Hcont).
  assert (Hout : forall ks, kDataSink ∉ ks -> todo = reverse_of ks (entries_ (life a')) -> False).
  { intros ks Hks ->. apply elem_of_reverse_of in Hin as (k & Hkk & E). unfold kind_of in Hk. rewrite E in Hk.
    by injection Hk as ->. }
  destruct next as [rest fs| | |]; unfold in_phase, phase_kinds in Hph.
  - destruct Hcont as (? & _). congruence.
  - destruct (Hout admission_kinds); [set_solver|done].
  - destruct (Hout executor_kinds); [set_solver|done].
  - pose proof (ainv_call _ Hinv') as Hc. pose proof (ainv_graph _ Hinv') as Hg.
    destruct (apc a'); simpl in Hc; rewrite Hpc in Hc; try done. by destruct Hc.
Qed.

(** ** Configured pools *)

(** The pools of [a'] include those of [a]. *)
Record more a a' : Prop := {
  more_delay : delayPool_ a = true -> delayPool_ a' = true;
  more_task : taskPools_ a ⊆ taskPools_ a';
  more_priority : priorityTaskPools_ a ⊆ priorityTaskPools_ a';
}.
Lemma more_refl a : more a a.
Proof. by split. Qed.
Lemma more_trans a1 a2 a3 : more a1 a2 -> more a2 a3 -> more a1 a3.
Proof. intros [? ? ?] [? ? ?]. split; [auto|by etrans|by etrans]. Qed.

Lemma addPool_pools k a a' r :
  addPool k a = (a', r) ->
  delayPool_ a' = delayPool_ a /\ taskPools_ a' = taskPools_ a /\ priorityTaskPools_ a' = priorityTaskPools_ a.
Proof. unfold addPool. destruct (Life.add _ _ _) as [l r']. by intros [= <- _]. Qed.

Definition named (name : option string) (pools : list string) : Prop :=
  match name with Some n => n <> EmptyString /\ n ∈ pools | None => True end.
(** Every pool that the semantics name is there. *)
Definition provided (sem : CallSemantics) a : Prop :=
  named (taskPool sem) (taskPools_ a) /\ named (priorityTaskPool sem) (priorityTaskPools_ a).
Lemma named_more name (l l' : list string) : l ⊆ l' -> named name l -> named name l'.
Proof. destruct name; simpl; [|done]. intros Hs [? ?]. split; [done|]. by apply Hs. Qed.
Lemma provided_more sem a a' : more a a' -> provided sem a -> provided sem a'.
Proof. intros [_ Ht Hp] [? ?]. split; by eapply named_more. Qed.

Lemma ensure_task name a a' :
  ensurePool name taskPools_ registerTaskPool a = (a', Ok tt) -> more a a' /\ named name (taskPools_ a').
Proof.
  unfold ensurePool. destruct name as [n|]; [|intros [= <-]; split; [apply more_refl|done]].
  case_bool_decide as Hn; [done|]. case_bool_decide as Hin; [intros [= <-]; split; [apply more_refl|done]|].
  unfold registerTaskPool. rewrite bool_decide_false by done. intros E%addPool_pools. destruct E as (Ed & Et & Ep). simpl in *. split.
  - split; rewrite ?Ed, ?Et, ?Ep; set_solver.
  - simpl. rewrite Et. set_solver.
Qed.
Lemma ensure_priority name a a' :
  ensurePool name priorityTaskPools_ registerPriorityTaskPool a = (a', Ok tt) -> more a a' /\ named name (priorityTaskPools_ a').
Proof.
  unfold ensurePool. destruct name as [n|]; [|intros [= <-]; split; [apply more_refl|done]].
  case_bool_decide as Hn; [done|]. case_bool_decide as Hin; [intros [= <-]; split; [apply more_refl|done]|].
  unfold registerPriorityTaskPool. rewrite bool_decide_false by done. intros E%addPool_pools. destruct E as (Ed & Et & Ep). simpl in *. split.
  - split; rewrite ?Ed, ?Et, ?Ep; set_solver.
  - simpl. rewrite Ep. set_solver.
Qed.
Lemma ensure_named name known register a : named name (known a) -> ensurePool name known register a = (a, Ok tt).
Proof. destruct name as [n|]; simpl; [|done]. intros [? ?]. by rewrite bool_decide_false, bool_decide_true. Qed.

Lemma andThen_ok (r : App * result AppError unit) k a' :
  andThen r k = (a', Ok tt) -> exists a1, r = (a1, Ok tt) /\ k a1 = (a', Ok tt).
Proof. destruct r as [a1 [[]|e]]; simpl; [by exists a1|done]. Qed.

Lemma ensure_semantics sem a a' : ensureCallSemantics sem a = (a', Ok tt) -> more a a' /\ provided sem a'.
Proof.
  unfold ensureCallSemantics. intros (a1 & E1 & E2)%andThen_ok.
  apply ensure_task in E1 as [M1 N1]. apply ensure_priority in E2 as [M2 N2].
  split; [by eapply more_trans|]. split; [|done]. eapply named_more; [|exact N1]. apply M2.
Qed.
Lemma semantics_provided sem a : provided sem a -> ensureCallSemantics sem a = (a, Ok tt).
Proof. intros [? ?]. unfold ensureCallSemantics. rewrite ensure_named by done. simpl. by apply ensure_named. Qed.

Lemma ensure_all sems a a' : ensureAll sems a = (a', Ok tt) -> more a a' /\ Forall (fun sem => provided sem a') sems.
Proof.
  revert a. induction sems as [|sem sems IH]; intros a; simpl; [intros [= <-]; split; [apply more_refl|constructor]|].
  intros (a1 & E1 & E2)%andThen_ok. apply ensure_semantics in E1 as [M1 P1]. apply IH in E2 as [M2 P2].
  split; [by eapply more_trans|]. constructor; [by eapply provided_more|done].
Qed.
Lemma all_provided sems a : Forall (fun sem => provided sem a) sems -> ensureAll sems a = (a, Ok tt).
Proof. induction 1 as [|sem sems Hp _ IH]; simpl; [done|]. by rewrite semantics_provided. Qed.

(** Everything the configuration asks for. *)
Definition configured (cfg : Config) a : Prop :=
  delayPool_ a = true /\ (forall sem, defaultCallSemantics cfg = Some sem -> provided sem a) /\
  Forall (fun sem => provided sem a) (links cfg).

(** [ensureConfiguredPools] that does not throw leaves the delay pool and every pool that
    the default or a link names registered, none of them under an empty name, and keeps what
    was there; it can be called again, before every lookup of a pool, without any effect. *)
Theorem ensure_configured cfg a a' :
  ensureConfiguredPools (Some cfg) a = (a', Ok tt) ->
  configured cfg a' /\ more a a' /\ ensureConfiguredPools (Some cfg) a' = (a', Ok tt).
Proof.
  unfold ensureConfiguredPools. intros (a1 & E1 & E2)%andThen_ok. apply andThen_ok in E2 as (a2 & E2 & E3).
  assert (H1 : more a a1 /\ delayPool_ a1 = true).
  { destruct (delayPool_ a) eqn:Hd; [injection E1 as <-; split; [apply more_refl|done]|]. unfold registerDelayPool in E1. rewrite Hd in E1.
    apply addPool_pools in E1 as (Ed & Et & Ep). simpl in *. split; [|done]. split; [done|by rewrite Et|by rewrite Ep]. }
  assert (H2 : more a1 a2 /\ forall sem, defaultCallSemantics cfg = Some sem -> provided sem a2).
  { destruct (defaultCallSemantics cfg) as [sem|]; [|injection E2 as <-; split; [apply more_refl|done]].
    apply ensure_semantics in E2 as [? ?]. split; [done|]. by intros ? [= <-]. }
  apply ensure_all in E3 as [M3 P3]. destruct H1 as [M1 D1], H2 as [M2 P2].
  assert (D' : delayPool_ a' = true) by (apply M3, M2, D1).
  assert (P' : forall sem, defaultCallSemantics cfg = Some sem -> provided sem a') by (intros; eapply provided_more; eauto).
  split; [done|]. split; [eapply more_trans; [done|]; by eapply more_trans|].
  rewrite D'. simpl. destruct (defaultCallSemantics cfg) as [sem|]; simpl; [rewrite semantics_provided by auto; simpl|]; by apply all_provided.
Qed.

(** ** A service with one link, one source and one sink *)
Definition sample_config : Config := mkConfig None [mkSemantics (Some "work"%string) None].
Definition sample_start : list AppAction :=
  [DoRegister kDataSource (Some 100%nat); DoRegister kDataSink (Some 101%nat); DoStart (Some sample_config) true true]
  ++ replicate 9 (DoLife true) ++ [DoResume true].
(** Stop, to the step in which the sink is stopped. *)
Definition sample_stop : list AppAction :=
  [DoStop; DoComplete 0 true; DoLife false; DoLife false; DoComplete 2 true; DoComplete 3 true;
   DoLife false; DoLife false; DoLife false; DoResume true].
Definition sample_finish : list AppAction := [DoComplete 1 true; DoLife false; DoLife false; DoResume true].
Definition reached (acts : list AppAction) : App := default created (App.run acts created).

Lemma app_run_reachable acts : is_Some (App.run acts created) -> App.reachable (reached acts).
Proof.
  unfold reached. intros [a' E]. rewrite E. simpl. unfold App.reachable.
  enough (H : forall a, App.run acts a = Some a' -> rtc App.step a a') by (by apply H). clear E.
  induction acts as [|act acts IH]; intros a E; simpl in E; [injection E as <-; apply rtc_refl|].
  destruct (App.perform act a) as [a1|] eqn:Ha; [|done]. eapply rtc_l; [by exists act|auto].
Qed.

Lemma service_stopped_clean_witness :
  isRunning (reached sample_start) = true /\ App.isStopped (reached (sample_start ++ sample_stop ++ sample_finish)) = true /\
  graph (reached (sample_start ++ sample_stop ++ sample_finish)) = Inactive /\
  forall i, idle (cstate (log (life (reached (sample_start ++ sample_stop ++ sample_finish)))) i).
Proof.
  split; [vm_compute; reflexivity|]. split; [vm_compute; reflexivity|].
  destruct (service_stopped_clean (reached (sample_start ++ sample_stop ++ sample_finish))) as [H _].
  - apply app_run_reachable. eexists. vm_compute. reflexivity.
  - apply H. vm_compute. reflexivity.
Defined.

Definition app_before : App := reached (sample_start ++ take 9 sample_stop).
Definition app_after : App := reached (sample_start ++ sample_stop).
Lemma sinks_outlive_graph_witness : graph app_before = Active /\ graph app_after <> Active.
Proof.
  split; [vm_compute; reflexivity|].
  assert (Hr : App.reachable app_before) by (apply app_run_reachable; eexists; vm_compute; reflexivity).
  assert (Hs : App.step app_before app_after) by (exists (DoResume true); vm_compute; reflexivity).
  assert (Hst : stops (life app_before) (life app_after) 1) by (exists [EStop 1]; split; [vm_compute; reflexivity|by left]).
  apply (sinks_outlive_graph app_before app_after 1 Hr Hs Hst); vm_compute; reflexivity.
Defined.

Lemma ensure_configured_witness :
  configured sample_config (ensureConfiguredPools (Some sample_config) created).1 /\
  taskPools_ (ensureConfiguredPools (Some sample_config) created).1 = ["work"%string].
Proof.
  split; [|vm_compute; reflexivity].
  destruct (ensure_configured sample_config created (ensureConfiguredPools (Some sample_config) created).1) as [H _]; [|exact H].
  vm_compute. reflexivity.
Defined.
