(* ===== verification/RuntimeConfig.v ===== *)
(** * The configuration of a service: its indexes

    runtime/config/config.hpp over the configuration types beside it.  [IConfig] is what the
    generated configuration class returns; of a stream, an endpoint or a connector it keeps the
    fields that the reference classes expose to the runtime.  [RuntimeConfig] is the constructor
    of the class of that name: indexes by name and by id, with the checks made on the way; the
    look-ups are its member functions.  Ids are [int], and only compared. *)
From Stdlib Require Import Lia.
From stdpp Require Import strings gmap list.
From S2P Require Import Prelude.

(** Repeat a fallible update along a list, as a loop that may throw. *)
Fixpoint each {E A S : Type} (f : A -> S -> result E S) (l : list A) (s : S) : result E S :=
  match l with
  | [] => Ok s
  | x :: l => rbind (f x s) (each f l)
  end.

Module Config.
Local Open Scope Z_scope.
Local Open Scope result_scope.

(** ** Data *)

(** [CallSemanticsGroup]: [functionCall] says whether the call is async, [priorityTaskPool] has
    the default priority. *)
Record CallSemanticsGroup := mkGroup {
  functionCall : option bool;
  taskPool : option string;
  priorityTaskPool : option (string * Z);
  parallelCall : option unit;
}.
Definition LinkID : Type := (Z * Z)%type.
Record LinkConfig := mkLink {
  from : Z;
  to : Z;
  callSemantics : option CallSemanticsGroup;
}.
Record PoolConfig := mkPool {
  pool_name : string;
  executorsCount : Z;
  queueCapacity : Z;
}.
Record ServiceConfig := mkService {
  service_id : Z;
  service_name : string;
  defaultCallSemantics : option CallSemanticsGroup;
  shutdownTimeout : Z;
}.
Inductive DataConnectorType := kUndefined | kHTTP | kGRPC | kKafka | kCustom | kCron | kTemporal.
#[global] Instance DataConnectorType_eq_dec : EqDecision DataConnectorType.
Proof. solve_decision. Defined.
Record StreamConfigRef := mkStream {
  stream_id : Z;
  stream_name : string;
  pipeline : string;
  component : string;
}.
Record DataConnectorConfigRef := mkConnector {
  connector_id : Z;
  connector_name : string;
  connector_type : DataConnectorType;
}.
Record EndpointConfigRef := mkEndpoint {
  endpoint_id : Z;
  endpoint_name : string;
  endpoint_type : DataConnectorType;
  idDataConnector : Z;
}.
Record TypeConfig := mkType { type_name : string }.

Record IConfig := mkConfig {
  GetStreams : list StreamConfigRef;
  GetServices : list ServiceConfig;
  GetEndpoints : list EndpointConfigRef;
  GetDataConnectors : list DataConnectorConfigRef;
  GetPools : list PoolConfig;
  GetTypes : list TypeConfig;
  GetLinks : list LinkConfig;
}.

Inductive ConfigError :=
  | DuplicateStreamName (name : string)
  | DuplicateStreamId (id : Z)
  | DuplicateServiceName (name : string)
  | DuplicateServiceId (id : Z)
  | DuplicateEndpointName (name : string)
  | DuplicateEndpointId (id : Z)
  | DuplicateConnectorName (name : string)
  | DuplicateConnectorId (id : Z)
  | UnknownConnector (endpoint : string) (id : Z)
  | ConnectorTypeMismatch (endpoint connector : string)
  | DuplicatePool (name : string)
  | DuplicateType (name : string)
  | InvalidLink (link : LinkID) (count : Z)
  | DuplicateLink (link : LinkID).

(** ** Validation of links *)
Definition present {A} (o : option A) : Z := match o with Some _ => 1 | None => 0 end.
Definition semantics_count (g : CallSemanticsGroup) : Z :=
  present (functionCall g) + present (taskPool g) + present (priorityTaskPool g) + present (parallelCall g).
Definition link_key (l : LinkConfig) : LinkID := (from l, to l).
Definition Validate (l : LinkConfig) : result ConfigError unit :=
  match callSemantics l with
  | None => Ok tt
  | Some g => if semantics_count g =? 1 then Ok tt else Err (InvalidLink (link_key l) (semantics_count g))
  end.

(** ** Indexes *)
Definition InsertUnique {K V} `{Countable K} (m : gmap K V) (key : K) (value : V) (error_msg : ConfigError) :
    result ConfigError (gmap K V) :=
  match m !! key with
  | Some _ => Err error_msg
  | None => Ok (<[key := value]> m)
  end.

(** One loop of the constructor: [emplace] in the index by name and then in the one by id. *)
Definition InsertBoth {V} (name : V -> string) (id : V -> Z) (dup_name : string -> ConfigError)
    (dup_id : Z -> ConfigError) (v : V) (m : gmap string V * gmap Z V) :
    result ConfigError (gmap string V * gmap Z V) :=
  let? byName := InsertUnique m.1 (name v) v (dup_name (name v)) in
  let? byID := InsertUnique m.2 (id v) v (dup_id (id v)) in
  Ok (byName, byID).

(** The loop that resolves the connector of every endpoint. *)
Definition CheckEndpoint (connectors : gmap Z DataConnectorConfigRef) (ep : EndpointConfigRef) (u : unit) :
    result ConfigError unit :=
  match connectors !! idDataConnector ep with
  | None => Err (UnknownConnector (endpoint_name ep) (idDataConnector ep))
  | Some c =>
      if bool_decide (connector_type c = endpoint_type ep) then Ok u
      else Err (ConnectorTypeMismatch (endpoint_name ep) (connector_name c))
  end.
Definition InsertLink (l : LinkConfig) (m : gmap LinkID LinkConfig) : result ConfigError (gmap LinkID LinkConfig) :=
  let? _ := Validate l in InsertUnique m (link_key l) l (DuplicateLink (link_key l)).

Record RuntimeConfig := mkRuntime {
  config_ : IConfig;
  streamsByName_ : gmap string StreamConfigRef;
  streamsByID_ : gmap Z StreamConfigRef;
  servicesByName_ : gmap string ServiceConfig;
  servicesByID_ : gmap Z ServiceConfig;
  endpointsByName_ : gmap string EndpointConfigRef;
  endpointsByID_ : gmap Z EndpointConfigRef;
  dataConnectorsByName_ : gmap string DataConnectorConfigRef;
  dataConnectorsByID_ : gmap Z DataConnectorConfigRef;
  poolByName_ : gmap string PoolConfig;
  typesByName_ : gmap string TypeConfig;
  linksByID_ : gmap LinkID LinkConfig;
}.

Definition make (config : IConfig) : result ConfigError RuntimeConfig :=
  let? streams := each (InsertBoth stream_name stream_id DuplicateStreamName DuplicateStreamId) (GetStreams config) (∅, ∅) in
  let? services := each (InsertBoth service_name service_id DuplicateServiceName DuplicateServiceId) (GetServices config) (∅, ∅) in
  let? endpoints := each (InsertBoth endpoint_name endpoint_id DuplicateEndpointName DuplicateEndpointId) (GetEndpoints config) (∅, ∅) in
  let? connectors := each (InsertBoth connector_name connector_id DuplicateConnectorName DuplicateConnectorId) (GetDataConnectors config) (∅, ∅) in
  let? _ := each (CheckEndpoint connectors.2) (GetEndpoints config) tt in
  let? pools := each (fun p m => InsertUnique m (pool_name p) p (DuplicatePool (pool_name p))) (GetPools config) ∅ in
  let? types := each (fun t m => InsertUnique m (type_name t) t (DuplicateType (type_name t))) (GetTypes config) ∅ in
  let? links := each InsertLink (GetLinks config) ∅ in
  Ok (mkRuntime config streams.1 streams.2 services.1 services.2 endpoints.1 endpoints.2 connectors.1 connectors.2
        pools types links).

(** ** Look-ups *)
Definition GetStreamConfigByName (rc : RuntimeConfig) (name : string) : option StreamConfigRef := streamsByName_ rc !! name.
Definition GetStreamConfigByID (rc : RuntimeConfig) (id : Z) : option StreamConfigRef := streamsByID_ rc !! id.
Definition GetServiceConfigByName (rc : RuntimeConfig) (name : string) : option ServiceConfig := servicesByName_ rc !! name.
Definition GetServiceConfigByID (rc : RuntimeConfig) (id : Z) : option ServiceConfig := servicesByID_ rc !! id.
Definition GetOnlyServiceConfig (rc : RuntimeConfig) : option ServiceConfig :=
  match map_to_list (servicesByID_ rc) with [(_, s)] => Some s | _ => None end.
Definition GetEndpointConfigByID (rc : RuntimeConfig) (id : Z) : option EndpointConfigRef := endpointsByID_ rc !! id.
Definition GetDataConnectorByID (rc : RuntimeConfig) (id : Z) : option DataConnectorConfigRef := dataConnectorsByID_ rc !! id.
Definition GetPoolByName (rc : RuntimeConfig) (name : string) : option PoolConfig := poolByName_ rc !! name.
Definition GetTypeByName (rc : RuntimeConfig) (name : string) : option TypeConfig := typesByName_ rc !! name.
Definition GetLink (rc : RuntimeConfig) (link : LinkID) : option LinkConfig := linksByID_ rc !! link.
End Config.
