(* ===== verification/RuntimeConfigTheorems.v ===== *)
(** * What the indexes of a configuration hold

    The constructor of [RuntimeConfig] accepts exactly the configurations that [valid]
    describes, and then every look-up answers for the lists of the configuration. *)
From Stdlib Require Import Lia.
From stdpp Require Import strings gmap list.
From S2P Require Import Prelude RuntimeConfig.
Import Config.

Section Index.
Context {K V : Type} `{Countable K} (key : V -> K) (dup : K -> ConfigError).
Implicit Types (m : gmap K V) (l : list V).

(** The loop that fills one index. *)
Definition index l m : result ConfigError (gmap K V) :=
  each (fun v m => InsertUnique m (key v) v (dup (key v))) l m.

Lemma index_cons v l m :
  index (v :: l) m = match m !! key v with Some _ => Err (dup (key v)) | None => index l (<[key v := v]> m) end.
Proof. unfold index; simpl. unfold InsertUnique at 1. by destruct (m !! key v). Qed.

(** [m] finds the values of [l] by their keys, and nothing else. *)
Definition finds l m : Prop := forall k v, m !! k = Some v <-> v ∈ l /\ key v = k.

Lemma index_inv l m m' :
  index l m = Ok m' ->
  NoDup (key <$> l) /\ (forall v, v ∈ l -> m !! key v = None) /\
  (forall k v, m' !! k = Some v <-> m !! k = Some v \/ (v ∈ l /\ key v = k)).
Proof.
  revert m. induction l as [|x l IH]; intros m.
  { intros [= <-]. split_and!; [apply NoDup_nil_2|set_solver|set_solver]. }
  rewrite index_cons. destruct (m !! key x) eqn:Hx; [done|]. intros (Hnd & Hfresh & Hm)%IH.
  assert (Hnot : forall v, v ∈ l -> key v <> key x /\ m !! key v = None).
  { intros v Hv. pose proof (Hfresh v Hv) as Hl. by apply lookup_insert_None in Hl as [? ?]. }
  split_and!.
  - apply NoDup_cons; split; [|done]. intros (v & Heq & Hv)%list_elem_of_fmap. by destruct (Hnot v Hv) as [[] _].
  - intros v [->|Hv]%elem_of_cons; [done|]. by apply Hnot.
  - intros k v. rewrite Hm, lookup_insert_Some, elem_of_cons. split.
    + intros [[[<- <-]|[_ ?]]|[? ?]]; auto.
    + intros [Hk|[[->|Hv] <-]]; auto. left. right. split; [|done]. congruence.
Qed.
Lemma index_total l m :
  NoDup (key <$> l) -> (forall v, v ∈ l -> m !! key v = None) -> exists m', index l m = Ok m'.
Proof.
  revert m. induction l as [|x l IH]; intros m Hnd Hm; [by exists m|].
  apply NoDup_cons in Hnd as [Hx Hnd]. rewrite index_cons, Hm by left.
  apply IH; [done|]. intros v Hv. apply lookup_insert_None. split; [apply Hm; by right|].
  intros Heq. apply Hx. rewrite Heq. apply list_elem_of_fmap. eauto.
Qed.
Lemma index_finds l m : index l ∅ = Ok m -> NoDup (key <$> l) /\ finds l m.
Proof. intros (? & _ & Hm)%index_inv. split; [done|]. intros k v. rewrite Hm, lookup_empty. naive_solver. Qed.
Lemma index_accepts l : NoDup (key <$> l) -> exists m, index l ∅ = Ok m.
Proof. intros. apply index_total; [done|]. intros. apply lookup_empty. Qed.
End Index.

Lemma insert_both {V} (name : V -> string) (id : V -> Z) dn di l m m' :
  each (InsertBoth name id dn di) l m = Ok m' <-> index name dn l m.1 = Ok m'.1 /\ index id di l m.2 = Ok m'.2.
Proof.
  revert m. unfold index. induction l as [|v l IH]; intros [m1 m2]; simpl.
  { destruct m' as [m1' m2']; simpl. split; [by intros [= -> ->]|by intros [[= ->] [= ->]]]. }
  unfold InsertBoth; simpl. destruct (InsertUnique m1 _ _ _) as [m1'|]; simpl; [|naive_solver].
  destruct (InsertUnique m2 _ _ _) as [m2'|]; simpl; [|naive_solver]. apply IH.
Qed.
Lemma insert_both_finds {V} (name : V -> string) (id : V -> Z) dn di l m :
  each (InsertBoth name id dn di) l (∅, ∅) = Ok m ->
  NoDup (name <$> l) /\ NoDup (id <$> l) /\ finds name l m.1 /\ finds id l m.2.
Proof. intros [[? ?]%index_finds [? ?]%index_finds]%insert_both. auto. Qed.
Lemma insert_both_accepts {V} (name : V -> string) (id : V -> Z) dn di l :
  NoDup (name <$> l) -> NoDup (id <$> l) -> exists m, each (InsertBoth name id dn di) l (∅, ∅) = Ok m.
Proof.
  intros [m1 H1]%(index_accepts _ dn) [m2 H2]%(index_accepts _ di). exists (m1, m2). by apply insert_both.
Qed.

(** A link names exactly one kind of call, if any. *)
Definition valid_link (l : LinkConfig) : Prop := forall g, callSemantics l = Some g -> semantics_count g = 1%Z.
Lemma Validate_Ok l u : Validate l = Ok u <-> valid_link l.
Proof.
  unfold Validate, valid_link. destruct u. destruct (callSemantics l) as [g|]; [|naive_solver].
  destruct (Z.eqb_spec (semantics_count g) 1); naive_solver.
Qed.
Lemma insert_links l m m' :
  each InsertLink l m = Ok m' <-> Forall valid_link l /\ index link_key DuplicateLink l m = Ok m'.
Proof.
  revert m. unfold index. induction l as [|x l IH]; intros m; simpl; [naive_solver|].
  unfold InsertLink at 1. rewrite Forall_cons. pose proof (Validate_Ok x) as Hx. destruct (Validate x) as [u|]; simpl.
  - destruct (InsertUnique m _ _ _); simpl; [|naive_solver]. rewrite IH. specialize (Hx u). naive_solver.
  - split; [done|]. intros [[Hv _] _]. by apply (Hx tt) in Hv.
Qed.

(** Every endpoint has a connector of its type. *)
Definition connected (connectors : list DataConnectorConfigRef) (ep : EndpointConfigRef) : Prop :=
  exists c, c ∈ connectors /\ connector_id c = idDataConnector ep /\ connector_type c = endpoint_type ep.
Lemma check_endpoints cs m eps u :
  finds connector_id cs m -> each (CheckEndpoint m) eps u = Ok u <-> Forall (connected cs) eps.
Proof.
  intros Hm. induction eps as [|ep eps IH]; simpl; [naive_solver|]. rewrite Forall_cons.
  unfold CheckEndpoint at 1. destruct (m !! idDataConnector ep) as [c|] eqn:Hc; simpl.
  - case_bool_decide as Ht; simpl.
    + rewrite IH. apply Hm in Hc as [Hin Hid]. split; [|naive_solver]. intros. split; [|done]. by exists c.
    + split; [done|]. intros [(c' & Hin & Hid & Ht') _].
      assert (Hc' : m !! idDataConnector ep = Some c') by by apply Hm. rewrite Hc in Hc'. naive_solver.
  - split; [done|]. intros [(c' & Hin & Hid & Ht') _].
    assert (Hc' : m !! idDataConnector ep = Some c') by by apply Hm. congruence.
Qed.

(** The configurations the constructor accepts. *)
Definition valid (c : IConfig) : Prop :=
  (NoDup (stream_name <$> GetStreams c) /\ NoDup (stream_id <$> GetStreams c)) /\
  (NoDup (service_name <$> GetServices c) /\ NoDup (service_id <$> GetServices c)) /\
  (NoDup (endpoint_name <$> GetEndpoints c) /\ NoDup (endpoint_id <$> GetEndpoints c)) /\
  (NoDup (connector_name <$> GetDataConnectors c) /\ NoDup (connector_id <$> GetDataConnectors c)) /\
  Forall (connected (GetDataConnectors c)) (GetEndpoints c) /\
  NoDup (pool_name <$> GetPools c) /\
  NoDup (type_name <$> GetTypes c) /\
  Forall valid_link (GetLinks c) /\ NoDup (link_key <$> GetLinks c).

(** The answers of the look-ups over [c]. *)
Definition answers (c : IConfig) (rc : RuntimeConfig) : Prop :=
  (forall name s, GetStreamConfigByName rc name = Some s <-> s ∈ GetStreams c /\ stream_name s = name) /\
  (forall id s, GetStreamConfigByID rc id = Some s <-> s ∈ GetStreams c /\ stream_id s = id) /\
  (forall name s, GetServiceConfigByName rc name = Some s <-> s ∈ GetServices c /\ service_name s = name) /\
  (forall id s, GetServiceConfigByID rc id = Some s <-> s ∈ GetServices c /\ service_id s = id) /\
  (forall s, GetOnlyServiceConfig rc = Some s <-> GetServices c = [s]) /\
  (forall id e, GetEndpointConfigByID rc id = Some e <-> e ∈ GetEndpoints c /\ endpoint_id e = id) /\
  (forall id d, GetDataConnectorByID rc id = Some d <-> d ∈ GetDataConnectors c /\ connector_id d = id) /\
  (forall name p, GetPoolByName rc name = Some p <-> p ∈ GetPools c /\ pool_name p = name) /\
  (forall name t, GetTypeByName rc name = Some t <-> t ∈ GetTypes c /\ type_name t = name) /\
  (forall link l, GetLink rc link = Some l <-> l ∈ GetLinks c /\ link_key l = link).

(** The only element of an index is the only element of its list. *)
Lemma finds_only {V} (key : V -> Z) l m s :
  NoDup (key <$> l) -> finds key l m ->
  (match map_to_list m with [(_, s)] => Some s | _ => None end = Some s <-> l = [s]).
Proof.
  intros Hnd Hf. assert (Hin : forall v, v ∈ l <-> v ∈ (map_to_list m).*2).
  { intros v. rewrite list_elem_of_fmap. split.
    - intros Hv. exists (key v, v). split; [done|]. apply elem_of_map_to_list. by apply Hf.
    - intros ([k v'] & -> & Hk). apply elem_of_map_to_list, Hf in Hk. by destruct Hk. }
  assert (Hlen : length l = length (map_to_list m)).
  { rewrite <- (length_fmap snd (map_to_list m)). apply Permutation_length, NoDup_Permutation.
    - by apply NoDup_fmap_1 in Hnd.
    - apply NoDup_fmap_2_strong; [|apply NoDup_map_to_list].
      intros [k1 v1] [k2 v2] H1 H2 Heq. simpl in *. subst v2. f_equal.
      apply elem_of_map_to_list, Hf in H1 as [_ <-], H2 as [_ <-]. done.
    - done. }
  destruct (map_to_list m) as [|[k v] [|q r]]; destruct l as [|a [|b l]]; try done; simpl in *.
  specialize (Hin a). set_solver.
Qed.

Lemma make_sound c rc : make c = Ok rc -> config_ rc = c /\ valid c /\ answers c rc.
Proof.
  intros Hm. unfold make in Hm.
  apply rbind_Ok_inv in Hm as (streams & (? & ? & ? & ?)%insert_both_finds & Hm).
  apply rbind_Ok_inv in Hm as (services & (? & ? & ? & Hs)%insert_both_finds & Hm).
  apply rbind_Ok_inv in Hm as (endpoints & (? & ? & ? & ?)%insert_both_finds & Hm).
  apply rbind_Ok_inv in Hm as (connectors & (? & ? & ? & Hc)%insert_both_finds & Hm).
  apply rbind_Ok_inv in Hm as ([] & He & Hm). apply (check_endpoints _ _ _ tt Hc) in He.
  apply rbind_Ok_inv in Hm as (pools & [? ?]%index_finds & Hm).
  apply rbind_Ok_inv in Hm as (types & [? ?]%index_finds & Hm).
  apply rbind_Ok_inv in Hm as (links & [? [? ?]%index_finds]%insert_links & Hm).
  injection Hm as <-. unfold valid, answers. simpl. split_and!; try done. intros s. by eapply finds_only.
Qed.
Lemma make_total c : valid c -> exists rc, make c = Ok rc.
Proof.
  intros ([S1 S2] & [V1 V2] & [E1 E2] & [C1 C2] & He & Hp & Ht & Hl & Hk). unfold make.
  destruct (insert_both_accepts stream_name stream_id DuplicateStreamName DuplicateStreamId _ S1 S2) as [streams ->]. simpl.
  destruct (insert_both_accepts service_name service_id DuplicateServiceName DuplicateServiceId _ V1 V2) as [services ->]. simpl.
  destruct (insert_both_accepts endpoint_name endpoint_id DuplicateEndpointName DuplicateEndpointId _ E1 E2) as [endpoints ->]. simpl.
  destruct (insert_both_accepts connector_name connector_id DuplicateConnectorName DuplicateConnectorId _ C1 C2) as [connectors Hc]. rewrite Hc. simpl.
  apply insert_both_finds in Hc as (_ & _ & _ & Hc). rewrite (proj2 (check_endpoints _ _ _ tt Hc) He). simpl.
  destruct (index_accepts pool_name DuplicatePool _ Hp) as [pools Hpools]. unfold index in Hpools. rewrite Hpools. simpl.
  destruct (index_accepts type_name DuplicateType _ Ht) as [types Htypes]. unfold index in Htypes. rewrite Htypes. simpl.
  destruct (index_accepts link_key DuplicateLink _ Hk) as [links Hlinks].
  rewrite (proj2 (insert_links _ _ _) (conj Hl Hlinks)). simpl. eauto.
Qed.

(** C23. The constructor of RuntimeConfig throws exactly on the configurations with a repeated
    name, id or link, an endpoint without a connector of its type, or a link that does not name
    exactly one kind of call; on the others every look-up finds exactly the elements of the
    configuration with that name or id, and the only service is found when there is one. *)
Theorem runtime_config_exact (c : IConfig) :
  (forall rc, make c = Ok rc -> config_ rc = c /\ valid c /\ answers c rc) /\
  (valid c -> exists rc, make c = Ok rc).
Proof. split; [apply make_sound|apply make_total]. Qed.
