(* ===== verification/ConfigMerge.v ===== *)
(** * Merging an override into a configuration

    runtime/config/config_substitution.hpp.  The YAML values are those of userver: the class
    [Yaml] names what the code uses of [formats::yaml::Value] and [ValueBuilder], [YamlLaws]
    their documented behaviour.  [look] reads a value along a path of keys; the theorem says
    what a merged value answers on every path, in terms of the two values alone. *)
From Stdlib Require Import Lia.
From stdpp Require Import strings list.
From S2P Require Import Prelude.

(** [child] is [operator[]], [None] when the result is missing; [items] is what an iterator over
    an object visits; [put] is an assignment through a builder. *)
Class Yaml (Value : Type) := {
  IsObject : Value -> bool;
  child : Value -> string -> option Value;
  items : Value -> list (string * Value);
  put : Value -> string -> Value -> Value;
  depth : Value -> nat;
}.

Class YamlLaws (Value : Type) `{Yaml Value} := {
  items_nodup v : IsObject v = true -> NoDup (items v).*1;
  items_child v k x : IsObject v = true -> (k, x) ∈ items v <-> child v k = Some x;
  child_put v k x k' : IsObject v = true -> child (put v k x) k' = if bool_decide (k = k') then Some x else child v k';
  object_put v k x : IsObject v = true -> IsObject (put v k x) = true;
  child_depth v k x : IsObject v = true -> child v k = Some x -> depth x < depth v;
}.

Module Merge.
Section Merge.
Context {Value : Type} `{Yaml Value}.
Implicit Types (v base overrides : Value) (p : list string).

(** [DeepMerge], unrolled to a given depth of the override. *)
Fixpoint merge (fuel : nat) base overrides : Value :=
  match fuel with
  | O => overrides
  | S fuel =>
      if negb (IsObject base) || negb (IsObject overrides) then overrides
      else fold_left
             (fun builder it =>
                put builder it.1 (match child base it.1 with None => it.2 | Some baseChild => merge fuel baseChild it.2 end))
             (items overrides) base
  end.
Definition DeepMerge base overrides : Value := merge (S (depth overrides)) base overrides.

(** The value at a path of keys. *)
Fixpoint look v p : option Value :=
  match p with
  | [] => Some v
  | k :: p => if IsObject v then match child v k with Some x => look x p | None => None end else None
  end.
(** A path on which [v] has nothing to say: it stops at a missing key. *)
Fixpoint silent v p : bool :=
  match p with
  | [] => false
  | k :: p => IsObject v && match child v k with Some x => silent x p | None => true end
  end.
End Merge.
End Merge.
Import Merge.

Section Laws.
Context {Value : Type} `{YamlLaws Value}.
Implicit Types (v base overrides : Value) (p : list string).

(** Assignments through a builder, each key at most once. *)
Lemma fold_put (f : string -> Value -> Value) l v :
  IsObject v = true -> NoDup l.*1 ->
  let w := fold_left (fun b it => put b it.1 (f it.1 it.2)) l v in
  IsObject w = true /\
  (forall k x, (k, x) ∈ l -> child w k = Some (f k x)) /\ (forall k, k ∉ l.*1 -> child w k = child v k).
Proof.
  revert v. induction l as [|[k x] l IH]; intros v Hv Hnd; simpl; [set_solver|].
  apply NoDup_cons in Hnd as [Hk Hnd].
  destruct (IH (put v k (f k x)) (object_put _ _ _ Hv) Hnd) as (Ho & Hin & Hout). split_and!; [done| |].
  - intros k' x' [[= -> ->]|Hl]%elem_of_cons; [|by apply Hin].
    rewrite Hout by done. rewrite child_put by done. by rewrite bool_decide_true.
  - intros k' [Hne Hk']%not_elem_of_cons. rewrite Hout by done. rewrite child_put by done. by rewrite bool_decide_false by congruence.
Qed.

Lemma merge_step fuel base overrides :
  IsObject base = true -> IsObject overrides = true ->
  let w := merge (S fuel) base overrides in
  IsObject w = true /\
  (forall k, child w k = match child overrides k with
                         | Some x => Some (match child base k with None => x | Some b => merge fuel b x end)
                         | None => child base k
                         end).
Proof.
  intros Hb Ho. cbn [merge]. rewrite Hb, Ho. cbn [negb orb].
  pose proof (fold_put (fun k x => match child base k with None => x | Some b => merge fuel b x end)
                (items overrides) base Hb (items_nodup _ Ho)) as (Hw & Hin & Hout).
  split; [exact Hw|]. intros k. destruct (child overrides k) as [x|] eqn:Hk.
  - apply Hin. by apply items_child.
  - apply Hout. intros ([k' x] & -> & Hx)%list_elem_of_fmap. simpl in Hk. apply items_child in Hx; [|done]. congruence.
Qed.

Lemma fold_left_eq {A B} (f g : A -> B -> A) l a :
  (forall a x, x ∈ l -> f a x = g a x) -> fold_left f l a = fold_left g l a.
Proof.
  revert a. induction l as [|x l IH]; intros a Hfg; simpl; [done|].
  rewrite Hfg by left. apply IH. intros. apply Hfg. by right.
Qed.
(** The depth of the override is fuel enough. *)
Lemma merge_fuel n m base overrides :
  depth overrides < n -> depth overrides < m -> merge n base overrides = merge m base overrides.
Proof.
  revert m base overrides. induction n as [|n IH]; intros m base overrides Hn Hm; [lia|].
  destruct m as [|m]; [lia|]. simpl. destruct (negb (IsObject base) || negb (IsObject overrides)) eqn:Ho; [done|].
  bool_to_prop. apply fold_left_eq. intros v [k x] Hx. simpl. destruct (child base k) as [b|]; [|done].
  apply items_child in Hx; [|done]. apply child_depth in Hx; [|done]. f_equal. apply IH; lia.
Qed.

Lemma DeepMerge_plain base overrides :
  IsObject base && IsObject overrides = false -> DeepMerge base overrides = overrides.
Proof. unfold DeepMerge; simpl. destruct (IsObject base), (IsObject overrides); done. Qed.
Lemma DeepMerge_object base overrides :
  IsObject base = true -> IsObject overrides = true ->
  IsObject (DeepMerge base overrides) = true /\
  (forall k, child (DeepMerge base overrides) k =
     match child overrides k with
     | Some x => Some (match child base k with None => x | Some b => DeepMerge b x end)
     | None => child base k
     end).
Proof.
  intros Hb Ho. destruct (merge_step (depth overrides) base overrides Hb Ho) as [Hw Hk]. split; [done|].
  intros k. unfold DeepMerge at 1. rewrite Hk. destruct (child overrides k) as [x|] eqn:Hx; [|done].
  destruct (child base k) as [b|]; [|done]. do 2 f_equal. apply merge_fuel; [|lia]. by eapply child_depth.
Qed.

Lemma silent_look v p : silent v p = true -> look v p = None.
Proof.
  revert v. induction p as [|k p IH]; intros v; simpl; [done|].
  destruct (IsObject v); simpl; [|done]. destruct (child v k); auto.
Qed.

(** What a merged value answers on a path, by induction on the path. *)
Lemma deep_merge_look base overrides p :
  look (DeepMerge base overrides) p =
  if silent overrides p then look base p
  else match look overrides p with
       | Some x => Some (match look base p with Some b => DeepMerge b x | None => x end)
       | None => None
       end.
Proof.
  revert base overrides. induction p as [|k p IH]; intros base overrides; [done|].
  destruct (IsObject base && IsObject overrides) eqn:Ho.
  - apply andb_true_iff in Ho as [Hb Ho]. destruct (DeepMerge_object _ _ Hb Ho) as [Hw Hk].
    cbn [look silent]. rewrite Hw, Hk, Hb, Ho. cbn [andb]. destruct (child overrides k) as [x|]; [|done].
    destruct (child base k) as [b|]; [apply IH|]. destruct (silent x p) eqn:Hs; [by apply silent_look|by destruct (look x p)].
  - rewrite DeepMerge_plain by done. destruct (silent overrides (k :: p)) eqn:Hs.
    + rewrite silent_look by done. simpl in Hs |- *. destruct (IsObject overrides); [|done].
      rewrite andb_true_r in Ho. by rewrite Ho.
    + destruct (look overrides (k :: p)) as [x|] eqn:Hl; [|done]. simpl in Hl |- *.
      destruct (IsObject overrides); [|done]. rewrite andb_true_r in Ho. by rewrite Ho.
Qed.

End Laws.

(** ** Values that say the same on every path *)
Section Same.
Context {Value : Type} `{YamlLaws Value}.
Implicit Types (v w base overrides : Value) (p : list string).

(** What a reader sees at a path: nothing, an object, or a value it takes as a whole. *)
Definition view (o : option Value) : option (option Value) :=
  (fun v => if IsObject v then None else Some v) <$> o.
Definition same v w : Prop := forall p, view (look v p) = view (look w p).

#[global] Instance same_equivalence : Equivalence same.
Proof. split; [by intros v p|by intros v w Hvw p|intros u v w Huv Hvw p; by rewrite Huv]. Qed.

Lemma same_object v w : same v w -> IsObject v = IsObject w.
Proof. intros Hs. specialize (Hs []). unfold view in Hs; simpl in Hs. destruct (IsObject v), (IsObject w); congruence. Qed.
Lemma same_plain v w : same v w -> IsObject v = false -> v = w.
Proof.
  intros Hs Hv. pose proof (same_object _ _ Hs) as Ho. specialize (Hs []). unfold view in Hs; simpl in Hs.
  rewrite <- Ho, Hv in Hs. congruence.
Qed.
Lemma same_silent v w p : same v w -> silent v p = silent w p.
Proof.
  revert v w. induction p as [|k p IH]; intros v w Hs; simpl; [done|].
  rewrite <- (same_object _ _ Hs). destruct (IsObject v) eqn:Ho; simpl; [|done].
  pose proof (same_object _ _ Hs) as Hw. rewrite Ho in Hw.
  pose proof (Hs [k]) as Hk. simpl in Hk. rewrite Ho, <- Hw in Hk.
  destruct (child v k) as [x|] eqn:Hx, (child w k) as [y|] eqn:Hy; try done. apply IH. intros q.
  specialize (Hs (k :: q)). simpl in Hs. by rewrite Ho, <- Hw, Hx, Hy in Hs.
Qed.

(** To a reader, a path belongs to the override unless the override is silent there. *)
Lemma merge_view base overrides p :
  view (look (DeepMerge base overrides) p) = if silent overrides p then view (look base p) else view (look overrides p).
Proof.
  rewrite deep_merge_look. destruct (silent overrides p); [done|]. destruct (look overrides p) as [x|]; [|done].
  destruct (look base p) as [b|]; [|done]. unfold view; simpl. destruct (IsObject b && IsObject x) eqn:Ho.
  - apply andb_true_iff in Ho as [Hb Hx]. destruct (DeepMerge_object b x Hb Hx) as [-> _]. by rewrite Hx.
  - by rewrite DeepMerge_plain.
Qed.
#[global] Instance DeepMerge_proper : Proper (same ==> same ==> same) DeepMerge.
Proof.
  intros b b' Hb o o' Ho p. rewrite !merge_view, (same_silent _ _ p Ho). destruct (silent o' p); [apply Hb|apply Ho].
Qed.
(** Applying the same override again changes nothing. *)
Lemma DeepMerge_again base overrides :
  same (DeepMerge (DeepMerge base overrides) overrides) (DeepMerge base overrides).
Proof. intros p. rewrite !merge_view. by destruct (silent overrides p). Qed.
Lemma merge_silent base overrides p :
  silent overrides p = true -> look (DeepMerge base overrides) p = look base p.
Proof. intros Hs. by rewrite deep_merge_look, Hs. Qed.
Lemma merge_replaced base overrides p x :
  look overrides p = Some x -> (IsObject x = true -> forall b, look base p = Some b -> IsObject b = false) ->
  look (DeepMerge base overrides) p = Some x.
Proof.
  intros Hx Hplain. rewrite deep_merge_look, Hx. destruct (silent overrides p) eqn:Hs.
  { apply silent_look in Hs. congruence. }
  destruct (look base p) as [b|] eqn:Hb; [|done]. rewrite DeepMerge_plain; [done|]. destruct (IsObject x) eqn:Ho.
  - by rewrite (Hplain eq_refl b eq_refl).
  - apply andb_false_r.
Qed.

(** C24. What a merged configuration says on any path of keys, in terms of the two values alone:
    where the override stops at a missing key a reader sees what the base says, and otherwise what
    the override says (nothing, an object, or a value that is no object).  So an object of the
    override is merged into an object of the base, key by key; every other value of the override,
    and an object of it where the base has none, replaces what the base has, whole and unchanged;
    and where the override is silent the base is kept as it is. *)
Theorem deep_merge_exact base overrides p :
  view (look (DeepMerge base overrides) p) = (if silent overrides p then view (look base p) else view (look overrides p)) /\
  (silent overrides p = true -> look (DeepMerge base overrides) p = look base p) /\
  (forall x, look overrides p = Some x -> (IsObject x = true -> forall b, look base p = Some b -> IsObject b = false) ->
     look (DeepMerge base overrides) p = Some x).
Proof. split; [apply merge_view|]. split; [apply merge_silent|intros x; apply merge_replaced]. Qed.
End Same.

(** ** Concrete values

    Trees with string leaves: an instance of the interface on which merges evaluate.  The first
    binding of a key counts. *)
Module Trees.
Inductive Tree := Leaf (s : string) | Sequence (l : list Tree) | Object (l : list (string * Tree)).

Fixpoint tree_depth (t : Tree) : nat :=
  match t with
  | Leaf _ => 0
  | Sequence l => S (fold_right (fun x n => tree_depth x + n) 0 l)
  | Object l => S (fold_right (fun x n => tree_depth x.2 + n) 0 l)
  end.
Fixpoint binding (l : list (string * Tree)) (k : string) : option Tree :=
  match l with
  | [] => None
  | (k', x) :: l => if bool_decide (k' = k) then Some x else binding l k
  end.
Fixpoint bindings (seen : list string) (l : list (string * Tree)) : list (string * Tree) :=
  match l with
  | [] => []
  | (k, x) :: l => if bool_decide (k ∈ seen) then bindings seen l else (k, x) :: bindings (k :: seen) l
  end.
Definition tree_object (t : Tree) : bool := match t with Object _ => true | _ => false end.
Definition tree_child (t : Tree) (k : string) : option Tree := match t with Object l => binding l k | _ => None end.
Definition tree_items (t : Tree) : list (string * Tree) := match t with Object l => bindings [] l | _ => [] end.
Definition tree_put (t : Tree) (k : string) (x : Tree) : Tree :=
  match t with Object l => Object ((k, x) :: l) | _ => t end.
#[export] Instance tree_yaml : Yaml Tree := {|
  IsObject := tree_object; child := tree_child; items := tree_items; put := tree_put; depth := tree_depth;
|}.

Lemma bindings_elem seen l k x : (k, x) ∈ bindings seen l <-> k ∉ seen /\ binding l k = Some x.
Proof.
  revert seen. induction l as [|[k' y] l IH]; intros seen; simpl; [set_solver|].
  case_bool_decide as Hs; case_bool_decide as Hk; rewrite ?elem_of_cons, IH, ?not_elem_of_cons; naive_solver.
Qed.
Lemma bindings_nodup seen l : NoDup (bindings seen l).*1.
Proof.
  revert seen. induction l as [|[k y] l IH]; intros seen; simpl; [apply NoDup_nil_2|].
  case_bool_decide; [done|]. simpl. apply NoDup_cons; split; [|done].
  intros ([k' z] & -> & [Hn _]%bindings_elem)%list_elem_of_fmap. simpl in Hn. set_solver.
Qed.
Lemma binding_depth l k x : binding l k = Some x -> tree_depth x <= fold_right (fun x n => tree_depth x.2 + n) 0 l.
Proof.
  induction l as [|[k' y] l IH]; simpl; [done|]. case_bool_decide; [intros [= ->]; lia|]. intros Hx%IH. lia.
Qed.
#[export] Instance tree_laws : YamlLaws Tree.
Proof.
  split; intros [s|l|l]; try done; simpl; intros.
  - apply bindings_nodup.
  - rewrite bindings_elem. set_solver.
  - apply Nat.lt_succ_r. by eapply binding_depth.
Qed.
End Trees.
Import Trees.

(** A base with two pools' settings and an override of one of them. *)
Definition sample_base : Tree :=
  Object [("pool"%string, Object [("executors"%string, Leaf "2"); ("capacity"%string, Leaf "16")]); ("name"%string, Leaf "svc")].
Definition sample_override : Tree :=
  Object [("pool"%string, Object [("executors"%string, Leaf "8")]); ("name"%string, Object [])].
Lemma deep_merge_exact_witness :
  look (DeepMerge sample_base sample_override) ["pool"; "executors"]%string = Some (Leaf "8") /\
  look (DeepMerge sample_base sample_override) ["pool"; "capacity"]%string = Some (Leaf "16") /\
  look (DeepMerge sample_base sample_override) ["name"]%string = Some (Object []).
Proof.
  split_and!.
  - apply (deep_merge_exact sample_base sample_override ["pool"; "executors"]%string); [reflexivity|discriminate].
  - destruct (deep_merge_exact sample_base sample_override ["pool"; "capacity"]%string) as (_ & Hs & _). by rewrite Hs.
  - apply (deep_merge_exact sample_base sample_override ["name"]%string); [reflexivity|]. intros _ b [= <-]. reflexivity.
Defined.
