(* ===== verification/ConfigLoader.v ===== *)
(** * Loading and reloading the configuration

    runtime/config/loader.hpp and the component around it (config/component.hpp).  The base file
    is read once per load; the override file is polled, and a poll that sees it changed loads
    both again.  Between any two accesses to a file the files may change; [pc] is the place of
    the loader between them.  The generated configuration (its factory, the patch by a YAML
    value, the environment), userver's reading of a file and its YAML values are parameters.
    [source] is a ghost field: the contents a configuration was made from. *)
From Stdlib Require Import Lia.
From stdpp Require Import strings list.
From S2P Require Import Prelude RuntimeConfig ConfigMerge.
Import Merge.

Module Loader.

(** [Paths]: whether the base path is not empty, and whether there is an override path. *)
Record Paths := mkPaths {
  configPath : bool;
  overridePath : bool;
}.
(** The override file, when it exists, has a time of modification, and contents if it can be read. *)
Record Files := mkFiles {
  base_file : option string;
  override_file : option (Z * option string);
}.

Section Loader.
Context {Value Concrete : Type} `{Yaml Value}.
(** [ReadAndFlatten] of some contents, the generated customization points, and what the
    configuration answers as an [IConfig]; [None] is an exception. *)
Context (flatten : string -> option Value) (MakeConfig : Concrete)
  (ApplyConfig : Value -> Concrete -> option Concrete) (ApplyEnvironment : Concrete -> option Concrete)
  (iconfig : Concrete -> Config.IConfig) (paths : Paths).

Record LoadedConfig := mkLoaded {
  config : Concrete;
  runtimeConfig : Config.RuntimeConfig;
  source : option (string * option string);
}.

(** The constructor of [LoadedConfig]. *)
Definition loadedConfig (src : option (string * option string)) (c : Concrete) : option LoadedConfig :=
  match Config.make (iconfig c) with
  | Ok rc => Some (mkLoaded c rc src)
  | Err _ => None
  end.
(** The end of [LoadOnce]. *)
Definition applied (src : option (string * option string)) (flattened : Value) : option LoadedConfig :=
  (ApplyConfig flattened MakeConfig ≫= ApplyEnvironment) ≫= loadedConfig src.

(** The configuration that given contents make. *)
Definition load (src : option (string * option string)) : option LoadedConfig :=
  match src with
  | None => ApplyEnvironment MakeConfig ≫= loadedConfig None
  | Some (b, None) => flatten b ≫= applied src
  | Some (b, Some o) =>
      flatten b ≫= fun base => flatten o ≫= fun overrides => applied src (DeepMerge base overrides)
  end.

(** ** The loader *)
Inductive Pc :=
  | PcNew
  | PcFailed
  | PcIdle
  | PcDestroyed
  | PcStat                                             (** [HasOverrideChanged]: the time *)
  | PcContents                                         (** ... the contents *)
  | PcBase (first : bool)                              (** [LoadOnce]: the base file *)
  | PcOverride (first : bool) (b : string) (base : Value)  (** ... the override file *)
  | PcRecord (first : bool) (loaded : LoadedConfig)    (** [RecordWatchedMtime]: the time *)
  | PcRecordContents (first : bool) (loaded : LoadedConfig) (** ... the contents *)
  | PcPublish (first : bool) (loaded : LoadedConfig).                 (** the registry *)

(** [registry] is [RuntimeConfigRegistry::current_]. *)
Record State := mkState {
  state_ : option LoadedConfig;
  lastOverrideMtime_ : option Z;
  lastOverrideContents_ : option string;
  registry : option Config.RuntimeConfig;
  reloadSuccess : nat;
  reloadError : nat;
  pc : Pc;
}.
Implicit Types (s : State) (f : Files).
Definition set_state_ v s := mkState v (lastOverrideMtime_ s) (lastOverrideContents_ s) (registry s) (reloadSuccess s) (reloadError s) (pc s).
Definition set_mtime v s := mkState (state_ s) v (lastOverrideContents_ s) (registry s) (reloadSuccess s) (reloadError s) (pc s).
Definition set_contents v s := mkState (state_ s) (lastOverrideMtime_ s) v (registry s) (reloadSuccess s) (reloadError s) (pc s).
Definition set_registry v s := mkState (state_ s) (lastOverrideMtime_ s) (lastOverrideContents_ s) v (reloadSuccess s) (reloadError s) (pc s).
Definition set_success v s := mkState (state_ s) (lastOverrideMtime_ s) (lastOverrideContents_ s) (registry s) v (reloadError s) (pc s).
Definition set_error v s := mkState (state_ s) (lastOverrideMtime_ s) (lastOverrideContents_ s) (registry s) (reloadSuccess s) v (pc s).
Definition set_pc v s := mkState (state_ s) (lastOverrideMtime_ s) (lastOverrideContents_ s) (registry s) (reloadSuccess s) (reloadError s) v.

Definition created : State := mkState None None None None 0 0 PcNew.

Definition last_write_time f : option Z := fst <$> override_file f.
Definition ReadOverrideContents f : option string := override_file f ≫= snd.

(** [HasOverrideChanged] on files that stand still. *)
Definition HasOverrideChanged f s : bool :=
  overridePath paths &&
  match last_write_time f with
  | None => false
  | Some mtime =>
      bool_decide (lastOverrideMtime_ s <> Some mtime) ||
      match ReadOverrideContents f with
      | None => false
      | Some c => bool_decide (lastOverrideContents_ s <> Some c)
      end
  end.

(** A load that throws: the first one ends the component, a later one is counted. *)
Definition failed (first : bool) s : State :=
  if first then set_pc PcFailed s else s |> set_error (S (reloadError s)) |> set_pc PcIdle.
(** A load that returns: [PollOnce] publishes to its readers before it records the file,
    [Load] after. *)
Definition loaded (first : bool) (l : LoadedConfig) s : State :=
  s |> (if first then id else set_state_ (Some l)) |> set_pc (PcRecord first l).
(** After [RecordWatchedMtime]. *)
Definition recorded (first : bool) (l : LoadedConfig) s : State :=
  s |> (if first then set_state_ (Some l) else set_success (S (reloadSuccess s))) |> set_pc (PcPublish first l).
Definition made (first : bool) (o : option LoadedConfig) s : State :=
  match o with Some l => loaded first l s | None => failed first s end.

(** [HasOverrideChanged], access by access. *)
Definition check_time f s : State :=
  match last_write_time f with
  | None => set_pc PcIdle s
  | Some mtime => set_pc (if bool_decide (lastOverrideMtime_ s = Some mtime) then PcContents else PcBase false) s
  end.
Definition check_contents f s : State :=
  match ReadOverrideContents f with
  | None => set_pc PcIdle s
  | Some c => set_pc (if bool_decide (lastOverrideContents_ s = Some c) then PcIdle else PcBase false) s
  end.

(** [LoadOnce], access by access. *)
Definition read_base (first : bool) f s : State :=
  if configPath paths then
    match base_file f with
    | None => failed first s
    | Some b =>
        match flatten b with
        | None => failed first s
        | Some base =>
            if overridePath paths then set_pc (PcOverride first b base) s
            else made first (applied (Some (b, None)) base) s
        end
    end
  else made first (load None) s.
Definition read_override (first : bool) (b : string) (base : Value) f s : State :=
  match ReadOverrideContents f with
  | None => failed first s
  | Some o =>
      match flatten o with
      | None => failed first s
      | Some overrides => made first (applied (Some (b, Some o)) (DeepMerge base overrides)) s
      end
  end.

(** [RecordWatchedMtime], access by access. *)
Definition record_time (first : bool) (l : LoadedConfig) f s : State :=
  if overridePath paths then
    match last_write_time f with
    | None => recorded first l s
    | Some mtime => s |> set_mtime (Some mtime) |> set_pc (PcRecordContents first l)
    end
  else recorded first l s.
Definition record_contents (first : bool) (l : LoadedConfig) f s : State :=
  recorded first l (set_contents (ReadOverrideContents f) s).

(** The registered callback. *)
Definition publish (l : LoadedConfig) s : State := s |> set_registry (Some (runtimeConfig l)) |> set_pc PcIdle.

(** The next access. *)
Definition advance f s : option State :=
  match pc s with
  | PcNew | PcFailed | PcIdle | PcDestroyed => None
  | PcStat => Some (check_time f s)
  | PcContents => Some (check_contents f s)
  | PcBase first => Some (read_base first f s)
  | PcOverride first b base => Some (read_override first b base f s)
  | PcRecord first l => Some (record_time first l f s)
  | PcRecordContents first l => Some (record_contents first l f s)
  | PcPublish _ l => Some (publish l s)
  end.

(** The constructor of the component calls [Load]; the periodic task calls [PollOnce] if [Start]
    found both paths; the destructor waits for it. *)
Definition Load s : option State := match pc s with PcNew => Some (set_pc (PcBase true) s) | _ => None end.
Definition PollOnce s : option State :=
  match pc s with
  | PcIdle => if configPath paths && overridePath paths then Some (set_pc PcStat s) else None
  | _ => None
  end.
Definition Stop s : option State :=
  match pc s with PcIdle => Some (s |> set_registry None |> set_pc PcDestroyed) | _ => None end.

Inductive Action := ALoad | APoll | AAdvance | AStop | AFiles (f : Files).
Definition act (a : Action) (w : Files * State) : option (Files * State) :=
  match a with
  | ALoad => pair w.1 <$> Load w.2
  | APoll => pair w.1 <$> PollOnce w.2
  | AAdvance => pair w.1 <$> advance w.1 w.2
  | AStop => pair w.1 <$> Stop w.2
  | AFiles f => Some (f, w.2)
  end.
Fixpoint run (acts : list Action) (w : Files * State) : option (Files * State) :=
  match acts with
  | [] => Some w
  | a :: acts => act a w ≫= run acts
  end.

(** Between the reading of the override file and the recording of it. *)
Definition recording s : bool :=
  match pc s with PcRecord _ _ | PcRecordContents _ _ => true | _ => false end.
(** Runs in which the files do not change in that window. *)
Fixpoint quiet (acts : list Action) (w : Files * State) : bool :=
  match acts with
  | [] => true
  | a :: acts =>
      match a with AFiles _ => negb (recording w.2) | _ => true end &&
      match act a w with Some w => quiet acts w | None => true end
  end.

(** A poll on files that stand still: at most six accesses. *)
Fixpoint settle (fuel : nat) f s : State :=
  match fuel with
  | O => s
  | S fuel => match advance f s with Some s => settle fuel f s | None => s end
  end.
Definition poll f s : State := match PollOnce s with Some s => settle 7 f s | None => s end.
End Loader.
End Loader.
