(* ===== verification/ConfigLoaderTheorems.v ===== *)
(** * What a reader of the configuration can rely on

    Invariants of the loader over runs in which the files change at any moment, and over the
    [quiet] ones; then the statements. *)
From Stdlib Require Import Lia.
From stdpp Require Import strings list.
From S2P Require Import Prelude RuntimeConfig RuntimeConfigTheorems ConfigMerge ConfigLoader.
Import Loader.

Section LoaderTheorems.
Context {Value Concrete : Type} `{Yaml Value}.
Context (flatten : string -> option Value) (MakeConfig : Concrete)
  (ApplyConfig : Value -> Concrete -> option Concrete) (ApplyEnvironment : Concrete -> option Concrete)
  (iconfig : Concrete -> Config.IConfig).
Local Abbreviation load := (load flatten MakeConfig ApplyConfig ApplyEnvironment iconfig).
Local Abbreviation applied := (applied MakeConfig ApplyConfig ApplyEnvironment iconfig).
Local Abbreviation advance := (advance flatten MakeConfig ApplyConfig ApplyEnvironment iconfig).
Local Abbreviation act := (act flatten MakeConfig ApplyConfig ApplyEnvironment iconfig).
Local Abbreviation run := (run flatten MakeConfig ApplyConfig ApplyEnvironment iconfig).
Local Abbreviation quiet := (quiet flatten MakeConfig ApplyConfig ApplyEnvironment iconfig).
Local Abbreviation poll := (poll flatten MakeConfig ApplyConfig ApplyEnvironment iconfig).
Local Abbreviation LoadedConfig := (@LoadedConfig Concrete).
Local Abbreviation State := (@State Value Concrete).
Implicit Types (lo : LoadedConfig) (s : State) (f : Files) (paths : Paths) (first : bool).

(** The definitions of the accesses. *)
Ltac open_steps :=
  unfold Loader.advance, check_time, check_contents, read_base, read_override, record_time, record_contents, publish.

(** ** Every configuration in force was made by a load that returned *)
Definition loads lo : Prop := load (source lo) = Some lo.

Lemma loadedConfig_Some src c lo :
  loadedConfig iconfig src c = Some lo -> source lo = src /\ config lo = c /\ Config.make (iconfig c) = Ok (runtimeConfig lo).
Proof. unfold loadedConfig. destruct (Config.make (iconfig c)); [|done]. by intros [= <-]. Qed.
Lemma applied_source src v lo : applied src v = Some lo -> source lo = src.
Proof.
  unfold Loader.applied. intros (c & _ & Hl)%bind_Some. by apply loadedConfig_Some in Hl as [? _].
Qed.
Lemma loads_valid lo :
  loads lo -> valid (iconfig (config lo)) /\ answers (iconfig (config lo)) (runtimeConfig lo).
Proof.
  intros Hl. assert (Hm : Config.make (iconfig (config lo)) = Ok (runtimeConfig lo)).
  { unfold loads, Loader.load, Loader.applied in Hl.
    destruct (source lo) as [[b [o|]]|]; repeat (apply bind_Some in Hl as (? & _ & Hl));
      apply loadedConfig_Some in Hl; naive_solver. }
  by apply make_sound in Hm as (_ & ? & ?).
Qed.

(** The state of the loader and of the registry at each place. *)
Definition in_force s : Prop :=
  exists lo, state_ s = Some lo /\ loads lo /\ registry s = Some (runtimeConfig lo).
Definition some_registry s : Prop := exists lo, loads lo /\ registry s = Some (runtimeConfig lo).
Definition serving paths s : Prop :=
  match pc s with
  | PcNew | PcFailed | PcDestroyed => registry s = None
  | PcIdle | PcStat | PcContents => in_force s
  | PcBase first => if first then registry s = None else in_force s
  | PcOverride first b base =>
      configPath paths = true /\ overridePath paths = true /\ flatten b = Some base /\
      (if first then registry s = None else in_force s)
  | PcRecord first l | PcRecordContents first l =>
      loads l /\ (if first then registry s = None else state_ s = Some l /\ some_registry s)
  | PcPublish first l => loads l /\ state_ s = Some l /\ (if first then registry s = None else some_registry s)
  end.

Lemma in_force_some s : in_force s -> some_registry s.
Proof. intros (lo & _ & ? & ?). by exists lo. Qed.
Lemma serving_made paths first (o : option LoadedConfig) s :
  (forall lo, o = Some lo -> loads lo) -> (if first then registry s = None else in_force s) ->
  serving paths (made first o s).
Proof.
  intros Ho Hs. unfold made, loaded, failed. destruct o as [lo|], first; unfold serving; simpl; try done.
  - split; auto.
  - split_and!; auto. by apply in_force_some in Hs.
Qed.
Lemma serving_recorded paths first lo s :
  loads lo -> (if first then registry s = None else state_ s = Some lo /\ some_registry s) ->
  serving paths (recorded first lo s).
Proof. intros Hl Hs. unfold recorded. destruct first; unfold serving; simpl; naive_solver. Qed.
Lemma serving_failed paths first s :
  (if first then registry s = None else in_force s) -> serving paths (failed first s).
Proof. intros Hs. by destruct first. Qed.

Lemma serving_advance paths f s s' : serving paths s -> advance paths f s = Some s' -> serving paths s'.
Proof.
  unfold serving at 1, Loader.advance, check_time, check_contents, read_base, read_override, record_time, record_contents, publish. destruct (pc s) as [| | | | | |first|first b base|first l|first l|first l] eqn:Hpc; try done.
  - intros Hs [= <-]. by repeat split_case.
  - intros Hs [= <-]. by repeat split_case.
  - intros Hs [= <-]. destruct (configPath paths) eqn:Hc.
    + destruct (base_file f) as [b|]; [|by apply serving_failed].
      destruct (flatten b) as [base|] eqn:Hb; [|by apply serving_failed].
      destruct (overridePath paths) eqn:Ho; [done|]. apply serving_made; [|done].
      intros lo Hl. pose proof (applied_source _ _ _ Hl) as Hsrc. unfold loads. rewrite Hsrc. simpl. by rewrite Hb.
    + apply serving_made; [|done]. intros lo Hl. unfold loads. assert (source lo = None) as ->; [|done].
      apply bind_Some in Hl as (c & _ & Hl). by apply loadedConfig_Some in Hl as [? _].
  - intros (Hc & Ho & Hb & Hs) [= <-]. destruct (ReadOverrideContents f) as [o|]; [|by apply serving_failed].
    destruct (flatten o) as [overrides|] eqn:Hov; [|by apply serving_failed]. apply serving_made; [|done].
    intros lo Hl. pose proof (applied_source _ _ _ Hl) as Hsrc. unfold loads. rewrite Hsrc. simpl. by rewrite Hb, Hov.
  - intros [Hl Hs] [= <-]. repeat split_case; try by apply serving_recorded. done.
  - intros [Hl Hs] [= <-]. by apply serving_recorded.
  - intros (Hl & Hs & _) [= <-]. by exists l.
Qed.
Lemma serving_act paths a w w' : serving paths w.2 -> act paths a w = Some w' -> serving paths w'.2.
Proof.
  destruct a; simpl; intros Hs; [| | | |by intros [= <-]]; intros (s' & Hact & ->)%fmap_Some.
  - unfold Load in Hact. unfold serving in Hs. destruct (pc w.2) eqn:Hpc; try done. by injection Hact as <-.
  - unfold PollOnce in Hact. unfold serving in Hs. destruct (pc w.2) eqn:Hpc; try done. destruct (_ && _); [|done]. by injection Hact as <-.
  - by eapply serving_advance.
  - unfold Stop in Hact. destruct (pc w.2) eqn:Hpc; try done. by injection Hact as <-.
Qed.
Lemma serving_run paths acts w w' : serving paths w.2 -> run paths acts w = Some w' -> serving paths w'.2.
Proof.
  revert w. induction acts as [|a acts IH]; simpl; intros w Hs; [by intros [= <-]|].
  intros (w1 & Ha & Hr)%bind_Some. eapply IH; [|done]. by eapply serving_act.
Qed.

(** The component is constructed and not destroyed. *)
Definition alive s : bool :=
  match pc s with
  | PcNew | PcFailed | PcDestroyed | PcBase true | PcOverride true _ _ | PcRecord true _ | PcRecordContents true _ | PcPublish true _ => false
  | _ => true
  end.
Lemma serving_alive paths s : serving paths s -> alive s = true -> some_registry s.
Proof.
  unfold serving, alive. intros Hs Ha.
  destruct (pc s) as [| | | | | |[]|[] b base|[] l|[] l|[] l]; try done; try by apply in_force_some.
  all: naive_solver eauto using in_force_some.
Qed.

(** C28. From its construction to its destruction, however the files change, the component serves
    a configuration: the registry holds the indexes of a configuration that some contents of the
    files make, one that passed all the checks and whose look-ups are exact; a load that fails
    leaves it in place. *)
Theorem reload_keeps_serving paths acts f0 f s
    (Hrun : run paths acts (f0, created) = Some (f, s)) (Halive : alive s = true) :
  exists lo, registry s = Some (runtimeConfig lo) /\ load (source lo) = Some lo /\
    valid (iconfig (config lo)) /\ answers (iconfig (config lo)) (runtimeConfig lo).
Proof.
  apply serving_run in Hrun; [|done]. apply (serving_alive _ _ Hrun) in Halive as (lo & Hl & Hr).
  destruct (loads_valid _ Hl). by exists lo.
Qed.

(** ** Quiet runs: the recorded contents are those of the configuration in force *)
Section Tracking.
Context (paths : Paths) (Hcfg : configPath paths = true) (Hovr : overridePath paths = true).

Definition of_override lo (c : string) : Prop := exists b, source lo = Some (b, Some c).
Definition tracks s : Prop :=
  exists lo c m, state_ s = Some lo /\ of_override lo c /\ lastOverrideContents_ s = Some c /\ lastOverrideMtime_ s = Some m.
Definition tracked f s : Prop :=
  match pc s with
  | PcNew | PcFailed | PcDestroyed | PcBase true | PcOverride true _ _ => True
  | PcIdle | PcStat | PcContents | PcBase false | PcOverride false _ _ => tracks s
  | PcRecord _ l => exists c m, of_override l c /\ override_file f = Some (m, Some c)
  | PcRecordContents _ l => exists c m, of_override l c /\ override_file f = Some (m, Some c) /\ lastOverrideMtime_ s = Some m
  | PcPublish _ l => exists c m, state_ s = Some l /\ of_override l c /\ lastOverrideContents_ s = Some c /\ lastOverrideMtime_ s = Some m
  end.

(** [PollOnce] puts the configuration in force before it records the file. *)
Definition reloaded s : Prop :=
  match pc s with PcRecord false l | PcRecordContents false l => state_ s = Some l | _ => True end.

Lemma tracked_advance f s s' :
  tracked f s -> reloaded s -> advance paths f s = Some s' -> tracked f s' /\ reloaded s'.
Proof.
  unfold tracked at 1, reloaded at 1, Loader.advance, check_time, check_contents, read_base, read_override, record_time, record_contents, publish. rewrite Hcfg, Hovr.
  destruct (pc s) as [| | | | | |first|first b base|first l|first l|first l] eqn:Hpc; try done.
  - intros Hs _ [= <-]. by repeat split_case.
  - intros Hs _ [= <-]. by repeat split_case.
  - intros Hs _ [= <-]. unfold failed. by destruct first; repeat split_case.
  - intros Hs _ [= <-]. unfold failed. destruct (ReadOverrideContents f) as [o|] eqn:Ho; [|by destruct first].
    destruct (flatten o); [|by destruct first]. unfold made. destruct (Loader.applied _ _ _ _ _ _) as [lo|] eqn:Hl; [|by destruct first].
    apply applied_source in Hl. unfold ReadOverrideContents in Ho. apply bind_Some in Ho as ([m c] & Hf & Ho). simpl in Ho. subst c.
    unfold tracked, reloaded, loaded, of_override. destruct first; simpl; split; try done; exists o, m; eauto.
  - intros (c & m & Hl & Hf) Hr [= <-]. unfold last_write_time. rewrite Hf. simpl. unfold tracked, reloaded; simpl.
    destruct first; split; eauto 10.
  - intros (c & m & Hl & Hf & Hm) Hr [= <-]. unfold ReadOverrideContents. rewrite Hf. simpl.
    unfold tracked, reloaded, recorded; simpl. destruct first; simpl; split; eauto 10.
  - intros (c & m & Hs & Hl & Hc & Hm) _ [= <-]. split; [|done]. exists l, c, m. auto.
Qed.
Lemma tracked_act a w w' :
  (match a with AFiles _ => negb (recording w.2) | _ => true end) = true ->
  tracked w.1 w.2 -> reloaded w.2 -> act paths a w = Some w' -> tracked w'.1 w'.2 /\ reloaded w'.2.
Proof.
  destruct w as [f s]. destruct a as [| | | |f']; simpl; intros Hq Ht Hr.
  1-4: intros (s' & Hact & ->)%fmap_Some; simpl.
  - unfold Load in Hact. destruct (pc s); try done. by injection Hact as <-.
  - unfold PollOnce in Hact. unfold tracked in Ht. destruct (pc s) eqn:Hpc; try done. destruct (_ && _); [|done]. by injection Hact as <-.
  - by eapply tracked_advance.
  - unfold Stop in Hact. destruct (pc s) eqn:Hpc; try done. by injection Hact as <-.
  - intros [= <-]. split; [|done]. simpl. unfold tracked, recording in *. by destruct (pc s).
Qed.
Lemma tracked_run acts w w' :
  quiet paths acts w = true -> tracked w.1 w.2 -> reloaded w.2 -> run paths acts w = Some w' -> tracked w'.1 w'.2.
Proof.
  revert w. induction acts as [|a acts IH]; simpl; intros w Hq Ht Hr; [by intros [= <-]|].
  intros (w1 & Ha & Hrun)%bind_Some. rewrite Ha in Hq. apply andb_true_iff in Hq as [Hq1 Hq2].
  destruct (tracked_act a w w1) as [Ht1 Hr1]; try done. by apply (IH w1).
Qed.
End Tracking.

Local Abbreviation settle := (settle flatten MakeConfig ApplyConfig ApplyEnvironment iconfig).
Lemma settle_step paths n f s s1 : advance paths f s = Some s1 -> settle paths (S n) f s = settle paths n f s1.
Proof. intros Ha. simpl. by rewrite Ha. Qed.
Lemma settle_idle paths n f s : pc s = PcIdle -> settle paths n f s = s.
Proof. intros Hpc. destruct n; [done|]. simpl. open_steps. by rewrite Hpc. Qed.

(** What a poll does when it has seen a change: load, and on success put in force, record and
    publish. *)
Lemma settle_load paths f s m c n :
  configPath paths = true -> overridePath paths = true -> override_file f = Some (m, Some c) ->
  pc s = PcBase false ->
  settle paths (5 + n) f s =
  match base_file f ≫= fun b => load (Some (b, Some c)) with
  | Some lo => mkState (Some lo) (Some m) (Some c) (Some (runtimeConfig lo)) (S (reloadSuccess s)) (reloadError s) PcIdle
  | None => failed false s
  end.
Proof.
  intros Hc Ho Hf Hpc. cbn [Nat.add]. erewrite settle_step by (open_steps; rewrite Hpc, Hc, Ho; reflexivity).
  destruct (base_file f) as [b|]; simpl (Some _ ≫= _); [|by rewrite settle_idle].
  unfold Loader.load. destruct (flatten b) as [base|] eqn:Hb; simpl (Some _ ≫= _); [|by rewrite settle_idle].
  erewrite settle_step by (open_steps; unfold ReadOverrideContents; simpl; rewrite Hf; reflexivity). simpl (Some _ ≫= _).
  cbv iota beta.
  destruct (flatten c) as [overrides|] eqn:Hov; simpl (Some _ ≫= _); [|by rewrite settle_idle].
  destruct (Loader.applied _ _ _ _ _ _) as [lo|]; simpl made; [|by rewrite settle_idle].
  erewrite settle_step by (open_steps; unfold last_write_time; simpl; rewrite Ho, Hf; reflexivity).
  erewrite settle_step by (open_steps; unfold ReadOverrideContents; simpl; rewrite Hf; reflexivity).
  erewrite settle_step by reflexivity. by rewrite settle_idle.
Qed.

Lemma poll_decides paths f s m c :
  configPath paths = true -> overridePath paths = true -> override_file f = Some (m, Some c) -> pc s = PcIdle ->
  poll paths f s =
  if HasOverrideChanged paths f s then
    match base_file f ≫= fun b => load (Some (b, Some c)) with
    | Some lo => mkState (Some lo) (Some m) (Some c) (Some (runtimeConfig lo)) (S (reloadSuccess s)) (reloadError s) PcIdle
    | None => set_error (S (reloadError s)) s
    end
  else s.
Proof.
  intros Hc Ho Hf Hpc. assert (Hself : set_pc PcIdle s = s) by (destruct s; simpl in *; by subst).
  assert (Hfail : failed false (set_pc (PcBase false) s) = set_error (S (reloadError s)) s).
  { destruct s; simpl in *. by subst. }
  unfold Loader.poll, PollOnce, HasOverrideChanged. rewrite Hpc, Hc, Ho. unfold last_write_time, ReadOverrideContents. rewrite Hf. simpl andb. cbv iota.
  change (snd (m, Some c)) with (Some c).
  erewrite settle_step by (open_steps; unfold last_write_time; simpl; rewrite Hf; reflexivity).
  change (fst <$> Some (m, Some c)) with (Some m). cbv iota.
  destruct (decide (lastOverrideMtime_ s = Some m)) as [Hm|Hm].
  - rewrite (bool_decide_true (_ = Some m)), (bool_decide_false (_ <> Some m)) by (simpl; tauto).
    erewrite settle_step by (open_steps; unfold ReadOverrideContents; simpl; rewrite Hf; reflexivity).
    change (Some (m, Some c) ≫= snd) with (Some c). cbv iota. simpl orb.
    destruct (decide (lastOverrideContents_ s = Some c)) as [Hl|Hl].
    + rewrite (bool_decide_true (_ = Some c)), (bool_decide_false (_ <> Some c)) by (simpl; tauto).
      rewrite settle_idle by done. exact Hself.
    + rewrite (bool_decide_false (_ = Some c)), (bool_decide_true (_ <> Some c)) by (simpl; tauto).
      rewrite (settle_load paths f _ m c 0) by done. simpl. destruct (_ ≫= _); [done|exact Hfail].
  - rewrite (bool_decide_false (_ = Some m)), (bool_decide_true (_ <> Some m)) by (simpl; tauto). simpl orb.
    rewrite (settle_load paths f _ m c 1) by done. simpl. destruct (_ ≫= _); [done|exact Hfail].
Qed.

(** C29. If the override file never changes between being read and being recorded, a poll of a
    readable override file that now stands still leaves the configuration made from its present
    contents in force and published, and sees no further change; unless these contents, with the
    base file, make no configuration: then the poll changes nothing but the count of errors, and
    the next poll will try again. *)
Theorem reload_converges paths acts f0 f s m c
    (Hcfg : configPath paths = true) (Hovr : overridePath paths = true)
    (Hrun : run paths acts (f0, created) = Some (f, s)) (Hquiet : quiet paths acts (f0, created) = true)
    (Hidle : pc s = PcIdle) (Hfile : override_file f = Some (m, Some c)) :
  let s' := poll paths f s in
  pc s' = PcIdle /\
  ((exists lo, state_ s' = Some lo /\ registry s' = Some (runtimeConfig lo) /\ of_override lo c /\
      HasOverrideChanged paths f s' = false) \/
   (s' = set_error (S (reloadError s)) s /\ (base_file f ≫= fun b => load (Some (b, Some c))) = None /\
      HasOverrideChanged paths f s' = true)).
Proof.
  pose proof (serving_run _ _ (_, created) _ eq_refl Hrun) as Hserve. unfold serving in Hserve. simpl in Hserve. rewrite Hidle in Hserve.
  pose proof (tracked_run _ Hcfg Hovr _ _ _ Hquiet I I Hrun) as Ht. unfold tracked in Ht. simpl in Ht. rewrite Hidle in Ht.
  intros s'. subst s'. rewrite (poll_decides _ _ _ _ _ Hcfg Hovr Hfile Hidle).
  destruct (HasOverrideChanged paths f s) eqn:Hch.
  - destruct (base_file f ≫= _) as [lo|] eqn:Hl; simpl.
    + split; [done|]. left. exists lo. split_and!; try done.
      * apply bind_Some in Hl as (b & _ & Hl). exists b. unfold Loader.load in Hl.
        repeat (apply bind_Some in Hl as (? & _ & Hl)). by apply loadedConfig_Some in Hl as [? _].
      * unfold HasOverrideChanged, last_write_time, ReadOverrideContents. rewrite Hovr, Hfile. simpl. by rewrite !bool_decide_false by tauto.
    + split; [done|]. right. done.
  - split; [done|]. left. destruct Hserve as (lo & Hs & _ & Hr). destruct Ht as (lo' & c' & m' & Hs' & Ho & Hc & Hm).
    rewrite Hs in Hs'. injection Hs' as <-. exists lo. split_and!; try done.
    unfold HasOverrideChanged, last_write_time, ReadOverrideContents in Hch. rewrite Hovr, Hfile in Hch. simpl in Hch. bool_to_prop.
    assert (Hcc : lastOverrideContents_ s = Some c) by (apply dec_stable; tauto). rewrite Hc in Hcc. injection Hcc as ->. done.
Qed.
End LoaderTheorems.

(** ** Concrete files

    Configurations that are the text of one setting, in the trees of [ConfigMerge.v]. *)
Import Trees.
Module Samples.
Definition flatten (s : string) : option Tree :=
  if bool_decide (s = "broken"%string) then None else Some (Object [("executors"%string, Leaf s)]).
Definition patch (v : Tree) (c : option Tree) : option (option Tree) := Some (Merge.look v ["executors"%string]).
Definition streams (c : option Tree) : Config.IConfig :=
  Config.mkConfig [Config.mkStream 1 "input" "" ""] [Config.mkService 1 "svc" None 0] [] [] [Config.mkPool "p" 4 16] [] [].
Definition paths : Paths := mkPaths true true.
Definition files (m : Z) (c : string) : Files := mkFiles (Some "2"%string) (Some (m, Some c)).
Definition world : Type := Files * State (Value := Tree) (Concrete := option Tree).
Definition go (acts : list Action) (f : Files) : option world :=
  run flatten None patch Some streams paths acts (f, created).
Definition load_acts : list Action := [ALoad; AAdvance; AAdvance; AAdvance; AAdvance; AAdvance].
End Samples.
Import Samples.

(** The file is recorded after it was read: an override that is replaced in between, by
    contents that would make a configuration, is taken for the one that was loaded.  The loader
    then serves the configuration of the old contents, and no poll of the new file changes that. *)
Theorem reload_loses_change :
  exists acts f (s : State (Value := Tree) (Concrete := option Tree)) lo,
    go acts (files 1 "4") = Some (f, s) /\ pc s = PcIdle /\
    state_ s = Some lo /\ registry s = Some (runtimeConfig lo) /\ of_override lo "4" /\
    override_file f = Some (2%Z, Some "8"%string) /\
    is_Some (base_file f ≫= fun b => load flatten None patch Some streams (Some (b, Some "8"%string))) /\
    poll flatten None patch Some streams paths f s = s.
Proof.
  eexists [ALoad; AAdvance; AAdvance; AFiles (files 2 "8"); AAdvance; AAdvance; AAdvance], _, _, _.
  split; [vm_compute; reflexivity|]. split_and!; try reflexivity.
  - eexists. reflexivity.
  - eexists. vm_compute. reflexivity.
Qed.

Lemma reload_keeps_serving_witness :
  exists w lo, go (load_acts ++ [AFiles (files 2 "broken"); APoll; AAdvance; AAdvance; AAdvance]) (files 1 "4") = Some w /\
    reloadError w.2 = 1 /\ registry w.2 = Some (runtimeConfig lo) /\ valid (streams (config lo)).
Proof.
  destruct (go (load_acts ++ [AFiles (files 2 "broken"); APoll; AAdvance; AAdvance; AAdvance]) (files 1 "4")) as [[f s]|] eqn:Hw;
    [|by vm_compute in Hw].
  destruct (reload_keeps_serving flatten None patch Some streams paths _ _ f s Hw) as (lo & Hr & _ & Hv & _).
  { vm_compute in Hw. by injection Hw as <- <-. }
  exists (f, s), lo. split_and!; try done. vm_compute in Hw. by injection Hw as <- <-.
Defined.

Lemma reload_converges_witness :
  exists w lo, go (load_acts ++ [AFiles (files 2 "8")]) (files 1 "4") = Some w /\
    state_ (poll flatten None patch Some streams paths w.1 w.2) = Some lo /\ of_override lo "8".
Proof.
  destruct (go (load_acts ++ [AFiles (files 2 "8")]) (files 1 "4")) as [[f s]|] eqn:Hw; [|by vm_compute in Hw].
  assert (Hf : f = files 2 "8" /\ pc s = PcIdle).
  { vm_compute in Hw. by injection Hw as <- <-. }
  destruct Hf as [-> Hpc].
  destruct (reload_converges flatten None patch Some streams paths _ _ _ s 2 "8" eq_refl eq_refl Hw) as [_ [(lo & Hs & _ & Ho & _)|(_ & Hno & _)]];
    [vm_compute; reflexivity|exact Hpc|reflexivity| |by vm_compute in Hno].
  exists (files 2 "8", s), lo. done.
Defined.
