(* ===== verification/ServiceApi.v ===== *)
(** * The enumerations of the configuration

    api/serviceapi.hpp has the enumerations of the topology, api/serviceapi_parse.hpp the names
    by which they are written in YAML.  Both are kept in the repository as its API generator
    writes them.  An enumeration that another file models already keeps its type from there. *)
From stdpp Require Import strings list.
From S2P Require Import Prelude RuntimeConfig JoinOperators.

Module ProgrammingLanguage.
Inductive ProgrammingLanguage := kUndefined | kGoLang | kCppUserver | kPython | kRust | kTypeScript | kCppCoro.
#[global] Instance ProgrammingLanguage_eq_dec : EqDecision ProgrammingLanguage.
Proof. solve_decision. Defined.
Definition kProgrammingLanguageMap : list (string * ProgrammingLanguage) :=
  [("Undefined", kUndefined); ("GoLang", kGoLang); ("CppUserver", kCppUserver); ("Python", kPython); ("Rust", kRust);
    ("TypeScript", kTypeScript); ("CppCoro", kCppCoro)].
End ProgrammingLanguage.

Module JoinStorageType.
Definition kJoinStorageTypeMap : list (string * Operators.JoinStorageType) :=
  [("Undefined", Operators.kUndefined); ("HashMap", Operators.kHashMap); ("RocksDB", Operators.kRocksDB);
    ("Aerospike", Operators.kAerospike)].
End JoinStorageType.

Module TransformationType.
Inductive TransformationType := kUndefined | kInput | kMap | kFilter | kJoin | kMultiJoin | kProcess | kFlatMap
    | kFlatMapIterable | kKeyBy | kMerge | kSplit | kCase | kSink | kCycleLink | kError | kDelay | kWhen | kSubStream.
#[global] Instance TransformationType_eq_dec : EqDecision TransformationType.
Proof. solve_decision. Defined.
Definition kTransformationTypeMap : list (string * TransformationType) :=
  [("Undefined", kUndefined); ("Input", kInput); ("Map", kMap); ("Filter", kFilter); ("Join", kJoin);
    ("MultiJoin", kMultiJoin); ("Process", kProcess); ("FlatMap", kFlatMap); ("FlatMapIterable", kFlatMapIterable);
    ("KeyBy", kKeyBy); ("Merge", kMerge); ("Split", kSplit); ("Case", kCase); ("Sink", kSink);
    ("CycleLink", kCycleLink); ("Error", kError); ("Delay", kDelay); ("When", kWhen); ("SubStream", kSubStream)].
End TransformationType.

Module JoinType.
Inductive JoinType := kUndefined | kInner | kLeft | kRight | kOuter.
#[global] Instance JoinType_eq_dec : EqDecision JoinType.
Proof. solve_decision. Defined.
Definition kJoinTypeMap : list (string * JoinType) :=
  [("Undefined", kUndefined); ("Inner", kInner); ("Left", kLeft); ("Right", kRight); ("Outer", kOuter)].
End JoinType.

Module HTTPMethodType.
Inductive HTTPMethodType := kUndefined | kGET | kPOST | kPUT | kPATCH | kDELETE | kHEAD | kOPTIONS | kTRACE
    | kCONNECT.
#[global] Instance HTTPMethodType_eq_dec : EqDecision HTTPMethodType.
Proof. solve_decision. Defined.
Definition kHTTPMethodTypeMap : list (string * HTTPMethodType) :=
  [("", kUndefined); ("GET", kGET); ("POST", kPOST); ("PUT", kPUT); ("PATCH", kPATCH); ("DELETE", kDELETE);
    ("HEAD", kHEAD); ("OPTIONS", kOPTIONS); ("TRACE", kTRACE); ("CONNECT", kCONNECT)].
End HTTPMethodType.

Module GrpcMethodType.
Inductive GrpcMethodType := kUndefined | kNoStreaming | kClientStreaming | kServerStreaming | kBidirectionalStreaming.
#[global] Instance GrpcMethodType_eq_dec : EqDecision GrpcMethodType.
Proof. solve_decision. Defined.
Definition kGrpcMethodTypeMap : list (string * GrpcMethodType) :=
  [("Undefined", kUndefined); ("NoStreaming", kNoStreaming); ("ClientStreaming", kClientStreaming);
    ("ServerStreaming", kServerStreaming); ("BidirectionalStreaming", kBidirectionalStreaming)].
End GrpcMethodType.

Module CallSemantics.
Inductive CallSemantics := kUndefined | kInherited | kFunctionCall | kTaskPool | kPriorityTaskPool | kParallelCall.
#[global] Instance CallSemantics_eq_dec : EqDecision CallSemantics.
Proof. solve_decision. Defined.
Definition kCallSemanticsMap : list (string * CallSemantics) :=
  [("Undefined", kUndefined); ("Inherited", kInherited); ("FunctionCall", kFunctionCall); ("TaskPool", kTaskPool);
    ("PriorityTaskPool", kPriorityTaskPool); ("ParallelCall", kParallelCall)].
End CallSemantics.

Module DataConnectorType.
Definition kDataConnectorTypeMap : list (string * Config.DataConnectorType) :=
  [("Undefined", Config.kUndefined); ("HTTP", Config.kHTTP); ("gRPC", Config.kGRPC); ("Kafka", Config.kKafka);
    ("Custom", Config.kCustom); ("Cron", Config.kCron); ("Temporal", Config.kTemporal)].
End DataConnectorType.

Module ProcessPattern.
Inductive ProcessPattern := kUndefined | kExecute | kCollect.
#[global] Instance ProcessPattern_eq_dec : EqDecision ProcessPattern.
Proof. solve_decision. Defined.
Definition kProcessPatternMap : list (string * ProcessPattern) :=
  [("Undefined", kUndefined); ("Execute", kExecute); ("Collect", kCollect)].
End ProcessPattern.

Module LogLevel.
Inductive LogLevel := kUndefined | kCRITICAL | kFATAL | kERROR | kWARNING | kINFO | kDEBUG.
#[global] Instance LogLevel_eq_dec : EqDecision LogLevel.
Proof. solve_decision. Defined.
Definition kLogLevelMap : list (string * LogLevel) :=
  [("", kUndefined); ("CRITICAL", kCRITICAL); ("FATAL", kFATAL); ("ERROR", kERROR); ("WARNING", kWARNING);
    ("INFO", kINFO); ("DEBUG", kDEBUG)].
End LogLevel.

Module Environment.
Inductive Environment := kUndefined | kLocal | kDebug | kStaging | kProduction.
#[global] Instance Environment_eq_dec : EqDecision Environment.
Proof. solve_decision. Defined.
Definition kEnvironmentMap : list (string * Environment) :=
  [("", kUndefined); ("local", kLocal); ("debug", kDebug); ("staging", kStaging); ("production", kProduction)].
End Environment.

Module KubernetesWorkloadType.
Inductive KubernetesWorkloadType := kDeployment | kStatefulSet.
#[global] Instance KubernetesWorkloadType_eq_dec : EqDecision KubernetesWorkloadType.
Proof. solve_decision. Defined.
Definition kKubernetesWorkloadTypeMap : list (string * KubernetesWorkloadType) :=
  [("Deployment", kDeployment); ("StatefulSet", kStatefulSet)].
End KubernetesWorkloadType.

Module DataConnectorImplementation.
Inductive DataConnectorImplementation := kUndefined | kNetHTTP | kFunction | kIBMsarama | kGoogleGRPC | kUserverHTTP
    | kUserverGRPC | kUserverKafka | kBoostBeastHTTP | kAsioGRPC | kLibrdkafka | kAioHTTP | kAioKafka | kRustAxum
    | kRustTonic | kRustRdkafka | kNodeHTTP | kGrpcJS | kConfluentKafkaJavaScript | kGoGocron | kPythonAPScheduler
    | kRustCroner | kNodeCroner | kCppLibcron | kTemporalGo | kTemporalPython | kTemporalTypeScript.
#[global] Instance DataConnectorImplementation_eq_dec : EqDecision DataConnectorImplementation.
Proof. solve_decision. Defined.
Definition kDataConnectorImplementationMap : list (string * DataConnectorImplementation) :=
  [("", kUndefined); ("net/http", kNetHTTP); ("function", kFunction); ("IBM/Sarama", kIBMsarama);
    ("google/grpc", kGoogleGRPC); ("userver/http", kUserverHTTP); ("userver/grpc", kUserverGRPC);
    ("userver/kafka", kUserverKafka); ("boost/beast-http", kBoostBeastHTTP); ("asio/grpc", kAsioGRPC);
    ("librdkafka", kLibrdkafka); ("aiohttp", kAioHTTP); ("aiokafka", kAioKafka); ("rust/axum", kRustAxum);
    ("rust/tonic", kRustTonic); ("rust/rdkafka", kRustRdkafka); ("node/http", kNodeHTTP); ("grpc/grpc-js", kGrpcJS);
    ("confluent/kafka-javascript", kConfluentKafkaJavaScript); ("go/gocron", kGoGocron);
    ("python/apscheduler", kPythonAPScheduler); ("rust/croner", kRustCroner); ("node/croner", kNodeCroner);
    ("cpp/libcron", kCppLibcron); ("temporal/go", kTemporalGo); ("temporal/python", kTemporalPython);
    ("temporal/typescript", kTemporalTypeScript)].
End DataConnectorImplementation.

Module KafkaSecurityProtocol.
Inductive KafkaSecurityProtocol := kPLAINTEXT | kSASLPLAINTEXT | kSASLSSL.
#[global] Instance KafkaSecurityProtocol_eq_dec : EqDecision KafkaSecurityProtocol.
Proof. solve_decision. Defined.
Definition kKafkaSecurityProtocolMap : list (string * KafkaSecurityProtocol) :=
  [("PLAINTEXT", kPLAINTEXT); ("SASL_PLAINTEXT", kSASLPLAINTEXT); ("SASL_SSL", kSASLSSL)].
End KafkaSecurityProtocol.

Module KafkaSaslMechanism.
Inductive KafkaSaslMechanism := kPLAIN | kSCRAMSHA256 | kSCRAMSHA512.
#[global] Instance KafkaSaslMechanism_eq_dec : EqDecision KafkaSaslMechanism.
Proof. solve_decision. Defined.
Definition kKafkaSaslMechanismMap : list (string * KafkaSaslMechanism) :=
  [("PLAIN", kPLAIN); ("SCRAM-SHA-256", kSCRAMSHA256); ("SCRAM-SHA-512", kSCRAMSHA512)].
End KafkaSaslMechanism.

Module ScheduleOverlapPolicy.
Inductive ScheduleOverlapPolicy := kAllow | kSkip.
#[global] Instance ScheduleOverlapPolicy_eq_dec : EqDecision ScheduleOverlapPolicy.
Proof. solve_decision. Defined.
Definition kScheduleOverlapPolicyMap : list (string * ScheduleOverlapPolicy) :=
  [("Allow", kAllow); ("Skip", kSkip)].
End ScheduleOverlapPolicy.

Module ScheduleMissedRunPolicy.
Inductive ScheduleMissedRunPolicy := kSkip | kFireOnce.
#[global] Instance ScheduleMissedRunPolicy_eq_dec : EqDecision ScheduleMissedRunPolicy.
Proof. solve_decision. Defined.
Definition kScheduleMissedRunPolicyMap : list (string * ScheduleMissedRunPolicy) :=
  [("Skip", kSkip); ("FireOnce", kFireOnce)].
End ScheduleMissedRunPolicy.

Module TemporalExecutionType.
Inductive TemporalExecutionType := kActivity | kWorkflow.
#[global] Instance TemporalExecutionType_eq_dec : EqDecision TemporalExecutionType.
Proof. solve_decision. Defined.
Definition kTemporalExecutionTypeMap : list (string * TemporalExecutionType) :=
  [("Activity", kActivity); ("Workflow", kWorkflow)].
End TemporalExecutionType.

Module TypeDefinitionFormat.
Inductive TypeDefinitionFormat := kUndefined | kNative | kProtobuf | kFlatBuffers | kCapNProto | kOpenAPI.
#[global] Instance TypeDefinitionFormat_eq_dec : EqDecision TypeDefinitionFormat.
Proof. solve_decision. Defined.
Definition kTypeDefinitionFormatMap : list (string * TypeDefinitionFormat) :=
  [("Undefined", kUndefined); ("Native", kNative); ("Protobuf", kProtobuf); ("FlatBuffers", kFlatBuffers);
    ("CapNProto", kCapNProto); ("OpenAPI", kOpenAPI)].
End TypeDefinitionFormat.

Module DataType.
Inductive DataType := kUndefined | kInt | kUint | kByte | kChar | kBoolean | kUnicodeChar | kString | kUnicodeString
    | kFloat | kDouble | kInt8 | kInt16 | kInt32 | kInt64 | kUint8 | kUint16 | kUint32 | kUint64 | kAny | kError
    | kArray | kMap | kStruct | kCustom.
#[global] Instance DataType_eq_dec : EqDecision DataType.
Proof. solve_decision. Defined.
Definition kDataTypeMap : list (string * DataType) :=
  [("", kUndefined); ("int", kInt); ("uint", kUint); ("byte", kByte); ("char", kChar); ("boolean", kBoolean);
    ("unicode char", kUnicodeChar); ("string", kString); ("unicode string", kUnicodeString); ("float", kFloat);
    ("double", kDouble); ("int8", kInt8); ("int16", kInt16); ("int32", kInt32); ("int64", kInt64); ("uint8", kUint8);
    ("uint16", kUint16); ("uint32", kUint32); ("uint64", kUint64); ("any", kAny); ("error", kError);
    ("array", kArray); ("map", kMap); ("struct", kStruct); ("custom", kCustom)].
End DataType.

(** ** All of them *)
Inductive EnumName := EProgrammingLanguage | EJoinStorageType | ETransformationType | EJoinType | EHTTPMethodType
    | EGrpcMethodType | ECallSemantics | EDataConnectorType | EProcessPattern | ELogLevel | EEnvironment
    | EKubernetesWorkloadType | EDataConnectorImplementation | EKafkaSecurityProtocol | EKafkaSaslMechanism
    | EScheduleOverlapPolicy | EScheduleMissedRunPolicy | ETemporalExecutionType | ETypeDefinitionFormat | EDataType.
Definition enumT (e : EnumName) : Type :=
  match e with
  | EProgrammingLanguage => ProgrammingLanguage.ProgrammingLanguage
  | EJoinStorageType => Operators.JoinStorageType
  | ETransformationType => TransformationType.TransformationType
  | EJoinType => JoinType.JoinType
  | EHTTPMethodType => HTTPMethodType.HTTPMethodType
  | EGrpcMethodType => GrpcMethodType.GrpcMethodType
  | ECallSemantics => CallSemantics.CallSemantics
  | EDataConnectorType => Config.DataConnectorType
  | EProcessPattern => ProcessPattern.ProcessPattern
  | ELogLevel => LogLevel.LogLevel
  | EEnvironment => Environment.Environment
  | EKubernetesWorkloadType => KubernetesWorkloadType.KubernetesWorkloadType
  | EDataConnectorImplementation => DataConnectorImplementation.DataConnectorImplementation
  | EKafkaSecurityProtocol => KafkaSecurityProtocol.KafkaSecurityProtocol
  | EKafkaSaslMechanism => KafkaSaslMechanism.KafkaSaslMechanism
  | EScheduleOverlapPolicy => ScheduleOverlapPolicy.ScheduleOverlapPolicy
  | EScheduleMissedRunPolicy => ScheduleMissedRunPolicy.ScheduleMissedRunPolicy
  | ETemporalExecutionType => TemporalExecutionType.TemporalExecutionType
  | ETypeDefinitionFormat => TypeDefinitionFormat.TypeDefinitionFormat
  | EDataType => DataType.DataType
  end.
#[global] Instance enumT_eq_dec e : EqDecision (enumT e).
Proof. destruct e; cbn; try tc_solve; solve_decision. Defined.
Definition enumMap (e : EnumName) : list (string * enumT e) :=
  match e with
  | EProgrammingLanguage => ProgrammingLanguage.kProgrammingLanguageMap
  | EJoinStorageType => JoinStorageType.kJoinStorageTypeMap
  | ETransformationType => TransformationType.kTransformationTypeMap
  | EJoinType => JoinType.kJoinTypeMap
  | EHTTPMethodType => HTTPMethodType.kHTTPMethodTypeMap
  | EGrpcMethodType => GrpcMethodType.kGrpcMethodTypeMap
  | ECallSemantics => CallSemantics.kCallSemanticsMap
  | EDataConnectorType => DataConnectorType.kDataConnectorTypeMap
  | EProcessPattern => ProcessPattern.kProcessPatternMap
  | ELogLevel => LogLevel.kLogLevelMap
  | EEnvironment => Environment.kEnvironmentMap
  | EKubernetesWorkloadType => KubernetesWorkloadType.kKubernetesWorkloadTypeMap
  | EDataConnectorImplementation => DataConnectorImplementation.kDataConnectorImplementationMap
  | EKafkaSecurityProtocol => KafkaSecurityProtocol.kKafkaSecurityProtocolMap
  | EKafkaSaslMechanism => KafkaSaslMechanism.kKafkaSaslMechanismMap
  | EScheduleOverlapPolicy => ScheduleOverlapPolicy.kScheduleOverlapPolicyMap
  | EScheduleMissedRunPolicy => ScheduleMissedRunPolicy.kScheduleMissedRunPolicyMap
  | ETemporalExecutionType => TemporalExecutionType.kTemporalExecutionTypeMap
  | ETypeDefinitionFormat => TypeDefinitionFormat.kTypeDefinitionFormatMap
  | EDataType => DataType.kDataTypeMap
  end.
