(* ===== verification/ConfigYaml.v ===== *)
(** * Reading a configuration from YAML

    runtime/config/config_parse_common.hpp, and what the functions that read the configuration
    use of [formats::yaml::Value]: the class [YamlRead] names it, on top of [Yaml], and
    [YamlReadLaws] states its documented behaviour.  A conversion answers [None] where userver
    throws. *)
From Stdlib Require Import ZArith SpecFloat Lia.
From stdpp Require Import strings gmap list.
From S2P Require Import Prelude ConfigMerge ServiceApi.
Local Open Scope string_scope.
Local Open Scope list_scope.
Local Open Scope result_scope.

(** The types a member is read as: [double] and [float] are kept as the values of the standard. *)
Inductive Kind := KInt | KString | KBool | KDouble | KFloat | KInts | KEnum (e : EnumName).
Definition kindT (k : Kind) : Type :=
  match k with
  | KInt => Z
  | KString => string
  | KBool => bool
  | KDouble | KFloat => spec_float
  | KInts => list Z
  | KEnum e => enumT e
  end.

(** [ParseFromValueString] looks the text of a value up in the names of an enumeration. *)
Class YamlRead (Value : Type) := {
  yaml_value :: Yaml Value;
  IsNull : Value -> bool;
  IsString : Value -> bool;
  as_int : Value -> option Z;
  as_string : Value -> option string;
  as_bool : Value -> option bool;
  as_double : Value -> option spec_float;
  as_float : Value -> option spec_float;
  as_ints : Value -> option (list Z);
  ParseFromValueString : forall {E : Type}, list (string * E) -> Value -> option E;
}.

Class YamlReadLaws (Value : Type) `{YamlRead Value} := {
  yaml_value_laws :: YamlLaws Value;
  parse_names {E} (names : list (string * E)) v x :
    NoDup names.*1 ->
    ParseFromValueString names v = Some x <-> IsString v = true /\ exists s, as_string v = Some s /\ (s, x) ∈ names;
}.

(** What the code throws while it reads: [operator[]] on a scalar or a sequence, a conversion
    that fails, and the code's own checks. *)
Inductive ParseError :=
  | TypeMismatch (key : string)
  | BadValue (key : string)
  | InvalidArgument (what : string)
  | NoConcreteSemantics.

(** ** Conversions *)
Section Conversions.
Context {Value : Type} `{YamlRead Value}.
Implicit Types (v value : Value).

Definition convert (k : Kind) : Value -> option (kindT k) :=
  match k with
  | KInt => as_int
  | KString => as_string
  | KBool => as_bool
  | KDouble => as_double
  | KFloat => as_float
  | KInts => as_ints
  | KEnum e => ParseFromValueString (enumMap e)
  end.

(** [value["key"]], [None] for a missing value. *)
Definition member value (key : string) : result ParseError (option Value) :=
  if IsObject value then Ok (child value key)
  else if IsNull value then Ok None
  else Err (TypeMismatch key).
(** [As<T>()] of a value that is there, and [As<T>(default)] of one that may be missing or null. *)
Definition AsT (k : Kind) v (key : string) : result ParseError (kindT k) :=
  match convert k v with Some x => Ok x | None => Err (BadValue key) end.
Definition As (k : Kind) value (key : string) (default : kindT k) : result ParseError (kindT k) :=
  let? o := member value key in
  match o with
  | None => Ok default
  | Some v => if IsNull v then Ok default else AsT k v key
  end.
End Conversions.

(** ** Properties *)
Abbreviation PropertiesMap := (gmap string).
Definition FindProperty {Value} (properties : PropertiesMap Value) (name : string) : option Value :=
  properties !! name.
Definition emplace {Value} (key : string) (v : Value) (properties : PropertiesMap Value) : PropertiesMap Value :=
  match properties !! key with Some _ => properties | None => <[key := v]> properties end.
Definition ParseRemainingProperties {Value} `{YamlRead Value} (value : Value) (knownKeys : list string)
    (properties : PropertiesMap Value) : PropertiesMap Value :=
  if negb (IsObject value) then properties
  else fold_left
         (fun properties it => if existsb (String.eqb it.1) knownKeys then properties else emplace it.1 it.2 properties)
         (items value) properties.

(** ** The members that name a function *)
Module Functions.
Record Functions := mk {
  functionName : string;
  functionPackage : string;
  publicFunction : bool;
  functionDescription : string;
  functionInitializerGroup : string;
  functionModule : string;
}.
End Functions.
Definition ParseFunctionFields {Value} `{YamlRead Value} (value : Value) : result ParseError Functions.Functions :=
  let? functionName := As KString value "functionName" "" in
  let? functionPackage := As KString value "functionPackage" "" in
  let? publicFunction := As KBool value "publicFunction" false in
  let? functionDescription := As KString value "functionDescription" "" in
  let? functionInitializerGroup := As KString value "functionInitializerGroup" "" in
  let? functionModule := As KString value "functionModule" "" in
  Ok (Functions.mk functionName functionPackage publicFunction functionDescription functionInitializerGroup functionModule).

(** ** Laws *)
Section Laws.
Context {Value : Type} `{YamlReadLaws Value}.
Implicit Types (v value : Value).

(** What [As] makes of a child, missing or not. *)
Definition reading (k : Kind) (default : kindT k) (o : option Value) : option (kindT k) :=
  match o with
  | None => Some default
  | Some v => if IsNull v then Some default else convert k v
  end.

(** What a value that is read as a mapping has at a key: a null value reads as an empty one. *)
Definition mapping value : bool := IsObject value || IsNull value.
Definition at_key value key : option Value := if IsObject value then child value key else None.

Lemma member_mapping value key : mapping value = true -> member value key = Ok (at_key value key).
Proof. unfold mapping, member, at_key. destruct (IsObject value); [done|]. simpl. by intros ->. Qed.
Lemma member_other value key : mapping value = false -> member value key = Err (TypeMismatch key).
Proof. unfold mapping, member. by intros [-> ->]%orb_false_iff. Qed.
Lemma As_mapping k value key default :
  mapping value = true ->
  As k value key default =
  match reading k default (at_key value key) with Some x => Ok x | None => Err (BadValue key) end.
Proof.
  intros Ho. unfold As. rewrite member_mapping by done. unfold reading, AsT. simpl.
  destruct (at_key value key) as [v|]; [|done]. by destruct (IsNull v).
Qed.
Lemma As_other k value key default : mapping value = false -> As k value key default = Err (TypeMismatch key).
Proof. intros Ho. unfold As. by rewrite member_other. Qed.

Lemma existsb_eqb k known : existsb (String.eqb k) known = bool_decide (k ∈ known).
Proof.
  apply eq_true_iff_eq. rewrite existsb_exists, bool_decide_eq_true. setoid_rewrite list_elem_of_In.
  split; [intros (x & Hx & ->%String.eqb_eq); done|intros Hk; exists k; split; [done|apply String.eqb_refl]].
Qed.
(** Lists of keys without repetition, and lists with the same keys, by computation. *)
Fixpoint no_repeats (l : list string) : bool :=
  match l with [] => true | k :: l => negb (existsb (String.eqb k) l) && no_repeats l end.
Lemma no_repeats_NoDup l : no_repeats l = true -> NoDup l.
Proof.
  induction l as [|k l IH]; [constructor|]. simpl. rewrite existsb_eqb. intros [Hk%negb_true_iff Hl]%andb_prop.
  apply bool_decide_eq_false in Hk. constructor; auto.
Qed.
Definition same_keys (l1 l2 : list string) : bool :=
  forallb (fun k => existsb (String.eqb k) l2) l1 && forallb (fun k => existsb (String.eqb k) l1) l2.
Lemma same_keys_if {A} k (l1 l2 : list string) (x y : A) :
  same_keys l1 l2 = true ->
  (if bool_decide (k ∈ l1) then x else y) = (if bool_decide (k ∈ l2) then x else y).
Proof.
  unfold same_keys. rewrite andb_true_iff, !forallb_forall. setoid_rewrite <- list_elem_of_In.
  setoid_rewrite existsb_eqb. setoid_rewrite bool_decide_eq_true. intros [H12 H21].
  by rewrite (bool_decide_ext (k ∈ l1) (k ∈ l2)) by (split; auto).
Qed.

(** Each key of an object is emplaced unless it is known. *)
Lemma remaining_fold known (l : list (string * Value)) properties k :
  NoDup l.*1 -> (forall x, x ∈ l.*1 -> properties !! x = None) ->
  fold_left (fun p it => if existsb (String.eqb it.1) known then p else emplace it.1 it.2 p) l properties !! k =
  match list_find (fun it => it.1 = k) l with
  | Some (_, it) => if bool_decide (k ∈ known) then None else Some it.2
  | None => properties !! k
  end.
Proof.
  revert properties. induction l as [|[k' v] l IH]; intros p Hnd Hp; [done|].
  apply NoDup_cons in Hnd as [Hk Hnd]. cbn [fold_left]. rewrite existsb_eqb.
  rewrite IH; [|done|].
  - simpl. destruct (decide (k' = k)) as [->|Hne].
    + destruct (list_find _ l) as [[i it]|] eqn:Hf.
      { apply list_find_Some in Hf as (Hl & Hit & _). destruct Hk. rewrite <- Hit. apply list_elem_of_lookup_2 in Hl. set_solver. }
      pose proof (Hp k ltac:(set_solver)) as Hpk. unfold emplace. simpl.
      destruct (bool_decide (k ∈ known)); [done|]. rewrite Hpk. by rewrite lookup_insert_eq.
    + destruct (list_find _ l) as [[i it]|]; simpl; [done|]. unfold emplace; simpl.
      destruct (bool_decide (k' ∈ known)); [done|]. destruct (p !! k'); [done|]. by rewrite lookup_insert_ne.
  - intros x Hx. pose proof (Hp x ltac:(set_solver)) as Hpx. unfold emplace; simpl.
    destruct (bool_decide (k' ∈ known)); [done|]. destruct (p !! k'); [done|]. rewrite lookup_insert_ne; [done|]. intros ->. by apply Hk.
Qed.
Lemma remaining_lookup value known k :
  FindProperty (ParseRemainingProperties value known ∅) k = if bool_decide (k ∈ known) then None else at_key value k.
Proof.
  unfold FindProperty, ParseRemainingProperties, at_key. destruct (IsObject value) eqn:Ho; cbn [negb].
  2: { rewrite lookup_empty. by case_bool_decide. }
  rewrite remaining_fold; [|by apply items_nodup|intros; apply lookup_empty].
  destruct (list_find _ _) as [[i [k' v]]|] eqn:Hf.
  - apply list_find_Some in Hf as (Hl & Hk & _). simpl in Hk; subst k'. apply list_elem_of_lookup_2, items_child in Hl; [|done].
    by rewrite Hl.
  - rewrite lookup_empty. destruct (child value k) as [v|] eqn:Hc; [|by case_bool_decide].
    apply items_child in Hc; [|done]. apply list_find_None in Hf. rewrite Forall_forall in Hf. by destruct (Hf _ Hc).
Qed.

(** ** Names of enumerators *)

(** The name an enumerator is written by. *)
Definition enum_name (e : EnumName) (x : enumT e) : string :=
  match list_find (fun p => p.2 = x) (enumMap e) with Some (_, p) => p.1 | None => "" end.

Lemma enum_names_nodup e : NoDup (enumMap e).*1.
Proof. apply no_repeats_NoDup. by destruct e. Qed.
Lemma enum_names e x : (enum_name e x, x) ∈ enumMap e.
Proof. destruct e, x; vm_compute; repeat constructor. Qed.
Lemma enum_name_unique e s x : (s, x) ∈ enumMap e -> s = enum_name e x.
Proof.
  assert (forallb (fun p => String.eqb p.1 (enum_name e p.2)) (enumMap e) = true) as Ha by (by destruct e).
  rewrite forallb_forall in Ha. intros Hx%list_elem_of_In. by apply String.eqb_eq, (Ha (s, x)).
Qed.

(** C4. Each enumerator of the configuration is written by one name: a value reads as an enumerator
    exactly when it is a string with that name as its text, so that writing the name and reading
    it back gives the enumerator, and no other text does. *)
Theorem enum_roundtrip e v x :
  convert (KEnum e) v = Some x <-> IsString v = true /\ as_string v = Some (enum_name e x).
Proof.
  cbn [convert]. rewrite parse_names by apply enum_names_nodup. split.
  - intros (Hs & s & Ht & Hx). split; [done|]. by rewrite Ht, (enum_name_unique _ _ _ Hx).
  - intros [Hs Ht]. split; [done|]. exists (enum_name e x). split; [done|]. apply enum_names.
Qed.
End Laws.

(** ** A concrete YAML value, for the examples *)
Module ConfigSamples.
Import Trees.
Local Open Scope Z_scope.

Fixpoint digits (s : string) (n : Z) : option Z :=
  match s with
  | EmptyString => Some n
  | String c s =>
      let d := Z.of_nat (Ascii.nat_of_ascii c) - 48 in
      if (0 <=? d) && (d <=? 9) then digits s (10 * n + d) else None
  end.
Definition decimal (s : string) : option Z := if String.eqb s "" then None else digits s 0.
Definition leaf_null (t : Tree) : bool := match t with Leaf s => String.eqb s "null" | _ => false end.
Definition leaf_text (t : Tree) : option string :=
  match t with Leaf s => if String.eqb s "null" then None else Some s | _ => None end.
Definition named {E} (names : list (string * E)) (t : Tree) : option E :=
  s ← leaf_text t; snd ∘ snd <$> list_find (fun p => p.1 = s) names.
#[global] Instance tree_read : YamlRead Tree := {|
  yaml_value := tree_yaml;
  IsNull := leaf_null;
  IsString t := bool_decide (is_Some (leaf_text t));
  as_int t := leaf_text t ≫= decimal;
  as_string := leaf_text;
  as_bool t := s ← leaf_text t; if String.eqb s "true" then Some true else if String.eqb s "false" then Some false else None;
  as_double t := s ← leaf_text t; if String.eqb s "0" then Some (S754_zero false) else None;
  as_float t := s ← leaf_text t; if String.eqb s "0" then Some (S754_zero false) else None;
  as_ints t := match t with Sequence l => mapM (fun x => leaf_text x ≫= decimal) l | _ => None end;
  ParseFromValueString := @named;
|}.
#[global] Instance tree_read_laws : YamlReadLaws Tree.
Proof.
  split; [exact tree_laws|]. intros E names v x Hnd. cbn. unfold named. rewrite bool_decide_eq_true.
  destruct (leaf_text v) as [s|]; simpl; [|split; [done|intros [[? ?] _]; done]]. split.
  - intros ([i [s' x']] & Hf & [= <-])%fmap_Some. apply list_find_Some in Hf as (Hl & Hs & _). simpl in *; subst s'.
    split; [by eexists|]. exists s. split; [done|]. by eapply list_elem_of_lookup_2.
  - intros (_ & s' & [= <-] & Hin). apply list_elem_of_lookup in Hin as [i Hi].
    apply fmap_Some. exists (i, (s, x)). split; [|done]. apply list_find_Some. split_and!; [done..|].
    intros j [s' y] Hj Hlt Heq. simpl in Heq; subst s'.
    assert (i = j); [|lia]. eapply (NoDup_lookup names.*1 i j s); [done|by rewrite list_lookup_fmap, Hi|by rewrite list_lookup_fmap, Hj].
Qed.
End ConfigSamples.

Lemma enum_roundtrip_witness :
  convert (KEnum EJoinType) (Trees.Leaf "Outer") = Some JoinType.kOuter /\ convert (KEnum EJoinType) (Trees.Leaf "outer") = None /\
  (convert (KEnum EJoinType) (Trees.Leaf "Outer") = Some JoinType.kOuter <->
   IsString (Trees.Leaf "Outer") = true /\ as_string (Trees.Leaf "Outer") = Some "Outer").
Proof. split_and!; [reflexivity..|]. apply (enum_roundtrip EJoinType (Trees.Leaf "Outer") JoinType.kOuter). Defined.
#[global] Opaque reading.
