(* ===== verification/LinkTypes.v ===== *)
(** * The call semantics of links

    runtime/config/link_types.hpp: a link says how its callee is called, either by the name of a
    kind of call or by an object with one key for each kind.  [CallSemanticsGroup] and
    [Validate] are those of [RuntimeConfig]; here is how they are read. *)
From Stdlib Require Import ZArith Lia.
From stdpp Require Import strings gmap list.
From S2P Require Import Prelude ConfigMerge RuntimeConfig ServiceApi ConfigYaml.
Local Open Scope string_scope.
Local Open Scope list_scope.
Local Open Scope Z_scope.
Local Open Scope result_scope.
#[local] Set Implicit Arguments.

Definition MakeCallSemanticsGroup (type : CallSemantics.CallSemantics) (poolName : string) (priority : Z)
    (async : bool) : result ParseError Config.CallSemanticsGroup :=
  match type with
  | CallSemantics.kFunctionCall => Ok (Config.mkGroup (Some async) None None None)
  | CallSemantics.kTaskPool => Ok (Config.mkGroup None (Some poolName) None None)
  | CallSemantics.kPriorityTaskPool => Ok (Config.mkGroup None None (Some (poolName, priority)) None)
  | CallSemantics.kParallelCall => Ok (Config.mkGroup None None None (Some tt))
  | CallSemantics.kUndefined | CallSemantics.kInherited => Err NoConcreteSemantics
  end.

(** ** The group *)
Section Group.
Context {Value : Type} `{YamlRead Value}.
Implicit Types (v value : Value).

Definition ParseFunctionCall value : result ParseError bool := As KBool value "async" false.
Definition ParseTaskPool value : result ParseError string := As KString value "poolName" "".
Definition ParsePriorityTaskPool value : result ParseError (string * Z) :=
  let? poolName := As KString value "poolName" "" in
  let? priority := As KInt value "priority" 0 in
  Ok (poolName, priority).
Definition ParseParallelCall value : result ParseError unit := Ok tt.

(** One key of the group: absent, or read in full. *)
Definition present_as {A} (parse : Value -> result ParseError A) (o : option Value) : result ParseError (option A) :=
  match o with
  | None => Ok None
  | Some v => let? a := parse v in Ok (Some a)
  end.

Definition ParseGroup value : result ParseError Config.CallSemanticsGroup :=
  if IsString value then
    let? type := AsT (KEnum ECallSemantics) value "" in MakeCallSemanticsGroup type "" 0 false
  else
    let? function := member value "functionCall" in
    let? function := match function with None => member value "function" | Some v => Ok (Some v) end in
    let? functionCall := present_as ParseFunctionCall function in
    let? o := member value "taskPool" in
    let? taskPool := present_as ParseTaskPool o in
    let? o := member value "priorityTaskPool" in
    let? priorityTaskPool := present_as ParsePriorityTaskPool o in
    let? o := member value "parallelCall" in
    let? parallelCall := present_as ParseParallelCall o in
    Ok (Config.mkGroup functionCall taskPool priorityTaskPool parallelCall).

(** A member that holds call semantics: [make] is what a name is made into. *)
Definition SemanticsAt (make : CallSemantics.CallSemantics -> result ParseError Config.CallSemanticsGroup)
    (key : string) (o : option Value) : result ParseError (option Config.CallSemanticsGroup) :=
  match o with
  | None => Ok None
  | Some v =>
      if IsString v then
        let? type := AsT (KEnum ECallSemantics) v key in
        match type with
        | CallSemantics.kUndefined | CallSemantics.kInherited => Ok None
        | _ => let? g := make type in Ok (Some g)
        end
      else let? g := ParseGroup v in Ok (Some g)
  end.
Definition SemanticsOf value (key : string)
    (make : CallSemantics.CallSemantics -> result ParseError Config.CallSemanticsGroup) :
    result ParseError (option Config.CallSemanticsGroup) :=
  let? o := member value key in SemanticsAt make key o.
End Group.

(** ** The link *)
Module Link.
Record LinkConfig (Value : Type) := mk {
  from : Z;
  to : Z;
  callSemantics : option Config.CallSemanticsGroup;
  properties : PropertiesMap Value;
}.
Definition GetProperty {Value} (l : LinkConfig Value) (propName : string) : option Value :=
  FindProperty (properties l) propName.
Definition Parse {Value} `{YamlRead Value} (value : Value) : result ParseError (LinkConfig Value) :=
  let? from := As KInt value "from" 0 in
  let? to := As KInt value "to" 0 in
  let? callSemantics :=
    SemanticsOf value "callSemantics" (fun type =>
      let? poolName := As KString value "poolName" "" in
      let? priority := As KInt value "priority" 0 in
      let? async := As KBool value "async" false in
      MakeCallSemanticsGroup type poolName priority async) in
  let properties :=
    ParseRemainingProperties value ["from"; "to"; "callSemantics"; "poolName"; "priority"; "async"] ∅ in
  Ok {| from := from; to := to; callSemantics := callSemantics; properties := properties |}.
(** What the runtime keeps of a link. *)
Definition runtime {Value} (l : LinkConfig Value) : Config.LinkConfig :=
  Config.mkLink (from l) (to l) (callSemantics l).
End Link.

(** ** What is valid *)
Section Theorems.
Context {Value : Type} `{YamlReadLaws Value}.
Implicit Types (v value : Value).

(** The kinds of call that a group of keys names: [function] is another name of [functionCall]. *)
Definition kinds_named v : Z :=
  Config.present (match at_key v "functionCall" with None => at_key v "function" | Some f => Some f end) +
  Config.present (at_key v "taskPool") + Config.present (at_key v "priorityTaskPool") +
  Config.present (at_key v "parallelCall").
(** What is wrong with the call semantics that a value holds. *)
Definition semantics_error (link : Config.LinkID) (o : option Value) : result Config.ConfigError unit :=
  match o with
  | Some v => if IsString v || (kinds_named v =? 1) then Ok tt else Err (Config.InvalidLink link (kinds_named v))
  | None => Ok tt
  end.

Lemma present_as_count {A} (parse : Value -> result ParseError A) o r :
  present_as parse o = Ok r -> Config.present r = Config.present o.
Proof. destruct o as [v|]; simpl; [|by intros [= <-]]. by intros (a & _ & [= <-])%rbind_Ok_inv. Qed.
Lemma ParseGroup_count v g :
  IsString v = false -> ParseGroup v = Ok g -> Config.semantics_count g = kinds_named v.
Proof.
  unfold ParseGroup, kinds_named. intros ->. destruct (mapping v) eqn:Hm; [|by rewrite member_other].
  rewrite !member_mapping by done. cbn [rbind]. intros (f & Hf & (r1 & H1 & (r2 & H2 & (r3 & H3 & (r4 & H4 & [= <-])%rbind_Ok_inv)%rbind_Ok_inv)%rbind_Ok_inv)%rbind_Ok_inv)%rbind_Ok_inv.
  unfold Config.semantics_count; cbn. rewrite (present_as_count _ _ H1), (present_as_count _ _ H2), (present_as_count _ _ H3), (present_as_count _ _ H4).
  by destruct (at_key v "functionCall"); injection Hf as <-.
Qed.
Lemma MakeCallSemanticsGroup_count type poolName priority async g :
  MakeCallSemanticsGroup type poolName priority async = Ok g -> Config.semantics_count g = 1.
Proof. destruct type; simpl; intros [= <-]; done. Qed.
Lemma Parse_Link_inv value (l : Link.LinkConfig Value) :
  Link.Parse value = Ok l ->
  mapping value = true /\ exists make,
  (forall type g, make type = Ok g -> Config.semantics_count g = 1) /\
  SemanticsAt make "callSemantics" (at_key value "callSemantics") = Ok (Link.callSemantics l).
Proof.
  intros (from & Hf & (to & _ & (g & Hg & [= <-])%rbind_Ok_inv)%rbind_Ok_inv)%rbind_Ok_inv.
  destruct (mapping value) eqn:Hm; [|by rewrite As_other in Hf]. split; [done|].
  unfold SemanticsOf in Hg. rewrite member_mapping in Hg by done. eexists. split; [|exact Hg].
  by intros type g' (? & _ & (? & _ & (? & _ & ?%MakeCallSemanticsGroup_count)%rbind_Ok_inv)%rbind_Ok_inv)%rbind_Ok_inv.
Qed.

(** C27. A link that was read is valid exactly when its call semantics are missing, or given by
    name, or given by an object that names one kind of call; where it is not, the exception
    names the link and the number of kinds.  The two names of a function call count once. *)
Theorem link_valid_exact value (l : Link.LinkConfig Value) :
  Link.Parse value = Ok l ->
  Config.Validate (Link.runtime l) =
  semantics_error (Config.link_key (Link.runtime l)) (at_key value "callSemantics").
Proof.
  intros (Hm & make & Hmake & Hg)%Parse_Link_inv. unfold Config.Validate, semantics_error. cbn [Link.runtime Config.callSemantics].
  destruct (at_key value "callSemantics") as [v|]; cbn [SemanticsAt] in Hg; [|by injection Hg as <-].
  destruct (IsString v) eqn:Hs; cbn [orb].
  - apply rbind_Ok_inv in Hg as (type & _ & Hg).
    assert (forall g, rbind (make type) (fun g => Ok (Some g)) = Ok g -> exists g', g = Some g' /\ Config.semantics_count g' = 1) as Hc.
    { intros g (g' & Hg' & [= <-])%rbind_Ok_inv. eauto. }
    destruct type; try (by injection Hg as <-); destruct (Hc _ Hg) as (g' & -> & ->); done.
  - apply rbind_Ok_inv in Hg as (g & Hg & [= <-]). by rewrite (ParseGroup_count _ Hs Hg).
Qed.
End Theorems.

(** ** Examples *)
Module LinkSamples.
Import Trees ConfigSamples.
Definition both : Tree :=
  Object [("from", Leaf "1"); ("to", Leaf "2");
          ("callSemantics", Object [("function", Object []); ("taskPool", Object [("poolName", Leaf "workers")])])].
Definition grouped : Tree :=
  Object [("from", Leaf "1"); ("to", Leaf "2"); ("async", Leaf "true"); ("callSemantics", Object [("function", Object [])])].
End LinkSamples.
Import LinkSamples.

Lemma link_valid_exact_witness :
  exists l, Link.Parse both = Ok l /\ Config.Validate (Link.runtime l) = Err (Config.InvalidLink (1, 2) 2).
Proof.
  eexists. split; [vm_compute; reflexivity|]. etransitivity; [apply (link_valid_exact both); vm_compute; reflexivity|].
  vm_compute. reflexivity.
Defined.

(** A key of the link that only a name of a kind of call would use is dropped when the call
    semantics are an object: it is neither a member nor a property. *)
Lemma link_key_dropped :
  exists l, Link.Parse grouped = Ok l /\
    Link.callSemantics l = Some (Config.mkGroup (Some false) None None None) /\ Link.GetProperty l "async" = None.
Proof. eexists. split_and!; [vm_compute; reflexivity..]. Qed.
