(* ===== verification/StreamTypes.v ===== *)
(** * The configuration of the streams

    runtime/config/stream_types.hpp, a Module for each struct: [init] is the struct as its member
    initialisers leave it, [Parse] the function that reads it from YAML, statement by statement.
    [StreamConfigRef] is the variant the runtime holds, with what it answers. *)
From Stdlib Require Import ZArith.
From Stdlib Require Import SpecFloat.
From stdpp Require Import strings gmap list.
From S2P Require Import Prelude RuntimeConfig JoinOperators ServiceApi ConfigYaml.
Local Open Scope string_scope.
Local Open Scope list_scope.
Local Open Scope Z_scope.
Local Open Scope result_scope.
#[local] Set Implicit Arguments.

Module InputStream.
Record InputStreamConfig (Value : Type) := mk {
  id : Z;
  name : string;
  pipeline : string;
  component : string;
  idService : Z;
  idSource : Z;
  idSources : list Z;
  xPos : spec_float;
  yPos : spec_float;
  valueType : string;
  idEndpoint : Z;
  properties : PropertiesMap Value;
}.
Definition init {Value} : InputStreamConfig Value :=
  {| id := 0; name := ""; pipeline := ""; component := ""; idService := 0; idSource := 0; idSources := [];
      xPos := (S754_zero false); yPos := (S754_zero false); valueType := ""; idEndpoint := 0; properties := ∅ |}.
Definition GetType {Value} (c : InputStreamConfig Value) : TransformationType.TransformationType := TransformationType.kInput.
Definition GetProperty {Value} (c : InputStreamConfig Value) (propName : string) : option Value :=
  FindProperty (properties c) propName.
Definition Parse {Value} `{YamlRead Value} (value : Value) : result ParseError (InputStreamConfig Value) :=
  let? id := As KInt value "id" 0 in
  let? name := As KString value "name" "" in
  let? pipeline := As KString value "pipeline" "" in
  let? component := As KString value "component" "" in
  let? idService := As KInt value "idService" 0 in
  let? idSource := As KInt value "idSource" 0 in
  let? idSources := As KInts value "idSources" [] in
  let? xPos := As KDouble value "xPos" (S754_zero false) in
  let? yPos := As KDouble value "yPos" (S754_zero false) in
  let? valueType := As KString value "valueType" "" in
  let? idEndpoint := As KInt value "idEndpoint" 0 in
  let properties := ParseRemainingProperties value
      ["id"; "name"; "pipeline"; "component"; "idService"; "idSource"; "idSources"; "xPos"; "yPos"; "valueType";
       "idEndpoint"] ∅ in
  Ok {| id := id; name := name; pipeline := pipeline; component := component; idService := idService; idSource := idSource;
        idSources := idSources; xPos := xPos; yPos := yPos; valueType := valueType; idEndpoint := idEndpoint;
        properties := properties |}.
End InputStream.

Module SubStream.
Record SubStreamConfig (Value : Type) := mk {
  id : Z;
  name : string;
  pipeline : string;
  component : string;
  idService : Z;
  idSource : Z;
  xPos : spec_float;
  yPos : spec_float;
  valueType : string;
  properties : PropertiesMap Value;
}.
Definition init {Value} : SubStreamConfig Value :=
  {| id := 0; name := ""; pipeline := ""; component := ""; idService := 0; idSource := 0; xPos := (S754_zero false);
      yPos := (S754_zero false); valueType := ""; properties := ∅ |}.
Definition GetType {Value} (c : SubStreamConfig Value) : TransformationType.TransformationType := TransformationType.kSubStream.
Definition GetProperty {Value} (c : SubStreamConfig Value) (propName : string) : option Value :=
  FindProperty (properties c) propName.
Definition Parse {Value} `{YamlRead Value} (value : Value) : result ParseError (SubStreamConfig Value) :=
  let? id := As KInt value "id" 0 in
  let? name := As KString value "name" "" in
  let? pipeline := As KString value "pipeline" "" in
  let? component := As KString value "component" "" in
  let? idService := As KInt value "idService" 0 in
  let? idSource := As KInt value "idSource" 0 in
  let? xPos := As KDouble value "xPos" (S754_zero false) in
  let? yPos := As KDouble value "yPos" (S754_zero false) in
  let? valueType := As KString value "valueType" "" in
  let properties := ParseRemainingProperties value
      ["id"; "name"; "pipeline"; "component"; "idService"; "idSource"; "xPos"; "yPos"; "valueType"] ∅ in
  Ok {| id := id; name := name; pipeline := pipeline; component := component; idService := idService; idSource := idSource;
        xPos := xPos; yPos := yPos; valueType := valueType; properties := properties |}.
End SubStream.

Module MapStream.
Record MapStreamConfig (Value : Type) := mk {
  id : Z;
  name : string;
  pipeline : string;
  component : string;
  idService : Z;
  idSource : Z;
  xPos : spec_float;
  yPos : spec_float;
  valueType : string;
  functionPackage : string;
  functionName : string;
  publicFunction : bool;
  functionDescription : string;
  functionInitializerGroup : string;
  functionModule : string;
  properties : PropertiesMap Value;
}.
Definition init {Value} : MapStreamConfig Value :=
  {| id := 0; name := ""; pipeline := ""; component := ""; idService := 0; idSource := 0; xPos := (S754_zero false);
      yPos := (S754_zero false); valueType := ""; functionPackage := ""; functionName := ""; publicFunction := false;
      functionDescription := ""; functionInitializerGroup := ""; functionModule := ""; properties := ∅ |}.
Definition GetType {Value} (c : MapStreamConfig Value) : TransformationType.TransformationType := TransformationType.kMap.
Definition GetProperty {Value} (c : MapStreamConfig Value) (propName : string) : option Value :=
  FindProperty (properties c) propName.
Definition Parse {Value} `{YamlRead Value} (value : Value) : result ParseError (MapStreamConfig Value) :=
  let? id := As KInt value "id" 0 in
  let? name := As KString value "name" "" in
  let? pipeline := As KString value "pipeline" "" in
  let? component := As KString value "component" "" in
  let? idService := As KInt value "idService" 0 in
  let? idSource := As KInt value "idSource" 0 in
  let? xPos := As KDouble value "xPos" (S754_zero false) in
  let? yPos := As KDouble value "yPos" (S754_zero false) in
  let? valueType := As KString value "valueType" "" in
  let? functions := ParseFunctionFields value in
  let properties := ParseRemainingProperties value
      ["id"; "name"; "pipeline"; "component"; "idService"; "idSource"; "xPos"; "yPos"; "valueType"; "functionPackage";
       "functionName"; "publicFunction"; "functionDescription"; "functionInitializerGroup"; "functionModule"] ∅ in
  Ok {| id := id; name := name; pipeline := pipeline; component := component; idService := idService; idSource := idSource;
        xPos := xPos; yPos := yPos; valueType := valueType; functionPackage := Functions.functionPackage functions;
        functionName := Functions.functionName functions; publicFunction := Functions.publicFunction functions;
        functionDescription := Functions.functionDescription functions;
        functionInitializerGroup := Functions.functionInitializerGroup functions;
        functionModule := Functions.functionModule functions; properties := properties |}.
End MapStream.

Module FilterStream.
Record FilterStreamConfig (Value : Type) := mk {
  id : Z;
  name : string;
  pipeline : string;
  component : string;
  idService : Z;
  idSource : Z;
  xPos : spec_float;
  yPos : spec_float;
  functionPackage : string;
  functionName : string;
  publicFunction : bool;
  functionDescription : string;
  functionInitializerGroup : string;
  functionModule : string;
  properties : PropertiesMap Value;
}.
Definition init {Value} : FilterStreamConfig Value :=
  {| id := 0; name := ""; pipeline := ""; component := ""; idService := 0; idSource := 0; xPos := (S754_zero false);
      yPos := (S754_zero false); functionPackage := ""; functionName := ""; publicFunction := false;
      functionDescription := ""; functionInitializerGroup := ""; functionModule := ""; properties := ∅ |}.
Definition GetType {Value} (c : FilterStreamConfig Value) : TransformationType.TransformationType := TransformationType.kFilter.
Definition GetProperty {Value} (c : FilterStreamConfig Value) (propName : string) : option Value :=
  FindProperty (properties c) propName.
Definition Parse {Value} `{YamlRead Value} (value : Value) : result ParseError (FilterStreamConfig Value) :=
  let? id := As KInt value "id" 0 in
  let? name := As KString value "name" "" in
  let? pipeline := As KString value "pipeline" "" in
  let? component := As KString value "component" "" in
  let? idService := As KInt value "idService" 0 in
  let? idSource := As KInt value "idSource" 0 in
  let? xPos := As KDouble value "xPos" (S754_zero false) in
  let? yPos := As KDouble value "yPos" (S754_zero false) in
  let? functions := ParseFunctionFields value in
  let properties := ParseRemainingProperties value
      ["id"; "name"; "pipeline"; "component"; "idService"; "idSource"; "xPos"; "yPos"; "functionPackage";
       "functionName"; "publicFunction"; "functionDescription"; "functionInitializerGroup"; "functionModule"] ∅ in
  Ok {| id := id; name := name; pipeline := pipeline; component := component; idService := idService; idSource := idSource;
        xPos := xPos; yPos := yPos; functionPackage := Functions.functionPackage functions;
        functionName := Functions.functionName functions; publicFunction := Functions.publicFunction functions;
        functionDescription := Functions.functionDescription functions;
        functionInitializerGroup := Functions.functionInitializerGroup functions;
        functionModule := Functions.functionModule functions; properties := properties |}.
End FilterStream.

Module JoinStream.
Record JoinStreamConfig (Value : Type) := mk {
  id : Z;
  name : string;
  pipeline : string;
  component : string;
  idService : Z;
  idSource : Z;
  idSources : list Z;
  xPos : spec_float;
  yPos : spec_float;
  valueType : string;
  joinType : JoinType.JoinType;
  joinStorage : Operators.JoinStorageType;
  ttl : Z;
  renewTTL : bool;
  functionPackage : string;
  functionName : string;
  publicFunction : bool;
  functionDescription : string;
  functionInitializerGroup : string;
  functionModule : string;
  properties : PropertiesMap Value;
}.
Definition init {Value} : JoinStreamConfig Value :=
  {| id := 0; name := ""; pipeline := ""; component := ""; idService := 0; idSource := 0; idSources := [];
      xPos := (S754_zero false); yPos := (S754_zero false); valueType := ""; joinType := JoinType.kUndefined;
      joinStorage := Operators.kUndefined; ttl := 0; renewTTL := false; functionPackage := ""; functionName := "";
      publicFunction := false; functionDescription := ""; functionInitializerGroup := ""; functionModule := "";
      properties := ∅ |}.
Definition GetType {Value} (c : JoinStreamConfig Value) : TransformationType.TransformationType := TransformationType.kJoin.
Definition GetProperty {Value} (c : JoinStreamConfig Value) (propName : string) : option Value :=
  FindProperty (properties c) propName.
Definition Parse {Value} `{YamlRead Value} (value : Value) : result ParseError (JoinStreamConfig Value) :=
  let? id := As KInt value "id" 0 in
  let? name := As KString value "name" "" in
  let? pipeline := As KString value "pipeline" "" in
  let? component := As KString value "component" "" in
  let? idService := As KInt value "idService" 0 in
  let? idSource := As KInt value "idSource" 0 in
  let? idSources := As KInts value "idSources" [] in
  let? xPos := As KDouble value "xPos" (S754_zero false) in
  let? yPos := As KDouble value "yPos" (S754_zero false) in
  let? valueType := As KString value "valueType" "" in
  let? joinType := As (KEnum EJoinType) value "joinType" JoinType.kUndefined in
  let? joinStorage := As (KEnum EJoinStorageType) value "joinStorage" Operators.kUndefined in
  let? ttl := As KInt value "ttl" 0 in
  let? renewTTL := As KBool value "renewTTL" false in
  let? functions := ParseFunctionFields value in
  let properties := ParseRemainingProperties value
      ["id"; "name"; "pipeline"; "component"; "idService"; "idSource"; "idSources"; "xPos"; "yPos"; "valueType";
       "joinType"; "joinStorage"; "ttl"; "renewTTL"; "functionPackage"; "functionName"; "publicFunction";
       "functionDescription"; "functionInitializerGroup"; "functionModule"] ∅ in
  Ok {| id := id; name := name; pipeline := pipeline; component := component; idService := idService; idSource := idSource;
        idSources := idSources; xPos := xPos; yPos := yPos; valueType := valueType; joinType := joinType;
        joinStorage := joinStorage; ttl := ttl; renewTTL := renewTTL;
        functionPackage := Functions.functionPackage functions; functionName := Functions.functionName functions;
        publicFunction := Functions.publicFunction functions;
        functionDescription := Functions.functionDescription functions;
        functionInitializerGroup := Functions.functionInitializerGroup functions;
        functionModule := Functions.functionModule functions; properties := properties |}.
End JoinStream.

Module MultiJoinStream.
Record MultiJoinStreamConfig (Value : Type) := mk {
  id : Z;
  name : string;
  pipeline : string;
  component : string;
  idService : Z;
  idSource : Z;
  idSources : list Z;
  xPos : spec_float;
  yPos : spec_float;
  valueType : string;
  joinStorage : Operators.JoinStorageType;
  ttl : Z;
  renewTTL : bool;
  functionPackage : string;
  functionName : string;
  publicFunction : bool;
  functionDescription : string;
  functionInitializerGroup : string;
  functionModule : string;
  properties : PropertiesMap Value;
}.
Definition init {Value} : MultiJoinStreamConfig Value :=
  {| id := 0; name := ""; pipeline := ""; component := ""; idService := 0; idSource := 0; idSources := [];
      xPos := (S754_zero false); yPos := (S754_zero false); valueType := ""; joinStorage := Operators.kUndefined;
      ttl := 0; renewTTL := false; functionPackage := ""; functionName := ""; publicFunction := false;
      functionDescription := ""; functionInitializerGroup := ""; functionModule := ""; properties := ∅ |}.
Definition GetType {Value} (c : MultiJoinStreamConfig Value) : TransformationType.TransformationType := TransformationType.kMultiJoin.
Definition GetProperty {Value} (c : MultiJoinStreamConfig Value) (propName : string) : option Value :=
  FindProperty (properties c) propName.
Definition Parse {Value} `{YamlRead Value} (value : Value) : result ParseError (MultiJoinStreamConfig Value) :=
  let? id := As KInt value "id" 0 in
  let? name := As KString value "name" "" in
  let? pipeline := As KString value "pipeline" "" in
  let? component := As KString value "component" "" in
  let? idService := As KInt value "idService" 0 in
  let? idSource := As KInt value "idSource" 0 in
  let? idSources := As KInts value "idSources" [] in
  let? xPos := As KDouble value "xPos" (S754_zero false) in
  let? yPos := As KDouble value "yPos" (S754_zero false) in
  let? valueType := As KString value "valueType" "" in
  let? joinStorage := As (KEnum EJoinStorageType) value "joinStorage" Operators.kUndefined in
  let? ttl := As KInt value "ttl" 0 in
  let? renewTTL := As KBool value "renewTTL" false in
  let? functions := ParseFunctionFields value in
  let properties := ParseRemainingProperties value
      ["id"; "name"; "pipeline"; "component"; "idService"; "idSource"; "idSources"; "xPos"; "yPos"; "valueType";
       "joinStorage"; "ttl"; "renewTTL"; "functionPackage"; "functionName"; "publicFunction"; "functionDescription";
       "functionInitializerGroup"; "functionModule"] ∅ in
  Ok {| id := id; name := name; pipeline := pipeline; component := component; idService := idService; idSource := idSource;
        idSources := idSources; xPos := xPos; yPos := yPos; valueType := valueType; joinStorage := joinStorage;
        ttl := ttl; renewTTL := renewTTL; functionPackage := Functions.functionPackage functions;
        functionName := Functions.functionName functions; publicFunction := Functions.publicFunction functions;
        functionDescription := Functions.functionDescription functions;
        functionInitializerGroup := Functions.functionInitializerGroup functions;
        functionModule := Functions.functionModule functions; properties := properties |}.
End MultiJoinStream.

Module ProcessStream.
Record ProcessStreamConfig (Value : Type) := mk {
  id : Z;
  name : string;
  pipeline : string;
  component : string;
  idService : Z;
  idSource : Z;
  xPos : spec_float;
  yPos : spec_float;
  pattern : ProcessPattern.ProcessPattern;
  functionPackage : string;
  functionName : string;
  publicFunction : bool;
  functionDescription : string;
  functionInitializerGroup : string;
  functionModule : string;
  properties : PropertiesMap Value;
}.
Definition init {Value} : ProcessStreamConfig Value :=
  {| id := 0; name := ""; pipeline := ""; component := ""; idService := 0; idSource := 0; xPos := (S754_zero false);
      yPos := (S754_zero false); pattern := ProcessPattern.kUndefined; functionPackage := ""; functionName := "";
      publicFunction := false; functionDescription := ""; functionInitializerGroup := ""; functionModule := "";
      properties := ∅ |}.
Definition GetType {Value} (c : ProcessStreamConfig Value) : TransformationType.TransformationType := TransformationType.kProcess.
Definition GetProperty {Value} (c : ProcessStreamConfig Value) (propName : string) : option Value :=
  FindProperty (properties c) propName.
Definition Parse {Value} `{YamlRead Value} (value : Value) : result ParseError (ProcessStreamConfig Value) :=
  let? id := As KInt value "id" 0 in
  let? name := As KString value "name" "" in
  let? pipeline := As KString value "pipeline" "" in
  let? component := As KString value "component" "" in
  let? idService := As KInt value "idService" 0 in
  let? idSource := As KInt value "idSource" 0 in
  let? xPos := As KDouble value "xPos" (S754_zero false) in
  let? yPos := As KDouble value "yPos" (S754_zero false) in
  let? pattern := As (KEnum EProcessPattern) value "pattern" ProcessPattern.kUndefined in
  let? functions := ParseFunctionFields value in
  let properties := ParseRemainingProperties value
      ["id"; "name"; "pipeline"; "component"; "idService"; "idSource"; "xPos"; "yPos"; "pattern"; "functionPackage";
       "functionName"; "publicFunction"; "functionDescription"; "functionInitializerGroup"; "functionModule"] ∅ in
  Ok {| id := id; name := name; pipeline := pipeline; component := component; idService := idService; idSource := idSource;
        xPos := xPos; yPos := yPos; pattern := pattern; functionPackage := Functions.functionPackage functions;
        functionName := Functions.functionName functions; publicFunction := Functions.publicFunction functions;
        functionDescription := Functions.functionDescription functions;
        functionInitializerGroup := Functions.functionInitializerGroup functions;
        functionModule := Functions.functionModule functions; properties := properties |}.
End ProcessStream.

Module FlatMapStream.
Record FlatMapStreamConfig (Value : Type) := mk {
  id : Z;
  name : string;
  pipeline : string;
  component : string;
  idService : Z;
  idSource : Z;
  xPos : spec_float;
  yPos : spec_float;
  valueType : string;
  functionPackage : string;
  functionName : string;
  publicFunction : bool;
  functionDescription : string;
  functionInitializerGroup : string;
  functionModule : string;
  properties : PropertiesMap Value;
}.
Definition init {Value} : FlatMapStreamConfig Value :=
  {| id := 0; name := ""; pipeline := ""; component := ""; idService := 0; idSource := 0; xPos := (S754_zero false);
      yPos := (S754_zero false); valueType := ""; functionPackage := ""; functionName := ""; publicFunction := false;
      functionDescription := ""; functionInitializerGroup := ""; functionModule := ""; properties := ∅ |}.
Definition GetType {Value} (c : FlatMapStreamConfig Value) : TransformationType.TransformationType := TransformationType.kFlatMap.
Definition GetProperty {Value} (c : FlatMapStreamConfig Value) (propName : string) : option Value :=
  FindProperty (properties c) propName.
Definition Parse {Value} `{YamlRead Value} (value : Value) : result ParseError (FlatMapStreamConfig Value) :=
  let? id := As KInt value "id" 0 in
  let? name := As KString value "name" "" in
  let? pipeline := As KString value "pipeline" "" in
  let? component := As KString value "component" "" in
  let? idService := As KInt value "idService" 0 in
  let? idSource := As KInt value "idSource" 0 in
  let? xPos := As KDouble value "xPos" (S754_zero false) in
  let? yPos := As KDouble value "yPos" (S754_zero false) in
  let? valueType := As KString value "valueType" "" in
  let? functions := ParseFunctionFields value in
  let properties := ParseRemainingProperties value
      ["id"; "name"; "pipeline"; "component"; "idService"; "idSource"; "xPos"; "yPos"; "valueType"; "functionPackage";
       "functionName"; "publicFunction"; "functionDescription"; "functionInitializerGroup"; "functionModule"] ∅ in
  Ok {| id := id; name := name; pipeline := pipeline; component := component; idService := idService; idSource := idSource;
        xPos := xPos; yPos := yPos; valueType := valueType; functionPackage := Functions.functionPackage functions;
        functionName := Functions.functionName functions; publicFunction := Functions.publicFunction functions;
        functionDescription := Functions.functionDescription functions;
        functionInitializerGroup := Functions.functionInitializerGroup functions;
        functionModule := Functions.functionModule functions; properties := properties |}.
End FlatMapStream.

Module FlatMapIterableStream.
Record FlatMapIterableStreamConfig (Value : Type) := mk {
  id : Z;
  name : string;
  pipeline : string;
  component : string;
  idService : Z;
  idSource : Z;
  xPos : spec_float;
  yPos : spec_float;
  valueType : string;
  properties : PropertiesMap Value;
}.
Definition init {Value} : FlatMapIterableStreamConfig Value :=
  {| id := 0; name := ""; pipeline := ""; component := ""; idService := 0; idSource := 0; xPos := (S754_zero false);
      yPos := (S754_zero false); valueType := ""; properties := ∅ |}.
Definition GetType {Value} (c : FlatMapIterableStreamConfig Value) : TransformationType.TransformationType := TransformationType.kFlatMapIterable.
Definition GetProperty {Value} (c : FlatMapIterableStreamConfig Value) (propName : string) : option Value :=
  FindProperty (properties c) propName.
Definition Parse {Value} `{YamlRead Value} (value : Value) : result ParseError (FlatMapIterableStreamConfig Value) :=
  let? id := As KInt value "id" 0 in
  let? name := As KString value "name" "" in
  let? pipeline := As KString value "pipeline" "" in
  let? component := As KString value "component" "" in
  let? idService := As KInt value "idService" 0 in
  let? idSource := As KInt value "idSource" 0 in
  let? xPos := As KDouble value "xPos" (S754_zero false) in
  let? yPos := As KDouble value "yPos" (S754_zero false) in
  let? valueType := As KString value "valueType" "" in
  let properties := ParseRemainingProperties value
      ["id"; "name"; "pipeline"; "component"; "idService"; "idSource"; "xPos"; "yPos"; "valueType"] ∅ in
  Ok {| id := id; name := name; pipeline := pipeline; component := component; idService := idService; idSource := idSource;
        xPos := xPos; yPos := yPos; valueType := valueType; properties := properties |}.
End FlatMapIterableStream.

Module KeyByStream.
Record KeyByStreamConfig (Value : Type) := mk {
  id : Z;
  name : string;
  pipeline : string;
  component : string;
  idService : Z;
  idSource : Z;
  xPos : spec_float;
  yPos : spec_float;
  keyType : string;
  valueType : string;
  functionPackage : string;
  functionName : string;
  publicFunction : bool;
  functionDescription : string;
  functionInitializerGroup : string;
  functionModule : string;
  properties : PropertiesMap Value;
}.
Definition init {Value} : KeyByStreamConfig Value :=
  {| id := 0; name := ""; pipeline := ""; component := ""; idService := 0; idSource := 0; xPos := (S754_zero false);
      yPos := (S754_zero false); keyType := ""; valueType := ""; functionPackage := ""; functionName := "";
      publicFunction := false; functionDescription := ""; functionInitializerGroup := ""; functionModule := "";
      properties := ∅ |}.
Definition GetType {Value} (c : KeyByStreamConfig Value) : TransformationType.TransformationType := TransformationType.kKeyBy.
Definition GetProperty {Value} (c : KeyByStreamConfig Value) (propName : string) : option Value :=
  FindProperty (properties c) propName.
Definition Parse {Value} `{YamlRead Value} (value : Value) : result ParseError (KeyByStreamConfig Value) :=
  let? id := As KInt value "id" 0 in
  let? name := As KString value "name" "" in
  let? pipeline := As KString value "pipeline" "" in
  let? component := As KString value "component" "" in
  let? idService := As KInt value "idService" 0 in
  let? idSource := As KInt value "idSource" 0 in
  let? xPos := As KDouble value "xPos" (S754_zero false) in
  let? yPos := As KDouble value "yPos" (S754_zero false) in
  let? keyType := As KString value "keyType" "" in
  let? valueType := As KString value "valueType" "" in
  let? functions := ParseFunctionFields value in
  let properties := ParseRemainingProperties value
      ["id"; "name"; "pipeline"; "component"; "idService"; "idSource"; "xPos"; "yPos"; "keyType"; "valueType";
       "functionPackage"; "functionName"; "publicFunction"; "functionDescription"; "functionInitializerGroup";
       "functionModule"] ∅ in
  Ok {| id := id; name := name; pipeline := pipeline; component := component; idService := idService; idSource := idSource;
        xPos := xPos; yPos := yPos; keyType := keyType; valueType := valueType;
        functionPackage := Functions.functionPackage functions; functionName := Functions.functionName functions;
        publicFunction := Functions.publicFunction functions;
        functionDescription := Functions.functionDescription functions;
        functionInitializerGroup := Functions.functionInitializerGroup functions;
        functionModule := Functions.functionModule functions; properties := properties |}.
End KeyByStream.

Module MergeStream.
Record MergeStreamConfig (Value : Type) := mk {
  id : Z;
  name : string;
  pipeline : string;
  component : string;
  idService : Z;
  idSources : list Z;
  xPos : spec_float;
  yPos : spec_float;
  properties : PropertiesMap Value;
}.
Definition init {Value} : MergeStreamConfig Value :=
  {| id := 0; name := ""; pipeline := ""; component := ""; idService := 0; idSources := []; xPos := (S754_zero false);
      yPos := (S754_zero false); properties := ∅ |}.
Definition GetType {Value} (c : MergeStreamConfig Value) : TransformationType.TransformationType := TransformationType.kMerge.
Definition GetProperty {Value} (c : MergeStreamConfig Value) (propName : string) : option Value :=
  FindProperty (properties c) propName.
Definition Parse {Value} `{YamlRead Value} (value : Value) : result ParseError (MergeStreamConfig Value) :=
  let? id := As KInt value "id" 0 in
  let? name := As KString value "name" "" in
  let? pipeline := As KString value "pipeline" "" in
  let? component := As KString value "component" "" in
  let? idService := As KInt value "idService" 0 in
  let? idSources := As KInts value "idSources" [] in
  let? xPos := As KDouble value "xPos" (S754_zero false) in
  let? yPos := As KDouble value "yPos" (S754_zero false) in
  let properties := ParseRemainingProperties value
      ["id"; "name"; "pipeline"; "component"; "idService"; "idSources"; "xPos"; "yPos"] ∅ in
  Ok {| id := id; name := name; pipeline := pipeline; component := component; idService := idService;
        idSources := idSources; xPos := xPos; yPos := yPos; properties := properties |}.
End MergeStream.

Module SplitStream.
Record SplitStreamConfig (Value : Type) := mk {
  id : Z;
  name : string;
  pipeline : string;
  component : string;
  idService : Z;
  idSource : Z;
  xPos : spec_float;
  yPos : spec_float;
  properties : PropertiesMap Value;
}.
Definition init {Value} : SplitStreamConfig Value :=
  {| id := 0; name := ""; pipeline := ""; component := ""; idService := 0; idSource := 0; xPos := (S754_zero false);
      yPos := (S754_zero false); properties := ∅ |}.
Definition GetType {Value} (c : SplitStreamConfig Value) : TransformationType.TransformationType := TransformationType.kSplit.
Definition GetProperty {Value} (c : SplitStreamConfig Value) (propName : string) : option Value :=
  FindProperty (properties c) propName.
Definition Parse {Value} `{YamlRead Value} (value : Value) : result ParseError (SplitStreamConfig Value) :=
  let? id := As KInt value "id" 0 in
  let? name := As KString value "name" "" in
  let? pipeline := As KString value "pipeline" "" in
  let? component := As KString value "component" "" in
  let? idService := As KInt value "idService" 0 in
  let? idSource := As KInt value "idSource" 0 in
  let? xPos := As KDouble value "xPos" (S754_zero false) in
  let? yPos := As KDouble value "yPos" (S754_zero false) in
  let properties := ParseRemainingProperties value
      ["id"; "name"; "pipeline"; "component"; "idService"; "idSource"; "xPos"; "yPos"] ∅ in
  Ok {| id := id; name := name; pipeline := pipeline; component := component; idService := idService; idSource := idSource;
        xPos := xPos; yPos := yPos; properties := properties |}.
End SplitStream.

Module CaseStream.
Record CaseStreamConfig (Value : Type) := mk {
  id : Z;
  name : string;
  pipeline : string;
  component : string;
  idService : Z;
  idSource : Z;
  xPos : spec_float;
  yPos : spec_float;
  functionPackage : string;
  functionName : string;
  publicFunction : bool;
  functionDescription : string;
  functionInitializerGroup : string;
  functionModule : string;
  properties : PropertiesMap Value;
}.
Definition init {Value} : CaseStreamConfig Value :=
  {| id := 0; name := ""; pipeline := ""; component := ""; idService := 0; idSource := 0; xPos := (S754_zero false);
      yPos := (S754_zero false); functionPackage := ""; functionName := ""; publicFunction := false;
      functionDescription := ""; functionInitializerGroup := ""; functionModule := ""; properties := ∅ |}.
Definition GetType {Value} (c : CaseStreamConfig Value) : TransformationType.TransformationType := TransformationType.kCase.
Definition GetProperty {Value} (c : CaseStreamConfig Value) (propName : string) : option Value :=
  FindProperty (properties c) propName.
Definition Parse {Value} `{YamlRead Value} (value : Value) : result ParseError (CaseStreamConfig Value) :=
  let? id := As KInt value "id" 0 in
  let? name := As KString value "name" "" in
  let? pipeline := As KString value "pipeline" "" in
  let? component := As KString value "component" "" in
  let? idService := As KInt value "idService" 0 in
  let? idSource := As KInt value "idSource" 0 in
  let? xPos := As KDouble value "xPos" (S754_zero false) in
  let? yPos := As KDouble value "yPos" (S754_zero false) in
  let? functions := ParseFunctionFields value in
  let properties := ParseRemainingProperties value
      ["id"; "name"; "pipeline"; "component"; "idService"; "idSource"; "xPos"; "yPos"; "functionPackage";
       "functionName"; "publicFunction"; "functionDescription"; "functionInitializerGroup"; "functionModule"] ∅ in
  Ok {| id := id; name := name; pipeline := pipeline; component := component; idService := idService; idSource := idSource;
        xPos := xPos; yPos := yPos; functionPackage := Functions.functionPackage functions;
        functionName := Functions.functionName functions; publicFunction := Functions.publicFunction functions;
        functionDescription := Functions.functionDescription functions;
        functionInitializerGroup := Functions.functionInitializerGroup functions;
        functionModule := Functions.functionModule functions; properties := properties |}.
End CaseStream.

Module WhenStream.
Record WhenStreamConfig (Value : Type) := mk {
  id : Z;
  name : string;
  pipeline : string;
  component : string;
  idService : Z;
  idSource : Z;
  xPos : spec_float;
  yPos : spec_float;
  valueType : string;
  properties : PropertiesMap Value;
}.
Definition init {Value} : WhenStreamConfig Value :=
  {| id := 0; name := ""; pipeline := ""; component := ""; idService := 0; idSource := 0; xPos := (S754_zero false);
      yPos := (S754_zero false); valueType := ""; properties := ∅ |}.
Definition GetType {Value} (c : WhenStreamConfig Value) : TransformationType.TransformationType := TransformationType.kWhen.
Definition GetProperty {Value} (c : WhenStreamConfig Value) (propName : string) : option Value :=
  FindProperty (properties c) propName.
Definition Parse {Value} `{YamlRead Value} (value : Value) : result ParseError (WhenStreamConfig Value) :=
  let? id := As KInt value "id" 0 in
  let? name := As KString value "name" "" in
  let? pipeline := As KString value "pipeline" "" in
  let? component := As KString value "component" "" in
  let? idService := As KInt value "idService" 0 in
  let? idSource := As KInt value "idSource" 0 in
  let? xPos := As KDouble value "xPos" (S754_zero false) in
  let? yPos := As KDouble value "yPos" (S754_zero false) in
  let? valueType := As KString value "valueType" "" in
  let properties := ParseRemainingProperties value
      ["id"; "name"; "pipeline"; "component"; "idService"; "idSource"; "xPos"; "yPos"; "valueType"] ∅ in
  Ok {| id := id; name := name; pipeline := pipeline; component := component; idService := idService; idSource := idSource;
        xPos := xPos; yPos := yPos; valueType := valueType; properties := properties |}.
End WhenStream.

Module SinkStream.
Record SinkStreamConfig (Value : Type) := mk {
  id : Z;
  name : string;
  pipeline : string;
  component : string;
  idService : Z;
  idSource : Z;
  xPos : spec_float;
  yPos : spec_float;
  idEndpoint : Z;
  valueType : string;
  properties : PropertiesMap Value;
}.
Definition init {Value} : SinkStreamConfig Value :=
  {| id := 0; name := ""; pipeline := ""; component := ""; idService := 0; idSource := 0; xPos := (S754_zero false);
      yPos := (S754_zero false); idEndpoint := 0; valueType := ""; properties := ∅ |}.
Definition GetType {Value} (c : SinkStreamConfig Value) : TransformationType.TransformationType := TransformationType.kSink.
Definition GetProperty {Value} (c : SinkStreamConfig Value) (propName : string) : option Value :=
  FindProperty (properties c) propName.
Definition Parse {Value} `{YamlRead Value} (value : Value) : result ParseError (SinkStreamConfig Value) :=
  let? id := As KInt value "id" 0 in
  let? name := As KString value "name" "" in
  let? pipeline := As KString value "pipeline" "" in
  let? component := As KString value "component" "" in
  let? idService := As KInt value "idService" 0 in
  let? idSource := As KInt value "idSource" 0 in
  let? xPos := As KDouble value "xPos" (S754_zero false) in
  let? yPos := As KDouble value "yPos" (S754_zero false) in
  let? idEndpoint := As KInt value "idEndpoint" 0 in
  let? valueType := As KString value "valueType" "" in
  let properties := ParseRemainingProperties value
      ["id"; "name"; "pipeline"; "component"; "idService"; "idSource"; "xPos"; "yPos"; "idEndpoint"; "valueType"] ∅ in
  Ok {| id := id; name := name; pipeline := pipeline; component := component; idService := idService; idSource := idSource;
        xPos := xPos; yPos := yPos; idEndpoint := idEndpoint; valueType := valueType; properties := properties |}.
End SinkStream.

Module CycleLinkStream.
Record CycleLinkStreamConfig (Value : Type) := mk {
  id : Z;
  name : string;
  pipeline : string;
  component : string;
  idService : Z;
  idSource : Z;
  xPos : spec_float;
  yPos : spec_float;
  properties : PropertiesMap Value;
}.
Definition init {Value} : CycleLinkStreamConfig Value :=
  {| id := 0; name := ""; pipeline := ""; component := ""; idService := 0; idSource := 0; xPos := (S754_zero false);
      yPos := (S754_zero false); properties := ∅ |}.
Definition GetType {Value} (c : CycleLinkStreamConfig Value) : TransformationType.TransformationType := TransformationType.kCycleLink.
Definition GetProperty {Value} (c : CycleLinkStreamConfig Value) (propName : string) : option Value :=
  FindProperty (properties c) propName.
Definition Parse {Value} `{YamlRead Value} (value : Value) : result ParseError (CycleLinkStreamConfig Value) :=
  let? id := As KInt value "id" 0 in
  let? name := As KString value "name" "" in
  let? pipeline := As KString value "pipeline" "" in
  let? component := As KString value "component" "" in
  let? idService := As KInt value "idService" 0 in
  let? idSource := As KInt value "idSource" 0 in
  let? xPos := As KDouble value "xPos" (S754_zero false) in
  let? yPos := As KDouble value "yPos" (S754_zero false) in
  let properties := ParseRemainingProperties value
      ["id"; "name"; "pipeline"; "component"; "idService"; "idSource"; "xPos"; "yPos"] ∅ in
  Ok {| id := id; name := name; pipeline := pipeline; component := component; idService := idService; idSource := idSource;
        xPos := xPos; yPos := yPos; properties := properties |}.
End CycleLinkStream.

Module DelayStream.
Record DelayStreamConfig (Value : Type) := mk {
  id : Z;
  name : string;
  pipeline : string;
  component : string;
  idService : Z;
  idSource : Z;
  xPos : spec_float;
  yPos : spec_float;
  duration : Z;
  functionPackage : string;
  functionName : string;
  publicFunction : bool;
  functionDescription : string;
  functionInitializerGroup : string;
  functionModule : string;
  properties : PropertiesMap Value;
}.
Definition init {Value} : DelayStreamConfig Value :=
  {| id := 0; name := ""; pipeline := ""; component := ""; idService := 0; idSource := 0; xPos := (S754_zero false);
      yPos := (S754_zero false); duration := 0; functionPackage := ""; functionName := ""; publicFunction := false;
      functionDescription := ""; functionInitializerGroup := ""; functionModule := ""; properties := ∅ |}.
Definition GetType {Value} (c : DelayStreamConfig Value) : TransformationType.TransformationType := TransformationType.kDelay.
Definition GetProperty {Value} (c : DelayStreamConfig Value) (propName : string) : option Value :=
  FindProperty (properties c) propName.
Definition Parse {Value} `{YamlRead Value} (value : Value) : result ParseError (DelayStreamConfig Value) :=
  let? id := As KInt value "id" 0 in
  let? name := As KString value "name" "" in
  let? pipeline := As KString value "pipeline" "" in
  let? component := As KString value "component" "" in
  let? idService := As KInt value "idService" 0 in
  let? idSource := As KInt value "idSource" 0 in
  let? xPos := As KDouble value "xPos" (S754_zero false) in
  let? yPos := As KDouble value "yPos" (S754_zero false) in
  let? duration := As KInt value "duration" 0 in
  let? functions := ParseFunctionFields value in
  let properties := ParseRemainingProperties value
      ["id"; "name"; "pipeline"; "component"; "idService"; "idSource"; "xPos"; "yPos"; "duration"; "functionPackage";
       "functionName"; "publicFunction"; "functionDescription"; "functionInitializerGroup"; "functionModule"] ∅ in
  Ok {| id := id; name := name; pipeline := pipeline; component := component; idService := idService; idSource := idSource;
        xPos := xPos; yPos := yPos; duration := duration; functionPackage := Functions.functionPackage functions;
        functionName := Functions.functionName functions; publicFunction := Functions.publicFunction functions;
        functionDescription := Functions.functionDescription functions;
        functionInitializerGroup := Functions.functionInitializerGroup functions;
        functionModule := Functions.functionModule functions; properties := properties |}.
End DelayStream.

(** ** The reference the runtime holds *)
Inductive StreamConfigRef (Value : Type) :=
  | RInputStream (c : InputStream.InputStreamConfig Value)
  | RSubStream (c : SubStream.SubStreamConfig Value)
  | RMapStream (c : MapStream.MapStreamConfig Value)
  | RFilterStream (c : FilterStream.FilterStreamConfig Value)
  | RJoinStream (c : JoinStream.JoinStreamConfig Value)
  | RMultiJoinStream (c : MultiJoinStream.MultiJoinStreamConfig Value)
  | RProcessStream (c : ProcessStream.ProcessStreamConfig Value)
  | RFlatMapStream (c : FlatMapStream.FlatMapStreamConfig Value)
  | RFlatMapIterableStream (c : FlatMapIterableStream.FlatMapIterableStreamConfig Value)
  | RKeyByStream (c : KeyByStream.KeyByStreamConfig Value)
  | RMergeStream (c : MergeStream.MergeStreamConfig Value)
  | RSplitStream (c : SplitStream.SplitStreamConfig Value)
  | RCaseStream (c : CaseStream.CaseStreamConfig Value)
  | RWhenStream (c : WhenStream.WhenStreamConfig Value)
  | RSinkStream (c : SinkStream.SinkStreamConfig Value)
  | RCycleLinkStream (c : CycleLinkStream.CycleLinkStreamConfig Value)
  | RDelayStream (c : DelayStream.DelayStreamConfig Value).
Definition GetID {Value} (r : StreamConfigRef Value) : Z :=
  match r with
  | RInputStream c => InputStream.id c
  | RSubStream c => SubStream.id c
  | RMapStream c => MapStream.id c
  | RFilterStream c => FilterStream.id c
  | RJoinStream c => JoinStream.id c
  | RMultiJoinStream c => MultiJoinStream.id c
  | RProcessStream c => ProcessStream.id c
  | RFlatMapStream c => FlatMapStream.id c
  | RFlatMapIterableStream c => FlatMapIterableStream.id c
  | RKeyByStream c => KeyByStream.id c
  | RMergeStream c => MergeStream.id c
  | RSplitStream c => SplitStream.id c
  | RCaseStream c => CaseStream.id c
  | RWhenStream c => WhenStream.id c
  | RSinkStream c => SinkStream.id c
  | RCycleLinkStream c => CycleLinkStream.id c
  | RDelayStream c => DelayStream.id c
  end.
Definition GetName {Value} (r : StreamConfigRef Value) : string :=
  match r with
  | RInputStream c => InputStream.name c
  | RSubStream c => SubStream.name c
  | RMapStream c => MapStream.name c
  | RFilterStream c => FilterStream.name c
  | RJoinStream c => JoinStream.name c
  | RMultiJoinStream c => MultiJoinStream.name c
  | RProcessStream c => ProcessStream.name c
  | RFlatMapStream c => FlatMapStream.name c
  | RFlatMapIterableStream c => FlatMapIterableStream.name c
  | RKeyByStream c => KeyByStream.name c
  | RMergeStream c => MergeStream.name c
  | RSplitStream c => SplitStream.name c
  | RCaseStream c => CaseStream.name c
  | RWhenStream c => WhenStream.name c
  | RSinkStream c => SinkStream.name c
  | RCycleLinkStream c => CycleLinkStream.name c
  | RDelayStream c => DelayStream.name c
  end.
Definition GetPipeline {Value} (r : StreamConfigRef Value) : string :=
  match r with
  | RInputStream c => InputStream.pipeline c
  | RSubStream c => SubStream.pipeline c
  | RMapStream c => MapStream.pipeline c
  | RFilterStream c => FilterStream.pipeline c
  | RJoinStream c => JoinStream.pipeline c
  | RMultiJoinStream c => MultiJoinStream.pipeline c
  | RProcessStream c => ProcessStream.pipeline c
  | RFlatMapStream c => FlatMapStream.pipeline c
  | RFlatMapIterableStream c => FlatMapIterableStream.pipeline c
  | RKeyByStream c => KeyByStream.pipeline c
  | RMergeStream c => MergeStream.pipeline c
  | RSplitStream c => SplitStream.pipeline c
  | RCaseStream c => CaseStream.pipeline c
  | RWhenStream c => WhenStream.pipeline c
  | RSinkStream c => SinkStream.pipeline c
  | RCycleLinkStream c => CycleLinkStream.pipeline c
  | RDelayStream c => DelayStream.pipeline c
  end.
Definition GetComponent {Value} (r : StreamConfigRef Value) : string :=
  match r with
  | RInputStream c => InputStream.component c
  | RSubStream c => SubStream.component c
  | RMapStream c => MapStream.component c
  | RFilterStream c => FilterStream.component c
  | RJoinStream c => JoinStream.component c
  | RMultiJoinStream c => MultiJoinStream.component c
  | RProcessStream c => ProcessStream.component c
  | RFlatMapStream c => FlatMapStream.component c
  | RFlatMapIterableStream c => FlatMapIterableStream.component c
  | RKeyByStream c => KeyByStream.component c
  | RMergeStream c => MergeStream.component c
  | RSplitStream c => SplitStream.component c
  | RCaseStream c => CaseStream.component c
  | RWhenStream c => WhenStream.component c
  | RSinkStream c => SinkStream.component c
  | RCycleLinkStream c => CycleLinkStream.component c
  | RDelayStream c => DelayStream.component c
  end.
Definition GetType {Value} (r : StreamConfigRef Value) : TransformationType.TransformationType :=
  match r with
  | RInputStream c => InputStream.GetType c
  | RSubStream c => SubStream.GetType c
  | RMapStream c => MapStream.GetType c
  | RFilterStream c => FilterStream.GetType c
  | RJoinStream c => JoinStream.GetType c
  | RMultiJoinStream c => MultiJoinStream.GetType c
  | RProcessStream c => ProcessStream.GetType c
  | RFlatMapStream c => FlatMapStream.GetType c
  | RFlatMapIterableStream c => FlatMapIterableStream.GetType c
  | RKeyByStream c => KeyByStream.GetType c
  | RMergeStream c => MergeStream.GetType c
  | RSplitStream c => SplitStream.GetType c
  | RCaseStream c => CaseStream.GetType c
  | RWhenStream c => WhenStream.GetType c
  | RSinkStream c => SinkStream.GetType c
  | RCycleLinkStream c => CycleLinkStream.GetType c
  | RDelayStream c => DelayStream.GetType c
  end.
Definition GetIdService {Value} (r : StreamConfigRef Value) : Z :=
  match r with
  | RInputStream c => InputStream.idService c
  | RSubStream c => SubStream.idService c
  | RMapStream c => MapStream.idService c
  | RFilterStream c => FilterStream.idService c
  | RJoinStream c => JoinStream.idService c
  | RMultiJoinStream c => MultiJoinStream.idService c
  | RProcessStream c => ProcessStream.idService c
  | RFlatMapStream c => FlatMapStream.idService c
  | RFlatMapIterableStream c => FlatMapIterableStream.idService c
  | RKeyByStream c => KeyByStream.idService c
  | RMergeStream c => MergeStream.idService c
  | RSplitStream c => SplitStream.idService c
  | RCaseStream c => CaseStream.idService c
  | RWhenStream c => WhenStream.idService c
  | RSinkStream c => SinkStream.idService c
  | RCycleLinkStream c => CycleLinkStream.idService c
  | RDelayStream c => DelayStream.idService c
  end.
Definition GetIdSource {Value} (r : StreamConfigRef Value) : Z :=
  match r with
  | RInputStream c => InputStream.idSource c
  | RSubStream c => SubStream.idSource c
  | RMapStream c => MapStream.idSource c
  | RFilterStream c => FilterStream.idSource c
  | RJoinStream c => JoinStream.idSource c
  | RMultiJoinStream c => MultiJoinStream.idSource c
  | RProcessStream c => ProcessStream.idSource c
  | RFlatMapStream c => FlatMapStream.idSource c
  | RFlatMapIterableStream c => FlatMapIterableStream.idSource c
  | RKeyByStream c => KeyByStream.idSource c
  | RMergeStream _ => 0
  | RSplitStream c => SplitStream.idSource c
  | RCaseStream c => CaseStream.idSource c
  | RWhenStream c => WhenStream.idSource c
  | RSinkStream c => SinkStream.idSource c
  | RCycleLinkStream c => CycleLinkStream.idSource c
  | RDelayStream c => DelayStream.idSource c
  end.
Definition GetIdSources {Value} (r : StreamConfigRef Value) : list Z :=
  match r with
  | RInputStream c => InputStream.idSources c
  | RSubStream _ => []
  | RMapStream _ => []
  | RFilterStream _ => []
  | RJoinStream c => JoinStream.idSources c
  | RMultiJoinStream c => MultiJoinStream.idSources c
  | RProcessStream _ => []
  | RFlatMapStream _ => []
  | RFlatMapIterableStream _ => []
  | RKeyByStream _ => []
  | RMergeStream c => MergeStream.idSources c
  | RSplitStream _ => []
  | RCaseStream _ => []
  | RWhenStream _ => []
  | RSinkStream _ => []
  | RCycleLinkStream _ => []
  | RDelayStream _ => []
  end.
Definition GetXPos {Value} (r : StreamConfigRef Value) : spec_float :=
  match r with
  | RInputStream c => InputStream.xPos c
  | RSubStream c => SubStream.xPos c
  | RMapStream c => MapStream.xPos c
  | RFilterStream c => FilterStream.xPos c
  | RJoinStream c => JoinStream.xPos c
  | RMultiJoinStream c => MultiJoinStream.xPos c
  | RProcessStream c => ProcessStream.xPos c
  | RFlatMapStream c => FlatMapStream.xPos c
  | RFlatMapIterableStream c => FlatMapIterableStream.xPos c
  | RKeyByStream c => KeyByStream.xPos c
  | RMergeStream c => MergeStream.xPos c
  | RSplitStream c => SplitStream.xPos c
  | RCaseStream c => CaseStream.xPos c
  | RWhenStream c => WhenStream.xPos c
  | RSinkStream c => SinkStream.xPos c
  | RCycleLinkStream c => CycleLinkStream.xPos c
  | RDelayStream c => DelayStream.xPos c
  end.
Definition GetYPos {Value} (r : StreamConfigRef Value) : spec_float :=
  match r with
  | RInputStream c => InputStream.yPos c
  | RSubStream c => SubStream.yPos c
  | RMapStream c => MapStream.yPos c
  | RFilterStream c => FilterStream.yPos c
  | RJoinStream c => JoinStream.yPos c
  | RMultiJoinStream c => MultiJoinStream.yPos c
  | RProcessStream c => ProcessStream.yPos c
  | RFlatMapStream c => FlatMapStream.yPos c
  | RFlatMapIterableStream c => FlatMapIterableStream.yPos c
  | RKeyByStream c => KeyByStream.yPos c
  | RMergeStream c => MergeStream.yPos c
  | RSplitStream c => SplitStream.yPos c
  | RCaseStream c => CaseStream.yPos c
  | RWhenStream c => WhenStream.yPos c
  | RSinkStream c => SinkStream.yPos c
  | RCycleLinkStream c => CycleLinkStream.yPos c
  | RDelayStream c => DelayStream.yPos c
  end.
