(* ===== verification/EndpointTypes.v ===== *)
(** * The configuration of the endpoints

    runtime/config/endpoint_types.hpp, laid out as the streams are. *)
From Stdlib Require Import ZArith.
From Stdlib Require Import SpecFloat.
From stdpp Require Import strings gmap list.
From S2P Require Import Prelude RuntimeConfig JoinOperators ServiceApi ConfigYaml.
Local Open Scope string_scope.
Local Open Scope list_scope.
Local Open Scope Z_scope.
Local Open Scope result_scope.
#[local] Set Implicit Arguments.

Module HttpEndpoint.
Record HttpEndpointConfig (Value : Type) := mk {
  id : Z;
  name : string;
  idDataConnector : Z;
  tracingEnabled : bool;
  httpMethodType : HTTPMethodType.HTTPMethodType;
  path : string;
  functionName : string;
  functionPackage : string;
  publicFunction : bool;
  functionDescription : string;
  functionInitializerGroup : string;
  functionModule : string;
  properties : PropertiesMap Value;
}.
Definition init {Value} : HttpEndpointConfig Value :=
  {| id := 0; name := ""; idDataConnector := 0; tracingEnabled := false; httpMethodType := HTTPMethodType.kUndefined;
      path := ""; functionName := ""; functionPackage := ""; publicFunction := false; functionDescription := "";
      functionInitializerGroup := ""; functionModule := ""; properties := ∅ |}.
Definition GetType {Value} (c : HttpEndpointConfig Value) : Config.DataConnectorType := Config.kHTTP.
Definition GetProperty {Value} (c : HttpEndpointConfig Value) (propName : string) : option Value :=
  FindProperty (properties c) propName.
Definition Parse {Value} `{YamlRead Value} (value : Value) : result ParseError (HttpEndpointConfig Value) :=
  let? id := As KInt value "id" 0 in
  let? name := As KString value "name" "" in
  let? idDataConnector := As KInt value "idDataConnector" 0 in
  let? tracingEnabled := As KBool value "tracingEnabled" false in
  let? httpMethodType := As (KEnum EHTTPMethodType) value "httpMethodType" HTTPMethodType.kUndefined in
  let? path := As KString value "path" "" in
  let? functions := ParseFunctionFields value in
  let properties := ParseRemainingProperties value
      ["id"; "name"; "idDataConnector"; "tracingEnabled"; "httpMethodType"; "path"; "functionName"; "functionPackage";
       "publicFunction"; "functionDescription"; "functionInitializerGroup"; "functionModule"] ∅ in
  Ok {| id := id; name := name; idDataConnector := idDataConnector; tracingEnabled := tracingEnabled;
        httpMethodType := httpMethodType; path := path; functionName := Functions.functionName functions;
        functionPackage := Functions.functionPackage functions; publicFunction := Functions.publicFunction functions;
        functionDescription := Functions.functionDescription functions;
        functionInitializerGroup := Functions.functionInitializerGroup functions;
        functionModule := Functions.functionModule functions; properties := properties |}.
End HttpEndpoint.

Module GrpcEndpoint.
Record GrpcEndpointConfig (Value : Type) := mk {
  id : Z;
  name : string;
  idDataConnector : Z;
  tracingEnabled : bool;
  grpcMethodType : GrpcMethodType.GrpcMethodType;
  methodName : string;
  functionName : string;
  functionPackage : string;
  publicFunction : bool;
  functionDescription : string;
  functionInitializerGroup : string;
  functionModule : string;
  properties : PropertiesMap Value;
}.
Definition init {Value} : GrpcEndpointConfig Value :=
  {| id := 0; name := ""; idDataConnector := 0; tracingEnabled := false; grpcMethodType := GrpcMethodType.kUndefined;
      methodName := ""; functionName := ""; functionPackage := ""; publicFunction := false; functionDescription := "";
      functionInitializerGroup := ""; functionModule := ""; properties := ∅ |}.
Definition GetType {Value} (c : GrpcEndpointConfig Value) : Config.DataConnectorType := Config.kGRPC.
Definition GetProperty {Value} (c : GrpcEndpointConfig Value) (propName : string) : option Value :=
  FindProperty (properties c) propName.
Definition Parse {Value} `{YamlRead Value} (value : Value) : result ParseError (GrpcEndpointConfig Value) :=
  let? id := As KInt value "id" 0 in
  let? name := As KString value "name" "" in
  let? idDataConnector := As KInt value "idDataConnector" 0 in
  let? tracingEnabled := As KBool value "tracingEnabled" false in
  let? grpcMethodType := As (KEnum EGrpcMethodType) value "grpcMethodType" GrpcMethodType.kUndefined in
  let? methodName := As KString value "methodName" "" in
  let? functions := ParseFunctionFields value in
  let properties := ParseRemainingProperties value
      ["id"; "name"; "idDataConnector"; "tracingEnabled"; "grpcMethodType"; "methodName"; "functionName";
       "functionPackage"; "publicFunction"; "functionDescription"; "functionInitializerGroup"; "functionModule"] ∅ in
  Ok {| id := id; name := name; idDataConnector := idDataConnector; tracingEnabled := tracingEnabled;
        grpcMethodType := grpcMethodType; methodName := methodName; functionName := Functions.functionName functions;
        functionPackage := Functions.functionPackage functions; publicFunction := Functions.publicFunction functions;
        functionDescription := Functions.functionDescription functions;
        functionInitializerGroup := Functions.functionInitializerGroup functions;
        functionModule := Functions.functionModule functions; properties := properties |}.
End GrpcEndpoint.

Module KafkaEndpoint.
Record KafkaEndpointConfig (Value : Type) := mk {
  id : Z;
  name : string;
  idDataConnector : Z;
  tracingEnabled : bool;
  enabled : bool;
  createTopic : bool;
  topic : string;
  partitions : Z;
  consumerGroup : string;
  replicationFactor : Z;
  functionName : string;
  functionPackage : string;
  publicFunction : bool;
  functionDescription : string;
  functionInitializerGroup : string;
  functionModule : string;
  properties : PropertiesMap Value;
}.
Definition init {Value} : KafkaEndpointConfig Value :=
  {| id := 0; name := ""; idDataConnector := 0; tracingEnabled := false; enabled := false; createTopic := false;
      topic := ""; partitions := 0; consumerGroup := ""; replicationFactor := 0; functionName := "";
      functionPackage := ""; publicFunction := false; functionDescription := ""; functionInitializerGroup := "";
      functionModule := ""; properties := ∅ |}.
Definition GetType {Value} (c : KafkaEndpointConfig Value) : Config.DataConnectorType := Config.kKafka.
Definition GetProperty {Value} (c : KafkaEndpointConfig Value) (propName : string) : option Value :=
  FindProperty (properties c) propName.
Definition Parse {Value} `{YamlRead Value} (value : Value) : result ParseError (KafkaEndpointConfig Value) :=
  let? id := As KInt value "id" 0 in
  let? name := As KString value "name" "" in
  let? idDataConnector := As KInt value "idDataConnector" 0 in
  let? tracingEnabled := As KBool value "tracingEnabled" false in
  let? enabled := As KBool value "enabled" false in
  let? createTopic := As KBool value "createTopic" false in
  let? topic := As KString value "topic" "" in
  let? partitions := As KInt value "partitions" 0 in
  let? consumerGroup := As KString value "consumerGroup" "" in
  let? replicationFactor := As KInt value "replicationFactor" 0 in
  let? functions := ParseFunctionFields value in
  let properties := ParseRemainingProperties value
      ["id"; "name"; "idDataConnector"; "tracingEnabled"; "enabled"; "createTopic"; "topic"; "partitions";
       "consumerGroup"; "replicationFactor"; "functionName"; "functionPackage"; "publicFunction";
       "functionDescription"; "functionInitializerGroup"; "functionModule"] ∅ in
  Ok {| id := id; name := name; idDataConnector := idDataConnector; tracingEnabled := tracingEnabled; enabled := enabled;
        createTopic := createTopic; topic := topic; partitions := partitions; consumerGroup := consumerGroup;
        replicationFactor := replicationFactor; functionName := Functions.functionName functions;
        functionPackage := Functions.functionPackage functions; publicFunction := Functions.publicFunction functions;
        functionDescription := Functions.functionDescription functions;
        functionInitializerGroup := Functions.functionInitializerGroup functions;
        functionModule := Functions.functionModule functions; properties := properties |}.
End KafkaEndpoint.

Module CronEndpoint.
Record CronEndpointConfig (Value : Type) := mk {
  id : Z;
  name : string;
  idDataConnector : Z;
  tracingEnabled : bool;
  enabled : bool;
  schedule : string;
  timezone : string;
  overlapPolicy : ScheduleOverlapPolicy.ScheduleOverlapPolicy;
  missedRunPolicy : ScheduleMissedRunPolicy.ScheduleMissedRunPolicy;
  functionName : string;
  functionPackage : string;
  publicFunction : bool;
  functionDescription : string;
  functionInitializerGroup : string;
  functionModule : string;
  properties : PropertiesMap Value;
}.
Definition init {Value} : CronEndpointConfig Value :=
  {| id := 0; name := ""; idDataConnector := 0; tracingEnabled := false; enabled := false; schedule := "";
      timezone := "UTC"; overlapPolicy := ScheduleOverlapPolicy.kSkip;
      missedRunPolicy := ScheduleMissedRunPolicy.kSkip; functionName := ""; functionPackage := "";
      publicFunction := false; functionDescription := ""; functionInitializerGroup := ""; functionModule := "";
      properties := ∅ |}.
Definition GetType {Value} (c : CronEndpointConfig Value) : Config.DataConnectorType := Config.kCron.
Definition GetProperty {Value} (c : CronEndpointConfig Value) (propName : string) : option Value :=
  FindProperty (properties c) propName.
Definition Parse {Value} `{YamlRead Value} (value : Value) : result ParseError (CronEndpointConfig Value) :=
  let? id := As KInt value "id" 0 in
  let? name := As KString value "name" "" in
  let? idDataConnector := As KInt value "idDataConnector" 0 in
  let? tracingEnabled := As KBool value "tracingEnabled" false in
  let? enabled := As KBool value "enabled" false in
  let? schedule := As KString value "schedule" "" in
  let? timezone := As KString value "timezone" "UTC" in
  let? _ := (if negb (String.eqb timezone "UTC") then Err (InvalidArgument "scheduled endpoint timezone must be UTC") else Ok tt) in
  let? overlapPolicy := As (KEnum EScheduleOverlapPolicy) value "overlapPolicy" ScheduleOverlapPolicy.kSkip in
  let? missedRunPolicy := As (KEnum EScheduleMissedRunPolicy) value "missedRunPolicy" ScheduleMissedRunPolicy.kSkip in
  let? functions := ParseFunctionFields value in
  let properties := ParseRemainingProperties value
      ["id"; "name"; "idDataConnector"; "tracingEnabled"; "enabled"; "schedule"; "timezone"; "overlapPolicy";
       "missedRunPolicy"; "functionName"; "functionPackage"; "publicFunction"; "functionDescription";
       "functionInitializerGroup"; "functionModule"] ∅ in
  Ok {| id := id; name := name; idDataConnector := idDataConnector; tracingEnabled := tracingEnabled; enabled := enabled;
        schedule := schedule; timezone := timezone; overlapPolicy := overlapPolicy;
        missedRunPolicy := missedRunPolicy; functionName := Functions.functionName functions;
        functionPackage := Functions.functionPackage functions; publicFunction := Functions.publicFunction functions;
        functionDescription := Functions.functionDescription functions;
        functionInitializerGroup := Functions.functionInitializerGroup functions;
        functionModule := Functions.functionModule functions; properties := properties |}.
End CronEndpoint.

Module TemporalEndpoint.
Record TemporalEndpointConfig (Value : Type) := mk {
  id : Z;
  name : string;
  idDataConnector : Z;
  tracingEnabled : bool;
  enabled : bool;
  taskQueue : string;
  temporalExecutionType : TemporalExecutionType.TemporalExecutionType;
  schedule : string;
  scheduleId : string;
  timezone : string;
  overlapPolicy : ScheduleOverlapPolicy.ScheduleOverlapPolicy;
  missedRunPolicy : ScheduleMissedRunPolicy.ScheduleMissedRunPolicy;
  workflowExecutionTimeout : Z;
  activityStartToCloseTimeout : Z;
  activityHeartbeatTimeout : Z;
  maximumAttempts : Z;
  maxConcurrentActivities : Z;
  maxConcurrentWorkflowTasks : Z;
  functionName : string;
  functionPackage : string;
  publicFunction : bool;
  functionDescription : string;
  functionInitializerGroup : string;
  functionModule : string;
  properties : PropertiesMap Value;
}.
Definition init {Value} : TemporalEndpointConfig Value :=
  {| id := 0; name := ""; idDataConnector := 0; tracingEnabled := false; enabled := false; taskQueue := "";
      temporalExecutionType := TemporalExecutionType.kActivity; schedule := ""; scheduleId := ""; timezone := "UTC";
      overlapPolicy := ScheduleOverlapPolicy.kSkip; missedRunPolicy := ScheduleMissedRunPolicy.kSkip;
      workflowExecutionTimeout := 0; activityStartToCloseTimeout := 0; activityHeartbeatTimeout := 0;
      maximumAttempts := 0; maxConcurrentActivities := 0; maxConcurrentWorkflowTasks := 0; functionName := "";
      functionPackage := ""; publicFunction := false; functionDescription := ""; functionInitializerGroup := "";
      functionModule := ""; properties := ∅ |}.
Definition GetType {Value} (c : TemporalEndpointConfig Value) : Config.DataConnectorType := Config.kTemporal.
Definition GetProperty {Value} (c : TemporalEndpointConfig Value) (propName : string) : option Value :=
  FindProperty (properties c) propName.
Definition Parse {Value} `{YamlRead Value} (value : Value) : result ParseError (TemporalEndpointConfig Value) :=
  let? id := As KInt value "id" 0 in
  let? name := As KString value "name" "" in
  let? idDataConnector := As KInt value "idDataConnector" 0 in
  let? tracingEnabled := As KBool value "tracingEnabled" false in
  let? enabled := As KBool value "enabled" false in
  let? taskQueue := As KString value "taskQueue" "" in
  let? temporalExecutionType := As (KEnum ETemporalExecutionType) value "temporalExecutionType" TemporalExecutionType.kActivity in
  let? schedule := As KString value "schedule" "" in
  let? scheduleId := As KString value "scheduleId" "" in
  let? timezone := As KString value "timezone" "UTC" in
  let? _ := (if negb (String.eqb timezone "UTC") then Err (InvalidArgument "scheduled endpoint timezone must be UTC") else Ok tt) in
  let? overlapPolicy := As (KEnum EScheduleOverlapPolicy) value "overlapPolicy" ScheduleOverlapPolicy.kSkip in
  let? missedRunPolicy := As (KEnum EScheduleMissedRunPolicy) value "missedRunPolicy" ScheduleMissedRunPolicy.kSkip in
  let? workflowExecutionTimeout := As KInt value "workflowExecutionTimeout" 0 in
  let? activityStartToCloseTimeout := As KInt value "activityStartToCloseTimeout" 0 in
  let? activityHeartbeatTimeout := As KInt value "activityHeartbeatTimeout" 0 in
  let? maximumAttempts := As KInt value "maximumAttempts" 0 in
  let? maxConcurrentActivities := As KInt value "maxConcurrentActivities" 0 in
  let? maxConcurrentWorkflowTasks := As KInt value "maxConcurrentWorkflowTasks" 0 in
  let? functions := ParseFunctionFields value in
  let properties := ParseRemainingProperties value
      ["id"; "name"; "idDataConnector"; "tracingEnabled"; "enabled"; "taskQueue"; "temporalExecutionType"; "schedule";
       "scheduleId"; "timezone"; "overlapPolicy"; "missedRunPolicy"; "workflowExecutionTimeout";
       "activityStartToCloseTimeout"; "activityHeartbeatTimeout"; "maximumAttempts"; "maxConcurrentActivities";
       "maxConcurrentWorkflowTasks"; "functionName"; "functionPackage"; "publicFunction"; "functionDescription";
       "functionInitializerGroup"; "functionModule"] ∅ in
  Ok {| id := id; name := name; idDataConnector := idDataConnector; tracingEnabled := tracingEnabled; enabled := enabled;
        taskQueue := taskQueue; temporalExecutionType := temporalExecutionType; schedule := schedule;
        scheduleId := scheduleId; timezone := timezone; overlapPolicy := overlapPolicy;
        missedRunPolicy := missedRunPolicy; workflowExecutionTimeout := workflowExecutionTimeout;
        activityStartToCloseTimeout := activityStartToCloseTimeout;
        activityHeartbeatTimeout := activityHeartbeatTimeout; maximumAttempts := maximumAttempts;
        maxConcurrentActivities := maxConcurrentActivities; maxConcurrentWorkflowTasks := maxConcurrentWorkflowTasks;
        functionName := Functions.functionName functions; functionPackage := Functions.functionPackage functions;
        publicFunction := Functions.publicFunction functions;
        functionDescription := Functions.functionDescription functions;
        functionInitializerGroup := Functions.functionInitializerGroup functions;
        functionModule := Functions.functionModule functions; properties := properties |}.
End TemporalEndpoint.

Module CustomEndpoint.
Record CustomEndpointConfig (Value : Type) := mk {
  id : Z;
  name : string;
  idDataConnector : Z;
  tracingEnabled : bool;
  enabled : bool;
  functionName : string;
  functionPackage : string;
  publicFunction : bool;
  functionDescription : string;
  functionInitializerGroup : string;
  functionModule : string;
  properties : PropertiesMap Value;
}.
Definition init {Value} : CustomEndpointConfig Value :=
  {| id := 0; name := ""; idDataConnector := 0; tracingEnabled := false; enabled := false; functionName := "";
      functionPackage := ""; publicFunction := false; functionDescription := ""; functionInitializerGroup := "";
      functionModule := ""; properties := ∅ |}.
Definition GetType {Value} (c : CustomEndpointConfig Value) : Config.DataConnectorType := Config.kCustom.
Definition GetProperty {Value} (c : CustomEndpointConfig Value) (propName : string) : option Value :=
  FindProperty (properties c) propName.
Definition Parse {Value} `{YamlRead Value} (value : Value) : result ParseError (CustomEndpointConfig Value) :=
  let? id := As KInt value "id" 0 in
  let? name := As KString value "name" "" in
  let? idDataConnector := As KInt value "idDataConnector" 0 in
  let? tracingEnabled := As KBool value "tracingEnabled" false in
  let? enabled := As KBool value "enabled" false in
  let? functions := ParseFunctionFields value in
  let properties := ParseRemainingProperties value
      ["id"; "name"; "idDataConnector"; "tracingEnabled"; "enabled"; "functionName"; "functionPackage";
       "publicFunction"; "functionDescription"; "functionInitializerGroup"; "functionModule"] ∅ in
  Ok {| id := id; name := name; idDataConnector := idDataConnector; tracingEnabled := tracingEnabled; enabled := enabled;
        functionName := Functions.functionName functions; functionPackage := Functions.functionPackage functions;
        publicFunction := Functions.publicFunction functions;
        functionDescription := Functions.functionDescription functions;
        functionInitializerGroup := Functions.functionInitializerGroup functions;
        functionModule := Functions.functionModule functions; properties := properties |}.
End CustomEndpoint.

(** ** The reference the runtime holds *)
Inductive EndpointConfigRef (Value : Type) :=
  | RHttpEndpoint (c : HttpEndpoint.HttpEndpointConfig Value)
  | RGrpcEndpoint (c : GrpcEndpoint.GrpcEndpointConfig Value)
  | RKafkaEndpoint (c : KafkaEndpoint.KafkaEndpointConfig Value)
  | RCronEndpoint (c : CronEndpoint.CronEndpointConfig Value)
  | RTemporalEndpoint (c : TemporalEndpoint.TemporalEndpointConfig Value)
  | RCustomEndpoint (c : CustomEndpoint.CustomEndpointConfig Value).
Definition GetID {Value} (r : EndpointConfigRef Value) : Z :=
  match r with
  | RHttpEndpoint c => HttpEndpoint.id c
  | RGrpcEndpoint c => GrpcEndpoint.id c
  | RKafkaEndpoint c => KafkaEndpoint.id c
  | RCronEndpoint c => CronEndpoint.id c
  | RTemporalEndpoint c => TemporalEndpoint.id c
  | RCustomEndpoint c => CustomEndpoint.id c
  end.
Definition GetName {Value} (r : EndpointConfigRef Value) : string :=
  match r with
  | RHttpEndpoint c => HttpEndpoint.name c
  | RGrpcEndpoint c => GrpcEndpoint.name c
  | RKafkaEndpoint c => KafkaEndpoint.name c
  | RCronEndpoint c => CronEndpoint.name c
  | RTemporalEndpoint c => TemporalEndpoint.name c
  | RCustomEndpoint c => CustomEndpoint.name c
  end.
Definition GetIdDataConnector {Value} (r : EndpointConfigRef Value) : Z :=
  match r with
  | RHttpEndpoint c => HttpEndpoint.idDataConnector c
  | RGrpcEndpoint c => GrpcEndpoint.idDataConnector c
  | RKafkaEndpoint c => KafkaEndpoint.idDataConnector c
  | RCronEndpoint c => CronEndpoint.idDataConnector c
  | RTemporalEndpoint c => TemporalEndpoint.idDataConnector c
  | RCustomEndpoint c => CustomEndpoint.idDataConnector c
  end.
Definition GetTracingEnabled {Value} (r : EndpointConfigRef Value) : bool :=
  match r with
  | RHttpEndpoint c => HttpEndpoint.tracingEnabled c
  | RGrpcEndpoint c => GrpcEndpoint.tracingEnabled c
  | RKafkaEndpoint c => KafkaEndpoint.tracingEnabled c
  | RCronEndpoint c => CronEndpoint.tracingEnabled c
  | RTemporalEndpoint c => TemporalEndpoint.tracingEnabled c
  | RCustomEndpoint c => CustomEndpoint.tracingEnabled c
  end.
Definition GetType {Value} (r : EndpointConfigRef Value) : Config.DataConnectorType :=
  match r with
  | RHttpEndpoint c => HttpEndpoint.GetType c
  | RGrpcEndpoint c => GrpcEndpoint.GetType c
  | RKafkaEndpoint c => KafkaEndpoint.GetType c
  | RCronEndpoint c => CronEndpoint.GetType c
  | RTemporalEndpoint c => TemporalEndpoint.GetType c
  | RCustomEndpoint c => CustomEndpoint.GetType c
  end.
