(* ===== verification/ConnectorTypes.v ===== *)
(** * The configuration of the data connectors

    runtime/config/dataconnector_types.hpp, laid out as the streams are. *)
From Stdlib Require Import ZArith.
From Stdlib Require Import SpecFloat.
From stdpp Require Import strings gmap list.
From S2P Require Import Prelude RuntimeConfig JoinOperators ServiceApi ConfigYaml.
Local Open Scope string_scope.
Local Open Scope list_scope.
Local Open Scope Z_scope.
Local Open Scope result_scope.
#[local] Set Implicit Arguments.

Module HttpDataConnector.
Record HttpDataConnectorConfig (Value : Type) := mk {
  id : Z;
  name : string;
  implementation : DataConnectorImplementation.DataConnectorImplementation;
  module : string;
  host : string;
  port : Z;
  useDedicatedListener : bool;
  properties : PropertiesMap Value;
}.
Definition init {Value} : HttpDataConnectorConfig Value :=
  {| id := 0; name := ""; implementation := DataConnectorImplementation.kUndefined; module := ""; host := ""; port := 0;
      useDedicatedListener := false; properties := ∅ |}.
Definition GetType {Value} (c : HttpDataConnectorConfig Value) : Config.DataConnectorType := Config.kHTTP.
Definition GetProperty {Value} (c : HttpDataConnectorConfig Value) (propName : string) : option Value :=
  FindProperty (properties c) propName.
Definition Parse {Value} `{YamlRead Value} (value : Value) : result ParseError (HttpDataConnectorConfig Value) :=
  let? id := As KInt value "id" 0 in
  let? name := As KString value "name" "" in
  let? implementation := As (KEnum EDataConnectorImplementation) value "implementation" DataConnectorImplementation.kUndefined in
  let? module := As KString value "module" "" in
  let? host := As KString value "host" "" in
  let? port := As KInt value "port" 0 in
  let? useDedicatedListener := As KBool value "useDedicatedListener" false in
  let properties := ParseRemainingProperties value
      ["id"; "name"; "implementation"; "module"; "host"; "port"; "useDedicatedListener"] ∅ in
  Ok {| id := id; name := name; implementation := implementation; module := module; host := host; port := port;
        useDedicatedListener := useDedicatedListener; properties := properties |}.
End HttpDataConnector.

Module GrpcDataConnector.
Record GrpcDataConnectorConfig (Value : Type) := mk {
  id : Z;
  name : string;
  implementation : DataConnectorImplementation.DataConnectorImplementation;
  programmingLanguage : ProgrammingLanguage.ProgrammingLanguage;
  module : string;
  address : string;
  connectionsCount : Z;
  properties : PropertiesMap Value;
}.
Definition init {Value} : GrpcDataConnectorConfig Value :=
  {| id := 0; name := ""; implementation := DataConnectorImplementation.kUndefined;
      programmingLanguage := ProgrammingLanguage.kUndefined; module := ""; address := ""; connectionsCount := 1;
      properties := ∅ |}.
Definition GetType {Value} (c : GrpcDataConnectorConfig Value) : Config.DataConnectorType := Config.kGRPC.
Definition GetProperty {Value} (c : GrpcDataConnectorConfig Value) (propName : string) : option Value :=
  FindProperty (properties c) propName.
Definition Parse {Value} `{YamlRead Value} (value : Value) : result ParseError (GrpcDataConnectorConfig Value) :=
  let? id := As KInt value "id" 0 in
  let? name := As KString value "name" "" in
  let? implementation := As (KEnum EDataConnectorImplementation) value "implementation" DataConnectorImplementation.kUndefined in
  let? programmingLanguage := As (KEnum EProgrammingLanguage) value "programmingLanguage" ProgrammingLanguage.kUndefined in
  let? module := As KString value "module" "" in
  let? address := As KString value "address" "" in
  let? connectionsCount := As KInt value "connectionsCount" 1 in
  let? _ := (if connectionsCount <? 1 then Err (InvalidArgument "gRPC connectionsCount must be at least 1") else Ok tt) in
  let properties := ParseRemainingProperties value
      ["id"; "name"; "implementation"; "programmingLanguage"; "module"; "address"; "connectionsCount"] ∅ in
  Ok {| id := id; name := name; implementation := implementation; programmingLanguage := programmingLanguage;
        module := module; address := address; connectionsCount := connectionsCount; properties := properties |}.
End GrpcDataConnector.

Module KafkaDataConnector.
Record KafkaDataConnectorConfig (Value : Type) := mk {
  id : Z;
  name : string;
  implementation : DataConnectorImplementation.DataConnectorImplementation;
  programmingLanguage : ProgrammingLanguage.ProgrammingLanguage;
  brokers : string;
  version : string;
  dialTimeout : spec_float;
  usePartitioner : bool;
  async : bool;
  securityProtocol : KafkaSecurityProtocol.KafkaSecurityProtocol;
  saslMechanism : KafkaSaslMechanism.KafkaSaslMechanism;
  username : string;
  password : string;
  properties : PropertiesMap Value;
}.
Definition init {Value} : KafkaDataConnectorConfig Value :=
  {| id := 0; name := ""; implementation := DataConnectorImplementation.kUndefined;
      programmingLanguage := ProgrammingLanguage.kUndefined; brokers := ""; version := "";
      dialTimeout := (S754_zero false); usePartitioner := false; async := false;
      securityProtocol := KafkaSecurityProtocol.kPLAINTEXT; saslMechanism := KafkaSaslMechanism.kPLAIN;
      username := ""; password := ""; properties := ∅ |}.
Definition GetType {Value} (c : KafkaDataConnectorConfig Value) : Config.DataConnectorType := Config.kKafka.
Definition GetProperty {Value} (c : KafkaDataConnectorConfig Value) (propName : string) : option Value :=
  FindProperty (properties c) propName.
Definition Parse {Value} `{YamlRead Value} (value : Value) : result ParseError (KafkaDataConnectorConfig Value) :=
  let? id := As KInt value "id" 0 in
  let? name := As KString value "name" "" in
  let? implementation := As (KEnum EDataConnectorImplementation) value "implementation" DataConnectorImplementation.kUndefined in
  let? programmingLanguage := As (KEnum EProgrammingLanguage) value "programmingLanguage" ProgrammingLanguage.kUndefined in
  let? brokers := As KString value "brokers" "" in
  let? version := As KString value "version" "" in
  let? dialTimeout := As KFloat value "dialTimeout" (S754_zero false) in
  let? usePartitioner := As KBool value "usePartitioner" false in
  let? async := As KBool value "async" false in
  let? securityProtocol := As (KEnum EKafkaSecurityProtocol) value "securityProtocol" KafkaSecurityProtocol.kPLAINTEXT in
  let? saslMechanism := As (KEnum EKafkaSaslMechanism) value "saslMechanism" KafkaSaslMechanism.kPLAIN in
  let? username := As KString value "username" "" in
  let? password := As KString value "password" "" in
  let properties := ParseRemainingProperties value
      ["id"; "name"; "implementation"; "programmingLanguage"; "brokers"; "version"; "dialTimeout"; "usePartitioner";
       "async"; "securityProtocol"; "saslMechanism"; "username"; "password"] ∅ in
  Ok {| id := id; name := name; implementation := implementation; programmingLanguage := programmingLanguage;
        brokers := brokers; version := version; dialTimeout := dialTimeout; usePartitioner := usePartitioner;
        async := async; securityProtocol := securityProtocol; saslMechanism := saslMechanism; username := username;
        password := password; properties := properties |}.
End KafkaDataConnector.

Module CronDataConnector.
Record CronDataConnectorConfig (Value : Type) := mk {
  id : Z;
  name : string;
  implementation : DataConnectorImplementation.DataConnectorImplementation;
  properties : PropertiesMap Value;
}.
Definition init {Value} : CronDataConnectorConfig Value :=
  {| id := 0; name := ""; implementation := DataConnectorImplementation.kUndefined; properties := ∅ |}.
Definition GetType {Value} (c : CronDataConnectorConfig Value) : Config.DataConnectorType := Config.kCron.
Definition GetProperty {Value} (c : CronDataConnectorConfig Value) (propName : string) : option Value :=
  FindProperty (properties c) propName.
Definition Parse {Value} `{YamlRead Value} (value : Value) : result ParseError (CronDataConnectorConfig Value) :=
  let? id := As KInt value "id" 0 in
  let? name := As KString value "name" "" in
  let? implementation := As (KEnum EDataConnectorImplementation) value "implementation" DataConnectorImplementation.kUndefined in
  let properties := ParseRemainingProperties value
      ["id"; "name"; "implementation"] ∅ in
  Ok {| id := id; name := name; implementation := implementation; properties := properties |}.
End CronDataConnector.

Module TemporalDataConnector.
Record TemporalDataConnectorConfig (Value : Type) := mk {
  id : Z;
  name : string;
  implementation : DataConnectorImplementation.DataConnectorImplementation;
  address : string;
  namespaceName : string;
  identity : string;
  apiKey : string;
  tlsEnabled : bool;
  tlsServerName : string;
  tlsCaFile : string;
  tlsCertFile : string;
  tlsKeyFile : string;
  workerStopTimeout : Z;
  properties : PropertiesMap Value;
}.
Definition init {Value} : TemporalDataConnectorConfig Value :=
  {| id := 0; name := ""; implementation := DataConnectorImplementation.kUndefined; address := ""; namespaceName := "";
      identity := ""; apiKey := ""; tlsEnabled := false; tlsServerName := ""; tlsCaFile := ""; tlsCertFile := "";
      tlsKeyFile := ""; workerStopTimeout := 0; properties := ∅ |}.
Definition GetType {Value} (c : TemporalDataConnectorConfig Value) : Config.DataConnectorType := Config.kTemporal.
Definition GetProperty {Value} (c : TemporalDataConnectorConfig Value) (propName : string) : option Value :=
  FindProperty (properties c) propName.
Definition Parse {Value} `{YamlRead Value} (value : Value) : result ParseError (TemporalDataConnectorConfig Value) :=
  let? id := As KInt value "id" 0 in
  let? name := As KString value "name" "" in
  let? implementation := As (KEnum EDataConnectorImplementation) value "implementation" DataConnectorImplementation.kUndefined in
  let? address := As KString value "address" "" in
  let? namespaceName := As KString value "namespace" "" in
  let? identity := As KString value "identity" "" in
  let? apiKey := As KString value "apiKey" "" in
  let? tlsEnabled := As KBool value "tlsEnabled" false in
  let? tlsServerName := As KString value "tlsServerName" "" in
  let? tlsCaFile := As KString value "tlsCaFile" "" in
  let? tlsCertFile := As KString value "tlsCertFile" "" in
  let? tlsKeyFile := As KString value "tlsKeyFile" "" in
  let? workerStopTimeout := As KInt value "workerStopTimeout" 0 in
  let properties := ParseRemainingProperties value
      ["id"; "name"; "implementation"; "address"; "namespace"; "identity"; "apiKey"; "tlsEnabled"; "tlsServerName";
       "tlsCaFile"; "tlsCertFile"; "tlsKeyFile"; "workerStopTimeout"] ∅ in
  Ok {| id := id; name := name; implementation := implementation; address := address; namespaceName := namespaceName;
        identity := identity; apiKey := apiKey; tlsEnabled := tlsEnabled; tlsServerName := tlsServerName;
        tlsCaFile := tlsCaFile; tlsCertFile := tlsCertFile; tlsKeyFile := tlsKeyFile;
        workerStopTimeout := workerStopTimeout; properties := properties |}.
End TemporalDataConnector.

Module CustomDataConnector.
Record CustomDataConnectorConfig (Value : Type) := mk {
  id : Z;
  name : string;
  implementation : DataConnectorImplementation.DataConnectorImplementation;
  properties : PropertiesMap Value;
}.
Definition init {Value} : CustomDataConnectorConfig Value :=
  {| id := 0; name := ""; implementation := DataConnectorImplementation.kUndefined; properties := ∅ |}.
Definition GetType {Value} (c : CustomDataConnectorConfig Value) : Config.DataConnectorType := Config.kCustom.
Definition GetProperty {Value} (c : CustomDataConnectorConfig Value) (propName : string) : option Value :=
  FindProperty (properties c) propName.
Definition Parse {Value} `{YamlRead Value} (value : Value) : result ParseError (CustomDataConnectorConfig Value) :=
  let? id := As KInt value "id" 0 in
  let? name := As KString value "name" "" in
  let? implementation := As (KEnum EDataConnectorImplementation) value "implementation" DataConnectorImplementation.kUndefined in
  let properties := ParseRemainingProperties value
      ["id"; "name"; "implementation"] ∅ in
  Ok {| id := id; name := name; implementation := implementation; properties := properties |}.
End CustomDataConnector.

(** ** The reference the runtime holds *)
Inductive DataConnectorConfigRef (Value : Type) :=
  | RHttpDataConnector (c : HttpDataConnector.HttpDataConnectorConfig Value)
  | RGrpcDataConnector (c : GrpcDataConnector.GrpcDataConnectorConfig Value)
  | RKafkaDataConnector (c : KafkaDataConnector.KafkaDataConnectorConfig Value)
  | RCronDataConnector (c : CronDataConnector.CronDataConnectorConfig Value)
  | RTemporalDataConnector (c : TemporalDataConnector.TemporalDataConnectorConfig Value)
  | RCustomDataConnector (c : CustomDataConnector.CustomDataConnectorConfig Value).
Definition GetID {Value} (r : DataConnectorConfigRef Value) : Z :=
  match r with
  | RHttpDataConnector c => HttpDataConnector.id c
  | RGrpcDataConnector c => GrpcDataConnector.id c
  | RKafkaDataConnector c => KafkaDataConnector.id c
  | RCronDataConnector c => CronDataConnector.id c
  | RTemporalDataConnector c => TemporalDataConnector.id c
  | RCustomDataConnector c => CustomDataConnector.id c
  end.
Definition GetName {Value} (r : DataConnectorConfigRef Value) : string :=
  match r with
  | RHttpDataConnector c => HttpDataConnector.name c
  | RGrpcDataConnector c => GrpcDataConnector.name c
  | RKafkaDataConnector c => KafkaDataConnector.name c
  | RCronDataConnector c => CronDataConnector.name c
  | RTemporalDataConnector c => TemporalDataConnector.name c
  | RCustomDataConnector c => CustomDataConnector.name c
  end.
Definition GetType {Value} (r : DataConnectorConfigRef Value) : Config.DataConnectorType :=
  match r with
  | RHttpDataConnector c => HttpDataConnector.GetType c
  | RGrpcDataConnector c => GrpcDataConnector.GetType c
  | RKafkaDataConnector c => KafkaDataConnector.GetType c
  | RCronDataConnector c => CronDataConnector.GetType c
  | RTemporalDataConnector c => TemporalDataConnector.GetType c
  | RCustomDataConnector c => CustomDataConnector.GetType c
  end.
Definition GetImplementation {Value} (r : DataConnectorConfigRef Value) : DataConnectorImplementation.DataConnectorImplementation :=
  match r with
  | RHttpDataConnector c => HttpDataConnector.implementation c
  | RGrpcDataConnector c => GrpcDataConnector.implementation c
  | RKafkaDataConnector c => KafkaDataConnector.implementation c
  | RCronDataConnector c => CronDataConnector.implementation c
  | RTemporalDataConnector c => TemporalDataConnector.implementation c
  | RCustomDataConnector c => CustomDataConnector.implementation c
  end.
