(* ===== verification/ServiceTypes.v ===== *)
(** * The configuration of services, pools, modules and types

    The structs of runtime/config/config.hpp and runtime/config/type_types.hpp that are read from
    YAML, laid out as the streams are. *)
From Stdlib Require Import ZArith.
From Stdlib Require Import SpecFloat.
From stdpp Require Import strings gmap list.
From S2P Require Import Prelude RuntimeConfig JoinOperators ServiceApi ConfigYaml LinkTypes.
Local Open Scope string_scope.
Local Open Scope list_scope.
Local Open Scope Z_scope.
Local Open Scope result_scope.
#[local] Set Implicit Arguments.

Module TypeConfig.
Record TypeConfig (Value : Type) := mk {
  name : string;
  type : DataType.DataType;
  typeDefinition : string;
  typeImport : string;
  valueType : string;
  keyType : string;
  package : string;
  module : string;
  definitionFormat : TypeDefinitionFormat.TypeDefinitionFormat;
  publicType : bool;
  transferByValue : bool;
  useAlias : bool;
  properties : PropertiesMap Value;
}.
Definition init {Value} : TypeConfig Value :=
  {| name := ""; type := DataType.kUndefined; typeDefinition := ""; typeImport := ""; valueType := ""; keyType := "";
      package := ""; module := ""; definitionFormat := TypeDefinitionFormat.kUndefined; publicType := false;
      transferByValue := false; useAlias := false; properties := ∅ |}.
Definition GetProperty {Value} (c : TypeConfig Value) (propName : string) : option Value :=
  FindProperty (properties c) propName.
Definition Parse {Value} `{YamlRead Value} (value : Value) : result ParseError (TypeConfig Value) :=
  let? name := As KString value "name" "" in
  let? type := As (KEnum EDataType) value "type" DataType.kUndefined in
  let? typeDefinition := As KString value "typeDefinition" "" in
  let? typeImport := As KString value "typeImport" "" in
  let? valueType := As KString value "valueType" "" in
  let? keyType := As KString value "keyType" "" in
  let? package := As KString value "package" "" in
  let? module := As KString value "module" "" in
  let? definitionFormat := As (KEnum ETypeDefinitionFormat) value "definitionFormat" TypeDefinitionFormat.kUndefined in
  let? publicType := As KBool value "publicType" false in
  let? transferByValue := As KBool value "transferByValue" false in
  let? useAlias := As KBool value "useAlias" false in
  let properties := ParseRemainingProperties value
      ["name"; "type"; "typeDefinition"; "typeImport"; "valueType"; "keyType"; "package"; "module";
       "definitionFormat"; "publicType"; "transferByValue"; "useAlias"] ∅ in
  Ok {| name := name; type := type; typeDefinition := typeDefinition; typeImport := typeImport; valueType := valueType;
        keyType := keyType; package := package; module := module; definitionFormat := definitionFormat;
        publicType := publicType; transferByValue := transferByValue; useAlias := useAlias; properties := properties |}.
End TypeConfig.

Module PoolConfig.
Record PoolConfig (Value : Type) := mk {
  name : string;
  executorsCount : Z;
  queueCapacity : Z;
  properties : PropertiesMap Value;
}.
Definition init {Value} : PoolConfig Value :=
  {| name := ""; executorsCount := 0; queueCapacity := 0; properties := ∅ |}.
Definition GetProperty {Value} (c : PoolConfig Value) (propName : string) : option Value :=
  FindProperty (properties c) propName.
Definition Parse {Value} `{YamlRead Value} (value : Value) : result ParseError (PoolConfig Value) :=
  let? name := As KString value "name" "" in
  let? executorsCount := As KInt value "executorsCount" 0 in
  let? queueCapacity := As KInt value "queueCapacity" 0 in
  let properties := ParseRemainingProperties value
      ["name"; "executorsCount"; "queueCapacity"] ∅ in
  Ok {| name := name; executorsCount := executorsCount; queueCapacity := queueCapacity; properties := properties |}.
End PoolConfig.

Module ModuleConfig.
Record ModuleConfig (Value : Type) := mk {
  name : string;
  path : string;
  properties : PropertiesMap Value;
}.
Definition init {Value} : ModuleConfig Value :=
  {| name := ""; path := ""; properties := ∅ |}.
Definition GetProperty {Value} (c : ModuleConfig Value) (propName : string) : option Value :=
  FindProperty (properties c) propName.
Definition Parse {Value} `{YamlRead Value} (value : Value) : result ParseError (ModuleConfig Value) :=
  let? name := As KString value "name" "" in
  let? path := As KString value "path" "" in
  let properties := ParseRemainingProperties value
      ["name"; "path"] ∅ in
  Ok {| name := name; path := path; properties := properties |}.
End ModuleConfig.

Module ServiceConfig.
Record ServiceConfig (Value : Type) := mk {
  id : Z;
  name : string;
  color : string;
  defaultCallSemantics : option Config.CallSemanticsGroup;
  defaultGrpcTimeout : Z;
  environment : Environment.Environment;
  golangVersion : string;
  grpcHost : string;
  grpcPort : Z;
  httpHost : string;
  httpPort : Z;
  logLevel : LogLevel.LogLevel;
  metricsHandler : string;
  startupHandler : string;
  readinessHandler : string;
  livenessHandler : string;
  kubernetesWorkloadType : KubernetesWorkloadType.KubernetesWorkloadType;
  modulePath : string;
  shutdownTimeout : Z;
  statusHandler : string;
  properties : PropertiesMap Value;
}.
Definition init {Value} : ServiceConfig Value :=
  {| id := 0; name := ""; color := ""; defaultCallSemantics := None; defaultGrpcTimeout := 0;
      environment := Environment.kUndefined; golangVersion := ""; grpcHost := ""; grpcPort := 0; httpHost := "";
      httpPort := 0; logLevel := LogLevel.kUndefined; metricsHandler := ""; startupHandler := "";
      readinessHandler := ""; livenessHandler := ""; kubernetesWorkloadType := KubernetesWorkloadType.kDeployment;
      modulePath := ""; shutdownTimeout := 0; statusHandler := ""; properties := ∅ |}.
Definition GetProperty {Value} (c : ServiceConfig Value) (propName : string) : option Value :=
  FindProperty (properties c) propName.
Definition Parse {Value} `{YamlRead Value} (value : Value) : result ParseError (ServiceConfig Value) :=
  let? id := As KInt value "id" 0 in
  let? name := As KString value "name" "" in
  let? color := As KString value "color" "" in
  let? defaultCallSemantics := SemanticsOf value "defaultCallSemantics" (fun type => MakeCallSemanticsGroup type "" 0 false) in
  let? defaultGrpcTimeout := As KInt value "defaultGrpcTimeout" 0 in
  let? environment := As (KEnum EEnvironment) value "environment" Environment.kUndefined in
  let? golangVersion := As KString value "golangVersion" "" in
  let? grpcHost := As KString value "grpcHost" "" in
  let? grpcPort := As KInt value "grpcPort" 0 in
  let? httpHost := As KString value "httpHost" "" in
  let? httpPort := As KInt value "httpPort" 0 in
  let? logLevel := As (KEnum ELogLevel) value "logLevel" LogLevel.kUndefined in
  let? metricsHandler := As KString value "metricsHandler" "" in
  let? startupHandler := As KString value "startupHandler" "" in
  let? readinessHandler := As KString value "readinessHandler" "" in
  let? livenessHandler := As KString value "livenessHandler" "" in
  let? kubernetesWorkloadType := As (KEnum EKubernetesWorkloadType) value "kubernetesWorkloadType" KubernetesWorkloadType.kDeployment in
  let? modulePath := As KString value "modulePath" "" in
  let? shutdownTimeout := As KInt value "shutdownTimeout" 0 in
  let? statusHandler := As KString value "statusHandler" "" in
  let properties := ParseRemainingProperties value
      ["id"; "name"; "color"; "defaultCallSemantics"; "defaultGrpcTimeout"; "environment"; "golangVersion";
       "grpcHost"; "grpcPort"; "httpHost"; "httpPort"; "logLevel"; "metricsHandler"; "startupHandler";
       "readinessHandler"; "livenessHandler"; "kubernetesWorkloadType"; "modulePath"; "shutdownTimeout";
       "statusHandler"] ∅ in
  Ok {| id := id; name := name; color := color; defaultCallSemantics := defaultCallSemantics;
        defaultGrpcTimeout := defaultGrpcTimeout; environment := environment; golangVersion := golangVersion;
        grpcHost := grpcHost; grpcPort := grpcPort; httpHost := httpHost; httpPort := httpPort; logLevel := logLevel;
        metricsHandler := metricsHandler; startupHandler := startupHandler; readinessHandler := readinessHandler;
        livenessHandler := livenessHandler; kubernetesWorkloadType := kubernetesWorkloadType;
        modulePath := modulePath; shutdownTimeout := shutdownTimeout; statusHandler := statusHandler;
        properties := properties |}.
End ServiceConfig.
