(* ===== verification/ConfigTypes.v ===== *)
(** * What every configuration type reads

    The configuration types of the other files, together: [Parse] is the function that reads each
    from YAML, [init] the struct as its member initialisers leave it.  [members] lists the data
    members of each struct with the key that names each one, and [read_all] reads such a list in
    the plain way: every member from its own key, from its initial value where the key is
    missing or null. *)
From Stdlib Require Import ZArith SpecFloat Lia.
From stdpp Require Import strings gmap list.
From S2P Require Import Prelude ConfigMerge RuntimeConfig ServiceApi ConfigYaml LinkTypes StreamTypes EndpointTypes.
From S2P Require Import ConnectorTypes ServiceTypes.
Local Open Scope string_scope.
Local Open Scope list_scope.
Local Open Scope Z_scope.
Local Open Scope result_scope.

(** ** Members *)

(** Two kinds of member are checked as they are read: a time zone must be UTC, a number of
    connections positive. *)
Inductive FieldType := Plain (k : Kind) | Utc | Positive | Semantics.
Definition fieldT (a : FieldType) : Type :=
  match a with
  | Plain k => kindT k
  | Utc => string
  | Positive => Z
  | Semantics => option Config.CallSemanticsGroup
  end.
Fixpoint tuple (l : list FieldType) : Type :=
  match l with
  | [] => unit
  | a :: l => (fieldT a * tuple l)%type
  end.
Notation "⟨ x , .. , y ⟩" := (pair x .. (pair y tt) ..).

Section Reading.
Context {Value : Type} `{YamlRead Value}.

Definition field_reading (a : FieldType) : fieldT a -> option Value -> option (fieldT a) :=
  match a with
  | Plain k => fun d o => reading k d o
  | Utc => fun d o =>
      match reading KString d o with Some s => if String.eqb s "UTC" then Some s else None | None => None end
  | Positive => fun d o =>
      match reading KInt d o with Some z => if z <? 1 then None else Some z | None => None end
  | Semantics => fun _ o =>
      match SemanticsAt (fun type => MakeCallSemanticsGroup type "" 0 false) "" o with Ok g => Some g | Err _ => None end
  end.
Fixpoint read_all (l : list (string * FieldType)) (look : string -> option Value) : tuple l.*2 -> option (tuple l.*2) :=
  match l with
  | [] => fun _ => Some tt
  | (key, a) :: l => fun d =>
      match field_reading a d.1 (look key), read_all l look d.2 with
      | Some x, Some r => Some (x, r)
      | _, _ => None
      end
  end.
End Reading.

(** ** The configuration types *)
Inductive ConfigType := CInputStream | CSubStream | CMapStream | CFilterStream | CJoinStream | CMultiJoinStream
    | CProcessStream | CFlatMapStream | CFlatMapIterableStream | CKeyByStream | CMergeStream | CSplitStream
    | CCaseStream | CWhenStream | CSinkStream | CCycleLinkStream | CDelayStream | CHttpEndpoint | CGrpcEndpoint
    | CKafkaEndpoint | CCronEndpoint | CTemporalEndpoint | CCustomEndpoint | CHttpDataConnector | CGrpcDataConnector
    | CKafkaDataConnector | CCronDataConnector | CTemporalDataConnector | CCustomDataConnector | CTypeConfig
    | CPoolConfig | CModuleConfig | CServiceConfig.
Definition struct (t : ConfigType) (Value : Type) : Type :=
  match t with
  | CInputStream => InputStream.InputStreamConfig Value
  | CSubStream => SubStream.SubStreamConfig Value
  | CMapStream => MapStream.MapStreamConfig Value
  | CFilterStream => FilterStream.FilterStreamConfig Value
  | CJoinStream => JoinStream.JoinStreamConfig Value
  | CMultiJoinStream => MultiJoinStream.MultiJoinStreamConfig Value
  | CProcessStream => ProcessStream.ProcessStreamConfig Value
  | CFlatMapStream => FlatMapStream.FlatMapStreamConfig Value
  | CFlatMapIterableStream => FlatMapIterableStream.FlatMapIterableStreamConfig Value
  | CKeyByStream => KeyByStream.KeyByStreamConfig Value
  | CMergeStream => MergeStream.MergeStreamConfig Value
  | CSplitStream => SplitStream.SplitStreamConfig Value
  | CCaseStream => CaseStream.CaseStreamConfig Value
  | CWhenStream => WhenStream.WhenStreamConfig Value
  | CSinkStream => SinkStream.SinkStreamConfig Value
  | CCycleLinkStream => CycleLinkStream.CycleLinkStreamConfig Value
  | CDelayStream => DelayStream.DelayStreamConfig Value
  | CHttpEndpoint => HttpEndpoint.HttpEndpointConfig Value
  | CGrpcEndpoint => GrpcEndpoint.GrpcEndpointConfig Value
  | CKafkaEndpoint => KafkaEndpoint.KafkaEndpointConfig Value
  | CCronEndpoint => CronEndpoint.CronEndpointConfig Value
  | CTemporalEndpoint => TemporalEndpoint.TemporalEndpointConfig Value
  | CCustomEndpoint => CustomEndpoint.CustomEndpointConfig Value
  | CHttpDataConnector => HttpDataConnector.HttpDataConnectorConfig Value
  | CGrpcDataConnector => GrpcDataConnector.GrpcDataConnectorConfig Value
  | CKafkaDataConnector => KafkaDataConnector.KafkaDataConnectorConfig Value
  | CCronDataConnector => CronDataConnector.CronDataConnectorConfig Value
  | CTemporalDataConnector => TemporalDataConnector.TemporalDataConnectorConfig Value
  | CCustomDataConnector => CustomDataConnector.CustomDataConnectorConfig Value
  | CTypeConfig => TypeConfig.TypeConfig Value
  | CPoolConfig => PoolConfig.PoolConfig Value
  | CModuleConfig => ModuleConfig.ModuleConfig Value
  | CServiceConfig => ServiceConfig.ServiceConfig Value
  end.
Definition Parse {Value} `{YamlRead Value} (t : ConfigType) : Value -> result ParseError (struct t Value) :=
  match t with
  | CInputStream => InputStream.Parse
  | CSubStream => SubStream.Parse
  | CMapStream => MapStream.Parse
  | CFilterStream => FilterStream.Parse
  | CJoinStream => JoinStream.Parse
  | CMultiJoinStream => MultiJoinStream.Parse
  | CProcessStream => ProcessStream.Parse
  | CFlatMapStream => FlatMapStream.Parse
  | CFlatMapIterableStream => FlatMapIterableStream.Parse
  | CKeyByStream => KeyByStream.Parse
  | CMergeStream => MergeStream.Parse
  | CSplitStream => SplitStream.Parse
  | CCaseStream => CaseStream.Parse
  | CWhenStream => WhenStream.Parse
  | CSinkStream => SinkStream.Parse
  | CCycleLinkStream => CycleLinkStream.Parse
  | CDelayStream => DelayStream.Parse
  | CHttpEndpoint => HttpEndpoint.Parse
  | CGrpcEndpoint => GrpcEndpoint.Parse
  | CKafkaEndpoint => KafkaEndpoint.Parse
  | CCronEndpoint => CronEndpoint.Parse
  | CTemporalEndpoint => TemporalEndpoint.Parse
  | CCustomEndpoint => CustomEndpoint.Parse
  | CHttpDataConnector => HttpDataConnector.Parse
  | CGrpcDataConnector => GrpcDataConnector.Parse
  | CKafkaDataConnector => KafkaDataConnector.Parse
  | CCronDataConnector => CronDataConnector.Parse
  | CTemporalDataConnector => TemporalDataConnector.Parse
  | CCustomDataConnector => CustomDataConnector.Parse
  | CTypeConfig => TypeConfig.Parse
  | CPoolConfig => PoolConfig.Parse
  | CModuleConfig => ModuleConfig.Parse
  | CServiceConfig => ServiceConfig.Parse
  end.
Definition init {Value} (t : ConfigType) : struct t Value :=
  match t with
  | CInputStream => InputStream.init
  | CSubStream => SubStream.init
  | CMapStream => MapStream.init
  | CFilterStream => FilterStream.init
  | CJoinStream => JoinStream.init
  | CMultiJoinStream => MultiJoinStream.init
  | CProcessStream => ProcessStream.init
  | CFlatMapStream => FlatMapStream.init
  | CFlatMapIterableStream => FlatMapIterableStream.init
  | CKeyByStream => KeyByStream.init
  | CMergeStream => MergeStream.init
  | CSplitStream => SplitStream.init
  | CCaseStream => CaseStream.init
  | CWhenStream => WhenStream.init
  | CSinkStream => SinkStream.init
  | CCycleLinkStream => CycleLinkStream.init
  | CDelayStream => DelayStream.init
  | CHttpEndpoint => HttpEndpoint.init
  | CGrpcEndpoint => GrpcEndpoint.init
  | CKafkaEndpoint => KafkaEndpoint.init
  | CCronEndpoint => CronEndpoint.init
  | CTemporalEndpoint => TemporalEndpoint.init
  | CCustomEndpoint => CustomEndpoint.init
  | CHttpDataConnector => HttpDataConnector.init
  | CGrpcDataConnector => GrpcDataConnector.init
  | CKafkaDataConnector => KafkaDataConnector.init
  | CCronDataConnector => CronDataConnector.init
  | CTemporalDataConnector => TemporalDataConnector.init
  | CCustomDataConnector => CustomDataConnector.init
  | CTypeConfig => TypeConfig.init
  | CPoolConfig => PoolConfig.init
  | CModuleConfig => ModuleConfig.init
  | CServiceConfig => ServiceConfig.init
  end.
Definition GetProperty {Value} (t : ConfigType) : struct t Value -> string -> option Value :=
  match t with
  | CInputStream => InputStream.GetProperty (Value := Value)
  | CSubStream => SubStream.GetProperty (Value := Value)
  | CMapStream => MapStream.GetProperty (Value := Value)
  | CFilterStream => FilterStream.GetProperty (Value := Value)
  | CJoinStream => JoinStream.GetProperty (Value := Value)
  | CMultiJoinStream => MultiJoinStream.GetProperty (Value := Value)
  | CProcessStream => ProcessStream.GetProperty (Value := Value)
  | CFlatMapStream => FlatMapStream.GetProperty (Value := Value)
  | CFlatMapIterableStream => FlatMapIterableStream.GetProperty (Value := Value)
  | CKeyByStream => KeyByStream.GetProperty (Value := Value)
  | CMergeStream => MergeStream.GetProperty (Value := Value)
  | CSplitStream => SplitStream.GetProperty (Value := Value)
  | CCaseStream => CaseStream.GetProperty (Value := Value)
  | CWhenStream => WhenStream.GetProperty (Value := Value)
  | CSinkStream => SinkStream.GetProperty (Value := Value)
  | CCycleLinkStream => CycleLinkStream.GetProperty (Value := Value)
  | CDelayStream => DelayStream.GetProperty (Value := Value)
  | CHttpEndpoint => HttpEndpoint.GetProperty (Value := Value)
  | CGrpcEndpoint => GrpcEndpoint.GetProperty (Value := Value)
  | CKafkaEndpoint => KafkaEndpoint.GetProperty (Value := Value)
  | CCronEndpoint => CronEndpoint.GetProperty (Value := Value)
  | CTemporalEndpoint => TemporalEndpoint.GetProperty (Value := Value)
  | CCustomEndpoint => CustomEndpoint.GetProperty (Value := Value)
  | CHttpDataConnector => HttpDataConnector.GetProperty (Value := Value)
  | CGrpcDataConnector => GrpcDataConnector.GetProperty (Value := Value)
  | CKafkaDataConnector => KafkaDataConnector.GetProperty (Value := Value)
  | CCronDataConnector => CronDataConnector.GetProperty (Value := Value)
  | CTemporalDataConnector => TemporalDataConnector.GetProperty (Value := Value)
  | CCustomDataConnector => CustomDataConnector.GetProperty (Value := Value)
  | CTypeConfig => TypeConfig.GetProperty (Value := Value)
  | CPoolConfig => PoolConfig.GetProperty (Value := Value)
  | CModuleConfig => ModuleConfig.GetProperty (Value := Value)
  | CServiceConfig => ServiceConfig.GetProperty (Value := Value)
  end.
(** The members of each struct, with the key that names each. *)
Definition members (t : ConfigType) : list (string * FieldType) :=
  match t with
  | CInputStream =>
      [("id", Plain KInt); ("name", Plain KString); ("pipeline", Plain KString); ("component", Plain KString);
       ("idService", Plain KInt); ("idSource", Plain KInt); ("idSources", Plain KInts); ("xPos", Plain KDouble);
       ("yPos", Plain KDouble); ("valueType", Plain KString); ("idEndpoint", Plain KInt)]
  | CSubStream =>
      [("id", Plain KInt); ("name", Plain KString); ("pipeline", Plain KString); ("component", Plain KString);
       ("idService", Plain KInt); ("idSource", Plain KInt); ("xPos", Plain KDouble); ("yPos", Plain KDouble);
       ("valueType", Plain KString)]
  | CMapStream =>
      [("id", Plain KInt); ("name", Plain KString); ("pipeline", Plain KString); ("component", Plain KString);
       ("idService", Plain KInt); ("idSource", Plain KInt); ("xPos", Plain KDouble); ("yPos", Plain KDouble);
       ("valueType", Plain KString); ("functionName", Plain KString); ("functionPackage", Plain KString);
       ("publicFunction", Plain KBool); ("functionDescription", Plain KString);
       ("functionInitializerGroup", Plain KString); ("functionModule", Plain KString)]
  | CFilterStream =>
      [("id", Plain KInt); ("name", Plain KString); ("pipeline", Plain KString); ("component", Plain KString);
       ("idService", Plain KInt); ("idSource", Plain KInt); ("xPos", Plain KDouble); ("yPos", Plain KDouble);
       ("functionName", Plain KString); ("functionPackage", Plain KString); ("publicFunction", Plain KBool);
       ("functionDescription", Plain KString); ("functionInitializerGroup", Plain KString);
       ("functionModule", Plain KString)]
  | CJoinStream =>
      [("id", Plain KInt); ("name", Plain KString); ("pipeline", Plain KString); ("component", Plain KString);
       ("idService", Plain KInt); ("idSource", Plain KInt); ("idSources", Plain KInts); ("xPos", Plain KDouble);
       ("yPos", Plain KDouble); ("valueType", Plain KString); ("joinType", Plain (KEnum EJoinType));
       ("joinStorage", Plain (KEnum EJoinStorageType)); ("ttl", Plain KInt); ("renewTTL", Plain KBool);
       ("functionName", Plain KString); ("functionPackage", Plain KString); ("publicFunction", Plain KBool);
       ("functionDescription", Plain KString); ("functionInitializerGroup", Plain KString);
       ("functionModule", Plain KString)]
  | CMultiJoinStream =>
      [("id", Plain KInt); ("name", Plain KString); ("pipeline", Plain KString); ("component", Plain KString);
       ("idService", Plain KInt); ("idSource", Plain KInt); ("idSources", Plain KInts); ("xPos", Plain KDouble);
       ("yPos", Plain KDouble); ("valueType", Plain KString); ("joinStorage", Plain (KEnum EJoinStorageType));
       ("ttl", Plain KInt); ("renewTTL", Plain KBool); ("functionName", Plain KString);
       ("functionPackage", Plain KString); ("publicFunction", Plain KBool); ("functionDescription", Plain KString);
       ("functionInitializerGroup", Plain KString); ("functionModule", Plain KString)]
  | CProcessStream =>
      [("id", Plain KInt); ("name", Plain KString); ("pipeline", Plain KString); ("component", Plain KString);
       ("idService", Plain KInt); ("idSource", Plain KInt); ("xPos", Plain KDouble); ("yPos", Plain KDouble);
       ("pattern", Plain (KEnum EProcessPattern)); ("functionName", Plain KString);
       ("functionPackage", Plain KString); ("publicFunction", Plain KBool); ("functionDescription", Plain KString);
       ("functionInitializerGroup", Plain KString); ("functionModule", Plain KString)]
  | CFlatMapStream =>
      [("id", Plain KInt); ("name", Plain KString); ("pipeline", Plain KString); ("component", Plain KString);
       ("idService", Plain KInt); ("idSource", Plain KInt); ("xPos", Plain KDouble); ("yPos", Plain KDouble);
       ("valueType", Plain KString); ("functionName", Plain KString); ("functionPackage", Plain KString);
       ("publicFunction", Plain KBool); ("functionDescription", Plain KString);
       ("functionInitializerGroup", Plain KString); ("functionModule", Plain KString)]
  | CFlatMapIterableStream =>
      [("id", Plain KInt); ("name", Plain KString); ("pipeline", Plain KString); ("component", Plain KString);
       ("idService", Plain KInt); ("idSource", Plain KInt); ("xPos", Plain KDouble); ("yPos", Plain KDouble);
       ("valueType", Plain KString)]
  | CKeyByStream =>
      [("id", Plain KInt); ("name", Plain KString); ("pipeline", Plain KString); ("component", Plain KString);
       ("idService", Plain KInt); ("idSource", Plain KInt); ("xPos", Plain KDouble); ("yPos", Plain KDouble);
       ("keyType", Plain KString); ("valueType", Plain KString); ("functionName", Plain KString);
       ("functionPackage", Plain KString); ("publicFunction", Plain KBool); ("functionDescription", Plain KString);
       ("functionInitializerGroup", Plain KString); ("functionModule", Plain KString)]
  | CMergeStream =>
      [("id", Plain KInt); ("name", Plain KString); ("pipeline", Plain KString); ("component", Plain KString);
       ("idService", Plain KInt); ("idSources", Plain KInts); ("xPos", Plain KDouble); ("yPos", Plain KDouble)]
  | CSplitStream =>
      [("id", Plain KInt); ("name", Plain KString); ("pipeline", Plain KString); ("component", Plain KString);
       ("idService", Plain KInt); ("idSource", Plain KInt); ("xPos", Plain KDouble); ("yPos", Plain KDouble)]
  | CCaseStream =>
      [("id", Plain KInt); ("name", Plain KString); ("pipeline", Plain KString); ("component", Plain KString);
       ("idService", Plain KInt); ("idSource", Plain KInt); ("xPos", Plain KDouble); ("yPos", Plain KDouble);
       ("functionName", Plain KString); ("functionPackage", Plain KString); ("publicFunction", Plain KBool);
       ("functionDescription", Plain KString); ("functionInitializerGroup", Plain KString);
       ("functionModule", Plain KString)]
  | CWhenStream =>
      [("id", Plain KInt); ("name", Plain KString); ("pipeline", Plain KString); ("component", Plain KString);
       ("idService", Plain KInt); ("idSource", Plain KInt); ("xPos", Plain KDouble); ("yPos", Plain KDouble);
       ("valueType", Plain KString)]
  | CSinkStream =>
      [("id", Plain KInt); ("name", Plain KString); ("pipeline", Plain KString); ("component", Plain KString);
       ("idService", Plain KInt); ("idSource", Plain KInt); ("xPos", Plain KDouble); ("yPos", Plain KDouble);
       ("idEndpoint", Plain KInt); ("valueType", Plain KString)]
  | CCycleLinkStream =>
      [("id", Plain KInt); ("name", Plain KString); ("pipeline", Plain KString); ("component", Plain KString);
       ("idService", Plain KInt); ("idSource", Plain KInt); ("xPos", Plain KDouble); ("yPos", Plain KDouble)]
  | CDelayStream =>
      [("id", Plain KInt); ("name", Plain KString); ("pipeline", Plain KString); ("component", Plain KString);
       ("idService", Plain KInt); ("idSource", Plain KInt); ("xPos", Plain KDouble); ("yPos", Plain KDouble);
       ("duration", Plain KInt); ("functionName", Plain KString); ("functionPackage", Plain KString);
       ("publicFunction", Plain KBool); ("functionDescription", Plain KString);
       ("functionInitializerGroup", Plain KString); ("functionModule", Plain KString)]
  | CHttpEndpoint =>
      [("id", Plain KInt); ("name", Plain KString); ("idDataConnector", Plain KInt); ("tracingEnabled", Plain KBool);
       ("httpMethodType", Plain (KEnum EHTTPMethodType)); ("path", Plain KString); ("functionName", Plain KString);
       ("functionPackage", Plain KString); ("publicFunction", Plain KBool); ("functionDescription", Plain KString);
       ("functionInitializerGroup", Plain KString); ("functionModule", Plain KString)]
  | CGrpcEndpoint =>
      [("id", Plain KInt); ("name", Plain KString); ("idDataConnector", Plain KInt); ("tracingEnabled", Plain KBool);
       ("grpcMethodType", Plain (KEnum EGrpcMethodType)); ("methodName", Plain KString);
       ("functionName", Plain KString); ("functionPackage", Plain KString); ("publicFunction", Plain KBool);
       ("functionDescription", Plain KString); ("functionInitializerGroup", Plain KString);
       ("functionModule", Plain KString)]
  | CKafkaEndpoint =>
      [("id", Plain KInt); ("name", Plain KString); ("idDataConnector", Plain KInt); ("tracingEnabled", Plain KBool);
       ("enabled", Plain KBool); ("createTopic", Plain KBool); ("topic", Plain KString); ("partitions", Plain KInt);
       ("consumerGroup", Plain KString); ("replicationFactor", Plain KInt); ("functionName", Plain KString);
       ("functionPackage", Plain KString); ("publicFunction", Plain KBool); ("functionDescription", Plain KString);
       ("functionInitializerGroup", Plain KString); ("functionModule", Plain KString)]
  | CCronEndpoint =>
      [("id", Plain KInt); ("name", Plain KString); ("idDataConnector", Plain KInt); ("tracingEnabled", Plain KBool);
       ("enabled", Plain KBool); ("schedule", Plain KString); ("timezone", Utc);
       ("overlapPolicy", Plain (KEnum EScheduleOverlapPolicy));
       ("missedRunPolicy", Plain (KEnum EScheduleMissedRunPolicy)); ("functionName", Plain KString);
       ("functionPackage", Plain KString); ("publicFunction", Plain KBool); ("functionDescription", Plain KString);
       ("functionInitializerGroup", Plain KString); ("functionModule", Plain KString)]
  | CTemporalEndpoint =>
      [("id", Plain KInt); ("name", Plain KString); ("idDataConnector", Plain KInt); ("tracingEnabled", Plain KBool);
       ("enabled", Plain KBool); ("taskQueue", Plain KString);
       ("temporalExecutionType", Plain (KEnum ETemporalExecutionType)); ("schedule", Plain KString);
       ("scheduleId", Plain KString); ("timezone", Utc); ("overlapPolicy", Plain (KEnum EScheduleOverlapPolicy));
       ("missedRunPolicy", Plain (KEnum EScheduleMissedRunPolicy)); ("workflowExecutionTimeout", Plain KInt);
       ("activityStartToCloseTimeout", Plain KInt); ("activityHeartbeatTimeout", Plain KInt);
       ("maximumAttempts", Plain KInt); ("maxConcurrentActivities", Plain KInt);
       ("maxConcurrentWorkflowTasks", Plain KInt); ("functionName", Plain KString);
       ("functionPackage", Plain KString); ("publicFunction", Plain KBool); ("functionDescription", Plain KString);
       ("functionInitializerGroup", Plain KString); ("functionModule", Plain KString)]
  | CCustomEndpoint =>
      [("id", Plain KInt); ("name", Plain KString); ("idDataConnector", Plain KInt); ("tracingEnabled", Plain KBool);
       ("enabled", Plain KBool); ("functionName", Plain KString); ("functionPackage", Plain KString);
       ("publicFunction", Plain KBool); ("functionDescription", Plain KString);
       ("functionInitializerGroup", Plain KString); ("functionModule", Plain KString)]
  | CHttpDataConnector =>
      [("id", Plain KInt); ("name", Plain KString); ("implementation", Plain (KEnum EDataConnectorImplementation));
       ("module", Plain KString); ("host", Plain KString); ("port", Plain KInt);
       ("useDedicatedListener", Plain KBool)]
  | CGrpcDataConnector =>
      [("id", Plain KInt); ("name", Plain KString); ("implementation", Plain (KEnum EDataConnectorImplementation));
       ("programmingLanguage", Plain (KEnum EProgrammingLanguage)); ("module", Plain KString);
       ("address", Plain KString); ("connectionsCount", Positive)]
  | CKafkaDataConnector =>
      [("id", Plain KInt); ("name", Plain KString); ("implementation", Plain (KEnum EDataConnectorImplementation));
       ("programmingLanguage", Plain (KEnum EProgrammingLanguage)); ("brokers", Plain KString);
       ("version", Plain KString); ("dialTimeout", Plain KFloat); ("usePartitioner", Plain KBool);
       ("async", Plain KBool); ("securityProtocol", Plain (KEnum EKafkaSecurityProtocol));
       ("saslMechanism", Plain (KEnum EKafkaSaslMechanism)); ("username", Plain KString); ("password", Plain KString)]
  | CCronDataConnector =>
      [("id", Plain KInt); ("name", Plain KString); ("implementation", Plain (KEnum EDataConnectorImplementation))]
  | CTemporalDataConnector =>
      [("id", Plain KInt); ("name", Plain KString); ("implementation", Plain (KEnum EDataConnectorImplementation));
       ("address", Plain KString); ("namespace", Plain KString); ("identity", Plain KString);
       ("apiKey", Plain KString); ("tlsEnabled", Plain KBool); ("tlsServerName", Plain KString);
       ("tlsCaFile", Plain KString); ("tlsCertFile", Plain KString); ("tlsKeyFile", Plain KString);
       ("workerStopTimeout", Plain KInt)]
  | CCustomDataConnector =>
      [("id", Plain KInt); ("name", Plain KString); ("implementation", Plain (KEnum EDataConnectorImplementation))]
  | CTypeConfig =>
      [("name", Plain KString); ("type", Plain (KEnum EDataType)); ("typeDefinition", Plain KString);
       ("typeImport", Plain KString); ("valueType", Plain KString); ("keyType", Plain KString);
       ("package", Plain KString); ("module", Plain KString);
       ("definitionFormat", Plain (KEnum ETypeDefinitionFormat)); ("publicType", Plain KBool);
       ("transferByValue", Plain KBool); ("useAlias", Plain KBool)]
  | CPoolConfig =>
      [("name", Plain KString); ("executorsCount", Plain KInt); ("queueCapacity", Plain KInt)]
  | CModuleConfig =>
      [("name", Plain KString); ("path", Plain KString)]
  | CServiceConfig =>
      [("id", Plain KInt); ("name", Plain KString); ("color", Plain KString); ("defaultCallSemantics", Semantics);
       ("defaultGrpcTimeout", Plain KInt); ("environment", Plain (KEnum EEnvironment));
       ("golangVersion", Plain KString); ("grpcHost", Plain KString); ("grpcPort", Plain KInt);
       ("httpHost", Plain KString); ("httpPort", Plain KInt); ("logLevel", Plain (KEnum ELogLevel));
       ("metricsHandler", Plain KString); ("startupHandler", Plain KString); ("readinessHandler", Plain KString);
       ("livenessHandler", Plain KString); ("kubernetesWorkloadType", Plain (KEnum EKubernetesWorkloadType));
       ("modulePath", Plain KString); ("shutdownTimeout", Plain KInt); ("statusHandler", Plain KString)]
  end.
Definition fields {Value} (t : ConfigType) : struct t Value -> tuple (members t).*2 :=
  match t with
  | CInputStream => fun c =>
      ⟨InputStream.id c, InputStream.name c, InputStream.pipeline c, InputStream.component c, InputStream.idService c,
       InputStream.idSource c, InputStream.idSources c, InputStream.xPos c, InputStream.yPos c,
       InputStream.valueType c, InputStream.idEndpoint c⟩
  | CSubStream => fun c =>
      ⟨SubStream.id c, SubStream.name c, SubStream.pipeline c, SubStream.component c, SubStream.idService c,
       SubStream.idSource c, SubStream.xPos c, SubStream.yPos c, SubStream.valueType c⟩
  | CMapStream => fun c =>
      ⟨MapStream.id c, MapStream.name c, MapStream.pipeline c, MapStream.component c, MapStream.idService c,
       MapStream.idSource c, MapStream.xPos c, MapStream.yPos c, MapStream.valueType c, MapStream.functionName c,
       MapStream.functionPackage c, MapStream.publicFunction c, MapStream.functionDescription c,
       MapStream.functionInitializerGroup c, MapStream.functionModule c⟩
  | CFilterStream => fun c =>
      ⟨FilterStream.id c, FilterStream.name c, FilterStream.pipeline c, FilterStream.component c,
       FilterStream.idService c, FilterStream.idSource c, FilterStream.xPos c, FilterStream.yPos c,
       FilterStream.functionName c, FilterStream.functionPackage c, FilterStream.publicFunction c,
       FilterStream.functionDescription c, FilterStream.functionInitializerGroup c, FilterStream.functionModule c⟩
  | CJoinStream => fun c =>
      ⟨JoinStream.id c, JoinStream.name c, JoinStream.pipeline c, JoinStream.component c, JoinStream.idService c,
       JoinStream.idSource c, JoinStream.idSources c, JoinStream.xPos c, JoinStream.yPos c, JoinStream.valueType c,
       JoinStream.joinType c, JoinStream.joinStorage c, JoinStream.ttl c, JoinStream.renewTTL c,
       JoinStream.functionName c, JoinStream.functionPackage c, JoinStream.publicFunction c,
       JoinStream.functionDescription c, JoinStream.functionInitializerGroup c, JoinStream.functionModule c⟩
  | CMultiJoinStream => fun c =>
      ⟨MultiJoinStream.id c, MultiJoinStream.name c, MultiJoinStream.pipeline c, MultiJoinStream.component c,
       MultiJoinStream.idService c, MultiJoinStream.idSource c, MultiJoinStream.idSources c, MultiJoinStream.xPos c,
       MultiJoinStream.yPos c, MultiJoinStream.valueType c, MultiJoinStream.joinStorage c, MultiJoinStream.ttl c,
       MultiJoinStream.renewTTL c, MultiJoinStream.functionName c, MultiJoinStream.functionPackage c,
       MultiJoinStream.publicFunction c, MultiJoinStream.functionDescription c,
       MultiJoinStream.functionInitializerGroup c, MultiJoinStream.functionModule c⟩
  | CProcessStream => fun c =>
      ⟨ProcessStream.id c, ProcessStream.name c, ProcessStream.pipeline c, ProcessStream.component c,
       ProcessStream.idService c, ProcessStream.idSource c, ProcessStream.xPos c, ProcessStream.yPos c,
       ProcessStream.pattern c, ProcessStream.functionName c, ProcessStream.functionPackage c,
       ProcessStream.publicFunction c, ProcessStream.functionDescription c, ProcessStream.functionInitializerGroup c,
       ProcessStream.functionModule c⟩
  | CFlatMapStream => fun c =>
      ⟨FlatMapStream.id c, FlatMapStream.name c, FlatMapStream.pipeline c, FlatMapStream.component c,
       FlatMapStream.idService c, FlatMapStream.idSource c, FlatMapStream.xPos c, FlatMapStream.yPos c,
       FlatMapStream.valueType c, FlatMapStream.functionName c, FlatMapStream.functionPackage c,
       FlatMapStream.publicFunction c, FlatMapStream.functionDescription c, FlatMapStream.functionInitializerGroup c,
       FlatMapStream.functionModule c⟩
  | CFlatMapIterableStream => fun c =>
      ⟨FlatMapIterableStream.id c, FlatMapIterableStream.name c, FlatMapIterableStream.pipeline c,
       FlatMapIterableStream.component c, FlatMapIterableStream.idService c, FlatMapIterableStream.idSource c,
       FlatMapIterableStream.xPos c, FlatMapIterableStream.yPos c, FlatMapIterableStream.valueType c⟩
  | CKeyByStream => fun c =>
      ⟨KeyByStream.id c, KeyByStream.name c, KeyByStream.pipeline c, KeyByStream.component c, KeyByStream.idService c,
       KeyByStream.idSource c, KeyByStream.xPos c, KeyByStream.yPos c, KeyByStream.keyType c, KeyByStream.valueType c,
       KeyByStream.functionName c, KeyByStream.functionPackage c, KeyByStream.publicFunction c,
       KeyByStream.functionDescription c, KeyByStream.functionInitializerGroup c, KeyByStream.functionModule c⟩
  | CMergeStream => fun c =>
      ⟨MergeStream.id c, MergeStream.name c, MergeStream.pipeline c, MergeStream.component c, MergeStream.idService c,
       MergeStream.idSources c, MergeStream.xPos c, MergeStream.yPos c⟩
  | CSplitStream => fun c =>
      ⟨SplitStream.id c, SplitStream.name c, SplitStream.pipeline c, SplitStream.component c, SplitStream.idService c,
       SplitStream.idSource c, SplitStream.xPos c, SplitStream.yPos c⟩
  | CCaseStream => fun c =>
      ⟨CaseStream.id c, CaseStream.name c, CaseStream.pipeline c, CaseStream.component c, CaseStream.idService c,
       CaseStream.idSource c, CaseStream.xPos c, CaseStream.yPos c, CaseStream.functionName c,
       CaseStream.functionPackage c, CaseStream.publicFunction c, CaseStream.functionDescription c,
       CaseStream.functionInitializerGroup c, CaseStream.functionModule c⟩
  | CWhenStream => fun c =>
      ⟨WhenStream.id c, WhenStream.name c, WhenStream.pipeline c, WhenStream.component c, WhenStream.idService c,
       WhenStream.idSource c, WhenStream.xPos c, WhenStream.yPos c, WhenStream.valueType c⟩
  | CSinkStream => fun c =>
      ⟨SinkStream.id c, SinkStream.name c, SinkStream.pipeline c, SinkStream.component c, SinkStream.idService c,
       SinkStream.idSource c, SinkStream.xPos c, SinkStream.yPos c, SinkStream.idEndpoint c, SinkStream.valueType c⟩
  | CCycleLinkStream => fun c =>
      ⟨CycleLinkStream.id c, CycleLinkStream.name c, CycleLinkStream.pipeline c, CycleLinkStream.component c,
       CycleLinkStream.idService c, CycleLinkStream.idSource c, CycleLinkStream.xPos c, CycleLinkStream.yPos c⟩
  | CDelayStream => fun c =>
      ⟨DelayStream.id c, DelayStream.name c, DelayStream.pipeline c, DelayStream.component c, DelayStream.idService c,
       DelayStream.idSource c, DelayStream.xPos c, DelayStream.yPos c, DelayStream.duration c,
       DelayStream.functionName c, DelayStream.functionPackage c, DelayStream.publicFunction c,
       DelayStream.functionDescription c, DelayStream.functionInitializerGroup c, DelayStream.functionModule c⟩
  | CHttpEndpoint => fun c =>
      ⟨HttpEndpoint.id c, HttpEndpoint.name c, HttpEndpoint.idDataConnector c, HttpEndpoint.tracingEnabled c,
       HttpEndpoint.httpMethodType c, HttpEndpoint.path c, HttpEndpoint.functionName c,
       HttpEndpoint.functionPackage c, HttpEndpoint.publicFunction c, HttpEndpoint.functionDescription c,
       HttpEndpoint.functionInitializerGroup c, HttpEndpoint.functionModule c⟩
  | CGrpcEndpoint => fun c =>
      ⟨GrpcEndpoint.id c, GrpcEndpoint.name c, GrpcEndpoint.idDataConnector c, GrpcEndpoint.tracingEnabled c,
       GrpcEndpoint.grpcMethodType c, GrpcEndpoint.methodName c, GrpcEndpoint.functionName c,
       GrpcEndpoint.functionPackage c, GrpcEndpoint.publicFunction c, GrpcEndpoint.functionDescription c,
       GrpcEndpoint.functionInitializerGroup c, GrpcEndpoint.functionModule c⟩
  | CKafkaEndpoint => fun c =>
      ⟨KafkaEndpoint.id c, KafkaEndpoint.name c, KafkaEndpoint.idDataConnector c, KafkaEndpoint.tracingEnabled c,
       KafkaEndpoint.enabled c, KafkaEndpoint.createTopic c, KafkaEndpoint.topic c, KafkaEndpoint.partitions c,
       KafkaEndpoint.consumerGroup c, KafkaEndpoint.replicationFactor c, KafkaEndpoint.functionName c,
       KafkaEndpoint.functionPackage c, KafkaEndpoint.publicFunction c, KafkaEndpoint.functionDescription c,
       KafkaEndpoint.functionInitializerGroup c, KafkaEndpoint.functionModule c⟩
  | CCronEndpoint => fun c =>
      ⟨CronEndpoint.id c, CronEndpoint.name c, CronEndpoint.idDataConnector c, CronEndpoint.tracingEnabled c,
       CronEndpoint.enabled c, CronEndpoint.schedule c, CronEndpoint.timezone c, CronEndpoint.overlapPolicy c,
       CronEndpoint.missedRunPolicy c, CronEndpoint.functionName c, CronEndpoint.functionPackage c,
       CronEndpoint.publicFunction c, CronEndpoint.functionDescription c, CronEndpoint.functionInitializerGroup c,
       CronEndpoint.functionModule c⟩
  | CTemporalEndpoint => fun c =>
      ⟨TemporalEndpoint.id c, TemporalEndpoint.name c, TemporalEndpoint.idDataConnector c,
       TemporalEndpoint.tracingEnabled c, TemporalEndpoint.enabled c, TemporalEndpoint.taskQueue c,
       TemporalEndpoint.temporalExecutionType c, TemporalEndpoint.schedule c, TemporalEndpoint.scheduleId c,
       TemporalEndpoint.timezone c, TemporalEndpoint.overlapPolicy c, TemporalEndpoint.missedRunPolicy c,
       TemporalEndpoint.workflowExecutionTimeout c, TemporalEndpoint.activityStartToCloseTimeout c,
       TemporalEndpoint.activityHeartbeatTimeout c, TemporalEndpoint.maximumAttempts c,
       TemporalEndpoint.maxConcurrentActivities c, TemporalEndpoint.maxConcurrentWorkflowTasks c,
       TemporalEndpoint.functionName c, TemporalEndpoint.functionPackage c, TemporalEndpoint.publicFunction c,
       TemporalEndpoint.functionDescription c, TemporalEndpoint.functionInitializerGroup c,
       TemporalEndpoint.functionModule c⟩
  | CCustomEndpoint => fun c =>
      ⟨CustomEndpoint.id c, CustomEndpoint.name c, CustomEndpoint.idDataConnector c, CustomEndpoint.tracingEnabled c,
       CustomEndpoint.enabled c, CustomEndpoint.functionName c, CustomEndpoint.functionPackage c,
       CustomEndpoint.publicFunction c, CustomEndpoint.functionDescription c,
       CustomEndpoint.functionInitializerGroup c, CustomEndpoint.functionModule c⟩
  | CHttpDataConnector => fun c =>
      ⟨HttpDataConnector.id c, HttpDataConnector.name c, HttpDataConnector.implementation c,
       HttpDataConnector.module c, HttpDataConnector.host c, HttpDataConnector.port c,
       HttpDataConnector.useDedicatedListener c⟩
  | CGrpcDataConnector => fun c =>
      ⟨GrpcDataConnector.id c, GrpcDataConnector.name c, GrpcDataConnector.implementation c,
       GrpcDataConnector.programmingLanguage c, GrpcDataConnector.module c, GrpcDataConnector.address c,
       GrpcDataConnector.connectionsCount c⟩
  | CKafkaDataConnector => fun c =>
      ⟨KafkaDataConnector.id c, KafkaDataConnector.name c, KafkaDataConnector.implementation c,
       KafkaDataConnector.programmingLanguage c, KafkaDataConnector.brokers c, KafkaDataConnector.version c,
       KafkaDataConnector.dialTimeout c, KafkaDataConnector.usePartitioner c, KafkaDataConnector.async c,
       KafkaDataConnector.securityProtocol c, KafkaDataConnector.saslMechanism c, KafkaDataConnector.username c,
       KafkaDataConnector.password c⟩
  | CCronDataConnector => fun c =>
      ⟨CronDataConnector.id c, CronDataConnector.name c, CronDataConnector.implementation c⟩
  | CTemporalDataConnector => fun c =>
      ⟨TemporalDataConnector.id c, TemporalDataConnector.name c, TemporalDataConnector.implementation c,
       TemporalDataConnector.address c, TemporalDataConnector.namespaceName c, TemporalDataConnector.identity c,
       TemporalDataConnector.apiKey c, TemporalDataConnector.tlsEnabled c, TemporalDataConnector.tlsServerName c,
       TemporalDataConnector.tlsCaFile c, TemporalDataConnector.tlsCertFile c, TemporalDataConnector.tlsKeyFile c,
       TemporalDataConnector.workerStopTimeout c⟩
  | CCustomDataConnector => fun c =>
      ⟨CustomDataConnector.id c, CustomDataConnector.name c, CustomDataConnector.implementation c⟩
  | CTypeConfig => fun c =>
      ⟨TypeConfig.name c, TypeConfig.type c, TypeConfig.typeDefinition c, TypeConfig.typeImport c,
       TypeConfig.valueType c, TypeConfig.keyType c, TypeConfig.package c, TypeConfig.module c,
       TypeConfig.definitionFormat c, TypeConfig.publicType c, TypeConfig.transferByValue c, TypeConfig.useAlias c⟩
  | CPoolConfig => fun c =>
      ⟨PoolConfig.name c, PoolConfig.executorsCount c, PoolConfig.queueCapacity c⟩
  | CModuleConfig => fun c =>
      ⟨ModuleConfig.name c, ModuleConfig.path c⟩
  | CServiceConfig => fun c =>
      ⟨ServiceConfig.id c, ServiceConfig.name c, ServiceConfig.color c, ServiceConfig.defaultCallSemantics c,
       ServiceConfig.defaultGrpcTimeout c, ServiceConfig.environment c, ServiceConfig.golangVersion c,
       ServiceConfig.grpcHost c, ServiceConfig.grpcPort c, ServiceConfig.httpHost c, ServiceConfig.httpPort c,
       ServiceConfig.logLevel c, ServiceConfig.metricsHandler c, ServiceConfig.startupHandler c,
       ServiceConfig.readinessHandler c, ServiceConfig.livenessHandler c, ServiceConfig.kubernetesWorkloadType c,
       ServiceConfig.modulePath c, ServiceConfig.shutdownTimeout c, ServiceConfig.statusHandler c⟩
  end.
(** ** The references to them *)
Definition stream_ref {Value} (t : ConfigType) : struct t Value -> option (StreamTypes.StreamConfigRef Value) :=
  match t with
  | CInputStream => fun c => Some (StreamTypes.RInputStream c)
  | CSubStream => fun c => Some (StreamTypes.RSubStream c)
  | CMapStream => fun c => Some (StreamTypes.RMapStream c)
  | CFilterStream => fun c => Some (StreamTypes.RFilterStream c)
  | CJoinStream => fun c => Some (StreamTypes.RJoinStream c)
  | CMultiJoinStream => fun c => Some (StreamTypes.RMultiJoinStream c)
  | CProcessStream => fun c => Some (StreamTypes.RProcessStream c)
  | CFlatMapStream => fun c => Some (StreamTypes.RFlatMapStream c)
  | CFlatMapIterableStream => fun c => Some (StreamTypes.RFlatMapIterableStream c)
  | CKeyByStream => fun c => Some (StreamTypes.RKeyByStream c)
  | CMergeStream => fun c => Some (StreamTypes.RMergeStream c)
  | CSplitStream => fun c => Some (StreamTypes.RSplitStream c)
  | CCaseStream => fun c => Some (StreamTypes.RCaseStream c)
  | CWhenStream => fun c => Some (StreamTypes.RWhenStream c)
  | CSinkStream => fun c => Some (StreamTypes.RSinkStream c)
  | CCycleLinkStream => fun c => Some (StreamTypes.RCycleLinkStream c)
  | CDelayStream => fun c => Some (StreamTypes.RDelayStream c)
  | _ => fun _ => None
  end.
Definition endpoint_ref {Value} (t : ConfigType) : struct t Value -> option (EndpointTypes.EndpointConfigRef Value) :=
  match t with
  | CHttpEndpoint => fun c => Some (EndpointTypes.RHttpEndpoint c)
  | CGrpcEndpoint => fun c => Some (EndpointTypes.RGrpcEndpoint c)
  | CKafkaEndpoint => fun c => Some (EndpointTypes.RKafkaEndpoint c)
  | CCronEndpoint => fun c => Some (EndpointTypes.RCronEndpoint c)
  | CTemporalEndpoint => fun c => Some (EndpointTypes.RTemporalEndpoint c)
  | CCustomEndpoint => fun c => Some (EndpointTypes.RCustomEndpoint c)
  | _ => fun _ => None
  end.
Definition connector_ref {Value} (t : ConfigType) : struct t Value -> option (ConnectorTypes.DataConnectorConfigRef Value) :=
  match t with
  | CHttpDataConnector => fun c => Some (ConnectorTypes.RHttpDataConnector c)
  | CGrpcDataConnector => fun c => Some (ConnectorTypes.RGrpcDataConnector c)
  | CKafkaDataConnector => fun c => Some (ConnectorTypes.RKafkaDataConnector c)
  | CCronDataConnector => fun c => Some (ConnectorTypes.RCronDataConnector c)
  | CTemporalDataConnector => fun c => Some (ConnectorTypes.RTemporalDataConnector c)
  | CCustomDataConnector => fun c => Some (ConnectorTypes.RCustomDataConnector c)
  | _ => fun _ => None
  end.
Arguments fields : clear implicits.
