(* ===== verification/ConfigTypesTheorems.v ===== *)
(** * What reading a configuration comes to

    The [Parse] of every configuration type against [read_all]: one rule for each statement a
    [Parse] is made of, applied along its body.  From it: what each member and each property of
    a result says, that no key is lost or kept twice, and what an override merged into a
    configuration changes. *)
From Stdlib Require Import ZArith SpecFloat Lia.
From stdpp Require Import strings gmap list.
From S2P Require Import Prelude ConfigMerge RuntimeConfig ServiceApi ConfigYaml LinkTypes StreamTypes EndpointTypes.
From S2P Require Import ConnectorTypes ServiceTypes ConfigTypes.
Local Open Scope string_scope.
Local Open Scope list_scope.
Local Open Scope Z_scope.
Local Open Scope result_scope.

Section Theorems.
Context {Value : Type} `{YamlReadLaws Value}.
Implicit Types (v value base overrides : Value).

(** The key named in an exception apart, a member of call semantics is read the same under any. *)
Lemma SemanticsAt_key make key key' (o : option Value) :
  match SemanticsAt make key o with Ok g => Some g | Err _ => None end =
  match SemanticsAt make key' o with Ok g => Some g | Err _ => None end.
Proof.
  unfold SemanticsAt. destruct o as [v|]; [|done]. destruct (IsString v); [|done].
  unfold AsT. by destruct (convert _ v).
Qed.
(** A computation that succeeds exactly when a reading does, with results related by [Q]: one
    rule for each statement of a [Parse]. *)
Definition reads {A B} (m : result ParseError A) (o : option B) (Q : A -> B -> Prop) : Prop :=
  match m with
  | Ok a => exists r, o = Some r /\ Q a r
  | Err _ => o = None
  end.

Section Rules.
Context (value : Value) (Hmap : mapping value = true).
Context {A : Type} (l : list (string * FieldType)) (ds : tuple l.*2).
Abbreviation rest := (read_all l (at_key value) ds).

Lemma reads_cons (a : FieldType) key (d : fieldT a) (m : result ParseError A) Q :
  match field_reading a d (at_key value key) with
  | Some x => reads m rest (fun b r => Q b (x, r))
  | None => exists e, m = Err e
  end ->
  reads m (read_all ((key, a) :: l) (at_key value) (d, ds)) Q.
Proof.
  cbn [read_all fst snd]. destruct (field_reading a d (at_key value key)) as [x|]; [|by intros [e ->]].
  unfold reads. destruct m as [b|e]; [intros (r & -> & HQ); eauto|by intros ->].
Qed.
Lemma reads_As k key d (K : kindT k -> result ParseError A) Q :
  (forall x, reads (K x) rest (fun b r => Q b (x, r))) ->
  reads (rbind (As k value key d) K) (read_all ((key, Plain k) :: l) (at_key value) (d, ds)) Q.
Proof.
  intros HK. apply (reads_cons (Plain k)). rewrite As_mapping by done. cbn [field_reading].
  destruct (reading k d (at_key value key)); cbn [rbind]; eauto.
Qed.
Lemma reads_utc key d e (K : string -> result ParseError A) Q :
  (forall s, reads (K s) rest (fun b r => Q b (s, r))) ->
  reads (rbind (As KString value key d) (fun s => rbind (if negb (String.eqb s "UTC") then Err e else Ok tt) (fun _ => K s)))
    (read_all ((key, Utc) :: l) (at_key value) (d, ds)) Q.
Proof.
  intros HK. apply (reads_cons Utc). rewrite As_mapping by done. cbn [field_reading].
  destruct (reading KString d (at_key value key)) as [s|]; cbn [rbind]; [|eauto]. destruct (String.eqb s "UTC"); cbn; eauto.
Qed.
Lemma reads_positive key d e (K : Z -> result ParseError A) Q :
  (forall z, reads (K z) rest (fun b r => Q b (z, r))) ->
  reads (rbind (As KInt value key d) (fun z => rbind (if z <? 1 then Err e else Ok tt) (fun _ => K z)))
    (read_all ((key, Positive) :: l) (at_key value) (d, ds)) Q.
Proof.
  intros HK. apply (reads_cons Positive). rewrite As_mapping by done. cbn [field_reading].
  destruct (reading KInt d (at_key value key)) as [z|]; cbn [rbind]; [|eauto]. destruct (z <? 1); cbn; eauto.
Qed.
Lemma reads_semantics key d (K : option Config.CallSemanticsGroup -> result ParseError A) Q :
  (forall g, reads (K g) rest (fun b r => Q b (g, r))) ->
  reads (rbind (SemanticsOf value key (fun type => MakeCallSemanticsGroup type "" 0 false)) K)
    (read_all ((key, Semantics) :: l) (at_key value) (d, ds)) Q.
Proof.
  intros HK. apply (reads_cons Semantics). cbn [field_reading]. unfold SemanticsOf. rewrite member_mapping by done. cbn [rbind].
  pose proof (SemanticsAt_key (fun type => MakeCallSemanticsGroup type "" 0 false) key "" (at_key value key)) as E.
  destruct (SemanticsAt _ key _), (SemanticsAt _ "" _); cbn [rbind]; simplify_eq; eauto.
Qed.
End Rules.

Lemma reads_functions {A} value l (ds : tuple l.*2) (K : Functions.Functions -> result ParseError A) Q :
  mapping value = true ->
  (forall f, reads (K f) (read_all l (at_key value) ds) (fun b r =>
     Q b (Functions.functionName f, (Functions.functionPackage f, (Functions.publicFunction f,
          (Functions.functionDescription f, (Functions.functionInitializerGroup f, (Functions.functionModule f, r)))))))) ->
  reads (rbind (ParseFunctionFields value) K)
    (read_all (("functionName", Plain KString) :: ("functionPackage", Plain KString) :: ("publicFunction", Plain KBool) ::
               ("functionDescription", Plain KString) :: ("functionInitializerGroup", Plain KString) ::
               ("functionModule", Plain KString) :: l) (at_key value)
       ("", ("", (false, ("", ("", ("", ds))))))) Q.
Proof.
  intros Ho HK. unfold ParseFunctionFields. do 6 (rewrite ?rbind_assoc; apply reads_As; [done|intros ?]).
  cbn [rbind]. exact (HK (Functions.mk _ _ _ _ _ _)).
Qed.
Lemma reads_done {A} (c : A) Q : Q c tt -> reads (Ok c) (Some tt) Q.
Proof. unfold reads; eauto. Qed.

(** A property is what no member is named. *)
Lemma remaining_members t value known k :
  same_keys known (members t).*1 = true ->
  FindProperty (ParseRemainingProperties value known ∅) k =
  if bool_decide (k ∈ (members t).*1) then None else at_key value k.
Proof. intros Hk. rewrite remaining_lookup. by apply same_keys_if. Qed.

Ltac read_rule Ho :=
  first [ apply (reads_functions _ _ _ _ _ Ho); intros ? | apply (reads_utc _ Ho); intros ? | apply (reads_positive _ Ho); intros ?
        | apply (reads_semantics _ Ho); intros ? | apply (reads_As _ Ho); intros ? ].
Lemma Parse_reads t value :
  mapping value = true ->
  reads (Parse t value) (read_all (members t) (at_key value) (fields Value t (init t)))
    (fun c r => r = fields Value t c /\ forall k, GetProperty t c k = if bool_decide (k ∈ (members t).*1) then None else at_key value k).
Proof.
  intros Ho. destruct t; repeat read_rule Ho; apply reads_done; (split; [reflexivity|intros k; by apply remaining_members]).
Qed.

(** The keys of a struct are different. *)
Lemma members_nodup t : NoDup (members t).*1.
Proof. apply no_repeats_NoDup. by destruct t. Qed.

(** An empty mapping is read as the initial values. *)
Lemma read_all_empty t : read_all (members t) (fun _ => None) (fields Value t (init t)) = Some (fields Value t (init t)).
Proof. by destruct t. Qed.
Lemma fields_inj t (c c' : struct t Value) :
  fields Value t c = fields Value t c' -> (forall k, GetProperty t c k = GetProperty t c' k) -> c = c'.
Proof.
  destruct t, c, c'; cbn; intros Hf Hp; simplify_eq/=; f_equal; apply map_eq; exact Hp.
Qed.
Lemma Parse_other t value : mapping value = false -> exists key, Parse t value = Err (TypeMismatch key).
Proof.
  assert (forall k key d A (K : kindT k -> result ParseError A), mapping value = false -> rbind (As k value key d) K = Err (TypeMismatch key)) as Hb.
  { intros k key d A K Ho. by rewrite As_other. }
  intros Ho. destruct t; eexists; by apply Hb.
Qed.

(** C25. A configuration struct read from YAML.  From an object each data member holds the value of its own key, the
    value the member is initialised with where that key is missing or null; every other key is
    kept as a property with the value it has, and no key is kept twice.  A null value is read as
    the struct as it is initialised.  Reading throws exactly when some member's key holds
    something that does not convert, or a time zone is not UTC, or a number of connections not
    positive; or when the value is neither an object nor null. *)
Theorem config_parse_exact t value :
  if mapping value then
    match Parse t value with
    | Ok c =>
        read_all (members t) (at_key value) (fields Value t (init t)) = Some (fields Value t c) /\
        (forall k, GetProperty t c k = if bool_decide (k ∈ (members t).*1) then None else at_key value k) /\
        (IsObject value = false -> c = init t)
    | Err _ => read_all (members t) (at_key value) (fields Value t (init t)) = None /\ IsObject value = true
    end
  else exists key, Parse t value = Err (TypeMismatch key).
Proof.
  destruct (mapping value) eqn:Ho; [|by apply Parse_other].
  pose proof (Parse_reads t value Ho) as Hr. unfold reads in Hr.
  assert (IsObject value = false -> at_key value = fun _ => None) as Hnull by (unfold at_key; by intros ->).
  destruct (Parse t value) as [c|e].
  - destruct Hr as (r & Hr & -> & Hp). split_and!; [done..|]. intros Hn. rewrite Hnull in * by done.
    rewrite read_all_empty in Hr. apply fields_inj; [congruence|]. intros k. rewrite Hp.
    transitivity (@None Value); [by case_bool_decide|]. symmetry. by destruct t; apply lookup_empty.
  - split; [done|]. destruct (IsObject value); [done|]. rewrite Hnull in Hr by done. by rewrite read_all_empty in Hr.
Qed.

(** ** One key at a time *)

(** Two results have the same member, or the same property, at a key. *)
Fixpoint same_member (l : list (string * FieldType)) (k : string) : tuple l.*2 -> tuple l.*2 -> Prop -> Prop :=
  match l with
  | [] => fun _ _ unnamed => unnamed
  | (key, a) :: l => fun r r' unnamed => if bool_decide (key = k) then r.1 = r'.1 else same_member l k r.2 r'.2 unnamed
  end.
Definition same_at t (k : string) (c c' : struct t Value) : Prop :=
  same_member (members t) k (fields Value t c) (fields Value t c') (GetProperty t c k = GetProperty t c' k).
(** Two values at a key say the same: to the member the key names they convert alike, and as a
    property they are the same value. *)
Fixpoint agree_member (l : list (string * FieldType)) (k : string) (o o' : option Value) : tuple l.*2 -> Prop :=
  match l with
  | [] => fun _ => o = o'
  | (key, a) :: l => fun d =>
      if bool_decide (key = k) then field_reading a d.1 o = field_reading a d.1 o' else agree_member l k o o' d.2
  end.
Definition agree t (k : string) (o o' : option Value) : Prop := agree_member (members t) k o o' (fields Value t (init t)).

Lemma agree_refl t k o : agree t k o o.
Proof. unfold agree. generalize (fields Value t (init t)). induction (members t) as [|[key a] l IH]; intros d; simpl; [done|]. by case_bool_decide. Qed.
Lemma read_all_at l look look' (d r r' : tuple l.*2) k (P : Prop) :
  read_all l look d = Some r -> read_all l look' d = Some r' ->
  (k ∉ l.*1 -> P <-> look k = look' k) ->
  same_member l k r r' P <-> agree_member l k (look k) (look' k) d.
Proof.
  revert d r r'. induction l as [|[key a] l IH]; intros d r r'; [intros _ _ HP; apply HP; set_solver|].
  destruct d as [d0 d]. cbn [read_all same_member agree_member fst snd]. intros Hr Hr' HP.
  destruct (field_reading a d0 (look key)) as [x|] eqn:Hx; [|done]. destruct (field_reading a d0 (look' key)) as [x'|] eqn:Hx'; [|done].
  destruct (read_all l look d) as [y|] eqn:Hy; [|done]. destruct (read_all l look' d) as [y'|] eqn:Hy'; [|done].
  injection Hr as <-. injection Hr' as <-. cbn [fst snd]. case_bool_decide as Hk.
  - subst k. cbn in Hx, Hx' |- *. rewrite Hx, Hx'. split; [by intros ->|by intros [= ->]].
  - eapply IH; [done..|]. intros Hn. apply HP. set_solver.
Qed.
Lemma same_member_other l (r r' : tuple l.*2) k (P : Prop) : k ∉ l.*1 -> same_member l k r r' P <-> P.
Proof.
  revert r r'. induction l as [|[key a] l IH]; intros r r' Hk; [done|]. cbn [same_member]. rewrite bool_decide_false by set_solver.
  apply IH. set_solver.
Qed.
Lemma same_member_eq l (r r' : tuple l.*2) (P : string -> Prop) :
  NoDup l.*1 -> (forall k, k ∈ l.*1 -> same_member l k r r' (P k)) -> r = r'.
Proof.
  revert r r'. induction l as [|[key a] l IH]; intros r r' Hnd Hs; [by destruct r, r'|].
  apply NoDup_cons in Hnd as [Hk Hnd]. destruct r as [x y], r' as [x' y']. f_equal.
  - specialize (Hs key ltac:(set_solver)). cbn [same_member] in Hs. by rewrite bool_decide_true in Hs.
  - apply IH; [done|]. intros k Hin. specialize (Hs k ltac:(set_solver)). cbn [same_member] in Hs.
    rewrite bool_decide_false in Hs; [done|]. intros ->. by apply Hk.
Qed.
Lemma same_member_refl l (r : tuple l.*2) k (P : Prop) : P -> same_member l k r r P.
Proof. intros HP. induction l as [|[key a] l IH]; [done|]. cbn [same_member]. by case_bool_decide. Qed.

(** What a [Parse] that returned has read. *)
Lemma Parse_Ok t value c :
  Parse t value = Ok c ->
  mapping value = true /\ read_all (members t) (at_key value) (fields Value t (init t)) = Some (fields Value t c) /\
  (forall k, GetProperty t c k = if bool_decide (k ∈ (members t).*1) then None else at_key value k).
Proof.
  intros Hp. destruct (mapping value) eqn:Ho.
  - pose proof (Parse_reads t value Ho) as Hr. rewrite Hp in Hr. destruct Hr as (r & Hr & -> & Hk). done.
  - destruct (Parse_other t value Ho) as [key He]. congruence.
Qed.
Lemma Parse_at t v w c c' k :
  Parse t v = Ok c -> Parse t w = Ok c' -> same_at t k c c' <-> agree t k (at_key v k) (at_key w k).
Proof.
  intros (_ & Hr & Hk)%Parse_Ok (_ & Hr' & Hk')%Parse_Ok. unfold same_at, agree.
  apply (read_all_at _ _ _ _ _ _ _ _ Hr Hr'). intros Hn. rewrite Hk, Hk'. by rewrite !bool_decide_false.
Qed.

(** C26. Nothing a configuration says is lost or confused.  Of two values that are read without
    an exception, the results agree at a key, in the member the key names or in the property
    kept under it, exactly when the values say the same there; and the results are equal exactly
    when they agree at every key. *)
Theorem config_lossless t v w c c' :
  Parse t v = Ok c -> Parse t w = Ok c' ->
  (forall k, same_at t k c c' <-> agree t k (at_key v k) (at_key w k)) /\
  (c = c' <-> forall k, same_at t k c c').
Proof.
  intros Hv Hw. split; [intros k; by apply Parse_at|]. split.
  - intros -> k. by apply same_member_refl.
  - intros Hs. apply fields_inj; [apply (same_member_eq _ _ _ (fun k => GetProperty t c k = GetProperty t c' k) (members_nodup t)); intros k _; apply Hs|].
    intros k. apply Parse_Ok in Hv as (_ & _ & Hk), Hw as (_ & _ & Hk').
    destruct (decide (k ∈ (members t).*1)) as [Hin|Hn]; [rewrite Hk, Hk'; by rewrite !bool_decide_true|].
    specialize (Hs k). by apply same_member_other in Hs.
Qed.

(** What an override changes.  Of a configuration and the same with an override merged in,
    both read without an exception, the results agree at every key the override does not name;
    at a key it names they agree exactly when the merged value says what the base said. *)
Theorem config_override t base overrides c c' k :
  IsObject base = true -> IsObject overrides = true ->
  Parse t base = Ok c -> Parse t (Merge.DeepMerge base overrides) = Ok c' ->
  same_at t k c c' <->
  match child overrides k with
  | None => True
  | Some x => agree t k (child base k) (Some (match child base k with None => x | Some b => Merge.DeepMerge b x end))
  end.
Proof.
  intros Hb Ho Hc Hc'. rewrite (Parse_at _ _ _ _ _ _ Hc Hc'). destruct (DeepMerge_object base overrides Hb Ho) as [Hw Hk].
  unfold at_key. rewrite Hb, Hw, Hk. destruct (child overrides k) as [x|]; [done|]. split; [done|]. intros _. apply agree_refl.
Qed.

(** ** What the runtime sees through a reference *)

Lemma read_all_cons_inv l look key (a : FieldType) (d x : fieldT a) (ds r : tuple l.*2) :
  read_all ((key, a) :: l) look (d, ds) = Some (x, r) ->
  field_reading a d (look key) = Some x /\ read_all l look ds = Some r.
Proof.
  cbn [read_all fst snd]. destruct (field_reading a d (look key)); [|done]. by destruct (read_all l look ds); intros [= -> ->].
Qed.
(** What [As] gives at a key of a value. *)
Definition reads_as {k : Kind} (v : Value) (key : string) (default x : kindT k) : Prop :=
  reading k default (at_key v key) = Some x.
(** A member that only some of the structs have: the reference answers [default] for the others. *)
Definition reads_if (t : ConfigType) {k : Kind} (v : Value) (key : string) (default x : kindT k) : Prop :=
  if existsb (String.eqb key) (members t).*1 then reads_as v key default x else x = default.

Ltac ref_exact :=
  intros (_ & Hr & _)%Parse_Ok Href;
  match type of Href with _ _ ?c = _ => match type of c with struct ?t _ => destruct t end end; try discriminate Href;
  injection Href as <-; repeat (apply read_all_cons_inv in Hr as [? Hr]); unfold reads_if, reads_as; cbn -[reading at_key];
  split_and!; first [assumption|reflexivity].

Lemma stream_ref_exact t v c r :
  Parse t v = Ok c -> stream_ref t c = Some r ->
  reads_as (k := KInt) v "id" 0 (StreamTypes.GetID r) /\ reads_as (k := KString) v "name" "" (StreamTypes.GetName r) /\
  reads_as (k := KString) v "pipeline" "" (GetPipeline r) /\ reads_as (k := KString) v "component" "" (GetComponent r) /\
  reads_as (k := KInt) v "idService" 0 (GetIdService r) /\
  reads_if t (k := KInt) v "idSource" 0 (GetIdSource r) /\ reads_if t (k := KInts) v "idSources" [] (GetIdSources r) /\
  reads_as (k := KDouble) v "xPos" (S754_zero false) (GetXPos r) /\ reads_as (k := KDouble) v "yPos" (S754_zero false) (GetYPos r).
Proof. ref_exact. Qed.
Lemma endpoint_ref_exact t v c r :
  Parse t v = Ok c -> endpoint_ref t c = Some r ->
  reads_as (k := KInt) v "id" 0 (EndpointTypes.GetID r) /\ reads_as (k := KString) v "name" "" (EndpointTypes.GetName r) /\
  reads_as (k := KInt) v "idDataConnector" 0 (GetIdDataConnector r) /\
  reads_as (k := KBool) v "tracingEnabled" false (GetTracingEnabled r).
Proof. ref_exact. Qed.
Lemma connector_ref_exact t v c r :
  Parse t v = Ok c -> connector_ref t c = Some r ->
  reads_as (k := KInt) v "id" 0 (ConnectorTypes.GetID r) /\ reads_as (k := KString) v "name" "" (ConnectorTypes.GetName r) /\
  reads_as (k := KEnum EDataConnectorImplementation) v "implementation" DataConnectorImplementation.kUndefined (GetImplementation r).
Proof. ref_exact. Qed.
End Theorems.

(** ** Examples *)
Module ConfigTypeSamples.
Import Trees ConfigSamples.
Definition events : Tree :=
  Object [("id", Leaf "7"); ("name", Leaf "events"); ("idSource", Leaf "null"); ("idSources", Sequence [Leaf "3"]); ("owner", Leaf "team")].
Definition renamed : Tree := Object [("name", Leaf "all"); ("owner", Leaf "team")].
End ConfigTypeSamples.
Import Trees ConfigSamples ConfigTypeSamples.

Lemma config_parse_exact_witness :
  mapping events = true /\
  match Parse CInputStream events with
  | Ok c =>
      read_all (members CInputStream) (at_key events) (fields Tree CInputStream (init CInputStream)) = Some (fields Tree CInputStream c) /\
      (forall k, GetProperty CInputStream c k = if bool_decide (k ∈ (members CInputStream).*1) then None else at_key events k) /\
      (IsObject events = false -> c = init CInputStream)
  | Err _ => False
  end.
Proof. split; [reflexivity|]. exact (config_parse_exact CInputStream events). Defined.
Lemma config_lossless_witness :
  exists c c', Parse CInputStream events = Ok c /\ Parse CInputStream renamed = Ok c' /\
    same_at CInputStream "owner" c c' /\ ~ same_at CInputStream "name" c c' /\ c <> c'.
Proof.
  eexists _, _. split; [vm_compute; reflexivity|]. split; [vm_compute; reflexivity|].
  pose proof (config_lossless CInputStream events renamed _ _ eq_refl eq_refl) as [Hk He].
  split; [apply Hk; vm_compute; reflexivity|]. split; [rewrite Hk; vm_compute; discriminate|].
  intros Heq. pose proof (proj1 He Heq "name") as Hn. apply Hk in Hn. vm_compute in Hn. discriminate.
Defined.
Lemma config_override_witness :
  exists c c', Parse CInputStream events = Ok c /\ Parse CInputStream (Merge.DeepMerge events renamed) = Ok c' /\
    same_at CInputStream "id" c c' /\ same_at CInputStream "owner" c c' /\ ~ same_at CInputStream "name" c c'.
Proof.
  eexists _, _. split; [vm_compute; reflexivity|]. split; [vm_compute; reflexivity|].
  pose proof (fun k => config_override CInputStream events renamed _ _ k eq_refl eq_refl eq_refl eq_refl) as Hk.
  split; [apply Hk; vm_compute; exact I|]. split; [apply Hk; vm_compute; reflexivity|]. rewrite Hk. vm_compute. discriminate.
Defined.
