(* ===== verification/Caller.v ===== *)
(** * Callers: how a message crosses an edge of the graph

    runtime/caller.hpp and the registry of callers of runtime/environment.hpp.  An edge has
    one caller, made from the call semantics of its link or, failing that, the default of the
    service: a direct call, a task pool, a priority task pool or a parallel task.  The pools
    are those of the service ([ServiceApp.v]); a consumer type is named by a number, 0 is the
    erased [StreamConsumer].  Spans and metric labels are left out. *)
From Stdlib Require Import Lia.
From stdpp Require Import strings gmap.
From S2P Require Import Prelude RuntimeConfig ServiceApp.
Import Config.

Module Callers.
Local Open Scope Z_scope.

(** What [ensureConfiguredPools] reads of the configuration. *)
Definition pools (g : CallSemanticsGroup) : App.CallSemantics := App.mkSemantics (taskPool g) (fst <$> priorityTaskPool g).
Definition default_semantics (rc : RuntimeConfig) : option CallSemanticsGroup :=
  GetOnlyServiceConfig rc ≫= defaultCallSemantics.
Definition pool_config (rc : RuntimeConfig) : App.Config :=
  App.mkConfig (pools <$> default_semantics rc) (pools <$> omap callSemantics (GetLinks (config_ rc))).

(** The three snapshots that the construction of an edge takes of the published configuration,
    in this order: for the default of the service, for the links, and when a pool is looked up. *)
Record Snapshots := mkSnapshots {
  service : option RuntimeConfig;
  runtime : option RuntimeConfig;
  lookup_time : option RuntimeConfig;
}.

(** The semantics of the link, else the default of the service. *)
Definition semantics (sn : Snapshots) (link : LinkID) : option CallSemanticsGroup :=
  match runtime sn with
  | None => None
  | Some cfg =>
      match GetLink cfg link ≫= callSemantics with
      | Some g => Some g
      | None => service sn ≫= default_semantics
      end
  end.

Inductive CallerKind :=
  | DirectCaller (async : bool)
  | TaskPoolCaller (pool : string)
  | PriorityTaskPoolCaller (pool : string) (priority : Z)
  | ParallelCaller.
Definition isAsync (k : CallerKind) : bool := match k with DirectCaller async => async | _ => true end.

(** [statistics] is the [int64_t] count of [ConsumeStatistics]. *)
Record Caller := mkCaller {
  kind : CallerKind;
  consumerType : nat;
  statistics : Z;
}.

Inductive CallerError := PoolNotFound | PoolError | UnsupportedSemantics | NoIdentity | DifferentConsumer | NotPrepared | SchedulerStopped.

(** [getTaskPool], [getPriorityTaskPool]: [None] when ensuring the pools throws. *)
Definition getTaskPool (rc : option RuntimeConfig) (name : string) (a : App.App) : App.App * option bool :=
  match App.ensureConfiguredPools (pool_config <$> rc) a with
  | (a, Ok _) => (a, Some (bool_decide (name ∈ App.taskPools_ a)))
  | (a, Err _) => (a, None)
  end.
Definition getPriorityTaskPool (rc : option RuntimeConfig) (name : string) (a : App.App) : App.App * option bool :=
  match App.ensureConfiguredPools (pool_config <$> rc) a with
  | (a, Ok _) => (a, Some (bool_decide (name ∈ App.priorityTaskPools_ a)))
  | (a, Err _) => (a, None)
  end.
Definition found (r : App.App * option bool) (k : CallerKind) (ct : nat) : App.App * result CallerError Caller :=
  match r with
  | (a, Some true) => (a, Ok (mkCaller k ct 0))
  | (a, Some false) => (a, Err PoolNotFound)
  | (a, None) => (a, Err PoolError)
  end.

Definition makeCallerFromEnv (sn : Snapshots) (link : LinkID) (ct : nat) (a : App.App) :
    App.App * result CallerError Caller :=
  match semantics sn link with
  | None => (a, Ok (mkCaller (DirectCaller false) ct 0))
  | Some g =>
      match functionCall g with
      | Some async => (a, Ok (mkCaller (DirectCaller async) ct 0))
      | None =>
          match taskPool g with
          | Some name => found (getTaskPool (lookup_time sn) name a) (TaskPoolCaller name) ct
          | None =>
              match priorityTaskPool g with
              | Some (name, priority) => found (getPriorityTaskPool (lookup_time sn) name a) (PriorityTaskPoolCaller name priority) ct
              | None => match parallelCall g with
                        | Some _ => (a, Ok (mkCaller ParallelCaller ct 0))
                        | None => (a, Err UnsupportedSemantics)
                        end
              end
          end
      end
  end.

(** ** The registry *)
Record Env := mkEnv {
  app : App.App;
  callers_ : gmap LinkID Caller;
}.

Definition prepareCaller (sn : Snapshots) (link : LinkID) (ct : nat) (e : Env) : Env * result CallerError Caller :=
  if (link.1 =? 0) || (link.2 =? 0) then (e, Err NoIdentity)
  else match callers_ e !! link with
       | Some c => (e, Ok c)
       | None =>
           match makeCallerFromEnv sn link ct (app e) with
           | (a, Ok c) => (mkEnv a (<[link := c]> (callers_ e)), Ok c)
           | (a, Err err) => (mkEnv a (callers_ e), Err err)
           end
       end.

(** [prepareTypedCaller] with [Caller::resolve]. *)
Definition prepareTypedCaller (sn : Snapshots) (link : LinkID) (ct : nat) (e : Env) :
    Env * result CallerError Caller :=
  match prepareCaller sn link ct e with
  | (e, Ok c) => (e, if bool_decide (consumerType c = ct) then Ok c else Err DifferentConsumer)
  | (e, Err err) => (e, Err err)
  end.

(** ** Messages *)

(** Where a message goes; [Rejected] is logged and dropped. *)
Inductive Delivery := Inline | Enqueued (pool : string) (priority : option Z) | Spawned | Rejected.

Definition int64_inc (z : Z) : Z := if z =? int64_max then int64_min else z + 1.
Definition recordMessage (c : Caller) : Caller := mkCaller (kind c) (consumerType c) (int64_inc (statistics c)).

(** [consume] of the four callers; [refused] when the pool or the scheduler throws, which the
    pool callers catch; [priority] is the priority of the message if it has one. *)
Definition DirectCaller_consume : result CallerError Delivery := Ok Inline.
Definition TaskPoolCaller_consume (pool : string) (refused : bool) : result CallerError Delivery :=
  Ok (if refused then Rejected else Enqueued pool None).
Definition PriorityTaskPoolCaller_consume (pool : string) (p : Z) (refused : bool) (priority : option Z) :
    result CallerError Delivery :=
  let prio := match priority with Some prio => prio | None => p end in
  Ok (if refused then Rejected else Enqueued pool (Some prio)).
Definition ParallelCaller_consume (refused : bool) : result CallerError Delivery :=
  if refused then Err SchedulerStopped else Ok Spawned.
Definition dispatch (k : CallerKind) (refused : bool) (priority : option Z) : result CallerError Delivery :=
  match k with
  | DirectCaller _ => DirectCaller_consume
  | TaskPoolCaller pool => TaskPoolCaller_consume pool refused
  | PriorityTaskPoolCaller pool p => PriorityTaskPoolCaller_consume pool p refused priority
  | ParallelCaller => ParallelCaller_consume refused
  end.
Definition consume (link : LinkID) (refused : bool) (priority : option Z) (e : Env) : Env * result CallerError Delivery :=
  match callers_ e !! link with
  | None => (e, Err NotPrepared)
  | Some c => (mkEnv (app e) (<[link := recordMessage c]> (callers_ e)), dispatch (kind c) refused priority)
  end.

(** [releaseStreams]. *)
Definition releaseStreams (e : Env) : Env := mkEnv (app e) ∅.

(** [OPrepare] stores the erased consumer. *)
Inductive Op :=
  | OPrepare (sn : Snapshots) (link : LinkID)
  | OTyped (sn : Snapshots) (link : LinkID) (ct : nat)
  | OConsume (link : LinkID) (refused : bool) (priority : option Z).
Definition apply_op (e : Env) (op : Op) : Env :=
  match op with
  | OPrepare sn link => (prepareCaller sn link 0 e).1
  | OTyped sn link ct => (prepareTypedCaller sn link ct e).1
  | OConsume link refused priority => (consume link refused priority e).1
  end.
End Callers.
