(* ===== verification/CallerTheorems.v ===== *)
(** * Every edge gets the caller its configuration asks for

    Against the checks of [RuntimeConfig] and the pools that [ensureConfiguredPools] made. *)
From Stdlib Require Import Lia.
From stdpp Require Import strings gmap list.
From S2P Require Import Prelude RuntimeConfig RuntimeConfigTheorems Lifecycle ServiceApp ServiceAppTheorems Caller.
Import Config Callers.
Local Open Scope Z_scope.

(** ** Selection *)

(** The kind of call a group names. *)
Inductive asks (g : CallSemanticsGroup) : CallerKind -> Prop :=
  | asks_function async : functionCall g = Some async -> asks g (DirectCaller async)
  | asks_pool name : taskPool g = Some name -> asks g (TaskPoolCaller name)
  | asks_priority name priority : priorityTaskPool g = Some (name, priority) -> asks g (PriorityTaskPoolCaller name priority)
  | asks_parallel u : parallelCall g = Some u -> asks g ParallelCaller.

Lemma asks_unique g k k' : semantics_count g = 1 -> asks g k -> asks g k' -> k = k'.
Proof.
  unfold semantics_count, present. intros Hc H1 H2.
  destruct (functionCall g) eqn:?, (taskPool g) eqn:?, (priorityTaskPool g) eqn:?, (parallelCall g) eqn:?; try lia;
    destruct H1; destruct H2; congruence.
Qed.

Lemma get_link c rc link l :
  make c = Ok rc -> GetLink rc link = Some l <-> l ∈ GetLinks c /\ link_key l = link.
Proof. intros (_ & _ & Ha)%make_sound. unfold answers in Ha. naive_solver. Qed.

(** Every group that the construction of an edge can read from [rc] has its pools. *)
Lemma configured_group c rc link l g a :
  make c = Ok rc -> configured (pool_config rc) a -> GetLink rc link = Some l -> callSemantics l = Some g ->
  provided (pools g) a.
Proof.
  intros Hm (_ & _ & Hl) Hg Hs. apply (get_link _ _ _ _ Hm) in Hg as [Hin _].
  rewrite Forall_forall in Hl. apply Hl. simpl. apply list_elem_of_fmap. exists g. split; [done|].
  apply make_sound in Hm as [-> _]. apply list_elem_of_omap. eauto.
Qed.
Lemma configured_default rc g a :
  configured (pool_config rc) a -> default_semantics rc = Some g -> provided (pools g) a.
Proof. intros (_ & Hd & _) Hg. apply Hd. simpl. by rewrite Hg. Qed.

(** With its pools there, a group gives a caller of the first kind it names. *)
Lemma caller_of_group sn link ct a g now a' :
  semantics sn link = Some g -> provided (pools g) a -> lookup_time sn = Some now ->
  App.ensureConfiguredPools (Some (pool_config now)) a = (a', Ok tt) ->
  (semantics_count g = 0 /\ makeCallerFromEnv sn link ct a = (a, Err UnsupportedSemantics)) \/
  (0 < semantics_count g /\ exists k, asks g k /\ (makeCallerFromEnv sn link ct a).2 = Ok (mkCaller k ct 0)).
Proof.
  intros Hg Hp Hn He. unfold makeCallerFromEnv, semantics_count, present. rewrite Hg.
  assert (Hp' : provided (pools g) a') by (eapply provided_more; [apply (ensure_configured _ _ _ He)|done]).
  destruct Hp' as [Ht Hq]. simpl in Ht, Hq.
  destruct (functionCall g) as [async|] eqn:Ef.
  { right. split; [repeat split_case; lia|]. exists (DirectCaller async). by split; [constructor|]. }
  destruct (taskPool g) as [name|] eqn:Et.
  { right. split; [repeat split_case; lia|]. exists (TaskPoolCaller name). split; [by constructor|].
    unfold getTaskPool. rewrite Hn. simpl. rewrite He. simpl. by rewrite bool_decide_true by apply Ht. }
  destruct (priorityTaskPool g) as [[name priority]|] eqn:Eq.
  { right. split; [repeat split_case; lia|]. exists (PriorityTaskPoolCaller name priority). split; [by constructor|].
    unfold getPriorityTaskPool. rewrite Hn. simpl. rewrite He. simpl. by rewrite bool_decide_true by apply Hq. }
  destruct (parallelCall g) as [u|] eqn:El; [right|left; done].
  split; [lia|]. exists ParallelCaller. split; [by econstructor|done].
Qed.

(** C30. Once a configuration was accepted and its pools were made, an edge of the graph gets the
    one caller that its link names, which exists and is unique because links are checked; an edge
    without call semantics of its own gets the default of the service, and a direct synchronous
    call if there is none.  No pool is ever missing, even if another configuration was published
    by the time the pool is looked up.  The default is not checked: an edge that falls back on a
    default without any kind of call cannot be built. *)
Theorem edge_caller_exact c rc now a a' link ct
    (Hmake : make c = Ok rc) (Hpools : configured (pool_config rc) a)
    (Hnow : App.ensureConfiguredPools (Some (pool_config now)) a = (a', Ok tt)) :
  let sn := mkSnapshots (Some rc) (Some rc) (Some now) in
  let r := (makeCallerFromEnv sn link ct a).2 in
  (forall l g, l ∈ GetLinks c -> link_key l = link -> callSemantics l = Some g ->
     exists k, asks g k /\ (forall k', asks g k' -> k' = k) /\ r = Ok (mkCaller k ct 0)) /\
  ((forall l, l ∈ GetLinks c -> link_key l = link -> callSemantics l = None) ->
     match default_semantics rc with
     | None => r = Ok (mkCaller (DirectCaller false) ct 0)
     | Some g =>
         if semantics_count g =? 0 then r = Err UnsupportedSemantics
         else exists k, asks g k /\ r = Ok (mkCaller k ct 0)
     end).
Proof.
  intros sn r. split.
  - intros l g Hin Hkey Hg. assert (Hl : GetLink rc link = Some l) by by apply (get_link c).
    assert (Hone : semantics_count g = 1).
    { apply make_sound in Hmake as (_ & Hv & _). unfold valid in Hv. destruct Hv as (_ & _ & _ & _ & _ & _ & _ & Hv & _).
      rewrite Forall_forall in Hv. by apply (Hv l). }
    assert (Hs : semantics sn link = Some g) by (unfold semantics; simpl; by rewrite Hl; simpl; rewrite Hg).
    destruct (caller_of_group sn link ct a g now a' Hs) as [[Hz _]|(_ & k & Hk & Hr)]; try done; [|lia|].
    { by eapply configured_group. }
    exists k. split_and!; [done| |done]. intros k' Hk'. by eapply asks_unique.
  - intros Hnone. assert (Hs : semantics sn link = default_semantics rc).
    { unfold semantics; simpl. destruct (GetLink rc link) as [l|] eqn:Hl; [|done].
      apply (get_link c) in Hl as [Hin Hkey]; [|done]. simpl. by rewrite Hnone. }
    destruct (default_semantics rc) as [g|] eqn:Hg.
    + destruct (caller_of_group sn link ct a g now a' Hs) as [[Hz Hr]|(Hz & k & Hk & Hr)]; try done.
      * by eapply configured_default.
      * subst r. rewrite Hr. by rewrite (proj2 (Z.eqb_eq _ _) Hz).
      * rewrite (proj2 (Z.eqb_neq _ _)) by lia. by exists k.
    + subst r. unfold makeCallerFromEnv. by rewrite Hs.
Qed.

(** ** The registry *)
Definition wrap64 (z : Z) : Z := (z - int64_min) mod 2 ^ 64 + int64_min.
Lemma int64_inc_wrap z : in_int64 z -> int64_inc z = wrap64 (z + 1).
Proof.
  unfold in_int64, int64_inc, wrap64, int64_min, int64_max. intros Hz. destruct (Z.eqb_spec z (2 ^ 63 - 1)) as [->|Hne].
  - by vm_compute.
  - rewrite Z.mod_small; lia.
Qed.
Lemma wrap64_range z : in_int64 (wrap64 z).
Proof.
  unfold in_int64, wrap64, int64_min, int64_max. pose proof (Z.mod_pos_bound (z - - 2 ^ 63) (2 ^ 64)). lia.
Qed.
Lemma wrap64_add z n : wrap64 (wrap64 z + n) = wrap64 (z + n).
Proof.
  unfold wrap64. f_equal. replace ((z - int64_min) mod 2 ^ 64 + int64_min + n - int64_min) with ((z - int64_min) mod 2 ^ 64 + n) by lia.
  rewrite Zplus_mod_idemp_l. f_equal. lia.
Qed.
Lemma wrap64_id z : in_int64 z -> wrap64 z = z.
Proof. unfold in_int64, wrap64, int64_min, int64_max. intros. rewrite Z.mod_small; lia. Qed.

Definition consumes (link : LinkID) (op : Op) : bool :=
  match op with OConsume l _ _ => bool_decide (l = link) | _ => false end.
Definition messages (link : LinkID) (ops : list Op) : Z := Z.of_nat (length (filter (fun op => consumes link op = true) ops)).

Lemma prepare_keeps sn l ct e link c :
  callers_ e !! link = Some c -> callers_ (prepareCaller sn l ct e).1 !! link = Some c.
Proof.
  unfold prepareCaller. intros Hc. destruct (_ || _); [done|]. destruct (callers_ e !! l) eqn:Hl; [done|].
  destruct (makeCallerFromEnv sn l ct (app e)) as [a [c'|]]; [|done]. simpl. by rewrite lookup_insert_ne by congruence.
Qed.
Lemma typed_keeps sn l ct e : (prepareTypedCaller sn l ct e).1 = (prepareCaller sn l ct e).1.
Proof. unfold prepareTypedCaller. by destruct (prepareCaller sn l ct e) as [e' [c|]]. Qed.
Lemma op_keeps op e link c :
  callers_ e !! link = Some c -> in_int64 (statistics c) ->
  callers_ (apply_op e op) !! link =
  Some (mkCaller (kind c) (consumerType c) (wrap64 (statistics c + if consumes link op then 1 else 0))).
Proof.
  intros Hc Hi. assert (Hsame : Some c = Some (mkCaller (kind c) (consumerType c) (wrap64 (statistics c + 0)))).
  { rewrite Z.add_0_r, wrap64_id by done. by destruct c. }
  destruct op as [sn l|sn l ct|l refused priority]; simpl.
  - rewrite <- Hsame. by apply prepare_keeps.
  - rewrite typed_keeps, <- Hsame. by apply prepare_keeps.
  - unfold consume. case_bool_decide as Hl.
    + subst l. rewrite Hc. simpl. rewrite lookup_insert_eq. unfold recordMessage. by rewrite int64_inc_wrap.
    + destruct (callers_ e !! l); simpl; rewrite <- Hsame; [|done]. by rewrite lookup_insert_ne.
Qed.

(** An edge is built once: whatever is prepared again, typed or erased, under whatever
    configuration, and whatever is refused, it keeps its kind of call and its consumer type, and
    its statistics count every message given to it, modulo 2^64. *)
Theorem edge_built_once ops e link c
    (Hc : callers_ e !! link = Some c) (Hi : in_int64 (statistics c)) :
  callers_ (fold_left apply_op ops e) !! link =
  Some (mkCaller (kind c) (consumerType c) (wrap64 (statistics c + messages link ops))).
Proof.
  revert e c Hc Hi. induction ops as [|op ops IH]; intros e c Hc Hi; simpl.
  { unfold messages; simpl. rewrite Z.add_0_r, wrap64_id by done. rewrite Hc. by destruct c. }
  rewrite (IH _ _ (op_keeps op _ _ _ Hc Hi) (wrap64_range _)). simpl. rewrite wrap64_add. do 3 f_equal.
  unfold messages. rewrite filter_cons. destruct (consumes link op); simpl; lia.
Qed.
(** A typed view is given for the stored consumer type only. *)
Lemma typed_view sn link ct e c :
  (prepareTypedCaller sn link ct e).2 = Ok c -> consumerType c = ct.
Proof.
  unfold prepareTypedCaller. destruct (prepareCaller sn link ct e) as [e' [c'|]]; simpl; [|done].
  case_bool_decide; [by intros [= <-]|done].
Qed.

(** ** A service with a pool on one link *)
Definition sample_iconfig : IConfig :=
  mkConfig [mkStream 1 "in" "" ""; mkStream 2 "out" "" ""] [mkService 1 "svc" None 0] [] [] [] []
    [mkLink 1 2 (Some (mkGroup None (Some "work"%string) None None))].
Definition sample_runtime : RuntimeConfig :=
  match make sample_iconfig with Ok rc => rc | Err _ => mkRuntime sample_iconfig ∅ ∅ ∅ ∅ ∅ ∅ ∅ ∅ ∅ ∅ ∅ end.
Definition sample_app : App.App := (App.ensureConfiguredPools (Some (pool_config sample_runtime)) App.created).1.

Lemma edge_caller_exact_witness :
  exists k, asks (mkGroup None (Some "work"%string) None None) k /\
    (makeCallerFromEnv (mkSnapshots (Some sample_runtime) (Some sample_runtime) (Some sample_runtime)) (1, 2) 7 sample_app).2
      = Ok (mkCaller k 7 0).
Proof.
  destruct (edge_caller_exact sample_iconfig sample_runtime sample_runtime sample_app sample_app (1, 2) 7) as [Hl _].
  - vm_compute. reflexivity.
  - apply (ensure_configured (pool_config sample_runtime) App.created sample_app). vm_compute. reflexivity.
  - vm_compute. reflexivity.
  - destruct (Hl (mkLink 1 2 (Some (mkGroup None (Some "work"%string) None None))) (mkGroup None (Some "work"%string) None None))
      as (k & Hk & _ & Hr); [by left|done|done|]. by exists k.
Defined.

Lemma edge_built_once_witness :
  statistics <$> callers_ (fold_left apply_op [OConsume (1, 2) true None; OPrepare (mkSnapshots None None None) (1, 2); OConsume (1, 2) false None]
    (mkEnv sample_app {[ (1, 2) := mkCaller ParallelCaller 7 int64_max ]})) !! (1, 2) = Some (int64_min + 1).
Proof.
  rewrite (edge_built_once _ _ _ (mkCaller ParallelCaller 7 int64_max)).
  - vm_compute. reflexivity.
  - vm_compute. reflexivity.
  - vm_compute. split; discriminate.
Defined.
