(* ===== verification/Streams.v ===== *)
(** * Stream operators: what a node does with a message

    The [consume] functions of operators/*.inl over the callers of [Caller.v].  A graph is a
    table of nodes under their configuration ids; a node has the edge to its consumer, one to
    the consumer of its error stream, and a list of branches, each with the kind of caller that
    was prepared for it.  A user function is given by what it does: what it emits through its
    collector, in order, and whether it throws in the end.  A direct call runs the consumer at
    once, and its exception goes through every caller up to the source; other callers leave a
    task.  Values and contexts are parameters; spans are left out. *)
From Stdlib Require Import Lia.
From stdpp Require Import strings gmap list.
From S2P Require Import Prelude Caller.
Import Callers.

Module Streams.

(** ** Split and case *)

(** [dispatchBranches]: two passes over the branches, the async ones first; [remaining] counts
    down, and the branch that reaches zero is given the message itself, the others a copy.
    The result is the sequence of the calls. *)
Fixpoint pass {A} (async : bool) (branches : list (A * bool)) (remaining : nat) : list (A * bool) * nat :=
  match branches with
  | [] => ([], remaining)
  | (b, asyncBranch) :: branches =>
      if Bool.eqb asyncBranch async then
        let remaining := pred remaining in
        let (calls, rest) := pass async branches remaining in
        ((b, remaining =? 0) :: calls, rest)
      else pass async branches remaining
  end.
Definition dispatchBranches {A} (branches : list (A * bool)) : list (A * bool) :=
  let (first, remaining) := pass true branches (length branches) in
  let (second, _) := pass false branches remaining in
  first ++ second.

(** [dispatchBranch<Begin, End>]: the decision tree over the branches. *)
Fixpoint dispatchBranch (fuel begin end_ index : nat) : nat :=
  match fuel with
  | O => begin
  | S fuel =>
      if end_ - begin =? 1 then begin
      else let middle := begin + (end_ - begin) / 2 in
           if index <? middle then dispatchBranch fuel begin middle index else dispatchBranch fuel middle end_ index
  end.

(** [whenIndex] over the names of the branches. *)
Inductive StreamError := Thrown | BranchOutOfRange | EmptyName | AmbiguousName | NameNotFound | NoStream | DelayRefused | Stopped | OutOfFuel.
Fixpoint visit_branches (name : string) (names : list string) (index : nat) (selected : option nat) : result StreamError (option nat) :=
  match names with
  | [] => Ok selected
  | n :: names =>
      if bool_decide (n = name) then
        match selected with
        | Some _ => Err AmbiguousName
        | None => visit_branches name names (S index) (Some index)
        end
      else visit_branches name names (S index) selected
  end.
Definition whenIndex (name : string) (names : list string) : result StreamError nat :=
  if bool_decide (name = EmptyString) then Err EmptyName
  else match visit_branches name names 0 None with
       | Ok (Some i) => Ok i
       | Ok None => Err NameNotFound
       | Err e => Err e
       end.

(** ** Nodes *)
Record Edge := mkEdge {
  target : nat;
  caller : CallerKind;
}.

Section Streams.
Context {Ctx Val : Type}.

(** What a user function emits, and whether it throws after that. *)
Definition Script : Type := (list (Ctx * Val) * bool)%type.

Inductive Operator :=
  | Input
  | Map (f : Ctx -> Val -> Script)
  | FlatMap (f : Ctx -> Val -> Script)
  | KeyBy (f : Ctx -> Val -> Script)
  | Filter (f : Ctx -> Val -> option bool)
  | FlatMapIterable (values : Val -> list Val)
  | Merge
  | Link
  | CycleLink
  | Split
  | Case (f : Ctx -> Val -> option nat)
  | Process (f : Ctx -> Val -> list (Ctx * (Val + Val)) * bool)
  | Sink (f : Ctx -> Val -> bool)
  | Delay (f : Ctx -> Val -> option Z).
Record Node := mkNode {
  op : Operator;
  consumer : option Edge;
  errorConsumer : option Edge;
  branches : list Edge;
}.
Definition Graph : Type := gmap nat Node.

(** A task that a caller or the delay pool has to run: a call of the consumer, or the callback
    of a delay, which calls through the edge. *)
Inductive Task :=
  | Call (e : Edge) (c : Ctx) (v : Val)
  | Resume (e : Edge) (c : Ctx) (v : Val).

(** [tasks] wait to be run; [sunk] are the values given to sinks, latest first. *)
Record World := mkWorld {
  tasks : list Task;
  sunk : list (nat * Ctx * Val);
}.
Definition push (t : Task) (w : World) : World := mkWorld (t :: tasks w) (sunk w).
Definition deliver (id : nat) (c : Ctx) (v : Val) (w : World) : World := mkWorld (tasks w) ((id, c, v) :: sunk w).

(** Whether the pool, the scheduler or the delay pool behind an edge refuses a message. *)
Context (refuses : Edge -> Ctx -> Val -> bool).

(** Run one action for each element until one throws. *)
Fixpoint for_each {A} (f : A -> World -> World * result StreamError unit) (l : list A) (w : World) :
    World * result StreamError unit :=
  match l with
  | [] => (w, Ok tt)
  | x :: l => match f x w with
              | (w, Ok _) => for_each f l w
              | (w, Err e) => (w, Err e)
              end
  end.
(** A user function that may throw once it has emitted everything. *)
Definition then_throw (throws : bool) (r : World * result StreamError unit) : World * result StreamError unit :=
  match r with (w, Ok _) => (w, if throws then Err Thrown else Ok tt) | _ => r end.

Section Consume.
(** [consume] of the node at the other end of a direct call. *)
Context (consume_at : nat -> Ctx -> Val -> World -> World * result StreamError unit).

(** [Caller::consume]. *)
Definition send (e : Edge) (c : Ctx) (v : Val) (w : World) : World * result StreamError unit :=
  match dispatch (caller e) (refuses e c v) None with
  | Ok Inline => consume_at (target e) c v w
  | Ok (Enqueued _ _) | Ok Spawned => (push (Call e c v) w, Ok tt)
  | Ok Rejected => (w, Ok tt)
  | Err _ => (w, Err Stopped)
  end.
(** [context().consume] behind a test of [hasConsumer()]. *)
Definition produce (e : option Edge) (c : Ctx) (v : Val) (w : World) : World * result StreamError unit :=
  match e with Some e => send e c v w | None => (w, Ok tt) end.

Definition collect (n : Node) (s : Script) (w : World) : World * result StreamError unit :=
  then_throw s.2 (for_each (fun cv => produce (consumer n) cv.1 cv.2) s.1 w).
Definition Map_consume (n : Node) (f : Ctx -> Val -> Script) (c : Ctx) (v : Val) (w : World) : World * result StreamError unit :=
  collect n (f c v) w.
Definition FlatMap_consume (n : Node) (f : Ctx -> Val -> Script) (c : Ctx) (v : Val) (w : World) : World * result StreamError unit :=
  collect n (f c v) w.
Definition KeyBy_consume (n : Node) (f : Ctx -> Val -> Script) (c : Ctx) (v : Val) (w : World) : World * result StreamError unit :=
  collect n (f c v) w.
(** An input whose invocation was admitted ([ExecutionRuntime.v]). *)
Definition Input_consume (n : Node) (c : Ctx) (v : Val) (w : World) : World * result StreamError unit := produce (consumer n) c v w.
Definition Merge_consume (n : Node) (c : Ctx) (v : Val) (w : World) : World * result StreamError unit := produce (consumer n) c v w.
Definition Link_consume (n : Node) (c : Ctx) (v : Val) (w : World) : World * result StreamError unit := produce (consumer n) c v w.
Definition CycleLink_consume (n : Node) (c : Ctx) (v : Val) (w : World) : World * result StreamError unit := produce (consumer n) c v w.
Definition Filter_consume (n : Node) (f : Ctx -> Val -> option bool) (c : Ctx) (v : Val) (w : World) : World * result StreamError unit :=
  match f c v with
  | None => (w, Err Thrown)
  | Some true => produce (consumer n) c v w
  | Some false => (w, Ok tt)
  end.
Definition FlatMapIterable_consume (n : Node) (values : list Val) (c : Ctx) (w : World) : World * result StreamError unit :=
  match consumer n with
  | None => (w, Ok tt)
  | Some e => for_each (fun v => send e c v) values w
  end.
Definition Split_consume (n : Node) (c : Ctx) (v : Val) (w : World) : World * result StreamError unit :=
  for_each (fun call => send call.1 c v) (dispatchBranches ((fun e => (e, isAsync (caller e))) <$> branches n)) w.
Definition Case_consume (n : Node) (f : Ctx -> Val -> option nat) (c : Ctx) (v : Val) (w : World) : World * result StreamError unit :=
  match f c v with
  | None => (w, Err Thrown)
  | Some idx =>
      let N := length (branches n) in
      if N <=? idx then (w, Err BranchOutOfRange)
      else match branches n !! dispatchBranch N 0 N idx with
           | Some e => send e c v w
           | None => (w, Err NoStream)
           end
  end.
Definition Process_consume (n : Node) (s : list (Ctx * (Val + Val)) * bool) (w : World) : World * result StreamError unit :=
  then_throw s.2
    (for_each (fun cv => match cv.2 with
                         | inl v => produce (consumer n) cv.1 v
                         | inr v => produce (errorConsumer n) cv.1 v
                         end) s.1 w).
Definition Sink_consume (id : nat) (throws : bool) (c : Ctx) (v : Val) (w : World) : World * result StreamError unit :=
  (deliver id c v w, if throws then Err Thrown else Ok tt).
(** A duration that is not positive does not go to the delay pool. *)
Definition Delay_consume (n : Node) (duration : option Z) (c : Ctx) (v : Val) (w : World) : World * result StreamError unit :=
  match duration, consumer n with
  | None, _ => (w, Err Thrown)
  | Some _, None => (w, Ok tt)
  | Some duration, Some e =>
      if (duration <=? 0)%Z then send e c v w
      else if refuses e c v then (w, Err DelayRefused)
      else (push (Resume e c v) w, Ok tt)
  end.

Definition node_consume (id : nat) (n : Node) (c : Ctx) (v : Val) (w : World) : World * result StreamError unit :=
  match op n with
  | Input => Input_consume n c v w
  | Merge => Merge_consume n c v w
  | Link => Link_consume n c v w
  | CycleLink => CycleLink_consume n c v w
  | Map f => Map_consume n f c v w
  | FlatMap f => FlatMap_consume n f c v w
  | KeyBy f => KeyBy_consume n f c v w
  | Filter f => Filter_consume n f c v w
  | FlatMapIterable values => FlatMapIterable_consume n (values v) c w
  | Split => Split_consume n c v w
  | Case f => Case_consume n f c v w
  | Process f => Process_consume n (f c v) w
  | Sink f => Sink_consume id (f c v) c v w
  | Delay f => Delay_consume n (f c v) c v w
  end.
End Consume.

(** [fuel] bounds the depth of direct calls. *)
Fixpoint consume (fuel : nat) (g : Graph) (id : nat) (c : Ctx) (v : Val) (w : World) : World * result StreamError unit :=
  match fuel with
  | O => (w, Err OutOfFuel)
  | S fuel =>
      match g !! id with
      | Some n => node_consume (fun id => consume fuel g id) id n c v w
      | None => (w, Err NoStream)
      end
  end.

(** Run the [i]-th task; the callback of a delay does nothing if its context is cancelled.  The
    pools keep the exception of a task. *)
Definition run_task (fuel : nat) (g : Graph) (i : nat) (cancelled : bool) (w : World) : option World :=
  match tasks w !! i with
  | None => None
  | Some t =>
      let w := mkWorld (delete i (tasks w)) (sunk w) in
      Some (match t with
            | Call e c v => (consume fuel g (target e) c v w).1
            | Resume e c v => if cancelled then w else (send (fun id => consume fuel g id) e c v w).1
            end)
  end.

(** What comes from outside: a message for a node, from a data source or a test; a result or an
    error that an endpoint gives to a sink or an input ([consumeResult], [collectError],
    [consumeError]); or a pool that runs a task. *)
Inductive Action :=
  | Feed (id : nat) (c : Ctx) (v : Val)
  | Emit (error : bool) (id : nat) (c : Ctx) (v : Val)
  | Work (i : nat) (cancelled : bool).
Definition perform (fuel : nat) (g : Graph) (a : Action) (w : World) : option World :=
  match a with
  | Feed id c v => Some (consume fuel g id c v w).1
  | Emit error id c v =>
      (fun n => (produce (fun id => consume fuel g id) (if error : bool then errorConsumer n else consumer n) c v w).1) <$> g !! id
  | Work i cancelled => run_task fuel g i cancelled w
  end.
Fixpoint run_graph (fuel : nat) (g : Graph) (acts : list Action) (w : World) : option World :=
  match acts with
  | [] => Some w
  | a :: acts => perform fuel g a w ≫= run_graph fuel g acts
  end.
End Streams.
End Streams.
