(* ===== verification/StreamsSchedule.v ===== *)
(** * The sinks do not depend on the schedule

    [denote] is what a message amounts to, by the structure of the graph alone: the values for
    the sinks, and one tick for every task on the way.  In a graph without cycles, in which
    nothing throws and nothing is refused, every run of the graph delivers exactly this,
    whichever edges are asynchronous and in whatever order the tasks run. *)
From Stdlib Require Import Lia.
From stdpp Require Import strings gmap list.
From S2P Require Import Prelude Caller Streams StreamsTheorems.
Import Callers Streams.

Section Denote.
Context {Ctx Val : Type}.
Local Abbreviation Node := (@Node Ctx Val).
Local Abbreviation Graph := (@Graph Ctx Val).
Local Abbreviation World := (@World Ctx Val).
Implicit Types (n : Node) (g : Graph) (w : World) (e : Edge) (c : Ctx) (v : Val).

(** A value for a sink, or the run of a task. *)
Definition Event : Type := option (nat * Ctx * Val).

Section NodeDenote.
Context (d : nat -> Ctx -> Val -> list Event).
Definition sent e c v : list Event := if direct e then d (target e) c v else None :: d (target e) c v.
Definition out (o : option Edge) c v : list Event := match o with Some e => sent e c v | None => [] end.
Definition node_denote (id : nat) n c v : list Event :=
  match op n with
  | Input | Merge | Link | CycleLink => out (consumer n) c v
  | Map f | FlatMap f | KeyBy f => (f c v).1 ≫= fun cv => out (consumer n) cv.1 cv.2
  | Filter f => match f c v with Some true => out (consumer n) c v | _ => [] end
  | FlatMapIterable values => values v ≫= fun x => out (consumer n) c x
  | Split => branches n ≫= fun e => sent e c v
  | Case f => match f c v ≫= fun i => branches n !! i with Some e => sent e c v | None => [] end
  | Process f => (f c v).1 ≫= fun cv => match cv.2 with
                                        | inl x => out (consumer n) cv.1 x
                                        | inr x => out (errorConsumer n) cv.1 x
                                        end
  | Sink _ => [Some (id, c, v)]
  | Delay f => match f c v, consumer n with
               | Some duration, Some e => if (duration <=? 0)%Z then sent e c v else None :: sent e c v
               | _, _ => []
               end
  end.
End NodeDenote.

Fixpoint denote (fuel : nat) g (id : nat) c v : list Event :=
  match fuel with
  | O => []
  | S fuel => match g !! id with Some n => node_denote (denote fuel g) id n c v | None => [] end
  end.

Lemma bind_ext {A B} (f h : A -> list B) l : (forall x, x ∈ l -> f x = h x) -> l ≫= f = l ≫= h.
Proof.
  intros Hfh. induction l as [|x l IH]; [done|]. rewrite !bind_cons, Hfh by left. f_equal. apply IH. intros. apply Hfh. by right.
Qed.
Lemma node_denote_ext d d' id n c v :
  (forall e, e ∈ edges n -> forall c v, d (target e) c v = d' (target e) c v) -> node_denote d id n c v = node_denote d' id n c v.
Proof.
  intros Hd. assert (Hs : forall e c v, e ∈ edges n -> sent d e c v = sent d' e c v) by (intros; unfold sent; by rewrite Hd).
  assert (Ho : forall (o : option Edge) c v, (forall e, o = Some e -> e ∈ edges n) -> out d o c v = out d' o c v).
  { intros [e|] c' v' He; simpl; [|done]. by apply Hs, He. }
  assert (Hc : forall c v, out d (consumer n) c v = out d' (consumer n) c v) by (intros; apply Ho; intros; by apply consumer_edge).
  assert (He : forall c v, out d (errorConsumer n) c v = out d' (errorConsumer n) c v) by (intros; apply Ho; intros; by apply error_edge).
  unfold node_denote. destruct (op n) as [|p|p|p|p|vs| | | | |p|p|p|p]; try done; try (by apply bind_ext; intros; apply Hc).
  - by destruct (p c v) as [[]|].
  - apply bind_ext. intros e Hin. by apply Hs, branch_edge.
  - destruct (p c v ≫= _) as [e|] eqn:E; [|done]. apply bind_Some in E as (i & _ & E). apply Hs, branch_edge. by eapply list_elem_of_lookup_2.
  - apply bind_ext. intros [c' [x|x]] _; simpl; auto.
  - destruct (p c v) as [dur|]; [|done]. destruct (consumer n) as [e|] eqn:E; [|done]. rewrite (Hs e c v); [done|]. by apply consumer_edge.
Qed.

(** Every edge leads to a node of the graph of smaller rank. *)
Definition acyclic g (rank : nat -> nat) : Prop :=
  forall id n e, g !! id = Some n -> e ∈ edges n -> rank (target e) < rank id /\ is_Some (g !! target e).
Lemma acyclic_descends g rank : acyclic g rank -> descends g rank.
Proof. intros Hg id n e Hn He _. by apply (Hg id n e). Qed.
Lemma denote_fuel g rank k k' id c v :
  acyclic g rank -> rank id < k -> rank id < k' -> denote k g id c v = denote k' g id c v.
Proof.
  intros Hg. revert k' id c v. induction k as [|k IH]; intros k' id c v Hk Hk'; [lia|].
  destruct k' as [|k']; [lia|]. simpl. destruct (g !! id) as [n|] eqn:Hn; [|done].
  apply node_denote_ext. intros e He c' v'. destruct (Hg id n e Hn He). apply IH; lia.
Qed.

(** Nodes whose functions do not throw and whose cases select a branch. *)
Definition calm_node n : Prop :=
  match op n with
  | Map f | FlatMap f | KeyBy f => forall c v, (f c v).2 = false
  | Filter f => forall c v, is_Some (f c v)
  | Case f => forall c v, exists i, f c v = Some i /\ i < length (branches n)
  | Process f => forall c v, (f c v).2 = false
  | Sink f => forall c v, f c v = false
  | Delay f => forall c v, is_Some (f c v)
  | _ => True
  end.
End Denote.

(** ** Runs *)
Section Schedule.
Context {Ctx Val : Type} (refuses : Edge -> Ctx -> Val -> bool).
Context (g : @Graph Ctx Val) (rank : nat -> nat) (depth : nat).
Context (Hacyclic : acyclic g rank) (Hdepth : forall id, rank id < depth)
  (Hcalm : forall id n, g !! id = Some n -> calm_node n) (Haccepts : forall e c v, refuses e c v = false).
Local Abbreviation World := (@World Ctx Val).
Implicit Types (n : @Node Ctx Val) (w : World) (e : Edge) (c : Ctx) (v : Val) (d : list (@Event Ctx Val)).

Local Abbreviation D := (denote depth g).
Local Abbreviation at_node := (fun id => consume refuses depth g id).

(** What is still to come in a world, with what was delivered. *)
Definition task_events (t : Task) : list Event :=
  None :: match t with Call e c v => D (target e) c v | Resume e c v => sent D e c v end.
Definition events w : list Event := (Some <$> sunk w) ++ (tasks w ≫= task_events).

(** The action returns, and amounts to the events [d]. *)
Definition performs (a : World -> World * result StreamError unit) d : Prop :=
  forall w, exists w', a w = (w', Ok tt) /\ events w' ≡ₚ d ++ events w.

Lemma performs_nothing : performs (fun w => (w, Ok tt)) [].
Proof. intros w. by exists w. Qed.
Lemma performs_perm a d d' : d ≡ₚ d' -> performs a d -> performs a d'.
Proof. intros Hd Ha w. destruct (Ha w) as (w' & Hw & He). exists w'. by rewrite He, Hd. Qed.
Lemma performs_push t : performs (fun w => (push t w, Ok tt)) (task_events t).
Proof.
  intros w. eexists. split; [done|]. unfold events, push. cbn [tasks sunk]. rewrite bind_cons. apply Permutation_app_swap_app.
Qed.
Lemma performs_deliver id c v : performs (fun w => (deliver id c v w, Ok tt)) [Some (id, c, v)].
Proof. intros w. eexists. split; [done|]. done. Qed.
Lemma performs_for_each {A} (f : A -> World -> World * result StreamError unit) (h : A -> list Event) l :
  (forall x, x ∈ l -> performs (f x) (h x)) -> performs (for_each f l) (l ≫= h).
Proof.
  induction l as [|x l IH]; intros Hf w; [by exists w|]. rewrite bind_cons.
  destruct (Hf x ltac:(left) w) as (w1 & Hw1 & He1). destruct (IH ltac:(intros; apply Hf; by right) w1) as (w2 & Hw2 & He2).
  exists w2. simpl. rewrite Hw1. split; [done|]. rewrite He2, He1, <- app_assoc. apply Permutation_app_swap_app.
Qed.
Lemma performs_then throws a d : throws = false -> performs a d -> performs (fun w => then_throw throws (a w)) d.
Proof. intros -> Ha w. destruct (Ha w) as (w' & Hw & He). exists w'. by rewrite Hw. Qed.

(** A send, given that direct calls amount to the denotations. *)
Section Node.
Context (f : nat -> Ctx -> Val -> World -> World * result StreamError unit) (n : @Node Ctx Val).
Context (Hf : forall e, e ∈ edges n -> forall c v, performs (f (target e) c v) (D (target e) c v)).

Lemma performs_send e c v : e ∈ edges n -> performs (send refuses f e c v) (sent D e c v).
Proof.
  intros He. unfold send, sent, direct. destruct (caller e) eqn:Hc; simpl; rewrite ?Haccepts; simpl;
    [by apply Hf| | |]; apply (performs_push (Call e c v)).
Qed.
Lemma performs_produce (o : option Edge) c v :
  (forall e, o = Some e -> e ∈ edges n) -> performs (produce refuses f o c v) (out D o c v).
Proof. destruct o as [e|]; intros He; [by apply performs_send, He|apply performs_nothing]. Qed.

Lemma split_perm : (dispatchBranches ((fun e => (e, isAsync (caller e))) <$> branches n)).*1 ≡ₚ branches n.
Proof.
  rewrite (proj1 (split_calls _)), <- fmap_app.
  set (l := (fun e => (e, isAsync (caller e))) <$> branches n).
  assert (Hl : branches n = l.*1).
  { subst l. rewrite <- list_fmap_compose. symmetry. apply list_fmap_id. }
  rewrite Hl. apply fmap_Permutation. clear. induction l as [|[e []] l IH]; [done| |]; rewrite !filter_cons; simpl.
  - by constructor.
  - rewrite <- Permutation_middle. by constructor.
Qed.

Lemma performs_node id c v : calm_node n -> performs (node_consume refuses f id n c v) (node_denote D id n c v).
Proof.
  intros Hn. assert (Hc : forall c v, performs (produce refuses f (consumer n) c v) (out D (consumer n) c v))
    by (intros; apply performs_produce, consumer_edge).
  assert (He : forall c v, performs (produce refuses f (errorConsumer n) c v) (out D (errorConsumer n) c v))
    by (intros; apply performs_produce, error_edge).
  unfold node_consume, node_denote, calm_node in *. destruct (op n) as [|p|p|p|p|vs| | | | |p|p|p|p]; try apply Hc.
  1-3: apply performs_then; [apply Hn|]; apply performs_for_each; intros; apply Hc.
  - unfold Filter_consume. destruct (Hn c v) as [[] ->]; [apply Hc|apply performs_nothing].
  - unfold FlatMapIterable_consume. destruct (consumer n) as [e|] eqn:E.
    + apply performs_for_each. intros. apply performs_send. by apply consumer_edge.
    + eapply performs_perm; [|apply performs_nothing]. simpl. clear. by induction (vs v).
  - unfold Split_consume. eapply performs_perm; [|apply (performs_for_each _ (fun call => sent D call.1 c v))].
    + rewrite <- split_perm at 2. by rewrite list_fmap_bind.
    + intros call Hin. by apply performs_send, branch_edge, split_edge.
  - unfold Case_consume. destruct (Hn c v) as (i & -> & Hi). simpl. destruct (Nat.leb_spec (length (branches n)) i); [lia|].
    rewrite dispatchBranch_exact by lia. destruct (branches n !! i) as [e|] eqn:E.
    + apply performs_send, branch_edge. by eapply list_elem_of_lookup_2.
    + apply lookup_ge_None in E. lia.
  - apply performs_then; [apply Hn|]. apply performs_for_each. intros [c' [x|x]] _; simpl; auto.
  - unfold Sink_consume. rewrite Hn. apply performs_deliver.
  - unfold Delay_consume. destruct (Hn c v) as [dur ->]. destruct (consumer n) as [e|] eqn:E; [|apply performs_nothing].
    destruct (dur <=? 0)%Z; [apply performs_send; by apply consumer_edge|]. rewrite Haccepts. apply (performs_push (Resume e c v)).
Qed.
End Node.

Lemma D_unfold id n c v : g !! id = Some n -> D id c v = node_denote D id n c v.
Proof.
  intros Hn. rewrite (denote_fuel g rank depth (S depth) id c v Hacyclic) by (pose proof (Hdepth id); lia).
  simpl. by rewrite Hn.
Qed.
Lemma performs_consume k id c v :
  rank id < k -> is_Some (g !! id) -> performs (consume refuses k g id c v) (D id c v).
Proof.
  revert id c v. induction k as [|k IH]; intros id c v Hk [n Hn]; [lia|]. rewrite (D_unfold id n) by done.
  intros w. simpl. rewrite Hn. apply performs_node; [|by eapply Hcalm].
  intros e He c' v'. destruct (Hacyclic id n e Hn He). apply IH; [lia|done].
Qed.

(** The same for a target that may be missing, of which the caller sees the exception. *)
Lemma consume_amounts id c v w : events (consume refuses depth g id c v w).1 ≡ₚ D id c v ++ events w.
Proof.
  destruct (g !! id) as [n|] eqn:Hn.
  - destruct (performs_consume depth id c v (Hdepth id) ltac:(by rewrite Hn) w) as (w' & -> & He). done.
  - pose proof (Hdepth id). destruct depth; [lia|]. simpl. by rewrite Hn.
Qed.
Lemma send_amounts e c v w : events (send refuses at_node e c v w).1 ≡ₚ sent D e c v ++ events w.
Proof.
  unfold send, sent, direct. destruct (caller e) eqn:Hc; simpl; rewrite ?Haccepts; simpl; [apply consume_amounts| | |];
    destruct (performs_push (Call e c v) w) as (w' & [= <-] & He); exact He.
Qed.

(** What an action brings in; a task brings in nothing and takes its tick. *)
Definition brings (a : Action) : list Event :=
  match a with
  | Feed id c v => D id c v
  | Emit error id c v => match g !! id with Some n => out D (if error : bool then errorConsumer n else consumer n) c v | None => [] end
  | Work _ _ => []
  end.
Definition ticks (a : Action (Ctx := Ctx) (Val := Val)) : list (@Event Ctx Val) := match a with Work _ _ => [None] | _ => [] end.
(** No delayed message is cancelled. *)
Definition uncancelled (a : Action (Ctx := Ctx) (Val := Val)) : bool := match a with Work _ cancelled => negb cancelled | _ => true end.

Lemma perform_events a w w' :
  uncancelled a = true -> perform refuses depth g a w = Some w' -> ticks a ++ events w' ≡ₚ brings a ++ events w.
Proof.
  destruct a as [id c v|error id c v|i cancelled]; simpl; intros Hu Hp.
  - injection Hp as <-. apply consume_amounts.
  - apply fmap_Some in Hp as (n & Hn & ->). rewrite Hn. destruct (if error then _ else _) as [e|]; simpl; [apply send_amounts|done].
  - apply negb_true_iff in Hu as ->. unfold run_task in Hp. destruct (tasks w !! i) as [t|] eqn:Ht; [|done]. injection Hp as <-.
    assert (He : events w ≡ₚ task_events t ++ events (mkWorld (delete i (tasks w)) (sunk w))).
    { unfold events. cbn [tasks sunk]. etrans; [|apply Permutation_app_swap_app]. apply Permutation_app_head. rewrite <- bind_cons. by apply bind_Permutation, delete_Permutation. }
    rewrite He. destruct t as [e c v|e c v]; unfold task_events; simpl; constructor; [apply consume_amounts|apply send_amounts].
Qed.
Lemma run_events acts w w' :
  forallb uncancelled acts = true -> run_graph refuses depth g acts w = Some w' ->
  (acts ≫= ticks) ++ events w' ≡ₚ (acts ≫= brings) ++ events w.
Proof.
  revert w. induction acts as [|a acts IH]; intros w Hu Hr; [by injection Hr as <-|]. simpl in Hu. apply andb_true_iff in Hu as [Hu1 Hu2].
  simpl in Hr. apply bind_Some in Hr as (w1 & H1 & Hr). rewrite !bind_cons, <- !app_assoc, (IH w1 Hu2 Hr).
  rewrite Permutation_app_swap_app, (perform_events _ _ _ Hu1 H1). apply Permutation_app_swap_app.
Qed.

(** The number of ticks, and the values. *)
Fixpoint count_tasks (l : list (@Event Ctx Val)) : nat :=
  match l with [] => 0 | None :: l => S (count_tasks l) | Some _ :: l => count_tasks l end.
Fixpoint values (l : list (@Event Ctx Val)) : list (nat * Ctx * Val) :=
  match l with [] => [] | None :: l => values l | Some x :: l => x :: values l end.
Lemma count_tasks_app l1 l2 : count_tasks (l1 ++ l2) = count_tasks l1 + count_tasks l2.
Proof. induction l1 as [|[] l1 IH]; simpl; [done|done|]. by rewrite IH. Qed.
Lemma values_app l1 l2 : values (l1 ++ l2) = values l1 ++ values l2.
Proof. induction l1 as [|[] l1 IH]; simpl; [done| |done]. by rewrite IH. Qed.
#[local] Instance count_tasks_proper : Proper ((≡ₚ) ==> eq) count_tasks.
Proof. induction 1 as [|[] l l' _ IH|[] [] l|l1 l2 l3 _ IH1 _ IH2]; simpl; congruence. Qed.
#[local] Instance values_proper : Proper ((≡ₚ) ==> (≡ₚ)) values.
Proof.
  induction 1 as [|[] l l' _ IH|[] [] l|l1 l2 l3 _ IH1 _ IH2]; simpl; try done; [by constructor|constructor|by etrans].
Qed.
Lemma values_sunk l : values (Some <$> l) = l /\ count_tasks (Some <$> l) = 0.
Proof. induction l as [|x l [IH1 IH2]]; csimpl; [done|]. by rewrite IH1, IH2. Qed.
Definition works (acts : list (Action (Ctx := Ctx) (Val := Val))) : nat := count_tasks (acts ≫= ticks).
Lemma works_ticks acts : values (acts ≫= ticks) = [].
Proof. induction acts as [|[] acts IH]; [done|exact IH|exact IH|exact IH]. Qed.

(** C3. In a graph without cycles whose functions do not throw and whose pools accept, the
    values that reach the sinks are, up to order, those that the structure of the graph gives
    for the messages that came in, once no task is left; and a run has exactly as many tasks as
    this structure says, so that it always comes to an end.  Which edges are asynchronous, and
    the order in which the tasks run, make no difference to the values.  This is said of runs in
    which no delayed message is cancelled: the task of a cancelled one is executed and sends
    nothing. *)
Theorem sinks_schedule_independent acts w
    (Hrun : run_graph refuses depth g acts (mkWorld [] []) = Some w) (Huncancelled : forallb uncancelled acts = true) :
  works acts <= count_tasks (acts ≫= brings) /\
  (tasks w = [] -> sunk w ≡ₚ values (acts ≫= brings) /\ works acts = count_tasks (acts ≫= brings)).
Proof.
  pose proof (run_events _ _ _ Huncancelled Hrun) as He. unfold events at 2 in He. simpl in He. rewrite app_nil_r in He.
  unfold works. rewrite <- He, count_tasks_app, values_app, works_ticks. split; [lia|]. intros Ht.
  unfold events. rewrite Ht. simpl. rewrite app_nil_r. destruct (values_sunk (sunk w)) as [-> ->]. split; [done|lia].
Qed.
End Schedule.

(** ** A graph with a split, a pool, a delay and a merge *)
Module Sample.
Definition pool : CallerKind := TaskPoolCaller "work"%string.
Definition call : CallerKind := DirectCaller false.
Definition graph : @Graph unit Z :=
  <[1 := mkNode Input (Some (mkEdge 2 call)) None []]>
  (<[2 := mkNode Split None None [mkEdge 3 call; mkEdge 4 pool]]>
  (<[3 := mkNode (Map (fun c v => ([(c, v); (c, v * 10)%Z], false))) (Some (mkEdge 5 call)) None []]>
  (<[4 := mkNode (Delay (fun _ v => Some v)) (Some (mkEdge 5 pool)) None []]>
  (<[5 := mkNode Merge (Some (mkEdge 6 call)) None []]>
  (<[6 := mkNode (Sink (fun _ _ => false)) None None []]> ∅))))).
Definition never (e : Edge) (c : unit) (v : Z) : bool := false.
Definition acts : list Action := [Feed 1 tt 7%Z; Work 0 false; Work 0 false; Work 0 false].

(** The entries of a table given by insertions. *)
Ltac each_node H :=
  repeat (apply (lookup_insert_Some (M := gmap nat)) in H as [[<- <-]|[_ H]]; [|]); try done.
Lemma acyclic_graph : acyclic graph (fun id => 6 - id).
Proof.
  intros id n e Hn He. unfold graph in Hn. each_node Hn; unfold edges in He; simpl in He;
    repeat (apply elem_of_cons in He as [->|He]); try (by apply not_elem_of_nil in He);
    (split; [simpl; lia|eexists; vm_compute; reflexivity]).
Qed.
Lemma calm_graph id n : graph !! id = Some n -> calm_node n.
Proof. intros Hn. unfold graph in Hn. each_node Hn. intros. by eexists. Qed.
End Sample.

Lemma sinks_schedule_independent_witness :
  exists w, run_graph Sample.never 7 Sample.graph Sample.acts (mkWorld [] []) = Some w /\
    sunk w ≡ₚ [(6, tt, 7%Z); (6, tt, 70%Z); (6, tt, 7%Z)].
Proof.
  destruct (run_graph Sample.never 7 Sample.graph Sample.acts (mkWorld [] [])) as [w|] eqn:Hr; [|by vm_compute in Hr].
  destruct (sinks_schedule_independent Sample.never Sample.graph (fun id => 6 - id) 7 Sample.acyclic_graph
              ltac:(intros; cbv beta; lia) Sample.calm_graph (fun _ _ _ => eq_refl) Sample.acts w Hr eq_refl) as [_ Hdone].
  exists w. split; [done|]. destruct Hdone as [Hs _].
  - vm_compute in Hr. by injection Hr as <-.
  - rewrite Hs. vm_compute. reflexivity.
Defined.
