(* ===== verification/SubStream.v ===== *)
(** * Sub-streams: a graph called as a function

    operators/substream.inl.  [consume] sends a value into the body of the sub-stream and waits
    until a result made the collector say that it has enough, the context is cancelled or its
    deadline passes.  Results come from any coroutine at any time ([deliver]); stop callbacks
    call [cancel].  The state is that of one [SubStreamCall]; every access to an atomic, the
    mutex or the event is a step of its own.  Which results come, what the collector answers,
    whether the body throws, and when the wait ends early are chosen freely.  [outs] is a ghost
    field: the answers of the collector, latest first. *)
From Stdlib Require Import Lia.
From stdpp Require Import list.
From S2P Require Import Prelude.

Module Sub.

Inductive Answer := AMore | AEnough | AThrows.
(** How [consume] ends: normally, with the exception of the collector, with
    [OperationCancelledError], with the exception of the body, or with an interrupted wait. *)
Inductive Outcome := Completed | CollectorError | Cancelled | BodyThrew | Interrupted.

(** The places of [consume], from the call of the body to the end of [close]. *)
Inductive IPc :=
  | IBody
  | IWait
  | ICancel
  | ISend
  | ILock
  | IDecide
  | IClose (r : Outcome)
  | ICloseSend (r : Outcome)
  | ICloseLock (r : Outcome)
  | IReset (r : Outcome)
  | IDone (r : Outcome).
(** The places of [deliver]. *)
Inductive DPc := DCheck | DLock | DRecheck | DContext | DOut | DClose | DSend | DEnd.
Inductive Owner := OInvoker | ODeliver (i : nat).
#[export] Instance Owner_eq_dec : EqDecision Owner.
Proof. solve_decision. Defined.

(** [sent] is the event [done_]; [alive] until [close] resets collector and context; [cancels]
    counts the stop callbacks between the exchange of [closed_] and [done_.Send()]. *)
Record State := mkState {
  closed_ : bool;
  sent : bool;
  completed_ : bool;
  error_ : bool;
  alive : bool;
  mutex : option Owner;
  invoker : IPc;
  delivers : list DPc;
  cancels : nat;
  outs : list Answer;
}.
Implicit Types (s : State).
Definition set_closed_ v s := mkState v (sent s) (completed_ s) (error_ s) (alive s) (mutex s) (invoker s) (delivers s) (cancels s) (outs s).
Definition set_sent v s := mkState (closed_ s) v (completed_ s) (error_ s) (alive s) (mutex s) (invoker s) (delivers s) (cancels s) (outs s).
Definition set_completed_ v s := mkState (closed_ s) (sent s) v (error_ s) (alive s) (mutex s) (invoker s) (delivers s) (cancels s) (outs s).
Definition set_error_ v s := mkState (closed_ s) (sent s) (completed_ s) v (alive s) (mutex s) (invoker s) (delivers s) (cancels s) (outs s).
Definition set_alive v s := mkState (closed_ s) (sent s) (completed_ s) (error_ s) v (mutex s) (invoker s) (delivers s) (cancels s) (outs s).
Definition set_mutex v s := mkState (closed_ s) (sent s) (completed_ s) (error_ s) (alive s) v (invoker s) (delivers s) (cancels s) (outs s).
Definition set_invoker v s := mkState (closed_ s) (sent s) (completed_ s) (error_ s) (alive s) (mutex s) v (delivers s) (cancels s) (outs s).
Definition set_delivers v s := mkState (closed_ s) (sent s) (completed_ s) (error_ s) (alive s) (mutex s) (invoker s) v (cancels s) (outs s).
Definition set_cancels v s := mkState (closed_ s) (sent s) (completed_ s) (error_ s) (alive s) (mutex s) (invoker s) (delivers s) v (outs s).
Definition set_outs v s := mkState (closed_ s) (sent s) (completed_ s) (error_ s) (alive s) (mutex s) (invoker s) (delivers s) (cancels s) v.

Definition created : State := mkState false false false false true None IBody [] 0 [].

(** ** Before the call *)
Inductive SourceError := AlreadySet | OwnSource | OtherService | HasConsumer | NoCaller.
(** [setSource]; streams are numbers, [prepared] is whether the caller of the edge can be made. *)
Definition setSource (self source : nat) (sameEnv hasConsumer prepared : bool) (resultSource_ : option nat) : result SourceError (option nat) :=
  match resultSource_ with
  | Some _ => Err AlreadySet
  | None =>
      if bool_decide (source = self) then Err OwnSource
      else if negb sameEnv then Err OtherService
      else if hasConsumer then Err HasConsumer
      else if negb prepared then Err NoCaller
      else Ok (Some source)
  end.

Inductive Refusal := NullCollector | NotConfigured | CancelledBefore | RuntimeStopping.
(** [consume] up to the creation of the call; [begun] is whether [beginInputInvocation] succeeds. *)
Definition consume_start (collector : bool) (resultSource_ : option nat) (hasConsumer cancelled begun : bool) : result Refusal State :=
  if negb collector then Err NullCollector
  else match resultSource_ with
       | None => Err NotConfigured
       | Some _ =>
           if negb hasConsumer then Err NotConfigured
           else if cancelled then Err CancelledBefore
           else if negb begun then Err RuntimeStopping
           else Ok created
       end.

(** ** The call *)
(** What is chosen for a step of [consume]. *)
Inductive Choice := Goes | Early | Throws.

(** [consume] after the call was made: the body, [wait], and [close] by the guard. *)
Definition invoker_step (ch : Choice) s : option State :=
  match invoker s with
  | IBody => Some (set_invoker (match ch with Throws => IClose BodyThrew | _ => IWait end) s)
  | IWait =>
      match ch with
      | Throws => Some (set_invoker (IClose Interrupted) s)
      | Early => Some (set_invoker ICancel s)
      | Goes => if sent s then Some (set_invoker ICancel s) else None
      end
  | ICancel => Some (if closed_ s then set_invoker ILock s else s |> set_closed_ true |> set_invoker ISend)
  | ISend => Some (s |> set_sent true |> set_invoker ILock)
  | ILock => match mutex s with None => Some (s |> set_mutex (Some OInvoker) |> set_invoker IDecide) | Some _ => None end
  | IDecide =>
      let r := if error_ s then CollectorError else if completed_ s then Completed else Cancelled in
      Some (s |> set_mutex None |> set_invoker (IClose r))
  | IClose r => Some (if closed_ s then set_invoker (ICloseLock r) s else s |> set_closed_ true |> set_invoker (ICloseSend r))
  | ICloseSend r => Some (s |> set_sent true |> set_invoker (ICloseLock r))
  | ICloseLock r => match mutex s with None => Some (s |> set_mutex (Some OInvoker) |> set_invoker (IReset r)) | Some _ => None end
  | IReset r => Some (s |> set_alive false |> set_error_ false |> set_mutex None |> set_invoker (IDone r))
  | IDone _ => None
  end.

(** The [i]-th [deliver]; [cancelled] is what the context says, [answer] what the collector does. *)
Definition at_deliver (i : nat) (p : DPc) s : State := set_delivers (<[i := p]> (delivers s)) s.
Definition deliver_step (i : nat) (cancelled : bool) (answer : Answer) s : option State :=
  match delivers s !! i with
  | None => None
  | Some p =>
      match p with
      | DCheck => Some (at_deliver i (if closed_ s then DEnd else DLock) s)
      | DLock => match mutex s with None => Some (s |> set_mutex (Some (ODeliver i)) |> at_deliver i DRecheck) | Some _ => None end
      | DRecheck => Some (if closed_ s then s |> set_mutex None |> at_deliver i DEnd else at_deliver i DContext s)
      | DContext => Some (at_deliver i (if cancelled then DClose else DOut) s)
      | DOut =>
          let s := set_outs (answer :: outs s) s in
          Some (match answer with
                | AMore => s |> set_mutex None |> at_deliver i DEnd
                | AEnough => s |> set_completed_ true |> at_deliver i DClose
                | AThrows => s |> set_error_ true |> at_deliver i DClose
                end)
      | DClose => Some (if closed_ s then s |> set_mutex None |> at_deliver i DEnd else s |> set_closed_ true |> at_deliver i DSend)
      | DSend => Some (s |> set_sent true |> set_mutex None |> at_deliver i DEnd)
      | DEnd => None
      end
  end.

Inductive Action :=
  | AInvoker (ch : Choice)
  | AResult
  | ADeliver (i : nat) (cancelled : bool) (answer : Answer)
  | ACancel
  | ACancelSend.
Definition act (a : Action) s : option State :=
  match a with
  | AInvoker ch => invoker_step ch s
  | AResult => Some (set_delivers (delivers s ++ [DCheck]) s)
  | ADeliver i cancelled answer => deliver_step i cancelled answer s
  | ACancel => Some (if closed_ s then s else s |> set_closed_ true |> set_cancels (S (cancels s)))
  | ACancelSend => match cancels s with O => None | S n => Some (s |> set_sent true |> set_cancels n) end
  end.
Definition step s s' : Prop := exists a, act a s = Some s'.
Definition reachable s : Prop := rtc step created s.
Fixpoint run (acts : list Action) s : option State :=
  match acts with [] => Some s | a :: acts => act a s ≫= run acts end.
End Sub.
