(* ===== verification/SubStreamTheorems.v ===== *)
(** * What a caller of a sub-stream can rely on *)
From Stdlib Require Import Lia.
From stdpp Require Import list.
From S2P Require Import Prelude SubStream.
Import Sub.

(** Outcomes that [wait] decides on. *)
Definition waited (r : Outcome) : bool := match r with Completed | CollectorError | Cancelled => true | _ => false end.
Definition past_close (p : IPc) : bool :=
  match p with
  | IBody | IWait | ICancel => false
  | IClose r => waited r
  | _ => true
  end.
(** Past the point where the answers of the collector count. *)
Definition decided (p : IPc) : bool :=
  match p with
  | IDecide | IReset _ | IDone _ => true
  | IClose r | ICloseSend r | ICloseLock r => waited r
  | _ => false
  end.
Definition invoker_holds (p : IPc) : bool := match p with IDecide | IReset _ => true | _ => false end.
Definition deliver_holds (p : DPc) : bool :=
  match p with DRecheck | DContext | DOut | DClose | DSend => true | _ => false end.
(** Inside the callback, or about to call it. *)
Definition calling (p : DPc) : bool := match p with DContext | DOut => true | _ => false end.
Definition entered (p : DPc) : bool := match p with DContext | DOut | DClose | DSend => true | _ => false end.
Definition final (a : Answer) : bool := match a with AMore => false | _ => true end.
Definition sending (p : IPc) : bool := match p with ISend | ICloseSend _ => true | _ => false end.
Definition is_done (p : IPc) : bool := match p with IDone _ => true | _ => false end.
(** The outcome that is on its way out. *)
Definition outcome (p : IPc) : option Outcome :=
  match p with IClose r | ICloseSend r | ICloseLock r | IReset r | IDone r => Some r | _ => None end.
Definition justified (r : Outcome) (l : list Answer) : Prop :=
  match r with
  | Completed => AEnough ∈ l
  | CollectorError => AThrows ∈ l
  | Cancelled => existsb final l = false
  | _ => True
  end.

Record inv (s : State) : Prop := {
  inv_deliver i p : delivers s !! i = Some p -> deliver_holds p = true -> mutex s = Some (ODeliver i);
  inv_owner i : mutex s = Some (ODeliver i) -> exists p, delivers s !! i = Some p /\ deliver_holds p = true;
  inv_invoker : mutex s = Some OInvoker <-> invoker_holds (invoker s) = true;
  inv_closed : past_close (invoker s) = true -> closed_ s = true;
  inv_alive : alive s = negb (is_done (invoker s));
  inv_entered i p : delivers s !! i = Some p -> entered p = true -> decided (invoker s) = false;
  inv_completed : completed_ s = true <-> AEnough ∈ outs s;
  inv_error : error_ s = true <-> AThrows ∈ outs s /\ is_done (invoker s) = false;
  inv_final i p : existsb final (outs s) = true -> delivers s !! i = Some p -> calling p = false;
  inv_last : existsb final (outs s) = true -> closed_ s = true \/ exists i, delivers s !! i = Some DClose;
  inv_once : length (filter (fun a => final a = true) (outs s)) <= 1;
  inv_outcome r : outcome (invoker s) = Some r -> justified r (outs s);
  inv_wake : closed_ s = true -> sent s = true \/ sending (invoker s) = true \/
      (exists i, delivers s !! i = Some DSend) \/ 0 < cancels s;
}.

Lemma lookup_update (l : list DPc) i j p q :
  <[i := p]> l !! j = Some q -> (j = i /\ q = p) \/ (j <> i /\ l !! j = Some q).
Proof. rewrite list_lookup_insert_Some. naive_solver. Qed.
Lemma lookup_new (l : list DPc) j p q : (l ++ [p]) !! j = Some q -> q = p \/ l !! j = Some q.
Proof.
  intros Hl. apply lookup_app_Some in Hl as [?|[_ Hl]]; [by right|]. apply list_lookup_singleton_Some in Hl as [_ ?]. by left.
Qed.
Lemma final_elem l : existsb final l = false <-> AEnough ∉ l /\ AThrows ∉ l.
Proof.
  induction l as [|a l IH]; simpl; [set_solver|]. rewrite orb_false_iff, IH. destruct a; simpl; set_solver.
Qed.

Lemma inv_created : inv created.
Proof. split; simpl; try done; try set_solver; try lia. Qed.

(** The invoker leaves the deliveries and the answers alone. *)
Definition wakes (s : State) : Prop :=
  closed_ s = true -> sent s = true \/ sending (invoker s) = true \/
      (exists i, delivers s !! i = Some DSend) \/ 0 < cancels s.
Lemma invoker_frame s s' :
  inv s ->
  (delivers s' = delivers s /\ outs s' = outs s /\ completed_ s' = completed_ s) ->
  (closed_ s = true -> closed_ s' = true) ->
  (forall i, mutex s' = Some (ODeliver i) <-> mutex s = Some (ODeliver i)) ->
  (mutex s' = Some OInvoker <-> invoker_holds (invoker s') = true) ->
  (past_close (invoker s') = true -> closed_ s' = true) ->
  alive s' = negb (is_done (invoker s')) ->
  (decided (invoker s') = true -> decided (invoker s) = true \/ mutex s = None) ->
  (error_ s' = true <-> AThrows ∈ outs s /\ is_done (invoker s') = false) ->
  (forall r, outcome (invoker s') = Some r -> justified r (outs s)) ->
  wakes s' -> inv s'.
Proof.
  intros [Hd Ho Hi Hc Ha He Hco Her Hf Hl Hon Hou Hw] (Ed & Eo & Ec) Hcl Hm Hmi Hp Hal Hde Herr Hout Hwk.
  split; rewrite ?Ed, ?Eo, ?Ec; auto.
  - intros i p Hip Hh. apply Hm. by eapply Hd.
  - intros i Hmu. by apply Ho, Hm.
  - intros i p Hip Hent. destruct (decided (invoker s')) eqn:E; [|done]. destruct Hde as [Hde|Hmu]; [done| |].
    + rewrite (He i p) in Hde; done.
    + assert (deliver_holds p = true) by by destruct p. rewrite (Hd i p) in Hmu; done.
  - intros Hfin. destruct (Hl Hfin); auto.
  - intros Hx. destruct (Hwk Hx) as [?|[?|[Hs|?]]]; auto. rewrite Ed in Hs. auto.
Qed.

Lemma decide_justified s : inv s ->
  justified (if error_ s then CollectorError else if completed_ s then Completed else Cancelled) (outs s) \/ is_done (invoker s) = true.
Proof.
  intros Hinv. pose proof (inv_error _ Hinv) as He. pose proof (inv_completed _ Hinv) as Hc.
  destruct (is_done (invoker s)) eqn:Hd; [by right|left]. destruct (error_ s); [naive_solver|]. destruct (completed_ s); [naive_solver|].
  apply final_elem. naive_solver.
Qed.

(** Closes the side conditions of [invoker_frame] that hold by looking at the place. *)
Ltac place :=
  simpl in *; first [done | tauto | congruence | (intros; discriminate) | (intros; split; congruence)
    | (intros; simplify_eq; simpl in *; first [done | tauto | solve [auto]])].
Ltac moved Hs Hinv Hp := injection Hs as <-; apply (invoker_frame _ _ Hinv); unfold wakes; simpl; rewrite ?Hp.

Lemma inv_invoker_step ch s s' : inv s -> invoker_step ch s = Some s' -> inv s'.
Proof.
  intros Hinv Hs. unfold invoker_step in Hs. pose proof (inv_invoker _ Hinv) as Hi. pose proof (inv_closed _ Hinv) as Hc.
  pose proof (inv_alive _ Hinv) as Ha. pose proof (inv_error _ Hinv) as Her. pose proof (inv_outcome _ Hinv) as Hou.
  pose proof (inv_wake _ Hinv) as Hw. pose proof (decide_justified _ Hinv) as Hj.
  destruct (invoker s) as [| | | | | |r|r|r|r|r] eqn:Hp; simpl in *.
  - moved Hs Hinv Hp; destruct ch; place.
  - destruct ch; [destruct (sent s) eqn:Hse; [|done]|..]; moved Hs Hinv Hp; place.
  - destruct (closed_ s) eqn:Hcl; moved Hs Hinv Hp; place.
  - moved Hs Hinv Hp; place.
  - destruct (mutex s) eqn:Hm; [done|]; moved Hs Hinv Hp; rewrite ?Hm; place.
  - assert (Hm : mutex s = Some OInvoker) by tauto.
    moved Hs Hinv Hp; rewrite ?Hm; try place.
    all: destruct Hj as [Hj|]; [|done]; destruct (error_ s), (completed_ s); place.
  - destruct (closed_ s) eqn:Hcl; moved Hs Hinv Hp; destruct r; place.
  - moved Hs Hinv Hp; destruct r; place.
  - destruct (mutex s) eqn:Hm; [done|]; moved Hs Hinv Hp; rewrite ?Hm; place.
  - assert (Hm : mutex s = Some OInvoker) by tauto.
    moved Hs Hinv Hp; rewrite ?Hm; try place. split; [done|by intros [_ ?]].
  - done.
Qed.

(** One delivery moves from [p] to [p']; the rest of the call stays as it is. *)
Lemma deliver_frame s s' i p p' :
  inv s -> delivers s !! i = Some p -> delivers s' = <[i := p']> (delivers s) ->
  (invoker s' = invoker s /\ alive s' = alive s /\ cancels s' = cancels s) ->
  (closed_ s = true -> closed_ s' = true) -> (sent s = true -> sent s' = true) ->
  (deliver_holds p' = true <-> mutex s' = Some (ODeliver i)) ->
  (forall o, o <> ODeliver i -> mutex s' = Some o <-> mutex s = Some o) ->
  (entered p' = true -> decided (invoker s) = false) ->
  (completed_ s' = true <-> AEnough ∈ outs s') ->
  (error_ s' = true <-> AThrows ∈ outs s' /\ is_done (invoker s) = false) ->
  (existsb final (outs s') = true -> calling p' = false /\ (existsb final (outs s) = true \/ p = DOut)) ->
  (existsb final (outs s') = true -> closed_ s' = true \/ p' = DClose \/ (existsb final (outs s) = true /\ p <> DClose)) ->
  length (filter (fun a => final a = true) (outs s')) <= 1 ->
  (forall r, outcome (invoker s) = Some r -> justified r (outs s')) ->
  (closed_ s' = true -> sent s' = true \/ p' = DSend \/ (closed_ s = true /\ p <> DSend)) ->
  inv s'.
Proof.
  intros [Hd Ho Hi Hc Ha He Hco Her Hf Hl Hon Hou Hw] Hip Ed (Ei & Ea & Ecn) Hcl Hse Hme Hmo Hent Hcomp Herr Hfin Hlast Honce Hout Hwake.
  assert (Hii : <[i := p']> (delivers s) !! i = Some p') by (apply list_lookup_insert_eq; by eapply lookup_lt_Some).
  assert (Hother : forall j q, j <> i -> delivers s !! j = Some q -> <[i := p']> (delivers s) !! j = Some q)
    by (intros j q Hj Hq; by rewrite list_lookup_insert_ne).
  split; rewrite ?Ed, ?Ei; auto.
  - intros j q [[-> ->]|[Hj Hq]]%lookup_update Hh; [by apply Hme|]. apply Hmo; [congruence|by eapply Hd].
  - intros j Hm. destruct (decide (j = i)) as [->|Hj]; [exists p'; by rewrite Hme|].
    apply Hmo in Hm; [|congruence]. destruct (Ho j Hm) as (q & Hq & Hh). eauto.
  - rewrite Hmo; done.
  - by rewrite Ea.
  - intros j q [[-> ->]|[Hj Hq]]%lookup_update Hh; [auto|by eapply He].
  - intros j q Hx [[-> ->]|[Hj Hq]]%lookup_update; [by apply Hfin|]. destruct (Hfin Hx) as [_ [Hold| ->]]; [by eapply Hf|].
    destruct (calling q) eqn:Hq'; [|done]. assert (deliver_holds q = true) by by destruct q.
    pose proof (Hd j q Hq ltac:(done)) as Hm1. pose proof (Hd i DOut Hip eq_refl). congruence.
  - intros Hx. destruct (Hlast Hx) as [?|[->|[Hold Hp]]]; [by left|eauto|].
    destruct (Hl Hold) as [?|[j Hj]]; [auto|]. right. exists j. apply Hother; [congruence|done].
  - intros Hx. destruct (Hwake Hx) as [?|[->|[Hold Hp]]]; [by left|eauto 6|].
    destruct (Hw Hold) as [?|[?|[[j Hj]|?]]]; [auto|auto| |rewrite Ecn; auto]. right; right; left. exists j. apply Hother; [congruence|done].
Qed.

Lemma decided_past p : decided p = true -> past_close p = true.
Proof. by destruct p. Qed.
Lemma owned_not_held s i p : inv s -> delivers s !! i = Some p -> deliver_holds p = false -> mutex s <> Some (ODeliver i).
Proof. intros Hinv Hip Hp Hm. destruct (inv_owner _ Hinv i Hm) as (q & Hq & Hh). congruence. Qed.
(** An answer is given before the caller decides, so it contradicts no outcome. *)
Lemma undecided_justified s r l : decided (invoker s) = false -> outcome (invoker s) = Some r -> justified r l.
Proof. by destruct (invoker s) as [| | | | | |[]|[]|[]|[]|[]]; simpl; intros; simplify_eq. Qed.

(** A step of a delivery that gives no answer. *)
Lemma deliver_quiet s s' i p p' :
  inv s -> delivers s !! i = Some p -> p <> DOut -> delivers s' = <[i := p']> (delivers s) ->
  (invoker s' = invoker s /\ alive s' = alive s /\ cancels s' = cancels s) ->
  (outs s' = outs s /\ completed_ s' = completed_ s /\ error_ s' = error_ s) ->
  (closed_ s = true -> closed_ s' = true) -> (sent s = true -> sent s' = true) ->
  (deliver_holds p' = true <-> mutex s' = Some (ODeliver i)) ->
  (forall o, o <> ODeliver i -> mutex s' = Some o <-> mutex s = Some o) ->
  (entered p' = true -> decided (invoker s) = false) ->
  (calling p' = true -> existsb final (outs s) = false) ->
  (p = DClose -> closed_ s' = true) ->
  (closed_ s' = true -> sent s' = true \/ p' = DSend \/ (closed_ s = true /\ p <> DSend)) ->
  inv s'.
Proof.
  intros Hinv Hip Hno Ed Ei (Eo & Ec & Ee) Hcl Hse Hme Hmo Hent Hcall Hclose Hwake.
  apply (deliver_frame s s' i p p' Hinv Hip Ed Ei Hcl Hse Hme Hmo Hent); rewrite ?Eo, ?Ec, ?Ee; auto; try apply Hinv.
  - intros Hx. split; [|auto]. destruct (calling p'); [|done]. rewrite Hcall in Hx; done.
  - intros Hx. destruct p; auto.
Qed.

Lemma filter_final_none l : existsb final l = false -> filter (fun a => final a = true) l = [].
Proof.
  induction l as [|a l IH]; simpl; [done|]. intros [Ha Hl]%orb_false_iff. rewrite filter_cons_False by congruence. auto.
Qed.
(** The collector answers. *)
Lemma inv_answer i a s s' :
  inv s -> delivers s !! i = Some DOut -> deliver_step i false a s = Some s' -> inv s'.
Proof.
  intros Hinv Hip Hs. unfold deliver_step in Hs. rewrite Hip in Hs.
  pose proof (inv_deliver _ Hinv i _ Hip eq_refl) as Hm. pose proof (inv_entered _ Hinv i _ Hip eq_refl) as He.
  assert (Hno : existsb final (outs s) = false).
  { destruct (existsb final (outs s)) eqn:Hx; [|done]. by pose proof (inv_final _ Hinv i _ Hx Hip). }
  pose proof (filter_final_none _ Hno) as Hfl. pose proof (inv_completed _ Hinv) as Hco. pose proof (inv_error _ Hinv) as Her.
  assert (is_done (invoker s) = false) as Hdn by (destruct (invoker s); done).
  destruct a; injection Hs as <-; (eapply (deliver_frame s _ i DOut _ Hinv Hip); [reflexivity|..]); simpl; rewrite ?Hno, ?Hm, ?Hdn; try done; auto.
  all: try (rewrite filter_cons; simpl; rewrite Hfl; simpl; lia).
  all: try (intros; by eapply undecided_justified).
  all: try (rewrite Hfl; simpl; lia).
  all: try (intros; split; congruence).
  all: rewrite ?Hco, ?Her, ?Hdn, elem_of_cons; intuition congruence.
Qed.

Ltac quiet Hs Hinv Hip := injection Hs as <-; eapply (deliver_quiet _ _ _ _ _ Hinv Hip); [done|reflexivity|..]; simpl; try done; auto.

Lemma inv_deliver_step i cancelled answer s s' : inv s -> deliver_step i cancelled answer s = Some s' -> inv s'.
Proof.
  intros Hinv Hs. unfold deliver_step in Hs. destruct (delivers s !! i) as [p|] eqn:Hip; [|done].
  pose proof (inv_deliver _ Hinv i p Hip) as Hm. pose proof (owned_not_held s i p Hinv Hip) as Hnm.
  pose proof (inv_entered _ Hinv i p Hip) as He. pose proof (inv_final _ Hinv i p) as Hf.
  destruct p; simpl in *.
  - quiet Hs Hinv Hip; destruct (closed_ s); simpl; try done; naive_solver.
  - destruct (mutex s) eqn:Hmu; [done|]. quiet Hs Hinv Hip. rewrite Hmu. intros; split; congruence.
  - specialize (Hm eq_refl). destruct (closed_ s) eqn:Hcl.
    + quiet Hs Hinv Hip. rewrite Hm. intros; split; congruence.
    + quiet Hs Hinv Hip.
      * intros _. destruct (decided (invoker s)) eqn:Hde; [|done]. rewrite (inv_closed _ Hinv) in Hcl; [done|by apply decided_past].
      * intros _. destruct (existsb final (outs s)) eqn:Hx; [|done]. destruct (inv_last _ Hinv Hx) as [?|[j Hj]]; [congruence|].
        pose proof (inv_deliver _ Hinv j _ Hj eq_refl). congruence.
  - specialize (Hm eq_refl). quiet Hs Hinv Hip; destruct cancelled; try done.
    intros _. destruct (existsb final (outs s)); [|done]. by specialize (Hf eq_refl Hip).
  - apply (inv_answer i answer s s' Hinv Hip). unfold deliver_step. by rewrite Hip.
  - specialize (Hm eq_refl). destruct (closed_ s) eqn:Hcl; quiet Hs Hinv Hip; rewrite ?Hm; try (intros; split; congruence); rewrite ?Hcl; auto.
  - specialize (Hm eq_refl). quiet Hs Hinv Hip; rewrite ?Hm; try (intros; split; congruence).
  - done.
Qed.

Lemma sub_step s s' : inv s -> step s s' -> inv s'.
Proof.
  intros Hinv [[ch| |i c a| |] Hs]; simpl in Hs.
  - by eapply inv_invoker_step.
  - injection Hs as <-. destruct Hinv as [Hd Ho Hi Hc Ha He Hco Her Hf Hl Hon Hou Hw].
    assert (Hext : forall j q, delivers s !! j = Some q -> (delivers s ++ [DCheck]) !! j = Some q)
      by (intros j q Hq; by apply lookup_app_l_Some).
    split; simpl; auto.
    + intros j q [->|Hq]%lookup_new; [done|by eapply Hd].
    + intros j Hm. destruct (Ho j Hm) as (q & Hq & Hh). eauto.
    + intros j q [->|Hq]%lookup_new; [done|by eapply He].
    + intros j q Hx [->|Hq]%lookup_new; [done|by eapply Hf].
    + intros Hx. destruct (Hl Hx) as [?|[j Hj]]; eauto.
    + intros Hx. destruct (Hw Hx) as [?|[?|[[j Hj]|?]]]; eauto 6.
  - by eapply inv_deliver_step.
  - injection Hs as <-. destruct (closed_ s) eqn:Hcl; [done|]. destruct Hinv as [Hd Ho Hi Hc Ha He Hco Her Hf Hl Hon Hou Hw].
    split; simpl; auto. intros _. right; right; right. lia.
  - destruct (cancels s) as [|n] eqn:Hn; [done|]. injection Hs as <-. destruct Hinv as [Hd Ho Hi Hc Ha He Hco Her Hf Hl Hon Hou Hw].
    split; simpl; auto.
Qed.
Lemma sub_reachable s : reachable s -> inv s.
Proof. apply (rtc_ind_r inv); [apply inv_created|]. intros; by eapply sub_step. Qed.

(** ** What the caller sees *)
Lemma done_step s s' r : invoker s = IDone r -> reachable s -> step s s' -> invoker s' = IDone r /\ outs s' = outs s.
Proof.
  intros Hr Hre [a Hs]. pose proof (sub_reachable _ Hre) as Hinv. destruct a as [ch| |i c a| |]; simpl in Hs.
  - unfold invoker_step in Hs. rewrite Hr in Hs. done.
  - by injection Hs as <-.
  - unfold deliver_step in Hs. destruct (delivers s !! i) as [p|] eqn:Hip; [|done].
    pose proof (inv_entered _ Hinv i p Hip) as He. rewrite Hr in He.
    destruct p; simpl in *; try (specialize (He eq_refl); done); try done.
    + by injection Hs as <-.
    + destruct (mutex s); [done|]. by injection Hs as <-.
    + injection Hs as <-. by destruct (closed_ s).
  - injection Hs as <-. by destruct (closed_ s).
  - destruct (cancels s); [done|]. by injection Hs as <-.
Qed.
Lemma done_steps s s' r : reachable s -> invoker s = IDone r -> rtc step s s' -> invoker s' = IDone r /\ outs s' = outs s.
Proof.
  intros Hre Hr Hst. revert Hre Hr. induction Hst as [|s s1 s2 H1 _ IH]; [done|]. intros Hre Hr.
  destruct (done_step _ _ _ Hr Hre H1) as [Hr1 Ho1]. destruct IH as [Hr2 Ho2]; [by eapply rtc_r|done|]. split; [done|congruence].
Qed.
Lemma sub_run_steps acts : forall s s', run acts s = Some s' -> rtc step s s'.
Proof.
  induction acts as [|a acts IH]; simpl; intros s s' Hr; [by simplify_eq; apply rtc_refl|].
  apply bind_Some in Hr as (s1 & H1 & Hr). eapply rtc_l; [by exists a|auto].
Qed.

(** ** A closed call returns *)
Definition internal (a : Action) : bool := match a with AInvoker _ | ADeliver _ _ _ | ACancelSend => true | _ => false end.
(** Steps that wait for nothing from outside the call: no deadline passes, nothing interrupts the
    wait and the body does not throw.  The event alone ends [wait]. *)
Definition unprompted (a : Action) : bool :=
  match a with AInvoker Goes | ADeliver _ _ _ | ACancelSend => true | _ => false end.
Definition irank (p : IPc) : nat :=
  match p with
  | IBody => 10 | IWait => 9 | ICancel => 8 | ISend => 7 | ILock => 6 | IDecide => 5
  | IClose _ => 4 | ICloseSend _ => 3 | ICloseLock _ => 2 | IReset _ => 1 | IDone _ => 0
  end.
Definition drank (p : DPc) : nat :=
  match p with DCheck => 7 | DLock => 6 | DRecheck => 5 | DContext => 4 | DOut => 3 | DClose => 2 | DSend => 1 | DEnd => 0 end.
Definition work (s : State) : nat := irank (invoker s) + sum_list_with drank (delivers s) + cancels s.

Lemma sum_update l i p p' : l !! i = Some p -> sum_list_with drank (<[i := p']> l) + drank p = sum_list_with drank l + drank p'.
Proof.
  revert i. induction l as [|q l IH]; intros [|i] Hi; simplify_eq/=; [lia|]. specialize (IH _ Hi). lia.
Qed.
Lemma internal_works a s s' : internal a = true -> act a s = Some s' -> work s' < work s.
Proof.
  intros Ha Hs. destruct a as [ch| |i c a| |]; try done; simpl in Hs.
  - unfold invoker_step in Hs. destruct (invoker s) eqn:Hp; repeat case_match; simplify_eq; unfold work; simpl; rewrite ?Hp; simpl; lia.
  - unfold deliver_step in Hs. destruct (delivers s !! i) as [p|] eqn:Hip; [|done].
    pose proof (fun q => sum_update _ _ _ q Hip) as Hsum. unfold work.
    destruct p; repeat case_match; simplify_eq/=; unfold at_deliver; simpl.
    all: match goal with |- context [<[_ := ?q]> _] => specialize (Hsum q); simpl in Hsum; lia end.
  - destruct (cancels s) eqn:Hc; [done|]. injection Hs as <-. unfold work; simpl. lia.
Qed.
Lemma external_works a s s' : internal a = false -> act a s = Some s' -> work s' <= work s + 7.
Proof.
  intros Ha Hs. destruct a; try done; simpl in Hs; injection Hs as <-.
  - unfold work; simpl. rewrite sum_list_with_app. simpl. lia.
  - destruct (closed_ s); unfold work; simpl; lia.
Qed.
Lemma closed_stays s s' : closed_ s = true -> step s s' -> closed_ s' = true.
Proof.
  intros Hc [a Hs]. destruct a as [ch| |i c a| |]; simpl in Hs.
  - unfold invoker_step in Hs. rewrite Hc in Hs. repeat case_match; simplify_eq; done.
  - by injection Hs as <-.
  - unfold deliver_step in Hs. rewrite Hc in Hs. repeat case_match; simplify_eq; done.
  - rewrite Hc in Hs. by simplify_eq.
  - destruct (cancels s); [done|]. by injection Hs as <-.
Qed.
(** Whoever holds the mutex can go on. *)
Lemma owner_moves s o : inv s -> mutex s = Some o -> exists a, unprompted a = true /\ is_Some (act a s).
Proof.
  intros Hinv Hm. destruct o as [|i].
  - exists (AInvoker Goes). split; [done|]. simpl. unfold invoker_step. apply (inv_invoker _ Hinv) in Hm. destruct (invoker s); done.
  - exists (ADeliver i false AMore). split; [done|]. simpl. unfold deliver_step.
    destruct (inv_owner _ Hinv i Hm) as (p & -> & Hp). destruct p; try done.
Qed.
(** No wakeup is lost: until the caller has returned, somebody can go on, although the wait is
    neither interrupted nor timed out. *)
Lemma closed_moves s :
  inv s -> closed_ s = true -> is_done (invoker s) = false -> exists a, unprompted a = true /\ is_Some (act a s).
Proof.
  intros Hinv Hc Hd. destruct (mutex s) as [o|] eqn:Hm; [by eapply owner_moves|].
  destruct (sent s) eqn:Hs.
  { exists (AInvoker Goes). split; [done|]. simpl. unfold invoker_step. rewrite Hc, Hm, Hs. by destruct (invoker s). }
  destruct (inv_wake _ Hinv Hc) as [?|[Hsd|[[i Hi]|Hn]]]; [congruence|..].
  - exists (AInvoker Goes). split; [done|]. simpl. unfold invoker_step. destruct (invoker s); done.
  - rewrite (inv_deliver _ Hinv i _ Hi eq_refl) in Hm. done.
  - exists ACancelSend. split; [done|]. simpl. destruct (cancels s); [lia|done].
Qed.
Definition internals (acts : list Action) : nat := length (filter (fun a => internal a = true) acts).
Lemma run_works acts : forall s s', run acts s = Some s' -> internals acts + work s' <= work s + 7 * (length acts - internals acts).
Proof.
  unfold internals. induction acts as [|a acts IH]; simpl; intros s s' Hr; [simplify_eq; lia|].
  apply bind_Some in Hr as (s1 & H1 & Hr). specialize (IH _ _ Hr).
  pose proof (length_filter (fun a => internal a = true) acts) as Hle.
  destruct (internal a) eqn:Ha.
  - rewrite filter_cons_True by done. simpl. pose proof (internal_works _ _ _ Ha H1). lia.
  - rewrite filter_cons_False by congruence. pose proof (external_works _ _ _ Ha H1). lia.
Qed.
Lemma closed_steps s s' : closed_ s = true -> rtc step s s' -> closed_ s' = true.
Proof. intros Hc Hst. induction Hst; eauto using closed_stays. Qed.

(** ** The properties *)

(** C31.  A call of a sub-stream that was let in, in every interleaving of its results, stop
    callbacks and the waiting caller: the collector and the caller's context are there whenever
    the collector is about to be or is being called, it is called by one delivery at a time and
    never again after it has answered that it has enough or has thrown, which it does at most
    once.  When [consume] returns, how it ends is justified by the answers (normally only after
    an [AEnough], with the collector's exception only after an [AThrows], cancelled only when
    there was neither), and from then on no delivery calls the collector and nothing changes
    the outcome. *)
Theorem substream_call_exact collector source hasConsumer cancelled begun s0 s
  (Hstart : consume_start collector source hasConsumer cancelled begun = Ok s0) (Hs : rtc step s0 s) :
  collector = true /\ is_Some source /\ hasConsumer = true /\ cancelled = false /\ begun = true /\
  (forall i p, delivers s !! i = Some p -> calling p = true -> alive s = true /\ existsb final (outs s) = false) /\
  (forall i j p q, delivers s !! i = Some p -> delivers s !! j = Some q -> calling p = true -> calling q = true -> i = j) /\
  length (filter (fun a => final a = true) (outs s)) <= 1 /\
  forall r, invoker s = IDone r ->
    justified r (outs s) /\
    forall s', rtc step s s' ->
      invoker s' = IDone r /\ outs s' = outs s /\ forall i p, delivers s' !! i = Some p -> calling p = false.
Proof.
  assert (Hguards : s0 = created /\ collector = true /\ is_Some source /\ hasConsumer = true /\ cancelled = false /\ begun = true).
  { unfold consume_start in Hstart. destruct collector, source, hasConsumer, cancelled, begun; simpl in Hstart; try discriminate.
    injection Hstart as <-. split_and!; first [done | by eexists]. }
  destruct Hguards as (-> & ? & ? & ? & ? & ?). do 5 (split; [done|]).
  pose proof (sub_reachable _ Hs) as Hinv. split; [|split; [|split; [apply Hinv|]]].
  - intros i p Hip Hc. split.
    + rewrite (inv_alive _ Hinv). destruct (is_done (invoker s)) eqn:Hd; [|done].
      assert (decided (invoker s) = false) as Hde by (apply (inv_entered _ Hinv i p Hip); by destruct p). by destruct (invoker s).
    + destruct (existsb final (outs s)) eqn:Hx; [|done]. rewrite (inv_final _ Hinv i p Hx Hip) in Hc. done.
  - intros i j p q Hi Hj Hp Hq. pose proof (inv_deliver _ Hinv i p Hi) as Hm. pose proof (inv_deliver _ Hinv j q Hj) as Hn.
    destruct p; try done; destruct q; try done; specialize (Hm eq_refl); specialize (Hn eq_refl); congruence.
  - intros r Hr. split; [apply (inv_outcome _ Hinv); by rewrite Hr|]. intros s' Hst.
    destruct (done_steps s s' r Hs Hr Hst) as [Hr' Ho]. split; [done|split; [done|]]. intros i p Hip.
    destruct (calling p) eqn:Hc; [|done]. assert (reachable s') as Hre by by (eapply transitivity; [exact Hs|exact Hst]).
    assert (entered p = true) as He by by destruct p. pose proof (inv_entered _ (sub_reachable _ Hre) i p Hip He) as Hde. by rewrite Hr' in Hde.
Qed.

(** One result is enough; a second one comes when the call has been closed. *)
Definition sample_acts : list Action :=
  [AInvoker Goes; AResult; ADeliver 0 false AEnough; AResult; ADeliver 1 false AMore; ADeliver 0 false AEnough;
   ADeliver 0 false AEnough; ADeliver 0 false AEnough; ADeliver 0 false AEnough; ADeliver 0 false AEnough].
Definition sample_end : list Action :=
  [ADeliver 0 false AEnough; AInvoker Goes; ADeliver 1 false AMore; ADeliver 1 false AMore; AInvoker Goes; AInvoker Goes;
   AInvoker Goes; AInvoker Goes; AInvoker Goes; AInvoker Goes].
Definition sample_state : State := default created (run sample_acts created).
Definition sample_done : State := default created (run sample_end sample_state).
Lemma sample_reachable : reachable sample_state.
Proof. apply (sub_run_steps sample_acts created sample_state). vm_compute. reflexivity. Qed.

Lemma substream_call_exact_witness :
  invoker sample_done = IDone Completed /\ outs sample_done = [AEnough] /\ justified Completed (outs sample_done).
Proof.
  assert (rtc step created sample_done) as Hr by (apply (sub_run_steps (sample_acts ++ sample_end) created sample_done); vm_compute; reflexivity).
  destruct (substream_call_exact true (Some 1) true false true created sample_done eq_refl Hr) as (_ & _ & _ & _ & _ & _ & _ & _ & Hd).
  split; [vm_compute; reflexivity|]. split; [vm_compute; reflexivity|]. apply (Hd Completed). vm_compute. reflexivity.
Defined.

(** C32.  A call that was closed, by a final answer, a stop callback or the end of the wait,
    returns: however the caller, the deliveries and the stop callbacks are scheduled, they make
    no more steps than the work left plus seven for every result or stop callback that still
    arrives; and when none of them can go on by itself the caller has returned, with a justified
    outcome, and no lock is held.  Going on by itself leaves out the passing of the deadline, an
    interruption of the wait and an exception of the body: the waiting caller is woken by the
    event alone, so whoever closes the call wakes it, and no wakeup is lost. *)
Theorem substream_call_returns s s' acts (Hs : reachable s) (Hclosed : closed_ s = true) (Hrun : run acts s = Some s') :
  internals acts <= work s + 7 * (length acts - internals acts) /\
  ((forall a, unprompted a = true -> act a s' = None) ->
   mutex s' = None /\ exists r, invoker s' = IDone r /\ justified r (outs s')).
Proof.
  pose proof (run_works _ _ _ Hrun) as Hw. pose proof (sub_run_steps _ _ _ Hrun) as Hst. split; [lia|]. intros Hstuck.
  assert (Hinv : inv s') by (apply sub_reachable; eapply transitivity; [exact Hs|exact Hst]).
  split.
  { destruct (mutex s') as [o|] eqn:Hm; [|done]. destruct (owner_moves s' o Hinv Hm) as (a & Ha & Hx).
    rewrite (Hstuck a Ha) in Hx. by destruct Hx. }
  destruct (is_done (invoker s')) eqn:Hd.
  - destruct (invoker s') as [| | | | | | | | | |r] eqn:Hp; try done. exists r. split; [done|]. apply (inv_outcome _ Hinv). by rewrite Hp.
  - destruct (closed_moves s' Hinv) as (a & Ha & Hx); [by eapply closed_steps|done|]. rewrite (Hstuck a Ha) in Hx. by destruct Hx.
Qed.

Lemma substream_call_returns_witness :
  closed_ sample_state = true /\ internals sample_end <= work sample_state /\
  mutex sample_done = None /\ exists r, invoker sample_done = IDone r /\ justified r (outs sample_done).
Proof.
  split; [vm_compute; reflexivity|].
  destruct (substream_call_returns sample_state sample_done sample_end sample_reachable ltac:(vm_compute; reflexivity)
    ltac:(vm_compute; reflexivity)) as [Hw Hd]. split; [vm_compute in Hw |- *; exact Hw|].
  apply Hd. intros [[]| |[|[|i]] c a| |] Ha; try discriminate Ha; vm_compute; reflexivity.
Defined.
