(* ===== verification/Topology.v ===== *)
(** * Numbering the graph

    [buildTopology] of the operators (operators/*.inl), [Stream::buildTopologyCommon]
    (runtime/stream.hpp) and [StreamExecutionEnvironment::buildTopology]
    (runtime/environment.hpp).  Before a service starts, the graph is walked from its roots: every
    node gets an id, the callers of splits and links are prepared, and links are checked.  Nodes
    are positions in a table; [consumer] is the node that a stream owns, or that a link refers
    to.  The generated code, which is only printed, is left out. *)
From Stdlib Require Import Lia.
From stdpp Require Import gmap.
From S2P Require Import Prelude.

Module Topology.
Local Open Scope Z_scope.

(** The shapes of [buildTopology]: [Common] for the operators with one output (map, filter,
    flatmap, flatmapiterable, keyby, join, multijoin, delay, the links of splits and cases, cycle
    links, sub-streams and the error streams), [WithError] for process and sinks with a result,
    [ResultLink] for the links that end in an input or a sub-stream. *)
Inductive Kind :=
  | Common | Merge | MergeLink | JoinLink | ErrorLink | Link | CycleSource | Split | Case | Sink | WithError | Input | ResultLink.
#[export] Instance Kind_eq_dec : EqDecision Kind.
Proof. solve_decision. Defined.
Record Node := mkNode {
  kind : Kind;
  configId : Z;
  consumer : option nat;
  branches : list nat;
  errorStream : nat;
}.
Definition Graph : Type := list Node.

(** [ids] where they are not 0; [prepared]: the nodes whose callers are there; [linkMap_]. *)
Record State := mkState {
  ids : gmap nat Z;
  prepared : gset nat;
  links : gmap Z nat;
}.
Definition set_ids v s := mkState v (prepared s) (links s).
Definition set_prepared v s := mkState (ids s) v (links s).
Definition set_links v s := mkState (ids s) (prepared s) v.

Inductive Error := CycleTargetUnregistered | MergeUnassigned | LinkExists | NoCaller | EmptyBranch | LinkTargetMissing | OutOfFuel.

Section Build.
(** [callable p c]: the caller of the edge from [p] to [c] can be made. *)
Context (g : Graph) (callable : nat -> nat -> bool).

Definition node (n : nat) : Node := default (mkNode ResultLink 0 None [] 0) (g !! n).
Definition number (s : State) (n : nat) : Z := default 0 (ids s !! n).
(** The link of a cycle has the id of its target. *)
Definition getId (s : State) (n : nat) : Z :=
  match kind (node n), consumer (node n) with
  | CycleSource, Some target => number s target
  | _, _ => number s n
  end.
Definition setId (n : nat) (id : Z) (s : State) : State := set_ids (<[n := id]> (ids s)) s.
Definition setIdOnce (n : nat) (id : Z) (s : State) : State := if number s n =? 0 then setId n id s else s.

Definition prepareCaller (n c : nat) (s : State) : result Error State :=
  if callable n c then Ok (set_prepared ({[n]} ∪ prepared s) s) else Err NoCaller.
Definition prepareConsumerCaller (n : nat) (s : State) : result Error State :=
  match consumer (node n) with
  | Some c => if configId (node n) =? 0 then Ok s else prepareCaller n c s
  | None => Ok s
  end.
(** The callers of a split, one for each branch. *)
Fixpoint prepareBranches (n : nat) (l : list nat) (s : State) : result Error State :=
  match l with
  | [] => Ok (set_prepared ({[n]} ∪ prepared s) s)
  | b :: l =>
      match consumer (node b) with
      | None => Err EmptyBranch
      | Some c => if callable n c then prepareBranches n l s else Err NoCaller
      end
  end.
Definition addLink (id : Z) (c : nat) (s : State) : result Error State :=
  match links s !! id with Some _ => Err LinkExists | None => Ok (set_links (<[id := c]> (links s)) s) end.
(** The error stream of an owner is given the id [size_t{0} - ownerId]. *)
Definition prepareTopologyId (n : nat) (owner : Z) (s : State) : State := setId n ((0 - owner) mod 2 ^ 64) s.

Section Visit.
(** [visit]: the virtual [buildTopology] of a consumer. *)
Context (visit : nat -> Z -> State -> result Error (Z * State)).

Definition buildTopologyCommon (n : nat) (id : Z) (s : State) : result Error (Z * State) :=
  let s := setIdOnce n id s in
  match consumer (node n) with
  | None => Ok (id, s)
  | Some c =>
      rbind (if getId s c =? 0 then visit c (id + 1) s else Ok (id, s))
        (fun '(nextid, s) => rbind (prepareConsumerCaller n s) (fun s => Ok (nextid, s)))
  end.
Fixpoint buildBranches (l : list nat) (next_id : Z) (s : State) : result Error (Z * State) :=
  match l with
  | [] => Ok (next_id, s)
  | b :: l => rbind (buildTopologyCommon b (next_id + 1) s) (fun '(next_id, s) => buildBranches l next_id s)
  end.
Definition Merge_build (n : nat) (id : Z) (s : State) : result Error (Z * State) :=
  if number s n =? 0 then buildTopologyCommon n id s else Ok (id - 1, s).
Definition MergeLink_build (n : nat) (id : Z) (s : State) : result Error (Z * State) :=
  match consumer (node n) with
  | None => Err MergeUnassigned
  | Some c =>
      rbind (visit c (id + 1) (setId n id s)) (fun '(nextid, s) => if number s c =? 0 then Err MergeUnassigned else Ok (nextid, s))
  end.
(** The link of a join, and the link of an error stream, which is numbered in the same way. *)
Definition JoinLink_build (n : nat) (id : Z) (s : State) : result Error (Z * State) :=
  let s := setId n id s in
  match consumer (node n) with
  | None => Ok (id, s)
  | Some c => if getId s c =? 0 then visit c (id + 1) s else Ok (id, s)
  end.
Definition ErrorLink_build (n : nat) (id : Z) (s : State) : result Error (Z * State) := JoinLink_build n id s.
Definition Link_build (n : nat) (id : Z) (s : State) : result Error (Z * State) :=
  match consumer (node n) with
  | None => Err LinkTargetMissing
  | Some c => rbind (addLink id c (setId n id s)) (fun s => rbind (prepareCaller n c s) (fun s => Ok (id + 1, s)))
  end.
Definition CycleSource_build (n : nat) (s : State) : result Error (Z * State) :=
  if getId s n =? 0 then Err CycleTargetUnregistered else Ok (getId s n, s).
Definition Split_build (n : nat) (id : Z) (s : State) : result Error (Z * State) :=
  rbind (buildBranches (branches (node n)) id (setId n id s))
    (fun '(next_id, s) => rbind (prepareBranches n (branches (node n)) s) (fun s => Ok (next_id, s))).
Definition Case_build (n : nat) (id : Z) (s : State) : result Error (Z * State) :=
  buildBranches (branches (node n)) id (setId n id s).
(** The error stream of a sink or a process is named after it and its caller prepared; it is not
    visited. *)
Definition prepareError (n : nat) (nextid : Z) (s : State) : result Error (Z * State) :=
  let e := errorStream (node n) in
  rbind (prepareConsumerCaller e (prepareTopologyId e (number s n) s)) (fun s => Ok (nextid, s)).
Definition Sink_build (n : nat) (id : Z) (s : State) : result Error (Z * State) := prepareError n id (setIdOnce n id s).
Definition Process_build (n : nat) (id : Z) (s : State) : result Error (Z * State) :=
  rbind (buildTopologyCommon n id s) (fun '(nextid, s) => prepareError n nextid s).
Definition Input_build (n : nat) (id : Z) (s : State) : result Error (Z * State) :=
  rbind (buildTopologyCommon n id s) (fun '(nextid, s) => visit (errorStream (node n)) (nextid + 1) s).
Definition ResultLink_build (n : nat) (id : Z) (s : State) : result Error (Z * State) := Ok (id, setIdOnce n id s).
End Visit.

Fixpoint build (fuel : nat) (n : nat) (id : Z) (s : State) : result Error (Z * State) :=
  match fuel with
  | O => Err OutOfFuel
  | S fuel =>
      match kind (node n) with
      | Common => buildTopologyCommon (build fuel) n id s
      | Merge => Merge_build (build fuel) n id s
      | MergeLink => MergeLink_build (build fuel) n id s
      | JoinLink => JoinLink_build (build fuel) n id s
      | ErrorLink => ErrorLink_build (build fuel) n id s
      | Link => Link_build n id s
      | CycleSource => CycleSource_build n s
      | Split => Split_build (build fuel) n id s
      | Case => Case_build (build fuel) n id s
      | Sink => Sink_build n id s
      | WithError => Process_build (build fuel) n id s
      | Input => Input_build (build fuel) n id s
      | ResultLink => ResultLink_build n id s
      end
  end.

Definition fuel : nat := 3 * length g + 3.
Fixpoint build_roots (roots : list nat) (nextId : Z) (s : State) : result Error (Z * State) :=
  match roots with
  | [] => Ok (nextId, s)
  | r :: roots => rbind (build fuel r (nextId + 1) s) (fun '(nextId, s) => build_roots roots nextId s)
  end.
(** Wiring.  The streams that own their consumer got it by [setConsumer], which prepares the
    caller of the edge when the stream has a config id, and throws when that cannot be made; links
    refer to their consumers and prepare nothing. *)
Definition setConsumer (n : nat) (s : State) : result Error State :=
  match kind (node n) with
  | Common | Merge | WithError | Input => prepareConsumerCaller n s
  | _ => Ok s
  end.
Fixpoint wire (l : list nat) (s : State) : result Error State :=
  match l with [] => Ok s | n :: l => rbind (setConsumer n s) (wire l) end.
Definition wired : result Error State := wire (seq 0 (length g)) (mkState ∅ ∅ ∅).
(** [buildTopology] of the environment, on the wired graph. *)
Definition buildTopology (roots : list nat) : result Error State :=
  rbind wired (fun s => rbind (build_roots roots 0 s) (fun '(_, s) =>
    if forallb (fun '(_, c) => negb (getId s c =? 0)) (map_to_list (links s)) then Ok s else Err LinkTargetMissing)).
End Build.
End Topology.
