(* ===== verification/TopologyTheorems.v ===== *)
(** * What the numbering of the graph gives *)
From Stdlib Require Import Lia.
From stdpp Require Import gmap.
From S2P Require Import Prelude Topology.
Import Topology.
Local Open Scope Z_scope.

Section Walk.
Context (g : Graph) (callable : nat -> nat -> bool).
Notation node := (node g).
Notation getId := (getId g).
Notation build := (build g callable).

(** ** Well-formed graphs *)
Definition owner (n : nat) : bool := match kind (node n) with Sink | WithError => true | _ => false end.
(** The error stream of a sink or a process, which is a member of it. *)
Definition virtual (n : nat) : bool := existsb (fun m => owner m && (errorStream (node m) =? n)%nat) (seq 0 (length g)).
Record wf : Prop := {
  wf_consumer n c : consumer (node n) = Some c -> virtual c = false;
  wf_branch n b : b ∈ branches (node n) -> virtual b = false /\ kind (node b) = Common;
  wf_input n : kind (node n) = Input -> virtual (errorStream (node n)) = false /\ kind (node (errorStream (node n))) = Common;
  wf_merge n c : kind (node n) = MergeLink -> consumer (node n) = Some c -> kind (node c) = Merge;
  wf_cycle n c : kind (node n) = CycleSource -> consumer (node n) = Some c -> kind (node c) <> CycleSource;
  wf_own n m : owner n = true -> owner m = true -> errorStream (node n) = errorStream (node m) -> n = m;
}.
Context (Hwf : wf).

(** ** The invariant of the walk *)
Definition neg (z : Z) : Z := (0 - z) mod 2 ^ 64.
Definition cdone (s : State) (n : nat) : Prop :=
  match consumer (node n) with Some c => getId s c <> 0 /\ (configId (node n) <> 0 -> n ∈ prepared s) | None => True end.
(** The walk has done all it does for [n]. *)
Definition complete (s : State) (n : nat) : Prop :=
  match kind (node n) with
  | Common | Merge => cdone s n
  | WithError => cdone s n /\ number s (errorStream (node n)) = neg (number s n)
  | Sink => number s (errorStream (node n)) = neg (number s n)
  | Input => cdone s n /\ number s (errorStream (node n)) <> 0
  | MergeLink => exists c, consumer (node n) = Some c /\ number s c <> 0
  | JoinLink | ErrorLink => forall c, consumer (node n) = Some c -> getId s c <> 0
  | Link => n ∈ prepared s
  | Split => (forall b, b ∈ branches (node n) -> number s b <> 0) /\ n ∈ prepared s
  | Case => forall b, b ∈ branches (node n) -> number s b <> 0
  | CycleSource | ResultLink => True
  end.
(** Nodes of [S] are being visited; ids up to [hi] have been given. *)
Record walk (s : State) (hi : Z) (S : list nat) : Prop := {
  walk_hi : 0 <= hi;
  walk_range n : virtual n = false -> number s n <> 0 -> 0 < number s n <= hi;
  walk_inj n m : virtual n = false -> virtual m = false -> number s n <> 0 -> number s n = number s m -> n = m;
  walk_complete n : virtual n = false -> number s n <> 0 -> n ∉ S -> complete s n;
}.
(** What a visit keeps. *)
Record grows (s s' : State) : Prop := {
  grows_ids n : virtual n = false -> number s n <> 0 -> number s' n = number s n;
  grows_err n : owner n = true -> virtual n = false -> number s n <> 0 -> number s (errorStream (node n)) = neg (number s n) ->
    number s' (errorStream (node n)) = neg (number s' n);
  grows_prepared : prepared s ⊆ prepared s';
}.

Lemma grows_refl s : grows s s.
Proof. by split. Qed.
Lemma grows_trans s1 s2 s3 : grows s1 s2 -> grows s2 s3 -> grows s1 s3.
Proof.
  intros [A1 A2 A3] [B1 B2 B3]. split.
  - intros n Hv Hn. rewrite B1; rewrite ?A1; done.
  - intros n Ho Hv Hn He. apply B2; try done; [by rewrite A1|]. by apply A2.
  - set_solver.
Qed.
Lemma grows_number s s' n : grows s s' -> virtual n = false -> number s n <> 0 -> number s' n <> 0.
Proof. intros Hg Hv Hn. by rewrite (grows_ids _ _ Hg). Qed.
Lemma grows_getId s s' n c : grows s s' -> consumer (node n) = Some c -> getId s c <> 0 -> getId s' c <> 0.
Proof.
  intros Hg Hc. pose proof (wf_consumer Hwf n c Hc) as Hv. unfold Topology.getId.
  destruct (kind (node c)), (consumer (node c)) as [t|] eqn:Ht; try (by apply (grows_number _ _ _ Hg)).
  apply (grows_number _ _ _ Hg). by apply (wf_consumer Hwf c).
Qed.
Lemma grows_cdone s s' n : grows s s' -> cdone s n -> cdone s' n.
Proof.
  intros Hg. unfold cdone. destruct (consumer (node n)) as [c|] eqn:Hc; [|done]. intros [H1 H2].
  split; [by apply (grows_getId s s' n c)|]. intros Hx. apply (grows_prepared _ _ Hg). auto.
Qed.
Lemma grows_complete s s' n : grows s s' -> virtual n = false -> number s n <> 0 -> complete s n -> complete s' n.
Proof.
  intros Hg Hv Hn. unfold complete. destruct (kind (node n)) eqn:Hk; try done.
  - by apply grows_cdone.
  - by apply grows_cdone.
  - intros (c & Hc & Hx). exists c. split; [done|]. apply (grows_number _ _ _ Hg); [|done]. by eapply wf_consumer.
  - intros Hx c Hc. eapply grows_getId; eauto.
  - intros Hx c Hc. eapply grows_getId; eauto.
  - apply (grows_prepared _ _ Hg).
  - intros [Hb Hp]. split; [|by apply (grows_prepared _ _ Hg)]. intros b Hb'. apply (grows_number _ _ _ Hg); [|auto]. by eapply wf_branch.
  - intros Hb b Hb'. apply (grows_number _ _ _ Hg); [|auto]. by eapply wf_branch.
  - apply (grows_err _ _ Hg); try done. unfold owner. by rewrite Hk.
  - intros [H1 H2]. split; [by eapply grows_cdone|]. apply (grows_err _ _ Hg); try done. unfold owner. by rewrite Hk.
  - intros [H1 H2]. split; [by eapply grows_cdone|]. apply (grows_number _ _ _ Hg); [|done]. by apply (wf_input Hwf n).
Qed.

(** ** Single steps *)
Lemma number_setId s n id m : number (setId n id s) m = if decide (n = m) then id else number s m.
Proof. unfold number, setId. simpl. destruct (decide (n = m)) as [->|]; [by rewrite lookup_insert_eq|by rewrite lookup_insert_ne]. Qed.
Lemma owner_virtual m : owner m = true -> virtual (errorStream (node m)) = true.
Proof.
  intros Hm. apply existsb_exists. exists m. split; [|by rewrite Hm, Nat.eqb_refl]. apply in_seq. split; [lia|]. simpl.
  destruct (decide (m < length g)%nat) as [|Hge]; [done|]. exfalso.
  assert (E : g !! m = None) by (apply lookup_ge_None_2; lia). unfold owner, Topology.node in Hm. by rewrite E in Hm.
Qed.
Lemma owner_err_ne m n : owner m = true -> virtual n = false -> errorStream (node m) <> n.
Proof. intros Hm Hv <-. by rewrite owner_virtual in Hv. Qed.

Lemma walk_weaken s hi hi' S S' : walk s hi S -> hi <= hi' -> (forall x, x ∈ S -> x ∈ S') -> walk s hi' S'.
Proof.
  intros [W0 W1 W2 W3] Hh HS. split; [lia| |done|].
  - intros n Hv Hn. specialize (W1 n Hv Hn). lia.
  - intros n Hv Hn Hx. apply W3; auto.
Qed.
Lemma walk_pop s hi n S : walk s hi (n :: S) -> complete s n -> walk s hi S.
Proof.
  intros [W0 W1 W2 W3] Hc. split; try done. intros m Hv Hm Hx. destruct (decide (m = n)) as [->|]; [done|]. apply W3; set_solver.
Qed.
Lemma walk_grows s s' hi S :
  walk s hi S -> grows s s' -> (forall n, virtual n = false -> number s' n = number s n) -> walk s' hi S.
Proof.
  intros [W0 W1 W2 W3] Hg E. split; [done| | |].
  - intros n Hv. rewrite E by done. by apply W1.
  - intros n m Hv Hm. rewrite !E by done. by apply W2.
  - intros n Hv. rewrite E by done. intros Hn Hx. apply (grows_complete s); auto.
Qed.

Lemma grows_setId s n id : virtual n = false -> number s n = 0 -> grows s (setId n id s).
Proof.
  intros Hv Hn. split; [..|done].
  - intros m _ Hm. rewrite number_setId, decide_False; congruence.
  - intros m Ho _ Hm He. rewrite !number_setId, !decide_False; [done|congruence|]. intros E. symmetry in E. by eapply owner_err_ne.
Qed.
Lemma walk_setId s hi S n id :
  walk s hi S -> virtual n = false -> number s n = 0 -> hi < id -> walk (setId n id s) id (n :: S).
Proof.
  intros Hw Hv Hn Hid. pose proof Hw as [W0 W1 W2 W3]. split; [lia| | |].
  - intros m Hm. rewrite number_setId. destruct (decide (n = m)); [lia|]. intros Hx. specialize (W1 m Hm Hx). lia.
  - intros m1 m2 H1 H2. rewrite !number_setId. destruct (decide (n = m1)) as [<-|], (decide (n = m2)) as [<-|]; try done.
    + intros _ E. assert (Hx : number s m2 <> 0) by lia. specialize (W1 m2 H2 Hx). lia.
    + intros Hx E. specialize (W1 m1 H1 Hx). lia.
    + by apply W2.
  - intros m Hm. rewrite number_setId. destruct (decide (n = m)) as [<-|Hne]; [set_solver|]. intros Hx Hin.
    apply (grows_complete s); try done; [by apply grows_setId|]. apply W3; set_solver.
Qed.
Lemma setIdOnce_spec s hi S n id :
  walk s hi S -> virtual n = false -> hi < id ->
  walk (setIdOnce n id s) id (n :: S) /\ grows s (setIdOnce n id s) /\ number (setIdOnce n id s) n <> 0.
Proof.
  intros Hw Hv Hid. unfold setIdOnce. destruct (Z.eqb_spec (number s n) 0) as [Hn|Hn].
  - split; [by eapply walk_setId|]. split; [by apply grows_setId|]. rewrite number_setId, decide_True by done. pose proof (walk_hi _ _ _ Hw). lia.
  - split; [|split; [apply grows_refl|done]]. eapply walk_weaken; [done|lia|set_solver].
Qed.

(** Preparing callers touches no number. *)
Lemma grows_prepare s n : grows s (set_prepared ({[n]} ∪ prepared s) s).
Proof. split; simpl; try done. set_solver. Qed.
Lemma walk_prepare s hi S n : walk s hi S -> walk (set_prepared ({[n]} ∪ prepared s) s) hi S.
Proof. intros Hw. by apply (walk_grows s); [done|apply grows_prepare|]. Qed.

(** ** How far the walk is from its end *)
Definition unset (s : State) : nat := length (filter (fun n => virtual n = false /\ number s n = 0) (seq 0 (length g))).
Lemma filter_subset (P Q : nat -> Prop) `{!forall x, Decision (P x), !forall x, Decision (Q x)} (l : list nat) :
  (forall x, x ∈ l -> P x -> Q x) -> (length (filter P l) <= length (filter Q l))%nat.
Proof.
  induction l as [|x l IH]; intros HPQ; [done|]. rewrite !filter_cons.
  specialize (IH ltac:(intros y Hy; apply HPQ; set_solver)). destruct (decide (P x)) as [Hp|]; destruct (decide (Q x)) as [Hq|Hq]; simpl; try lia.
  destruct Hq. apply HPQ; [set_solver|done].
Qed.
Lemma unset_grows s s' : grows s s' -> (unset s' <= unset s)%nat.
Proof.
  intros Hg. apply filter_subset. intros n _ [Hv Hn]. split; [done|]. destruct (Z.eq_dec (number s n) 0); [done|].
  by rewrite (grows_ids _ _ Hg) in Hn.
Qed.
Lemma filter_drop (P : nat -> Prop) `{!forall x, Decision (P x)} (l : list nat) x :
  x ∈ l -> P x -> (length (filter (fun y => P y /\ y <> x) l) < length (filter P l))%nat.
Proof.
  induction l as [|y l IH]; intros Hx HP; [set_solver|]. rewrite !filter_cons.
  assert (Hle : (length (filter (fun y => P y /\ y <> x) l) <= length (filter P l))%nat) by (apply filter_subset; naive_solver).
  destruct (decide (P y)) as [Hp|Hp]; destruct (decide (P y /\ y <> x)) as [[? Hq]|Hq]; simpl.
  - apply elem_of_cons in Hx as [->|Hx]; [done|]. specialize (IH Hx HP). lia.
  - lia.
  - done.
  - apply elem_of_cons in Hx as [->|Hx]; [done|]. auto.
Qed.
Lemma unset_setId s n id :
  (n < length g)%nat -> virtual n = false -> number s n = 0 -> id <> 0 -> (unset (setId n id s) < unset s)%nat.
Proof.
  intros Hlt Hv Hn Hid. eapply Nat.le_lt_trans; [|apply (filter_drop (fun n => virtual n = false /\ number s n = 0) _ n)]; [|apply elem_of_seq; lia|done].
  apply filter_subset. intros m _ [Hvm Hm]. rewrite number_setId in Hm. destruct (decide (n = m)); [congruence|]. auto.
Qed.

(** ** Visits *)

(** The kinds that keep a number they have. *)
Definition once (k : Kind) : bool := match k with Common | Merge | Sink | WithError | Input | ResultLink | CycleSource => true | _ => false end.
Definition may_visit (s : State) (n : nat) : Prop :=
  virtual n = false /\ (number s n = 0 \/ once (kind (node n)) = true) /\ (kind (node n) = CycleSource -> getId s n = 0).
Definition weight (s : State) (n : nat) : nat :=
  if number s n =? 0 then 0%nat else match kind (node n) with Merge | CycleSource => 0%nat | Input => 2%nat | _ => 1%nat end.
Definition budget (s : State) (n : nat) : nat := (3 * unset s + weight s n)%nat.

Definition posts (s : State) (n : nat) (id : Z) (S : list nat) (r : result Error (Z * State)) : Prop :=
  match r with
  | Ok (next, s') =>
      id - 1 <= next /\ walk s' next S /\ grows s s' /\ (kind (node n) <> CycleSource -> number s' n <> 0)
  | Err e => e <> OutOfFuel
  end.
(** A visit that has fuel [f] is enough for. *)
Definition good (f : nat) (visit : nat -> Z -> State -> result Error (Z * State)) : Prop :=
  forall n id s S, walk s (id - 1) S -> may_visit s n -> (budget s n < f)%nat -> posts s n id S (visit n id s).

Section Visit.
Context (f : nat) (visit : nat -> Z -> State -> result Error (Z * State)) (Hgood : good f visit).

Lemma getId_zero s c : getId s c = 0 -> kind (node c) <> CycleSource -> number s c = 0.
Proof. unfold Topology.getId. by destruct (kind (node c)), (consumer (node c)). Qed.
Lemma getId_number s c : kind (node c) <> CycleSource -> getId s c = number s c.
Proof. unfold Topology.getId. by destruct (kind (node c)), (consumer (node c)). Qed.

(** The consumer of a node that has its number, unless it has one too. *)
Lemma visit_consumer s n c id S :
  consumer (node n) = Some c -> walk s id S -> (3 * unset s < f)%nat -> getId s c = 0 ->
  match visit c (id + 1) s with
  | Ok (next, s') => id <= next /\ walk s' next S /\ grows s s' /\ (kind (node c) <> CycleSource -> number s' c <> 0)
  | Err e => e <> OutOfFuel
  end.
Proof.
  intros Hc Hw Hf H0. pose proof (wf_consumer Hwf n c Hc) as Hv.
  assert (Hvis : may_visit s c /\ weight s c = 0%nat).
  { unfold may_visit, weight, once. destruct (decide (kind (node c) = CycleSource)) as [->|Hk]; [destruct (number s c =? 0); auto|].
    rewrite (getId_zero s c H0 Hk). split_and!; auto; done. }
  destruct Hvis as [Hvis Hwt]. pose proof (Hgood c (id + 1) s S) as Hp. replace (id + 1 - 1) with id in Hp by lia.
  specialize (Hp Hw Hvis ltac:(unfold budget; lia)). unfold posts in Hp. replace (id + 1 - 1) with id in Hp by lia. done.
Qed.

(** A cycle source has an id only when it does not fail. *)
Context (Hcycle : forall c id s next s', kind (node c) = CycleSource -> visit c id s = Ok (next, s') -> s' = s /\ getId s c <> 0).

Lemma visited_id s n c id next s' :
  consumer (node n) = Some c -> (kind (node c) <> CycleSource -> number s' c <> 0) -> visit c id s = Ok (next, s') -> getId s' c <> 0.
Proof.
  intros Hc Hn Hv. destruct (decide (kind (node c) = CycleSource)) as [Hk|Hk].
  - by destruct (Hcycle c id s next s' Hk Hv) as [-> ?].
  - rewrite getId_number by done. auto.
Qed.

Lemma prepare_spec s n hi S :
  walk s hi S ->
  match prepareConsumerCaller g callable n s with
  | Ok s' => walk s' hi S /\ grows s s' /\ (forall m, number s' m = number s m) /\
      (is_Some (consumer (node n)) -> configId (node n) <> 0 -> n ∈ prepared s')
  | Err e => e <> OutOfFuel
  end.
Proof.
  intros Hw. unfold prepareConsumerCaller. destruct (consumer (node n)) as [c|].
  - destruct (Z.eqb_spec (configId (node n)) 0); [split_and!; try done; apply grows_refl|]. unfold prepareCaller.
    destruct (callable n c); [|done]. split_and!; try done; [by apply walk_prepare|apply grows_prepare|]. simpl. set_solver.
  - split_and!; done.
Qed.

Lemma common_spec n id s S :
  walk s (id - 1) S -> virtual n = false -> (3 * unset (setIdOnce n id s) < f)%nat ->
  match buildTopologyCommon g callable visit n id s with
  | Ok (next, s') => id <= next /\ walk s' next (n :: S) /\ grows s s' /\ number s' n <> 0 /\ cdone s' n /\ grows (setIdOnce n id s) s'
  | Err e => e <> OutOfFuel
  end.
Proof.
  intros Hw Hv Hf. destruct (setIdOnce_spec s (id - 1) S n id Hw Hv ltac:(lia)) as (Hw1 & Hg1 & Hn1).
  unfold buildTopologyCommon, cdone. set (s1 := setIdOnce n id s) in *. destruct (consumer (node n)) as [c|] eqn:Hc; [|split_and!; try done; apply grows_refl].
  assert (Hnext : match (if getId s1 c =? 0 then visit c (id + 1) s1 else Ok (id, s1)) with
    | Ok (next, s2) => id <= next /\ walk s2 next (n :: S) /\ grows s1 s2 /\ getId s2 c <> 0
    | Err e => e <> OutOfFuel end).
  { destruct (Z.eqb_spec (getId s1 c) 0) as [H0|H0]; [|split_and!; [lia|done|apply grows_refl|done]].
    pose proof (visit_consumer s1 n c id (n :: S) Hc Hw1 Hf H0) as Hp. destruct (visit c (id + 1) s1) as [[next s2]|e] eqn:Hvis; [|done].
    destruct Hp as (? & ? & ? & Hnum). split_and!; try done. by eapply visited_id. }
  destruct (if getId s1 c =? 0 then visit c (id + 1) s1 else Ok (id, s1)) as [[next s2]|e]; simpl; [|done]. destruct Hnext as (Hle & Hw2 & Hg2 & Hc2).
  assert (Hn2 : number s2 n <> 0) by (by apply (grows_number s1)).
  pose proof (prepare_spec s2 n next (n :: S) Hw2) as Hp. destruct (prepareConsumerCaller g callable n s2) as [s3|e]; simpl; [|done].
  destruct Hp as (Hw3 & Hg3 & Hsame & Hpr). split_and!; try done.
  - eapply grows_trans; [done|]. by eapply grows_trans.
  - by rewrite Hsame.
  - by apply (grows_getId s2 s3 n).
  - intros Hid. apply Hpr; [by eexists|done].
  - by eapply grows_trans.
Qed.

Lemma branches_spec l : forall next s S,
  walk s next S -> (forall b, b ∈ l -> virtual b = false /\ kind (node b) = Common) -> (3 * unset s < f)%nat ->
  match buildBranches g callable visit l next s with
  | Ok (next', s') => next <= next' /\ walk s' next' S /\ grows s s' /\ (forall b, b ∈ l -> number s' b <> 0)
  | Err e => e <> OutOfFuel
  end.
Proof.
  induction l as [|b l IH]; intros next s S Hw Hl Hf; simpl; [split_and!; [lia|done|apply grows_refl|set_solver]|].
  destruct (Hl b ltac:(set_solver)) as [Hv Hk].
  destruct (setIdOnce_spec s next S b (next + 1) Hw Hv ltac:(lia)) as (_ & Hg0 & _). pose proof (unset_grows _ _ Hg0) as Hu.
  pose proof (common_spec b (next + 1) s S) as Hc. replace (next + 1 - 1) with next in Hc by lia. specialize (Hc Hw Hv ltac:(lia)).
  destruct (buildTopologyCommon g callable visit b (next + 1) s) as [[next1 s1]|e]; simpl; [|done].
  destruct Hc as (Hle & Hw1 & Hg1 & Hn1 & Hd1 & _). apply walk_pop in Hw1; [|unfold complete; by rewrite Hk].
  pose proof (unset_grows _ _ Hg1) as Hu1. specialize (IH next1 s1 S Hw1 ltac:(intros; apply Hl; set_solver) ltac:(lia)).
  destruct (buildBranches g callable visit l next1 s1) as [[next2 s2]|e]; [|done]. destruct IH as (Hle2 & Hw2 & Hg2 & Hall).
  split_and!; [lia|done|by eapply grows_trans|]. intros b' [->|Hb']%elem_of_cons; [by apply (grows_number s1)|auto].
Qed.

Lemma in_range n : kind (node n) <> ResultLink -> (n < length g)%nat.
Proof.
  intros Hk. destruct (decide (n < length g)%nat) as [|Hge]; [done|]. exfalso. apply Hk.
  assert (E : g !! n = None) by (apply lookup_ge_None_2; lia). unfold Topology.node. by rewrite E.
Qed.
(** The fuel that is left once [n] has its number. *)
Lemma once_fuel s n id :
  may_visit s n -> id <> 0 -> (budget s n < S f)%nat -> kind (node n) <> ResultLink -> (number s n <> 0 -> weight s n <> 0%nat) ->
  (3 * unset (setIdOnce n id s) < f)%nat.
Proof.
  intros [Hv _] Hid Hb Hk Hw. unfold setIdOnce, budget in *. destruct (Z.eqb_spec (number s n) 0) as [H0|H0].
  - pose proof (unset_setId s n id (in_range n Hk) Hv H0 Hid). lia.
  - specialize (Hw H0). lia.
Qed.
Lemma set_fuel s n id :
  may_visit s n -> once (kind (node n)) = false -> id <> 0 -> (budget s n < S f)%nat ->
  number s n = 0 /\ (3 * unset (setId n id s) < f)%nat.
Proof.
  intros (Hv & Hn & _) Ho Hid Hb. destruct Hn as [H0|?]; [|congruence]. split; [done|].
  pose proof (unset_setId s n id (in_range n ltac:(intros E; by rewrite E in Ho)) Hv H0 Hid). unfold budget in Hb. lia.
Qed.

Section Kinds.
Context (n : nat) (id : Z) (s : State) (S : list nat)
  (Hw : walk s (id - 1) S) (Hm : may_visit s n) (Hb : (budget s n < Datatypes.S f)%nat).

Lemma id_pos : id <> 0.
Proof. pose proof (walk_hi _ _ _ Hw). lia. Qed.

Lemma common_posts : kind (node n) = Common -> posts s n id S (buildTopologyCommon g callable visit n id s).
Proof.
  intros Hk. assert (Hf : (3 * unset (setIdOnce n id s) < f)%nat).
  { apply once_fuel; try done; [apply id_pos|by rewrite Hk|]. unfold weight. destruct (Z.eqb_spec (number s n) 0); [done|]. by rewrite Hk. }
  pose proof (common_spec n id s S Hw (proj1 Hm) Hf) as Hc. destruct (buildTopologyCommon _ _ _ _ _ _) as [[next s']|e]; [|done].
  destruct Hc as (? & Hw1 & ? & ? & Hd & _). split_and!; [lia|eapply walk_pop; [done|unfold complete; by rewrite Hk]|done|done].
Qed.
Lemma merge_posts : kind (node n) = Merge -> posts s n id S (Merge_build g callable visit n id s).
Proof.
  intros Hk. unfold Merge_build. destruct (Z.eqb_spec (number s n) 0) as [H0|H0]; [|split_and!; [lia|done|apply grows_refl|done]].
  assert (Hf : (3 * unset (setIdOnce n id s) < f)%nat) by (apply once_fuel; try done; [apply id_pos|by rewrite Hk]).
  pose proof (common_spec n id s S Hw (proj1 Hm) Hf) as Hc. destruct (buildTopologyCommon _ _ _ _ _ _) as [[next s']|e]; [|done].
  destruct Hc as (? & Hw1 & ? & ? & Hd & _). split_and!; [lia|eapply walk_pop; [done|unfold complete; by rewrite Hk]|done|done].
Qed.

(** A kind that takes a new number: what is known when it has it. *)
Lemma numbered : once (kind (node n)) = false ->
  (3 * unset (setId n id s) < f)%nat /\ walk (setId n id s) id (n :: S) /\ grows s (setId n id s) /\ number (setId n id s) n = id.
Proof.
  intros Ho. destruct (set_fuel s n id Hm Ho id_pos Hb) as [H0 Hf]. destruct Hm as [Hv _].
  split_and!; [done|eapply walk_setId; eauto; lia|by apply grows_setId|]. rewrite number_setId. by rewrite decide_True.
Qed.

Lemma mergelink_posts : kind (node n) = MergeLink -> posts s n id S (MergeLink_build g visit n id s).
Proof.
  intros Hk. destruct (numbered ltac:(by rewrite Hk)) as (Hf & Hw1 & Hg1 & Hn1). unfold MergeLink_build.
  destruct (consumer (node n)) as [c|] eqn:Hc; [|done]. pose proof (wf_merge Hwf n c Hk Hc) as Hkc.
  pose proof (Hgood c (id + 1) (setId n id s) (n :: S)) as Hp. replace (id + 1 - 1) with id in Hp by lia.
  assert (Hvis : may_visit (setId n id s) c) by (split_and!; [by eapply wf_consumer|right; by rewrite Hkc|by rewrite Hkc]).
  assert (Hbud : (budget (setId n id s) c < f)%nat) by (unfold budget, weight; rewrite Hkc; destruct (_ =? _); lia).
  specialize (Hp Hw1 Hvis Hbud). destruct (visit c (id + 1) (setId n id s)) as [[next s']|e]; simpl; [|done].
  destruct (Z.eqb_spec (number s' c) 0); [done|]. destruct Hp as (? & Hw2 & Hg2 & _).
  split_and!; [lia| |by eapply grows_trans|].
  - eapply walk_pop; [done|]. unfold complete. rewrite Hk. eauto.
  - intros _. apply (grows_number _ _ _ Hg2); [apply Hm|]. rewrite Hn1. apply id_pos.
Qed.
Lemma joinlink_posts : kind (node n) = JoinLink \/ kind (node n) = ErrorLink -> posts s n id S (JoinLink_build g visit n id s).
Proof.
  intros Hk. destruct (numbered ltac:(by destruct Hk as [-> | ->])) as (Hf & Hw1 & Hg1 & Hn1). unfold JoinLink_build.
  assert (Hpop : forall s' hi, walk s' hi (n :: S) -> (forall c, consumer (node n) = Some c -> getId s' c <> 0) -> walk s' hi S).
  { intros s' hi Hw' Hx. eapply walk_pop; [done|]. unfold complete. by destruct Hk as [-> | ->]. }
  destruct (consumer (node n)) as [c|] eqn:Hc; [|split_and!; [lia|by apply Hpop|done|rewrite Hn1; intros _; apply id_pos]].
  destruct (Z.eqb_spec (getId (setId n id s) c) 0) as [H0|H0].
  2:{ split_and!; [lia|apply Hpop; [done|by intros ? [= <-]]|done|rewrite Hn1; intros _; apply id_pos]. }
  pose proof (visit_consumer _ n c id (n :: S) Hc Hw1 Hf H0) as Hp. destruct (visit c (id + 1) (setId n id s)) as [[next s']|e] eqn:Hvis; [|done].
  destruct Hp as (? & Hw2 & Hg2 & Hnum). split_and!; [lia| |by eapply grows_trans|].
  - apply Hpop; [done|]. intros ? [= <-]. by eapply visited_id.
  - intros _. apply (grows_number _ _ _ Hg2); [apply Hm|]. rewrite Hn1. apply id_pos.
Qed.
Lemma link_posts : kind (node n) = Link -> posts s n id S (Link_build g callable n id s).
Proof.
  intros Hk. destruct (numbered ltac:(by rewrite Hk)) as (_ & Hw1 & Hg1 & Hn1). unfold Link_build, addLink, prepareCaller.
  destruct (consumer (node n)) as [c|]; [|done]. destruct (links (setId n id s) !! id); simpl; [done|]. destruct (callable n c); simpl; [|done].
  set (s1 := set_links _ _). assert (Hw2 : walk s1 id (n :: S)) by (by apply (walk_grows (setId n id s))).
  split_and!; [lia| | |].
  - eapply walk_weaken; [|apply (Z.le_succ_diag_r id)|done]. eapply walk_pop; [by apply (walk_prepare s1 _ _ n)|]. unfold complete. rewrite Hk. simpl. set_solver.
  - eapply grows_trans; [exact Hg1|]. split; simpl; try done. set_solver.
  - intros _. change (number (setId n id s) n <> 0). rewrite Hn1. apply id_pos.
Qed.
Lemma cycle_posts : kind (node n) = CycleSource -> posts s n id S (CycleSource_build g n s).
Proof.
  intros Hk. unfold CycleSource_build. destruct Hm as (_ & _ & H0). by rewrite H0, Z.eqb_refl.
Qed.

Lemma prepareBranches_spec l s1 : 
  match prepareBranches g callable n l s1 with Ok s' => s' = set_prepared ({[n]} ∪ prepared s1) s1 | Err e => e <> OutOfFuel end.
Proof. induction l as [|b l IH]; simpl; [done|]. destruct (consumer (node b)) as [c|]; [|done]. by destruct (callable n c). Qed.
Lemma split_posts : kind (node n) = Split -> posts s n id S (Split_build g callable visit n id s).
Proof.
  intros Hk. destruct (numbered ltac:(by rewrite Hk)) as (Hf & Hw1 & Hg1 & Hn1). unfold Split_build.
  pose proof (branches_spec (branches (node n)) id (setId n id s) (n :: S) Hw1 (fun b => wf_branch Hwf n b) Hf) as Hp.
  destruct (buildBranches _ _ _ _ _ _) as [[next s1]|e]; simpl; [|done]. destruct Hp as (Hle & Hw2 & Hg2 & Hall).
  pose proof (prepareBranches_spec (branches (node n)) s1) as Hpb. destruct (prepareBranches _ _ _ _ _) as [s2|e]; simpl; [|done]. subst s2.
  split_and!; [lia| | |].
  - eapply walk_pop; [by apply walk_prepare|]. unfold complete. rewrite Hk. split; [done|]. simpl. set_solver.
  - eapply grows_trans; [exact Hg1|]. eapply grows_trans; [exact Hg2|apply grows_prepare].
  - intros _. apply (grows_number (setId n id s) s1 n Hg2); [apply Hm|]. rewrite Hn1. apply id_pos.
Qed.
Lemma case_posts : kind (node n) = Case -> posts s n id S (Case_build g callable visit n id s).
Proof.
  intros Hk. destruct (numbered ltac:(by rewrite Hk)) as (Hf & Hw1 & Hg1 & Hn1). unfold Case_build.
  pose proof (branches_spec (branches (node n)) id (setId n id s) (n :: S) Hw1 (fun b => wf_branch Hwf n b) Hf) as Hp.
  destruct (buildBranches _ _ _ _ _ _) as [[next s1]|e]; simpl; [|done]. destruct Hp as (Hle & Hw2 & Hg2 & Hall).
  split_and!; [lia| |by eapply grows_trans|].
  - eapply walk_pop; [done|]. unfold complete. by rewrite Hk.
  - intros _. apply (grows_number (setId n id s) s1 n Hg2); [apply Hm|]. rewrite Hn1. apply id_pos.
Qed.

(** Naming the error stream after its owner. *)
Lemma error_spec s1 next : owner n = true -> walk s1 next (n :: S) -> number s1 n <> 0 ->
  match prepareError g callable n next s1 with
  | Ok (next', s') => next' = next /\ walk s' next (n :: S) /\ grows s1 s' /\ number s' n <> 0 /\
      number s' (errorStream (node n)) = neg (number s' n)
  | Err e => e <> OutOfFuel
  end.
Proof.
  intros Ho Hw1 Hn1. unfold prepareError, prepareTopologyId. set (e := errorStream (node n)). fold (neg (number s1 n)).
  pose proof (owner_virtual n Ho) as Hve. fold e in Hve. destruct Hm as (Hv & _).
  assert (Hg2 : grows s1 (setId e (neg (number s1 n)) s1)).
  { split; [..|done].
    - intros m Hvm _. rewrite number_setId, decide_False; congruence.
    - intros m Hom Hvm Hnm Hx. rewrite !number_setId. rewrite (decide_False (P := e = m)) by congruence.
      destruct (decide (e = errorStream (node m))) as [E|]; [|done]. by rewrite (wf_own Hwf n m Ho Hom E). }
  assert (Hsame : forall m, virtual m = false -> number (setId e (neg (number s1 n)) s1) m = number s1 m).
  { intros m Hvm. rewrite number_setId, decide_False; congruence. }
  pose proof (walk_grows _ _ _ _ Hw1 Hg2 Hsame) as Hw2.
  pose proof (prepare_spec _ e next (n :: S) Hw2) as Hp. destruct (prepareConsumerCaller _ _ _ _) as [s3|?]; simpl; [|done].
  destruct Hp as (Hw3 & Hg3 & E & _). rewrite !E, Hsame, number_setId, decide_True by done. split_and!; try done. by eapply grows_trans.
Qed.
Lemma sink_posts : kind (node n) = Sink -> posts s n id S (Sink_build g callable n id s).
Proof.
  intros Hk. destruct (setIdOnce_spec s (id - 1) S n id Hw (proj1 Hm) ltac:(lia)) as (Hw1 & Hg1 & Hn1). unfold Sink_build.
  pose proof (error_spec _ _ ltac:(unfold owner; by rewrite Hk) Hw1 Hn1) as Hp.
  destruct (prepareError _ _ _ _ _) as [[next s2]|e]; [|done]. destruct Hp as (-> & Hw2 & Hg2 & Hn2 & He).
  split_and!; [lia| |by eapply grows_trans|done]. eapply walk_pop; [done|]. unfold complete. by rewrite Hk.
Qed.
Lemma process_posts : kind (node n) = WithError -> posts s n id S (Process_build g callable visit n id s).
Proof.
  intros Hk. unfold Process_build. assert (Hf : (3 * unset (setIdOnce n id s) < f)%nat).
  { apply once_fuel; try done; [apply id_pos|by rewrite Hk|]. unfold weight. destruct (Z.eqb_spec (number s n) 0); [done|]. by rewrite Hk. }
  pose proof (common_spec n id s S Hw (proj1 Hm) Hf) as Hc. destruct (buildTopologyCommon _ _ _ _ _ _) as [[next s1]|e]; simpl; [|done].
  destruct Hc as (Hle & Hw1 & Hg1 & Hn1 & Hd & _). pose proof (error_spec s1 next ltac:(unfold owner; by rewrite Hk) Hw1 Hn1) as Hp.
  destruct (prepareError _ _ _ _ _) as [[next' s2]|e]; [|done]. destruct Hp as (-> & Hw2 & Hg2 & Hn2 & He).
  split_and!; [lia| |by eapply grows_trans|done]. eapply walk_pop; [done|]. unfold complete. rewrite Hk. split; [by eapply grows_cdone|done].
Qed.
Lemma input_posts : kind (node n) = Input -> posts s n id S (Input_build g callable visit n id s).
Proof.
  intros Hk. unfold Input_build. destruct (wf_input Hwf n Hk) as [Hve Hke]. pose proof id_pos as Hid.
  assert (Hf : (3 * unset (setIdOnce n id s) + 1 < f)%nat).
  { pose proof Hb as Hb'. unfold setIdOnce, budget, weight in *. rewrite Hk in Hb'. destruct (Z.eqb_spec (number s n) 0) as [H0|H0]; [|lia].
    pose proof (unset_setId s n id (in_range n ltac:(by rewrite Hk)) (proj1 Hm) H0 Hid). lia. }
  pose proof (common_spec n id s S Hw (proj1 Hm) ltac:(lia)) as Hc.
  destruct (buildTopologyCommon _ _ _ _ _ _) as [[next s1]|e]; simpl; [|done].
  destruct Hc as (Hle & Hw1 & Hg1 & Hn1 & Hd & Hg1'). pose proof (unset_grows _ _ Hg1') as Hu.
  pose proof (Hgood (errorStream (node n)) (next + 1) s1 (n :: S)) as Hp. replace (next + 1 - 1) with next in Hp by lia.
  specialize (Hp Hw1 ltac:(split_and!; [done|right; by rewrite Hke|by rewrite Hke])
    ltac:(unfold budget, weight; rewrite Hke; destruct (number s1 (errorStream (node n)) =? 0); lia)).
  destruct (visit _ _ _) as [[next' s2]|e]; [|done]. destruct Hp as (? & Hw2 & Hg2 & Hn2).
  split_and!; [lia| |by eapply grows_trans|intros _; by apply (grows_number s1); [|apply Hm|]].
  eapply walk_pop; [done|]. unfold complete. rewrite Hk. split; [by eapply grows_cdone|]. apply Hn2. by rewrite Hke.
Qed.
Lemma result_posts : kind (node n) = ResultLink -> posts s n id S (ResultLink_build n id s).
Proof.
  intros Hk. destruct (setIdOnce_spec s (id - 1) S n id Hw (proj1 Hm) ltac:(lia)) as (Hw1 & Hg1 & Hn1).
  split_and!; [lia| |done|done]. eapply walk_pop; [done|]. unfold complete. by rewrite Hk.
Qed.
End Kinds.
End Visit.

Lemma build_cycle f c id s next s' : kind (node c) = CycleSource -> build f c id s = Ok (next, s') -> s' = s /\ getId s c <> 0.
Proof.
  intros Hk. destruct f; simpl; [done|]. rewrite Hk. unfold CycleSource_build. destruct (Z.eqb_spec (getId s c) 0); [done|]. by intros [= _ <-].
Qed.
Lemma build_good f : good f (build f).
Proof.
  induction f as [|f IH]; intros n id s S Hw Hm Hb; [lia|]. pose proof (build_cycle f) as Hcy. simpl. destruct (kind (node n)) eqn:Hk;
    eauto using common_posts, merge_posts, mergelink_posts, joinlink_posts, link_posts, cycle_posts, split_posts, case_posts, sink_posts,
      process_posts, input_posts, result_posts.
Qed.

(** ** From the roots *)
Definition is_root (n : nat) : Prop := virtual n = false /\ (kind (node n) = Common \/ kind (node n) = Input).
Lemma unset_le s : (unset s <= length g)%nat.
Proof. unfold unset. etransitivity; [apply length_filter|]. by rewrite length_seq. Qed.
Lemma roots_spec roots : forall next s,
  walk s next [] -> (forall r, r ∈ roots -> is_root r) ->
  match build_roots g callable roots next s with
  | Ok (next', s') => walk s' next' [] /\ grows s s' /\ (forall r, r ∈ roots -> number s' r <> 0)
  | Err e => e <> OutOfFuel
  end.
Proof.
  induction roots as [|r roots IH]; intros next s Hw Hr; simpl; [split_and!; [done|apply grows_refl|set_solver]|].
  destruct (Hr r ltac:(set_solver)) as [Hv Hk]. pose proof (build_good (fuel g) r (next + 1) s []) as Hp.
  replace (next + 1 - 1) with next in Hp by lia. pose proof (unset_le s) as Hu.
  assert (Hvis : may_visit s r) by (split_and!; [done|right|]; destruct Hk as [-> | ->]; done).
  assert (Hbud : (budget s r < fuel g)%nat) by (unfold budget, weight, fuel; destruct (_ =? _); [lia|]; destruct Hk as [-> | ->]; lia).
  specialize (Hp Hw Hvis Hbud). destruct (build (fuel g) r (next + 1) s) as [[next1 s1]|e]; simpl; [|done].
  destruct Hp as (_ & Hw1 & Hg1 & Hn1). specialize (IH next1 s1 Hw1 ltac:(intros; apply Hr; set_solver)).
  destruct (build_roots g callable roots next1 s1) as [[next2 s2]|e]; [|done]. destruct IH as (Hw2 & Hg2 & Hall).
  split_and!; [done|by eapply grows_trans|]. intros r' [->|Hr']%elem_of_cons; [|auto].
  apply (grows_number s1); [done|done|]. apply Hn1. destruct Hk as [-> | ->]; done.
Qed.
Lemma walk_unnumbered s : ids s = ∅ -> walk s 0 [].
Proof. intros E. split; unfold number; rewrite ?E; intros; rewrite ?E, ?lookup_empty in *; simpl in *; try done; lia. Qed.
(** Wiring gives no ids. *)
Lemma wire_ids l : forall s, match wire g callable l s with Ok s' => ids s' = ids s | Err e => e = NoCaller end.
Proof.
  induction l as [|n l IH]; intros s; simpl; [done|]. unfold setConsumer, prepareConsumerCaller, prepareCaller.
  destruct (kind _); simpl; try apply IH; destruct (consumer _) as [c|]; simpl; try apply IH; destruct (configId _ =? 0);
    simpl; try apply IH; destruct (callable n c); simpl; try done; apply (IH (set_prepared _ s)).
Qed.
Lemma walk_wired : match wired g callable with Ok s => walk s 0 [] | Err e => e = NoCaller end.
Proof.
  unfold wired. pose proof (wire_ids (seq 0 (length g)) (mkState ∅ ∅ ∅)) as Hw.
  destruct (wire _ _ _ _); [by apply walk_unnumbered|done].
Qed.

(** The way of the walk: to consumers, branches and the error stream of an input, not along links
    and not to the error streams of processes and sinks. *)
Definition edge (n m : nat) : Prop :=
  match kind (node n) with
  | Common | Merge | MergeLink | JoinLink | ErrorLink | WithError => consumer (node n) = Some m
  | Input => consumer (node n) = Some m \/ m = errorStream (node n)
  | Split | Case => m ∈ branches (node n)
  | _ => False
  end.
Lemma complete_edge s n m : complete s n -> edge n m -> getId s m <> 0 /\ virtual m = false.
Proof.
  assert (Hc : consumer (node n) = Some m -> cdone s n -> getId s m <> 0 /\ virtual m = false).
  { intros Hc Hd. split; [|by eapply wf_consumer]. unfold cdone in Hd. rewrite Hc in Hd. apply Hd. }
  assert (Hb : m ∈ branches (node n) -> number s m <> 0 -> getId s m <> 0 /\ virtual m = false).
  { intros Hb Hn. destruct (wf_branch Hwf n m Hb) as [Hv Hk]. split; [|done]. rewrite getId_number; [done|by rewrite Hk]. }
  unfold complete, edge. destruct (kind (node n)) eqn:Hk; try done; auto.
  - intros (c & Hcc & Hn) Hm. rewrite Hm in Hcc. injection Hcc as <-. split; [|by eapply wf_consumer].
    rewrite getId_number; [done|]. by rewrite (wf_merge Hwf n m Hk Hm).
  - intros Hd Hm. split; [auto|by eapply wf_consumer].
  - intros Hd Hm. split; [auto|by eapply wf_consumer].
  - intros [Hd _] Hm. auto.
  - naive_solver.
  - intros [Hd He] [Hm| ->]; [auto|]. destruct (wf_input Hwf n Hk) as [Hv Hke]. split; [|done]. rewrite getId_number; [done|by rewrite Hke].
Qed.
Lemma reached_complete s hi r n :
  walk s hi [] -> is_root r -> number s r <> 0 -> rtc edge r n ->
  virtual n = false /\ getId s n <> 0 /\ (kind (node n) <> CycleSource -> number s n <> 0 /\ complete s n).
Proof.
  intros Hw [Hv Hk] Hr. revert n. apply (rtc_ind_r (fun n => virtual n = false /\ getId s n <> 0 /\ (kind (node n) <> CycleSource -> number s n <> 0 /\ complete s n))).
  - assert (Hkr : kind (node r) <> CycleSource) by (destruct Hk as [-> | ->]; done). split_and!; [done|by rewrite getId_number|].
    intros _. split; [done|]. apply (walk_complete _ _ _ Hw); auto. set_solver.
  - intros n m _ He (Hvn & Hin & Hcn). assert (Hkn : kind (node n) <> CycleSource) by (intros E; unfold edge in He; by rewrite E in He).
    destruct (Hcn Hkn) as [Hnn Hcc]. destruct (complete_edge s n m Hcc He) as [Him Hvm]. split_and!; [done|done|].
    intros Hkm. rewrite getId_number in Him by done. split; [done|]. apply (walk_complete _ _ _ Hw); auto. set_solver.
Qed.
End Walk.

(** A graph can be checked. *)
Definition kind_is (g : Graph) (k : Kind) (n : nat) : bool := bool_decide (kind (node g n) = k).
Definition wf_node (g : Graph) (n : nat) : bool :=
  match consumer (node g n) with
  | Some c => negb (virtual g c) && implb (kind_is g MergeLink n) (kind_is g Merge c) && implb (kind_is g CycleSource n) (negb (kind_is g CycleSource c))
  | None => true
  end
  && forallb (fun b => negb (virtual g b) && kind_is g Common b) (branches (node g n))
  && implb (kind_is g Input n) (negb (virtual g (errorStream (node g n))) && kind_is g Common (errorStream (node g n)))
  && forallb (fun m => implb (owner g n && owner g m && (errorStream (node g n) =? errorStream (node g m))%nat) (n =? m)%nat) (seq 0 (length g)).
Definition wf_check (g : Graph) : bool := forallb (wf_node g) (seq 0 (length g)).
Lemma node_outside g n : (length g <= n)%nat -> node g n = mkNode ResultLink 0 None [] 0.
Proof. intros Hn. unfold Topology.node, Topology.Graph in *. assert (E : g !! n = None) by (by apply lookup_ge_None_2). by rewrite E. Qed.
Lemma kind_isP g k n : kind_is g k n = true <-> kind (node g n) = k.
Proof. apply bool_decide_eq_true. Qed.
Lemma wf_check_wf g : wf_check g = true -> wf g.
Proof.
  intros Hg. unfold wf_check in Hg. rewrite forallb_forall in Hg.
  assert (Hn : forall n, node g n = mkNode ResultLink 0 None [] 0 \/ wf_node g n = true).
  { intros n. destruct (decide (n < length g)%nat); [right; apply Hg, in_seq; lia|left; apply node_outside; lia]. }
  clear Hg. unfold wf_node in Hn. split.
  - intros n c Hc. destruct (Hn n) as [E|E]; [by rewrite E in Hc|]. rewrite Hc in E. by destruct (virtual g c).
  - intros n b Hb. destruct (Hn n) as [E|E]; [rewrite E in Hb; set_solver|]. rewrite !andb_true_iff in E. destruct E as [[[_ E] _] _].
    rewrite forallb_forall in E. specialize (E b (proj1 (list_elem_of_In _ _) Hb)). apply andb_true_iff in E as [E1 E2].
    split; [by destruct (virtual g b)|by apply kind_isP].
  - intros n Hk. destruct (Hn n) as [E|E]; [by rewrite E in Hk|]. rewrite !andb_true_iff in E. destruct E as [[_ E] _].
    rewrite (proj2 (kind_isP g Input n) Hk) in E. simpl in E. apply andb_true_iff in E as [E1 E2].
    split; [by destruct (virtual g _)|by apply kind_isP].
  - intros n c Hk Hc. destruct (Hn n) as [E|E]; [by rewrite E in Hk|]. rewrite Hc, (proj2 (kind_isP g MergeLink n) Hk) in E.
    apply kind_isP. destruct (kind_is g Merge c); [done|]. by destruct (virtual g c).
  - intros n c Hk Hc Hcc. destruct (Hn n) as [E|E]; [by rewrite E in Hk|].
    rewrite Hc, (proj2 (kind_isP g CycleSource n) Hk), (proj2 (kind_isP g CycleSource c) Hcc), andb_false_r in E. done.
  - intros n m H1 H2 He. destruct (Hn n) as [E|E]; [unfold owner in H1; by rewrite E in H1|]. rewrite !andb_true_iff in E. destruct E as [_ E].
    rewrite forallb_forall in E. destruct (decide (m < length g)%nat) as [Hm|Hm].
    + specialize (E m ltac:(apply in_seq; lia)). rewrite H1, H2, He, Nat.eqb_refl in E. by apply Nat.eqb_eq in E.
    + unfold owner in H2. rewrite node_outside in H2 by lia. done.
Qed.

(** ** The properties *)

(** C35.  Numbering a graph ends: on a well-formed graph [buildTopology] never runs out of its
    [3 * nodes + 3] nested visits.  When it throws nothing, every node that the walk can reach from
    a root has an id and everything was done for it: its consumer, branches and, for an input, its
    error stream have ids too; the callers of splits, links and configured streams are prepared;
    the error stream of a process or a sink has the negated id of its owner; and the targets of
    links have ids.  Ids of different nodes differ. *)
Theorem topology_exact g callable roots (Hwf : wf g) (Hroots : forall r, r ∈ roots -> is_root g r) :
  match buildTopology g callable roots with
  | Err e => e <> OutOfFuel
  | Ok s =>
      (forall r n, r ∈ roots -> rtc (edge g) r n ->
         getId g s n <> 0 /\ (kind (node g n) <> CycleSource -> number s n <> 0 /\ complete g s n)) /\
      (forall n m, virtual g n = false -> virtual g m = false -> number s n <> 0 -> number s n = number s m -> n = m) /\
      (forall n, virtual g n = false -> 0 <= number s n) /\
      (forall id c, links s !! id = Some c -> getId g s c <> 0)
  end.
Proof.
  unfold buildTopology. pose proof (walk_wired g callable) as H0. destruct (wired g callable) as [s0|e]; simpl; [|by subst].
  pose proof (roots_spec g callable Hwf roots 0 s0 H0 Hroots) as Hp.
  destruct (build_roots g callable roots 0 s0) as [[next s]|e]; simpl; [|done]. destruct Hp as (Hw & _ & Hr).
  destruct (forallb _ _) eqn:Hlinks; [|done]. split_and!.
  - intros r n Hin Hrn. by destruct (reached_complete g callable Hwf s next r n Hw (Hroots r Hin) (Hr r Hin) Hrn) as (_ & ? & ?).
  - apply Hw.
  - intros n Hv. destruct (Z.eq_dec (number s n) 0); [lia|]. destruct (walk_range _ _ _ _ Hw n Hv); lia.
  - intros id c Hl. rewrite forallb_forall in Hlinks. specialize (Hlinks (id, c)).
    assert (Hin : In (id, c) (map_to_list (links s))) by (apply list_elem_of_In, elem_of_map_to_list; done).
    specialize (Hlinks Hin). simpl in Hlinks. by apply negb_true_iff, Z.eqb_neq in Hlinks.
Qed.

(** An input (0, its error stream 1) feeds a process (2, its error stream 3) whose values end in a
    sink (4, its error stream 5) and whose errors in a split (6) of two links (7, 8) to the sinks 9
    and 10 (their error streams 11 and 12). *)
Definition stream (k : Kind) (id : Z) (c : option nat) (e : nat) : Node := mkNode k id c [] e.
Definition sample_errors : Graph :=
  [stream Input 1 (Some 2%nat) 1; stream Common 1 None 0; stream WithError 2 (Some 4%nat) 3; stream Common 2 (Some 6%nat) 0;
   stream Sink 3 None 5; stream Common 3 None 0; mkNode Split 4 None [7; 8]%nat 0; stream Common 0 (Some 9%nat) 0;
   stream Common 0 (Some 10%nat) 0; stream Sink 5 None 11; stream Sink 6 None 12; stream Common 5 None 0; stream Common 6 None 0].

Lemma topology_exact_witness :
  exists s, buildTopology sample_errors (fun _ _ => true) [0%nat] = Ok s /\ number s 4 = 3 /\ complete sample_errors s 2.
Proof.
  assert (Hwf : wf sample_errors) by (apply wf_check_wf; vm_compute; reflexivity).
  assert (Hr : forall r, r ∈ [0%nat] -> is_root sample_errors r).
  { intros r ->%list_elem_of_singleton. split; [vm_compute; reflexivity|by right]. }
  pose proof (topology_exact sample_errors (fun _ _ => true) [0%nat] Hwf Hr) as Ht.
  destruct (buildTopology sample_errors (fun _ _ => true) [0%nat]) as [s|e] eqn:Hs; [|by vm_compute in Hs].
  exists s. split; [done|]. split; [vm_compute in Hs; injection Hs as <-; vm_compute; reflexivity|].
  destruct Ht as (Ht & _). destruct (Ht 0%nat 2%nat) as [_ H2]; [set_solver|apply rtc_once; by left|]. by apply H2.
Defined.

(** The error streams of processes and sinks are not walked.  A split on one, in a
    well-formed graph that the numbering and its checks accept, gets neither an id nor its
    callers: the first error that reaches it is dispatched through a caller that is not there. *)
Theorem error_branch_unprepared :
  exists g roots s n, wf g /\ (forall r, r ∈ roots -> is_root g r) /\ buildTopology g (fun _ _ => true) roots = Ok s /\
    kind (node g n) = Split /\ consumer (node g (errorStream (node g 2))) = Some n /\ errorStream (node g 2) ∈ prepared s /\
    number s n = 0 /\ n ∉ prepared s.
Proof.
  eexists sample_errors, [0%nat], _, 6%nat. split; [apply wf_check_wf; vm_compute; reflexivity|].
  split; [intros r ->%list_elem_of_singleton; split; [vm_compute; reflexivity|by right]|].
  split; [vm_compute; reflexivity|]. split; [done|]. split; [done|].
  split; [apply (bool_decide_eq_true_1 (_ ∈ _)); vm_compute; reflexivity|]. split; [vm_compute; reflexivity|].
  apply (bool_decide_eq_false_1 (_ ∈ _)). vm_compute. reflexivity.
Qed.
