(* ===== verification/LocalSource.v ===== *)
(** * Requests of a local data source and their results

    [localsource::Endpoint] of datasource/localsource/custom.hpp with [PendingResult] and
    [ResultContext] of datasource/detail/result_context.hpp, as a transition system.  A
    request is one message of the producer on its way through [submit] and [process]; a
    consumer is one call of [consumeResult].  [pending_] is the finite map that a
    [RotatingMap] refines.  The handler is arbitrary: what its callbacks return or throw and
    when they call [done] is chosen at each step, as are cancellations, timeouts and the
    interruption of a wait.  Spans and metrics are left out. *)
From Stdlib Require Import Lia.
From stdpp Require Import strings gmap.
From S2P Require Import Prelude.

Module Local.

(** [wakeSent] with what became of the event: [Claimed] when a sender has won the exchange
    and has not sent yet, [Expired] when the waiter itself won it. *)
Inductive Wake := NotSent | Claimed | Sent | Expired.
#[export] Instance Wake_eq_dec : EqDecision Wake.
Proof. solve_decision. Defined.

(** [RSubmitted] to [RReleased]: the request waits for a slot, is begun, registered, consumed,
    waits for its result, has timed out after a sender won the exchange, waits for the
    exclusive lifetime lock, holds it before and after its entry is removed, has ended,
    and has given its slot back. *)
Inductive RPc :=
  | RSubmitted | RRejected
  | RBegin | RRegister | RConsume | RWaiting | RExpired | RFinish | REnding | REnd | RDone
  | RReleased (begun : bool).
#[export] Instance RPc_eq_dec : EqDecision RPc.
Proof. solve_decision. Defined.

(** [threw], [ends]: history, whether registration or [consumeMessage] threw and how often
    [endRequest] was called. *)
Record Request := mkRequest {
  rpc : RPc;
  rstream : string;
  completed : bool;
  wake : Wake;
  cancelled : bool;
  callbacks : gset string;
  error : bool;
  resultWaitFailed : bool;
  threw : bool;
  ends : nat;
}.

Inductive Outcome := Missing | Late | Unknown | Duplicate | Consumed.
(** [CLooked]: found, waits for the shared lifetime lock; the states from [CHeld] to
    [CErase] hold it. *)
Inductive CPc :=
  | CStart
  | CLooked (r : nat) | CHeld (r : nat) | CCall (r : nat) | CRunning (r : nat) | CErase (r : nat)
  | CDone (o : Outcome).
Record Consumer := mkConsumer {
  cpc : CPc;
  cstream : string;
  cmessage : string;
}.

Inductive StopPc := SIdle | SMark | SRequest | SJoin.

Record Endpoint := mkEndpoint {
  hasResult_ : bool;
  concurrency : Z;
  started_ : bool;
  stopped_ : bool;
  stopRequested : bool;
  active_ : Z;
  pending_ : gmap string nat;
  requests : list Request;
  consumers : list Consumer;
  stopper : StopPc;
  producing : bool;
}.

(** Field updates. *)
Definition set_rpc v q : Request :=
  mkRequest v (rstream q) (completed q) (wake q) (cancelled q) (callbacks q) (error q)
    (resultWaitFailed q) (threw q) (ends q).
Definition set_rstream v q : Request :=
  mkRequest (rpc q) v (completed q) (wake q) (cancelled q) (callbacks q) (error q)
    (resultWaitFailed q) (threw q) (ends q).
Definition set_completed v q : Request :=
  mkRequest (rpc q) (rstream q) v (wake q) (cancelled q) (callbacks q) (error q)
    (resultWaitFailed q) (threw q) (ends q).
Definition set_wake v q : Request :=
  mkRequest (rpc q) (rstream q) (completed q) v (cancelled q) (callbacks q) (error q)
    (resultWaitFailed q) (threw q) (ends q).
Definition set_cancelled v q : Request :=
  mkRequest (rpc q) (rstream q) (completed q) (wake q) v (callbacks q) (error q)
    (resultWaitFailed q) (threw q) (ends q).
Definition set_callbacks v q : Request :=
  mkRequest (rpc q) (rstream q) (completed q) (wake q) (cancelled q) v (error q)
    (resultWaitFailed q) (threw q) (ends q).
Definition set_error v q : Request :=
  mkRequest (rpc q) (rstream q) (completed q) (wake q) (cancelled q) (callbacks q) v
    (resultWaitFailed q) (threw q) (ends q).
Definition set_resultWaitFailed v q : Request :=
  mkRequest (rpc q) (rstream q) (completed q) (wake q) (cancelled q) (callbacks q) (error q)
    v (threw q) (ends q).
Definition set_threw v q : Request :=
  mkRequest (rpc q) (rstream q) (completed q) (wake q) (cancelled q) (callbacks q) (error q)
    (resultWaitFailed q) v (ends q).
Definition set_ends v q : Request :=
  mkRequest (rpc q) (rstream q) (completed q) (wake q) (cancelled q) (callbacks q) (error q)
    (resultWaitFailed q) (threw q) v.
Definition set_cpc v c : Consumer := mkConsumer v (cstream c) (cmessage c).
Definition set_hasResult_ v s : Endpoint :=
  mkEndpoint v (concurrency s) (started_ s) (stopped_ s) (stopRequested s) (active_ s)
    (pending_ s) (requests s) (consumers s) (stopper s) (producing s).
Definition set_concurrency v s : Endpoint :=
  mkEndpoint (hasResult_ s) v (started_ s) (stopped_ s) (stopRequested s) (active_ s)
    (pending_ s) (requests s) (consumers s) (stopper s) (producing s).
Definition set_started_ v s : Endpoint :=
  mkEndpoint (hasResult_ s) (concurrency s) v (stopped_ s) (stopRequested s) (active_ s)
    (pending_ s) (requests s) (consumers s) (stopper s) (producing s).
Definition set_stopped_ v s : Endpoint :=
  mkEndpoint (hasResult_ s) (concurrency s) (started_ s) v (stopRequested s) (active_ s)
    (pending_ s) (requests s) (consumers s) (stopper s) (producing s).
Definition set_stopRequested v s : Endpoint :=
  mkEndpoint (hasResult_ s) (concurrency s) (started_ s) (stopped_ s) v (active_ s)
    (pending_ s) (requests s) (consumers s) (stopper s) (producing s).
Definition set_active_ v s : Endpoint :=
  mkEndpoint (hasResult_ s) (concurrency s) (started_ s) (stopped_ s) (stopRequested s) v
    (pending_ s) (requests s) (consumers s) (stopper s) (producing s).
Definition set_pending_ v s : Endpoint :=
  mkEndpoint (hasResult_ s) (concurrency s) (started_ s) (stopped_ s) (stopRequested s)
    (active_ s) v (requests s) (consumers s) (stopper s) (producing s).
Definition set_requests v s : Endpoint :=
  mkEndpoint (hasResult_ s) (concurrency s) (started_ s) (stopped_ s) (stopRequested s)
    (active_ s) (pending_ s) v (consumers s) (stopper s) (producing s).
Definition set_consumers v s : Endpoint :=
  mkEndpoint (hasResult_ s) (concurrency s) (started_ s) (stopped_ s) (stopRequested s)
    (active_ s) (pending_ s) (requests s) v (stopper s) (producing s).
Definition set_stopper v s : Endpoint :=
  mkEndpoint (hasResult_ s) (concurrency s) (started_ s) (stopped_ s) (stopRequested s)
    (active_ s) (pending_ s) (requests s) (consumers s) v (producing s).
Definition set_producing v s : Endpoint :=
  mkEndpoint (hasResult_ s) (concurrency s) (started_ s) (stopped_ s) (stopRequested s)
    (active_ s) (pending_ s) (requests s) (consumers s) (stopper s) v.
Implicit Types (s : Endpoint) (q : Request) (c : Consumer).

Definition created (hasResult : bool) (limit : Z) : Endpoint :=
  mkEndpoint hasResult limit false true false 0 ∅ [] [] SIdle false.

Definition upd (r : nat) (f : Request -> Request) s : Endpoint := set_requests (alter f r (requests s)) s.
Definition cupd (i : nat) (f : Consumer -> Consumer) s : Endpoint := set_consumers (alter f i (consumers s)) s.
Definition goto (pc : RPc) (r : nat) s : Endpoint := upd r (set_rpc pc) s.

(** ** start, submit and stop *)
Definition start s : Endpoint * result unit unit :=
  if started_ s then (s, Err tt)
  else (s |> set_started_ true |> set_stopRequested false |> set_stopped_ false |> set_producing true, Ok tt).

(** The producer hands a message to [submit]. *)
Definition submit s : option Endpoint :=
  if producing s
  then Some (set_requests (requests s ++ [mkRequest RSubmitted EmptyString false NotSent false ∅ false false false 0]) s)
  else None.

Definition acquire (r : nat) s : option Endpoint :=
  if stopped_ s then Some (goto RRejected r s)
  else if (concurrency s <=? 0)%Z || (active_ s <? concurrency s)%Z
  then Some (s |> set_active_ (active_ s + 1)%Z |> goto RBegin r)
  else None.
Definition release (begun : bool) (r : nat) s : Endpoint :=
  s |> set_active_ (active_ s - 1)%Z |> goto (RReleased begun) r.

Definition stop_call s : option Endpoint :=
  match stopper s with
  | SIdle => Some (if started_ s then s |> set_started_ false |> set_stopper SMark else s)
  | _ => None
  end.
Definition finished q : bool := match rpc q with RRejected | RReleased _ => true | _ => false end.
Definition stop_step s : option Endpoint :=
  match stopper s with
  | SIdle => None
  | SMark => Some (s |> set_stopped_ true |> set_stopper SRequest)
  | SRequest => Some (s |> set_stopRequested true |> set_stopper SJoin)
  | SJoin =>
      if forallb finished (requests s) then Some (s |> set_producing false |> set_stopper SIdle) else None
  end.

(** ** process *)

(** [beginRequest] throws, or gives the context whose stream id, a fresh one if it is empty,
    is [id]. *)
Definition begin_request (id : option string) (r : nat) s : Endpoint :=
  match id with
  | None => release false r s
  | Some id => s |> upd r (fun q => q |> set_rstream id |> set_rpc RRegister)
  end.

Definition fail_request q : Request := q |> set_error true |> set_threw true |> set_rpc RFinish.
(** [pending_.set] throws when the stream id is taken. *)
Definition register (r : nat) (q : Request) s : Endpoint :=
  if hasResult_ s then
    match pending_ s !! rstream q with
    | Some _ => upd r fail_request s
    | None => s |> set_pending_ (<[rstream q := r]> (pending_ s)) |> goto RConsume r
    end
  else goto RConsume r s.
Definition consume_message (ok : bool) (r : nat) s : Endpoint :=
  if ok then goto (if hasResult_ s then RWaiting else RFinish) r s else upd r fail_request s.

Definition wait_failed q : Request := q |> set_error true |> set_resultWaitFailed true |> set_rpc RFinish.
(** The event was sent. *)
Definition done_received (r : nat) q s : option Endpoint :=
  if bool_decide (wake q = Sent)
  then Some (if cancelled q || stopRequested s then upd r wait_failed s else goto RFinish r s) else None.
(** The deadline passes. *)
Definition wait_timeout (r : nat) q s : Endpoint :=
  if bool_decide (wake q = NotSent) then upd r (fun q => q |> set_wake Expired |> wait_failed) s
  else goto RExpired r s.
(** A sender that won the exchange is waited for. *)
Definition wait_sender (r : nat) q s : option Endpoint :=
  if bool_decide (wake q = Sent) then Some (upd r wait_failed s) else None.

Definition shares (r : nat) c : bool :=
  match cpc c with CHeld r' | CCall r' | CRunning r' | CErase r' => (r' =? r)%nat | _ => false end.
(** The exclusive lock: every shared holder has left; a result that came in time counts. *)
Definition finish_request (r : nat) s : option Endpoint :=
  if existsb (shares r) (consumers s) then None
  else Some (upd r (fun q => q |> set_error (if resultWaitFailed q && completed q then false else error q) |> set_rpc REnding) s).
Definition unregister (r : nat) q s : Endpoint :=
  (if hasResult_ s then set_pending_ (delete (rstream q) (pending_ s)) s else s) |> goto REnd r.
Definition end_request (r : nat) s : Endpoint := upd r (fun q => q |> set_ends (S (ends q)) |> set_rpc RDone) s.

(** What the handler and its callbacks choose. *)
Inductive Choice := Fine | Throws | Begins (id : string) | TimesOut | Interrupted.

Definition request_step (ch : Choice) (r : nat) s : option Endpoint :=
  match requests s !! r with
  | None => None
  | Some q =>
      match rpc q with
      | RSubmitted => acquire r s
      | RBegin => match ch with Begins id => Some (begin_request (Some id) r s) | _ => Some (begin_request None r s) end
      | RRegister => Some (register r q s)
      | RConsume => Some (consume_message (match ch with Throws => false | _ => true end) r s)
      | RWaiting =>
          match ch with
          | TimesOut => Some (wait_timeout r q s)
          | Interrupted => Some (upd r wait_failed s)
          | _ => done_received r q s
          end
      | RExpired => wait_sender r q s
      | RFinish => finish_request r s
      | REnding => Some (unregister r q s)
      | REnd => Some (end_request r s)
      | RDone => Some (release true r s)
      | RRejected | RReleased _ => None
      end
  end.

(** [ResultContext::done]: the store, then the exchange; and the cancellation callbacks of a
    waiting request. *)
Definition has_context q : bool :=
  match rpc q with RSubmitted | RRejected | RBegin | RRegister | RReleased false => false | _ => true end.
Definition waits q : bool := match rpc q with RWaiting | RExpired => true | _ => false end.
Inductive Signal := SDone | SCancel | SClaimDone | SClaimCancel | SSend | SCallback (message : string).
Definition signal (g : Signal) (r : nat) s : option Endpoint :=
  match requests s !! r with
  | None => None
  | Some q =>
      match g with
      | SDone => if has_context q then Some (upd r (set_completed true) s) else None
      | SCancel => Some (upd r (set_cancelled true) s)
      | SClaimDone =>
          if completed q && bool_decide (wake q = NotSent) then Some (upd r (set_wake Claimed) s) else None
      | SClaimCancel =>
          if waits q && (cancelled q || stopRequested s) && bool_decide (wake q = NotSent)
          then Some (upd r (set_wake Claimed) s) else None
      | SSend => if bool_decide (wake q = Claimed) then Some (upd r (set_wake Sent) s) else None
      | SCallback message =>
          if has_context q then Some (upd r (fun q => set_callbacks ({[message]} ∪ callbacks q) q) s) else None
      end
  end.

(** ** consumeResult *)
Definition consumeResult (stream message : string) s : Endpoint :=
  if hasResult_ s then set_consumers (consumers s ++ [mkConsumer CStart stream message]) s else s.

Definition exclusive q : bool := match rpc q with REnding | REnd => true | _ => false end.

(** [keep] is what a callback returns: true when the message id is done. *)
Definition consumer_step (keep : bool) (i : nat) s : option Endpoint :=
  match consumers s !! i with
  | None => None
  | Some c =>
      let go pc := Some (cupd i (set_cpc pc) s) in
      match cpc c with
      | CStart =>
          if bool_decide (cstream c = EmptyString) then go (CDone Missing)
          else match pending_ s !! cstream c with Some r => go (CLooked r) | None => go (CDone Late) end
      | CLooked r =>
          match requests s !! r with
          | Some q => if exclusive q then None else go (CHeld r)
          | None => None
          end
      | CHeld r => if bool_decide (pending_ s !! cstream c = Some r) then go (CCall r) else go (CDone Late)
      | CCall r =>
          match requests s !! r with
          | Some q => if bool_decide (cmessage c ∈ callbacks q) then go (CRunning r) else go (CDone Unknown)
          | None => None
          end
      | CRunning r => if keep then go (CErase r) else go (CDone Consumed)
      | CErase r =>
          match requests s !! r with
          | Some q =>
              Some (s |> upd r (fun q => set_callbacks (callbacks q ∖ {[cmessage c]}) q)
                      |> cupd i (set_cpc (CDone (if bool_decide (cmessage c ∈ callbacks q) then Consumed else Duplicate))))
          | None => None
          end
      | CDone _ => None
      end
  end.

Inductive Action :=
  | DoStart | DoSubmit | DoStop | DoStopStep
  | DoRequest (ch : Choice) (r : nat)
  | DoSignal (g : Signal) (r : nat)
  | DoResult (stream message : string)
  | DoConsumer (keep : bool) (i : nat).

Definition perform (a : Action) s : option Endpoint :=
  match a with
  | DoStart => match stopper s with SIdle => Some (start s).1 | _ => None end
  | DoSubmit => submit s
  | DoStop => stop_call s
  | DoStopStep => stop_step s
  | DoRequest ch r => request_step ch r s
  | DoSignal g r => signal g r s
  | DoResult stream message => Some (consumeResult stream message s)
  | DoConsumer keep i => consumer_step keep i s
  end.
Definition step s s' : Prop := exists a, perform a s = Some s'.
Definition reachable (hasResult : bool) (limit : Z) s : Prop := rtc step (created hasResult limit) s.
Fixpoint run (acts : list Action) s : option Endpoint :=
  match acts with
  | [] => Some s
  | a :: acts => s ← perform a s; run acts s
  end.
End Local.
