(* ===== verification/LocalSourceTheorems.v ===== *)
(** * What a local data source promises

    To the handler: the lifetime of a request's state, and that a result that came in time
    counts.  To the service: that a stopped endpoint is drained. *)
From Stdlib Require Import Lia.
From stdpp Require Import strings gmap.
From S2P Require Import Prelude Monitor LocalSource.
Import Local.
Local Open Scope Z_scope.

Implicit Types (s : Endpoint) (q : Request) (c : Consumer).

(** ** What the invariant looks at *)

(** The request may be in [pending_]. *)
Definition live q : bool := match rpc q with RConsume | RWaiting | RExpired | RFinish | REnding => true | _ => false end.
(** Its callbacks may run. *)
Definition callable q : bool := match rpc q with RConsume | RWaiting | RExpired | RFinish => true | _ => false end.
(** It holds a slot. *)
Definition slot q : bool :=
  match rpc q with RSubmitted | RRejected | RReleased _ => false | _ => true end.
Definition ended q : bool := match rpc q with RDone | RReleased true => true | _ => false end.
(** Nothing has gone wrong yet. *)
Definition early q : bool :=
  match rpc q with RSubmitted | RBegin | RRegister | RConsume | RWaiting | RExpired => true | _ => false end.

Record req_ok (hasResult stopReq : bool) q : Prop := {
  ok_ends : ends q = if ended q then 1%nat else 0%nat;
  ok_wake : finished q = false -> wake q = Claimed \/ wake q = Sent ->
    completed q = true \/ cancelled q = true \/ stopReq = true;
  ok_early : early q = true -> error q = false /\ threw q = false /\ resultWaitFailed q = false;
  ok_finish : rpc q = RFinish ->
    error q = threw q || resultWaitFailed q /\ (threw q = true -> resultWaitFailed q = false) /\
    (resultWaitFailed q = true -> hasResult = true) /\
    (threw q = false -> resultWaitFailed q = false -> hasResult = true -> completed q = true);
}.

Definition consumer_ok s c : Prop :=
  match cpc c with
  | CLooked r => is_Some (requests s !! r)
  | CHeld r => exists q, requests s !! r = Some q /\ exclusive q = false
  | CCall r | CRunning r | CErase r => exists q, requests s !! r = Some q /\ callable q = true
  | CStart | CDone _ => True
  end.

Definition all_finished s : Prop := forall r q, requests s !! r = Some q -> finished q = true.

Record inv s : Prop := {
  inv_req r q : requests s !! r = Some q -> req_ok (hasResult_ s) (stopRequested s) q;
  inv_wait r q : requests s !! r = Some q -> waits q = true -> hasResult_ s = true;
  inv_pending sid r : pending_ s !! sid = Some r ->
    exists q, requests s !! r = Some q /\ rstream q = sid /\ live q = true;
  inv_nores : hasResult_ s = false -> pending_ s = ∅;
  inv_consumer i c : consumers s !! i = Some c -> consumer_ok s c;
  inv_active : active_ s = Monitor.tallied slot (requests s);
  inv_bound : 0 < concurrency s -> active_ s <= concurrency s;
  inv_idle : stopper s = SIdle -> started_ s = false -> all_finished s /\ producing s = false;
}.

(** What a step of a request keeps of the endpoint. *)
Record framed s s' : Prop := {
  framed_result : hasResult_ s' = hasResult_ s;
  framed_limit : concurrency s' = concurrency s;
  framed_stop : stopRequested s' = stopRequested s;
  framed_consumers : consumers s' = consumers s;
  framed_stopper : stopper s' = stopper s;
  framed_started : started_ s' = started_ s;
  framed_producing : producing s' = producing s;
}.

(** One request moves. *)
Lemma request_moves s s' r q (f : Request -> Request) :
  inv s -> framed s s' -> requests s !! r = Some q -> requests s' = alter f r (requests s) ->
  req_ok (hasResult_ s) (stopRequested s) (f q) -> (waits (f q) = true -> hasResult_ s = true) ->
  (forall sid r', pending_ s' !! sid = Some r' ->
     (r' = r /\ rstream (f q) = sid /\ live (f q) = true) \/ (r' <> r /\ pending_ s !! sid = Some r')) ->
  existsb (shares r) (consumers s) = false \/ ((exclusive q = false -> exclusive (f q) = false) /\ (callable q = true -> callable (f q) = true)) ->
  active_ s' = active_ s - Z.b2z (slot q) + Z.b2z (slot (f q)) -> (0 < concurrency s -> active_ s' <= concurrency s) ->
  (finished q = true -> finished (f q) = true) -> (hasResult_ s = false -> pending_ s' = ∅) -> inv s'.
Proof.
  intros [I1 I1' I2 I2' I3 I4 I5 I6] [F1 F2 F3 F4 F5 F6 F7] Hq Er Hok Hw Hp Hc Ha Hb Hf Hn.
  assert (Hlk : forall r', requests s' !! r' = if decide (r = r') then Some (f q) else requests s !! r').
  { intros r'. rewrite Er. by apply lookup_alter_req. }
  split.
  - intros r' q'. rewrite Hlk, F1, F3. destruct (decide (r = r')); [by intros [= <-]|apply I1].
  - intros r' q'. rewrite Hlk, F1. destruct (decide (r = r')); [by intros [= <-]|apply I1'].
  - intros sid r' Hs. destruct (Hp sid r' Hs) as [(-> & ? & ?)|(Hne & Hs')].
    + exists (f q). rewrite Hlk, decide_True by done. done.
    + destruct (I2 sid r' Hs') as (q' & ? & ?). exists q'. rewrite Hlk, decide_False by done. done.
  - by rewrite F1.
  - intros i c. rewrite F4. intros Hi. specialize (I3 i c Hi). unfold consumer_ok in *.
    assert (Hsh : forall r', (r' = r -> shares r c = true) -> r' <> r \/ ((exclusive q = false -> exclusive (f q) = false) /\ (callable q = true -> callable (f q) = true))).
    { intros r' Hs. destruct (decide (r' = r)) as [->|]; [|by left]. right. destruct Hc as [Hc|Hc]; [|done].
      exfalso. apply not_true_iff_false in Hc. apply Hc, existsb_exists. exists c. split; [|by apply Hs].
      apply list_elem_of_In. by eapply list_elem_of_lookup_2. }
    unfold shares in Hsh. destruct (cpc c) as [|r'|r'|r'|r'|r'|o]; try done;
      [destruct I3 as [q' Hq']; rewrite Hlk; destruct (decide (r = r')); eauto|..];
      destruct I3 as (q' & Hq' & Hx); rewrite Hlk;
      (destruct (Hsh r') as [Hne|[H1 H2]]; [by intros ->; apply Nat.eqb_refl|exists q'; rewrite decide_False by done; done|]);
      (destruct (decide (r = r')) as [<-|]; [|by exists q']); exists (f q); simplify_eq; auto.
  - rewrite Ha, Er, I4. rewrite (alter_insert _ _ _ _ Hq), (Monitor.tallied_insert _ _ _ _ _ Hq). lia.
  - rewrite F2. done.
  - rewrite F5, F6, F7. intros H1 H2. destruct (I6 H1 H2) as [Hall Hpr]. split; [|done].
    intros r' q'. rewrite Hlk. destruct (decide (r = r')) as [<-|]; [|apply Hall]. intros [= <-]. by apply Hf, Hall with r.
Qed.

(** A move that leaves the map, the slots and the stream id. *)
Lemma upd_keeps s r q (f : Request -> Request) :
  inv s -> requests s !! r = Some q -> req_ok (hasResult_ s) (stopRequested s) (f q) ->
  (waits (f q) = true -> hasResult_ s = true) -> rstream (f q) = rstream q -> (live q = true -> live (f q) = true) ->
  existsb (shares r) (consumers s) = false \/ ((exclusive q = false -> exclusive (f q) = false) /\ (callable q = true -> callable (f q) = true)) ->
  slot (f q) = slot q -> (finished q = true -> finished (f q) = true) -> inv (upd r f s).
Proof.
  intros Hinv Hq Hok Hw Es Hl Hc Hs Hf. eapply request_moves; try done.
  - intros sid r' Hp. destruct (inv_pending _ Hinv sid r' Hp) as (q' & Hq' & Est & Hlv).
    destruct (decide (r' = r)) as [->|Hne]; [|by right]. left. simplify_eq. auto.
  - simpl. rewrite Hs. lia.
  - apply Hinv.
  - apply Hinv.
Qed.

(** A request that is not live is not in the map. *)
Lemma not_pending s r q sid r' : inv s -> requests s !! r = Some q -> live q = false -> pending_ s !! sid = Some r' -> r' <> r.
Proof. intros Hinv Hq Hl Hp ->. destruct (inv_pending _ Hinv sid r Hp) as (q' & Hq' & _ & Hlv). congruence. Qed.

(** Evaluate the views of a request whose program counter is known. *)
Ltac view Hpc := unfold live, slot, callable, exclusive, finished, waits, early, ended in *; simpl; rewrite ?Hpc in *; simpl in *.


Lemma local_release b s r q :
  inv s -> requests s !! r = Some q -> (b = true /\ rpc q = RDone \/ b = false /\ rpc q = RBegin) -> inv (release b r s).
Proof.
  intros Hinv Hq Hb. pose proof (inv_req _ Hinv r q Hq) as [O1 O2 O3 O4].
  assert (Hlv : live q = false) by (unfold live; destruct Hb as [[_ ->]|[_ ->]]; done).
  assert (Hsl : slot q = true) by (unfold slot; destruct Hb as [[_ ->]|[_ ->]]; done).
  eapply (request_moves s _ r q (set_rpc (RReleased b))); try done.
  - split; simpl; try done. rewrite O1. unfold ended. simpl. destruct Hb as [[-> E]|[-> E]]; by rewrite E.
  - intros sid r' Hp. right. split; [|done]. by eapply not_pending.
  - right. split; [done|]. unfold callable. destruct Hb as [[_ ->]|[_ ->]]; done.
  - rewrite Hsl. simpl. lia.
  - pose proof (inv_bound _ Hinv). simpl. lia.
  - apply Hinv.
Qed.

Lemma local_acquire s r q s' : inv s -> requests s !! r = Some q -> rpc q = RSubmitted -> acquire r s = Some s' -> inv s'.
Proof.
  intros Hinv Hq Hpc Hs. pose proof (inv_req _ Hinv r q Hq) as [O1 O2 O3 O4]. unfold acquire in Hs.
  unfold ended, early, finished in *. rewrite Hpc in *. destruct (O3 eq_refl) as (? & ? & ?).
  destruct (stopped_ s).
  { injection Hs as <-. apply (upd_keeps s r q (set_rpc RRejected)); try done; view Hpc; try done. by right. }
  destruct (_ || _) eqn:Hl; [|done]. injection Hs as <-.
  eapply (request_moves s _ r q (set_rpc RBegin)); try done; view Hpc; try done.
  - intros sid r' Hp. right. split; [|done]. eapply not_pending; [done|done| |done]. by view Hpc.
  - by right.
  - lia.
  - intros Hc. apply orb_true_iff in Hl as [Hl|Hl]; [apply Z.leb_le in Hl|apply Z.ltb_lt in Hl]; lia.
  - apply Hinv.
Qed.

(** The moves of a request that is out of [submit] and holds no lock. *)
Lemma local_moves s r q f :
  inv s -> requests s !! r = Some q -> callable q = true -> callable (f q) = true ->
  req_ok (hasResult_ s) (stopRequested s) (f q) -> (waits (f q) = true -> hasResult_ s = true) -> rstream (f q) = rstream q ->
  inv (upd r f s).
Proof.
  intros Hinv Hq Hc Hc' Hok Hw Es.
  assert (Hv : forall q, callable q = true -> live q = true /\ exclusive q = false /\ slot q = true /\ finished q = false).
  { intros q0. unfold callable, live, exclusive, slot, finished. by destruct (rpc q0). }
  destruct (Hv q Hc) as (L & X & S & F), (Hv (f q) Hc') as (L' & X' & S' & F').
  apply (upd_keeps s r q f); try done; [auto|congruence|congruence].
Qed.

Lemma ok_wait_failed hr sr q :
  req_ok hr sr q -> callable q = true -> threw q = false -> hr = true -> req_ok hr sr (wait_failed q).
Proof.
  intros [O1 O2 O3 O4] Hc Ht ->. split; simpl; try done.
  - rewrite O1. unfold ended, callable in *. simpl. by destruct (rpc q).
  - intros _. apply O2. unfold finished, callable in *. by destruct (rpc q).
  - intros _. rewrite Ht. done.
Qed.

Lemma local_register s r q : inv s -> requests s !! r = Some q -> rpc q = RRegister -> inv (register r q s).
Proof.
  intros Hinv Hq Hpc. pose proof (inv_req _ Hinv r q Hq) as [O1 O2 O3 O4]. view Hpc. destruct (O3 eq_refl) as (E1 & E2 & E3).
  assert (Hgo : req_ok (hasResult_ s) (stopRequested s) (set_rpc RConsume q)) by (split; view Hpc; try done).
  unfold register. destruct (hasResult_ s) eqn:Hr.
  2:{ eapply (request_moves s _ r q (set_rpc RConsume)); try done; view Hpc; try done.
      - intros sid r' Hp. rewrite (inv_nores _ Hinv Hr) in Hp. by rewrite lookup_empty in Hp.
      - by right.
      - lia.
      - apply Hinv.
      - intros _. by apply inv_nores. }
  destruct (pending_ s !! rstream q) as [r0|] eqn:Hp0.
  - eapply (request_moves s _ r q fail_request); try done; view Hpc; try done.
    + intros sid r' Hp. right. split; [|done]. eapply not_pending; [done|done| |done]. by view Hpc.
    + by right.
    + lia.
    + apply Hinv.
    + congruence.
  - eapply (request_moves s _ r q (set_rpc RConsume)); try done; view Hpc; try done.
    + intros sid r' Hp. apply lookup_insert_Some in Hp as [[<- <-]|[Hne Hp]]; [by left|].
      right. split; [|done]. eapply not_pending; [done|done| |done]. by view Hpc.
    + by right.
    + lia.
    + apply Hinv.
    + congruence.
Qed.

Lemma local_begin s r q id : inv s -> requests s !! r = Some q -> rpc q = RBegin -> inv (begin_request id r s).
Proof.
  intros Hinv Hq Hpc. destruct id as [id|]; [|apply (local_release false s r q); auto].
  pose proof (inv_req _ Hinv r q Hq) as [O1 O2 O3 O4]. view Hpc. destruct (O3 eq_refl) as (E1 & E2 & E3).
  eapply (request_moves s _ r q (fun q => q |> set_rstream id |> set_rpc RRegister)); try done; view Hpc; try done.
  - intros sid r' Hp. right. split; [|done]. eapply not_pending; [done|done| |done]. by view Hpc.
  - by right.
  - lia.
  - apply Hinv.
  - apply Hinv.
Qed.

Lemma local_consume s r q ok : inv s -> requests s !! r = Some q -> rpc q = RConsume -> inv (consume_message ok r s).
Proof.
  intros Hinv Hq Hpc. pose proof (inv_req _ Hinv r q Hq) as [O1 O2 O3 O4]. view Hpc. destruct (O3 eq_refl) as (E1 & E2 & E3).
  unfold consume_message. destruct ok.
  - apply (local_moves s r q); try done; view Hpc; try done; destruct (hasResult_ s) eqn:Hr; try done.
    split; view Hpc; try done. intros _. by rewrite E1, E2, E3.
  - apply (local_moves s r q); try done; view Hpc; try done. split; view Hpc; try done. intros _. by rewrite E3.
Qed.

Lemma local_waiting s r q ch s' :
  inv s -> requests s !! r = Some q -> rpc q = RWaiting \/ rpc q = RExpired -> request_step ch r s = Some s' -> inv s'.
Proof.
  intros Hinv Hq Hpc Hs. pose proof (inv_req _ Hinv r q Hq) as Hok. pose proof Hok as [O1 O2 O3 O4].
  assert (Hw : waits q = true) by (unfold waits; destruct Hpc as [->| ->]; done).
  assert (Hc : callable q = true) by (unfold callable; destruct Hpc as [->| ->]; done).
  assert (Hr : hasResult_ s = true) by (by eapply inv_wait).
  assert (He : error q = false /\ threw q = false /\ resultWaitFailed q = false) by (apply O3; unfold early; destruct Hpc as [->| ->]; done).
  destruct He as (E1 & E2 & E3).
  assert (Hfl : inv (upd r wait_failed s)).
  { apply (local_moves s r q); try done. by apply ok_wait_failed. }
  unfold request_step in Hs. rewrite Hq in Hs. destruct Hpc as [Hpc|Hpc]; rewrite Hpc in Hs.
  - assert (Hrec : done_received r q s = Some s' -> inv s').
    { unfold done_received. case_bool_decide as Hwk; [|done]. intros [= <-]. destruct (cancelled q || stopRequested s) eqn:Hcs; [done|].
      apply orb_false_iff in Hcs as [Hc1 Hc2].
      apply (local_moves s r q); try done; view Hpc; try done. split; view Hpc; try done.
      intros _. rewrite E1, E2, E3. split; [done|]. split; [done|]. split; [done|]. intros _ _ _.
      destruct (O2 eq_refl (or_intror Hwk)) as [?|[?|?]]; congruence. }
    destruct ch; auto.
    + injection Hs as <-. unfold wait_timeout. case_bool_decide.
      * apply (local_moves s r q); try done. destruct (ok_wait_failed _ _ q Hok Hc E2 Hr) as [W1 W2 W3 W4].
        split; simpl in *; try done. intros _ [?|?]; done.
      * apply (local_moves s r q); try done; view Hpc; try done.
    + by injection Hs as <-.
  - unfold wait_sender in Hs. case_bool_decide; [|done]. by injection Hs as <-.
Qed.

Lemma local_finishing s r q s' :
  inv s -> requests s !! r = Some q -> rpc q = RFinish -> finish_request r s = Some s' -> inv s'.
Proof.
  intros Hinv Hq Hpc Hs. pose proof (inv_req _ Hinv r q Hq) as [O1 O2 O3 O4]. view Hpc.
  unfold finish_request in Hs. destruct (existsb (shares r) (consumers s)) eqn:Hsh; [done|]. injection Hs as <-.
  eapply (upd_keeps s r q); try done; view Hpc; try done. by left.
Qed.

Lemma local_unregister s r q : inv s -> requests s !! r = Some q -> rpc q = REnding -> inv (unregister r q s).
Proof.
  intros Hinv Hq Hpc. pose proof (inv_req _ Hinv r q Hq) as [O1 O2 O3 O4]. view Hpc.
  eapply (request_moves s _ r q (set_rpc REnd)); try done; view Hpc; unfold unregister; destruct (hasResult_ s) eqn:Hr; simpl; try done.
  - intros sid r' Hp. right. apply lookup_delete_Some in Hp as [Hne Hp]. split; [|done]. intros ->.
    destruct (inv_pending _ Hinv sid r Hp) as (q' & Hq' & E & _). congruence.
  - intros sid r' Hp. rewrite (inv_nores _ Hinv Hr) in Hp. by rewrite lookup_empty in Hp.
  - by right.
  - by right.
  - lia.
  - lia.
  - apply Hinv.
  - apply Hinv.
  - intros _. by apply inv_nores.
Qed.

Lemma local_end s r q : inv s -> requests s !! r = Some q -> rpc q = REnd -> inv (end_request r s).
Proof.
  intros Hinv Hq Hpc. pose proof (inv_req _ Hinv r q Hq) as [O1 O2 O3 O4]. view Hpc.
  eapply (upd_keeps s r q); try done; view Hpc; try done; [|by right].
  split; view Hpc; try done. by rewrite O1.
Qed.

Lemma local_request ch r s s' : inv s -> request_step ch r s = Some s' -> inv s'.
Proof.
  intros Hinv Hs. destruct (requests s !! r) as [q|] eqn:Hq; [|unfold request_step in Hs; by rewrite Hq in Hs].
  destruct (rpc q) eqn:Hpc; try (by eapply (local_waiting s r q); eauto); unfold request_step in Hs; rewrite Hq, Hpc in Hs; try done.
  - by eapply local_acquire.
  - destruct ch; injection Hs as <-; first [exact (local_begin s r q None Hinv Hq Hpc) | exact (local_begin s r q (Some id) Hinv Hq Hpc)].
  - injection Hs as <-. by eapply local_register.
  - injection Hs as <-. by eapply local_consume.
  - by eapply local_finishing.
  - injection Hs as <-. by eapply local_unregister.
  - injection Hs as <-. by eapply local_end.
  - injection Hs as <-. eapply local_release; eauto.
Qed.

(** A signal changes no program counter. *)
Lemma local_mark s r q f :
  inv s -> requests s !! r = Some q -> rpc (f q) = rpc q -> rstream (f q) = rstream q ->
  req_ok (hasResult_ s) (stopRequested s) (f q) -> inv (upd r f s).
Proof.
  intros Hinv Hq Ep Es Hok. apply (upd_keeps s r q f); try done; unfold waits, live, exclusive, callable, slot, finished; rewrite ?Ep; try done.
  - apply (inv_wait _ Hinv r q Hq).
  - by right.
Qed.
Lemma local_signal g r s s' : inv s -> signal g r s = Some s' -> inv s'.
Proof.
  intros Hinv Hs. unfold signal in Hs. destruct (requests s !! r) as [q|] eqn:Hq; [|done].
  pose proof (inv_req _ Hinv r q Hq) as [O1 O2 O3 O4].
  destruct g.
  - destruct (has_context q); [|done]. injection Hs as <-. apply (local_mark s r q); try done. split; simpl; auto.
    intros Hf. destruct (O4 Hf) as (? & ? & ? & ?). auto.
  - injection Hs as <-. apply (local_mark s r q); try done. split; simpl; auto.
  - destruct (completed q && _) eqn:Hb; [|done]. bool_to_prop. injection Hs as <-. apply (local_mark s r q); try done. split; simpl; auto.
  - destruct (waits q && _ && _) eqn:Hb; [|done]. injection Hs as <-. apply (local_mark s r q); try done. split; simpl; auto.
    intros _ _. apply andb_true_iff in Hb as [Hb _]. apply andb_true_iff in Hb as [_ Hb]. apply orb_true_iff in Hb. tauto.
  - case_bool_decide as Hw; [|done]. injection Hs as <-. apply (local_mark s r q); try done. split; simpl; auto.
  - destruct (has_context q); [|done]. injection Hs as <-. apply (local_mark s r q); try done.
Qed.

(** A consumer moves. *)
Lemma local_consumers s s' :
  inv s -> framed s (set_consumers (consumers s) s') -> requests s' = requests s -> pending_ s' = pending_ s -> active_ s' = active_ s ->
  (forall i c, consumers s' !! i = Some c -> consumer_ok s' c) -> inv s'.
Proof.
  intros [I1 I1' I2 I2' I3 I4 I5 I6] [F1 F2 F3 F4 F5 F6 F7] Er Ep Ea Hc. simpl in *.
  split; unfold all_finished; rewrite ?F1, ?F2, ?F3, ?F5, ?F6, ?F7, ?Er, ?Ep, ?Ea; done.
Qed.
Lemma local_cupd s i c f : inv s -> consumers s !! i = Some c -> consumer_ok s (f c) -> inv (cupd i f s).
Proof.
  intros Hinv Hi Hok. apply (local_consumers s); try done. intros j c'. simpl. destruct (decide (i = j)) as [<-|Hne].
  - rewrite list_lookup_alter_eq, Hi. intros [= <-]. exact Hok.
  - rewrite list_lookup_alter_ne by done. intros Hj. exact (inv_consumer _ Hinv j c' Hj).
Qed.

Lemma local_consumer_step keep i s s' : inv s -> consumer_step keep i s = Some s' -> inv s'.
Proof.
  intros Hinv Hs. unfold consumer_step in Hs. destruct (consumers s !! i) as [c|] eqn:Hi; [|done].
  pose proof (inv_consumer _ Hinv i c Hi) as Hok. unfold consumer_ok in Hok.
  assert (Hdone : forall o, inv (cupd i (set_cpc (CDone o)) s)) by (intros o; by eapply local_cupd).
  destruct (cpc c) as [|r|r|r|r|r|o] eqn:Hpc.
  - case_bool_decide; [by injection Hs as <-|]. destruct (pending_ s !! cstream c) as [r|] eqn:Hp; injection Hs as <-; [|done].
    eapply local_cupd; [done|done|]. unfold consumer_ok. simpl. destruct (inv_pending _ Hinv _ _ Hp) as (q & -> & _). by eexists.
  - destruct (requests s !! r) as [q|] eqn:Hq; [|done]. destruct (exclusive q) eqn:Hx; [done|]. injection Hs as <-.
    eapply local_cupd; [done|done|]. by exists q.
  - case_bool_decide as Hp; injection Hs as <-; [|done]. eapply local_cupd; [done|done|]. unfold consumer_ok. simpl.
    destruct (inv_pending _ Hinv _ _ Hp) as (q & Hq & _ & Hl). exists q. split; [done|]. destruct Hok as (q' & Hq' & Hx). simplify_eq.
    unfold live, exclusive, callable in *. by destruct (rpc q').
  - destruct (requests s !! r) as [q|] eqn:Hq; [|done]. case_bool_decide; injection Hs as <-; [|done].
    eapply local_cupd; [done|done|]. unfold consumer_ok. simpl. by rewrite Hq.
  - destruct keep; injection Hs as <-; [by eapply local_cupd|done].
  - destruct (requests s !! r) as [q|] eqn:Hq; [|done]. injection Hs as <-. eapply (local_cupd _ i c); [|done|done].
    apply (local_mark s r q); try done. destruct (inv_req _ Hinv r q Hq) as [? ? ? ?]. by split.
  - done.
Qed.

Lemma all_finished_spec s : forallb finished (requests s) = true <-> all_finished s.
Proof.
  rewrite forallb_forall. split.
  - intros Hf r q Hq. apply Hf, list_elem_of_In. by eapply list_elem_of_lookup_2.
  - intros Hf q Hq. apply list_elem_of_In, list_elem_of_lookup_1 in Hq as [r Hr]. by eapply Hf.
Qed.

(** A request that has finished asks nothing of the stop flag. *)
Lemma local_flags s s' :
  inv s -> hasResult_ s' = hasResult_ s -> concurrency s' = concurrency s -> requests s' = requests s -> pending_ s' = pending_ s ->
  consumers s' = consumers s -> active_ s' = active_ s ->
  (stopRequested s = true -> stopRequested s' = true) \/ all_finished s ->
  (stopper s' = SIdle -> started_ s' = false -> all_finished s /\ producing s' = false) -> inv s'.
Proof.
  intros [I1 I1' I2 I2' I3 I4 I5 I6] E1 E2 E3 E4 E5 E6 Hst Hidle.
  split; unfold all_finished, consumer_ok in *; rewrite ?E1, ?E2, ?E3, ?E4, ?E5, ?E6; try done.
  intros r q Hq. destruct (I1 r q Hq) as [O1 O2 O3 O4]. split; try done. intros Hf Hw.
  destruct Hst as [Hst|Hall]; [|rewrite (Hall r q Hq) in Hf; done]. destruct (O2 Hf Hw) as [?|[?|?]]; auto.
Qed.

Lemma local_submit s s' : inv s -> submit s = Some s' -> inv s'.
Proof.
  intros [I1 I1' I2 I2' I3 I4 I5 I6] Hs. unfold submit in Hs. destruct (producing s) eqn:Hp; [|done]. injection Hs as <-.
  assert (Hnew : forall r q', (requests s ++ [mkRequest RSubmitted EmptyString false NotSent false ∅ false false false 0]) !! r = Some q' ->
    requests s !! r = Some q' \/ q' = mkRequest RSubmitted EmptyString false NotSent false ∅ false false false 0).
  { intros r q' Hl. apply lookup_app_Some in Hl as [?|[_ Hl]]; [by left|]. right. apply list_lookup_singleton_Some in Hl as [_ ->]. done. }
  assert (Hold : forall r q, requests s !! r = Some q ->
    (requests s ++ [mkRequest RSubmitted EmptyString false NotSent false ∅ false false false 0]) !! r = Some q) by (intros; by apply lookup_app_l_Some).
  split; simpl; try done.
  - intros r q [?| ->]%Hnew; [by eapply I1|]. split; simpl; try done. intros _ [?|?]; done.
  - intros r q [?| ->]%Hnew; [by eapply I1'|done].
  - intros sid r Hpd. destruct (I2 sid r Hpd) as (q & ? & ?). exists q. auto.
  - intros i c Hi. specialize (I3 i c Hi). unfold consumer_ok in *. simpl. destruct (cpc c); try done.
    + destruct I3 as [q ?]. exists q. auto.
    + destruct I3 as (q & ? & ?). exists q. auto.
    + destruct I3 as (q & ? & ?). exists q. auto.
    + destruct I3 as (q & ? & ?). exists q. auto.
    + destruct I3 as (q & ? & ?). exists q. auto.
  - rewrite I4. unfold Monitor.tallied. rewrite filter_app, length_app. simpl. lia.
  - intros H1 H2. destruct (I6 H1 H2). congruence.
Qed.

Lemma local_step s s' : inv s -> step s s' -> inv s'.
Proof.
  intros Hinv [a Ha]. destruct a; simpl in Ha.
  - destruct (stopper s) eqn:Hsp; try done. injection Ha as <-. unfold start. destruct (started_ s) eqn:Hst; [done|].
    destruct (inv_idle _ Hinv Hsp Hst) as [Hall _]. apply (local_flags s); try done. by right.
  - by eapply local_submit.
  - unfold stop_call in Ha. destruct (stopper s); try done. injection Ha as <-. destruct (started_ s); [|done].
    apply (local_flags s); try done. by left.
  - unfold stop_step in Ha. destruct (stopper s) eqn:Hsp; try done.
    + injection Ha as <-. apply (local_flags s); try done. by left.
    + injection Ha as <-. apply (local_flags s); try done. by left.
    + destruct (forallb finished (requests s)) eqn:Hf; [|done]. injection Ha as <-. apply all_finished_spec in Hf.
      apply (local_flags s); try done. by left.
  - by eapply local_request.
  - by eapply local_signal.
  - injection Ha as <-. unfold consumeResult. destruct (hasResult_ s); [|done]. apply (local_consumers s); try done.
    intros i c. simpl. intros Hi. apply lookup_app_Some in Hi as [Hi|[_ Hi]]; [exact (inv_consumer _ Hinv i c Hi)|].
    apply list_lookup_singleton_Some in Hi as [_ <-]. done.
  - by eapply local_consumer_step.
Qed.

Lemma local_created hr limit : inv (created hr limit).
Proof. split; simpl; try done; lia. Qed.
Lemma local_reachable hr limit s : reachable hr limit s -> inv s.
Proof. revert s. apply (rtc_ind_r inv); [apply local_created|]. intros s1 s2 _ Hs Hi. by eapply local_step. Qed.

(** ** The properties *)

(** The lifetime of a request: [endRequest] is called at most once, exactly once for every
    request that was begun and has given its slot back, and whenever a result callback runs
    the request has not ended, nor is it ending. *)
Theorem local_lifetime hr limit s :
  reachable hr limit s ->
  (forall r q, requests s !! r = Some q -> (ends q <= 1)%nat /\ (rpc q = RReleased true -> ends q = 1%nat)) /\
  (forall i c r, consumers s !! i = Some c -> cpc c = CRunning r ->
     exists q, requests s !! r = Some q /\ ends q = 0%nat /\ exclusive q = false).
Proof.
  intros Hinv%local_reachable. split.
  - intros r q Hq. rewrite (ok_ends _ _ _ (inv_req _ Hinv r q Hq)). split; [by destruct (ended q); lia|].
    intros E. unfold ended. by rewrite E.
  - intros i c r Hi Hc. pose proof (inv_consumer _ Hinv i c Hi) as Hok. unfold consumer_ok in Hok. rewrite Hc in Hok.
    destruct Hok as (q & Hq & Hcl). exists q. split; [done|]. rewrite (ok_ends _ _ _ (inv_req _ Hinv r q Hq)).
    unfold callable, ended, exclusive in *. by destruct (rpc q).
Qed.

(** What [endRequest] is told: when the exclusive lock is taken, the error is set exactly
    when registration or [consumeMessage] threw or, with a result stream, [done] was not
    called: a result that came before that is never turned into an error by a timeout, a
    cancellation or a stop, and without one no wait succeeds. *)
Theorem local_result_counts hr limit s s' r q :
  reachable hr limit s -> requests s !! r = Some q -> rpc q = RFinish -> finish_request r s = Some s' ->
  exists q', requests s' !! r = Some q' /\ rpc q' = REnding /\
    error q' = threw q || (hasResult_ s && negb (completed q)).
Proof.
  intros Hinv%local_reachable Hq Hpc Hs. destruct (ok_finish _ _ _ (inv_req _ Hinv r q Hq) Hpc) as (He & Ht & Hw & Hc).
  unfold finish_request in Hs. destruct (existsb _ _); [done|]. injection Hs as <-. eexists. split.
  - simpl. rewrite list_lookup_alter_eq, Hq. reflexivity.
  - split; [done|]. simpl. rewrite He. destruct (threw q) eqn:Et; simpl.
    + by rewrite (Ht eq_refl).
    + destruct (resultWaitFailed q) eqn:Ew; simpl; [rewrite (Hw eq_refl); by destruct (completed q)|].
      destruct (hasResult_ s); [|done]. by rewrite (Hc eq_refl eq_refl eq_refl).
Qed.

(** A stopped endpoint is drained: once [stop] has returned no request is under way,
    every slot is free and no result is pending; while it runs the slots taken are counted
    exactly and a positive concurrency limit is kept. *)
Theorem local_stop_drains hr limit s :
  reachable hr limit s ->
  active_ s = Monitor.tallied slot (requests s) /\ (0 < concurrency s -> active_ s <= concurrency s) /\
  (stopper s = SIdle -> started_ s = false -> all_finished s /\ active_ s = 0 /\ pending_ s = ∅).
Proof.
  intros Hinv%local_reachable. split; [apply Hinv|]. split; [apply Hinv|]. intros Hsp Hst.
  destruct (inv_idle _ Hinv Hsp Hst) as [Hall _]. split; [done|]. split.
  - rewrite (inv_active _ Hinv). destruct (Z.lt_ge_cases 0 (Monitor.tallied slot (requests s))) as [Hlt|Hge].
    + destruct (proj1 (Monitor.tallied_pos slot (requests s)) ltac:(lia)) as (r & q & Hq & Hsl). pose proof (Hall r q Hq) as Hf.
      unfold slot, finished in *. by destruct (rpc q).
    + pose proof (Monitor.tallied_le slot (requests s)). lia.
  - apply map_empty. intros sid. destruct (pending_ s !! sid) as [r|] eqn:Hp; [|done].
    destruct (inv_pending _ Hinv sid r Hp) as (q & Hq & _ & Hl). pose proof (Hall r q Hq) as Hf. unfold live, finished in *. by destruct (rpc q).
Qed.

(** ** Stream ids *)

(** The request uses its stream id. *)
Definition holds_id q : bool :=
  match rpc q with RRegister | RConsume | RWaiting | RExpired | RFinish | REnding => true | _ => false end.
(** A request is begun with a stream id that no other request uses. *)
Definition fresh_action (a : Action) s : Prop :=
  match a with
  | DoRequest (Begins id) _ => forall r q, requests s !! r = Some q -> holds_id q = true -> rstream q <> id
  | _ => True
  end.
Definition fresh_step s s' : Prop := exists a, perform a s = Some s' /\ fresh_action a s.

Record finv s : Prop := {
  finv_distinct r1 r2 q1 q2 : requests s !! r1 = Some q1 -> requests s !! r2 = Some q2 ->
    holds_id q1 = true -> holds_id q2 = true -> rstream q1 = rstream q2 -> r1 = r2;
  finv_registered r q : requests s !! r = Some q -> hasResult_ s = true -> live q = true -> pending_ s !! rstream q = Some r;
}.

Lemma live_holds q : live q = true -> holds_id q = true.
Proof. unfold live, holds_id. by destruct (rpc q). Qed.

(** A request that has nothing to do with the map. *)
Definition tame q q' : Prop :=
  holds_id q' = false \/ (rstream q' = rstream q /\ holds_id q = true /\ (live q' = true -> live q = true)).
Lemma tame_refl q : tame q q.
Proof. unfold tame. destruct (holds_id q) eqn:E; [by right|by left]. Qed.
Lemma finv_keep s s' :
  finv s -> hasResult_ s' = hasResult_ s -> pending_ s' = pending_ s ->
  (forall r q', requests s' !! r = Some q' -> holds_id q' = false \/ exists q, requests s !! r = Some q /\ tame q q') -> finv s'.
Proof.
  intros [F1 F2] Er Ep Hk.
  assert (Hk' : forall r q', requests s' !! r = Some q' -> holds_id q' = true ->
    exists q, requests s !! r = Some q /\ rstream q' = rstream q /\ holds_id q = true /\ (live q' = true -> live q = true)).
  { intros r q' Hq' Hh. destruct (Hk r q' Hq') as [?|(q & Hq & [?|(? & ? & ?)])]; [congruence|congruence|by exists q]. }
  split.
  - intros r1 r2 q1 q2 H1 H2 Hh1 Hh2 E. destruct (Hk' r1 q1 H1 Hh1) as (p1 & P1 & E1 & G1 & _).
    destruct (Hk' r2 q2 H2 Hh2) as (p2 & P2 & E2 & G2 & _). eapply F1; eauto. congruence.
  - intros r q Hq Hr Hl. destruct (Hk' r q Hq (live_holds _ Hl)) as (p & P & E & _ & Hlp). rewrite Ep, E. rewrite Er in Hr. auto.
Qed.
Lemma finv_upd s s' r q f :
  finv s -> requests s !! r = Some q -> hasResult_ s' = hasResult_ s -> pending_ s' = pending_ s -> requests s' = alter f r (requests s) ->
  tame q (f q) -> finv s'.
Proof.
  intros Hf Hq Er Ep Ea Ht. apply (finv_keep s); try done. intros r' q'. rewrite Ea, (lookup_alter_req _ _ _ _ _ Hq).
  destruct (decide (r = r')) as [<-|]; [intros [= <-]; eauto|]. intros Hq'. right. exists q'. split; [done|apply tame_refl].
Qed.

(** Only the id of [r] counts when [r] moves. *)
Lemma finv_distinct_upd s s' r q f :
  finv s -> requests s !! r = Some q -> requests s' = alter f r (requests s) ->
  (holds_id (f q) = true -> forall r' q', r' <> r -> requests s !! r' = Some q' -> holds_id q' = true -> rstream q' <> rstream (f q)) ->
  forall r1 r2 q1 q2, requests s' !! r1 = Some q1 -> requests s' !! r2 = Some q2 ->
    holds_id q1 = true -> holds_id q2 = true -> rstream q1 = rstream q2 -> r1 = r2.
Proof.
  intros [F1 _] Hq Er Hne r1 r2 q1 q2. rewrite Er, !(lookup_alter_req _ _ _ _ _ Hq).
  destruct (decide (r = r1)) as [<-|N1], (decide (r = r2)) as [<-|N2]; [done| | |by apply F1].
  - intros [= <-] H2 Hh1 Hh2 E. exfalso. by apply (Hne Hh1 r2 q2).
  - intros H1 [= <-] Hh1 Hh2 E. exfalso. by apply (Hne Hh2 r1 q1).
Qed.

Lemma finv_begin s r q id :
  finv s -> requests s !! r = Some q -> rpc q = RBegin ->
  (forall r' q', requests s !! r' = Some q' -> holds_id q' = true -> rstream q' <> id) -> finv (begin_request (Some id) r s).
Proof.
  intros Hf Hq Hpc Hfr. split.
  - eapply finv_distinct_upd; [done|done|done|]. simpl. intros _ r' q' _. apply Hfr.
  - intros r' q'. simpl. rewrite (lookup_alter_req _ _ _ _ _ Hq). destruct (decide (r = r')); [by intros [= <-]|apply Hf].
Qed.

Lemma finv_register s r q : inv s -> finv s -> requests s !! r = Some q -> rpc q = RRegister -> finv (register r q s).
Proof.
  intros Hinv Hf Hq Hpc. assert (Hh : holds_id q = true) by (unfold holds_id; by rewrite Hpc).
  assert (Hd : forall f r' q', rstream (f q) = rstream q -> r' <> r -> requests s !! r' = Some q' -> holds_id q' = true -> rstream q' <> rstream (f q)).
  { intros f r' q' Es Hne Hq' Hh' E. apply Hne. apply (finv_distinct _ Hf r' r q' q); congruence. }
  unfold register. destruct (hasResult_ s) eqn:Hr.
  2:{ split; [|simpl; congruence]. eapply finv_distinct_upd; [done|done|done|]. intros _ r' q'. by apply Hd. }
  destruct (pending_ s !! rstream q) as [r0|] eqn:Hp.
  - destruct (inv_pending _ Hinv _ _ Hp) as (q0 & Hq0 & E & Hl).
    assert (r0 = r) as -> by (apply (finv_distinct _ Hf r0 r q0 q); auto using live_holds). exfalso.
    rewrite Hq in Hq0. injection Hq0 as <-. unfold live in Hl. by rewrite Hpc in Hl.
  - split; [eapply finv_distinct_upd; [done|done|done|]; intros _ r' q'; by apply Hd|].
    intros r' q'. simpl. rewrite (lookup_alter_req _ _ _ _ _ Hq). destruct (decide (r = r')) as [<-|Hne].
    + intros [= <-] _ _. by rewrite lookup_insert_eq.
    + intros Hq' Hr' Hl'. rewrite lookup_insert_ne; [by apply Hf|]. intros E. apply Hne.
      apply (finv_distinct _ Hf r r' q q'); auto using live_holds.
Qed.

Lemma finv_unregister s r q : finv s -> requests s !! r = Some q -> rpc q = REnding -> finv (unregister r q s).
Proof.
  intros Hf Hq Hpc. assert (Hh : holds_id q = true) by (unfold holds_id; by rewrite Hpc).
  assert (Er : requests (unregister r q s) = alter (set_rpc REnd) r (requests s)) by (unfold unregister; by destruct (hasResult_ s)).
  split; [eapply finv_distinct_upd; [done|done|exact Er|done]|].
  intros r' q'. rewrite Er, (lookup_alter_req _ _ _ _ _ Hq). unfold unregister. destruct (hasResult_ s) eqn:Hr; simpl; [|congruence].
  destruct (decide (r = r')) as [<-|Hne]; [by intros [= <-]|]. intros Hq' _ Hl. rewrite lookup_delete_ne; [by apply Hf|].
  intros E. apply Hne. apply (finv_distinct _ Hf r r' q q'); auto using live_holds.
Qed.

Lemma finv_request ch r s s' :
  inv s -> finv s -> request_step ch r s = Some s' -> fresh_action (DoRequest ch r) s -> finv s'.
Proof.
  intros Hinv Hf Hs Hfr. unfold request_step in Hs. destruct (requests s !! r) as [q|] eqn:Hq; [|done].
  assert (Hup : forall f s1, hasResult_ s1 = hasResult_ s -> pending_ s1 = pending_ s -> requests s1 = alter f r (requests s) ->
    tame q (f q) -> finv s1) by (intros; by eapply finv_upd).
  assert (Hlive : callable q = true -> forall f, rstream (f q) = rstream q -> tame q (f q)).
  { intros Hc f Es. right. split; [done|]. unfold callable, holds_id, live in *. by destruct (rpc q). }
  assert (Hgone : forall f, holds_id (f q) = false -> tame q (f q)) by (intros f Hg; by left).
  destruct (rpc q) eqn:Hpc; try done.
  - unfold acquire in Hs. destruct (stopped_ s); [|destruct (_ || _); [|done]]; injection Hs as <-;
      (eapply Hup; [done|done|reflexivity|by apply Hgone]).
  - assert (Hrel : finv (release false r s)) by (eapply Hup; [done|done|reflexivity|by apply Hgone]).
    destruct ch; injection Hs as <-; try done. by eapply finv_begin.
  - injection Hs as <-. by eapply finv_register.
  - assert (Hc : callable q = true) by (unfold callable; by rewrite Hpc). injection Hs as <-. unfold consume_message.
    destruct ch; (eapply Hup; [done|done|reflexivity|by apply Hlive]).
  - assert (Hc : callable q = true) by (unfold callable; by rewrite Hpc).
    assert (Hrec : done_received r q s = Some s' -> finv s').
    { unfold done_received. case_bool_decide; [|done]. intros [= <-].
      destruct (_ || _); (eapply Hup; [done|done|reflexivity|by apply Hlive]). }
    destruct ch; auto; injection Hs as <-; [|eapply Hup; [done|done|reflexivity|by apply Hlive]].
    unfold wait_timeout. case_bool_decide; (eapply Hup; [done|done|reflexivity|by apply Hlive]).
  - assert (Hc : callable q = true) by (unfold callable; by rewrite Hpc).
    unfold wait_sender in Hs. case_bool_decide; [|done]. injection Hs as <-. eapply Hup; [done|done|reflexivity|by apply Hlive].
  - assert (Hc : callable q = true) by (unfold callable; by rewrite Hpc).
    unfold finish_request in Hs. destruct (existsb _ _); [done|]. injection Hs as <-. eapply Hup; [done|done|reflexivity|by apply Hlive].
  - injection Hs as <-. by apply finv_unregister.
  - injection Hs as <-. eapply Hup; [done|done|reflexivity|by apply Hgone].
  - injection Hs as <-. eapply Hup; [done|done|reflexivity|by apply Hgone].
Qed.

Lemma finv_same s s' : finv s -> hasResult_ s' = hasResult_ s -> pending_ s' = pending_ s -> requests s' = requests s -> finv s'.
Proof. intros [F1 F2] Er Ep Eq. split; rewrite ?Er, ?Ep, ?Eq; done. Qed.

Lemma tame_mark q q' : rpc q' = rpc q -> rstream q' = rstream q -> tame q q'.
Proof.
  intros Ep Es. unfold tame, holds_id, live. rewrite Ep. destruct (rpc q); auto.
Qed.

Lemma finv_step s s' : inv s -> finv s -> fresh_step s s' -> finv s'.
Proof.
  intros Hinv Hf (a & Ha & Hfr). destruct a; simpl in Ha.
  - destruct (stopper s); try done. injection Ha as <-. unfold start. destruct (started_ s); [done|by apply (finv_same s)].
  - unfold submit in Ha. destruct (producing s); [|done]. injection Ha as <-. apply (finv_keep s); try done. simpl.
    intros r q' Hl. apply lookup_app_Some in Hl as [Hl|[_ Hl]]; [right; exists q'; split; [done|apply tame_refl]|].
    apply list_lookup_singleton_Some in Hl as [_ <-]. by left.
  - unfold stop_call in Ha. destruct (stopper s); try done. injection Ha as <-. destruct (started_ s); [by apply (finv_same s)|done].
  - unfold stop_step in Ha. destruct (stopper s); try done; [| |destruct (forallb _ _); [|done]]; injection Ha as <-; by apply (finv_same s).
  - by eapply finv_request.
  - unfold signal in Ha. destruct (requests s !! r) as [q|] eqn:Hq; [|done].
    destruct g; repeat (case_match; try done); injection Ha as <-; (eapply finv_upd; [done|done|done|done|reflexivity|by apply tame_mark]).
  - injection Ha as <-. unfold consumeResult. destruct (hasResult_ s); [by apply (finv_same s)|done].
  - unfold consumer_step in Ha. destruct (consumers s !! i) as [c|]; [|done].
    destruct (cpc c) as [|r|r|r|r|r|o]; repeat (case_match; try done); simplify_eq; try (by apply (finv_same s));
      (eapply (finv_upd s _ r); [done|done|done|done|reflexivity|by apply tame_mark]).
Qed.

Lemma finv_reachable hr limit s : rtc fresh_step (created hr limit) s -> inv s /\ finv s.
Proof.
  revert s. apply (rtc_ind_r (fun s => inv s /\ finv s)); [split; [apply local_created|by split]|].
  intros s1 s2 _ Hs [Hi Hf]. split; [|by eapply finv_step]. eapply local_step; [done|]. destruct Hs as (a & Ha & _). by exists a.
Qed.

(** As long as no two requests under way share a stream id, every request that waits for
    its result is found under its stream id by [consumeResult]. *)
Theorem local_findable hr limit s r q :
  rtc fresh_step (created hr limit) s -> requests s !! r = Some q -> waits q = true -> pending_ s !! rstream q = Some r.
Proof.
  intros Hr Hq Hw. destruct (finv_reachable hr limit s Hr) as [Hinv Hf]. apply (finv_registered _ Hf r q Hq).
  - by eapply inv_wait.
  - unfold waits, live in *. by destruct (rpc q).
Qed.

(** ** Two requests with one stream id *)

Definition to_wait (r : nat) (id : string) : list Action :=
  [DoRequest Fine r; DoRequest (Begins id) r; DoRequest Fine r; DoRequest Fine r].
(** The first request waits for its result; the second is refused by [pending_] and ends. *)
Definition sample_collision : list Action :=
  [DoStart; DoSubmit; DoSubmit] ++ to_wait 0 "order-1"
  ++ [DoRequest Fine 1; DoRequest (Begins "order-1") 1; DoRequest Fine 1]
  ++ replicate 4 (DoRequest Fine 1) ++ [DoResult "order-1" "m"; DoConsumer true 0].
Definition reached (acts : list Action) : Endpoint := default (created true 0) (run acts (created true 0)).
Lemma reached_reachable acts : is_Some (run acts (created true 0)) -> reachable true 0 (reached acts).
Proof.
  unfold reached, reachable. intros [s' E]. rewrite E. simpl. revert E. generalize (created true 0).
  induction acts as [|a acts IH]; intros s E; simpl in E; [injection E as <-; apply rtc_refl|].
  destruct (perform a s) as [s1|] eqn:Ha; [|done]. eapply rtc_l; [by exists a|auto].
Qed.

(** A request whose stream id is taken is refused by [pending_.set] and, ending, removes the
    entry of the request that has the id: the first request goes on waiting, and its result
    is dropped as late. *)
Theorem local_collision_drops_result :
  exists s q0 q1 c, reachable true 0 s /\ requests s !! 0%nat = Some q0 /\ rpc q0 = RWaiting /\ rstream q0 = "order-1"%string /\
    requests s !! 1%nat = Some q1 /\ rpc q1 = RReleased true /\ error q1 = true /\
    pending_ s !! "order-1"%string = None /\ consumers s !! 0%nat = Some c /\ cpc c = CDone Late.
Proof.
  eexists (reached sample_collision), _, _, _. split; [apply reached_reachable; eexists; vm_compute; reflexivity|].
  repeat (split; [vm_compute; reflexivity|]). vm_compute. reflexivity.
Qed.

(** ** A request that gets its result *)
Definition sample_answer : list Action :=
  [DoStart; DoSubmit] ++ to_wait 0 "order-1" ++ [DoSignal (SCallback "m") 0; DoResult "order-1" "m"]
  ++ replicate 4 (DoConsumer true 0).
Definition sample_done : list Action :=
  sample_answer ++ [DoSignal SDone 0; DoRequest TimesOut 0; DoConsumer true 0; DoConsumer true 0].
Definition sample_stopped : list Action :=
  sample_done ++ replicate 4 (DoRequest Fine 0) ++ [DoStop; DoStopStep; DoStopStep; DoStopStep].

Lemma local_lifetime_witness :
  exists c q, consumers (reached sample_answer) !! 0%nat = Some c /\ cpc c = CRunning 0 /\
    requests (reached sample_answer) !! 0%nat = Some q /\ ends q = 0%nat /\ exclusive q = false.
Proof.
  destruct (local_lifetime true 0 (reached sample_answer)) as [_ H]; [apply reached_reachable; eexists; vm_compute; reflexivity|].
  eexists. destruct (H 0%nat _ 0%nat eq_refl eq_refl) as (q & Hq & He & Hx). exists q.
  split; [vm_compute; reflexivity|]. split; [vm_compute; reflexivity|]. done.
Defined.

Definition ending : Endpoint := default (created true 0) (finish_request 0 (reached sample_done)).
Lemma local_result_counts_witness :
  exists q', requests ending !! 0%nat = Some q' /\ resultWaitFailed q' = true /\ error q' = false.
Proof.
  assert (Hr : reachable true 0 (reached sample_done)) by (apply reached_reachable; eexists; vm_compute; reflexivity).
  destruct (requests (reached sample_done) !! 0%nat) as [q|] eqn:Hq; [|by vm_compute in Hq].
  assert (Hpc : rpc q = RFinish) by (vm_compute in Hq; by injection Hq as <-).
  assert (Hs : finish_request 0 (reached sample_done) = Some ending) by (vm_compute; reflexivity).
  destruct (local_result_counts true 0 (reached sample_done) ending 0 q Hr Hq Hpc Hs) as (q' & Hq' & _ & He).
  exists q'. split; [done|]. vm_compute in Hq. injection Hq as <-. vm_compute in He. split; [|exact He].
  vm_compute in Hq'. by injection Hq' as <-.
Defined.

Lemma local_stop_drains_witness :
  all_finished (reached sample_stopped) /\ active_ (reached sample_stopped) = 0 /\ pending_ (reached sample_stopped) = ∅.
Proof.
  destruct (local_stop_drains true 0 (reached sample_stopped)) as (_ & _ & H); [apply reached_reachable; eexists; vm_compute; reflexivity|].
  apply H; vm_compute; reflexivity.
Defined.

(** Runs in which every id is fresh. *)
Definition fresh_check (a : Action) s : bool :=
  match a with
  | DoRequest (Begins id) _ => forallb (fun q => negb (holds_id q && bool_decide (rstream q = id))) (requests s)
  | _ => true
  end.
Fixpoint run_fresh (acts : list Action) s : option Endpoint :=
  match acts with
  | [] => Some s
  | a :: acts => if fresh_check a s then s ← perform a s; run_fresh acts s else None
  end.
Lemma run_fresh_steps acts s s' : run_fresh acts s = Some s' -> rtc fresh_step s s'.
Proof.
  revert s. induction acts as [|a acts IH]; intros s E; simpl in E; [injection E as <-; apply rtc_refl|].
  destruct (fresh_check a s) eqn:Hc; [|done]. destruct (perform a s) as [s1|] eqn:Ha; [|done].
  eapply rtc_l; [|by apply IH]. exists a. split; [done|]. destruct a; try done. destruct ch; try done. simpl in *.
  intros r' q Hq Hh E'. rewrite forallb_forall in Hc. specialize (Hc q (proj1 (list_elem_of_In _ _) (list_elem_of_lookup_2 _ _ _ Hq))).
  rewrite Hh, bool_decide_true in Hc by done. done.
Qed.

Definition waiting : Endpoint := default (created true 0) (run_fresh ([DoStart; DoSubmit] ++ to_wait 0 "order-1") (created true 0)).
Lemma local_findable_witness : pending_ waiting !! "order-1"%string = Some 0%nat.
Proof.
  assert (Hr : rtc fresh_step (created true 0) waiting).
  { apply (run_fresh_steps ([DoStart; DoSubmit] ++ to_wait 0 "order-1")). vm_compute. reflexivity. }
  destruct (requests waiting !! 0%nat) as [q|] eqn:Hq; [|by vm_compute in Hq].
  assert (E : rstream q = "order-1"%string /\ waits q = true) by (vm_compute in Hq; by injection Hq as <-).
  destruct E as [E1 E2]. rewrite <- E1. exact (local_findable true 0 waiting 0 q Hr Hq E2).
Defined.
