(* ===== verification/NetSource.v ===== *)
(** * HTTP and gRPC source endpoints

    [UserverEndpoint] of datasource/http/userver.hpp and [Endpoint] of datasource/grpc/common.hpp
    with its four modes (nostreaming.hpp, serverstreaming.hpp, clientstreaming.hpp,
    bidistreaming.hpp), as a transition system.  A request is one call of [handle]; a consumer is
    one call of [consumeResult].  The two endpoints differ in how they read, wait and finish;
    the differences are the cases on [mode].  [pending_] is the finite map that a [RotatingMap]
    refines, and the admission gate is its specification: a closed bit and the number of leases.
    The handler is arbitrary: what it returns or throws, when it registers callbacks, calls
    [done] and sends responses is chosen at each step, as are the cancellation of the task and
    of contexts, deadlines and the messages of a reader.  Spans, metrics and the headers of a
    request are left out. *)
From Stdlib Require Import Lia.
From stdpp Require Import strings gmap.
From S2P Require Import Prelude.

Module Net.

Inductive Mode := Http | Unary | ServerStream | ClientStream | Bidi.
#[export] Instance Mode_eq_dec : EqDecision Mode.
Proof. solve_decision. Defined.
Definition is_http (m : Mode) : bool := match m with Http => true | _ => false end.
(** The modes that read messages until the end of the stream. *)
Definition reads (m : Mode) : bool := match m with ClientStream | Bidi => true | _ => false end.

(** [doneSent] and the event [done]: [Claimed] when the exchange is won and the event not yet sent. *)
Inductive Done := NotSent | Claimed | Sent.
#[export] Instance Done_eq_dec : EqDecision Done.
Proof. solve_decision. Defined.

Inductive Error := DuplicateKey | ConsumeThrew | WaitFailed | RequestCancelled | EndThrew.
#[export] Instance Error_eq_dec : EqDecision Error.
Proof. solve_decision. Defined.

(** [RArrived] to [RReleased]: the request asks for admission, has its method checked, is begun,
    registered, consumed, told the end of its stream, waits for its result, passes a cancellation
    of the task on, waits for the exclusive lifetime lock, holds it before its entry is removed,
    its sender closed and its callbacks released, is about to call [endRequest], has ended, and
    has given its lease back. *)
Inductive RPc :=
  | RArrived | RRefused
  | RMethod | RBegin | RRegister | RConsume | REof | RWaiting | RNotify | RLock
  | REnding | RClose | RClear | REnd | RDone
  | RReleased (begun : bool).
#[export] Instance RPc_eq_dec : EqDecision RPc.
Proof. solve_decision. Defined.

(** [response]: of a unary call or a client stream, whose event is ready when there is one;
    [active]: of the sender; [stopRequested]: the cancellation that downstream contexts see;
    [ends], [written]: history, how often [endRequest] was called and how many responses a
    stream was given. *)
Record Request := mkRequest {
  rpc : RPc;
  rstream : string;
  inserted : bool;
  done : Done;
  response : option nat;
  active : bool;
  callbacks : gset string;
  callbacksClosed : bool;
  error : option Error;
  resultWaitFailed : bool;
  taskCancelled : bool;
  stopRequested : bool;
  ends : nat;
  written : nat;
}.

Inductive Outcome := Missing | Late | Unknown | Duplicate | Consumed.
(** [CLooked]: found, waits for the shared lifetime lock; the states from [CHeld] to
    [CErase] hold it. *)
Inductive CPc :=
  | CStart
  | CLooked (r : nat) | CHeld (r : nat) | CCall (r : nat) | CRunning (r : nat) | CErase (r : nat)
  | CDone (o : Outcome).
Record Consumer := mkConsumer {
  cpc : CPc;
  cstream : string;
  cmessage : string;
}.

Inductive StopPc := SIdle | SClose | SDrain | SPending | SStopped.
Inductive Rotation := Unstarted | Rotating | Halted.

Record Endpoint := mkEndpoint {
  mode : Mode;
  hasResult_ : bool;
  closed : bool;
  leases : Z;
  rotation : Rotation;
  pending_ : gmap string nat;
  requests : list Request;
  consumers : list Consumer;
  stopper : StopPc;
}.

(** Field updates. *)
Definition set_rpc v q : Request :=
  mkRequest v (rstream q) (inserted q) (done q) (response q) (active q) (callbacks q)
    (callbacksClosed q) (error q) (resultWaitFailed q) (taskCancelled q) (stopRequested q)
    (ends q) (written q).
Definition set_rstream v q : Request :=
  mkRequest (rpc q) v (inserted q) (done q) (response q) (active q) (callbacks q)
    (callbacksClosed q) (error q) (resultWaitFailed q) (taskCancelled q) (stopRequested q)
    (ends q) (written q).
Definition set_inserted v q : Request :=
  mkRequest (rpc q) (rstream q) v (done q) (response q) (active q) (callbacks q)
    (callbacksClosed q) (error q) (resultWaitFailed q) (taskCancelled q) (stopRequested q)
    (ends q) (written q).
Definition set_done v q : Request :=
  mkRequest (rpc q) (rstream q) (inserted q) v (response q) (active q) (callbacks q)
    (callbacksClosed q) (error q) (resultWaitFailed q) (taskCancelled q) (stopRequested q)
    (ends q) (written q).
Definition set_response v q : Request :=
  mkRequest (rpc q) (rstream q) (inserted q) (done q) v (active q) (callbacks q)
    (callbacksClosed q) (error q) (resultWaitFailed q) (taskCancelled q) (stopRequested q)
    (ends q) (written q).
Definition set_active v q : Request :=
  mkRequest (rpc q) (rstream q) (inserted q) (done q) (response q) v (callbacks q)
    (callbacksClosed q) (error q) (resultWaitFailed q) (taskCancelled q) (stopRequested q)
    (ends q) (written q).
Definition set_callbacks v q : Request :=
  mkRequest (rpc q) (rstream q) (inserted q) (done q) (response q) (active q) v
    (callbacksClosed q) (error q) (resultWaitFailed q) (taskCancelled q) (stopRequested q)
    (ends q) (written q).
Definition set_callbacksClosed v q : Request :=
  mkRequest (rpc q) (rstream q) (inserted q) (done q) (response q) (active q) (callbacks q)
    v (error q) (resultWaitFailed q) (taskCancelled q) (stopRequested q) (ends q) (written
    q).
Definition set_error v q : Request :=
  mkRequest (rpc q) (rstream q) (inserted q) (done q) (response q) (active q) (callbacks q)
    (callbacksClosed q) v (resultWaitFailed q) (taskCancelled q) (stopRequested q) (ends q)
    (written q).
Definition set_resultWaitFailed v q : Request :=
  mkRequest (rpc q) (rstream q) (inserted q) (done q) (response q) (active q) (callbacks q)
    (callbacksClosed q) (error q) v (taskCancelled q) (stopRequested q) (ends q) (written
    q).
Definition set_taskCancelled v q : Request :=
  mkRequest (rpc q) (rstream q) (inserted q) (done q) (response q) (active q) (callbacks q)
    (callbacksClosed q) (error q) (resultWaitFailed q) v (stopRequested q) (ends q) (written
    q).
Definition set_stopRequested v q : Request :=
  mkRequest (rpc q) (rstream q) (inserted q) (done q) (response q) (active q) (callbacks q)
    (callbacksClosed q) (error q) (resultWaitFailed q) (taskCancelled q) v (ends q) (written
    q).
Definition set_ends v q : Request :=
  mkRequest (rpc q) (rstream q) (inserted q) (done q) (response q) (active q) (callbacks q)
    (callbacksClosed q) (error q) (resultWaitFailed q) (taskCancelled q) (stopRequested q) v
    (written q).
Definition set_written v q : Request :=
  mkRequest (rpc q) (rstream q) (inserted q) (done q) (response q) (active q) (callbacks q)
    (callbacksClosed q) (error q) (resultWaitFailed q) (taskCancelled q) (stopRequested q)
    (ends q) v.
Definition set_cpc v c : Consumer :=
  mkConsumer v (cstream c) (cmessage c).
Definition set_mode v s : Endpoint :=
  mkEndpoint v (hasResult_ s) (closed s) (leases s) (rotation s) (pending_ s) (requests s)
    (consumers s) (stopper s).
Definition set_hasResult_ v s : Endpoint :=
  mkEndpoint (mode s) v (closed s) (leases s) (rotation s) (pending_ s) (requests s)
    (consumers s) (stopper s).
Definition set_closed v s : Endpoint :=
  mkEndpoint (mode s) (hasResult_ s) v (leases s) (rotation s) (pending_ s) (requests s)
    (consumers s) (stopper s).
Definition set_leases v s : Endpoint :=
  mkEndpoint (mode s) (hasResult_ s) (closed s) v (rotation s) (pending_ s) (requests s)
    (consumers s) (stopper s).
Definition set_rotation v s : Endpoint :=
  mkEndpoint (mode s) (hasResult_ s) (closed s) (leases s) v (pending_ s) (requests s)
    (consumers s) (stopper s).
Definition set_pending_ v s : Endpoint :=
  mkEndpoint (mode s) (hasResult_ s) (closed s) (leases s) (rotation s) v (requests s)
    (consumers s) (stopper s).
Definition set_requests v s : Endpoint :=
  mkEndpoint (mode s) (hasResult_ s) (closed s) (leases s) (rotation s) (pending_ s) v
    (consumers s) (stopper s).
Definition set_consumers v s : Endpoint :=
  mkEndpoint (mode s) (hasResult_ s) (closed s) (leases s) (rotation s) (pending_ s)
    (requests s) v (stopper s).
Definition set_stopper v s : Endpoint :=
  mkEndpoint (mode s) (hasResult_ s) (closed s) (leases s) (rotation s) (pending_ s)
    (requests s) (consumers s) v.
Implicit Types (s : Endpoint) (q : Request) (c : Consumer).

Definition created (m : Mode) (hasResult : bool) : Endpoint := mkEndpoint m hasResult false 0 Unstarted ∅ [] [] SIdle.

Definition upd (r : nat) (f : Request -> Request) s : Endpoint := set_requests (alter f r (requests s)) s.
Definition cupd (i : nat) (f : Consumer -> Consumer) s : Endpoint := set_consumers (alter f i (consumers s)) s.
Definition goto (pc : RPc) (r : nat) s : Endpoint := upd r (set_rpc pc) s.

(** ** start, stop and admission *)
Definition start s : Endpoint * result unit unit :=
  if hasResult_ s then
    match rotation s with
    | Unstarted => (set_rotation Rotating s, Ok tt)
    | _ => (s, Err tt)
    end
  else (s, Ok tt).

Definition stop_call s : option Endpoint :=
  match stopper s with SIdle | SStopped => Some (set_stopper SClose s) | _ => None end.
(** The gate is closed, then drained, or the drain given up with an exception; then the map stops. *)
Definition stop_step (expires : bool) s : option Endpoint :=
  match stopper s with
  | SIdle | SStopped => None
  | SClose => Some (s |> set_closed true |> set_stopper SDrain)
  | SDrain =>
      if expires then Some (set_stopper SIdle s)
      else if (leases s =? 0)%Z then Some (set_stopper SPending s) else None
  | SPending => Some ((if hasResult_ s then set_rotation Halted s else s) |> set_stopper SStopped)
  end.

Definition new_request : Request := mkRequest RArrived EmptyString false NotSent None true ∅ false None false false false 0 0.
Definition arrive s : Endpoint := set_requests (requests s ++ [new_request]) s.
Definition acquire (r : nat) s : Endpoint :=
  if closed s then goto RRefused r s
  else s |> set_leases (leases s + 1)%Z |> goto (if is_http (mode s) then RMethod else RBegin) r.
(** The lease of a request that was not begun. *)
Definition release (r : nat) s : Endpoint :=
  s |> set_leases (leases s - 1)%Z |> goto (RReleased false) r.

(** ** handle *)

(** [beginRequest] throws, or gives the context whose stream id, a fresh one if it is empty,
    is [id]. *)
Definition begin_request (id : option string) (r : nat) s : Endpoint :=
  match id with
  | None => release r s
  | Some id => upd r (fun q => q |> set_rstream id |> set_rpc RRegister) s
  end.

Definition fail_request (e : Error) q : Request := q |> set_error (Some e) |> set_rpc RNotify.
(** [pending_.set] throws when the stream id is taken; [pendingInserted] is set after it. *)
Definition register (r : nat) q s : Endpoint :=
  if hasResult_ s then
    match pending_ s !! rstream q with
    | Some _ => upd r (fail_request DuplicateKey) s
    | None => s |> set_pending_ (<[rstream q := r]> (pending_ s)) |> upd r (fun q => q |> set_inserted true |> set_rpc RConsume)
    end
  else goto RConsume r s.

Definition after_eof (hasResult : bool) : RPc := if hasResult then RWaiting else RNotify.
(** What the handler, the reader and the wait choose. *)
Inductive Choice := Fine | Throws | Begins (id : string) | Reads | Ends.

(** [consumeMessage]; the streaming modes read until the end, the gRPC ones then call [eof]. *)
Definition consume_message (ch : Choice) (r : nat) s : option Endpoint :=
  match ch with
  | Throws => Some (upd r (fail_request ConsumeThrew) s)
  | Reads => if reads (mode s) then Some s else None
  | _ => Some (goto (if is_http (mode s) then after_eof (hasResult_ s) else REof) r s)
  end.
Definition eof (ch : Choice) (r : nat) s : Endpoint :=
  match ch with
  | Throws => upd r (fail_request ConsumeThrew) s
  | _ => goto (after_eof (hasResult_ s)) r s
  end.

(** The event that is waited for. *)
Definition ready (m : Mode) q : bool :=
  match m with Unary => bool_decide (is_Some (response q)) | _ => bool_decide (done q = Sent) end.
Definition wait_failed q : Request := q |> set_resultWaitFailed true |> fail_request WaitFailed.
(** [done.Wait()] or [waitForResult]: the latter looks at the event again when its wait ends. *)
Definition wait_step (ch : Choice) (r : nat) q s : option Endpoint :=
  match ch with
  | Ends => Some (if negb (is_http (mode s)) && ready (mode s) q then goto RNotify r s else upd r wait_failed s)
  | _ => if ready (mode s) q then Some (goto RNotify r s) else None
  end.

(** The cancellation of the task reaches the contexts of downstream work. *)
Definition notify (r : nat) q s : Endpoint :=
  let passed := taskCancelled q && (negb (is_http (mode s)) || bool_decide (is_Some (error q))) in
  upd r (fun q => q |> set_stopRequested (stopRequested q || passed)
                    |> set_rpc (if is_http (mode s) && negb (hasResult_ s) then REnd else RLock)) s.

Definition shares (r : nat) c : bool :=
  match cpc c with CHeld r' | CCall r' | CRunning r' | CErase r' => (r' =? r)%nat | _ => false end.
(** [completionReady] of the four modes. *)
Definition completionReady (m : Mode) q : bool :=
  resultWaitFailed q && match m with Unary => bool_decide (is_Some (response q)) | _ => negb (bool_decide (done q = NotSent)) end.
(** The exclusive lock: every shared holder has left; a gRPC result that came in time counts. *)
Definition lock_request (r : nat) s : option Endpoint :=
  if existsb (shares r) (consumers s) then None
  else Some (upd r (fun q => q |> set_error (if negb (is_http (mode s)) && completionReady (mode s) q then None else error q)
                               |> set_rpc REnding) s).
Definition unregister (r : nat) q s : Endpoint :=
  (if inserted q then set_pending_ (delete (rstream q) (pending_ s)) s else s)
  |> upd r (fun q => q |> set_inserted false |> set_rpc (if is_http (mode s) then RClear else RClose)).
Definition close_sender (r : nat) s : Endpoint := upd r (fun q => q |> set_active false |> set_rpc RClear) s.
(** What an HTTP request reports once it holds the lock. *)
Definition http_error q : option Error :=
  let e := if resultWaitFailed q && negb (bool_decide (done q = NotSent)) then None else error q in
  match e with
  | None => if bool_decide (done q = Sent) then None else Some RequestCancelled
  | Some _ => e
  end.
Definition clear_callbacks (r : nat) s : Endpoint :=
  upd r (fun q => (if is_http (mode s) then q |> set_error (http_error q) else set_callbacksClosed true q)
                  |> set_callbacks ∅ |> set_rpc REnd) s.
(** An exception of [endRequest] is swallowed by the HTTP endpoint and reported by the gRPC one
    unless there is another. *)
Definition end_request (ch : Choice) (r : nat) s : Endpoint :=
  upd r (fun q => q |> set_ends (S (ends q))
                    |> set_error (match ch, error q with
                                  | Throws, None => if is_http (mode s) then None else Some EndThrew
                                  | _, e => e
                                  end)
                    |> set_rpc RDone) s.
Definition finish (r : nat) s : Endpoint :=
  s |> set_leases (leases s - 1)%Z
    |> upd r (fun q => (if is_http (mode s) then set_stopRequested true q else q) |> set_rpc (RReleased true)).

Definition request_step (ch : Choice) (r : nat) s : option Endpoint :=
  match requests s !! r with
  | None => None
  | Some q =>
      match rpc q with
      | RArrived => Some (acquire r s)
      | RMethod => Some (match ch with Throws => release r s | _ => goto RBegin r s end)
      | RBegin => Some (begin_request (match ch with Begins id => Some id | _ => None end) r s)
      | RRegister => Some (register r q s)
      | RConsume => consume_message ch r s
      | REof => Some (eof ch r s)
      | RWaiting => wait_step ch r q s
      | RNotify => Some (notify r q s)
      | RLock => lock_request r s
      | REnding => Some (unregister r q s)
      | RClose => Some (close_sender r s)
      | RClear => Some (clear_callbacks r s)
      | REnd => Some (end_request ch r s)
      | RDone => Some (finish r s)
      | RRefused | RReleased _ => None
      end
  end.

(** ** What a handler can do with its result context and its sender *)
Definition has_context q : bool :=
  match rpc q with RArrived | RRefused | RMethod | RBegin | RRegister | RReleased false => false | _ => true end.
(** What the sender of each mode does: a second unary response throws, that of a client stream is
    dropped, and every one completes the request. *)
Definition unary_send (v : nat) q : Request :=
  match response q with Some _ => q | None => set_response (Some v) q end.
Definition client_send (v : nat) q : Request :=
  q |> set_response (match response q with Some w => Some w | None => Some v end)
    |> set_done (match done q with NotSent => Claimed | d => d end).
Definition stream_send q : Request := set_written (S (written q)) q.
(** [Sender::send]; a closed sender throws. *)
Definition send (v : nat) (m : Mode) q : Request :=
  if active q then
    match m with
    | Http => q
    | Unary => unary_send v q
    | ClientStream => client_send v q
    | ServerStream | Bidi => stream_send q
    end
  else q.
Definition setResultCallback (message : string) q : Request :=
  if callbacksClosed q then q else set_callbacks ({[message]} ∪ callbacks q) q.

Inductive Signal := SDone | SEvent | SCallback (message : string) | SSend (v : nat) | SCancelTask.
Definition signal (g : Signal) (r : nat) s : option Endpoint :=
  match requests s !! r with
  | None => None
  | Some q =>
      let holds := has_context q && (is_http (mode s) || hasResult_ s) in
      match g with
      | SDone => if holds && bool_decide (done q = NotSent) then Some (upd r (set_done Claimed) s) else None
      | SEvent => if bool_decide (done q = Claimed) then Some (upd r (set_done Sent) s) else None
      | SCallback message => if holds then Some (upd r (setResultCallback message) s) else None
      | SSend v => if has_context q && negb (is_http (mode s)) then Some (upd r (send v (mode s)) s) else None
      | SCancelTask => Some (upd r (set_taskCancelled true) s)
      end
  end.

(** ** consumeResult *)
Definition consumeResult (stream message : string) s : Endpoint :=
  if hasResult_ s then set_consumers (consumers s ++ [mkConsumer CStart stream message]) s else s.

Definition exclusive q : bool := match rpc q with REnding | RClose | RClear | REnd => true | _ => false end.

(** [keep] is what a callback returns: true when the message id is done.  An exception leaves the
    callback registered, like false. *)
Definition consumer_step (keep : bool) (i : nat) s : option Endpoint :=
  match consumers s !! i with
  | None => None
  | Some c =>
      let go pc := Some (cupd i (set_cpc pc) s) in
      match cpc c with
      | CStart =>
          if bool_decide (cstream c = EmptyString) then go (CDone Missing)
          else match pending_ s !! cstream c with Some r => go (CLooked r) | None => go (CDone Late) end
      | CLooked r =>
          match requests s !! r with
          | Some q => if exclusive q then None else go (CHeld r)
          | None => None
          end
      | CHeld r => if bool_decide (pending_ s !! cstream c = Some r) then go (CCall r) else go (CDone Late)
      | CCall r =>
          match requests s !! r with
          | Some q => if bool_decide (cmessage c ∈ callbacks q) then go (CRunning r) else go (CDone Unknown)
          | None => None
          end
      | CRunning r => if keep then go (CErase r) else go (CDone Consumed)
      | CErase r =>
          match requests s !! r with
          | Some q =>
              Some (s |> upd r (fun q => set_callbacks (callbacks q ∖ {[cmessage c]}) q)
                      |> cupd i (set_cpc (CDone (if bool_decide (cmessage c ∈ callbacks q) then Consumed else Duplicate))))
          | None => None
          end
      | CDone _ => None
      end
  end.

Inductive Action :=
  | DoStart | DoArrive | DoStop | DoStopStep (expires : bool)
  | DoRequest (ch : Choice) (r : nat)
  | DoSignal (g : Signal) (r : nat)
  | DoResult (stream message : string)
  | DoConsumer (keep : bool) (i : nat).

Definition perform (a : Action) s : option Endpoint :=
  match a with
  | DoStart => Some (start s).1
  | DoArrive => Some (arrive s)
  | DoStop => stop_call s
  | DoStopStep expires => stop_step expires s
  | DoRequest ch r => request_step ch r s
  | DoSignal g r => signal g r s
  | DoResult stream message => Some (consumeResult stream message s)
  | DoConsumer keep i => consumer_step keep i s
  end.
Definition step s s' : Prop := exists a, perform a s = Some s'.
Definition reachable (m : Mode) (hasResult : bool) s : Prop := rtc step (created m hasResult) s.
Fixpoint run (acts : list Action) s : option Endpoint :=
  match acts with
  | [] => Some s
  | a :: acts => s ← perform a s; run acts s
  end.
End Net.
