(* ===== verification/NetSourceTheorems.v ===== *)
(** * What an HTTP or gRPC source endpoint promises

    To the handler: the lifetime of a request and its isolation from other requests; to the
    caller: which outcome is reported; to the service: that a stopped endpoint is drained. *)
From Stdlib Require Import Lia.
From stdpp Require Import strings gmap.
From S2P Require Import Prelude Monitor NetSource.
Import Net.
Local Open Scope Z_scope.

Implicit Types (s : Endpoint) (q : Request) (c : Consumer).

(** ** What the invariant looks at *)

(** The request may be in [pending_]. *)
Definition live q : bool := match rpc q with RConsume | REof | RWaiting | RNotify | RLock | REnding => true | _ => false end.
(** Its callbacks may run. *)
Definition callable q : bool := match rpc q with RConsume | REof | RWaiting | RNotify | RLock => true | _ => false end.
(** It holds a lease. *)
Definition slot q : bool := match rpc q with RArrived | RRefused | RReleased _ => false | _ => true end.
Definition finished q : bool := match rpc q with RRefused | RReleased _ => true | _ => false end.
Definition ended q : bool := match rpc q with RDone | RReleased true => true | _ => false end.
(** Nothing has gone wrong yet. *)
Definition early q : bool :=
  match rpc q with RArrived | RMethod | RBegin | RRegister | RConsume | REof | RWaiting => true | _ => false end.
(** It has been consumed and waited for, and no verdict has been passed. *)
Definition undecided (m : Mode) q : bool :=
  match rpc q with RNotify | RLock => true | REnding | RClear => is_http m | _ => false end.
(** It has been decided what is reported. *)
Definition decided (m : Mode) q : bool :=
  match rpc q with REnding | RClose | RClear => negb (is_http m) | REnd | RDone | RReleased true => true | _ => false end.
(** The result came. *)
Definition completed (m : Mode) q : bool :=
  match m with
  | Http => bool_decide (done q = Sent)
  | Unary => bool_decide (is_Some (response q))
  | _ => negb (bool_decide (done q = NotSent))
  end.
Definition over q : bool := match rpc q with REnd | RDone | RReleased true => true | _ => false end.

Record req_ok (m : Mode) (hr : bool) q : Prop := {
  ok_ends : ends q = if ended q then 1%nat else 0%nat;
  ok_inserted : inserted q = true -> live q = true /\ hr = true;
  ok_early : early q = true -> error q = None /\ resultWaitFailed q = false;
  ok_undecided : undecided m q = true ->
    (error q = None -> hr = true -> ready m q = true) /\ (resultWaitFailed q = true <-> error q = Some WaitFailed);
  ok_decided : decided m q = true -> error q = None -> hr = true -> completed m q = true;
  ok_closed : callbacksClosed q = true -> callbacks q = ∅;
  ok_over : is_http m = false -> over q = true -> callbacksClosed q = true /\ active q = false;
  ok_place : match rpc q with RClear => is_http m = false -> active q = false | RWaiting => hr = true /\ inserted q = true | RConsume | REof => hr = true -> inserted q = true
    | RClose => is_http m = false | _ => True end;
}.

Definition consumer_ok s c : Prop :=
  match cpc c with
  | CLooked r => is_Some (requests s !! r)
  | CHeld r => exists q, requests s !! r = Some q /\ exclusive q = false
  | CCall r | CRunning r | CErase r => exists q, requests s !! r = Some q /\ callable q = true
  | CStart | CDone _ => True
  end.

Definition drained s : Prop := closed s = true /\ leases s = 0.
Record inv s : Prop := {
  inv_req r q : requests s !! r = Some q -> req_ok (mode s) (hasResult_ s) q;
  inv_pending sid r : pending_ s !! sid = Some r <->
    exists q, requests s !! r = Some q /\ rstream q = sid /\ inserted q = true;
  inv_nores : hasResult_ s = false -> consumers s = [];
  inv_consumer i c : consumers s !! i = Some c -> consumer_ok s c;
  inv_leases : leases s = Monitor.tallied slot (requests s);
  inv_drain : stopper s = SDrain -> closed s = true;
  inv_drained : stopper s = SPending \/ stopper s = SStopped -> drained s;
}.

(** What a step of a request keeps of the endpoint. *)
Record framed s s' : Prop := {
  framed_mode : mode s' = mode s;
  framed_result : hasResult_ s' = hasResult_ s;
  framed_closed : closed s' = closed s;
  framed_consumers : consumers s' = consumers s;
  framed_stopper : stopper s' = stopper s;
}.

(** One request moves. *)
Lemma net_moves s s' r q (f : Request -> Request) :
  inv s -> framed s s' -> requests s !! r = Some q -> requests s' = alter f r (requests s) ->
  req_ok (mode s) (hasResult_ s) (f q) ->
  (forall sid r', pending_ s' !! sid = Some r' <->
     if decide (r' = r) then rstream (f q) = sid /\ inserted (f q) = true else pending_ s !! sid = Some r') ->
  existsb (shares r) (consumers s) = false \/ ((exclusive q = false -> exclusive (f q) = false) /\ (callable q = true -> callable (f q) = true)) ->
  leases s' = leases s - Z.b2z (slot q) + Z.b2z (slot (f q)) -> (slot q = false -> slot (f q) = true -> closed s = false) -> inv s'.
Proof.
  intros [I1 I2 I3 I4 I5 I6 I7] [F1 F2 F3 F4 F5] Hq Er Hok Hp Hc Hl Ha.
  assert (Hlk : forall r', requests s' !! r' = if decide (r = r') then Some (f q) else requests s !! r').
  { intros r'. rewrite Er. by apply lookup_alter_req. }
  split.
  - intros r' q'. rewrite Hlk, F1, F2. destruct (decide (r = r')); [by intros [= <-]|apply I1].
  - intros sid r'. rewrite Hp, Hlk. destruct (decide (r' = r)) as [->|Hne].
    + rewrite decide_True by done. split; [intros [? ?]; eauto|]. by intros (? & [= <-] & ? & ?).
    + rewrite decide_False by done. apply I2.
  - by rewrite F2, F4.
  - intros i c. rewrite F4. intros Hi. specialize (I4 i c Hi). unfold consumer_ok in *.
    assert (Hsh : forall r', (r' = r -> shares r c = true) -> r' <> r \/ ((exclusive q = false -> exclusive (f q) = false) /\ (callable q = true -> callable (f q) = true))).
    { intros r' Hs. destruct (decide (r' = r)) as [->|]; [|by left]. right. destruct Hc as [Hc|Hc]; [|done].
      exfalso. apply not_true_iff_false in Hc. apply Hc, existsb_exists. exists c. split; [|by apply Hs].
      apply list_elem_of_In. by eapply list_elem_of_lookup_2. }
    unfold shares in Hsh. destruct (cpc c) as [|r'|r'|r'|r'|r'|o]; try done;
      [destruct I4 as [q' Hq']; rewrite Hlk; destruct (decide (r = r')); eauto|..];
      destruct I4 as (q' & Hq' & Hx); rewrite Hlk;
      (destruct (Hsh r') as [Hne|[H1 H2]]; [by intros ->; apply Nat.eqb_refl|exists q'; rewrite decide_False by done; done|]);
      (destruct (decide (r = r')) as [<-|]; [|by exists q']); exists (f q); simplify_eq; auto.
  - rewrite Hl, Er, I5. rewrite (alter_insert _ _ _ _ Hq), (Monitor.tallied_insert _ _ _ _ _ Hq). lia.
  - by rewrite F3, F5.
  - rewrite F5. intros Hst. destruct (I7 Hst) as [Hcl Hz]. split; [congruence|].
    assert (slot q = false) as Hsq by (eapply Monitor.tallied_zero; [|exact Hq]; lia).
    rewrite Hl, Hz, Hsq. destruct (slot (f q)) eqn:Hs'; [|done]. rewrite Ha in Hcl; done.
Qed.

(** A move that leaves the map, the lease and the stream id. *)
Lemma net_keeps s r q (f : Request -> Request) :
  inv s -> requests s !! r = Some q -> req_ok (mode s) (hasResult_ s) (f q) -> rstream (f q) = rstream q -> inserted (f q) = inserted q ->
  existsb (shares r) (consumers s) = false \/ ((exclusive q = false -> exclusive (f q) = false) /\ (callable q = true -> callable (f q) = true)) ->
  slot (f q) = slot q -> inv (upd r f s).
Proof.
  intros Hinv Hq Hok Es Ei Hc Hs. eapply net_moves; try done.
  - intros sid r'. simpl. destruct (decide (r' = r)) as [->|]; [|done]. rewrite (inv_pending _ Hinv), Es, Ei.
    split; [intros (? & ? & ? & ?); by simplify_eq|intros [? ?]; eauto].
  - simpl. rewrite Hs. lia.
  - congruence.
Qed.
(** Evaluate the views of a request whose program counter is known. *)
Ltac view Hpc :=
  unfold live, slot, callable, exclusive, finished, early, ended, undecided, decided, over in *; simpl; rewrite ?Hpc in *; simpl in *.

(** Nothing of a request that is not inserted is in the map. *)
Lemma pending_off s r q (f : Request -> Request) sid r' :
  inv s -> requests s !! r = Some q -> inserted q = false -> inserted (f q) = false ->
  pending_ s !! sid = Some r' <-> if decide (r' = r) then rstream (f q) = sid /\ inserted (f q) = true else pending_ s !! sid = Some r'.
Proof.
  intros Hinv Hq Hi Hf. destruct (decide (r' = r)) as [->|]; [|done]. rewrite (inv_pending _ Hinv), Hf.
  split; [intros (? & ? & ? & ?); congruence|by intros []].
Qed.

Lemma net_release s r q : inv s -> requests s !! r = Some q -> rpc q = RMethod \/ rpc q = RBegin -> inv (release r s).
Proof.
  intros Hinv Hq Hb. pose proof (inv_req _ Hinv r q Hq) as [O1 O2 O3 O4 O5 O6 O7 O8].
  assert (Hi : inserted q = false) by (destruct (inserted q); [|done]; unfold live in O2; destruct Hb as [Hb|Hb]; rewrite Hb in O2; by destruct (O2 eq_refl)).
  eapply (net_moves s _ r q (set_rpc (RReleased false))); try done.
  - unfold ended, early in *. destruct Hb as [Hb|Hb]; rewrite Hb in *; split; simpl; try done; try congruence; by rewrite Hi.
  - intros sid r'. by apply (pending_off s r q).
  - right. split; [done|]. unfold callable. destruct Hb as [-> | ->]; done.
  - unfold slot. simpl. destruct Hb as [-> | ->]; simpl; lia.
Qed.

Lemma net_acquire s r q : inv s -> requests s !! r = Some q -> rpc q = RArrived -> inv (acquire r s).
Proof.
  intros Hinv Hq Hpc. pose proof (inv_req _ Hinv r q Hq) as [O1 O2 O3 O4 O5 O6 O7 O8].
  assert (Hi : inserted q = false) by (destruct (inserted q); [|done]; view Hpc; by destruct (O2 eq_refl)).
  unfold acquire. destruct (closed s) eqn:Hcl.
  { apply (net_keeps s r q); try done; [split; view Hpc; try done; try (by rewrite Hi)|right; view Hpc; done|view Hpc; done]. }
  eapply (net_moves s _ r q (set_rpc (if is_http (mode s) then RMethod else RBegin))); try done.
  - destruct (is_http (mode s)); split; view Hpc; try done; try (by rewrite Hi).
  - intros sid r'. by apply (pending_off s r q).
  - right. split; destruct (is_http (mode s)); view Hpc; done.
  - destruct (is_http (mode s)); view Hpc; lia.
Qed.

Lemma net_begin s r q id : inv s -> requests s !! r = Some q -> rpc q = RBegin -> inv (begin_request id r s).
Proof.
  intros Hinv Hq Hpc. destruct id as [id|]; [|apply (net_release s r q); auto].
  pose proof (inv_req _ Hinv r q Hq) as [O1 O2 O3 O4 O5 O6 O7 O8].
  assert (Hi : inserted q = false) by (destruct (inserted q); [|done]; view Hpc; by destruct (O2 eq_refl)).
  eapply (net_moves s _ r q (fun q => q |> set_rstream id |> set_rpc RRegister)); try done.
  - split; view Hpc; try done; try (by rewrite Hi).
  - intros sid r'. by apply (pending_off s r q).
  - right. view Hpc. done.
  - view Hpc. lia.
  - view Hpc. done.
Qed.

(** The moves of a request that has been registered and holds no lock. *)
Lemma net_callable s r q f :
  inv s -> requests s !! r = Some q -> callable q = true -> callable (f q) = true ->
  req_ok (mode s) (hasResult_ s) (f q) -> rstream (f q) = rstream q -> inserted (f q) = inserted q -> inv (upd r f s).
Proof.
  intros Hinv Hq Hc Hc' Hok Es Ei.
  assert (Hv : forall q, callable q = true -> exclusive q = false /\ slot q = true).
  { intros q0. unfold callable, exclusive, slot. by destruct (rpc q0). }
  destruct (Hv q Hc) as (X & S), (Hv (f q) Hc') as (X' & S'). apply (net_keeps s r q f); try done; [auto|congruence].
Qed.

(** A request that fails early. *)
Lemma ok_fail m hr e q :
  req_ok m hr q -> early q = true -> (inserted q = true -> callable q = true) -> (e = WaitFailed -> hr = true) ->
  req_ok m hr (set_resultWaitFailed (bool_decide (e = WaitFailed)) q |> fail_request e).
Proof.
  intros [O1 O2 O3 O4 O5 O6 O7 O8] He Hi Hw. destruct (O3 He) as [E1 E2].
  assert (ended q = false) as Hn by (unfold ended, early in *; by destruct (rpc q)).
  split; simpl; try done.
  - by rewrite O1, Hn.
  - intros Hx. split; [done|]. by destruct (O2 Hx).
  - intros _. split; [done|]. rewrite bool_decide_eq_true. split; congruence.
Qed.
Lemma fail_moves m hr e q :
  req_ok m hr q -> early q = true -> (inserted q = true -> callable q = true) -> e <> WaitFailed -> req_ok m hr (fail_request e q).
Proof.
  intros Hok He Hi Hne. pose proof (ok_fail m hr e q Hok He Hi ltac:(done)) as Hf. rewrite bool_decide_false in Hf by done.
  destruct (ok_early _ _ _ Hok He) as [_ E2]. destruct q; simpl in *. by rewrite E2.
Qed.

Lemma net_register s r q : inv s -> requests s !! r = Some q -> rpc q = RRegister -> inv (register r q s).
Proof.
  intros Hinv Hq Hpc. pose proof (inv_req _ Hinv r q Hq) as Hok. pose proof Hok as [O1 O2 O3 O4 O5 O6 O7 O8].
  assert (Hi : inserted q = false) by (destruct (inserted q); [|done]; view Hpc; by destruct (O2 eq_refl)).
  assert (Hok' : req_ok (mode s) (hasResult_ s) (q |> set_inserted (hasResult_ s) |> set_rpc RConsume)) by (split; view Hpc; done).
  unfold register. destruct (hasResult_ s) eqn:Hr.
  2:{ eapply (net_moves s _ r q (set_rpc RConsume)); try done.
      - rewrite Hr. destruct q; simpl in *. by subst.
      - intros sid r'. by apply (pending_off s r q).
      - right. view Hpc. done.
      - view Hpc. lia.
      - view Hpc. done. }
  destruct (pending_ s !! rstream q) as [r0|] eqn:Hp0.
  - eapply (net_moves s _ r q (fail_request DuplicateKey)); try done.
    + rewrite Hr. apply fail_moves; try done; [by view Hpc|congruence].
    + intros sid r'. by apply (pending_off s r q).
    + right. view Hpc. done.
    + view Hpc. lia.
    + view Hpc. done.
  - eapply (net_moves s _ r q (fun q => q |> set_inserted true |> set_rpc RConsume)); try done.
    + by rewrite Hr.
    + intros sid r'. simpl. destruct (decide (r' = r)) as [->|Hne].
      * split; [|intros [<- _]; by rewrite lookup_insert_eq]. intros [[<- _]|[_ Hp]]%lookup_insert_Some; [done|].
        apply (inv_pending _ Hinv) in Hp as (q' & ? & ? & ?). congruence.
      * rewrite lookup_insert_Some. split; [intros [[_ <-]|[_ ?]]; done|]. intros Hp. right. split; [|done]. intros <-. congruence.
    + right. view Hpc. done.
    + view Hpc. lia.
    + view Hpc. done.
Qed.

Lemma ready_completed m q : ready m q = true -> completed m q = true.
Proof. destruct m; simpl; try done; intros ->%bool_decide_eq_true; done. Qed.

(** A request whose input has been read, and whose result has come if it waits for one. *)
Lemma ok_notify m hr q :
  req_ok m hr q -> early q = true -> callable q = true -> (hr = true -> ready m q = true) -> req_ok m hr (set_rpc RNotify q).
Proof.
  intros [O1 O2 O3 O4 O5 O6 O7 O8] He Hc Hr. destruct (O3 He) as [E1 E2].
  assert (ended q = false) as Hn by (unfold ended, early in *; by destruct (rpc q)).
  split; simpl; try done.
  - by rewrite O1, Hn.
  - intros Hx. by destruct (O2 Hx).
  - intros _. split; [intros _ Hh; specialize (Hr Hh); unfold ready in *; by destruct m|]. rewrite E1, E2. done.
Qed.
Lemma ok_reading m hr q pc :
  req_ok m hr q -> early q = true -> callable q = true -> pc = REof \/ (pc = RWaiting /\ hr = true) -> req_ok m hr (set_rpc pc q).
Proof.
  intros [O1 O2 O3 O4 O5 O6 O7 O8] He Hc Hpc.
  assert (ended q = false) as Hn by (unfold ended, early in *; by destruct (rpc q)).
  assert (Hins : hr = true -> inserted q = true) by (unfold early, callable in *; destruct (rpc q); try done; by destruct O8).
  destruct Hpc as [-> | [-> ->]]; split; simpl; auto; try done; try (by rewrite O1, Hn); try (intros Hx; by destruct (O2 Hx)).
Qed.

Lemma net_after_eof s r q :
  inv s -> requests s !! r = Some q -> early q = true -> callable q = true -> inv (goto (after_eof (hasResult_ s)) r s).
Proof.
  intros Hinv Hq He Hc. pose proof (inv_req _ Hinv r q Hq) as Hok. unfold after_eof.
  destruct (hasResult_ s) eqn:Hr; (apply (net_callable s r q); try done).
  - rewrite Hr. apply ok_reading; auto.
  - rewrite Hr. by apply ok_notify.
Qed.
Lemma net_fail s r q e :
  inv s -> requests s !! r = Some q -> early q = true -> callable q = true -> e <> WaitFailed -> inv (upd r (fail_request e) s).
Proof. intros Hinv Hq He Hc Hne. apply (net_callable s r q); try done. apply fail_moves; auto. by eapply inv_req. Qed.

Lemma net_consume ch s r q s' :
  inv s -> requests s !! r = Some q -> rpc q = RConsume -> consume_message ch r s = Some s' -> inv s'.
Proof.
  intros Hinv Hq Hpc Hs. assert (early q = true /\ callable q = true) as [He Hc] by (by view Hpc). unfold consume_message in Hs.
  assert (Hgo : inv (goto (if is_http (mode s) then after_eof (hasResult_ s) else REof) r s)).
  { destruct (is_http (mode s)); [by eapply net_after_eof|]. apply (net_callable s r q); try done.
    apply ok_reading; auto. by eapply inv_req. }
  destruct ch; try (by injection Hs as <-).
  - injection Hs as <-. by eapply net_fail.
  - destruct (reads (mode s)); [|done]. by injection Hs as <-.
Qed.
Lemma net_eof ch s r q : inv s -> requests s !! r = Some q -> rpc q = REof -> inv (eof ch r s).
Proof.
  intros Hinv Hq Hpc. assert (early q = true /\ callable q = true) as [He Hc] by (by view Hpc).
  destruct ch; simpl; try (by eapply net_after_eof). by eapply net_fail.
Qed.

Lemma net_wait ch s r q s' :
  inv s -> requests s !! r = Some q -> rpc q = RWaiting -> wait_step ch r q s = Some s' -> inv s'.
Proof.
  intros Hinv Hq Hpc Hs. assert (early q = true /\ callable q = true) as [He Hc] by (by view Hpc).
  pose proof (inv_req _ Hinv r q Hq) as Hok. assert (Hr : hasResult_ s = true) by (pose proof (ok_place _ _ _ Hok) as Hp; rewrite Hpc in Hp; apply Hp).
  assert (Hgo : ready (mode s) q = true -> inv (goto RNotify r s)).
  { intros Hrd. apply (net_callable s r q); try done. by apply ok_notify. }
  assert (Hfl : inv (upd r wait_failed s)).
  { apply (net_callable s r q); try done. by apply (ok_fail _ _ WaitFailed q Hok He). }
  unfold wait_step in Hs. destruct ch; try (destruct (ready (mode s) q) eqn:Hrd; [|done]; injection Hs as <-; by apply Hgo).
  destruct (negb _ && _) eqn:E; injection Hs as <-; [|done]. apply andb_true_iff in E as [_ E]. auto.
Qed.

Lemma net_notify s r q : inv s -> requests s !! r = Some q -> rpc q = RNotify -> inv (notify r q s).
Proof.
  intros Hinv Hq Hpc. pose proof (inv_req _ Hinv r q Hq) as [O1 O2 O3 O4 O5 O6 O7 O8]. unfold notify.
  set (b := _ && (_ || _)). destruct (is_http (mode s) && negb (hasResult_ s)) eqn:Hd.
  - apply andb_true_iff in Hd as [Hh Hn]. apply negb_true_iff in Hn. apply (net_keeps s r q); try done.
    + split; view Hpc; try done; try congruence. intros Hx. destruct (O2 Hx). congruence.
    + left. by rewrite (inv_nores _ Hinv Hn).
    + by view Hpc.
  - apply (net_callable s r q); try done; [by view Hpc|]. split; view Hpc; try done.
Qed.

Lemma net_lock s r q s' : inv s -> requests s !! r = Some q -> rpc q = RLock -> lock_request r s = Some s' -> inv s'.
Proof.
  intros Hinv Hq Hpc Hs. pose proof (inv_req _ Hinv r q Hq) as [O1 O2 O3 O4 O5 O6 O7 O8]. unfold lock_request in Hs.
  destruct (existsb (shares r) (consumers s)) eqn:Hsh; [done|]. injection Hs as <-.
  apply (net_keeps s r q); try done; [|by left|by view Hpc]. split; view Hpc; try done.
  - intros Hh. rewrite Hh. simpl. destruct (O4 eq_refl) as [H1 H2]. by destruct (mode s).
  - intros Hh Herr Hr. apply negb_true_iff in Hh. rewrite Hh in Herr. simpl in Herr. destruct (O4 eq_refl) as [H1 H2].
    destruct (completionReady (mode s) q) eqn:Hcr.
    + unfold completionReady in Hcr. apply andb_true_iff in Hcr as [_ Hcr]. unfold completed. by destruct (mode s).
    + specialize (H1 Herr Hr). apply ready_completed in H1. unfold completed in *. by destruct (mode s).
Qed.

Lemma net_unregister s r q : inv s -> requests s !! r = Some q -> rpc q = REnding -> inv (unregister r q s).
Proof.
  intros Hinv Hq Hpc. pose proof (inv_req _ Hinv r q Hq) as [O1 O2 O3 O4 O5 O6 O7 O8]. unfold unregister.
  eapply (net_moves s _ r q (fun q => q |> set_inserted false |> set_rpc (if is_http (mode s) then RClear else RClose))); try done.
  - by destruct (inserted q).
  - by destruct (inserted q).
  - destruct (mode s) eqn:Hm; simpl; split; view Hpc; try done.
  - intros sid r'. destruct (inserted q) eqn:Hi; simpl.
    + destruct (decide (r' = r)) as [->|Hne].
      * rewrite lookup_delete_Some, (inv_pending _ Hinv). split; [|by intros []]. intros [Hne (q' & ? & ? & ?)]. congruence.
      * rewrite lookup_delete_Some. split; [by intros []|]. intros Hp. split; [|done]. intros <-.
        assert (pending_ s !! rstream q = Some r) by (apply (inv_pending _ Hinv); eauto). congruence.
    + by apply (pending_off s r q (fun q => q |> set_inserted false |> set_rpc (if is_http (mode s) then RClear else RClose))).
  - right. split; destruct (mode s); view Hpc; done.
  - destruct (inserted q), (mode s); view Hpc; lia.
  - view Hpc. done.
Qed.

Lemma net_close s r q : inv s -> requests s !! r = Some q -> rpc q = RClose -> inv (close_sender r s).
Proof.
  intros Hinv Hq Hpc. pose proof (inv_req _ Hinv r q Hq) as [O1 O2 O3 O4 O5 O6 O7 O8].
  apply (net_keeps s r q); try done; [|right; by view Hpc|by view Hpc].
  split; view Hpc; try done. intros Hh. by rewrite O8 in Hh.
Qed.

Lemma net_clear s r q : inv s -> requests s !! r = Some q -> rpc q = RClear -> inv (clear_callbacks r s).
Proof.
  intros Hinv Hq Hpc. pose proof (inv_req _ Hinv r q Hq) as [O1 O2 O3 O4 O5 O6 O7 O8]. unfold clear_callbacks.
  apply (net_keeps s r q); try done; [..|right; destruct (is_http (mode s)); by view Hpc|destruct (is_http (mode s)); by view Hpc];
    [|by destruct (is_http (mode s))|by destruct (is_http (mode s))].
  destruct (is_http (mode s)) eqn:Hh; split; view Hpc; try done; try congruence.
  - intros _. unfold http_error, completed. destruct (mode s); try done. simpl.
    destruct (if resultWaitFailed q && _ then None else error q); [done|]. by case_bool_decide.
  - intros _. rewrite Hh in O5. intros He Hr. specialize (O5 eq_refl He Hr). unfold completed in *. by destruct (mode s).
  - intros _ _. split; [done|]. by apply O8.
Qed.

Lemma net_end ch s r q : inv s -> requests s !! r = Some q -> rpc q = REnd -> inv (end_request ch r s).
Proof.
  intros Hinv Hq Hpc. pose proof (inv_req _ Hinv r q Hq) as [O1 O2 O3 O4 O5 O6 O7 O8]. unfold end_request.
  apply (net_keeps s r q); try done; [|right; by view Hpc|by view Hpc].
  split; view Hpc; try done; [by rewrite O1|]. intros _ He Hr.
  assert (Hn : error q = None) by (destruct ch, (error q), (is_http (mode s)); done).
  specialize (O5 eq_refl Hn Hr). unfold completed in *. by destruct (mode s).
Qed.

Lemma net_finish s r q : inv s -> requests s !! r = Some q -> rpc q = RDone -> inv (finish r s).
Proof.
  intros Hinv Hq Hpc. pose proof (inv_req _ Hinv r q Hq) as [O1 O2 O3 O4 O5 O6 O7 O8]. unfold finish.
  assert (Hi : inserted q = false) by (destruct (inserted q); [|done]; view Hpc; by destruct (O2 eq_refl)).
  eapply (net_moves s _ r q (fun q => (if is_http (mode s) then set_stopRequested true q else q) |> set_rpc (RReleased true))); try done.
  - destruct (is_http (mode s)) eqn:Hh; split; view Hpc; try done; try congruence. intros _. by apply O7.
  - intros sid r'. apply (pending_off s r q (fun q => (if is_http (mode s) then set_stopRequested true q else q) |> set_rpc (RReleased true))); try done.
    by destruct (is_http (mode s)).
  - right. view Hpc. done.
  - destruct (is_http (mode s)); view Hpc; lia.
Qed.

Lemma net_method ch s r q : inv s -> requests s !! r = Some q -> rpc q = RMethod -> inv (match ch with Throws => release r s | _ => goto RBegin r s end).
Proof.
  intros Hinv Hq Hpc. pose proof (inv_req _ Hinv r q Hq) as [O1 O2 O3 O4 O5 O6 O7 O8].
  assert (Hgo : inv (goto RBegin r s)).
  { apply (net_keeps s r q); try done; [|right; by view Hpc|by view Hpc]. split; view Hpc; done. }
  destruct ch; try done. apply (net_release s r q); auto.
Qed.

Lemma net_request ch r s s' : inv s -> request_step ch r s = Some s' -> inv s'.
Proof.
  intros Hinv Hs. unfold request_step in Hs. destruct (requests s !! r) as [q|] eqn:Hq; [|done].
  destruct (rpc q) eqn:Hpc; try done; try (injection Hs as <-);
    eauto using net_acquire, net_method, net_begin, net_register, net_consume, net_eof, net_wait, net_notify, net_lock, net_unregister,
      net_close, net_clear, net_end, net_finish.
Qed.

(** ** Signals *)
(** What a handler may do to a request at any time. *)
Definition tame q q' : Prop :=
  rpc q' = rpc q /\ rstream q' = rstream q /\ inserted q' = inserted q /\ error q' = error q /\ resultWaitFailed q' = resultWaitFailed q /\
  ends q' = ends q /\ callbacksClosed q' = callbacksClosed q /\ active q' = active q /\
  (callbacksClosed q = true -> callbacks q = ∅ -> callbacks q' = ∅) /\
  (is_Some (response q) -> is_Some (response q')) /\ (done q = Sent -> done q' = Sent) /\ (done q <> NotSent -> done q' <> NotSent).
Lemma tame_ready m q q' : tame q q' -> ready m q = true -> ready m q' = true.
Proof.
  intros (_ & _ & _ & _ & _ & _ & _ & _ & _ & Hr & Hd & _). unfold ready. destruct m; rewrite !bool_decide_eq_true; auto.
Qed.
Lemma tame_completed m q q' : tame q q' -> completed m q = true -> completed m q' = true.
Proof.
  intros (_ & _ & _ & _ & _ & _ & _ & _ & _ & Hr & Hd & Hn). unfold completed.
  destruct m; rewrite ?negb_true_iff, ?bool_decide_eq_true, ?bool_decide_eq_false; auto.
Qed.
Lemma tame_ok m hr q q' : tame q q' -> req_ok m hr q -> req_ok m hr q'.
Proof.
  intros Ht [O1 O2 O3 O4 O5 O6 O7 O8]. pose proof (tame_ready m q q' Ht) as Hrd. pose proof (tame_completed m q q' Ht) as Hcm.
  destruct Ht as (E1 & E2 & E3 & E4 & E5 & E6 & E7 & E8 & E9 & _).
  split; unfold ended, live, early, undecided, decided, over in *; rewrite ?E1, ?E2, ?E3, ?E4, ?E5, ?E6, ?E7, ?E8; auto.
  intros Hu. destruct (O4 Hu). auto.
Qed.
Lemma net_tame s r q f : inv s -> requests s !! r = Some q -> tame q (f q) -> inv (upd r f s).
Proof.
  intros Hinv Hq Ht. pose proof (tame_ok _ _ _ _ Ht (inv_req _ Hinv r q Hq)) as Hok. destruct Ht as (E1 & E2 & E3 & _).
  apply (net_keeps s r q f); try done; unfold exclusive, callable, slot; rewrite E1; auto.
Qed.
Ltac tame_done := unfold tame; simpl; split_and!; try done; auto.

Lemma send_tame v m q : tame q (send v m q).
Proof.
  unfold send, unary_send, client_send, stream_send. destruct (active q) eqn:Ha; [|tame_done]. destruct m; try (by tame_done).
  - destruct (response q) eqn:Hr; tame_done; rewrite ?Hr; try done.
  - tame_done; destruct (response q), (done q); done.
Qed.
Lemma callback_tame m q : tame q (setResultCallback m q).
Proof. unfold setResultCallback. destruct (callbacksClosed q) eqn:Hc; tame_done. by rewrite Hc. Qed.
Lemma net_signal g r s s' : inv s -> signal g r s = Some s' -> inv s'.
Proof.
  intros Hinv Hs. unfold signal in Hs. destruct (requests s !! r) as [q|] eqn:Hq; [|done].
  destruct g; repeat (case_match; try done); injection Hs as <-; (eapply net_tame; [done|exact Hq|]);
    auto using send_tame, callback_tame; try (by tame_done).
  - apply andb_true_iff in H as [_ H]. apply bool_decide_eq_true in H. tame_done. rewrite H. done.
Qed.
Lemma erase_tame m q : tame q (set_callbacks (callbacks q ∖ {[m]}) q).
Proof. tame_done. intros _ ->. set_solver. Qed.

(** ** Consumers *)
Lemma net_same s s' :
  inv s -> mode s' = mode s -> hasResult_ s' = hasResult_ s -> closed s' = closed s -> leases s' = leases s -> pending_ s' = pending_ s ->
  requests s' = requests s -> stopper s' = stopper s -> (hasResult_ s = false -> consumers s' = []) ->
  (forall i c, consumers s' !! i = Some c -> consumer_ok s' c) -> inv s'.
Proof. intros [I1 I2 I3 I4 I5 I6 I7] E1 E2 E3 E4 E5 E6 E7 Hn Hc. split; unfold drained; rewrite ?E1, ?E2, ?E3, ?E4, ?E5, ?E6, ?E7; auto. Qed.

(** A consumer goes on to a place that the requests allow. *)
Lemma net_goes s i c pc :
  inv s -> consumers s !! i = Some c -> consumer_ok s (set_cpc pc c) -> inv (cupd i (set_cpc pc) s).
Proof.
  intros Hinv Hi Hok. apply (net_same s); try done.
  - simpl. intros Hn. rewrite (inv_nores _ Hinv Hn) in Hi. done.
  - simpl. intros j c'. rewrite (lookup_alter_req _ _ _ c) by done. destruct (decide (i = j)) as [<-|]; [by intros [= <-]|].
    apply (inv_consumer _ Hinv).
Qed.
Lemma net_consumer keep i s s' : inv s -> consumer_step keep i s = Some s' -> inv s'.
Proof.
  intros Hinv Hs. unfold consumer_step in Hs. destruct (consumers s !! i) as [c|] eqn:Hi; [|done].
  pose proof (inv_consumer _ Hinv i c Hi) as Hok. unfold consumer_ok in Hok.
  destruct (cpc c) as [|r|r|r|r|r|o] eqn:Hpc; try done.
  - case_bool_decide; [injection Hs as <-; by eapply net_goes|]. destruct (pending_ s !! cstream c) as [r|] eqn:Hp; injection Hs as <-;
      (eapply net_goes; [done|done|]); [|done]. apply (inv_pending _ Hinv) in Hp as (q & Hq & _). unfold consumer_ok. simpl. by exists q.
  - destruct (requests s !! r) as [q|] eqn:Hq; [|done]. destruct (exclusive q) eqn:Hx; [done|]. injection Hs as <-. eapply net_goes; [done|done|].
    by exists q.
  - destruct Hok as (q & Hq & Hx). case_bool_decide as Hp; injection Hs as <-; (eapply net_goes; [done|done|]); [|done]. exists q. split; [done|].
    apply (inv_pending _ Hinv) in Hp as (q' & Hq' & _ & Hins). simplify_eq.
    destruct (ok_inserted _ _ _ (inv_req _ Hinv r q Hq) Hins) as [Hl _]. unfold live, exclusive, callable in *. by destruct (rpc q).
  - destruct Hok as (q & Hq & Hc). rewrite Hq in Hs. case_bool_decide; injection Hs as <-; (eapply net_goes; [done|done|]); [by exists q|done].
  - destruct Hok as (q & Hq & Hc). destruct keep; injection Hs as <-; (eapply net_goes; [done|done|]); [by exists q|done].
  - destruct Hok as (q & Hq & Hc). rewrite Hq in Hs. injection Hs as <-.
    eapply net_goes; [eapply net_tame; [done|exact Hq|apply erase_tame]|done|done].
Qed.

Lemma net_created m hr : inv (created m hr).
Proof.
  split; simpl; try done; try (by intros [|]).
  split; [by rewrite lookup_empty|]. by intros (? & ? & _).
Qed.

Lemma net_step s s' : inv s -> step s s' -> inv s'.
Proof.
  intros Hinv [a Ha]. destruct a as [| | |e|ch r|g r|st msg|k i]; simpl in Ha.
  - injection Ha as <-. unfold start. destruct (hasResult_ s); [destruct (rotation s)|]; try done. simpl. apply (net_same s); try done; apply Hinv.
  - injection Ha as <-. destruct Hinv as [I1 I2 I3 I4 I5 I6 I7].
    assert (Hnew : forall r q, (requests s ++ [new_request]) !! r = Some q -> requests s !! r = Some q \/ q = new_request).
    { intros r q [?|[_ Hl]]%lookup_app_Some; [by left|]. apply list_lookup_singleton_Some in Hl as [_ <-]. by right. }
    assert (Hext : forall r q, requests s !! r = Some q -> (requests s ++ [new_request]) !! r = Some q) by (intros; by apply lookup_app_l_Some).
    split; simpl; try done.
    + intros r q [Hl| ->]%Hnew; [by eapply I1|]. by split.
    + intros sid r. rewrite I2. split; [intros (q & ? & ? & ?); eauto|]. intros (q & Hl & ? & Hi). apply Hnew in Hl as [Hl| ->]; [eauto|done].
    + intros i c Hi. specialize (I4 i c Hi). unfold consumer_ok in *. simpl.
      destruct (cpc c); try done; [destruct I4; eexists; eauto|..]; destruct I4 as (q & ? & ?); eauto.
    + rewrite I5. unfold Monitor.tallied. rewrite filter_app, length_app. simpl. lia.
  - unfold stop_call in Ha. destruct Hinv as [I1 I2 I3 I4 I5 I6 I7]. destruct (stopper s); try done; injection Ha as <-;
      split; simpl; try done; by intros [|].
  - unfold stop_step in Ha. destruct Hinv as [I1 I2 I3 I4 I5 I6 I7]. destruct (stopper s) eqn:Hst; try done.
    + injection Ha as <-. split; simpl; try done. by intros [|].
    + destruct e; [injection Ha as <-; split; simpl; try done; by intros [|]|]. destruct (Z.eqb_spec (leases s) 0); [|done]. injection Ha as <-.
      split; simpl; try done. intros _. split; [by apply I6|done].
    + injection Ha as <-. assert (Hs2 : inv (set_stopper SStopped s)) by (split; simpl; try done; intros _; apply I7; auto).
      destruct (hasResult_ s); [|done]. apply (net_same (set_stopper SStopped s)); try done; apply Hs2.
  - by eapply net_request.
  - by eapply net_signal.
  - injection Ha as <-. unfold consumeResult. destruct (hasResult_ s) eqn:Hr; [|done]. apply (net_same s); try done; [simpl; congruence|].
    simpl. intros i c [Hi|[_ Hi]]%lookup_app_Some; [by apply (inv_consumer _ Hinv i)|]. apply list_lookup_singleton_Some in Hi as [_ <-]. done.
  - by eapply net_consumer.
Qed.
Lemma net_reachable m hr s : reachable m hr s -> inv s.
Proof. revert s. apply (rtc_ind_r inv); [apply net_created|]. intros; by eapply net_step. Qed.

(** Without leases a closed gate stays drained. *)
Lemma drained_step s s' : inv s -> drained s -> step s s' -> drained s'.
Proof.
  intros Hinv [Hc Hl] [a Ha]. unfold drained. pose proof (inv_leases _ Hinv) as Hle. destruct a as [| | |e|ch r|g r|st msg|k i]; simpl in Ha.
  - injection Ha as <-. unfold start. by repeat case_match.
  - by injection Ha as <-.
  - unfold stop_call in Ha. by repeat case_match; simplify_eq.
  - unfold stop_step in Ha. by repeat case_match; simplify_eq.
  - unfold request_step in Ha. destruct (requests s !! r) as [q|] eqn:Hq; [|done].
    assert (Hsl : slot q = false) by (eapply Monitor.tallied_zero; [|exact Hq]; lia). unfold slot in Hsl.
    destruct (rpc q); try done. injection Ha as <-. unfold acquire. by rewrite Hc.
  - unfold signal in Ha. by repeat case_match; simplify_eq.
  - injection Ha as <-. unfold consumeResult. by case_match.
  - unfold consumer_step in Ha. by repeat case_match; simplify_eq.
Qed.
(** The kind of an endpoint is fixed. *)
Lemma kind_step s s' : step s s' -> mode s' = mode s /\ hasResult_ s' = hasResult_ s.
Proof.
  intros [a Ha]. destruct a as [| | |e|ch r|g r|st msg|k i]; simpl in Ha.
  - injection Ha as <-. unfold start. by repeat case_match.
  - by injection Ha as <-.
  - unfold stop_call in Ha. by repeat case_match; simplify_eq.
  - unfold stop_step in Ha. by repeat case_match; simplify_eq.
  - unfold request_step, consume_message, wait_step, lock_request in Ha.
    repeat (case_match; try done); simplify_eq;
      unfold acquire, begin_request, register, eof, unregister, clear_callbacks; by repeat case_match.
  - unfold signal in Ha. by repeat case_match; simplify_eq.
  - injection Ha as <-. unfold consumeResult. by case_match.
  - unfold consumer_step in Ha. by repeat case_match; simplify_eq.
Qed.
Lemma kind_reachable m hr s : reachable m hr s -> mode s = m /\ hasResult_ s = hr.
Proof.
  revert s. apply (rtc_ind_r (fun s => mode s = m /\ hasResult_ s = hr)); [done|]. intros s s' _ Hs [<- <-]. by apply kind_step.
Qed.

(** ** The properties *)

(** C33.  The lifetime of requests.  In every interleaving of requests, results, signals of the
    handler and [stop]: [endRequest] is called exactly once for a request that was begun and
    never for another; while a result callback runs, its request holds no exclusive lock and has
    not called [endRequest]; a request that waits for its result is found under its stream id,
    whatever ids other requests use, and an entry belongs to a registered request; and once a
    gRPC request has ended its sender is closed and no callback is registered with it, nor can
    one be. *)
Theorem net_lifetime m hr s (Hs : reachable m hr s) :
  (forall r q, requests s !! r = Some q -> ends q = if ended q then 1%nat else 0%nat) /\
  (forall i c r, consumers s !! i = Some c -> cpc c = CRunning r ->
     exists q, requests s !! r = Some q /\ exclusive q = false /\ ends q = 0%nat) /\
  (forall r q, requests s !! r = Some q -> rpc q = RWaiting -> pending_ s !! rstream q = Some r) /\
  (forall sid r, pending_ s !! sid = Some r -> exists q, requests s !! r = Some q /\ rstream q = sid /\ live q = true) /\
  (forall r q, requests s !! r = Some q -> is_http (mode s) = false -> ended q = true ->
     active q = false /\ callbacks q = ∅ /\ forall msg, setResultCallback msg q = q).
Proof.
  pose proof (net_reachable _ _ _ Hs) as Hinv. split_and!.
  - intros r q Hq. apply (inv_req _ Hinv r q Hq).
  - intros i c r Hi Hpc. pose proof (inv_consumer _ Hinv i c Hi) as Hok. unfold consumer_ok in Hok. rewrite Hpc in Hok.
    destruct Hok as (q & Hq & Hc). exists q. rewrite (ok_ends _ _ _ (inv_req _ Hinv r q Hq)).
    unfold callable, exclusive, ended in *. by destruct (rpc q).
  - intros r q Hq Hpc. apply (inv_pending _ Hinv). exists q. split_and!; try done.
    pose proof (ok_place _ _ _ (inv_req _ Hinv r q Hq)) as Hp. rewrite Hpc in Hp. by destruct Hp.
  - intros sid r (q & Hq & Hst & Hi)%(inv_pending _ Hinv). exists q. split_and!; try done. by apply (inv_req _ Hinv r q Hq).
  - intros r q Hq Hh He. pose proof (inv_req _ Hinv r q Hq) as Hok.
    assert (over q = true) as Ho by (unfold over, ended in *; by destruct (rpc q)).
    destruct (ok_over _ _ _ Hok Hh Ho) as [Hc Ha]. split_and!; [done|by apply (ok_closed _ _ _ Hok)|].
    intros msg. unfold setResultCallback. by rewrite Hc.
Qed.

(** What is reported of a request: an exception of its registration or consumption stands; else
    whether its result had come when all callbacks had been drained. *)
Definition verdict (m : Mode) q : option Error :=
  match error q with
  | Some e => if bool_decide (e = WaitFailed) then
                if completed m q then None else Some (if bool_decide (done q = Claimed) && is_http m then RequestCancelled else WaitFailed)
              else Some e
  | None => None
  end.
Lemma http_verdict q :
  (error q = None -> ready Http q = true) -> (resultWaitFailed q = true <-> error q = Some WaitFailed) -> http_error q = verdict Http q.
Proof.
  intros H1 H2. unfold http_error, verdict, completed, ready in *. destruct (resultWaitFailed q).
  - rewrite (proj1 H2 eq_refl), (bool_decide_true (WaitFailed = WaitFailed)) by done. by destruct (done q).
  - simpl. destruct (error q) as [e|]; [|by rewrite H1]. destruct (decide (e = WaitFailed)) as [->|]; [naive_solver|].
    by rewrite (bool_decide_false (e = WaitFailed)).
Qed.
Lemma grpc_verdict m q :
  is_http m = false -> (resultWaitFailed q = true <-> error q = Some WaitFailed) ->
  (if negb false && completionReady m q then None else error q) = verdict m q.
Proof.
  intros Hh H2. unfold verdict, completionReady. rewrite Hh, andb_false_r. destruct (resultWaitFailed q); simpl.
  - rewrite (proj1 H2 eq_refl), (bool_decide_true (WaitFailed = WaitFailed)) by done. by destruct m.
  - destruct (error q) as [e|]; [|done]. destruct (decide (e = WaitFailed)) as [->|]; [naive_solver|].
    by rewrite (bool_decide_false (e = WaitFailed)).
Qed.
(** The place of the verdict. *)
Definition judges (m : Mode) : RPc := if is_http m then RClear else RLock.

(** C34.  What a request with a result reports is decided once, after its running callbacks have
    been drained, from whether its result has come by then, and not from whether the wait was
    interrupted, timed out or cancelled before: an interrupted request whose result came in time
    succeeds.  A request that reports success has its result, and keeps it. *)
Theorem net_outcome_exact m s s' r q q' ch (Hs : reachable m true s) (Hq : requests s !! r = Some q)
  (Hpc : rpc q = judges m) (Hstep : request_step ch r s = Some s') (Hq' : requests s' !! r = Some q') :
  error q' = verdict m q /\ (error q' = None -> completed m q = true) /\
  (forall s2 q2, rtc step s' s2 -> requests s2 !! r = Some q2 -> decided m q2 = true -> error q2 = None -> completed m q2 = true).
Proof.
  pose proof (net_reachable _ _ _ Hs) as Hinv. destruct (kind_reachable _ _ _ Hs) as [Em Er]. pose proof (inv_req _ Hinv r q Hq) as [O1 O2 O3 O4 O5 O6 O7 O8].
  assert (Hver : error q' = verdict m q).
  { unfold request_step in Hstep. rewrite Hq, Hpc in Hstep. unfold judges, undecided in *. rewrite Hpc in O4.
    rewrite Em in *. destruct (is_http m) eqn:Hh; destruct (O4 eq_refl) as [H1 H2].
    - injection Hstep as <-. simpl in Hq'. rewrite (lookup_alter_req _ _ _ _ _ Hq), decide_True, Em, Hh in Hq' by done.
      injection Hq' as <-. destruct m; try done. apply http_verdict; auto.
    - unfold lock_request in Hstep. destruct (existsb _ _); [done|]. injection Hstep as <-. simpl in Hq'.
      rewrite (lookup_alter_req _ _ _ _ _ Hq), decide_True, Em, Hh in Hq' by done. injection Hq' as <-. by apply grpc_verdict. }
  split; [done|]. split.
  - rewrite Hver. unfold verdict, undecided, judges in *. rewrite Hpc in O4.
    assert (Hu : error q = None -> ready m q = true) by (intros; rewrite Em in O4; destruct (is_http m); apply (O4 eq_refl); done).
    destruct (error q) as [e|]; [|intros _; by apply ready_completed, Hu]. case_bool_decide; [|done]. by destruct (completed m q).
  - intros s2 q2 Hst Hq2 Hd He. assert (Hs2 : reachable m true s2).
    { apply (transitivity (R:=rtc step) (y:=s)); [exact Hs|]. eapply rtc_l; [by exists (DoRequest ch r)|exact Hst]. }
    destruct (kind_reachable _ _ _ Hs2) as [Em2 Er2]. pose proof (inv_req _ (net_reachable _ _ _ Hs2) r q2 Hq2) as Hok2.
    rewrite Em2, Er2 in Hok2. by apply (ok_decided _ _ _ Hok2).
Qed.

(** When [stop] has drained an endpoint, no request that was let in is under way, nothing is
    pending, and this stays so: every request that arrives later is refused. *)
Theorem net_stop_drains m hr s s' (Hs : reachable m hr s) (Hst : stopper s = SPending \/ stopper s = SStopped) (Hlater : rtc step s s') :
  (forall r q, requests s' !! r = Some q -> rpc q = RArrived \/ finished q = true) /\ pending_ s' = ∅ /\ leases s' = 0 /\
  forall r q s2, requests s' !! r = Some q -> rpc q = RArrived -> request_step Fine r s' = Some s2 ->
    requests s2 !! r = Some (set_rpc RRefused q).
Proof.
  assert (Hd : drained s' /\ inv s').
  { pose proof (net_reachable _ _ _ Hs) as Hinv. pose proof (inv_drained _ Hinv Hst) as Hd. clear Hst Hs.
    induction Hlater as [|s s1 s2 H1 _ IH]; [done|]. apply IH; [by eapply net_step|by eapply drained_step]. }
  destruct Hd as [[Hc Hl] Hinv]. pose proof (inv_leases _ Hinv) as Hle.
  assert (Hno : forall r q, requests s' !! r = Some q -> slot q = false) by (intros r q; apply Monitor.tallied_zero; lia).
  split; [|split; [|split; [done|]]].
  - intros r q Hq. specialize (Hno r q Hq). unfold slot, finished in *. destruct (rpc q); auto.
  - apply map_eq. intros sid. rewrite lookup_empty. destruct (pending_ s' !! sid) as [r|] eqn:Hp; [|done].
    apply (inv_pending _ Hinv) in Hp as (q & Hq & _ & Hi). destruct (ok_inserted _ _ _ (inv_req _ Hinv r q Hq) Hi) as [Hlv _].
    specialize (Hno r q Hq). unfold live, slot in *. by destruct (rpc q).
  - intros r q s2 Hq Hpc Hstep. unfold request_step in Hstep. rewrite Hq, Hpc in Hstep. injection Hstep as <-. unfold acquire. rewrite Hc.
    simpl. by rewrite (lookup_alter_req _ _ _ _ _ Hq), decide_True.
Qed.

(** ** Sample runs *)
Lemma run_steps_net acts : forall s s', run acts s = Some s' -> rtc step s s'.
Proof.
  induction acts as [|a acts IH]; simpl; intros s s' Hr; [by simplify_eq; apply rtc_refl|].
  apply bind_Some in Hr as (s1 & H1 & Hr). eapply rtc_l; [by exists a|auto].
Qed.
Definition after (m : Mode) (acts : list Action) : Endpoint := default (created m true) (run acts (created m true)).
Lemma net_after_reachable m acts : is_Some (run acts (created m true)) -> reachable m true (after m acts).
Proof. intros [s' E]. unfold after. rewrite E. by apply (run_steps_net acts). Qed.

Definition net_begin_acts (r : nat) (id : string) : list Action :=
  [DoArrive; DoRequest Fine r; DoRequest (Begins id) r; DoRequest Fine r].
(** A unary call registers a callback and waits; its result comes, and a second request with the
    same stream id is refused and goes; then the wait is cancelled while the callback runs, which
    answers. *)
Definition sample_unary : list Action :=
  net_begin_acts 0 "order-1" ++ [DoSignal (SCallback "m") 0; DoRequest Fine 0; DoRequest Fine 0]
  ++ net_begin_acts 1 "order-1" ++ replicate 7 (DoRequest Fine 1)
  ++ [DoResult "order-1" "m"] ++ replicate 4 (DoConsumer true 0).
Definition sample_answered : list Action :=
  sample_unary ++ [DoRequest Ends 0; DoSignal (SSend 7) 0; DoConsumer true 0; DoConsumer true 0; DoRequest Fine 0].
Definition sample_drained : list Action :=
  sample_answered ++ replicate 6 (DoRequest Fine 0) ++ [DoStop; DoStopStep false; DoStopStep false].
Definition sample_later : list Action := [DoStopStep false; DoArrive; DoRequest Fine 2].

Lemma net_lifetime_witness :
  exists q, requests (after Unary sample_unary) !! 0%nat = Some q /\ exclusive q = false /\ ends q = 0%nat /\
    pending_ (after Unary sample_unary) !! "order-1"%string = Some 0%nat.
Proof.
  destruct (net_lifetime Unary true (after Unary sample_unary)) as (_ & Hrun & _); [apply net_after_reachable; eexists; vm_compute; reflexivity|].
  destruct (Hrun 0%nat (mkConsumer (CRunning 0) "order-1" "m") 0%nat) as (q & Hq & Hx & He);
    [vm_compute; reflexivity|reflexivity|]. exists q. split_and!; done.
Defined.

Lemma net_outcome_exact_witness :
  exists q', requests (default (created Unary true) (request_step Fine 0 (after Unary sample_answered))) !! 0%nat = Some q' /\
    resultWaitFailed q' = true /\ response q' = Some 7%nat /\ error q' = None.
Proof.
  assert (Hr : reachable Unary true (after Unary sample_answered)) by (apply net_after_reachable; eexists; vm_compute; reflexivity).
  eexists. split; [vm_compute; reflexivity|]. do 2 (split; [reflexivity|]).
  destruct (net_outcome_exact Unary (after Unary sample_answered)
    (default (created Unary true) (request_step Fine 0 (after Unary sample_answered))) 0 _ _ Fine Hr
    ltac:(vm_compute; reflexivity) ltac:(vm_compute; reflexivity) ltac:(vm_compute; reflexivity) ltac:(vm_compute; reflexivity)) as [He _].
  exact He.
Defined.

Lemma net_stop_drains_witness :
  stopper (after Unary sample_drained) = SPending /\ pending_ (after Unary (sample_drained ++ sample_later)) = ∅.
Proof.
  assert (Hr : reachable Unary true (after Unary sample_drained)) by (apply net_after_reachable; eexists; vm_compute; reflexivity).
  assert (Hst : stopper (after Unary sample_drained) = SPending) by (vm_compute; reflexivity).
  assert (Hl : rtc step (after Unary sample_drained) (after Unary (sample_drained ++ sample_later)))
    by (apply (run_steps_net sample_later); vm_compute; reflexivity).
  split; [done|]. apply (net_stop_drains Unary true _ _ Hr (or_introl Hst) Hl).
Defined.

(** The HTTP endpoint clears the callbacks of a request and lets later ones be registered: one
    that refers to its own request keeps it for ever. *)
Definition sample_leak : list Action :=
  [DoArrive; DoRequest Fine 0; DoRequest Fine 0; DoRequest (Begins "order-1") 0; DoRequest Fine 0; DoRequest Throws 0]
  ++ replicate 6 (DoRequest Fine 0) ++ [DoSignal (SCallback "m") 0].
Theorem http_callback_leaks :
  exists s q, reachable Http true s /\ requests s !! 0%nat = Some q /\ rpc q = RReleased true /\ callbacks q = {["m"%string]}.
Proof.
  eexists (after Http sample_leak), _. split; [apply net_after_reachable; eexists; vm_compute; reflexivity|].
  split; [vm_compute; reflexivity|]. split; [reflexivity|]. vm_compute. reflexivity.
Qed.
