(* ===== verification/SinkSession.v ===== *)
(** * Streaming calls of the gRPC sinks

    [ClientStreamingEndpoint] and [BidirectionalStreamingEndpoint] of
    datasink/grpc/clientstreaming.hpp and bidistreaming.hpp.  Messages with one stream id share a
    call: the first reserves a cell in [pending_], begins the request and starts the call, the
    others wait for that, and a detached task ends it.  Every access to an atomic, to [pending_]
    and to a lock is a step; what the handler and the call do is chosen at each step.  The
    methods of the two classes are the same but for the task that ends the call.

    The lock of a session is exclusive or shared, and a message waits for it only while it is held
    exclusively: that a waiting writer of userver's SharedMutex holds back new readers, and that a
    handler may call [consume] again while it is being called, is not modelled. *)
From stdpp Require Import strings gmap.
From S2P Require Import Prelude Monitor.

Module Sessions.

(** ** Data *)
Inductive Mode := ClientStreaming | BidiStreaming.

(** How far the call of [consume] that made a cell has come.  [begun]: beginRequest had returned. *)
Inductive CPc := CBegin | CCall | CSession | CReady | CSpawn | CFail (begun : bool) | CFailReady (begun : bool)
  | CEnd | CDropGet | CDropPop | CMade | CFailed | CThrew.
(** The detached task: [complete] from [FWait], [readResponses] from [FRead], and the end both
    share from [FStore]; [locked]: it holds the lock of the session already. *)
Inductive FPc := FNone | FWait | FSeen | FFinish | FLock | FHandle | FRead | FRespond
  | FStore (locked : bool) | FAcquire | FEnd | FPop | FUnlock | FDone.

(** [SessionCell] with the [Session] it points to once [session] is set.  [sent]: the event of
    [done] was sent.  Ghosts: [begun], beginRequest returned; [handled], the responses that were
    handled; [ends], the calls of endRequest. *)
Record Cell := mkCell {
  cstream : string;
  ready : bool;
  session : bool;
  error : bool;
  doneSent : bool;
  sent : bool;
  finalizing : bool;
  cpc : CPc;
  fpc : FPc;
  failed : bool;
  begun : bool;
  handled : nat;
  ends : nat;
}.

(** A call of [consume], and one of [done] that was made elsewhere.  [held]: under the shared lock. *)
Inductive Outcome := Consumed | Dropped | Late | Threw.
Inductive KPc := KStart | KCreate | KWait | KCheck | KLock | KGet | KFin (current : bool) | KRun
  | KSignal (held : bool) | KSend (held : bool) | KDone (o : Outcome).
Record Consumer := mkConsumer {
  kstream : string;
  kcell : nat;
  kpc : KPc;
}.

Inductive SPc := SIdle | SCancel | SDone.
(** [closed]: the storage of detached tasks takes no more. *)
Record Endpoint := mkEndpoint {
  mode : Mode;
  cells : list Cell;
  consumers : list Consumer;
  pending_ : gmap string nat;
  closed : bool;
  stopper : SPc;
}.

(** Field updates. *)
Definition set_ready v c : Cell :=
  mkCell (cstream c) v (session c) (error c) (doneSent c) (sent c) (finalizing c) (cpc c)
    (fpc c) (failed c) (begun c) (handled c) (ends c).
Definition set_session v c : Cell :=
  mkCell (cstream c) (ready c) v (error c) (doneSent c) (sent c) (finalizing c) (cpc c) (fpc
    c) (failed c) (begun c) (handled c) (ends c).
Definition set_error v c : Cell :=
  mkCell (cstream c) (ready c) (session c) v (doneSent c) (sent c) (finalizing c) (cpc c)
    (fpc c) (failed c) (begun c) (handled c) (ends c).
Definition set_doneSent v c : Cell :=
  mkCell (cstream c) (ready c) (session c) (error c) v (sent c) (finalizing c) (cpc c) (fpc
    c) (failed c) (begun c) (handled c) (ends c).
Definition set_sent v c : Cell :=
  mkCell (cstream c) (ready c) (session c) (error c) (doneSent c) v (finalizing c) (cpc c)
    (fpc c) (failed c) (begun c) (handled c) (ends c).
Definition set_finalizing v c : Cell :=
  mkCell (cstream c) (ready c) (session c) (error c) (doneSent c) (sent c) v (cpc c) (fpc c)
    (failed c) (begun c) (handled c) (ends c).
Definition set_cpc v c : Cell :=
  mkCell (cstream c) (ready c) (session c) (error c) (doneSent c) (sent c) (finalizing c) v
    (fpc c) (failed c) (begun c) (handled c) (ends c).
Definition set_fpc v c : Cell :=
  mkCell (cstream c) (ready c) (session c) (error c) (doneSent c) (sent c) (finalizing c)
    (cpc c) v (failed c) (begun c) (handled c) (ends c).
Definition set_failed v c : Cell :=
  mkCell (cstream c) (ready c) (session c) (error c) (doneSent c) (sent c) (finalizing c)
    (cpc c) (fpc c) v (begun c) (handled c) (ends c).
Definition set_begun v c : Cell :=
  mkCell (cstream c) (ready c) (session c) (error c) (doneSent c) (sent c) (finalizing c)
    (cpc c) (fpc c) (failed c) v (handled c) (ends c).
Definition set_handled v c : Cell :=
  mkCell (cstream c) (ready c) (session c) (error c) (doneSent c) (sent c) (finalizing c)
    (cpc c) (fpc c) (failed c) (begun c) v (ends c).
Definition set_ends v c : Cell :=
  mkCell (cstream c) (ready c) (session c) (error c) (doneSent c) (sent c) (finalizing c)
    (cpc c) (fpc c) (failed c) (begun c) (handled c) v.
Definition set_kcell v k : Consumer :=
  mkConsumer (kstream k) v (kpc k).
Definition set_kpc v k : Consumer :=
  mkConsumer (kstream k) (kcell k) v.
Definition set_cells v s : Endpoint :=
  mkEndpoint (mode s) v (consumers s) (pending_ s) (closed s) (stopper s).
Definition set_consumers v s : Endpoint :=
  mkEndpoint (mode s) (cells s) v (pending_ s) (closed s) (stopper s).
Definition set_pending_ v s : Endpoint :=
  mkEndpoint (mode s) (cells s) (consumers s) v (closed s) (stopper s).
Definition set_closed v s : Endpoint :=
  mkEndpoint (mode s) (cells s) (consumers s) (pending_ s) v (stopper s).
Definition set_stopper v s : Endpoint :=
  mkEndpoint (mode s) (cells s) (consumers s) (pending_ s) (closed s) v.
Implicit Types (s : Endpoint) (c : Cell) (k : Consumer).

Definition created (m : Mode) : Endpoint := mkEndpoint m [] [] ∅ false SIdle.
Definition newCell (stream : string) : Cell :=
  mkCell stream false false false false false false CBegin FNone false false 0 0.
Definition cupd (i : nat) (f : Cell -> Cell) s : Endpoint := set_cells (alter f i (cells s)) s.
Definition kupd (j : nat) (f : Consumer -> Consumer) s : Endpoint := set_consumers (alter f j (consumers s)) s.

(** ** The lock of a session *)

(** The task that ends the call has it; a call of [consume] shares it. *)
Definition locked c : bool := match fpc c with FHandle | FStore true | FEnd | FPop | FUnlock => true | _ => false end.
Definition holding k : bool := match kpc k with KGet | KFin _ | KRun | KSignal true | KSend true => true | _ => false end.
Definition holds (i : nat) k : bool := (kcell k =? i)%nat && holding k.
Definition shared (i : nat) s : bool := existsb (holds i) (consumers s).

(** ** consume *)

(** What a user's function or a call does: [Stops] is the end of the stream, or an interrupted wait. *)
Inductive Choice := Fine | Throws | Stops.

Definition begins (m : Mode) : FPc := match m with ClientStreaming => FWait | BidiStreaming => FRead end.
(** The call that made the cell: beginRequest, the call, [markReady] and the detached task; or
    [dropReservation]. *)
Definition create_step (ch : Choice) (i : nat) s : option Endpoint :=
  match cells s !! i with
  | None => None
  | Some c =>
      let to pc f := Some (cupd i (fun c => c |> f |> set_cpc pc) s) in
      let go pc := to pc id in
      match cpc c with
      | CBegin => match ch with Throws => go (CFail false) | _ => to CCall (set_begun true) end
      | CCall => match ch with Throws => go (CFail true) | _ => go CSession end
      | CSession => to CReady (set_session true)
      | CReady => to CSpawn (set_ready true)
      | CSpawn => if closed s then go CThrew else match ch with Throws => go CThrew | _ => to CMade (set_fpc (begins (mode s))) end
      | CFail b => to (CFailReady b) (set_error true)
      | CFailReady b => to (if b then CEnd else CDropGet) (set_ready true)
      | CEnd => to CDropGet (fun c => set_ends (S (ends c)) c)
      | CDropGet => go (if bool_decide (pending_ s !! cstream c = Some i) then CDropPop else CFailed)
      | CDropPop => Some (s |> set_pending_ (delete (cstream c) (pending_ s)) |> cupd i (set_cpc CFailed))
      | CMade | CFailed | CThrew => None
      end
  end.

Definition consume (stream : string) s : Endpoint := set_consumers (consumers s ++ [mkConsumer stream 0 KStart]) s.
(** A call of [done] from outside [consume]. *)
Definition done (i : nat) s : option Endpoint :=
  c ← cells s !! i;
  if session c then Some (set_consumers (consumers s ++ [mkConsumer (cstream c) i (KSignal false)]) s) else None.

Definition consumer_step (ch : Choice) (j : nat) s : option Endpoint :=
  match consumers s !! j with
  | None => None
  | Some k =>
      let at_ pc := kupd j (set_kpc pc) in
      let go pc := Some (at_ pc s) in
      match kpc k with
      | KStart =>
          match pending_ s !! kstream k with
          | Some i => Some (kupd j (fun k => k |> set_kcell i |> set_kpc KWait) s)
          | None =>
              let i := length (cells s) in
              Some (s |> set_cells (cells s ++ [newCell (kstream k)]) |> set_pending_ (<[kstream k := i]> (pending_ s))
                      |> kupd j (fun k => k |> set_kcell i |> set_kpc KCreate))
          end
      | KDone _ => None
      | pc =>
          match cells s !! kcell k with
          | None => None
          | Some c =>
              match pc with
              | KCreate => match cpc c with CMade => go KCheck | CFailed => go (KDone Dropped) | CThrew => go (KDone Threw) | _ => None end
              | KWait => if ready c then go (if error c then KDone Dropped else KCheck) else None
              | KCheck => go (if finalizing c then KDone Late else KLock)
              | KLock => if locked c then None else go KGet
              | KGet => go (KFin (bool_decide (pending_ s !! kstream k = Some (kcell k))))
              | KFin current => go (if finalizing c || negb current then KDone Late else KRun)
              | KRun => match ch with Throws => go (KSignal true) | _ => go (KDone Consumed) end
              | KSignal held =>
                  if doneSent c then go (KDone Consumed) else Some (s |> cupd (kcell k) (set_doneSent true) |> at_ (KSend held))
              | KSend _ => Some (s |> cupd (kcell k) (set_sent true) |> at_ (KDone Consumed))
              | KStart | KDone _ => None
              end
          end
      end
  end.

(** ** The end of a call *)
(** [complete], up to the end. *)
Definition complete_step (ch : Choice) (i : nat) c s : option Endpoint :=
  let to pc f := Some (cupd i (fun c => c |> f |> set_fpc pc) s) in
  let go pc := to pc id in
  let fail pc := to pc (set_failed true) in
  match fpc c with
  | FWait => match ch with Stops => fail (FStore false) | _ => if sent c then go FSeen else None end
  | FSeen => to FFinish (set_finalizing true)
  | FFinish => match ch with Fine => go FLock | _ => fail (FStore false) end
  | FLock => if shared i s then None else go FHandle
  | FHandle => match ch with Fine => to (FStore true) (fun c => set_handled (S (handled c)) c) | _ => fail (FStore true) end
  | _ => None
  end.
(** The loop of [readResponses]. *)
Definition read_step (ch : Choice) (i : nat) c s : option Endpoint :=
  let to pc f := Some (cupd i (fun c => c |> f |> set_fpc pc) s) in
  let go pc := to pc id in
  let fail pc := to pc (set_failed true) in
  match fpc c with
  | FRead => match ch with Fine => go FRespond | Stops => go (FStore false) | Throws => fail (FStore false) end
  | FRespond => match ch with Fine => to FRead (fun c => set_handled (S (handled c)) c) | _ => fail (FStore false) end
  | _ => None
  end.
(** The end of both. *)
Definition end_step (i : nat) c s : option Endpoint :=
  let to pc f := Some (cupd i (fun c => c |> f |> set_fpc pc) s) in
  let go pc := to pc id in
  match fpc c with
  | FStore l => to (if l then FEnd else FAcquire) (set_finalizing true)
  | FAcquire => if shared i s then None else go FEnd
  | FEnd => to FPop (fun c => set_ends (S (ends c)) c)
  | FPop => Some (s |> set_pending_ (delete (cstream c) (pending_ s)) |> cupd i (set_fpc FUnlock))
  | FUnlock => go FDone
  | _ => None
  end.
Definition final_step (ch : Choice) (i : nat) s : option Endpoint :=
  match cells s !! i with
  | None => None
  | Some c =>
      match fpc c with
      | FNone | FDone => None
      | FWait | FSeen | FFinish | FLock | FHandle => complete_step ch i c s
      | FRead | FRespond => read_step ch i c s
      | _ => end_step i c s
      end
  end.

(** ** stop: cancel the detached tasks and wait for them *)
Definition over c : bool := match fpc c with FNone | FDone => true | _ => false end.
Definition stop_step s : option Endpoint :=
  match stopper s with
  | SIdle => Some (set_stopper SCancel s)
  | SCancel => if forallb over (cells s) then Some (s |> set_closed true |> set_stopper SDone) else None
  | SDone => None
  end.

(** ** Steps *)
Inductive Action :=
  | AConsume (stream : string) | ACreate (ch : Choice) (i : nat) | AConsumer (ch : Choice) (j : nat)
  | AFinal (ch : Choice) (i : nat) | ADone (i : nat) | AStop.
Definition act (a : Action) s : option Endpoint :=
  match a with
  | AConsume stream => Some (consume stream s)
  | ACreate ch i => create_step ch i s
  | AConsumer ch j => consumer_step ch j s
  | AFinal ch i => final_step ch i s
  | ADone i => done i s
  | AStop => stop_step s
  end.
Definition session_step s s' : Prop := exists a, act a s = Some s'.
Definition session_reachable (m : Mode) s : Prop := rtc session_step (created m) s.
Fixpoint run (acts : list Action) s : option Endpoint :=
  match acts with
  | [] => Some s
  | a :: acts => s ← act a s; run acts s
  end.
End Sessions.
