(* ===== verification/SinkSessionTheorems.v ===== *)
(** * What the streaming calls of the gRPC sinks promise

    There is one call for each stream id in use, messages reach it only while it is open, it
    ends once and after its last message, and nobody waits for ever on another message. *)
From Stdlib Require Import Lia.
From stdpp Require Import strings gmap.
From S2P Require Import Prelude Monitor SinkSession.
Import Sessions.
Implicit Types (s : Endpoint) (c : Cell) (k : Consumer).

(** ** The invariant *)

(** The cell is in [pending_]. *)
Definition live c : bool :=
  match cpc c with CFailed => false | _ => match fpc c with FUnlock | FDone => false | _ => true end end.
Definition has_session (pc : CPc) : bool := match pc with CReady | CSpawn | CMade | CThrew => true | _ => false end.
Definition is_ready (pc : CPc) : bool :=
  match pc with CSpawn | CMade | CThrew | CEnd | CDropGet | CDropPop | CFailed => true | _ => false end.
Definition has_error (pc : CPc) : bool :=
  match pc with CFailReady _ | CEnd | CDropGet | CDropPop | CFailed => true | _ => false end.
Definition ended c : bool :=
  match cpc c with
  | CDropGet | CDropPop | CFailed => begun c
  | _ => match fpc c with FPop | FUnlock | FDone => true | _ => false end
  end.

Record cell_ok (m : Mode) c : Prop := {
  ck_session : session c = has_session (cpc c);
  ck_ready : ready c = is_ready (cpc c);
  ck_error : error c = has_error (cpc c);
  ck_begun : match cpc c with
             | CBegin | CFail false | CFailReady false => begun c = false
             | CDropGet | CDropPop | CFailed => True
             | _ => begun c = true
             end;
  ck_ends : ends c = Nat.b2n (ended c);
  ck_final : fpc c = FNone <-> cpc c <> CMade;
  ck_finalizing : match fpc c with
                  | FNone | FWait | FSeen | FRead | FRespond | FStore false => True
                  | _ => finalizing c = true
                  end;
  ck_mode : match fpc c with
            | FWait | FSeen | FFinish | FLock | FHandle | FStore true => m = ClientStreaming
            | FRead | FRespond => m = BidiStreaming
            | _ => True
            end;
  ck_client : m = ClientStreaming ->
    match fpc c with
    | FStore true | FEnd | FPop | FUnlock | FDone => handled c = Nat.b2n (negb (failed c))
    | FStore false | FAcquire => handled c = 0 /\ failed c = true
    | _ => handled c = 0 /\ failed c = false
    end;
}.

(** A message that is past the wait; one that was found to be for the present call. *)
Definition joined k : bool := match kpc k with KStart | KCreate | KWait | KDone _ => false | _ => true end.
Definition running k : bool := match kpc k with KFin true | KRun | KSignal true | KSend true => true | _ => false end.
Record consumer_ok s k : Prop := {
  co_cell : kpc k <> KStart -> exists c, cells s !! kcell k = Some c /\ cstream c = kstream k;
  co_session c : cells s !! kcell k = Some c -> joined k = true -> session c = true;
  co_lock c : cells s !! kcell k = Some c -> holding k = true -> locked c = false;
  co_live c : cells s !! kcell k = Some c -> running k = true -> live c = true;
}.

Record inv s : Prop := {
  inv_cell i c : cells s !! i = Some c -> cell_ok (mode s) c;
  inv_pending st i : pending_ s !! st = Some i <-> exists c, cells s !! i = Some c /\ cstream c = st /\ live c = true;
  inv_consumer j k : consumers s !! j = Some k -> consumer_ok s k;
  inv_closed i c : closed s = true -> cells s !! i = Some c -> over c = true;
}.

Lemma shared_spec i s : shared i s = true <-> exists j k, consumers s !! j = Some k /\ kcell k = i /\ holding k = true.
Proof.
  unfold shared. rewrite existsb_exists. split.
  - intros (k & (j & Hj)%list_elem_of_In%list_elem_of_lookup & Hh). unfold holds in Hh.
    apply andb_prop in Hh as [?%Nat.eqb_eq ?]. eauto.
  - intros (j & k & Hj & Hi & Hh). exists k. split; [by apply list_elem_of_In; eapply list_elem_of_lookup_2|].
    unfold holds. by rewrite Hi, Nat.eqb_refl.
Qed.
Lemma running_holds k : running k = true -> holding k = true.
Proof. unfold running, holding. by destruct (kpc k) as [| | | | | |[]| |[]|[]|]. Qed.
Lemma holding_joined k : holding k = true -> joined k = true.
Proof. unfold holding, joined. by destruct (kpc k). Qed.

(** ** Moves *)

(** What a step of a cell may do. *)
Record cell_move s s' (i : nat) c c' : Prop := {
  cm_stream : cstream c' = cstream c;
  cm_ok : cell_ok (mode s) c';
  cm_session : session c = true -> session c' = true;
  cm_lock : locked c' = true -> locked c = true \/ shared i s = false;
  cm_over : closed s = true -> over c = true -> over c' = true;
  cm_pending : (pending_ s' = pending_ s /\ live c' = live c) \/
    (pending_ s' = delete (cstream c) (pending_ s) /\ live c = true /\ live c' = false /\ (locked c = true \/ session c = false));
}.
Lemma cell_moves s s' i c f :
  inv s -> cells s !! i = Some c -> cells s' = alter f i (cells s) -> consumers s' = consumers s -> mode s' = mode s ->
  closed s' = closed s -> cell_move s s' i c (f c) -> inv s'.
Proof.
  intros Hi Hc Hcs Hks Hm Hcl [Hstr Hok Hses Hlock Hover Hpend].
  assert (Hlk : forall j, cells s' !! j = if decide (i = j) then Some (f c) else cells s !! j).
  { intros j. rewrite Hcs. by apply lookup_alter_req. }
  split.
  - intros j c'. rewrite Hlk, Hm. destruct (decide (i = j)); [by intros [= <-]|apply (inv_cell _ Hi)].
  - intros st j. rewrite Hlk. destruct Hpend as [[-> Hl]|(-> & Hl & Hl' & _)].
    + rewrite (inv_pending _ Hi). destruct (decide (i = j)) as [<-|]; [|done].
      split; intros (c' & Hc' & <- & Hlv); [rewrite Hc in Hc'|]; injection Hc' as <-; [exists (f c)|exists c]; repeat split; congruence.
    + destruct (decide (st = cstream c)) as [->|Hne].
      * rewrite lookup_delete_eq. split; [done|]. intros (c' & Hc' & He & Hlv). destruct (decide (i = j)) as [<-|Hij].
        -- injection Hc' as <-. congruence.
        -- assert (Hp : pending_ s !! cstream c = Some i) by (apply (inv_pending _ Hi); eauto).
           assert (Hp' : pending_ s !! cstream c = Some j) by (apply (inv_pending _ Hi); eauto). congruence.
      * rewrite lookup_delete_ne by done. rewrite (inv_pending _ Hi). destruct (decide (i = j)) as [<-|]; [|done].
        split; intros (c' & Hc' & <- & Hlv); [rewrite Hc in Hc'|]; injection Hc' as <-; [done|congruence].
  - rewrite Hks. intros j k Hk. destruct (inv_consumer _ Hi _ _ Hk) as [C1 C2 C3 C4]. split; intros *; rewrite Hlk.
    + intros Hne. destruct (C1 Hne) as (c' & Hc' & He). destruct (decide (i = kcell k)) as [Hik|]; [|eauto].
      rewrite <- Hik, Hc in Hc'. injection Hc' as <-. exists (f c). by rewrite Hstr.
    + destruct (decide (i = kcell k)) as [He|]; [|apply C2]. intros [= <-] Hj. rewrite He in Hc. by apply Hses, C2.
    + destruct (decide (i = kcell k)) as [He|]; [|apply C3]. intros [= <-] Hh. rewrite He in Hc. pose proof (C3 _ Hc Hh) as Hf.
      destruct (locked (f c)) eqn:Hl; [|done]. destruct (Hlock eq_refl) as [|Hs]; [congruence|].
      rewrite (proj2 (shared_spec i s)) in Hs; [done|by exists j, k].
    + destruct (decide (i = kcell k)) as [He|]; [|apply C4]. intros [= <-] Hr. rewrite He in Hc. pose proof (C4 _ Hc Hr) as Hl.
      destruct Hpend as [[_ ->]|(_ & _ & _ & [Hlk'|Hns])]; [done| |].
      * rewrite (C3 _ Hc) in Hlk'; [done|by apply running_holds].
      * rewrite (C2 _ Hc) in Hns; [done|by apply holding_joined, running_holds].
  - rewrite Hcl. intros j c' Ho. rewrite Hlk. destruct (decide (i = j)); [|by apply (inv_closed _ Hi)].
    intros [= <-]. apply Hover; [done|]. by apply (inv_closed _ Hi i).
Qed.

Lemma consumer_moves s s' j k g :
  inv s -> consumers s !! j = Some k -> cells s' = cells s -> consumers s' = alter g j (consumers s) -> mode s' = mode s ->
  closed s' = closed s -> pending_ s' = pending_ s -> consumer_ok s (g k) -> inv s'.
Proof.
  intros Hi Hk Hcs Hks Hm Hcl Hp Hok. split; rewrite ?Hcs, ?Hm, ?Hp, ?Hcl; [apply (inv_cell _ Hi)|apply (inv_pending _ Hi)| |apply (inv_closed _ Hi)].
  intros j' k' Hk'. rewrite Hks, (lookup_alter_req _ _ _ _ _ Hk) in Hk'.
  assert (Ho : consumer_ok s k') by (destruct (decide (j = j')); [injection Hk' as <-; done|by apply (inv_consumer _ Hi j')]).
  destruct Ho. split; rewrite ?Hcs; auto.
Qed.

(** ** Steps *)
Ltac by_cell c :=
  unfold ended, live, locked, over, id in *; destruct c; cbn in *; subst; cbn in *; simplify_eq; try done; try (by auto).
Ltac move_cell c :=
  repeat case_match; simplify_eq; intros [= <-];
  match goal with Hi : inv ?s, Hc : cells ?s !! ?i = Some c |- _ => (eapply (cell_moves s _ i c); [exact Hi|exact Hc|reflexivity..|]) end;
  (split; [done|split|..]); try (by_cell c; fail); try (by left; by_cell c); try congruence.

Lemma create_ok s ch i s' : inv s -> create_step ch i s = Some s' -> inv s'.
Proof.
  intros Hi. unfold create_step. destruct (cells s !! i) as [c|] eqn:Hc; [|done].
  destruct (inv_cell _ Hi _ _ Hc) as [O1 O2 O3 O4 O5 O6 O7 O8 O9].
  assert (Hp : live c = true -> pending_ s !! cstream c = Some i) by (intros; apply (inv_pending _ Hi); eauto).
  assert (Hf : cpc c <> CMade -> fpc c = FNone) by (apply O6).
  destruct (cpc c) eqn:E; try done; specialize (Hf ltac:(done)); rewrite Hf in O9; simpl in O9;
    unfold live in Hp; rewrite E, Hf in Hp; simpl in Hp; specialize (Hp eq_refl); destruct (mode s) eqn:Hm; rewrite ?Hp;
    try rewrite (bool_decide_true (Some i = Some i)) by done; unfold begins; move_cell c; try congruence.
  all: right; split_and!; [done|by_cell c..|right; by_cell c].
Qed.

Lemma final_ok s ch i s' : inv s -> final_step ch i s = Some s' -> inv s'.
Proof.
  intros Hi. unfold final_step, complete_step, read_step, end_step. destruct (cells s !! i) as [c|] eqn:Hc; [|done].
  destruct (inv_cell _ Hi _ _ Hc) as [O1 O2 O3 O4 O5 O6 O7 O8 O9].
  assert (Hm : fpc c <> FNone -> cpc c = CMade) by (intros Hn; destruct (cpc c); tauto || (destruct Hn; by apply O6)).
  assert (Ho : over c = false -> closed s = true -> False). { intros Ho Hcl. pose proof (inv_closed _ Hi _ _ Hcl Hc). congruence. }
  destruct (fpc c) eqn:E; try done; specialize (Hm ltac:(done)); rewrite Hm in *; move_cell c;
    try (intros Hcl; destruct (O9 Hcl) as [Hh Hfl]; by_cell c; fail).
  all: right; split_and!; [done|by_cell c..|left; by_cell c].
Qed.

Lemma reserve_cell_ok s st :
  inv s -> pending_ s !! st = None ->
  inv (s |> set_cells (cells s ++ [newCell st]) |> set_pending_ (<[st := length (cells s)]> (pending_ s))).
Proof.
  intros Hi Hn.
  assert (Hlk : forall i c, (cells s ++ [newCell st]) !! i = Some c ->
    cells s !! i = Some c \/ (i = length (cells s) /\ c = newCell st)).
  { intros i c [?|[? Hl]]%lookup_app_Some; [by left|right]. apply list_lookup_singleton_Some in Hl as [? <-]. split; [lia|done]. }
  assert (Hold : forall i c, cells s !! i = Some c -> (cells s ++ [newCell st]) !! i = Some c) by (intros; by apply lookup_app_l_Some).
  assert (Hlast : (cells s ++ [newCell st]) !! length (cells s) = Some (newCell st)) by by apply list_lookup_middle.
  split; simpl.
  - intros i c [Hc|[_ ->]]%Hlk; [by apply (inv_cell _ Hi i)|]. by split.
  - intros st' i. destruct (decide (st' = st)) as [->|Hne].
    + rewrite lookup_insert_eq. split; [intros [= <-]; by exists (newCell st)|].
      intros (c & [Hc|[-> _]]%Hlk & He & Hl); [|done].
      assert (Hp : pending_ s !! st = Some i) by (apply (inv_pending _ Hi); eauto). congruence.
    + rewrite lookup_insert_ne, (inv_pending _ Hi) by done. split; intros (c & Hc & He & Hl); [exists c; auto|].
      apply Hlk in Hc as [Hc|[_ ->]]; [eauto|done].
  - intros j k Hk. destruct (inv_consumer _ Hi _ _ Hk) as [C1 C2 C3 C4].
    assert (Hc : forall c, kpc k <> KStart -> (cells s ++ [newCell st]) !! kcell k = Some c -> cells s !! kcell k = Some c).
    { intros c Hne Hc. destruct (C1 Hne) as (c' & Hc' & _). by rewrite (Hold _ _ Hc') in Hc; injection Hc as <-. }
    split; simpl.
    + intros Hne. destruct (C1 Hne) as (c & ? & ?). exists c. auto.
    + intros c Hcc Hj. apply (C2 c); [apply Hc; [|done]|done]. intros E. unfold joined in Hj. by rewrite E in Hj.
    + intros c Hcc Hj. apply (C3 c); [apply Hc; [|done]|done]. intros E. unfold holding in Hj. by rewrite E in Hj.
    + intros c Hcc Hj. apply (C4 c); [apply Hc; [|done]|done]. intros E. unfold running in Hj. by rewrite E in Hj.
  - intros i c Ho [Hc|[_ ->]]%Hlk; [by apply (inv_closed _ Hi i)|done].
Qed.

Lemma arrive_ok s k : inv s -> consumer_ok s k -> inv (set_consumers (consumers s ++ [k]) s).
Proof.
  intros Hi Hok. destruct Hi as [I1 I2 I3 I4]. split; simpl; try done.
  intros j k' [Hk|[_ Hl]]%lookup_app_Some; [by destruct (I3 _ _ Hk); split|].
  apply list_lookup_singleton_Some in Hl as [_ <-]. by destruct Hok; split.
Qed.

(** Flags of a cell that the invariant does not look at. *)
Lemma flag_ok s i c f : inv s -> cells s !! i = Some c -> (f = set_doneSent true \/ f = set_sent true) -> inv (cupd i f s).
Proof.
  intros Hi Hc Hf. destruct (inv_cell _ Hi _ _ Hc). apply (cell_moves s _ i c f); try done.
  destruct Hf as [->| ->]; (split; [done|by split|done|auto|done|by left]).
Qed.

Lemma consumer_step_ok s ch j s' : inv s -> consumer_step ch j s = Some s' -> inv s'.
Proof.
  intros Hi. unfold consumer_step. destruct (consumers s !! j) as [k|] eqn:Hk; [|done].
  destruct (inv_consumer _ Hi _ _ Hk) as [C1 C2 C3 C4].
  assert (kpc k = KStart \/ kpc k <> KStart) as [E|E] by (destruct (kpc k); auto; by right).
  { rewrite E. destruct (pending_ s !! kstream k) as [i|] eqn:Hp; intros [= <-].
    - apply (inv_pending _ Hi) in Hp as (c & Hc & He & _).
      eapply (consumer_moves s _ j k); try done. split; simpl; eauto; done.
    - eapply (consumer_moves _ _ j k); [by apply (reserve_cell_ok s (kstream k))|done..|].
      split; simpl; try done. intros _. exists (newCell (kstream k)). split; [by apply list_lookup_middle|done]. }
  destruct (C1 E) as (c & Hc & He). rewrite Hc. specialize (C2 _ Hc). specialize (C3 _ Hc). specialize (C4 _ Hc).
  destruct (inv_cell _ Hi _ _ Hc) as [O1 O2 O3 _ _ _ _ _ _].
  assert (Hmove : forall pc, pc <> KStart -> (joined (set_kpc pc k) = true -> session c = true) ->
    (holding (set_kpc pc k) = true -> locked c = false) -> (running (set_kpc pc k) = true -> live c = true) ->
    inv (kupd j (set_kpc pc) s)).
  { intros pc Hpc H2 H3 H4. eapply (consumer_moves s _ j k); try done.
    split; simpl; [by eauto|intros c' Hc'; rewrite Hc in Hc'; injection Hc' as <-; done..]. }
  assert (Hflag : forall pc f, pc <> KStart -> (f = set_doneSent true \/ f = set_sent true) ->
    (joined (set_kpc pc k) = true -> session c = true) -> (holding (set_kpc pc k) = true -> locked c = false) ->
    (running (set_kpc pc k) = true -> live c = true) -> inv (s |> cupd (kcell k) f |> kupd j (set_kpc pc))).
  { intros pc f Hpc Hf H2 H3 H4. eapply (consumer_moves _ _ j k); [by apply (flag_ok s (kcell k) c f)|done..|].
    assert (Hc' : cells (cupd (kcell k) f s) !! kcell k = Some (f c)) by (simpl; by rewrite list_lookup_alter_eq, Hc).
    split; simpl in *; rewrite Hc'; [intros _; exists (f c); by destruct Hf as [->| ->]|intros ? [= <-]; destruct Hf as [->| ->]; done..]. }
  unfold joined, holding, running in C2, C3, C4. destruct (kpc k) eqn:E'; try done; repeat case_match; intros [= <-]; try (apply Hmove; done);
    try (apply Hflag; auto; done).
  - apply Hmove; try done. intros _. rewrite O1. by destruct (cpc c).
  - apply Hmove; try done. unfold running, set_kpc. simpl. case_bool_decide as Hp; [|done]. intros _.
    apply (inv_pending _ Hi) in Hp as (c' & Hc' & _ & Hl). congruence.
  - apply Hmove; try done; destruct current; auto; by destruct (finalizing c).
Qed.

Lemma session_act_ok s a s' : inv s -> act a s = Some s' -> inv s'.
Proof.
  intros Hi. destruct a as [st|ch i|ch j|ch i|i|]; simpl.
  - intros [= <-]. by apply arrive_ok; [|split].
  - by apply create_ok.
  - by apply consumer_step_ok.
  - by apply final_ok.
  - unfold done. destruct (cells s !! i) as [c|] eqn:Hc; [simpl|done]. destruct (session c) eqn:Hs; [|done]. intros [= <-].
    apply arrive_ok; [done|]. split; simpl; try done; [eauto|]. intros c' Hc' _. congruence.
  - unfold stop_step. destruct Hi as [I1 I2 I3 I4].
    assert (Hk : forall f, cells (f s) = cells s -> (forall k, consumer_ok s k -> consumer_ok (f s) k)).
    { intros f Hf k [C1 C2 C3 C4]. by split; rewrite ?Hf. }
    destruct (stopper s) eqn:E; try done; repeat case_match; intros [= <-]; split; simpl; eauto.
    + intros j k Hj. apply (Hk (fun s => s |> set_closed true |> set_stopper SDone)); eauto.
    + intros i c _ Hc. eapply forallb_forall; [done|]. apply list_elem_of_In. by eapply list_elem_of_lookup_2.
Qed.
Lemma session_ok m s : session_reachable m s -> inv s.
Proof.
  unfold session_reachable. assert (H0 : inv (created m)).
  { split; simpl; try done. intros st i. rewrite lookup_empty. split; [done|by intros (? & ? & _)]. }
  intros Hr. revert H0. induction Hr as [|s1 s2 s3 [a Ha] _ IH]; [done|]. intros Hi. apply IH. by eapply session_act_ok.
Qed.


(** ** The statements *)

(** C39. Two calls that are open have different stream ids.  A message is consumed only by the call
    of its stream id, while that is complete, registered and not yet ended; neither
    endRequest nor, for a client stream, handleResponse runs beside consumeMessage.  endRequest
    is called at most once, only after beginRequest returned, and by the time the task of a
    call or the cleanup of a failed one is over it was. *)
Theorem session_exact m s :
  session_reachable m s ->
  (forall i j c d, cells s !! i = Some c -> cells s !! j = Some d -> live c = true -> live d = true -> cstream c = cstream d -> i = j) /\
  (forall j k, consumers s !! j = Some k -> kpc k = KRun -> exists c,
     cells s !! kcell k = Some c /\ cstream c = kstream k /\ session c = true /\ begun c = true /\ ends c = 0 /\
     pending_ s !! kstream k = Some (kcell k) /\ fpc c <> FEnd /\ fpc c <> FHandle) /\
  (forall i c, cells s !! i = Some c -> ends c <= 1 /\ (ends c = 1 -> begun c = true) /\
     (fpc c = FDone \/ (cpc c = CFailed /\ begun c = true) -> ends c = 1)).
Proof.
  intros Hi%session_ok. split_and!.
  - intros i j c d Hc Hd Lc Ld He. assert (Hp : pending_ s !! cstream c = Some i) by (apply (inv_pending _ Hi); eauto).
    assert (Hp' : pending_ s !! cstream c = Some j) by (apply (inv_pending _ Hi); eauto). congruence.
  - intros j k Hk E. destruct (inv_consumer _ Hi _ _ Hk) as [C1 C2 C3 C4].
    destruct (C1 ltac:(congruence)) as (c & Hc & He). exists c. unfold joined, holding, running in *. rewrite E in *.
    specialize (C2 _ Hc eq_refl). specialize (C3 _ Hc eq_refl). specialize (C4 _ Hc eq_refl).
    destruct (inv_cell _ Hi _ _ Hc) as [O1 _ _ O4 O5 _ _ _ _]. rewrite C2 in O1. split_and!; try done.
    + by destruct (cpc c).
    + rewrite O5. unfold ended, locked, live in *. destruct (cpc c); try done; by destruct (fpc c).
    + apply (inv_pending _ Hi). eauto.
    + intros Hf. unfold locked in C3. by rewrite Hf in C3.
    + intros Hf. unfold locked in C3. by rewrite Hf in C3.
  - intros i c Hc. destruct (inv_cell _ Hi _ _ Hc) as [_ _ _ O4 O5 O6 _ _ _]. rewrite O5.
    assert (Hm : fpc c <> FNone -> cpc c = CMade) by (intros Hn; destruct (cpc c); tauto || (destruct Hn; by apply O6)).
    split_and!; [by destruct (ended c); simpl; lia| |].
    + unfold ended. intros He. assert (Hn : cpc c <> CMade -> fpc c = FNone) by (apply O6).
      destruct (cpc c); try done; try (by rewrite (Hn ltac:(done)) in He); by destruct (begun c).
    + unfold ended. intros [Hf|[-> ->]]; [|done]. by rewrite (Hm ltac:(congruence)), Hf.
Qed.

(** A client stream reports no error exactly when it handled its response. *)
Lemma client_outcome m s i c :
  session_reachable m s -> mode s = ClientStreaming -> cells s !! i = Some c -> fpc c = FEnd ->
  (failed c = false <-> handled c = 1).
Proof.
  intros Hi%session_ok Hm Hc Hf. pose proof (ck_client _ _ (inv_cell _ Hi _ _ Hc) Hm) as Hk. rewrite Hf in Hk.
  rewrite Hk. by destruct (failed c).
Qed.

(** C40. Nothing waits for ever on something else: a call of consume that cannot go on waits for the
    creation of its call or for the task that ends it, which have a step; that task, when it
    cannot go on, waits for done, or for a message under its lock, which has a step. *)
Theorem session_progress m s :
  session_reachable m s ->
  (forall j k, consumers s !! j = Some k -> (forall o, kpc k <> KDone o) ->
     exists a s', act a s = Some s' /\ (a = AConsumer Fine j \/ a = ACreate Fine (kcell k) \/ a = AFinal Fine (kcell k))) /\
  (forall i c, cells s !! i = Some c -> over c = false -> ~ (fpc c = FWait /\ sent c = false) ->
     exists a s', act a s = Some s' /\
       (a = AFinal Fine i \/ exists j k, consumers s !! j = Some k /\ kcell k = i /\ holding k = true /\ a = AConsumer Fine j)).
Proof.
  intros Hi%session_ok.
  assert (Hstep : forall j k c, consumers s !! j = Some k -> cells s !! kcell k = Some c -> kpc k <> KStart ->
    holding k = true \/ kpc k = KCheck \/ kpc k = KSignal false \/ kpc k = KSend false -> exists s', act (AConsumer Fine j) s = Some s').
  { intros j k c Hk Hc Hns Hh. simpl. unfold consumer_step, holding in *. rewrite Hk, Hc.
    destruct (kpc k); try (by destruct Hh as [|[|[|]]]); repeat case_match; eauto. }
  split.
  - intros j k Hk Hnd. destruct (inv_consumer _ Hi _ _ Hk) as [C1 _ _ _].
    assert (kpc k = KStart \/ kpc k <> KStart) as [E|E] by (destruct (kpc k); auto; by right).
    { exists (AConsumer Fine j). simpl. unfold consumer_step. rewrite Hk, E. destruct (pending_ s !! kstream k); eauto. }
    destruct (C1 E) as (c & Hc & _). destruct (inv_cell _ Hi _ _ Hc) as [_ O2 _ _ _ _ _ _ _].
    assert (Hcreate : is_ready (cpc c) = false -> exists s', act (ACreate Fine (kcell k)) s = Some s').
    { intros Hr. simpl. unfold create_step. rewrite Hc. destruct (cpc c); try done; eauto. }
    destruct (kpc k) eqn:Ek; try done; try (destruct (Hstep _ _ _ Hk Hc) as [s' ?]; [congruence|unfold holding; rewrite Ek; tauto|by eauto 10]).
    + destruct (cpc c) eqn:Ec; try (destruct (Hcreate eq_refl) as [s' ?]; by eauto 10).
      all: try (exists (AConsumer Fine j); simpl; unfold consumer_step; rewrite Hk, Ek, Hc, Ec; by eauto).
      all: exists (ACreate Fine (kcell k)); simpl; unfold create_step; rewrite Hc, Ec; repeat case_match; eauto.
    + destruct (ready c) eqn:Hr; [|destruct (Hcreate ltac:(congruence)) as [s' ?]; by eauto 10].
      exists (AConsumer Fine j). simpl. unfold consumer_step. rewrite Hk, Ek, Hc, Hr. destruct (error c); eauto.
    + destruct (locked c) eqn:Hl.
      * exists (AFinal Fine (kcell k)). simpl. unfold final_step, complete_step, read_step, end_step, locked in *. rewrite Hc. destruct (fpc c); try done; eauto.
      * exists (AConsumer Fine j). simpl. unfold consumer_step. rewrite Hk, Ek, Hc, Hl. eauto.
    + destruct held; (destruct (Hstep _ _ _ Hk Hc) as [s' ?]; [congruence|unfold holding; rewrite Ek; tauto|by eauto 10]).
    + destruct held; (destruct (Hstep _ _ _ Hk Hc) as [s' ?]; [congruence|unfold holding; rewrite Ek; tauto|by eauto 10]).
    + by destruct (Hnd o).
  - intros i c Hc Ho Hw.
    assert (Hsh : shared i s = true -> exists a s', act a s = Some s' /\
      (a = AFinal Fine i \/ exists j k, consumers s !! j = Some k /\ kcell k = i /\ holding k = true /\ a = AConsumer Fine j)).
    { intros (j & k & Hk & <- & Hh)%shared_spec. destruct (Hstep j k c Hk Hc) as [s' Hs']; [|by left|by eauto 10].
      intros E. unfold holding in Hh. by rewrite E in Hh. }
    destruct (shared i s) eqn:Es; [by apply Hsh|]. exists (AFinal Fine i). simpl. unfold final_step, complete_step, read_step, end_step, over in *. rewrite Hc, Es.
    destruct (fpc c); try done; eauto. destruct (sent c); [eauto|]. destruct Hw. done.
Qed.

(** Once stop has joined the tasks, every call whose task was started has ended and is not
    registered. *)
Lemma session_stop_ends m s i c :
  session_reachable m s -> closed s = true -> cells s !! i = Some c -> cpc c = CMade ->
  ends c = 1 /\ pending_ s !! cstream c <> Some i.
Proof.
  intros Hi%session_ok Hcl Hc Hm. destruct (inv_cell _ Hi _ _ Hc) as [_ _ _ _ O5 O6 _ _ _].
  pose proof (inv_closed _ Hi _ _ Hcl Hc) as Ho. unfold over in Ho. assert (Hf : fpc c = FDone) by (destruct (fpc c); tauto || done).
  split; [rewrite O5; unfold ended; by rewrite Hm, Hf|]. intros (c' & Hc' & _ & Hl)%(inv_pending _ Hi).
  rewrite Hc in Hc'. injection Hc' as <-. unfold live in Hl. by rewrite Hm, Hf in Hl.
Qed.

(** A call whose task cannot be started stays registered, and is never ended. *)
Lemma session_leaks m s s' i c :
  session_reachable m s -> rtc session_step s s' -> cells s !! i = Some c -> cpc c = CThrew ->
  exists c', cells s' !! i = Some c' /\ cpc c' = CThrew /\ ends c' = 0 /\ pending_ s' !! cstream c' = Some i.
Proof.
  intros Hr Hs. revert c Hr. induction Hs as [s|s s1 s2 [a Ha] _ IH]; intros c Hr Hc Ht.
  - apply session_ok in Hr as Hi. destruct (inv_cell _ Hi _ _ Hc) as [_ _ _ _ O5 O6 _ _ _].
    assert (Hf : fpc c = FNone) by (apply O6; congruence). exists c. split_and!; try done.
    + rewrite O5. unfold ended. by rewrite Ht, Hf.
    + apply (inv_pending _ Hi). exists c. unfold live. by rewrite Ht, Hf.
  - apply session_ok in Hr as Hi. destruct (inv_cell _ Hi _ _ Hc) as [_ _ _ _ _ O6 _ _ _].
    assert (Hf : fpc c = FNone) by (apply O6; congruence).
    assert (Hk : exists c1, cells s1 !! i = Some c1 /\ cpc c1 = CThrew).
    { clear IH. assert (Hcupd : forall i' f, (forall d, cpc (f d) = cpc d) -> exists c1, alter f i' (cells s) !! i = Some c1 /\ cpc c1 = CThrew).
      { intros i' f Hfd. destruct (decide (i' = i)) as [->|]; [rewrite list_lookup_alter_eq, Hc; eexists; split; [done|]; by rewrite Hfd|].
        rewrite list_lookup_alter_ne by done. eauto. }
      assert (Hne : forall i' f, i' <> i -> exists c1, alter f i' (cells s) !! i = Some c1 /\ cpc c1 = CThrew).
      { intros i' f Hn. rewrite list_lookup_alter_ne by done. eauto. }
      destruct a as [st|ch i'|ch j|ch i'|i'|]; simpl in Ha.
      - injection Ha as <-. simpl. eauto.
      - destruct (decide (i' = i)) as [->|Hn]; unfold create_step in Ha; [by rewrite Hc, Ht in Ha|].
        repeat case_match; simplify_eq; simpl; eauto.
      - unfold consumer_step in Ha. repeat case_match; simplify_eq; simpl; eauto.
        eexists. split; [by apply lookup_app_l_Some|done].
      - destruct (decide (i' = i)) as [->|Hn]; unfold final_step, complete_step, read_step, end_step in Ha; [by rewrite Hc, Hf in Ha|].
        repeat case_match; simplify_eq; simpl; eauto.
      - unfold done in Ha. destruct (cells s !! i'); [simpl in Ha|done]. case_match; simplify_eq. simpl. eauto.
      - unfold stop_step in Ha. repeat case_match; simplify_eq; simpl; eauto. }
    destruct Hk as (c1 & Hc1 & Ht1). apply (IH c1); try done. eapply rtc_r; [exact Hr|]. by exists a.
Qed.

(** ** A run *)
Lemma session_run_reachable acts m s s' : session_reachable m s -> run acts s = Some s' -> session_reachable m s'.
Proof.
  revert s. induction acts as [|a acts IH]; intros s Hs E; [by injection E as <-|].
  cbn [run] in E. apply bind_Some in E as (s1 & E1 & E). apply (IH s1); [|done]. eapply rtc_r; [exact Hs|]. by exists a.
Qed.
Definition after_calls (acts : list Action) : Endpoint :=
  default (created ClientStreaming) (run acts (created ClientStreaming)).
Lemma after_calls_reachable acts :
  is_Some (run acts (created ClientStreaming)) -> session_reachable ClientStreaming (after_calls acts).
Proof. intros [s E]. unfold after_calls. rewrite E. exact (session_run_reachable acts _ _ _ (rtc_refl _ _) E). Qed.

(** A message opens a call and is consumed; a second one joins it. *)
Definition sample_open : list Action :=
  [AConsume "order-1"; AConsumer Fine 0] ++ replicate 5 (ACreate Fine 0) ++ replicate 5 (AConsumer Fine 0)
  ++ [AConsume "order-1"] ++ replicate 6 (AConsumer Fine 1).
(** [done] is called and the response comes; its handling waits for both messages. *)
Definition sample_answered : list Action :=
  sample_open ++ [ADone 0; AConsumer Fine 2; AConsumer Fine 2; AFinal Fine 0; AFinal Fine 0; AFinal Fine 0].

Lemma session_exact_witness : exists k c, consumers (after_calls sample_open) !! 1 = Some k /\
  cells (after_calls sample_open) !! kcell k = Some c /\ cstream c = "order-1"%string /\ ends c = 0.
Proof.
  destruct (session_exact ClientStreaming (after_calls sample_open)) as (_ & Hrun & _);
    [apply after_calls_reachable; eexists; vm_compute; reflexivity|].
  destruct (Hrun 1 (mkConsumer "order-1" 0 KRun) ltac:(vm_compute; reflexivity) eq_refl) as (c & Hc & He & _ & _ & H0 & _).
  exists (mkConsumer "order-1" 0 KRun), c. split_and!; [vm_compute; reflexivity|done..].
Defined.

Lemma session_progress_witness : exists a s', act a (after_calls sample_answered) = Some s' /\ act (AFinal Fine 0) (after_calls sample_answered) = None.
Proof.
  destruct (session_progress ClientStreaming (after_calls sample_answered)) as [_ Hfin];
    [apply after_calls_reachable; eexists; vm_compute; reflexivity|].
  destruct (Hfin 0 (mkCell "order-1" true true false true true true CMade FLock false true 0 0) ltac:(vm_compute; reflexivity) ltac:(vm_compute; reflexivity))
    as (a & s' & Ha & _); [intros [E _]; vm_compute in E; discriminate|].
  exists a, s'. split; [exact Ha|vm_compute; reflexivity].
Defined.
