(* ===== verification/Schedule.v ===== *)
(** * Schedules: intervals, cron expressions and the identity of a trigger

    Module [Interval]: datasource/cron/local_interval.hpp, the parser of [@every Nms] and
    the interval itself, over [system_clock] time points as 64-bit nanoseconds.  Module
    [Cron]: [ToLibcronExpression] of src/datasource/cron/libcron.cpp.  Module [Trigger]:
    runtime/schedule.hpp, the timestamps and the string that identifies a trigger.  Strings
    are lists of characters. *)
From Stdlib Require Import Lia Ascii String.
From S2P Require Import Prelude.
Local Open Scope Z_scope.

Definition chars (s : string) : list ascii := list_ascii_of_string s.
Definition code (c : ascii) : Z := Z.of_nat (nat_of_ascii c).
Definition is_digit (c : ascii) : bool := (48 <=? code c) && (code c <=? 57).
Definition digit (d : Z) : ascii := ascii_of_nat (Z.to_nat (48 + d)).
(** The number a string of digits denotes, read from the left. *)
Definition read_digits (l : list ascii) : Z := foldl (fun v c => v * 10 + (code c - 48)) 0 l.

(** ** Printing of numbers *)
Fixpoint print_digits (fuel : nat) (n : Z) (acc : list ascii) : list ascii :=
  match fuel with
  | O => acc
  | S fuel =>
      let acc := digit (n mod 10) :: acc in
      if n <? 10 then acc else print_digits fuel (n / 10) acc
  end.
(** [std::to_string] of a number that is not negative, with at most twenty digits. *)
Definition to_string (n : Z) : list ascii := print_digits 20 n [].
(** [std::setfill('0') << std::setw(w) << n]. *)
Definition pad (w : nat) (n : Z) : list ascii :=
  replicate (w - List.length (to_string n))%nat (digit 0) ++ to_string n.

Module Interval.

(** [None]: not an interval; [Some (Err _)]: an invalid one. *)
Inductive ParseError := InvalidInterval.

Definition parseDigits (digits : list ascii) : result ParseError Z :=
  match digits with
  | [] => Err InvalidInterval
  | c :: _ =>
      if code c =? 48 then Err InvalidInterval
      else if forallb is_digit digits then
        let milliseconds := read_digits digits in
        if (milliseconds <? 10) || (86400000 <? milliseconds) then Err InvalidInterval else Ok milliseconds
      else Err InvalidInterval
  end.

Definition starts_with (prefix s : list ascii) : bool := bool_decide (take (List.length prefix) s = prefix).
Definition ends_with (suffix s : list ascii) : bool :=
  bool_decide (List.length suffix <= List.length s)%nat
  && bool_decide (drop (List.length s - List.length suffix) s = suffix).

Definition ParseLocalInterval (expression : list ascii) : option (result ParseError Z) :=
  if negb (starts_with (chars "@every") expression) then None
  else Some
    (if negb (starts_with (chars "@every ") expression) || negb (ends_with (chars "ms") expression)
        || (List.length expression <? 10)%nat || (17 <? List.length expression)%nat
     then Err InvalidInterval
     else parseDigits (take (List.length expression - 9) (drop 7 expression))).

(** Nanoseconds per millisecond. *)
Definition ms : Z := 1000000.

Record LocalInterval := mkInterval {
  period_ : Z;
  next_ : Z;
}.
Record Due := mkDue {
  scheduledAt : Z;
  missed : bool;
}.

(** [period] in milliseconds, time points in nanoseconds. *)
Definition make (period anchor : Z) : result ParseError LocalInterval :=
  if (period <? 10) || (86400000 <? period) then Err InvalidInterval
  else Ok (mkInterval period (anchor / ms * ms + period * ms)).

Definition takeDue (now : Z) (i : LocalInterval) : LocalInterval * option Due :=
  if now <? next_ i then (i, None)
  else
    let skipped := (now - next_ i) / (period_ i * ms) in
    let latest := next_ i + period_ i * ms * skipped in
    (mkInterval (period_ i) (latest + period_ i * ms), Some (mkDue latest (negb (skipped =? 0)))).

(** [std::chrono::ceil] to milliseconds. *)
Definition delay (now : Z) (i : LocalInterval) : Z :=
  if next_ i <=? now then 0 else - (- (next_ i - now) / ms).
End Interval.

Module Cron.
Inductive CronError := FieldCount | BothDays.

(** [std::istringstream >> field] until the end: runs of characters that are not spaces. *)
Definition is_space (c : ascii) : bool := (code c =? 32) || ((9 <=? code c) && (code c <=? 13)).
Fixpoint split_fields (field : list ascii) (s : list ascii) : list (list ascii) :=
  match s with
  | [] => match field with [] => [] | _ => [field] end
  | c :: s =>
      if is_space c then match field with [] => split_fields [] s | _ => field :: split_fields [] s end
      else split_fields (field ++ [c]) s
  end.

Definition star : list ascii := chars "*".
Definition question : list ascii := chars "?".
Definition sp : list ascii := chars " ".

Definition ToLibcronExpression (expression : list ascii) : result CronError (list ascii) :=
  match split_fields [] expression with
  | [f0; f1; f2; f3; f4] =>
      let dayOfMonthSpecified := negb (bool_decide (f2 = star)) in
      let dayOfWeekSpecified := negb (bool_decide (f4 = star)) in
      if dayOfMonthSpecified && dayOfWeekSpecified then Err BothDays
      else
        let '(f2, f4) :=
          if dayOfMonthSpecified then (f2, question)
          else if dayOfWeekSpecified then (question, f4) else (f2, question) in
        Ok (chars "0 " ++ f0 ++ sp ++ f1 ++ sp ++ f2 ++ sp ++ f3 ++ sp ++ f4)
  | _ => Err FieldCount
  end.
End Cron.

Module Trigger.

(** The civil date of a day, counted from 1970-01-01: [std::chrono::year_month_day]. *)
Definition civil (day : Z) : Z * Z * Z :=
  let z := day + 719468 in
  let era := z / 146097 in
  let doe := z mod 146097 in
  let yoe := (doe - doe / 1460 + doe / 36524 - doe / 146096) / 365 in
  let doy := doe - (365 * yoe + yoe / 4 - yoe / 100) in
  let mp := (5 * doy + 2) / 153 in
  let d := doy - (153 * mp + 2) / 5 + 1 in
  let m := if mp <? 10 then mp + 3 else mp - 9 in
  let y := yoe + era * 400 + (if m <=? 2 then 1 else 0) in
  (y, m, d).

Definition second : Z := 1000000000.

(** Drop the zeros at the end. *)
Fixpoint drop_zeros (l : list ascii) : list ascii :=
  match l with
  | c :: l' => if code c =? 48 then drop_zeros l' else l
  | [] => []
  end.
Definition trim (l : list ascii) : list ascii := reverse (drop_zeros (reverse l)).

Definition FormatScheduleTimestamp (value : Z) : list ascii :=
  let wholeSeconds := value / second in
  let day := wholeSeconds / 86400 in
  let '(y, m, d) := civil day in
  let time := wholeSeconds mod 86400 in
  let nanos := value mod second in
  pad 4 y ++ chars "-" ++ pad 2 m ++ chars "-" ++ pad 2 d ++ chars "T"
    ++ pad 2 (time / 3600) ++ chars ":" ++ pad 2 (time / 60 mod 60) ++ chars ":" ++ pad 2 (time mod 60)
    ++ (if nanos =? 0 then [] else chars "." ++ trim (pad 9 nanos)) ++ chars "Z".

Inductive TriggerError := InvalidEndpoint | InvalidSchedule.
Inductive ScheduleBackend := kLocal | kTemporal.
Record ScheduleTrigger := mkTrigger {
  triggerId : list ascii;
  scheduleId : list ascii;
  scheduledAt : Z;
  firedAt : Z;
  backend : ScheduleBackend;
}.

(** A line feed. *)
Definition newline : list ascii := [ascii_of_nat 10].
Definition identity (endpointId : Z) (schedule : list ascii) (at_ : Z) : list ascii :=
  chars "servicegen:schedule-trigger:v1" ++ newline ++ to_string endpointId ++ newline ++ schedule ++ newline
    ++ FormatScheduleTimestamp at_.

(** [sha256] is [ScheduleSha256], which calls OpenSSL. *)
Definition MakeScheduleTrigger (sha256 : list ascii -> list ascii) (endpointId : Z) (schedule : list ascii)
    (scheduled fired : Z) (b : ScheduleBackend) : result TriggerError ScheduleTrigger :=
  if endpointId <? 1 then Err InvalidEndpoint
  else match schedule with
       | [] => Err InvalidSchedule
       | _ => Ok (mkTrigger (sha256 (identity endpointId schedule scheduled)) schedule scheduled fired b)
       end.

Definition NormalizeTemporalPriority (priority : Z) : Z :=
  if priority <=? -2 then 1
  else if priority =? -1 then 2 else if priority =? 0 then 3 else if priority =? 1 then 4 else 5.
End Trigger.
