(* ===== verification/ScheduleTheorems.v ===== *)
(** * What schedules promise *)
From Stdlib Require Import Lia Ascii String.
From S2P Require Import Prelude Schedule.
Local Open Scope Z_scope.

(** ** Decimal numbers *)
Lemma code_digit d : 0 <= d < 10 -> code (digit d) = 48 + d.
Proof. intros Hd. assert (d = 0 \/ d = 1 \/ d = 2 \/ d = 3 \/ d = 4 \/ d = 5 \/ d = 6 \/ d = 7 \/ d = 8 \/ d = 9) by lia.
  destruct_or!; subst; reflexivity. Qed.
Lemma is_digit_digit d : 0 <= d < 10 -> is_digit (digit d) = true.
Proof. intros Hd. unfold is_digit. rewrite code_digit by done. apply andb_true_iff. split; apply Z.leb_le; lia. Qed.
Lemma digit_code c : is_digit c = true -> digit (code c - 48) = c.
Proof.
  unfold is_digit, digit, code. rewrite andb_true_iff, !Z.leb_le. intros Hc.
  replace (Z.to_nat (48 + (Z.of_nat (nat_of_ascii c) - 48))) with (nat_of_ascii c) by lia. apply ascii_nat_embedding.
Qed.
Lemma digit_range c : is_digit c = true -> 0 <= code c - 48 < 10.
Proof. unfold is_digit. rewrite andb_true_iff, !Z.leb_le. lia. Qed.

Lemma read_from v l : foldl (fun v c => v * 10 + (code c - 48)) v l = v * 10 ^ Z.of_nat (List.length l) + read_digits l.
Proof.
  unfold read_digits. revert v. induction l as [|c l IH]; intros v; cbn [foldl List.length]; [simpl; lia|]. rewrite IH, (IH (0 * 10 + _)).
  rewrite Nat2Z.inj_succ, Z.pow_succ_r by lia. ring.
Qed.
Lemma read_app l1 l2 : read_digits (l1 ++ l2) = read_digits l1 * 10 ^ Z.of_nat (List.length l2) + read_digits l2.
Proof. unfold read_digits at 1. rewrite foldl_app. apply read_from. Qed.
Lemma read_bounds l : Forall (fun c => is_digit c = true) l -> 0 <= read_digits l < 10 ^ Z.of_nat (List.length l).
Proof.
  induction l as [|c l IH] using rev_ind; [unfold read_digits; simpl; lia|]. rewrite Forall_app, Forall_singleton. intros [Hl Hc].
  specialize (IH Hl). apply digit_range in Hc. rewrite read_app, length_app. simpl. unfold read_digits at 2 4. simpl.
  rewrite Nat2Z.inj_add, Z.pow_add_r by lia. simpl. lia.
Qed.

Lemma print_app fuel n acc : print_digits fuel n acc = print_digits fuel n [] ++ acc.
Proof.
  revert n acc. induction fuel as [|fuel IH]; intros n acc; simpl; [done|]. destruct (n <? 10); [done|].
  rewrite IH, (IH _ [_]), <- app_assoc. done.
Qed.
Lemma print_snoc fuel n d :
  1 <= n -> 0 <= d < 10 -> print_digits (S fuel) (n * 10 + d) [] = print_digits fuel n [] ++ [digit d].
Proof.
  intros Hn Hd. cbn [print_digits]. rewrite (proj2 (Z.ltb_ge _ _)) by lia.
  replace ((n * 10 + d) mod 10) with d by (symmetry; rewrite Z.add_comm, Z.mod_add by lia; by apply Z.mod_small).
  replace ((n * 10 + d) / 10) with n by (symmetry; rewrite Z.div_add_l by lia; rewrite Z.div_small by lia; lia).
  apply print_app.
Qed.

(** A number is printed as digits that read back, without leading zeros. *)
Lemma print_spec fuel n :
  0 <= n < 10 ^ Z.of_nat fuel -> (0 < fuel)%nat ->
  let l := print_digits fuel n [] in
  Forall (fun c => is_digit c = true) l /\ read_digits l = n /\ l <> [] /\
  (1 <= n -> exists c l', l = c :: l' /\ code c <> 48) /\
  forall w, (0 < w)%nat -> n < 10 ^ Z.of_nat w -> (List.length l <= w)%nat.
Proof.
  revert n. induction fuel as [|fuel IH]; [lia|]. intros n Hn _. destruct (Z.lt_ge_cases n 10) as [Hlt|Hge].
  - cbn [print_digits]. rewrite (proj2 (Z.ltb_lt _ _)), Z.mod_small by lia. simpl. split; [|split; [|split; [|split]]].
    + constructor; [by apply is_digit_digit; lia|constructor].
    + unfold read_digits. simpl. rewrite code_digit by lia. lia.
    + done.
    + intros H1. exists (digit n), []. split; [done|]. rewrite code_digit by lia. lia.
    + intros w Hw _. lia.
  - set (q := n / 10). set (r := n mod 10).
    assert (Hr : 0 <= r < 10) by (apply Z.mod_pos_bound; lia).
    assert (En : n = q * 10 + r) by (unfold q, r; rewrite Z.mul_comm; apply Z.div_mod; lia).
    assert (Hq : 1 <= q) by (unfold q; apply Z.div_le_lower_bound; lia).
    rewrite Nat2Z.inj_succ, Z.pow_succ_r in Hn by lia. rewrite En, print_snoc by lia.
    assert (Hf : (0 < fuel)%nat) by (destruct fuel; [simpl in Hn; lia|lia]).
    destruct (IH q ltac:(lia) Hf) as (D & R & N & L & W). cbv zeta. split; [|split; [|split; [|split]]].
    + apply Forall_app. split; [done|]. constructor; [by apply is_digit_digit|constructor].
    + rewrite read_app, R. unfold read_digits at 1. simpl. rewrite code_digit by lia. lia.
    + by destruct (print_digits fuel q []).
    + intros _. destruct (L Hq) as (c & l' & E & Hc). rewrite E. by exists c, (l' ++ [digit r]).
    + intros w Hw Hlt. destruct w as [|w]; [lia|]. rewrite Nat2Z.inj_succ, Z.pow_succ_r in Hlt by lia.
      destruct w as [|w]; [simpl in Hlt; lia|]. rewrite length_app. simpl. specialize (W (S w) ltac:(lia) ltac:(lia)). lia.
Qed.

Definition numeral (n : Z) : Prop := 0 <= n < 10 ^ 20.
Lemma to_string_spec n : numeral n ->
  let l := to_string n in
  Forall (fun c => is_digit c = true) l /\ read_digits l = n /\ l <> [] /\
  (1 <= n -> exists c l', l = c :: l' /\ code c <> 48) /\
  forall w, (0 < w)%nat -> n < 10 ^ Z.of_nat w -> (List.length l <= w)%nat.
Proof. intros Hn. apply (print_spec 20); [done|lia]. Qed.

(** What reads as a number and has no leading zero is how the number is printed. *)
Lemma print_read fuel c l :
  Forall (fun c => is_digit c = true) (c :: l) -> code c <> 48 -> (List.length l < fuel)%nat ->
  print_digits fuel (read_digits (c :: l)) [] = c :: l.
Proof.
  intros Hd Hc. revert fuel. induction l as [|x l IH] using rev_ind; intros fuel Hf.
  - destruct fuel as [|fuel]; [simpl in Hf; lia|]. rewrite Forall_singleton in Hd. pose proof (digit_range _ Hd).
    unfold read_digits. cbn [foldl print_digits]. rewrite (proj2 (Z.ltb_lt _ _)) by lia.
    replace (0 * 10 + (code c - 48)) with (code c - 48) by lia. rewrite Z.mod_small by lia. by rewrite digit_code.
  - change (c :: l ++ [x]) with ((c :: l) ++ [x]) in *. apply Forall_app in Hd as [Hd Hx]. rewrite Forall_singleton in Hx.
    pose proof (digit_range _ Hx). rewrite length_app in Hf. simpl in Hf. destruct fuel as [|fuel]; [lia|].
    rewrite read_app. change (10 ^ Z.of_nat (List.length [x])) with 10.
    replace (read_digits [x]) with (code x - 48) by (unfold read_digits; simpl; lia).
    rewrite print_snoc; [|..|done].
    + rewrite IH by (done || lia). by rewrite digit_code.
    + apply Forall_cons in Hd as [Hdc Hdl]. pose proof (digit_range _ Hdc).
      change (c :: l) with ([c] ++ l). rewrite read_app. pose proof (read_bounds l Hdl).
      replace (read_digits [c]) with (code c - 48) by (unfold read_digits; simpl; lia).
      pose proof (Z.pow_pos_nonneg 10 (Z.of_nat (List.length l)) ltac:(lia) ltac:(lia)). nia.
Qed.

Lemma read_zeros k l : read_digits (replicate k (digit 0) ++ l) = read_digits l.
Proof. induction k as [|k IH]; [done|]. rewrite <- IH. done. Qed.
Lemma pad_spec w n :
  (0 < w <= 20)%nat -> 0 <= n < 10 ^ Z.of_nat w ->
  Forall (fun c => is_digit c = true) (pad w n) /\ read_digits (pad w n) = n /\ List.length (pad w n) = w.
Proof.
  intros Hw Hn. assert (Hnum : numeral n).
  { split; [lia|]. apply Z.lt_le_trans with (10 ^ Z.of_nat w); [lia|]. apply Z.pow_le_mono_r; lia. }
  destruct (to_string_spec n Hnum) as (D & R & _ & _ & L). specialize (L w ltac:(lia) ltac:(lia)). unfold pad. split; [|split].
  - apply Forall_app. split; [|done]. apply Forall_replicate. by vm_compute.
  - by rewrite read_zeros.
  - rewrite length_app, length_replicate. lia.
Qed.

(** ** Intervals *)
Import Interval.

Lemma starts_with_spec p s : starts_with p s = true <-> exists s', s = p ++ s'.
Proof.
  unfold starts_with. rewrite bool_decide_eq_true. split.
  - intros E. exists (drop (List.length p) s). by rewrite <- E at 1; rewrite take_drop.
  - intros [s' ->]. apply take_app_length.
Qed.
Lemma ends_with_spec p s : ends_with p s = true <-> exists s', s = s' ++ p.
Proof.
  unfold ends_with. rewrite andb_true_iff, !bool_decide_eq_true. split.
  - intros [_ E]. exists (take (List.length s - List.length p) s). by rewrite <- E at 2; rewrite take_drop.
  - intros [s' ->]. rewrite length_app. split; [lia|]. replace (_ - _)%nat with (List.length s') by lia. apply drop_app_length.
Qed.

Lemma parse_digits_spec l n :
  (0 < List.length l <= 8)%nat -> parseDigits l = Ok n <-> 10 <= n <= 86400000 /\ l = to_string n.
Proof.
  intros Hl. split.
  - unfold parseDigits. destruct l as [|c l]; [done|]. destruct (Z.eqb_spec (code c) 48) as [|Hc]; [done|].
    destruct (forallb is_digit (c :: l)) eqn:Hd; [|done].
    rewrite forallb_forall in Hd. assert (Hd' : Forall (fun c => is_digit c = true) (c :: l)).
    { apply Forall_forall. intros x Hx. by apply Hd, list_elem_of_In. }
    destruct ((_ <? _) || _) eqn:Hr; [done|]. intros [= <-]. bool_to_prop. split; [lia|].
    symmetry. apply print_read; [done|done|]. simpl in Hl. lia.
  - intros [Hn ->]. assert (Hnum : numeral n) by (split; lia). destruct (to_string_spec n Hnum) as (D & R & _ & L & _).
    destruct (L ltac:(lia)) as (c & l' & E & Hc). unfold parseDigits. rewrite E in *.
    rewrite (proj2 (Z.eqb_neq _ _)) by done. rewrite (proj2 (forallb_forall _ _)).
    + rewrite R. destruct ((_ <? _) || _) eqn:Hr; [bool_to_prop; lia|done].
    + intros x Hx. rewrite Forall_forall in D. apply D. by apply list_elem_of_In.
Qed.

(** [ParseLocalInterval] accepts exactly the strings [@every Nms] where N is a decimal
    number between 10 and 86400000 without leading zeros, and returns N. *)
Theorem parse_interval_exact (s : list ascii) (n : Z) :
  ParseLocalInterval s = Some (Ok n) <-> 10 <= n <= 86400000 /\ s = chars "@every " ++ to_string n ++ chars "ms".
Proof.
  unfold ParseLocalInterval. split.
  - destruct (negb (starts_with (chars "@every") s)); [by intros [=]|].
    destruct (negb (starts_with (chars "@every ") s) || _ || _ || _) eqn:Hc; [by intros [=]|].
    rewrite !orb_false_iff, !negb_false_iff, !Nat.ltb_ge in Hc. destruct Hc as [[[Hs He] H10] H17].
    apply starts_with_spec in Hs as [s1 Es]. apply ends_with_spec in He as [s2 Ee]. intros [= Hp].
    assert (Hs1 : drop 7 s = s1) by (rewrite Es; apply (drop_app_length (chars "@every "))). rewrite Hs1 in Hp.
    assert (Hlen : (List.length s = 7 + List.length s1)%nat) by (rewrite Es, length_app; done).
    assert (Hmid : s1 = take (List.length s - 9) s1 ++ chars "ms").
    { rewrite <- (take_drop (List.length s - 9) s1) at 1. f_equal. rewrite <- Hs1, drop_drop.
      replace (7 + (List.length s - 9))%nat with (List.length s2); [rewrite Ee; apply drop_app_length|].
      rewrite Ee, length_app. simpl. rewrite Ee, length_app in H10. simpl in H10. lia. }
    apply parse_digits_spec in Hp as [Hn Ed]; [|rewrite length_take; lia].
    split; [done|]. rewrite Es. f_equal. rewrite Hmid. by f_equal.
  - intros [Hn ->]. assert (Hnum : numeral n) by (split; lia). destruct (to_string_spec n Hnum) as (_ & _ & N & _ & L).
    assert (H8 : (0 < List.length (to_string n) <= 8)%nat).
    { split; [destruct (to_string n); [done|simpl; lia]|]. apply L; lia. }
    set (s := chars "@every " ++ to_string n ++ chars "ms").
    assert (H0 : starts_with (chars "@every") s = true) by (apply starts_with_spec; by exists (chars " " ++ to_string n ++ chars "ms")).
    assert (H1 : starts_with (chars "@every ") s = true) by (apply starts_with_spec; by eexists).
    assert (H2 : ends_with (chars "ms") s = true) by (apply ends_with_spec; exists (chars "@every " ++ to_string n); unfold s; by rewrite app_assoc).
    assert (Hlen : List.length s = (7 + (List.length (to_string n) + 2))%nat) by (unfold s; by rewrite !length_app).
    assert (Hd : drop 7 s = to_string n ++ chars "ms") by apply (drop_app_length (chars "@every ")).
    rewrite H0, H1, H2, Hd, Hlen, (proj2 (Nat.ltb_ge _ 10)), (proj2 (Nat.ltb_ge 17 _)) by lia. cbn [negb orb]. f_equal.
    replace (7 + (List.length (to_string n) + 2) - 9)%nat with (List.length (to_string n)) by lia. rewrite take_app_length.
    by apply parse_digits_spec.
Qed.

(** The occurrences that polls at the times [nows] yield. *)
Fixpoint polls (nows : list Z) (i : LocalInterval) : LocalInterval * list Due :=
  match nows with
  | [] => (i, [])
  | now :: nows =>
      let (i, due) := takeDue now i in
      let (i, dues) := polls nows i in
      (i, match due with Some d => d :: dues | None => dues end)
  end.

(** [i] has delivered everything up to [last], its next occurrence is one period later. *)
Definition after_due (i : LocalInterval) (last : Z) : Prop := next_ i = last + period_ i * ms.

(** Consecutive occurrences: on the grid, in order, and [missed] exactly when one was left out. *)
Fixpoint chain (period last : Z) (dues : list Due) : Prop :=
  match dues with
  | [] => True
  | d :: dues =>
      (exists k, 1 <= k /\ scheduledAt d = last + k * (period * ms) /\ (missed d = true <-> 2 <= k)) /\
      chain period (scheduledAt d) dues
  end.

Lemma takeDue_spec now i last :
  0 < period_ i -> after_due i last ->
  match takeDue now i with
  | (i', None) => i' = i /\ now < next_ i
  | (i', Some d) =>
      period_ i' = period_ i /\ after_due i' (scheduledAt d) /\ scheduledAt d <= now < next_ i' /\
      exists k, 1 <= k /\ scheduledAt d = last + k * (period_ i * ms) /\ (missed d = true <-> 2 <= k)
  end.
Proof.
  intros Hp Ha. unfold takeDue, after_due in *. destruct (Z.ltb_spec now (next_ i)) as [|Hge]; [done|]. simpl.
  assert (Hpos : 0 < period_ i * ms) by (unfold ms; lia). set (P := period_ i * ms) in *.
  set (q := (now - next_ i) / P). assert (Hq : 0 <= q) by (apply Z.div_pos; lia).
  pose proof (Z.div_mod (now - next_ i) P ltac:(lia)) as Hdm. pose proof (Z.mod_pos_bound (now - next_ i) P Hpos) as Hm. fold q in Hdm.
  split; [done|]. split; [done|]. split; [nia|]. exists (q + 1). split; [lia|]. split; [rewrite Ha; ring|].
  destruct (Z.eqb_spec q 0); simpl; split; intros; lia || done.
Qed.

Lemma polls_chain nows i last :
  0 < period_ i -> after_due i last ->
  chain (period_ i) last (polls nows i).2 /\ Forall (fun d => exists now, now ∈ nows /\ scheduledAt d <= now) (polls nows i).2.
Proof.
  revert i last. induction nows as [|now nows IH]; intros i last Hp Ha; cbn [polls]; [by split; [|constructor]|].
  pose proof (takeDue_spec now i last Hp Ha) as Ht. destruct (takeDue now i) as [i1 [d|]].
  - destruct Ht as (Ep & Ha1 & Hle & Hk). rewrite <- Ep in Hp. destruct (IH i1 _ Hp Ha1) as [Hc Hf].
    destruct (polls nows i1) as [i2 dues]. simpl in *. rewrite Ep in Hc. split; [by split|]. constructor; [exists now; split; [by left|lia]|].
    eapply Forall_impl; [exact Hf|]. intros x (n & ? & ?). exists n. split; [by right|done].
  - destruct Ht as [-> _]. destruct (IH i _ Hp Ha) as [Hc Hf]. destruct (polls nows i) as [i2 dues]. simpl in *.
    split; [done|]. eapply Forall_impl; [exact Hf|]. intros x (n & ? & ?). exists n. split; [by right|done].
Qed.

(** Whatever the times of the polls, the occurrences of an interval lie on the grid of
    whole periods after its anchor, rounded down to a millisecond, come in increasing order,
    none before its time, and are marked as missed exactly when an earlier one was left out. *)
Theorem interval_on_grid (period anchor : Z) (nows : list Z) (i : LocalInterval) :
  make period anchor = Ok i ->
  chain period (anchor / ms * ms) (polls nows i).2 /\
  Forall (fun d => exists now, now ∈ nows /\ scheduledAt d <= now) (polls nows i).2.
Proof.
  unfold make. destruct ((period <? 10) || (86400000 <? period)) eqn:Hb; [done|]. bool_to_prop.
  intros [= <-]. apply (polls_chain nows (mkInterval period (anchor / ms * ms + period * ms))); simpl; [lia|done].
Qed.

(** C3.  A wait of [delay] ends when the next occurrence is due, less than a millisecond late. *)
Theorem interval_delay_exact (i : LocalInterval) (now : Z) :
  now < next_ i -> next_ i <= now + delay now i * ms < next_ i + ms.
Proof.
  intros Hlt. unfold delay. rewrite (proj2 (Z.leb_gt _ _)) by lia.
  pose proof (Z.div_mod (- (next_ i - now)) ms ltac:(unfold ms; lia)) as Hd.
  pose proof (Z.mod_pos_bound (- (next_ i - now)) ms ltac:(unfold ms; lia)). lia.
Qed.

(** ** Timestamps *)
Import Trigger.

(** The day of a civil date. *)
Definition day_of (y m d : Z) : Z :=
  let y := if m <=? 2 then y - 1 else y in
  let doy := (153 * (if m <=? 2 then m + 9 else m - 3) + 2) / 5 + d - 1 in
  let yoe := y mod 400 in
  y / 400 * 146097 + (yoe * 365 + yoe / 4 - yoe / 100 + doy) - 719468.

(** The year and the day of the year, counted from the first of March. *)
Lemma year_of_era doe :
  0 <= doe < 146097 ->
  let yoe := (doe - doe / 1460 + doe / 36524 - doe / 146096) / 365 in
  0 <= yoe < 400 /\ 0 <= doe - (365 * yoe + yoe / 4 - yoe / 100) <= 365.
Proof. intros H. cbv zeta. repeat split; Z.to_euclidean_division_equations; lia. Qed.
Lemma month_of_day doy :
  0 <= doy <= 365 ->
  let mp := (5 * doy + 2) / 153 in 0 <= mp <= 11 /\ 1 <= doy - (153 * mp + 2) / 5 + 1 <= 31.
Proof. intros H. cbv zeta. split; Z.to_euclidean_division_equations; lia. Qed.

(** [civil] gives the date of the day, for every day there is. *)
Lemma civil_spec day :
  let '(y, m, d) := civil day in
  day_of y m d = day /\ 1 <= m <= 12 /\ 1 <= d <= 31 /\ (day + 719468) / 146097 * 400 <= y <= (day + 719468) / 146097 * 400 + 400.
Proof.
  unfold civil. set (z := day + 719468). set (era := z / 146097). set (doe := z mod 146097).
  assert (Hz : z = 146097 * era + doe) by (apply Z.div_mod; lia).
  assert (Hdoe : 0 <= doe < 146097) by (apply Z.mod_pos_bound; lia).
  pose proof (year_of_era doe Hdoe) as Hy. cbv zeta in Hy.
  set (yoe := (doe - doe / 1460 + doe / 36524 - doe / 146096) / 365) in *. destruct Hy as [Hyoe Hdoy].
  set (doy := doe - (365 * yoe + yoe / 4 - yoe / 100)) in *.
  pose proof (month_of_day doy Hdoy) as Hm. cbv zeta in Hm. set (mp := (5 * doy + 2) / 153) in *. destruct Hm as [Hmp Hd].
  assert (Hmod : (yoe + era * 400) mod 400 = yoe) by (rewrite Z.mod_add by lia; by apply Z.mod_small).
  assert (Hdiv : (yoe + era * 400) / 400 = era) by (rewrite Z.div_add by lia; rewrite Z.div_small by lia; lia).
  unfold day_of. destruct (Z.ltb_spec mp 10) as [Hlt|Hge].
  - rewrite !(proj2 (Z.leb_gt (mp + 3) 2)) by lia. rewrite Z.add_0_r, Hmod, Hdiv.
    replace (mp + 3 - 3) with mp by lia. unfold doy. lia.
  - rewrite !(proj2 (Z.leb_le (mp - 9) 2)) by lia. replace (yoe + era * 400 + 1 - 1) with (yoe + era * 400) by lia.
    rewrite Hmod, Hdiv. replace (mp - 9 + 9) with mp by lia. unfold doy. lia.
Qed.

(** A reader of timestamps: a field of [w] digits and the character after it. *)
Definition field (w : nat) (s : list ascii) : Z * list ascii := (read_digits (take w s), drop (S w) s).
Definition read_fraction (s : list ascii) : Z :=
  match s with
  | [] => 0
  | _ => let ds := take (List.length s - 1) s in read_digits ds * 10 ^ (9 - Z.of_nat (List.length ds))
  end.
Definition read_timestamp (s : list ascii) : Z :=
  let (y, s) := field 4 s in let (m, s) := field 2 s in let (d, s) := field 2 s in
  let (hh, s) := field 2 s in let (mm, s) := field 2 s in let (ss, s) := field 2 s in
  (((day_of y m d * 24 + hh) * 60 + mm) * 60 + ss) * second + read_fraction s.

Lemma field_pad w n c s : (0 < w <= 20)%nat -> 0 <= n < 10 ^ Z.of_nat w -> field w (pad w n ++ c :: s) = (n, s).
Proof.
  intros Hw Hn. destruct (pad_spec w n Hw Hn) as (_ & R & L). unfold field.
  assert (Et : take w (pad w n ++ c :: s) = pad w n) by (rewrite <- L at 1; apply take_app_length).
  assert (Ed : drop (S w) (pad w n ++ c :: s) = s).
  { change (c :: s) with ([c] ++ s). rewrite app_assoc. replace (S w) with (List.length (pad w n ++ [c])) by (rewrite length_app, L; simpl; lia).
    apply drop_app_length. }
  by rewrite Et, Ed, R.
Qed.

Lemma code_zero c : code c = 48 -> c = digit 0.
Proof. intros E. rewrite <- (digit_code c); [by rewrite E|]. unfold is_digit. by rewrite E. Qed.
Lemma drop_zeros_spec l : exists k, l = replicate k (digit 0) ++ drop_zeros l.
Proof.
  induction l as [|c l [k IH]]; [by exists 0%nat|]. simpl. destruct (Z.eqb_spec (code c) 48) as [E|]; [|by exists 0%nat].
  exists (S k). simpl. rewrite <- IH. by rewrite (code_zero c E).
Qed.
Lemma trim_spec l : exists k, l = trim l ++ replicate k (digit 0).
Proof.
  unfold trim. destruct (drop_zeros_spec (reverse l)) as [k E]. exists k.
  rewrite <- (reverse_involutive l) at 1. rewrite E at 1. by rewrite reverse_app, reverse_replicate.
Qed.
Lemma read_replicate k : read_digits (replicate k (digit 0)) = 0.
Proof. rewrite <- (app_nil_r (replicate k _)). by rewrite read_zeros. Qed.

Lemma fraction_roundtrip nanos :
  0 < nanos < second -> read_fraction (trim (pad 9 nanos) ++ chars "Z") = nanos.
Proof.
  intros Hn. destruct (pad_spec 9 nanos ltac:(lia) ltac:(unfold second in Hn; lia)) as (_ & R & L).
  destruct (trim_spec (pad 9 nanos)) as [k E]. set (t := trim (pad 9 nanos)) in *.
  assert (Hlen : (List.length t + k = 9)%nat) by (rewrite <- L, E, length_app, length_replicate; lia).
  assert (Hr : nanos = read_digits t * 10 ^ Z.of_nat k).
  { rewrite <- R at 1. rewrite E, read_app, read_replicate, length_replicate. lia. }
  unfold read_fraction. destruct (t ++ chars "Z") as [|c s] eqn:Es; [by destruct t|]. rewrite <- Es, length_app.
  change (List.length (chars "Z")) with 1%nat. replace (List.length t + 1 - 1)%nat with (List.length t) by lia.
  rewrite take_app_length. replace (9 - Z.of_nat (List.length t)) with (Z.of_nat k) by lia. done.
Qed.

Lemma read_formatted (value : Z) : in_int64 value -> read_timestamp (FormatScheduleTimestamp value) = value.
Proof.
  intros Hv. unfold FormatScheduleTimestamp. unfold in_int64, int64_min, int64_max in Hv.
  set (w := value / second). set (nanos := value mod second).
  assert (Ev : value = second * w + nanos) by (apply Z.div_mod; unfold second; lia).
  assert (Hnanos : 0 <= nanos < second) by (apply Z.mod_pos_bound; unfold second; lia).
  set (day := w / 86400). set (t := w mod 86400).
  assert (Ew : w = 86400 * day + t) by (apply Z.div_mod; lia).
  assert (Ht : 0 <= t < 86400) by (apply Z.mod_pos_bound; lia).
  assert (Hday : -106752 <= day <= 106752) by (unfold second in *; lia).
  pose proof (civil_spec day) as Hc. destruct (civil day) as [[y m] d]. destruct Hc as (Hc & Hm & Hd & Hy).
  assert (Hera : 4 <= (day + 719468) / 146097 <= 5).
  { split; [apply Z.div_le_lower_bound; lia|]. apply Z.lt_succ_r, Z.div_lt_upper_bound; lia. }
  pose proof (Z.div_mod t 3600 ltac:(lia)). pose proof (Z.mod_pos_bound t 3600 ltac:(lia)).
  assert (Hhh : 0 <= t / 3600 < 24) by (split; [apply Z.div_pos; lia|apply Z.div_lt_upper_bound; lia]).
  pose proof (Z.mod_pos_bound (t / 60) 60 ltac:(lia)). pose proof (Z.mod_pos_bound t 60 ltac:(lia)).
  pose proof (Z.div_mod t 60 ltac:(lia)). pose proof (Z.div_mod (t / 60) 60 ltac:(lia)).
  assert (Ehh : t / 60 / 60 = t / 3600) by (rewrite Z.div_div by lia; done).
  unfold read_timestamp. cbn [app chars list_ascii_of_string].
  rewrite field_pad by lia. rewrite !field_pad by lia.
  assert (Hfin : forall r, read_fraction r = nanos -> (((day_of y m d * 24 + t / 3600) * 60 + t / 60 mod 60) * 60 + t mod 60) * second + read_fraction r = value).
  { intros r ->. rewrite Ev, Ew. rewrite Hc. unfold second. lia. }
  destruct (Z.eqb_spec nanos 0) as [E0|Hne]; cbn [app chars list_ascii_of_string]; rewrite field_pad by lia.
  - apply Hfin. by rewrite E0.
  - apply Hfin. apply fraction_roundtrip. lia.
Qed.

(** A timestamp names its instant: the string that is formatted for a [system_clock] time
    point, to the nanosecond and with the zeros at the end of the fraction dropped, reads
    back as that time point. *)
Theorem timestamp_roundtrip (value : Z) : in_int64 value -> read_timestamp (FormatScheduleTimestamp value) = value.
Proof. apply read_formatted. Qed.

(** ** The identity of a trigger *)
Definition plain (l : list ascii) : Prop := Forall (fun c => c <> ascii_of_nat 10) l.
Lemma digits_plain l : Forall (fun c => is_digit c = true) l -> plain l.
Proof. intros Hl. eapply Forall_impl; [exact Hl|]. intros c Hc ->. by vm_compute in Hc. Qed.

Lemma split_first {A} (x : A) l1 l2 r1 r2 :
  Forall (fun c => c <> x) l1 -> Forall (fun c => c <> x) l2 -> l1 ++ x :: r1 = l2 ++ x :: r2 -> l1 = l2 /\ r1 = r2.
Proof.
  intros H1. revert l2. induction H1 as [|c l1 Hc H1 IH]; intros l2 H2 E.
  - destruct H2 as [|c l2 Hc H2]; simpl in E; injection E; [by split|]. intros _ ->. done.
  - destruct H2 as [|c' l2 Hc' H2]; simpl in E; injection E as E1 E2; [done|]. subst c'.
    destruct (IH l2 H2 E2) as [-> ->]. done.
Qed.
Lemma split_last {A} (x : A) l1 l2 r1 r2 :
  Forall (fun c => c <> x) r1 -> Forall (fun c => c <> x) r2 -> l1 ++ x :: r1 = l2 ++ x :: r2 -> l1 = l2 /\ r1 = r2.
Proof.
  intros H1 H2 E. apply (f_equal reverse) in E. rewrite !reverse_app, !reverse_cons, <- !app_assoc in E. simpl in E.
  apply split_first in E as [E1 E2]; [|by apply Forall_reverse..]. split; by apply (inj reverse).
Qed.

Lemma plain_app l1 l2 : plain l1 -> plain l2 -> plain (l1 ++ l2).
Proof. intros. by apply Forall_app. Qed.
Lemma pad_plain w n : numeral n -> plain (pad w n).
Proof.
  intros Hn. apply digits_plain. destruct (to_string_spec n Hn) as (D & _). unfold pad. apply Forall_app.
  split; [|done]. apply Forall_replicate. by vm_compute.
Qed.
Lemma timestamp_plain value : in_int64 value -> plain (FormatScheduleTimestamp value).
Proof.
  intros Hv. unfold FormatScheduleTimestamp. unfold in_int64, int64_min, int64_max in Hv.
  set (w := value / second). assert (Hnanos : 0 <= value mod second < second) by (apply Z.mod_pos_bound; unfold second; lia).
  set (t := w mod 86400). assert (Ht : 0 <= t < 86400) by (apply Z.mod_pos_bound; lia).
  assert (Hday : -106752 <= w / 86400 <= 106752).
  { assert (-9223372037 <= w <= 9223372037); [|split; [apply Z.div_le_lower_bound; lia|apply Z.div_le_upper_bound; lia]].
    unfold w, second. split; [apply Z.div_le_lower_bound; lia|apply Z.div_le_upper_bound; lia]. }
  pose proof (civil_spec (w / 86400)) as Hc. destruct (civil (w / 86400)) as [[y m] d]. destruct Hc as (_ & Hm & Hd & Hy).
  assert (Hera : 4 <= (w / 86400 + 719468) / 146097 <= 5).
  { split; [apply Z.div_le_lower_bound; lia|]. apply Z.lt_succ_r, Z.div_lt_upper_bound; lia. }
  assert (Hchars : forall s, forallb (fun c => negb (code c =? 10)) (chars s) = true -> plain (chars s)).
  { intros s Hs. apply Forall_forall. intros c Hc ->. rewrite forallb_forall in Hs. apply list_elem_of_In, Hs in Hc. by vm_compute in Hc. }
  assert (Hhh : 0 <= t / 3600 <= 24) by (split; [apply Z.div_pos; lia|apply Z.div_le_upper_bound; lia]).
  pose proof (Z.mod_pos_bound (t / 60) 60 ltac:(lia)). pose proof (Z.mod_pos_bound t 60 ltac:(lia)).
  assert (Hnum : forall n, 0 <= n < 10000000000 -> numeral n) by (unfold numeral; lia).
  unfold second in *. 
  repeat first [by apply Hchars | apply pad_plain, Hnum; lia | apply plain_app].
  match goal with |- plain (if ?b then _ else _) => destruct b end; [constructor|]. apply plain_app; [by apply Hchars|].
  assert (Hp : plain (pad 9 (value mod 1000000000))) by (apply pad_plain, Hnum; lia).
  destruct (trim_spec (pad 9 (value mod 1000000000))) as [k E]. unfold plain in Hp. rewrite E in Hp. by apply Forall_app in Hp as [? _].
Qed.

(** The identity string of a trigger, of which the trigger id is the hash, determines the
    endpoint, the schedule and the scheduled time, whatever characters the name of the
    schedule has. *)
Theorem trigger_identity_injective e1 e2 s1 s2 t1 t2 :
  1 <= e1 < 2 ^ 31 -> 1 <= e2 < 2 ^ 31 -> in_int64 t1 -> in_int64 t2 ->
  identity e1 s1 t1 = identity e2 s2 t2 -> e1 = e2 /\ s1 = s2 /\ t1 = t2.
Proof.
  intros He1 He2 Ht1 Ht2 E. unfold identity in E. apply app_inv_head in E. unfold newline in E.
  apply app_inv_head in E. cbn [app] in E.
  destruct (to_string_spec e1 ltac:(unfold numeral; lia)) as (D1 & R1 & _).
  destruct (to_string_spec e2 ltac:(unfold numeral; lia)) as (D2 & R2 & _).
  apply split_first in E as [E1 E]; [|by apply digits_plain..].
  apply split_last in E as [E2 E3]; [|by apply timestamp_plain..].
  split; [congruence|]. split; [done|]. rewrite <- (read_formatted t1 Ht1), <- (read_formatted t2 Ht2). by rewrite E3.
Qed.

(** ** Cron expressions *)
Import Cron.

(** A field as [istringstream] reads it: not empty, without spaces. *)
Definition word (l : list ascii) : Prop := l <> [] /\ Forall (fun c => is_space c = false) l.
Lemma split_words field s : Forall (fun c => is_space c = false) field -> Forall word (split_fields field s).
Proof.
  revert field. induction s as [|c s IH]; intros field Hf; simpl.
  - destruct field; [constructor|]. constructor; [by split|constructor].
  - destruct (is_space c) eqn:Hc; [|apply IH, Forall_app; by split; [|constructor]].
    destruct field; [by apply IH|]. constructor; [by split|by apply IH].
Qed.
Lemma split_word field l s : Forall (fun c => is_space c = false) l -> split_fields field (l ++ s) = split_fields (field ++ l) s.
Proof.
  revert field. induction l as [|c l IH]; intros field Hl; simpl; [by rewrite app_nil_r|]. apply Forall_cons in Hl as [Hc Hl].
  rewrite Hc, IH by done. by rewrite <- app_assoc.
Qed.
Lemma split_next l s : word l -> split_fields [] (l ++ sp ++ s) = l :: split_fields [] s.
Proof. intros [Hne Hl]. rewrite split_word by done. simpl. destruct l; [done|]. done. Qed.
Lemma split_end l : word l -> split_fields [] l = [l].
Proof. intros [Hne Hl]. rewrite <- (app_nil_r l) at 1. rewrite split_word by done. by destruct l. Qed.

(** [ToLibcronExpression] accepts exactly the expressions of five fields that leave the
    day of the month or the day of the week unconstrained; the result has six fields, the
    seconds first and zero, the others as given but for one day field, which becomes the
    question mark that libcron asks for: never the one that is constrained. *)
Theorem cron_expression_fields (expression : list ascii) :
  match ToLibcronExpression expression with
  | Ok out =>
      exists f0 f1 f2 f3 f4, split_fields [] expression = [f0; f1; f2; f3; f4] /\ (f2 = star \/ f4 = star) /\
        split_fields [] out =
          chars "0" :: f0 :: f1 :: (if bool_decide (f4 = star) then f2 else question) :: f3
            :: [if bool_decide (f4 = star) then question else f4]
  | Err BothDays => exists f0 f1 f2 f3 f4, split_fields [] expression = [f0; f1; f2; f3; f4] /\ f2 <> star /\ f4 <> star
  | Err FieldCount => List.length (split_fields [] expression) <> 5%nat
  end.
Proof.
  unfold ToLibcronExpression. pose proof (split_words [] expression ltac:(constructor)) as Hw.
  destruct (split_fields [] expression) as [|f0 [|f1 [|f2 [|f3 [|f4 [|]]]]]]; try done.
  rewrite !Forall_cons in Hw. destruct Hw as (W0 & W1 & W2 & W3 & W4 & _).
  assert (Wq : word question) by (split; [done|]; by repeat constructor).
  assert (Wz : word (chars "0")) by (split; [done|]; by repeat constructor).
  assert (Hout : forall d w, word d -> word w ->
    split_fields [] (chars "0 " ++ f0 ++ sp ++ f1 ++ sp ++ d ++ sp ++ f3 ++ sp ++ w) = [chars "0"; f0; f1; d; f3; w]).
  { intros d w Wd Ww. change (chars "0 " ++ ?r) with (chars "0" ++ sp ++ r). by rewrite !split_next, split_end. }
  do 2 case_bool_decide; simpl negb; cbn [andb].
  - exists f0, f1, f2, f3, f4. split; [done|]. split; [auto|]. rewrite bool_decide_true by done. by apply Hout.
  - exists f0, f1, f2, f3, f4. split; [done|]. split; [auto|]. rewrite bool_decide_false by done. by apply Hout.
  - exists f0, f1, f2, f3, f4. split; [done|]. split; [auto|]. rewrite bool_decide_true by done. by apply Hout.
  - by exists f0, f1, f2, f3, f4.
Qed.

(** Priorities keep their order, within 1 to 5. *)
Lemma normalize_monotone p q :
  p <= q -> 1 <= NormalizeTemporalPriority p <= NormalizeTemporalPriority q /\ NormalizeTemporalPriority q <= 5.
Proof. intros Hpq. unfold NormalizeTemporalPriority. repeat case_match; bool_to_prop; lia. Qed.

(** ** Concrete schedules *)
Definition sample_interval : LocalInterval := mkInterval 250 1000250000000.
Lemma interval_on_grid_witness :
  make 250 1000000000123 = Ok sample_interval /\
  (polls [1000100000000; 1000260000000; 1001000000000] sample_interval).2 =
    [mkDue 1000250000000 false; mkDue 1001000000000 true] /\
  chain 250 1000000000000 (polls [1000100000000; 1000260000000; 1001000000000] sample_interval).2.
Proof.
  split; [reflexivity|]. split; [reflexivity|].
  destruct (interval_on_grid 250 1000000000123 [1000100000000; 1000260000000; 1001000000000] sample_interval eq_refl) as [H _].
  exact H.
Defined.

Lemma interval_delay_exact_witness : delay 1000000000123 sample_interval = 250 /\ 1000250000000 <= 1000000000123 + 250 * ms.
Proof.
  split; [reflexivity|]. destruct (interval_delay_exact sample_interval 1000000000123 ltac:(simpl; lia)) as [H _]. exact H.
Defined.

Lemma timestamp_roundtrip_witness :
  FormatScheduleTimestamp 1753900000123400000 = chars "2025-07-30T18:26:40.1234Z" /\
  read_timestamp (chars "2025-07-30T18:26:40.1234Z") = 1753900000123400000.
Proof.
  split; [reflexivity|].
  exact (timestamp_roundtrip 1753900000123400000 ltac:(unfold in_int64, int64_min, int64_max; lia)).
Defined.

Lemma trigger_identity_injective_witness : 7 = 7 /\ chars "nightly" = chars "nightly" /\ 0 = 0.
Proof.
  exact (trigger_identity_injective 7 7 (chars "nightly") (chars "nightly") 0 0 ltac:(lia) ltac:(lia)
    ltac:(unfold in_int64, int64_min, int64_max; lia) ltac:(unfold in_int64, int64_min, int64_max; lia) eq_refl).
Defined.
