(* ===== verification/CronSource.v ===== *)
(** * The cron data source

    [LibcronDataSource] and [Endpoint] of src/datasource/cron/libcron.cpp with [ResultWaiter] and
    [WaitForDrain] of datasource/cron/libcron.hpp, as a transition system: the ticker calls the
    endpoints that are due, a dispatch admits an execution, executions run the user's function
    and wait for results, completions come from the result streams, and one control thread runs
    [start] and [stop].  A section that holds a mutex from end to end is one step.  libcron is
    a parameter: which expressions it accepts and which occurrence comes next.  The clock, the
    order of the ticker's calls, what the user's function does, cancellations and whether a
    task can be spawned are chosen at each step. *)
From Stdlib Require Import Lia Ascii.
From stdpp Require Import strings gmap.
From S2P Require Import Prelude Schedule ServiceApi ConfigYaml EndpointTypes.
Local Open Scope Z_scope.
Local Open Scope result_scope.

Module CronSource.

Abbreviation OverlapPolicy := ScheduleOverlapPolicy.ScheduleOverlapPolicy.
Abbreviation MissedRunPolicy := ScheduleMissedRunPolicy.ScheduleMissedRunPolicy.
Abbreviation Config := CronEndpoint.CronEndpointConfig.

(** ** Data *)

(** [evaluator] and [interval] of an endpoint: at most one is there. *)
Inductive Plan := Off | Cron (expression : list ascii) | Every (interval : Interval.LocalInterval).

(** [tasks]: the storage of detached tasks is there and open.  [pending_] is the table of the
    endpoint's [ResultWaiter], with the execution that waits under each stream id. *)
Record Endpoint := mkEndpoint {
  endpointId : Z;
  hasResult : bool;
  plan : Plan;
  overlapPolicy : OverlapPolicy;
  missedRunPolicy : MissedRunPolicy;
  lastScheduled : option Z;
  running : bool;
  stopping : bool;
  active : Z;
  tasks : bool;
  pending_ : gmap string nat;
}.

(** A task of an endpoint: it begins, calls the user's function, waits for its result, leaves the
    table of results, gives [running] back, leaves [active], notifies, and has returned. *)
Inductive XPc := XBegin | XCall | XWait | XErase | XRelease | XLeave | XNotify | XDone.
#[export] Instance XPc_eq_dec : EqDecision XPc.
Proof. solve_decision. Defined.
Record Execution := mkExecution {
  xendpoint : nat;
  xowns : bool;
  xpc : XPc;
  xstream : string;
  registered : bool;
  done : bool;
  sent : bool;
  failed : bool;
}.

Inductive Completion := Completed | Missing | Duplicate | NoStreamId.
Inductive KPc := KStart | KFound (x : nat) | KSend (x : nat) | KDone (c : Completion).
Record Completer := mkCompleter {
  kendpoint : nat;
  kstream : string;
  kpc : KPc;
}.

(** The steps of [dispatch]. *)
Inductive DPc := DEnter | DClaim | DAdmit (owns : bool) | DSpawn (owns : bool) | DUndo (owns : bool) | DUndoActive | DNotify.
Inductive TPc := TOff | TIdle | TDispatch (e : nat) (missed : bool) (d : DPc).

(** The steps of [Endpoint::Impl::stop]: store [stopping]; [WaitForDrain] looks, looks again under its
    subscriptions, sleeps; the storage is joined. *)
Inductive WPc := WStore | WCheck | WWait | WAsleep | WClean.
Inductive CPc := CIdle | CTicker | CEndpoint (e : nat) (w : WPc).

(** [drained]: of the stop under way.  [ownerCancelled], [stopCancelled]: the contexts of start and
    of stop. *)
Record Source := mkSource {
  connectorId : Z;
  started : bool;
  endpoints : list Endpoint;
  executions : list Execution;
  completers : list Completer;
  ticker : TPc;
  control : CPc;
  drained : bool;
  ownerCancelled : bool;
  stopCancelled : bool;
}.

(** Field updates. *)
Definition set_plan v ep : Endpoint :=
  mkEndpoint (endpointId ep) (hasResult ep) v (overlapPolicy ep) (missedRunPolicy ep)
    (lastScheduled ep) (running ep) (stopping ep) (active ep) (tasks ep) (pending_ ep).
Definition set_overlapPolicy v ep : Endpoint :=
  mkEndpoint (endpointId ep) (hasResult ep) (plan ep) v (missedRunPolicy ep) (lastScheduled
    ep) (running ep) (stopping ep) (active ep) (tasks ep) (pending_ ep).
Definition set_missedRunPolicy v ep : Endpoint :=
  mkEndpoint (endpointId ep) (hasResult ep) (plan ep) (overlapPolicy ep) v (lastScheduled
    ep) (running ep) (stopping ep) (active ep) (tasks ep) (pending_ ep).
Definition set_lastScheduled v ep : Endpoint :=
  mkEndpoint (endpointId ep) (hasResult ep) (plan ep) (overlapPolicy ep) (missedRunPolicy
    ep) v (running ep) (stopping ep) (active ep) (tasks ep) (pending_ ep).
Definition set_running v ep : Endpoint :=
  mkEndpoint (endpointId ep) (hasResult ep) (plan ep) (overlapPolicy ep) (missedRunPolicy
    ep) (lastScheduled ep) v (stopping ep) (active ep) (tasks ep) (pending_ ep).
Definition set_stopping v ep : Endpoint :=
  mkEndpoint (endpointId ep) (hasResult ep) (plan ep) (overlapPolicy ep) (missedRunPolicy
    ep) (lastScheduled ep) (running ep) v (active ep) (tasks ep) (pending_ ep).
Definition set_active v ep : Endpoint :=
  mkEndpoint (endpointId ep) (hasResult ep) (plan ep) (overlapPolicy ep) (missedRunPolicy
    ep) (lastScheduled ep) (running ep) (stopping ep) v (tasks ep) (pending_ ep).
Definition set_tasks v ep : Endpoint :=
  mkEndpoint (endpointId ep) (hasResult ep) (plan ep) (overlapPolicy ep) (missedRunPolicy
    ep) (lastScheduled ep) (running ep) (stopping ep) (active ep) v (pending_ ep).
Definition set_pending_ v ep : Endpoint :=
  mkEndpoint (endpointId ep) (hasResult ep) (plan ep) (overlapPolicy ep) (missedRunPolicy
    ep) (lastScheduled ep) (running ep) (stopping ep) (active ep) (tasks ep) v.
Definition set_xpc v x : Execution :=
  mkExecution (xendpoint x) (xowns x) v (xstream x) (registered x) (done x) (sent x) (failed
    x).
Definition set_xstream v x : Execution :=
  mkExecution (xendpoint x) (xowns x) (xpc x) v (registered x) (done x) (sent x) (failed x).
Definition set_registered v x : Execution :=
  mkExecution (xendpoint x) (xowns x) (xpc x) (xstream x) v (done x) (sent x) (failed x).
Definition set_done v x : Execution :=
  mkExecution (xendpoint x) (xowns x) (xpc x) (xstream x) (registered x) v (sent x) (failed
    x).
Definition set_sent v x : Execution :=
  mkExecution (xendpoint x) (xowns x) (xpc x) (xstream x) (registered x) (done x) v (failed
    x).
Definition set_failed v x : Execution :=
  mkExecution (xendpoint x) (xowns x) (xpc x) (xstream x) (registered x) (done x) (sent x)
    v.
Definition set_kpc v k : Completer :=
  mkCompleter (kendpoint k) (kstream k) v.
Definition set_started v s : Source :=
  mkSource (connectorId s) v (endpoints s) (executions s) (completers s) (ticker s) (control
    s) (drained s) (ownerCancelled s) (stopCancelled s).
Definition set_endpoints v s : Source :=
  mkSource (connectorId s) (started s) v (executions s) (completers s) (ticker s) (control
    s) (drained s) (ownerCancelled s) (stopCancelled s).
Definition set_executions v s : Source :=
  mkSource (connectorId s) (started s) (endpoints s) v (completers s) (ticker s) (control s)
    (drained s) (ownerCancelled s) (stopCancelled s).
Definition set_completers v s : Source :=
  mkSource (connectorId s) (started s) (endpoints s) (executions s) v (ticker s) (control s)
    (drained s) (ownerCancelled s) (stopCancelled s).
Definition set_ticker v s : Source :=
  mkSource (connectorId s) (started s) (endpoints s) (executions s) (completers s) v
    (control s) (drained s) (ownerCancelled s) (stopCancelled s).
Definition set_control v s : Source :=
  mkSource (connectorId s) (started s) (endpoints s) (executions s) (completers s) (ticker
    s) v (drained s) (ownerCancelled s) (stopCancelled s).
Definition set_drained v s : Source :=
  mkSource (connectorId s) (started s) (endpoints s) (executions s) (completers s) (ticker
    s) (control s) v (ownerCancelled s) (stopCancelled s).
Definition set_ownerCancelled v s : Source :=
  mkSource (connectorId s) (started s) (endpoints s) (executions s) (completers s) (ticker
    s) (control s) (drained s) v (stopCancelled s).
Definition set_stopCancelled v s : Source :=
  mkSource (connectorId s) (started s) (endpoints s) (executions s) (completers s) (ticker
    s) (control s) (drained s) (ownerCancelled s) v.
Implicit Types (s : Source) (ep : Endpoint) (x : Execution) (k : Completer).

Definition newEndpoint (id : Z) (result : bool) : Endpoint :=
  mkEndpoint id result Off ScheduleOverlapPolicy.kSkip ScheduleMissedRunPolicy.kSkip None false true 0 false ∅.
Definition created (connector : Z) : Source := mkSource connector false [] [] [] TOff CIdle true false false.

Definition eupd (e : nat) (f : Endpoint -> Endpoint) s : Source := set_endpoints (alter f e (endpoints s)) s.
Definition xupd (i : nat) (f : Execution -> Execution) s : Source := set_executions (alter f i (executions s)) s.
Definition kupd (j : nat) (f : Completer -> Completer) s : Source := set_completers (alter f j (completers s)) s.

Section Cron.
(** [CronData::create(...).is_valid()], [add_schedule], [CronSchedule::calculate_from]. *)
Context (is_valid add_schedule : list ascii -> bool) (calculate_from : list ascii -> Z -> option Z).
Context {Value : Type}.

(** ** addEndpoint *)
Inductive AddError := AddAfterStart | DuplicateEndpoint | EndpointConfigNotFound | AnotherConnector.
Definition addEndpoint (cfg : option (Config Value)) ep s : Source * result AddError unit :=
  if started s then (s, Err AddAfterStart)
  else if existsb (fun existing => endpointId existing =? endpointId ep) (endpoints s) then (s, Err DuplicateEndpoint)
  else match cfg with
       | None => (s, Err EndpointConfigNotFound)
       | Some cfg =>
           if negb (CronEndpoint.idDataConnector cfg =? connectorId s) then (s, Err AnotherConnector)
           else (set_endpoints (endpoints s ++ [ep]) s, Ok tt)
       end.

(** ** start *)
Inductive StartError := ContextCancelled | AlreadyStarted | NoConfig | NotUtc | BadInterval | BadCron (e : Cron.CronError) | InvalidCron | TickerFailed.

Definition configure (cfg : Config Value) (now : Z) ep : Endpoint * result StartError unit :=
  let ep := set_plan Off ep in
  if negb (CronEndpoint.enabled cfg) then (ep, Ok tt)
  else if negb (String.eqb (CronEndpoint.timezone cfg) "UTC") then (ep, Err NotUtc)
  else
    let ep := ep |> set_overlapPolicy (CronEndpoint.overlapPolicy cfg) |> set_missedRunPolicy (CronEndpoint.missedRunPolicy cfg) in
    let open p := (ep |> set_plan p |> set_lastScheduled None |> set_tasks true |> set_stopping false, Ok tt) in
    match Interval.ParseLocalInterval (chars (CronEndpoint.schedule cfg)) with
    | Some (Err _) => (ep, Err BadInterval)
    | Some (Ok period) =>
        match Interval.make period now with
        | Err _ => (ep, Err BadInterval)
        | Ok interval => open (Every interval)
        end
    | None =>
        match Cron.ToLibcronExpression (chars (CronEndpoint.schedule cfg)) with
        | Err e => (ep, Err (BadCron e))
        | Ok expression => if is_valid expression then open (Cron expression) else (ep, Err InvalidCron)
        end
    end.
(** The loop of [start]: configure an endpoint, and give a cron expression to the scheduler. *)
Definition start_endpoint (cfg : Config Value) (now : Z) ep : Endpoint * result StartError unit :=
  let '(ep, r) := configure cfg now ep in
  match r, plan ep with
  | Ok _, Cron expression => (ep, if add_schedule expression then Ok tt else Err InvalidCron)
  | _, _ => (ep, r)
  end.
Fixpoint start_endpoints (cfgs : list (Config Value)) (now : Z) (eps : list Endpoint) : list Endpoint * result StartError unit :=
  match eps, cfgs with
  | [], _ => ([], Ok tt)
  | _, [] => (eps, Err NoConfig)
  | ep :: eps, cfg :: cfgs =>
      let '(ep, r) := start_endpoint cfg now ep in
      match r with
      | Err e => (ep :: eps, Err e)
      | Ok _ => let '(eps, r) := start_endpoints cfgs now eps in (ep :: eps, r)
      end
  end.
(** The period of the ticker, in milliseconds. *)
Definition pollingPeriod (eps : list Endpoint) : Z :=
  fold_left (fun p ep => match plan ep with Every i => Z.min p (Interval.period_ i / 2) | _ => p end) eps 500.

(** [stop] of an endpoint as it goes when nothing is active. *)
Definition stop_inactive ep : Endpoint := ep |> set_stopping true |> set_tasks false |> set_running false.
(** What [start] does when it fails: endpoints that have nothing active are stopped at once.  The
    code calls [WaitForDrain] for each of them; that this is one step here is no loss, since a
    start that fails has run no ticker since the last drained stop, so that [active] is 0 and the
    wait returns without sleeping.  An endpoint with something active is left undrained. *)
Definition roll_back (eps : list Endpoint) : list Endpoint * bool :=
  ((fun ep => if active ep =? 0 then stop_inactive ep else set_stopping true ep) <$> eps, forallb (fun ep => active ep =? 0) eps).
Definition start (cancelled : bool) (cfgs : list (Config Value)) (now : Z) (tickerStarts : bool) s : Source * result StartError unit :=
  if cancelled then (s, Err ContextCancelled)
  else if started s then (s, Err AlreadyStarted)
  else
    let '(eps, r) := start_endpoints cfgs now (endpoints s) in
    match (if tickerStarts then r else let? _ := r in Err TickerFailed) with
    | Ok _ => (s |> set_endpoints eps |> set_started true |> set_ownerCancelled false |> set_ticker TIdle, Ok tt)
    | Err e =>
        let '(eps, drained) := roll_back eps in
        (s |> set_endpoints eps |> set_started (negb drained) |> set_ticker TOff, Err e)
    end.

(** ** The ticker *)

(** The occurrences due at [scheduledAt], from a first one: the loop of [fire]. *)
Fixpoint count_due (fuel : nat) (expression : list ascii) (cursor scheduledAt : Z) (due : nat) : nat :=
  match fuel with
  | O => due
  | S fuel =>
      if cursor <=? scheduledAt then
        match calculate_from expression cursor with
        | None => due
        | Some next =>
            if scheduledAt <=? next then due
            else count_due fuel expression (next + Trigger.second) scheduledAt (S due)
        end
      else due
  end.
Definition occurrences_due (expression : list ascii) (last : option Z) (scheduledAt : Z) : nat :=
  match last with
  | None => 1
  | Some last =>
      count_due (S (Z.to_nat ((scheduledAt - last) / Trigger.second))) expression (last + Trigger.second) scheduledAt 1
  end.
(** libcron calls [fire] for an occurrence. *)
Definition fire (e : nat) (scheduledAt : Z) s : option Source :=
  match ticker s, endpoints s !! e with
  | TIdle, Some ep =>
      match plan ep with
      | Cron expression =>
          if ownerCancelled s then Some s
          else Some (s |> eupd e (set_lastScheduled (Some scheduledAt))
                       |> set_ticker (TDispatch e (1 <? occurrences_due expression (lastScheduled ep) scheduledAt)%nat DEnter))
      | _ => None
      end
  | _, _ => None
  end.
Definition fireInterval (e : nat) (now : Z) s : option Source :=
  match ticker s, endpoints s !! e with
  | TIdle, Some ep =>
      match plan ep with
      | Every i =>
          if ownerCancelled s then Some s
          else
            let '(i, due) := Interval.takeDue now i in
            let s := eupd e (set_plan (Every i)) s in
            Some (match due with Some d => set_ticker (TDispatch e (Interval.missed d) DEnter) s | None => s end)
      | _ => None
      end
  | _, _ => None
  end.

(** ** dispatch *)
Definition newExecution (e : nat) (owns : bool) : Execution := mkExecution e owns XBegin EmptyString false false false false.
(** A notification of an endpoint's condition variable reaches the stop that sleeps on it. *)
Definition notify (e : nat) s : Source :=
  match control s with CEndpoint e' WAsleep => if (e' =? e)%nat then set_control (CEndpoint e' WWait) s else s | _ => s end.
Definition dispatch_step (spawns : bool) (e : nat) (missed : bool) (d : DPc) ep s : option Source :=
  let go d := set_ticker (TDispatch e missed d) in
  let return_ := set_ticker TIdle in
  match d with
  | DEnter =>
      if ownerCancelled s then Some (return_ s)
      else if missed && bool_decide (missedRunPolicy ep = ScheduleMissedRunPolicy.kSkip) then Some (return_ s)
      else if stopping ep then Some (return_ s)
      else Some (go DClaim s)
  | DClaim =>
      if bool_decide (overlapPolicy ep = ScheduleOverlapPolicy.kSkip) then
        if running ep then Some (return_ s) else Some (s |> eupd e (set_running true) |> go (DAdmit true))
      else Some (go (DAdmit false) s)
  | DAdmit owns =>
      if stopping ep then Some ((if owns then eupd e (set_running false) s else s) |> return_)
      else Some (s |> eupd e (set_active (active ep + 1)) |> go (DSpawn owns))
  | DSpawn owns =>
      if tasks ep then
        if spawns then Some (s |> set_executions (executions s ++ [newExecution e owns]) |> return_) else Some (go (DUndo owns) s)
      else None
  | DUndo owns => Some ((if owns then eupd e (set_running false) s else s) |> go DUndoActive)
  | DUndoActive => Some (s |> eupd e (set_active (active ep - 1)) |> go DNotify)
  | DNotify => Some (s |> notify e |> return_)
  end.

(** ** Executions *)
Inductive Choice := Returns | Throws | Interrupted.

(** [Output] up to the call: the trigger is made, and a stream id that waits for a result entered. *)
Definition begin_execution (ok : bool) (stream : string) (i : nat) x ep s : Source :=
  let fail := xupd i (fun x => x |> set_failed true |> set_xpc XRelease) s in
  if negb ok then fail
  else if negb (hasResult ep) then xupd i (fun x => x |> set_xstream stream |> set_xpc XCall) s
  else if String.eqb stream "" then fail
  else match pending_ ep !! stream with
       | Some _ => fail
       | None => s |> eupd (xendpoint x) (set_pending_ (<[stream := i]> (pending_ ep)))
                   |> xupd i (fun x => x |> set_xstream stream |> set_registered true |> set_xpc XCall)
       end.
Definition erase (i : nat) x ep s : Source :=
  if bool_decide (pending_ ep !! xstream x = Some i)
  then eupd (xendpoint x) (set_pending_ (delete (xstream x) (pending_ ep))) s else s.
Definition execution_step (ch : Choice) (stream : string) (i : nat) s : option Source :=
  match executions s !! i with
  | None => None
  | Some x =>
      match endpoints s !! xendpoint x with
      | None => None
      | Some ep =>
          let fail pc := Some (xupd i (fun x => x |> set_failed true |> set_xpc pc) s) in
          let go pc s := Some (xupd i (set_xpc pc) s) in
          match xpc x with
          | XBegin => Some (begin_execution (match ch with Throws => false | _ => true end) stream i x ep s)
          | XCall =>
              match ch with
              | Throws => fail (if registered x then XErase else XRelease)
              | _ => go (if registered x then XWait else XRelease) s
              end
          | XWait =>
              match ch with
              | Interrupted => fail XErase
              | _ => if sent x then go XErase s else None
              end
          | XErase => go XRelease (erase i x ep s)
          | XRelease => go XLeave (if xowns x then eupd (xendpoint x) (set_running false) s else s)
          | XLeave => go XNotify (eupd (xendpoint x) (set_active (active ep - 1)) s)
          | XNotify => go XDone (notify (xendpoint x) s)
          | XDone => None
          end
      end
  end.

(** ** Results *)
Definition completeResult (e : nat) (stream : string) s : Source :=
  set_completers (completers s ++ [mkCompleter e stream KStart]) s.
Definition completer_step (j : nat) s : option Source :=
  match completers s !! j with
  | None => None
  | Some k =>
      let go pc s := Some (kupd j (set_kpc pc) s) in
      match kpc k with
      | KStart =>
          if String.eqb (kstream k) "" then go (KDone NoStreamId) s
          else match endpoints s !! kendpoint k with
               | None => None
               | Some ep => match pending_ ep !! kstream k with Some i => go (KFound i) s | None => go (KDone Missing) s end
               end
      | KFound i =>
          match executions s !! i with
          | None => None
          | Some x => if done x then go (KDone Duplicate) s else go (KSend i) (xupd i (set_done true) s)
          end
      | KSend i => go (KDone Completed) (xupd i (set_sent true) s)
      | KDone _ => None
      end
  end.

(** ** stop *)
Definition stop (cancelled : bool) s : option Source :=
  match control s with
  | CIdle => Some (if started s then s |> set_stopCancelled cancelled |> set_drained true |> set_control CTicker else s)
  | _ => None
  end.
(** The next endpoint; after the last, [stop] throws unless all were drained. *)
Definition next_endpoint (e : nat) s : Source :=
  if (S e <? length (endpoints s))%nat then set_control (CEndpoint (S e) WStore) s
  else s |> set_started (negb (drained s)) |> set_control CIdle.
Definition not_drained (e : nat) s : Source := s |> set_drained false |> next_endpoint e.
Definition returned (e : nat) x : bool := negb (xendpoint x =? e)%nat || bool_decide (xpc x = XDone).
Definition stop_step s : option Source :=
  match control s with
  | CIdle => None
  | CTicker =>
      match ticker s with
      | TDispatch _ _ _ => None
      | _ =>
          let s := set_ticker TOff s in
          Some (match endpoints s with
                | [] => s |> set_started false |> set_control CIdle
                | _ => set_control (CEndpoint 0 WStore) s
                end)
      end
  | CEndpoint e w =>
      match endpoints s !! e with
      | None => None
      | Some ep =>
          match w with
          | WStore => Some (s |> eupd e (set_stopping true) |> set_control (CEndpoint e WCheck))
          | WCheck =>
              if active ep =? 0 then Some (set_control (CEndpoint e WClean) s)
              else if stopCancelled s then Some (not_drained e s)
              else Some (set_control (CEndpoint e WWait) s)
          | WWait =>
              if active ep =? 0 then Some (set_control (CEndpoint e WClean) s)
              else if stopCancelled s then Some (not_drained e s)
              else Some (set_control (CEndpoint e WAsleep) s)
          | WAsleep => None
          | WClean =>
              if forallb (returned e) (executions s)
              then Some (s |> eupd e (fun ep => ep |> set_tasks false |> set_running false) |> next_endpoint e)
              else None
          end
      end
  end.
(** A cancellation of the context of a stop, or its deadline; and the wakeup that follows it: the
    task that the stop callback woke, or the end of the timed wait. *)
Definition cancel_stop s : Source := set_stopCancelled true s.
Definition wake_stop s : option Source :=
  match control s with CEndpoint e WAsleep => Some (set_control (CEndpoint e WWait) s) | _ => None end.

(** ** Steps *)
Inductive Action :=
  | AAdd (cfg : option (Config Value)) (id : Z) (result : bool)
  | AStart (cancelled : bool) (cfgs : list (Config Value)) (now : Z) (tickerStarts : bool)
  | AStop (cancelled : bool) | AStopStep | ACancelStop | AWakeStop | ACancelOwner
  | AFire (e : nat) (scheduledAt : Z) | AInterval (e : nat) (now : Z) | ADispatch (spawns : bool)
  | AExecution (ch : Choice) (stream : string) (i : nat)
  | AResult (e : nat) (stream : string) | ACompleter (j : nat).

Definition act (a : Action) s : option Source :=
  match a with
  | AAdd cfg id result => match control s with CIdle => Some (addEndpoint cfg (newEndpoint id result) s).1 | _ => None end
  | AStart cancelled cfgs now ok => match control s with CIdle => Some (start cancelled cfgs now ok s).1 | _ => None end
  | AStop cancelled => stop cancelled s
  | AStopStep => stop_step s
  | ACancelStop => Some (cancel_stop s)
  | AWakeStop => wake_stop s
  | ACancelOwner => Some (set_ownerCancelled true s)
  | AFire e scheduledAt => fire e scheduledAt s
  | AInterval e now => fireInterval e now s
  | ADispatch spawns =>
      match ticker s with
      | TDispatch e missed d => ep ← endpoints s !! e; dispatch_step spawns e missed d ep s
      | _ => None
      end
  | AExecution ch stream i => execution_step ch stream i s
  | AResult e stream => Some (completeResult e stream s)
  | ACompleter j => completer_step j s
  end.
Definition cron_step s s' : Prop := exists a, act a s = Some s'.
Definition cron_reachable (connector : Z) s : Prop := rtc cron_step (created connector) s.
Fixpoint run (acts : list Action) s : option Source :=
  match acts with
  | [] => Some s
  | a :: acts => s ← act a s; run acts s
  end.
End Cron.
End CronSource.
