(* ===== verification/CronSourceTheorems.v ===== *)
(** * What the cron data source promises

    An endpoint that skips overlapping runs has one execution at a time; a stopped source has none
    left; a stop waits for nothing but executions, and the end of the last one wakes it; an
    occurrence counts as missed when there was another since the last one. *)
From Stdlib Require Import Lia Ascii.
From stdpp Require Import strings gmap.
From S2P Require Import Prelude Monitor Schedule ServiceApi ConfigYaml EndpointTypes CronSource.
Import CronSource.
Local Open Scope Z_scope.

Section Theorems.
Context {is_valid add_schedule : list ascii -> bool} {calculate_from : list ascii -> Z -> option Z} {Value : Type}.
Abbreviation act := (act is_valid add_schedule calculate_from (Value := Value)).
Abbreviation cron_step := (cron_step is_valid add_schedule calculate_from (Value := Value)).
Abbreviation cron_reachable := (cron_reachable is_valid add_schedule calculate_from (Value := Value)).
Implicit Types (s : Source) (ep : Endpoint) (x : Execution).

(** ** What the invariant counts *)

(** The execution is counted in [active]; it may hold [running]; its id may be in the table. *)
Definition working (e : nat) x : bool :=
  (xendpoint x =? e)%nat && match xpc x with XNotify | XDone => false | _ => true end.
Definition runs (e : nat) x : bool :=
  (xendpoint x =? e)%nat && match xpc x with XLeave | XNotify | XDone => false | _ => true end.
Definition owning (e : nat) x : bool := runs e x && xowns x.
Definition waiting x : bool := registered x && match xpc x with XCall | XWait | XErase => true | _ => false end.

(** What a dispatch under way has taken. *)
Definition d_active (e : nat) (t : TPc) : bool :=
  match t with TDispatch e' _ (DSpawn _ | DUndo _ | DUndoActive) => (e' =? e)%nat | _ => false end.
Definition d_owns (e : nat) (t : TPc) : bool :=
  match t with TDispatch e' _ (DAdmit o | DSpawn o | DUndo o) => (e' =? e)%nat && o | _ => false end.
Definition d_unowned (e : nat) (t : TPc) : bool :=
  match t with TDispatch e' _ (DAdmit o | DSpawn o | DUndo o) => (e' =? e)%nat && negb o | _ => false end.
Definition d_at (e : nat) (t : TPc) : bool := match t with TDispatch e' _ _ => (e' =? e)%nat | _ => false end.

Record ep_ok s (e : nat) ep : Prop := {
  ok_active : active ep = Monitor.tallied (working e) (executions s) + Z.b2z (d_active e (ticker s));
  ok_running : Z.b2z (running ep) = Monitor.tallied (owning e) (executions s) + Z.b2z (d_owns e (ticker s));
  ok_skip : overlapPolicy ep = ScheduleOverlapPolicy.kSkip ->
    d_unowned e (ticker s) = false /\ forall i x, executions s !! i = Some x -> runs e x = true -> xowns x = true;
  ok_tasks : tasks ep = false ->
    d_at e (ticker s) = false /\ forall i x, executions s !! i = Some x -> xendpoint x = e -> xpc x = XDone;
  ok_plan : ticker s <> TOff -> plan ep <> Off -> tasks ep = true;
  ok_pending st i : pending_ ep !! st = Some i <->
    exists x, executions s !! i = Some x /\ xendpoint x = e /\ xstream x = st /\ waiting x = true;
}.

Record inv s : Prop := {
  inv_ep e ep : endpoints s !! e = Some ep -> ep_ok s e ep;
  inv_exec i x : executions s !! i = Some x -> is_Some (endpoints s !! xendpoint x) /\ (xpc x = XBegin -> registered x = false);
  inv_ticker : ticker s <> TOff -> started s = true /\ (control s = CIdle \/ control s = CTicker);
  inv_control e w : control s = CEndpoint e w ->
    ticker s = TOff /\ started s = true /\ (e < length (endpoints s))%nat;
  inv_cticker : control s = CTicker -> started s = true;
  inv_stopping e w ep : control s = CEndpoint e w -> w <> WStore -> endpoints s !! e = Some ep -> stopping ep = true;
  inv_clean e ep : control s = CEndpoint e WClean -> endpoints s !! e = Some ep -> active ep = 0;
  inv_passed e w j ep : control s = CEndpoint e w -> drained s = true -> (j < e)%nat -> endpoints s !! j = Some ep ->
    tasks ep = false;
  inv_stopped e ep : started s = false -> endpoints s !! e = Some ep -> tasks ep = false;
  inv_asleep e ep : control s = CEndpoint e WAsleep -> endpoints s !! e = Some ep -> active ep = 0 ->
    exists i x, executions s !! i = Some x /\ xendpoint x = e /\ xpc x = XNotify;
  inv_at e m d : ticker s = TDispatch e m d -> is_Some (endpoints s !! e);
}.

Lemma tallied_alter {A} (P : A -> bool) (l : list A) f i a :
  l !! i = Some a -> Monitor.tallied P (alter f i l) = Monitor.tallied P l - Z.b2z (P a) + Z.b2z (P (f a)).
Proof. intros Hx. rewrite (alter_insert _ _ _ a Hx). by apply Monitor.tallied_insert. Qed.
Lemma tallied_app {A} (P : A -> bool) (l l' : list A) :
  Monitor.tallied P (l ++ l') = Monitor.tallied P l + Monitor.tallied P l'.
Proof. unfold Monitor.tallied. rewrite filter_app, length_app. lia. Qed.
Lemma tallied_nil {A} (P : A -> bool) : Monitor.tallied P [] = 0.
Proof. done. Qed.
Lemma tallied_none {A} (P : A -> bool) (l : list A) :
  (forall i a, l !! i = Some a -> P a = false) -> Monitor.tallied P l = 0.
Proof.
  intros Hn. pose proof (Monitor.tallied_le P l). destruct (decide (1 <= Monitor.tallied P l)) as [H1|]; [|lia].
  apply Monitor.tallied_pos in H1 as (i & x & Hx & Hp). rewrite (Hn i x Hx) in Hp. done.
Qed.

(** Nothing is left where the storage is gone. *)
Lemma tasks_clean s e ep : inv s -> endpoints s !! e = Some ep -> tasks ep = false ->
  active ep = 0 /\ running ep = false /\ pending_ ep = ∅.
Proof.
  intros Hi He Ht. destruct (inv_ep _ Hi e ep He) as [Ha Hr _ Htk _ Hp]. destruct (Htk Ht) as [Hd Hx].
  assert (d_active e (ticker s) = false) as Hda by (destruct (ticker s) as [| |? ? []]; simpl in *; congruence).
  assert (d_owns e (ticker s) = false) as Hdo.
  { destruct (ticker s) as [| |? ? []]; simpl in *; try congruence; by rewrite Hd. }
  rewrite Hda in Ha. rewrite Hdo in Hr. split_and!.
  - rewrite Ha, tallied_none; [done|]. intros i x Hix. unfold working. destruct (xendpoint x =? e)%nat eqn:Hxe; [|done].
    apply Nat.eqb_eq in Hxe. by rewrite (Hx i x Hix Hxe).
  - rewrite tallied_none in Hr; [by destruct (running ep)|]. intros i x Hix. unfold owning, runs.
    destruct (xendpoint x =? e)%nat eqn:Hxe; [|done]. apply Nat.eqb_eq in Hxe. by rewrite (Hx i x Hix Hxe).
  - apply map_empty. intros st. apply eq_None_not_Some. intros [i (x & Hix & Hxe & _ & Hw)%Hp].
    unfold waiting in Hw. rewrite (Hx i x Hix Hxe) in Hw. by rewrite andb_false_r in Hw.
Qed.

(** ** Steps *)

(** What a step of one execution does to the execution and its endpoint. *)
Record x_move s s' (e i : nat) x (f : Execution -> Execution) ep ep' : Prop := {
  xm_tasks : tasks ep' = tasks ep;
  xm_stopping : stopping ep' = stopping ep;
  xm_plan : plan ep' = plan ep;
  xm_policy : overlapPolicy ep' = overlapPolicy ep;
  xm_active : active ep' = active ep - Z.b2z (working e x) + Z.b2z (working e (f x));
  xm_running : Z.b2z (running ep') = Z.b2z (running ep) - Z.b2z (owning e x) + Z.b2z (owning e (f x));
  xm_pending st j : pending_ ep' !! st = Some j <->
    (j = i /\ xstream (f x) = st /\ waiting (f x) = true) \/ (j <> i /\ pending_ ep !! st = Some j);
}.
Section ExecutionMove.
Context (s s' : Source) (e i : nat) (x : Execution) (f : Execution -> Execution) (g : Endpoint -> Endpoint).
Hypothesis (Hi : inv s) (Hx : executions s !! i = Some x) (Hxe : xendpoint x = e) (Hnd : xpc x <> XDone).
Hypothesis (Hexs : executions s' = alter f i (executions s)) (Heps : endpoints s' = alter g e (endpoints s)).
Hypothesis (Hst : started s' = started s) (Htk : ticker s' = ticker s) (Hdr : drained s' = drained s).
Hypothesis Hco : control s' = control s \/ (control s = CEndpoint e WAsleep /\ control s' = CEndpoint e WWait).
Hypothesis (Hfe : xendpoint (f x) = e) (Hfo : xowns (f x) = xowns x).
Hypothesis (Hfr : runs e (f x) = true -> runs e x = true) (Hfw : working e (f x) = true -> working e x = true).
Hypothesis Hsl : control s' = CEndpoint e WAsleep -> xpc (f x) = XNotify \/ working e (f x) = true.
Hypothesis Hfb : xpc (f x) <> XBegin.
Hypothesis Hm : forall ep, endpoints s !! e = Some ep -> x_move s s' e i x f ep (g ep).

Lemma em_length : length (endpoints s') = length (endpoints s).
Proof. rewrite Heps; apply length_alter. Qed.
Lemma em_endpoint : forall e' ep', endpoints s' !! e' = Some ep' -> exists ep, endpoints s !! e' = Some ep /\
    ((e' = e /\ ep' = g ep /\ x_move s s' e i x f ep ep') \/ (e' <> e /\ ep' = ep)).
Proof.
  intros e' ep' He. rewrite Heps in He. destruct (decide (e' = e)) as [->|Hne].
  - rewrite list_lookup_alter_eq in He. destruct (endpoints s !! e) as [ep|] eqn:Hep; [|done]. injection He as <-.
    exists ep. split; [done|]. left. auto.
  - rewrite list_lookup_alter_ne in He by done. exists ep'. auto.
Qed.
Lemma em_tallied : forall P, Monitor.tallied P (executions s') = Monitor.tallied P (executions s) - Z.b2z (P x) + Z.b2z (P (f x)).
Proof.
  intros P. rewrite Hexs. by apply tallied_alter.
Qed.
Lemma em_lookup : forall j, executions s' !! j = if decide (i = j) then Some (f x) else executions s !! j.
Proof.
  intros j. rewrite Hexs. by apply lookup_alter_req.
Qed.
Lemma em_other : forall e', e' <> e -> working e' x = false /\ working e' (f x) = false /\ owning e' x = false /\ owning e' (f x) = false.
Proof.
  intros e' Hne. unfold owning, working, runs. rewrite Hxe, Hfe. assert ((e =? e')%nat = false) as -> by (apply Nat.eqb_neq; congruence). done.
Qed.
Lemma em_ep_ok : forall e' ep', endpoints s' !! e' = Some ep' -> ep_ok s' e' ep'.
Proof.
  intros e' ep' He. destruct (em_endpoint _ _ He) as (ep & Hep0 & [(-> & _ & Hxm)|(Hne & ->)]); destruct (inv_ep _ Hi _ _ Hep0) as [Ha Hr Hs Ht Hp Hpe].
  - destruct Hxm as [Xt Xs Xp Xo Xa Xr Xd]. split.
    + rewrite Xa, Ha, em_tallied, Htk. lia.
    + rewrite Xr, Hr, em_tallied, Htk. lia.
    + rewrite Xo, Htk. intros [Hd Hall]%Hs. split; [done|]. intros j y. rewrite em_lookup. destruct (decide (i = j)); [|apply Hall].
      intros [= <-] Hy. rewrite Hfo. eauto.
    + rewrite Xt. intros [_ Hall]%Ht. by destruct (Hnd (Hall i x Hx Hxe)).
    + rewrite Xt, Xp, Htk. exact Hp.
    + intros st j. rewrite Xd, Hpe. split.
      * intros [(-> & ? & ?)|(Hji & y & Hy & ?)]; [exists (f x)|exists y]; rewrite em_lookup; [by rewrite decide_True|by rewrite decide_False by congruence].
      * intros (y & Hy & Hye & Hst' & Hw). rewrite em_lookup in Hy. destruct (decide (i = j)) as [<-|]; [injection Hy as <-; by left|right; eauto 10].
  - destruct (em_other e' Hne) as (H1 & H2 & H3 & H4). split.
    + rewrite em_tallied, Htk, H1, H2, Ha. lia.
    + rewrite em_tallied, Htk, H3, H4, Hr. lia.
    + rewrite Htk. intros [Hd Hall]%Hs. split; [done|]. intros j y. rewrite em_lookup. destruct (decide (i = j)); [|apply Hall].
      intros [= <-] Hy. unfold runs in Hy. rewrite Hfe in Hy. apply andb_prop in Hy as [Hy _]. apply Nat.eqb_eq in Hy. congruence.
    + rewrite Htk. intros [Hd Hall]%Ht. split; [done|]. intros j y. rewrite em_lookup. destruct (decide (i = j)); [|apply Hall].
      intros [= <-]. congruence.
    + rewrite Htk. exact Hp.
    + intros st j. rewrite Hpe. rewrite em_lookup. destruct (decide (i = j)) as [<-|]; [|done].
      split; intros (y & Hy & Hye & _); [rewrite Hx in Hy; injection Hy as <-|injection Hy as <-]; congruence.
Qed.
Lemma execution_moves : inv s'.
Proof.
  split.
  - exact em_ep_ok.
  - intros j y. rewrite em_lookup, lookup_lt_is_Some, em_length, <- lookup_lt_is_Some. destruct (decide (i = j)); [|apply (inv_exec _ Hi j)].
    intros [= <-]. rewrite Hfe, <- Hxe. split; [by apply (inv_exec _ Hi i)|done].
  - rewrite Htk, Hst. intros Ht. destruct (inv_ticker _ Hi Ht) as [? Hc]. split; [done|].
    destruct Hco as [->|[Hc' _]]; [done|]. by destruct Hc; congruence.
  - intros e' w Hc. rewrite Htk, Hst, em_length. destruct Hco as [Heq|[Hc' Hc'']]; [apply (inv_control _ Hi e' w); congruence|].
    apply (inv_control _ Hi e' WAsleep). congruence.
  - rewrite Hst. destruct Hco as [->|[Hc' ->]]; [apply (inv_cticker _ Hi)|done].
  - intros e' w ep' Hc Hw He. destruct (em_endpoint _ _ He) as (ep & Hep0 & Hcase).
    assert (stopping ep = true) as Hs.
    { destruct Hco as [Heq|[Hc' Hc'']]; [apply (inv_stopping _ Hi e' w ep); congruence|]. apply (inv_stopping _ Hi e' WAsleep ep); congruence. }
    destruct Hcase as [(_ & _ & Hxm)|(_ & ->)]; [|done]. by rewrite (xm_stopping _ _ _ _ _ _ _ _ Hxm).
  - intros e' ep' Hc He. destruct (em_endpoint _ _ He) as (ep & Hep0 & Hcase).
    destruct Hco as [Heq|[Hc' Hc'']]; [|congruence]. rewrite Heq in Hc. pose proof (inv_clean _ Hi _ _ Hc Hep0) as H0.
    destruct Hcase as [(-> & _ & Hxm)|(_ & ->)]; [|done]. pose proof (ok_active _ _ _ (em_ep_ok _ _ He)) as Ha.
    pose proof (ok_active _ _ _ (inv_ep _ Hi _ _ Hep0)) as Ha0. rewrite H0 in Ha0.
    pose proof (Monitor.tallied_le (working e) (executions s)). pose proof (xm_active _ _ _ _ _ _ _ _ Hxm) as Hxa.
    assert (working e x = false) as Hwx.
    { eapply Monitor.tallied_zero; [|exact Hx]. destruct (d_active e (ticker s)); simpl in Ha0; lia. }
    rewrite Hwx, H0 in Hxa. destruct (working e (f x)); [by rewrite Hfw in Hwx|]. simpl in Hxa. lia.
  - intros e' w j ep' Hc. rewrite Hdr. intros Hd Hj He. destruct (em_endpoint _ _ He) as (ep & Hep0 & Hcase).
    assert (tasks ep = false) as Hs.
    { destruct Hco as [Heq|[Hc' Hc'']]; [apply (inv_passed _ Hi e' w j ep); congruence|]. apply (inv_passed _ Hi e' WAsleep j ep); congruence. }
    destruct Hcase as [(_ & _ & Hxm)|(_ & ->)]; [|done]. by rewrite (xm_tasks _ _ _ _ _ _ _ _ Hxm).
  - rewrite Hst. intros e' ep' Hs He. destruct (em_endpoint _ _ He) as (ep & Hep0 & Hcase). pose proof (inv_stopped _ Hi _ _ Hs Hep0) as Ht.
    destruct Hcase as [(_ & _ & Hxm)|(_ & ->)]; [|done]. by rewrite (xm_tasks _ _ _ _ _ _ _ _ Hxm).
  - intros e' ep' Hc He H0. destruct (em_endpoint _ _ He) as (ep & Hep0 & Hcase).
    destruct Hco as [Heq|[Hc' Hc'']]; [|congruence]. destruct Hcase as [(-> & _ & Hxm)|(Hne & ->)].
    + destruct (Hsl Hc) as [Hn|Hw].
      * exists i, (f x). rewrite em_lookup. by rewrite decide_True.
      * pose proof (ok_active _ _ _ (em_ep_ok _ _ He)) as Ha. pose proof (Monitor.tallied_le (working e) (executions s')).
        assert (1 <= Monitor.tallied (working e) (executions s')); [|destruct (d_active e (ticker s')); simpl in Ha; lia].
        apply Monitor.tallied_pos. exists i, (f x). rewrite em_lookup. by rewrite decide_True.
    + destruct (inv_asleep _ Hi e' ep) as (j & y & Hy & Hye & Hn); [congruence|done..|]. exists j, y. rewrite em_lookup.
      rewrite decide_False; [done|]. intros <-. congruence.
  - intros e' m d. rewrite Htk, lookup_lt_is_Some, em_length, <- lookup_lt_is_Some. apply (inv_at _ Hi).
Qed.
End ExecutionMove.

(** What a step of the ticker does to the endpoint it is at, and the executions it adds. *)
Record t_move s s' (e : nat) (l : list Execution) ep ep' : Prop := {
  tm_tasks : tasks ep' = tasks ep;
  tm_there : tasks ep = true;
  tm_plan : plan ep' <> Off -> plan ep <> Off;
  tm_policy : overlapPolicy ep' = overlapPolicy ep;
  tm_pending : pending_ ep' = pending_ ep;
  tm_active : active ep' + Z.b2z (d_active e (ticker s)) = active ep + Z.b2z (d_active e (ticker s')) + Monitor.tallied (working e) l;
  tm_running : Z.b2z (running ep') + Z.b2z (d_owns e (ticker s)) =
    Z.b2z (running ep) + Z.b2z (d_owns e (ticker s')) + Monitor.tallied (owning e) l;
  tm_skip : overlapPolicy ep = ScheduleOverlapPolicy.kSkip -> d_unowned e (ticker s) = false ->
    d_unowned e (ticker s') = false /\ forall x, x ∈ l -> xowns x = true;
}.
Definition t_at (e : nat) (t : TPc) : Prop := t = TIdle \/ exists m d, t = TDispatch e m d.

Lemma t_at_other e e' t : t_at e t -> e' <> e ->
  d_active e' t = false /\ d_owns e' t = false /\ d_unowned e' t = false /\ d_at e' t = false /\ t <> TOff.
Proof.
  intros [->|(m & d & ->)] Hne; [done|]. assert ((e =? e')%nat = false) as Hb by (apply Nat.eqb_neq; congruence).
  by destruct d; simpl; rewrite ?Hb.
Qed.
Lemma ticker_moves s s' e g l :
  inv s -> t_at e (ticker s) -> t_at e (ticker s') -> executions s' = executions s ++ l ->
  (forall x, x ∈ l -> xendpoint x = e /\ registered x = false) ->
  endpoints s' = alter g e (endpoints s) -> is_Some (endpoints s !! e) ->
  started s' = started s -> control s' = control s ->
  (forall ep, endpoints s !! e = Some ep -> t_move s s' e l ep (g ep)) -> inv s'.
Proof.
  intros Hi Ht Ht' Hexs Hl Heps He Hst Hco Hm.
  assert (Hon : ticker s <> TOff) by (by destruct Ht as [->|(m & d & ->)]).
  assert (Hon' : ticker s' <> TOff) by (by destruct Ht' as [->|(m & d & ->)]).
  destruct (inv_ticker _ Hi Hon) as [Hs Hc].
  assert (Hlk : forall j x, executions s' !! j = Some x -> executions s !! j = Some x \/ x ∈ l).
  { intros j x. rewrite Hexs, lookup_app_Some. intros [?|[_ ?%list_elem_of_lookup_2]]; auto. }
  assert (Hold : forall j x, executions s !! j = Some x -> executions s' !! j = Some x).
  { intros j x Hj. rewrite Hexs. by apply lookup_app_l_Some. }
  split; rewrite ?Hst, ?Hco; try (intros; destruct Hc; congruence).
  - intros e' ep' He'. rewrite Heps in He'. destruct (decide (e' = e)) as [->|Hne].
    + rewrite list_lookup_alter_eq in He'. destruct (endpoints s !! e) as [ep|] eqn:Hep; [|done]. injection He' as <-.
      destruct (inv_ep _ Hi _ _ Hep) as [Ha Hr Hsk Htk Hp Hpe], (Hm ep eq_refl) as [Xt Xy Xp Xo Xd Xa Xr Xs]. split.
      * rewrite Hexs, tallied_app. lia.
      * rewrite Hexs, tallied_app. lia.
      * rewrite Xo. intros Ho. destruct (Hsk Ho) as [Hd Hall], (Xs Ho (proj1 (Hsk Ho))) as [Hd' Hnew]. split; [done|].
        intros j x [Hj|Hj]%Hlk; [by apply Hall with j|intros _; by apply Hnew].
      * rewrite Xt. congruence.
      * rewrite Xt. done.
      * intros st j. rewrite Xd, Hpe. split; intros (x & Hx & Hx'); exists x; (split; [|done]); [by apply Hold|].
        apply Hlk in Hx as [|[_ Hw]%Hl]; [done|]. destruct Hx' as (_ & _ & Hx'). unfold waiting in Hx'. by rewrite Hw in Hx'.
    + rewrite list_lookup_alter_ne in He' by done. destruct (inv_ep _ Hi _ _ He') as [Ha Hr Hsk Htk Hp Hpe].
      destruct (t_at_other _ _ _ Ht Hne) as (T1 & T2 & T3 & T4 & _), (t_at_other _ _ _ Ht' Hne) as (T1' & T2' & T3' & T4' & _).
      assert (Hz : forall P, (forall x, x ∈ l -> P x = false) -> Monitor.tallied P l = 0).
      { intros P HP. apply tallied_none. intros i x Hx. by apply HP, (list_elem_of_lookup_2 _ i). }
      assert (Hn : forall x, x ∈ l -> (xendpoint x =? e')%nat = false) by (intros x [Hx _]%Hl; apply Nat.eqb_neq; congruence).
      split.
      * rewrite Hexs, tallied_app, Hz, T1', Ha, T1; [lia|]. intros x Hx. unfold working. by rewrite Hn.
      * rewrite Hexs, tallied_app, Hz, T2', Hr, T2; [lia|]. intros x Hx. unfold owning, runs. by rewrite Hn.
      * rewrite T3'. intros Ho. destruct (Hsk Ho) as [_ Hall]. split; [done|].
        intros j x [Hj|Hj]%Hlk; [by apply Hall with j|]. unfold runs. by rewrite Hn.
      * rewrite T4'. intros Hx. destruct (Htk Hx) as [_ Hall]. split; [done|].
        intros j x [Hj|Hj]%Hlk; [by apply Hall with j|]. intros Hxe. apply Hn in Hj. by rewrite Hxe, Nat.eqb_refl in Hj.
      * intros _. by apply Hp.
      * intros st j. rewrite Hpe. split; intros (x & Hx & Hx'); exists x; (split; [|done]); [by apply Hold|].
        apply Hlk in Hx as [|Hx]; [done|]. apply Hn in Hx. destruct Hx' as (Hxe & _). by rewrite Hxe, Nat.eqb_refl in Hx.
  - intros j x [Hj|[-> Hr]%Hl]%Hlk; rewrite Heps, lookup_lt_is_Some, length_alter, <- lookup_lt_is_Some; [by apply (inv_exec _ Hi j)|done].
  - intros _. done.
  - intros e' m d Hd. rewrite Heps, lookup_lt_is_Some, length_alter, <- lookup_lt_is_Some.
    destruct Ht' as [E|(m' & d' & E)]; [congruence|]. by replace e' with e by congruence.
Qed.

(** Nothing dispatches. *)
Definition t_quiet (t : TPc) : Prop := t = TOff \/ t = TIdle.
Lemma ep_ok_quiet s s' e ep ep' :
  ep_ok s e ep -> executions s' = executions s -> t_quiet (ticker s) -> t_quiet (ticker s') ->
  active ep' = active ep -> running ep' = running ep -> pending_ ep' = pending_ ep -> overlapPolicy ep' = overlapPolicy ep ->
  (tasks ep' = false -> forall i x, executions s !! i = Some x -> xendpoint x = e -> xpc x = XDone) ->
  (ticker s' <> TOff -> plan ep' <> Off -> tasks ep' = true) -> ep_ok s' e ep'.
Proof.
  intros [Ha Hr Hs Ht Hp Hpe] Hex Hq Hq' Xa Xr Xp Xo Xt Xn.
  assert (Hz : forall t, t_quiet t -> d_active e t = false /\ d_owns e t = false /\ d_unowned e t = false /\ d_at e t = false) by (by intros t [->| ->]).
  destruct (Hz _ Hq) as (Q1 & Q2 & Q3 & Q4), (Hz _ Hq') as (Q1' & Q2' & Q3' & Q4').
  split; rewrite ?Xa, ?Xr, ?Xp, ?Xo, ?Hex, ?Q1', ?Q2', ?Q3', ?Q4'; [by rewrite <- Q1|by rewrite <- Q2| | |done|done].
  - intros Ho. by destruct (Hs Ho).
  - intros Hf. split; [done|]. by apply Xt.
Qed.
(** A stop changes no count. *)
Record s_move s (e : nat) ep ep' : Prop := {
  sm_active : active ep' = active ep;
  sm_running : running ep' = running ep;
  sm_pending : pending_ ep' = pending_ ep;
  sm_policy : overlapPolicy ep' = overlapPolicy ep;
  sm_tasks : tasks ep' = tasks ep \/ tasks ep' = false /\ forall i x, executions s !! i = Some x -> xendpoint x = e -> xpc x = XDone;
}.
Lemma stop_moves s s' e w g :
  inv s -> control s = CEndpoint e w -> executions s' = executions s -> ticker s' = TOff ->
  endpoints s' = alter g e (endpoints s) ->
  (forall ep, endpoints s !! e = Some ep -> s_move s e ep (g ep)) ->
  (forall e' ep, endpoints s' !! e' = Some ep -> ep_ok s' e' ep) /\
  (forall i x, executions s' !! i = Some x -> is_Some (endpoints s' !! xendpoint x) /\ (xpc x = XBegin -> registered x = false)) /\
  (drained s = true -> forall j ep, (j < e)%nat -> endpoints s' !! j = Some ep -> tasks ep = false).
Proof.
  intros Hi Hc Hex Htk Heps Hm. destruct (inv_control _ Hi _ _ Hc) as (Ht & Hs & He). split_and!.
  - intros e' ep' He'. rewrite Heps in He'. destruct (decide (e' = e)) as [->|Hne].
    + rewrite list_lookup_alter_eq in He'. destruct (endpoints s !! e) as [ep|] eqn:Hep; [|done]. injection He' as <-.
      pose proof (inv_ep _ Hi _ _ Hep) as Ho. destruct (Hm ep eq_refl) as [Xa Xr Xp Xo Xt].
      apply (ep_ok_quiet s s' e ep); [done..|left; done|left; done|done|done|done|done| |by rewrite Htk].
      intros Hf. destruct Xt as [Xt|[_ Xt]]; [|exact Xt]. rewrite Xt in Hf. by destruct (ok_tasks _ _ _ Ho Hf).
    + rewrite list_lookup_alter_ne in He' by done. pose proof (inv_ep _ Hi _ _ He') as Ho.
      apply (ep_ok_quiet s s' e' ep'); [done..|left; done|left; done|done|done|done|done| |by rewrite Htk].
      intros Hf. by destruct (ok_tasks _ _ _ Ho Hf).
  - intros i x. rewrite Hex, Heps, lookup_lt_is_Some, length_alter, <- lookup_lt_is_Some. apply (inv_exec _ Hi).
  - intros Hd j ep Hj. rewrite Heps, list_lookup_alter_ne by lia. by apply (inv_passed _ Hi _ _ _ _ Hc Hd Hj).
Qed.
(** The next endpoint, or the end. *)
Lemma next_moves s s1 e w g :
  inv s -> control s = CEndpoint e w -> executions s1 = executions s -> ticker s1 = TOff -> started s1 = true ->
  endpoints s1 = alter g e (endpoints s) -> (drained s1 = true -> drained s = true) ->
  (forall ep, endpoints s !! e = Some ep -> s_move s e ep (g ep) /\ (drained s1 = true -> tasks (g ep) = false)) ->
  inv (next_endpoint e s1).
Proof.
  intros Hi Hc Hex Htk Hs1 Heps Hdr Hm.
  assert (Hs' : executions (next_endpoint e s1) = executions s1 /\ ticker (next_endpoint e s1) = ticker s1 /\
                endpoints (next_endpoint e s1) = endpoints s1 /\ drained (next_endpoint e s1) = drained s1).
  { unfold next_endpoint. by case_match. }
  destruct Hs' as (E1 & E2 & E3 & E4).
  destruct (stop_moves s (next_endpoint e s1) e w g) as (M1 & M2 & M3); [done|done|congruence|congruence|congruence|by intros; apply Hm|].
  assert (Hlast : drained s1 = true -> forall j ep, (j < S e)%nat -> endpoints (next_endpoint e s1) !! j = Some ep -> tasks ep = false).
  { intros Hd j ep Hj. destruct (decide (j = e)) as [->|]; [|intros ?; eapply M3; [by apply Hdr| |done]; lia].
    rewrite E3, Heps, list_lookup_alter_eq. destruct (endpoints s !! e) as [ep0|] eqn:Hep; [|done]. intros [= <-]. by apply (Hm ep0). }
  unfold next_endpoint in *. destruct (S e <? length (endpoints s1))%nat eqn:Hlt; bool_to_prop; simpl in *.
  - split; simpl; [exact M1|exact M2|by rewrite Htk|by intros ? ? [= <- <-]|done|by intros ? ? ? [= <- <-]|done| |congruence|done|by rewrite Htk].
    intros e' w' j ep [= <- <-] Hd. by apply Hlast.
  - split; simpl; [exact M1|exact M2|by rewrite Htk|done|done|done|done|done| |done|by rewrite Htk].
    intros j ep Hd Hj. apply (Hlast (proj1 (negb_false_iff _) Hd) j ep); [|done]. apply lookup_lt_Some in Hj. lia.
Qed.

(** The ticker has been stopped. *)
Lemma ticker_stopped s s' :
  inv s -> t_quiet (ticker s) -> control s = CTicker -> executions s' = executions s -> endpoints s' = endpoints s -> ticker s' = TOff ->
  started s' = false /\ endpoints s = [] /\ control s' = CIdle \/
  started s' = true /\ endpoints s <> [] /\ control s' = CEndpoint 0 WStore -> inv s'.
Proof.
  intros Hi Hq Hc Hex Hep Ht Hcase. split; rewrite ?Hex, ?Hep.
  - intros e ep He. pose proof (inv_ep _ Hi _ _ He) as Ho. apply (ep_ok_quiet s s' e ep); [done..|by left|done|done|done|done| |by rewrite Ht].
    intros Hf. by destruct (ok_tasks _ _ _ Ho Hf).
  - apply (inv_exec _ Hi).
  - by rewrite Ht.
  - intros e w Hc'. destruct Hcase as [(_ & _ & H')|(Hs & Hne & H')]; [congruence|]. rewrite H' in Hc'. injection Hc' as <- <-.
    split_and!; [done|done|]. destruct (endpoints s); [done|simpl; lia].
  - intros Hc'. destruct Hcase as [(_ & _ & H')|(Hs & _ & H')]; congruence.
  - intros e w ep Hc' Hw. destruct Hcase as [(_ & _ & H')|(Hs & _ & H')]; congruence.
  - intros e ep Hc'. destruct Hcase as [(_ & _ & H')|(Hs & _ & H')]; congruence.
  - intros e w j ep Hc' _ Hj. destruct Hcase as [(_ & _ & H')|(Hs & _ & H')]; [congruence|]. rewrite H' in Hc'. injection Hc' as <- <-. lia.
  - intros e ep Hs'. destruct Hcase as [(_ & -> & _)|(Hs & _)]; [done|congruence].
  - intros e ep Hc'. destruct Hcase as [(_ & _ & H')|(Hs & _ & H')]; congruence.
  - by rewrite Ht.
Qed.
(** The stop goes on with the same endpoint. *)
Lemma same_endpoint_moves s s' e w w' g :
  inv s -> control s = CEndpoint e w -> control s' = CEndpoint e w' -> executions s' = executions s -> ticker s' = TOff ->
  started s' = true -> drained s' = drained s -> endpoints s' = alter g e (endpoints s) ->
  (forall ep, endpoints s !! e = Some ep -> s_move s e ep (g ep) /\
     (w' <> WStore -> stopping (g ep) = true) /\ (w' = WClean -> active ep = 0) /\ (w' = WAsleep -> active ep <> 0)) -> inv s'.
Proof.
  intros Hi Hc Hc' Hex Ht Hs Hd Heps Hm.
  destruct (stop_moves s s' e w g) as (M1 & M2 & M3); [done..|by intros; apply Hm|].
  destruct (inv_control _ Hi _ _ Hc) as (_ & _ & He).
  assert (Hat : forall ep', endpoints s' !! e = Some ep' -> exists ep, endpoints s !! e = Some ep /\ ep' = g ep).
  { intros ep'. rewrite Heps, list_lookup_alter_eq. destruct (endpoints s !! e) as [ep|]; [|done]. intros [= <-]. eauto. }
  split; rewrite ?Hs, ?Hd, ?Hc', ?Ht; try done.
  - intros ? ? [= <- <-]. by rewrite Heps, length_alter.
  - intros ? ? ? [= <- <-] Hw (ep & Hep & ->)%Hat. by apply Hm.
  - intros ? ? [= <- ->] (ep & Hep & ->)%Hat. destruct (Hm ep Hep) as ([-> _ _ _ _] & _ & H0 & _). auto.
  - intros ? ? j ep [= <- <-] Hdr. by apply M3.
  - intros ? ? [= <- ->] (ep & Hep & ->)%Hat H0. destruct (Hm ep Hep) as ([Ha _ _ _ _] & _ & _ & Hn). by destruct (Hn eq_refl); congruence.
Qed.
Lemma stop_step_ok s s' : inv s -> stop_step s = Some s' -> inv s'.
Proof.
  intros Hi. unfold stop_step. destruct (control s) as [| |e w] eqn:Hc; [done| |].
  - destruct (ticker s) as [| |e m d] eqn:Ht; [| |done]; intros [= <-].
    all: simpl; destruct (endpoints s) eqn:Heps; (apply (ticker_stopped s); [done|unfold t_quiet; rewrite Ht; auto|try done..|]).
    all: first [left; split_and!; by rewrite ?Heps|right; split_and!; [by apply (inv_cticker _ Hi Hc)|by rewrite Heps|done]].
  - destruct (inv_control _ Hi _ _ Hc) as (Ht & Hs & He). destruct (endpoints s !! e) as [ep|] eqn:Hep; [|done].
    assert (Hid : endpoints s = alter (fun ep => ep) e (endpoints s)) by (by rewrite list_alter_id).
    assert (Hstop : w <> WStore -> stopping ep = true) by (intros Hw; by apply (inv_stopping _ Hi _ _ _ Hc Hw)).
    assert (Hn : inv (not_drained e s)).
    { apply (next_moves s _ e w (fun ep => ep)); try done. intros. split; [split; auto|done]. }
    destruct w.
    + intros [= <-]. apply (same_endpoint_moves s _ e WStore WCheck (set_stopping true)); try done.
      intros ? _. split_and!; [split; auto|done..].
    + destruct (active ep =? 0) eqn:Ha; bool_to_prop; [|destruct (stopCancelled s); [by intros [= <-]|]]; intros [= <-].
      * apply (same_endpoint_moves s _ e WCheck WClean (fun ep => ep)); try done. intros ep' He'. replace ep' with ep by congruence.
        split_and!; [split; auto|intros; by apply Hstop|done..].
      * apply (same_endpoint_moves s _ e WCheck WWait (fun ep => ep)); try done. intros ep' He'. replace ep' with ep by congruence.
        split_and!; [split; auto|intros; by apply Hstop|done..].
    + destruct (active ep =? 0) eqn:Ha; bool_to_prop; [|destruct (stopCancelled s); [by intros [= <-]|]]; intros [= <-].
      * apply (same_endpoint_moves s _ e WWait WClean (fun ep => ep)); try done. intros ep' He'. replace ep' with ep by congruence.
        split_and!; [split; auto|intros; by apply Hstop|done..].
      * apply (same_endpoint_moves s _ e WWait WAsleep (fun ep => ep)); try done. intros ep' He'. replace ep' with ep by congruence.
        split_and!; [split; auto|intros; by apply Hstop|done..].
    + done.
    + destruct (forallb (returned e) (executions s)) eqn:Hr; [|done]. intros [= <-].
      assert (Hall : forall i x, executions s !! i = Some x -> xendpoint x = e -> xpc x = XDone).
      { intros i x Hx Hxe. rewrite forallb_forall in Hr. specialize (Hr x). rewrite <- list_elem_of_In in Hr.
        specialize (Hr (list_elem_of_lookup_2 _ _ _ Hx)). unfold returned in Hr. rewrite Hxe, Nat.eqb_refl in Hr. simpl in Hr. by bool_to_prop. }
      apply (next_moves s _ e WClean (fun ep => ep |> set_tasks false |> set_running false)); try done.
      intros ep' He'. replace ep' with ep by congruence. split; [|done]. split; try done; [|right; done]. simpl.
      destruct (inv_ep _ Hi _ _ Hep) as [_ Hrun _ _ _ _]. rewrite Ht in Hrun. simpl in Hrun.
      rewrite tallied_none in Hrun; [by destruct (running ep)|]. intros i x Hx. unfold owning, runs.
      destruct (xendpoint x =? e)%nat eqn:Hxe; [|done]. apply Nat.eqb_eq in Hxe. by rewrite (Hall i x Hx Hxe).
Qed.

(** Steps that change nothing the invariant looks at. *)
Lemma inv_flags s s' :
  inv s -> endpoints s' = endpoints s -> executions s' = executions s -> ticker s' = ticker s -> control s' = control s ->
  started s' = started s -> drained s' = drained s -> inv s'.
Proof.
  intros [] E1 E2 E3 E4 E5 E6. split; rewrite ?E1, ?E2, ?E3, ?E4, ?E5, ?E6; try done.
  intros e ep He. destruct (inv_ep0 e ep He). split; by rewrite ?E2, ?E3.
Qed.
Definition core x : nat * bool * XPc * string * bool := (xendpoint x, xowns x, xpc x, xstream x, registered x).
Lemma inv_marks s s' i f :
  inv s -> (forall x, core (f x) = core x) -> endpoints s' = endpoints s -> executions s' = alter f i (executions s) ->
  ticker s' = ticker s -> control s' = control s -> started s' = started s -> drained s' = drained s -> inv s'.
Proof.
  intros Hi Hf E1 E2 E3 E4 E5 E6. destruct (executions s !! i) as [x|] eqn:Hx.
  2: { apply (inv_flags s); try done. rewrite E2. apply list_eq. intros j. destruct (decide (i = j)) as [<-|]; [|by rewrite list_lookup_alter_ne].
       by rewrite list_lookup_alter_eq, Hx. }
  pose proof (Hf x) as Hc. unfold core in Hc. injection Hc as C1 C2 C3 C4 C5.
  assert (Hw : forall e, working e (f x) = working e x) by (intros; unfold working; by rewrite C1, C3).
  assert (Ho : forall e, owning e (f x) = owning e x /\ runs e (f x) = runs e x) by (intros; unfold owning, runs; by rewrite C1, C2, C3).
  assert (Hb : forall j y, executions s' !! j = Some y -> exists z, executions s !! j = Some z /\ core y = core z).
  { intros j y. rewrite E2, (lookup_alter_req _ _ _ x) by done. destruct (decide (i = j)) as [<-|]; [|eauto]. intros [= <-]. eauto. }
  assert (Ha : forall j y, executions s !! j = Some y -> exists z, executions s' !! j = Some z /\ core z = core y).
  { intros j y Hy. rewrite E2, (lookup_alter_req _ _ _ x) by done. destruct (decide (i = j)) as [<-|]; [|eauto].
    replace y with x by congruence. eauto. }
  split; rewrite ?E1, ?E3, ?E4, ?E5, ?E6; try by apply Hi.
  - intros e ep He. destruct (inv_ep _ Hi _ _ He) as [Ia Ir Is It Ip Ipe]. split; rewrite ?E3, ?E2, ?(tallied_alter _ _ _ _ x Hx), ?Hw, ?(proj1 (Ho e)); try done.
    + rewrite Ia. lia.
    + rewrite Ir. lia.
    + intros Hs. destruct (Is Hs) as [Hd Hall]. split; [done|]. intros j y Hy. rewrite <- E2 in Hy.
      apply Hb in Hy as (z & Hz & Hc). unfold core in Hc. injection Hc as D1 D2 D3 D4 D5. unfold runs. rewrite D1, D2, D3. by apply Hall with j.
    + intros Ht. destruct (It Ht) as [Hd Hall]. split; [done|]. intros j y Hy. rewrite <- E2 in Hy.
      apply Hb in Hy as (z & Hz & Hc). unfold core in Hc. injection Hc as D1 D2 D3 D4 D5. rewrite D1, D3. by apply Hall with j.
    + intros st j. rewrite Ipe, <- E2. split; intros (y & Hy & H1 & H2 & H3).
      * destruct (Ha j y Hy) as (z & Hz & Hc). unfold core in Hc. injection Hc as D1 D2 D3 D4 D5. exists z.
        unfold waiting in *. by rewrite D1, D3, D4, D5.
      * destruct (Hb j y Hy) as (z & Hz & Hc). unfold core in Hc. injection Hc as D1 D2 D3 D4 D5. exists z.
        unfold waiting in *. by rewrite <- D1, <- D3, <- D4, <- D5.
  - intros j y Hy. apply Hb in Hy as (z & Hz & Hc). unfold core in Hc. injection Hc as D1 D2 D3 D4 D5. rewrite D1, D3, D5. by apply (inv_exec _ Hi j).
  - intros e ep Hc He H0. destruct (inv_asleep _ Hi e ep Hc He H0) as (j & y & Hy & Hye & Hn).
    destruct (Ha j y Hy) as (z & Hz & Hcz). unfold core in Hcz. injection Hcz as D1 D2 D3 D4 D5. exists j, z. by rewrite D1, D3.
Qed.
Lemma completer_ok s j s' : inv s -> completer_step j s = Some s' -> inv s'.
Proof.
  intros Hi. unfold completer_step. destruct (completers s !! j) as [k|]; [|done].
  destruct (kpc k) as [|i|i|c]; repeat case_match; intros [= <-]; try done; try by apply (inv_flags s).
  - by apply (inv_marks s _ i (set_done true)).
  - by apply (inv_marks s _ i (set_sent true)).
Qed.
Lemma wake_ok s s' : inv s -> wake_stop s = Some s' -> inv s'.
Proof.
  intros Hi. unfold wake_stop. destruct (control s) as [| |e []] eqn:Hc; try done. intros [= <-].
  destruct (inv_control _ Hi _ _ Hc) as (Ht & Hs & He).
  apply (same_endpoint_moves s _ e WAsleep WWait (fun ep => ep)); try done; [by simpl; rewrite list_alter_id|].
  intros ep Hep. split_and!; [split; auto| |done..]. intros _. by apply (inv_stopping _ Hi _ _ _ Hc).
Qed.

(** ** The ticker *)
Ltac t_solve Ht := split; simpl; rewrite ?Ht; simpl; rewrite ?Nat.eqb_refl, ?tallied_nil; simpl; try done; try lia; try congruence;
  try (intros _ ?; split; [done|by intros ? ?%elem_of_nil]).
Lemma fire_ok s e at_ s' : inv s -> fire calculate_from e at_ s = Some s' -> inv s'.
Proof.
  intros Hi. unfold fire. destruct (ticker s) as [| |] eqn:Ht; try done. destruct (endpoints s !! e) as [ep|] eqn:Hep; [|done].
  destruct (plan ep) as [|expr|] eqn:Hp; try done. destruct (ownerCancelled s); intros [= <-]; [done|].
  apply (ticker_moves s _ e (set_lastScheduled (Some at_)) []); try done; [by left|by right; eauto|by rewrite app_nil_r|by intros ? ?%elem_of_nil|].
  intros ep' He'. replace ep' with ep by congruence. destruct (inv_ep _ Hi _ _ Hep) as [_ _ _ _ Hpl _].
  t_solve Ht. apply Hpl; congruence.
Qed.
Lemma fireInterval_ok s e now s' : inv s -> fireInterval e now s = Some s' -> inv s'.
Proof.
  intros Hi. unfold fireInterval. destruct (ticker s) as [| |] eqn:Ht; try done. destruct (endpoints s !! e) as [ep|] eqn:Hep; [|done].
  destruct (plan ep) as [| |i] eqn:Hp; try done. destruct (ownerCancelled s); [by intros [= <-]|].
  destruct (Interval.takeDue now i) as [i' [due|]]; intros [= <-];
    (apply (ticker_moves s _ e (set_plan (Every i')) []); try done; [by left|..]).
  all: try (by left); try (by right; eauto); try (by rewrite app_nil_r); try (by intros ? ?%elem_of_nil).
  all: intros ep' He'; replace ep' with ep by congruence; destruct (inv_ep _ Hi _ _ Hep) as [_ _ _ _ Hpl _].
  all: t_solve Ht; apply Hpl; congruence.
Qed.

Lemma dispatch_ok s spawns e missed d ep s' :
  inv s -> ticker s = TDispatch e missed d -> endpoints s !! e = Some ep -> dispatch_step spawns e missed d ep s = Some s' -> inv s'.
Proof.
  intros Hi Ht Hep. pose proof (inv_ep _ Hi _ _ Hep) as [_ Hrun Hskip Htk _ _].
  assert (Hon : ticker s <> TOff) by congruence. destruct (inv_ticker _ Hi Hon) as [_ Hc].
  assert (Htasks : tasks ep = true).
  { destruct (tasks ep) eqn:E; [done|]. destruct (Htk eq_refl) as [Hd _]. rewrite Ht in Hd. simpl in Hd. by rewrite Nat.eqb_refl in Hd. }
  assert (Howned : d_owns e (ticker s) = true -> running ep = true).
  { intros Ho. rewrite Ho in Hrun. pose proof (Monitor.tallied_le (owning e) (executions s)). destruct (running ep); simpl in Hrun; [done|lia]. }
  assert (Hno : notify e s = s) by (unfold notify; by destruct Hc as [-> | ->]).
  assert (Hend : forall g l t', t_at e t' -> (forall x, x ∈ l -> xendpoint x = e /\ registered x = false) ->
    (forall s', executions s' = executions s ++ l -> endpoints s' = alter g e (endpoints s) -> started s' = started s ->
       control s' = control s -> ticker s' = t' -> t_move s s' e l ep (g ep) -> inv s')).
  { intros g l t' Hat Hl s0 E1 E2 E3 E4 E5 Hm. apply (ticker_moves s s0 e g l); try done.
    - right; eauto.
    - by rewrite E5.
    - intros ep' He'. by replace ep' with ep by congruence. }
  assert (Hid : endpoints s = alter (fun ep => ep) e (endpoints s)) by (by rewrite list_alter_id).
  assert (Hnil : executions s = executions s ++ []) by (by rewrite app_nil_r).
  assert (Hat : forall m d, t_at e (TDispatch e m d)) by (right; eauto).
  assert (Hnone : forall x, x ∈ [] -> xendpoint x = e /\ registered x = false) by (by intros ? ?%elem_of_nil).
  destruct d as [| |owns|owns|owns| |]; cbn [dispatch_step].
  - repeat case_match; intros [= <-];
      first [apply (Hend (fun ep => ep) [] TIdle); try done; [by left|]|apply (Hend (fun ep => ep) [] (TDispatch e missed DClaim)); try done];
      t_solve Ht.
  - case_bool_decide as Hp; [destruct (running ep) eqn:Hr|]; intros [= <-].
    + apply (Hend (fun ep => ep) [] TIdle); try done; [by left|]. t_solve Ht.
    + apply (Hend (set_running true) [] (TDispatch e missed (DAdmit true))); try done. t_solve Ht. rewrite Hr. simpl. lia.
    + apply (Hend (fun ep => ep) [] (TDispatch e missed (DAdmit false))); try done. t_solve Ht.
  - destruct (stopping ep) eqn:Hst; [destruct owns|]; intros [= <-].
    + apply (Hend (set_running false) [] TIdle); try done; [by left|]. t_solve Ht. rewrite Howned; [done|]. rewrite Ht. simpl. by rewrite Nat.eqb_refl.
    + apply (Hend (fun ep => ep) [] TIdle); try done; [by left|]. t_solve Ht.
    + apply (Hend (set_active (active ep + 1)) [] (TDispatch e missed (DSpawn owns))); try done. t_solve Ht.
  - rewrite Htasks. destruct spawns; intros [= <-].
    + apply (Hend (fun ep => ep) [newExecution e owns] TIdle); try done; [by left|by intros x ->%list_elem_of_singleton|].
      t_solve Ht; try (rewrite Monitor.tallied_cons, tallied_nil; unfold owning, working, runs; simpl; rewrite ?Nat.eqb_refl; simpl; lia).
      intros _ Hn. split; [done|]. intros x ->%list_elem_of_singleton. simpl. by destruct owns.
    + apply (Hend (fun ep => ep) [] (TDispatch e missed (DUndo owns))); try done. t_solve Ht.
  - destruct owns; intros [= <-].
    + apply (Hend (set_running false) [] (TDispatch e missed DUndoActive)); try done. t_solve Ht. rewrite Howned; [done|]. rewrite Ht. simpl. by rewrite Nat.eqb_refl.
    + apply (Hend (fun ep => ep) [] (TDispatch e missed DUndoActive)); try done. t_solve Ht.
  - intros [= <-]. apply (Hend (set_active (active ep - 1)) [] (TDispatch e missed DNotify)); try done. t_solve Ht.
  - intros [= <-]. rewrite Hno. apply (Hend (fun ep => ep) [] TIdle); try done; [by left|]. t_solve Ht.
Qed.

(** ** Executions *)
Lemma pending_same s e ep i x (f : Execution -> Execution) st j :
  ep_ok s e ep -> executions s !! i = Some x -> xendpoint x = e -> waiting (f x) = waiting x -> xstream (f x) = xstream x \/ waiting x = false ->
  pending_ ep !! st = Some j <-> (j = i /\ xstream (f x) = st /\ waiting (f x) = true) \/ (j <> i /\ pending_ ep !! st = Some j).
Proof.
  intros Ho Hx Hxe -> Hst. pose proof (ok_pending _ _ _ Ho st j) as Hp. destruct (decide (j = i)) as [->|]; [|tauto].
  rewrite Hp. split.
  - intros (y & Hy & _ & Hys & Hw). replace y with x in * by congruence. left. destruct Hst as [->|]; [done|congruence].
  - intros [(_ & Hs & Hw)|[? _]]; [|done]. exists x. destruct Hst as [<-|]; [done|congruence].
Qed.
(** A step that leaves the endpoint as it is. *)
Lemma execution_only s i x f s' :
  inv s -> executions s !! i = Some x -> xpc x <> XDone -> endpoints s' = endpoints s -> executions s' = alter f i (executions s) ->
  started s' = started s -> ticker s' = ticker s -> drained s' = drained s -> control s' = control s ->
  xendpoint (f x) = xendpoint x -> xowns (f x) = xowns x -> working (xendpoint x) (f x) = true -> working (xendpoint x) x = true ->
  runs (xendpoint x) (f x) = true -> runs (xendpoint x) x = true -> xpc (f x) <> XBegin ->
  waiting (f x) = waiting x -> xstream (f x) = xstream x \/ waiting x = false -> inv s'.
Proof.
  intros Hi Hx Hnd E1 E2 E3 E4 E5 E6 F1 F2 F3 F3' F4 F4' F5 F6 F7.
  apply (execution_moves s s' (xendpoint x) i x f (fun ep => ep)); try done; [by rewrite list_alter_id|by left|auto|].
  intros ep Hep. split; try done.
  - rewrite F3, F3'. lia.
  - unfold owning. rewrite F4, F4', F2. lia.
  - intros st j. by apply (pending_same s (xendpoint x) ep i x f); [apply (inv_ep _ Hi)|..].
Qed.
(** The side conditions of [execution_moves] at a known program counter. *)
Ltac x_solve Epc :=
  first [congruence | by left | (intros _; unfold runs, working; simpl; by rewrite Nat.eqb_refl, ?Epc)
        | (intros _; right; unfold working; simpl; by rewrite Nat.eqb_refl)
        | (unfold runs, working; simpl; by rewrite andb_false_r) | (intros _; by left)].
Ltac x_waits Hwait Hr := first [by left | by rewrite (Hwait _ _ eq_refl eq_refl); unfold waiting; simpl; rewrite ?Hr].
Lemma execution_ok s ch stream i s' : inv s -> execution_step ch stream i s = Some s' -> inv s'.
Proof.
  intros Hi. unfold execution_step. destruct (executions s !! i) as [x|] eqn:Hx; [|done].
  destruct (endpoints s !! xendpoint x) as [ep|] eqn:Hep; [|done].
  pose proof (inv_ep _ Hi _ _ Hep) as Ho. pose proof (proj2 (inv_exec _ Hi _ _ Hx)) as Hb.
  assert (Hpc : forall f pc, xpc x = pc -> pc <> XDone -> match pc with XBegin | XCall | XWait | XErase => True | _ => False end -> 
    xendpoint (f x) = xendpoint x -> xowns (f x) = xowns x -> match xpc (f x) with XCall | XWait | XErase | XRelease => True | _ => False end ->
    waiting (f x) = waiting x -> xstream (f x) = xstream x \/ waiting x = false -> inv (xupd i f s)).
  { intros f pc E Hnd Hin F1 F2 F3 F4 F5. apply (execution_only s i x f); try done; unfold working, runs; rewrite ?F1, ?E, ?Nat.eqb_refl.
    all: destruct pc, (xpc (f x)); done. }
  assert (Hwait : forall b pc, registered x = b -> xpc x = pc -> waiting x = b && match pc with XCall | XWait | XErase => true | _ => false end)
    by (intros b pc <- <-; done).
  pose proof (fun f => Hpc f (xpc x) eq_refl) as Hstep. clear Hpc. destruct (xpc x) eqn:Epc; [| | | | | | |done].
  - specialize (Hb eq_refl). assert (Hw : waiting x = false) by (by rewrite (Hwait false XBegin)).
    assert (Hfail : inv (xupd i (fun x => x |> set_failed true |> set_xpc XRelease) s)).
    { apply Hstep; try done; [unfold waiting; simpl; by rewrite andb_false_r|by left]. }
    intros [= <-]. unfold begin_execution. destruct (match ch with Throws => false | _ => true end); [|done].
    destruct (hasResult ep) eqn:Hres; cbn [negb].
    + destruct (String.eqb stream ""); [done|]. destruct (pending_ ep !! stream) eqn:Hpend; [done|].
      apply (execution_moves s _ (xendpoint x) i x (fun x => x |> set_xstream stream |> set_registered true |> set_xpc XCall) (set_pending_ (<[stream := i]> (pending_ ep)))); try done.
      1-5: x_solve Epc.
      * intros ep' He'. replace ep' with ep by congruence. split; try done.
        -- unfold working. simpl. rewrite Epc. lia.
        -- unfold owning, runs. simpl. rewrite Epc. lia.
        -- intros st j. simpl. rewrite lookup_insert_Some. split.
           ++ intros [[-> ->]|[Hne Hj]]; [by left|right]. split; [|done]. intros ->.
              apply (ok_pending _ _ _ Ho) in Hj as (y & Hy & _ & _ & Hwy). congruence.
           ++ intros [(-> & -> & _)|[Hne Hj]]; [by left|right]. split; [|done]. intros ->. congruence.
    + apply Hstep; try done; [unfold waiting; simpl; by rewrite Hb|by right].
  - destruct (registered x) eqn:Hr, ch; intros [= <-]; apply Hstep; try done; x_waits Hwait Hr.
  - destruct (registered x) eqn:Hr, (sent x), ch; intros E; try discriminate E; injection E as <-; apply Hstep; try done; x_waits Hwait Hr.
  - intros [= <-]. unfold erase. case_bool_decide as Hpr.
    + apply (execution_moves s _ (xendpoint x) i x (set_xpc XRelease) (set_pending_ (delete (xstream x) (pending_ ep)))); try done.
      1-5: x_solve Epc.
      intros ep' He'. replace ep' with ep by congruence. split; try done.
      * unfold working. simpl. rewrite Epc. lia.
      * unfold owning, runs. simpl. rewrite Epc. lia.
      * intros st j. simpl. rewrite lookup_delete_Some. unfold waiting at 1. simpl. rewrite andb_false_r. split.
        -- intros [Hne Hj]. right. split; [|done]. intros ->. apply (ok_pending _ _ _ Ho) in Hj as (y & Hy & _ & Hys & _). congruence.
        -- intros [(_ & _ & ?)|[Hne Hj]]; [done|]. split; [|done]. intros <-. congruence.
    + apply Hstep; try done; [|by left]. unfold waiting at 1. simpl. rewrite andb_false_r. symmetry. apply not_true_iff_false. intros Hw.
      apply Hpr, (ok_pending _ _ _ Ho). eauto.
  - assert (Hown : runs (xendpoint x) x = true) by (unfold runs; by rewrite Nat.eqb_refl, Epc).
    assert (Hrun : xowns x = true -> running ep = true).
    { intros E. pose proof (ok_running _ _ _ Ho) as Hr. assert (1 <= Monitor.tallied (owning (xendpoint x)) (executions s)).
      { apply Monitor.tallied_pos. exists i, x. unfold owning. by rewrite Hown, E. }
      destruct (running ep); [done|]. simpl in Hr. destruct (d_owns (xendpoint x) (ticker s)); simpl in Hr; lia. }
    intros [= <-].
    apply (execution_moves s _ (xendpoint x) i x (set_xpc XLeave) (if xowns x then set_running false else fun ep => ep)); try done.
    all: try (by destruct (xowns x)); try x_solve Epc.
    + destruct (xowns x); simpl; [done|by rewrite list_alter_id].
    + left. by destruct (xowns x).
    + intros ep' He'. replace ep' with ep by congruence. split; try (by destruct (xowns x)).
      * unfold working. simpl. rewrite Nat.eqb_refl, Epc. destruct (xowns x); simpl; lia.
      * unfold owning. rewrite Hown. unfold runs. simpl. rewrite andb_false_r. destruct (xowns x) eqn:E; simpl; [rewrite Hrun by done; done|lia].
      * intros st j. destruct (xowns x); by apply (pending_same s (xendpoint x) ep i x (set_xpc XLeave));
          [..|unfold waiting; simpl; rewrite Epc, !andb_false_r|left].
  - intros [= <-].
    apply (execution_moves s _ (xendpoint x) i x (set_xpc XNotify) (set_active (active ep - 1))); try done.
    all: try x_solve Epc.
    intros ep' He'. replace ep' with ep by congruence. split; try done.
    + unfold working. simpl. rewrite Nat.eqb_refl, Epc. simpl. lia.
    + unfold owning, runs. simpl. rewrite Epc, !andb_false_r. simpl. lia.
    + intros st j. apply (pending_same s (xendpoint x) ep i x (set_xpc XNotify)); try done; [unfold waiting; simpl; by rewrite Epc, !andb_false_r|by left].
  - assert (Hno : control (notify (xendpoint x) s) = control s \/ control s = CEndpoint (xendpoint x) WAsleep /\ control (notify (xendpoint x) s) = CEndpoint (xendpoint x) WWait).
    { unfold notify. destruct (control s) as [| |e []] eqn:Hc; auto. destruct (e =? xendpoint x)%nat eqn:E; [|by left].
      apply Nat.eqb_eq in E. subst e. by right. }
    assert (Hsl : control (notify (xendpoint x) s) <> CEndpoint (xendpoint x) WAsleep).
    { unfold notify. destruct (control s) as [| |e []] eqn:Hc; try congruence. destruct (e =? xendpoint x)%nat eqn:E; [done|].
      apply Nat.eqb_neq in E. congruence. }
    assert (Hfr : endpoints (notify (xendpoint x) s) = endpoints s /\ executions (notify (xendpoint x) s) = executions s /\
      started (notify (xendpoint x) s) = started s /\ ticker (notify (xendpoint x) s) = ticker s /\ drained (notify (xendpoint x) s) = drained s).
    { unfold notify. by repeat case_match. }
    destruct Hfr as (N1 & N2 & N3 & N4 & N5). intros [= <-].
    apply (execution_moves s _ (xendpoint x) i x (set_xpc XDone) (fun ep => ep)); try done; simpl; rewrite ?N1, ?N2; try done.
    all: try (by rewrite list_alter_id); try (unfold runs, working; simpl; by rewrite andb_false_r).
    + congruence.
    + intros ep' He'. replace ep' with ep by congruence. split; try done.
      * unfold working. simpl. rewrite Epc, !andb_false_r. simpl. lia.
      * unfold owning, runs. simpl. rewrite Epc, !andb_false_r. simpl. lia.
      * intros st j. apply (pending_same s (xendpoint x) ep i x (set_xpc XDone)); try done; [unfold waiting; simpl; by rewrite Epc, !andb_false_r|by left].
Qed.

(** ** start *)
Definition keeps ep ep' : Prop := active ep' = active ep /\ running ep' = running ep /\ pending_ ep' = pending_ ep.
Definition opened ep : Prop := plan ep <> Off -> tasks ep = true.

Lemma configure_keeps (cfg : Config Value) now ep :
  keeps ep (configure is_valid cfg now ep).1 /\ ((configure is_valid cfg now ep).2 = Ok tt -> opened (configure is_valid cfg now ep).1).
Proof. unfold configure, keeps, opened. repeat case_match; simpl; done. Qed.
Lemma start_endpoint_keeps (cfg : Config Value) now ep :
  let r := start_endpoint is_valid add_schedule cfg now ep in keeps ep r.1 /\ (r.2 = Ok tt -> opened r.1).
Proof.
  unfold start_endpoint. destruct (configure_keeps cfg now ep) as [Hk Ho]. destruct (configure is_valid cfg now ep) as [ep' r].
  simpl in *. destruct r as [[]|e]; [destruct (plan ep') eqn:Hp|]; simpl; split; try done; auto.
Qed.
Lemma start_endpoints_keeps (cfgs : list (Config Value)) now eps :
  let r := start_endpoints is_valid add_schedule cfgs now eps in
  Forall2 (fun ep ep' => keeps ep ep' /\ (r.2 = Ok tt -> opened ep')) eps r.1.
Proof.
  revert cfgs. induction eps as [|ep eps IH]; intros cfgs; [destruct cfgs; constructor|]. destruct cfgs as [|cfg cfgs]; simpl.
  { constructor; [by split|]. apply Forall_Forall2_diag, Forall_true. by intros ep'. }
  pose proof (start_endpoint_keeps cfg now ep) as [Hk Ho]. destruct (start_endpoint is_valid add_schedule cfg now ep) as [ep' [[]|e]]; simpl in *.
  - specialize (IH cfgs). destruct (start_endpoints is_valid add_schedule cfgs now eps) as [eps' r]. simpl in *. constructor; [|done]. auto.
  - constructor; [done|]. apply Forall_Forall2_diag, Forall_true. by intros ep0.
Qed.

(** An endpoint of which nothing runs. *)
Lemma ep_ok_fresh s e ep :
  t_quiet (ticker s) -> (forall i x, executions s !! i = Some x -> xendpoint x = e -> xpc x = XDone) ->
  active ep = 0 -> running ep = false -> pending_ ep = ∅ -> (ticker s <> TOff -> opened ep) -> ep_ok s e ep.
Proof.
  intros Hq Hx Ha Hr Hp Ho.
  assert (Hz : d_active e (ticker s) = false /\ d_owns e (ticker s) = false /\ d_unowned e (ticker s) = false /\ d_at e (ticker s) = false)
    by (by destruct Hq as [-> | ->]).
  destruct Hz as (Q1 & Q2 & Q3 & Q4).
  assert (Hn : forall i x, executions s !! i = Some x -> working e x = false /\ runs e x = false).
  { intros i x Hix. unfold working, runs. destruct (xendpoint x =? e)%nat eqn:E; [|done]. apply Nat.eqb_eq in E. by rewrite (Hx i x Hix E). }
  split; rewrite ?Q1, ?Q2, ?Q3, ?Q4; try done.
  - rewrite tallied_none; [done|]. intros i x Hix. by apply (Hn i x).
  - rewrite Hr, tallied_none; [done|]. intros i x Hix. unfold owning. by rewrite (proj2 (Hn i x Hix)).
  - intros _. split; [done|]. intros i x Hix. by rewrite (proj2 (Hn i x Hix)).
  - intros st i. rewrite Hp, lookup_empty. split; [done|]. intros (x & Hix & Hxe & _ & Hw). unfold waiting in Hw.
    rewrite (Hx i x Hix Hxe), andb_false_r in Hw. done.
Qed.
Lemma start_ok s cancelled (cfgs : list (Config Value)) now ticks :
  inv s -> control s = CIdle -> inv (start is_valid add_schedule cancelled cfgs now ticks s).1.
Proof.
  intros Hi Hc. unfold start. destruct cancelled; [done|]. destruct (started s) eqn:Hs; [done|].
  assert (Ht : ticker s = TOff). { destruct (ticker s) eqn:E; [done|..]; destruct (inv_ticker _ Hi); congruence. }
  assert (Hclean : forall e ep, endpoints s !! e = Some ep -> active ep = 0 /\ running ep = false /\ pending_ ep = ∅ /\
      forall i x, executions s !! i = Some x -> xendpoint x = e -> xpc x = XDone).
  { intros e ep He. pose proof (inv_stopped _ Hi _ _ Hs He) as Htk. destruct (tasks_clean s e ep Hi He Htk) as (? & ? & ?).
    split_and!; try done. apply (ok_tasks _ _ _ (inv_ep _ Hi _ _ He) Htk). }
  pose proof (start_endpoints_keeps cfgs now (endpoints s)) as Hk.
  destruct (start_endpoints is_valid add_schedule cfgs now (endpoints s)) as [eps r]. cbn [fst snd] in Hk.
  pose proof (Forall2_length _ _ _ Hk) as Hlen.
  assert (Hof : forall e ep', eps !! e = Some ep' -> exists ep, endpoints s !! e = Some ep /\ keeps ep ep' /\ (r = Ok tt -> opened ep')).
  { intros e ep' He. destruct (Forall2_lookup_r _ _ _ _ _ Hk He) as (ep & ? & ? & ?). eauto. }
  assert (Hexec : forall i x, executions s !! i = Some x -> is_Some (eps !! xendpoint x) /\ (xpc x = XBegin -> registered x = false)).
  { intros i x Hx. destruct (inv_exec _ Hi i x Hx) as [He Hb]. split; [|done]. rewrite lookup_lt_is_Some in *. lia. }
  assert (Hfresh : forall e ep', eps !! e = Some ep' -> active ep' = 0 /\ running ep' = false /\ pending_ ep' = ∅ /\
      forall i x, executions s !! i = Some x -> xendpoint x = e -> xpc x = XDone).
  { intros e ep' (ep & He & (-> & -> & ->) & _)%Hof. by apply Hclean. }
  assert (Hact : forallb (fun ep => active ep =? 0) eps = true).
  { apply forallb_forall. intros ep' (e & He)%list_elem_of_In%list_elem_of_lookup. apply Z.eqb_eq. by apply (Hfresh e). }
  destruct (if ticks then r else rbind r (fun _ => Err TickerFailed)) as [[]|err] eqn:Hr; simpl.
  - assert (r = Ok tt) as -> by (destruct ticks, r as [[]|]; done).
    split; simpl; rewrite ?Hc; try done; [|by auto].
    intros e ep' He. destruct (Hfresh e ep' He) as (? & ? & ? & Hx). destruct (Hof e ep' He) as (_ & _ & _ & Hop).
    apply ep_ok_fresh; try done; [by right|by intros _; apply Hop].
  - unfold roll_back. rewrite Hact. simpl.
    assert (Hrb : forall e ep', ((fun ep => if active ep =? 0 then stop_inactive ep else set_stopping true ep) <$> eps) !! e = Some ep' ->
      exists ep, eps !! e = Some ep /\ ep' = stop_inactive ep).
    { intros e ep'. rewrite list_lookup_fmap. destruct (eps !! e) as [ep|] eqn:He; [|done]. simpl.
      destruct (Hfresh e ep He) as (-> & _). intros [= <-]. eauto. }
    split; simpl; rewrite ?Hc; try done.
    + intros e ep' (ep & He & ->)%Hrb. destruct (Hfresh e ep He) as (? & ? & ? & Hx). apply ep_ok_fresh; try done. by left.
    + intros i x Hx. rewrite lookup_lt_is_Some, length_fmap, <- lookup_lt_is_Some. by apply (Hexec i).
    + intros e ep' _ (ep & He & ->)%Hrb. done.
Qed.

(** Every reachable state is in order. *)
Lemma created_ok connector : inv (created connector).
Proof. by split. Qed.
Lemma add_ok s (cfg : option (Config Value)) id result : inv s -> control s = CIdle -> inv (addEndpoint cfg (newEndpoint id result) s).1.
Proof.
  intros Hi Hc. unfold addEndpoint. destruct (started s) eqn:Hs; [done|]. repeat case_match; try done. simpl.
  assert (Ht : ticker s = TOff). { destruct (ticker s) eqn:E; [done|..]; destruct (inv_ticker _ Hi); congruence. }
  assert (Hnew : forall e ep, (endpoints s ++ [newEndpoint id result]) !! e = Some ep ->
    endpoints s !! e = Some ep \/ (e = length (endpoints s) /\ ep = newEndpoint id result)).
  { intros e ep [?|[? Hl]]%lookup_app_Some; [by left|right]. apply list_lookup_singleton_Some in Hl as [? <-]. split; [lia|done]. }
  split; simpl; rewrite ?Ht, ?Hc, ?Hs; try done.
  - intros e ep [He|[-> ->]]%Hnew; [destruct (inv_ep _ Hi e ep He); by split|]. apply ep_ok_fresh; try done; [by left|].
    intros i x Hx Hxe. destruct (inv_exec _ Hi i x Hx) as [He _]. rewrite Hxe in He. apply lookup_lt_is_Some in He. lia.
  - intros i x Hx. destruct (inv_exec _ Hi i x Hx) as [He Hb]. split; [|done].
    rewrite lookup_lt_is_Some, length_app in *. lia.
  - intros e ep _ [He|[_ ->]]%Hnew; [by apply (inv_stopped _ Hi e ep Hs)|done].
Qed.
Lemma act_ok s a s' : inv s -> act a s = Some s' -> inv s'.
Proof.
  intros Hi. destruct a as [cfg id re|c cfgs now ok|c| | | | |e at_|e now|sp|ch st i|e st|j]; cbn [CronSource.act].
  - destruct (control s) eqn:Hc; try done. intros [= <-]. by apply add_ok.
  - destruct (control s) eqn:Hc; try done. intros [= <-]. by apply start_ok.
  - unfold stop. destruct (control s) eqn:Hc; try done. intros [= <-]. destruct (started s) eqn:Hs; [|done].
    destruct Hi. split; simpl; rewrite ?Hs; try done.
    + intros e ep He. destruct (inv_ep0 e ep He). by split.
    + intros Ht. destruct (inv_ticker0 Ht). auto.
  - by apply stop_step_ok.
  - intros [= <-]. by apply (inv_flags s).
  - by apply wake_ok.
  - intros [= <-]. by apply (inv_flags s).
  - by apply fire_ok.
  - by apply fireInterval_ok.
  - destruct (ticker s) as [| |e m d] eqn:Ht; try done. destruct (endpoints s !! e) as [ep|] eqn:He; [|done]. simpl. by eapply dispatch_ok.
  - by apply execution_ok.
  - intros [= <-]. by apply (inv_flags s).
  - by apply completer_ok.
Qed.
Lemma cron_ok connector s : cron_reachable connector s -> inv s.
Proof.
  unfold CronSource.cron_reachable. pose proof (created_ok connector) as H0. intros Hr. revert H0.
  induction Hr as [s0|s1 s2 s3 [a Ha] _ IH]; [done|]. intros H1. apply IH. by eapply act_ok.
Qed.

(** ** The statements *)
Lemma tallied_two {A} (P : A -> bool) (l : list A) i j a b :
  Monitor.tallied P l <= 1 -> l !! i = Some a -> P a = true -> l !! j = Some b -> P b = true -> i = j.
Proof.
  intros H1 Hi Ha Hj Hb. destruct (decide (i = j)) as [|Hne]; [done|exfalso].
  pose proof (Monitor.tallied_insert (fun o => from_option P false o) (Some <$> l) i (Some a) None) as Ht.
  rewrite list_lookup_fmap, Hi in Ht. specialize (Ht eq_refl). simpl in Ht. rewrite Ha in Ht.
  assert (Hs : Monitor.tallied (fun o => from_option P false o) (Some <$> l) = Monitor.tallied P l).
  { clear. induction l as [|c l IH]; [done|]. rewrite fmap_cons, !Monitor.tallied_cons, IH. done. }
  assert (1 <= Monitor.tallied (fun o => from_option P false o) (<[i := None]> (Some <$> l))); [|simpl in Ht; lia].
  apply Monitor.tallied_pos. exists j, (Some b). split; [|done]. rewrite list_lookup_insert_ne by done. by rewrite list_lookup_fmap, Hj.
Qed.

(** C36. A cron source that is not started has nothing left: its ticker is off, every execution it
    admitted has returned, and no endpoint has an active count, a running mark, a task storage
    or a pending result.  A stop that returned has reached this, and so has a start that
    threw; a stop that threw leaves the source started. *)
Theorem cron_drained connector s :
  cron_reachable connector s -> started s = false ->
  ticker s = TOff /\ control s = CIdle /\ (forall i x, executions s !! i = Some x -> xpc x = XDone) /\
  forall e ep, endpoints s !! e = Some ep -> active ep = 0 /\ running ep = false /\ tasks ep = false /\ pending_ ep = ∅.
Proof.
  intros Hi%cron_ok Hs. split_and!.
  - destruct (ticker s) eqn:E; [done|..]; destruct (inv_ticker _ Hi); congruence.
  - destruct (control s) as [| |e w] eqn:E; [done|pose proof (inv_cticker _ Hi E)|destruct (inv_control _ Hi _ _ E) as (_ & ? & _)]; congruence.
  - intros i x Hx. destruct (proj1 (inv_exec _ Hi _ _ Hx)) as [ep He]. by apply (proj2 (ok_tasks _ _ _ (inv_ep _ Hi _ _ He) (inv_stopped _ Hi _ _ Hs He)) i x Hx).
  - intros e ep He. pose proof (inv_stopped _ Hi _ _ Hs He) as Ht. by destruct (tasks_clean s e ep Hi He Ht) as (? & ? & ?).
Qed.

(** C37. An endpoint whose policy is to skip overlapping occurrences has at most one execution
    between its admission and the moment it gives [running] back; [active] counts the
    executions an endpoint has; and a dispatch that was admitted finds the storage its task
    goes to. *)
Theorem cron_exclusive connector s e ep :
  cron_reachable connector s -> endpoints s !! e = Some ep ->
  (overlapPolicy ep = ScheduleOverlapPolicy.kSkip -> forall i j x y,
     executions s !! i = Some x -> runs e x = true -> executions s !! j = Some y -> runs e y = true -> i = j) /\
  (ticker s = TOff \/ ticker s = TIdle -> active ep = Monitor.tallied (working e) (executions s)) /\
  (forall missed owns, ticker s = TDispatch e missed (DSpawn owns) -> tasks ep = true).
Proof.
  intros Hi%cron_ok He. destruct (inv_ep _ Hi _ _ He) as [Ha Hr Hs Ht Hp _]. split_and!.
  - intros Ho i j x y Hx Hrx Hy Hry. destruct (Hs Ho) as [_ Hown].
    apply (tallied_two (owning e) (executions s) i j x y); [|done| |done|]; [|unfold owning; by rewrite Hrx, (Hown i x)|unfold owning; by rewrite Hry, (Hown j y)].
    destruct (running ep), (d_owns e (ticker s)); simpl in Hr; lia.
  - intros [E|E]; rewrite E in Ha; simpl in Ha; lia.
  - intros missed owns E. destruct (tasks ep); [done|]. destruct (Ht eq_refl) as [Hd _]. rewrite E in Hd. simpl in Hd. by rewrite Nat.eqb_refl in Hd.
Qed.

(** C38. A stop that cannot go on waits for something that is under way: for the ticker while it
    dispatches, which has a step, or for an execution of the endpoint it is at, which has a step
    unless it waits for a result that has not come: no wakeup by an execution is lost. *)
Theorem cron_stop_waits connector s :
  cron_reachable connector s -> control s <> CIdle -> stop_step s = None ->
  (exists e m d s', ticker s = TDispatch e m d /\ act (ADispatch true) s = Some s') \/
  (exists e w i x, control s = CEndpoint e w /\ executions s !! i = Some x /\ xendpoint x = e /\ xpc x <> XDone /\
     ((exists s', act (AExecution Returns EmptyString i) s = Some s') \/ (xpc x = XWait /\ sent x = false))).
Proof.
  intros Hi%cron_ok Hne Hstep. unfold stop_step in Hstep. destruct (control s) as [| |e w] eqn:Hc; [done|left|right].
  - destruct (ticker s) as [| |e m d] eqn:Ht; [by destruct (endpoints s)..|].
    destruct (inv_at _ Hi _ _ _ Ht) as [ep He]. exists e, m, d. cbn [CronSource.act]. rewrite Ht, He. simpl.
    assert (Htk : tasks ep = true).
    { destruct (tasks ep) eqn:E; [done|]. destruct (ok_tasks _ _ _ (inv_ep _ Hi _ _ He) E) as [Hd _]. rewrite Ht in Hd. simpl in Hd. by rewrite Nat.eqb_refl in Hd. }
    unfold dispatch_step. rewrite Htk. destruct d; repeat case_match; eauto.
  - destruct (inv_control _ Hi _ _ Hc) as (Ht & Hs & Hlt). apply lookup_lt_is_Some in Hlt as [ep He]. rewrite He in Hstep.
    assert (Hgo : forall i x, executions s !! i = Some x -> xendpoint x = e -> xpc x <> XDone ->
      (exists s', act (AExecution Returns EmptyString i) s = Some s') \/ (xpc x = XWait /\ sent x = false)).
    { intros i x Hx Hxe Hnd. cbn [CronSource.act]. unfold execution_step. rewrite Hx, Hxe, He. destruct (xpc x) eqn:E; try done; eauto.
      destruct (sent x); eauto. }
    assert (Hex : exists i x, executions s !! i = Some x /\ xendpoint x = e /\ xpc x <> XDone).
    { destruct w; try done.
      - by repeat case_match.
      - by repeat case_match.
      - destruct (decide (active ep = 0)) as [H0|H0].
        + destruct (inv_asleep _ Hi _ _ Hc He H0) as (i & x & Hx & Hxe & Hn). exists i, x. by rewrite Hn.
        + pose proof (ok_active _ _ _ (inv_ep _ Hi _ _ He)) as Ha. rewrite Ht in Ha. simpl in Ha.
          pose proof (Monitor.tallied_le (working e) (executions s)).
          assert (1 <= Monitor.tallied (working e) (executions s)) as (i & x & Hx & Hw)%Monitor.tallied_pos by lia.
          exists i, x. unfold working in Hw. apply andb_prop in Hw as [Hxe%Nat.eqb_eq Hw]. by destruct (xpc x).
      - destruct (forallb (returned e) (executions s)) eqn:Hr; [done|]. apply not_true_iff_false in Hr.
        destruct (existsb (fun x => negb (returned e x)) (executions s)) eqn:Hx.
        + apply existsb_exists in Hx as (x & Hin & Hrx). apply list_elem_of_In, list_elem_of_lookup in Hin as [i Hx].
          exists i, x. unfold returned in Hrx. rewrite negb_orb, negb_involutive in Hrx.
          apply andb_prop in Hrx as [?%Nat.eqb_eq Hrx]. split_and!; [done..|]. by apply negb_true_iff, bool_decide_eq_false in Hrx.
        + destruct Hr. apply forallb_forall. intros x Hin. destruct (returned e x) eqn:Hrx; [done|].
          apply not_true_iff_false in Hx. destruct Hx. apply existsb_exists. exists x. by rewrite Hrx. }
    destruct Hex as (i & x & Hx & Hxe & Hnd). exists e, w, i, x. split_and!; try done. by apply Hgo.
Qed.
End Theorems.

(** ** Missed occurrences *)
Section Missed.
Context (calculate_from : list ascii -> Z -> option Z) (occurs : list ascii -> Z -> Prop).
(** [CronSchedule::calculate_from] finds the first occurrence from a time on. *)
Hypothesis next_occurs : forall e c n, calculate_from e c = Some n -> c <= n /\ occurs e n /\ forall m, c <= m < n -> ~ occurs e m.
Hypothesis none_occurs : forall e c, calculate_from e c = None -> forall m, c <= m -> ~ occurs e m.

Lemma count_due_more fuel e cursor at_ due : (due <= count_due calculate_from fuel e cursor at_ due)%nat.
Proof.
  revert cursor due. induction fuel as [|fuel IH]; intros cursor due; simpl; [lia|].
  destruct (cursor <=? at_); [|lia]. destruct (calculate_from e cursor) as [n|]; [|lia]. destruct (at_ <=? n); [lia|].
  specialize (IH (n + Trigger.second) (S due)). lia.
Qed.

Lemma occurrences_due_many e last at_ :
  (1 < occurrences_due calculate_from e (Some last) at_)%nat <->
  exists t, occurs e t /\ last + Trigger.second <= t < at_.
Proof.
  unfold occurrences_due. cbn [count_due]. destruct (last + Trigger.second <=? at_) eqn:Hc; bool_to_prop.
  2: { split; [lia|]. intros (t & _ & ?). lia. }
  destruct (calculate_from e (last + Trigger.second)) as [n|] eqn:Hn.
  - destruct (next_occurs _ _ _ Hn) as (Hge & Ho & Hfirst). destruct (at_ <=? n) eqn:Hat; bool_to_prop.
    + split; [lia|]. intros (t & Hot & Ht). destruct (Hfirst t); [lia|done].
    + split; [intros _; exists n; split; [done|lia]|]. intros _.
      pose proof (count_due_more (Z.to_nat ((at_ - last) / Trigger.second)) e (n + Trigger.second) at_ 2). lia.
  - split; [lia|]. intros (t & Hot & Ht). destruct (none_occurs _ _ Hn t); [lia|done].
Qed.

(** The loop of [fire] ends: every turn leaves a second behind. *)
Lemma count_due_enough fuel fuel' e cursor at_ due :
  at_ - cursor < Z.of_nat fuel * Trigger.second -> (fuel <= fuel')%nat ->
  count_due calculate_from fuel' e cursor at_ due = count_due calculate_from fuel e cursor at_ due.
Proof.
  revert fuel' cursor due. induction fuel as [|fuel IH]; intros fuel' cursor due Hf Hle.
  - destruct fuel'; simpl; [done|]. destruct (cursor <=? at_) eqn:Hc; [|done]. bool_to_prop. lia.
  - destruct fuel' as [|fuel']; [lia|]. simpl. destruct (cursor <=? at_); [|done].
    destruct (calculate_from e cursor) as [n|] eqn:Hn; [|done]. destruct (at_ <=? n); [done|].
    destruct (next_occurs _ _ _ Hn) as (Hge & _). apply IH; [unfold Trigger.second in *; lia|lia].
Qed.

(** A dispatch of a cron expression is marked as missed exactly when the expression has another
    occurrence between a second after the last one that was taken and this one; the first
    occurrence after a start is never missed. *)
Theorem fire_missed_exact e ep expression at_ s :
  ticker s = TIdle -> ownerCancelled s = false -> endpoints s !! e = Some ep -> plan ep = Cron expression ->
  exists missed, ticker <$> fire calculate_from e at_ s = Some (TDispatch e missed DEnter) /\
    (missed = true <-> exists last t, lastScheduled ep = Some last /\ occurs expression t /\ last + Trigger.second <= t < at_).
Proof.
  intros Ht Ho He Hp. unfold fire. rewrite Ht, He, Hp, Ho. eexists. split; [reflexivity|]. rewrite Nat.ltb_lt.
  destruct (lastScheduled ep) as [last|]; [|split; [cbn; lia|by intros (? & ? & ? & _)]].
  rewrite occurrences_due_many. split; [intros (t & ? & ?); eauto|]. intros (? & t & [= <-] & ? & ?). eauto.
Qed.
End Missed.

(** ** A run *)
Lemma cron_run_reachable {is_valid add_schedule calculate_from Value} acts connector s s' :
  CronSource.cron_reachable is_valid add_schedule calculate_from (Value := Value) connector s ->
  run is_valid add_schedule calculate_from (Value := Value) acts s = Some s' ->
  CronSource.cron_reachable is_valid add_schedule calculate_from (Value := Value) connector s'.
Proof.
  revert s. induction acts as [|a acts IH]; intros s Hs E; [by injection E as <-|].
  cbn [run] in E. apply bind_Some in E as (s1 & E1 & E). apply (IH s1); [|done].
  eapply rtc_r; [exact Hs|]. by exists a.
Qed.

(** Every expression is due every minute. *)
Definition minutely (e : list ascii) (cursor : Z) : option Z := Some (- (- cursor / (60 * Trigger.second)) * (60 * Trigger.second)).
Definition on_the_minute (e : list ascii) (t : Z) : Prop := t `mod` (60 * Trigger.second) = 0.
Lemma minutely_next e c n : minutely e c = Some n ->
  c <= n /\ on_the_minute e n /\ forall m, c <= m < n -> ~ on_the_minute e m.
Proof.
  unfold minutely, on_the_minute. set (p := 60 * Trigger.second). assert (0 < p) by (unfold p, Trigger.second; lia).
  intros [= <-]. pose proof (Z.div_mod (- c) p) as Hd. pose proof (Z.mod_pos_bound (- c) p).
  split_and!; [nia|by apply Z.mod_mul; lia|]. intros m Hm Hz. apply Z.mod_divide in Hz as [q ->]; [|lia].
  assert (q < - (- c / p)) by nia. assert ((q + 1) * p <= - (- c / p) * p) by (apply Z.mul_le_mono_nonneg_r; lia). lia.
Qed.

Definition sample_config : CronEndpoint.CronEndpointConfig unit :=
  CronEndpoint.mk 1 "report" 1 false true "* * * * *" "UTC" ScheduleOverlapPolicy.kSkip ScheduleMissedRunPolicy.kSkip
    "" "" false "" "" "" ∅.
Definition after_run (acts : list (Action (Value := unit))) : Source :=
  default (created 1) (run (fun _ => true) (fun _ => true) minutely acts (created 1)).
Lemma after_run_reachable (acts : list (Action (Value := unit))) : is_Some (run (fun _ => true) (fun _ => true) minutely acts (created 1)) ->
  CronSource.cron_reachable (fun _ => true) (fun _ => true) minutely (Value := unit) 1 (after_run acts).
Proof. intros [s E]. unfold after_run. rewrite E. by apply (cron_run_reachable acts _ _ _ (rtc_refl _ _)). Qed.

(** An occurrence starts an execution, which waits for its result. *)
Definition sample_fired : list (Action (Value := unit)) :=
  [AAdd (Some sample_config) 1 true; AStart false [sample_config] 0 true; AFire 0 (60 * Trigger.second); ADispatch true; ADispatch true; ADispatch true;
   ADispatch true; AExecution Returns "run-1" 0; AExecution Returns "" 0].
(** A stop finds it and sleeps. *)
Definition sample_asleep : list (Action (Value := unit)) := sample_fired ++ [AStop false; AStopStep; AStopStep; AStopStep; AStopStep].
(** The result arrives, the execution ends and wakes the stop. *)
Definition sample_done : list (Action (Value := unit)) :=
  sample_asleep ++ [AResult 0 "run-1"; ACompleter 0; ACompleter 0; ACompleter 0] ++ replicate 5 (AExecution Returns "" 0)
  ++ [AStopStep; AStopStep].

Lemma cron_drained_witness : started (after_run sample_done) = false /\ ticker (after_run sample_done) = TOff.
Proof.
  assert (Hs : started (after_run sample_done) = false) by (vm_compute; reflexivity). split; [done|].
  pose proof (after_run_reachable sample_done ltac:(eexists; vm_compute; reflexivity)) as Hr. apply (cron_drained _ _ Hr Hs).
Defined.

Lemma cron_exclusive_witness :
  active <$> endpoints (after_run sample_fired) = [1] /\ Monitor.tallied (working 0) (executions (after_run sample_fired)) = 1.
Proof.
  pose proof (after_run_reachable sample_fired ltac:(eexists; vm_compute; reflexivity)) as Hr.
  destruct (cron_exclusive _ _ 0 _ Hr ltac:(vm_compute; reflexivity)) as (_ & Ha & _).
  split; [vm_compute; reflexivity|]. symmetry. apply Ha. right. vm_compute. reflexivity.
Defined.

Lemma cron_stop_waits_witness :
  exists e w i x, control (after_run sample_asleep) = CEndpoint e w /\ executions (after_run sample_asleep) !! i = Some x /\
    xendpoint x = e /\ xpc x <> XDone.
Proof.
  pose proof (after_run_reachable sample_asleep ltac:(eexists; vm_compute; reflexivity)) as Hr.
  destruct (cron_stop_waits _ _ Hr ltac:(vm_compute; discriminate) ltac:(vm_compute; reflexivity))
    as [(e & m & d & s' & Ht & _)|(e & w & i & x & ? & ? & ? & ? & _)]; [vm_compute in Ht; discriminate|].
  by exists e, w, i, x.
Defined.

(** Two minutes later, the occurrence in between was missed. *)
Lemma fire_missed_exact_witness :
  exists missed, ticker <$> fire minutely 0 (180 * Trigger.second) (after_run sample_fired) = Some (TDispatch 0 missed DEnter) /\ missed = true.
Proof.
  pose proof (fire_missed_exact minutely on_the_minute minutely_next) as Hexact.
  edestruct (Hexact ltac:(discriminate) 0%nat) with (at_ := 180 * Trigger.second) (s := after_run sample_fired) as (m & Hf & Hm);
    [vm_compute; reflexivity..|].
  exists m. split; [exact Hf|]. apply Hm. exists (60 * Trigger.second), (120 * Trigger.second).
  split_and!; vm_compute; congruence.
Defined.
