(* ===== verification/SerdeWire.v ===== *)
(** * The wire format: bytes, big-endian integers and the bounded reader

    The [detail] namespace of runtime/serde/serdeimpl.hpp.  A [SerdeData] is the list of
    its bytes, each a [Z] below 256; fixed-width integers are [Z] with their shifts and
    masks written out.  Writers append to an output and report an exception with what
    they had written by then; the [Reader] is the span with its offset.

    The lemmas give the two views the serdes need: a write appends the big-endian bytes,
    and a read from a span that starts with them returns the number and moves on. *)
From Stdlib Require Import ZArith Lia.
From stdpp Require Import strings.
From S2P Require Import Prelude.
Local Open Scope Z_scope.

Module Wire.

Abbreviation SerdeData := (list Z).

Definition is_byte (b : Z) : Prop := 0 <= b < 256.
Definition len {A} (l : list A) : Z := Z.of_nat (length l).

(** The exceptions: [SerdeError] with its message and offset, the ones of the standard
    library, and the [std::runtime_error] of a stub. *)
Inductive Exception :=
  | SerdeError (message : string) (offset : Z)
  | InvalidArgument (message : string)
  | RuntimeError (message : string)
  | LengthError.

Record SerdeLimits := mkLimits {
  maxStringBytes : Z;
  maxBytes : Z;
  maxContainerElements : Z;
  maxTotalBytes : Z;
}.
(** [SerdeLimits{}]. *)
Definition noLimits : SerdeLimits := mkLimits size_max size_max size_max size_max.

(** [SerdeData::max_size()]. *)
Definition max_size : Z := int64_max.

Definition kSizeBytes : Z := 8.

(** ** Writing *)
Definition Write := SerdeData -> SerdeData * result Exception unit.

Definition done : Write := fun output => (output, Ok tt).
Definition fail (e : Exception) : Write := fun output => (output, Err e).
(** The statements of a function body, an exception leaves it. *)
Definition seq (w1 w2 : Write) : Write := fun output =>
  match w1 output with
  | (output, Ok _) => w2 output
  | (output, Err e) => (output, Err e)
  end.
Notation "w1 ;> w2" := (seq w1 w2) (at level 62, right associativity).

Definition push_back (b : Z) : Write := fun output => (output ++ [b], Ok tt).
Definition append (bs : SerdeData) : Write := fun output => (output ++ bs, Ok tt).

Definition checked_add (lhs rhs : Z) (what : string) : result Exception Z :=
  if size_max - lhs <? rhs
  then Err (SerdeError ("serde size overflow while encoding " +:+ what) 0)
  else Ok (lhs + rhs).

Definition reserve_more (additional : Z) : Write := fun output =>
  if max_size - len output <? additional
  then (output, Err (SerdeError "serde output size overflow" (len output)))
  else (output, Ok tt).

Definition byte_of (value : Z) (shift : Z) : Z := Z.land (Z.shiftr value shift) 255.

Definition put_u8 (value : Z) : Write := push_back value.
Definition put_u16_be (value : Z) : Write :=
  push_back (byte_of value 8) ;> push_back (byte_of value 0).
Definition put_u32_be (value : Z) : Write :=
  push_back (byte_of value 24) ;> push_back (byte_of value 16) ;>
  push_back (byte_of value 8) ;> push_back (byte_of value 0).

(** [for (int index = n - 1; index >= 0; --index)]. *)
Fixpoint put_loop (n : nat) (value : Z) : Write :=
  match n with
  | O => done
  | S n => push_back (byte_of value (Z.of_nat n * 8)) ;> put_loop n value
  end.
Definition put_u64_be (value : Z) : Write := put_loop 8 value.

Fixpoint set_loop (n : nat) (position : nat) (value : Z) (output : SerdeData) : SerdeData :=
  match n with
  | O => output
  | S n => set_loop n (S position) value
             (<[position := byte_of value (Z.of_nat n * 8)]> output)
  end.
Definition set_u64_be (offset value : Z) : Write := fun output =>
  if (len output <? offset) || (len output - offset <? kSizeBytes)
  then (output, Err (SerdeError "invalid serde frame offset" offset))
  else (set_loop 8 (Z.to_nat offset) value output, Ok tt).

Definition put_size (size : Z) : Write := put_u64_be size.

(** ** Reading *)
Record Reader := mkReader {
  data_ : SerdeData;
  offset_ : Z;
}.

(** The constructor. *)
Definition make_reader (data : SerdeData) (maxTotalBytes : Z) : result Exception Reader :=
  if maxTotalBytes <? len data
  then Err (SerdeError "serde input exceeds configured limit" 0)
  else Ok (mkReader data 0).

Definition remaining (r : Reader) : Z := len (data_ r) - offset_ r.

Definition read (size : Z) (what : string) (r : Reader) : result Exception (SerdeData * Reader) :=
  if remaining r <? size
  then Err (SerdeError ("serde underflow while reading " +:+ what) (offset_ r))
  else Ok (take (Z.to_nat size) (drop (Z.to_nat (offset_ r)) (data_ r)),
           mkReader (data_ r) (offset_ r + size)).

Definition nth_byte (bs : SerdeData) (i : nat) : Z := default 0 (bs !! i).

Local Open Scope result_scope.
Definition read_u8 (r : Reader) : result Exception (Z * Reader) :=
  let? (bytes, r) := read 1 "u8" r in Ok (nth_byte bytes 0, r).
Definition read_u16_be (r : Reader) : result Exception (Z * Reader) :=
  let? (bytes, r) := read 2 "u16" r in
  Ok (Z.lor (Z.shiftl (nth_byte bytes 0) 8) (nth_byte bytes 1), r).
Definition read_u32_be (r : Reader) : result Exception (Z * Reader) :=
  let? (bytes, r) := read 4 "u32" r in
  Ok (Z.lor (Z.lor (Z.lor (Z.shiftl (nth_byte bytes 0) 24) (Z.shiftl (nth_byte bytes 1) 16))
        (Z.shiftl (nth_byte bytes 2) 8)) (nth_byte bytes 3), r).
Definition read_u64_be (r : Reader) : result Exception (Z * Reader) :=
  let? (bytes, r) := read 8 "u64" r in
  Ok (fold_left (fun value byte => Z.lor (Z.shiftl value 8 mod 2 ^ 64) byte) bytes 0, r).

(** The test against [size_t] is there for platforms with a narrower [size_t]. *)
Definition read_size (maximum : Z) (what : string) (r : Reader) : result Exception (Z * Reader) :=
  let? (encoded, r) := read_u64_be r in
  if size_max <? encoded
  then Err (SerdeError ("serde " +:+ what +:+ " does not fit size_t") (offset_ r - kSizeBytes))
  else if maximum <? encoded
  then Err (SerdeError ("serde " +:+ what +:+ " exceeds configured limit") (offset_ r - kSizeBytes))
  else Ok (encoded, r).
Local Close Scope result_scope.

(** ** Big-endian bytes *)
Fixpoint be (n : nat) (value : Z) : SerdeData :=
  match n with
  | O => []
  | S n => byte_of value (Z.of_nat n * 8) :: be n value
  end.

Lemma len_nil {A} : len (@nil A) = 0.
Proof. done. Qed.
Lemma len_app {A} (l l' : list A) : len (l ++ l') = len l + len l'.
Proof. unfold len. rewrite length_app. lia. Qed.
Lemma len_cons {A} (x : A) l : len (x :: l) = 1 + len l.
Proof. unfold len. simpl. lia. Qed.
Lemma len_nonneg {A} (l : list A) : 0 <= len l.
Proof. unfold len. lia. Qed.

Lemma byte_of_eq value shift : 0 <= shift -> byte_of value shift = (value / 2 ^ shift) mod 256.
Proof. intros Hs. unfold byte_of. rewrite Z.shiftr_div_pow2 by done. apply (Z.land_ones _ 8). lia. Qed.

Lemma byte_of_byte value shift : 0 <= shift -> is_byte (byte_of value shift).
Proof. intros Hs. rewrite byte_of_eq by done. apply Z.mod_pos_bound. lia. Qed.

Lemma be_length n value : length (be n value) = n.
Proof. induction n; simpl; auto. Qed.
Lemma be_len n value : len (be n value) = Z.of_nat n.
Proof. unfold len. by rewrite be_length. Qed.
Lemma be_bytes n value : Forall is_byte (be n value).
Proof. induction n; simpl; constructor; auto. apply byte_of_byte. lia. Qed.

(** Gluing a byte below a number. *)
Lemma lor_byte a b : is_byte b -> Z.lor (Z.shiftl a 8) b = a * 256 + b.
Proof.
  intros Hb. rewrite <- (Z.mul_comm 256). change (256 * a) with (2 ^ 8 * a).
  rewrite Z.shiftl_mul_pow2, (Z.mul_comm a) by lia.
  enough (E : Z.land (2 ^ 8 * a) b = 0) by (pose proof (Z.add_lor_land (2 ^ 8 * a) b); lia).
  apply Z.bits_inj'. intros i Hi. rewrite Z.land_spec, Z.bits_0, Z.mul_comm.
  destruct (Z.ltb_spec i 8).
  - by rewrite Z.mul_pow2_bits_low.
  - rewrite (Z.bits_above_log2 b i), andb_false_r; [done|apply Hb|].
    unfold is_byte in Hb. destruct (Z.eq_dec b 0) as [->|]; [simpl; lia|].
    apply Z.log2_lt_pow2; [lia|]. apply Z.lt_le_trans with (2 ^ 8); [lia|].
    apply Z.pow_le_mono_r; lia.
Qed.

(** [un_be] reads the digits. *)
Definition un_be (bs : SerdeData) (acc : Z) : Z := fold_left (fun v b => v * 256 + b) bs acc.

Lemma un_be_be n v acc : un_be (be n v) acc = acc * 2 ^ (8 * Z.of_nat n) + v mod 2 ^ (8 * Z.of_nat n).
Proof.
  revert acc. induction n as [|n IH]; intros acc.
  - simpl. rewrite Z.mod_1_r. lia.
  - simpl be. unfold un_be. simpl fold_left. fold (un_be (be n v) (acc * 256 + byte_of v (Z.of_nat n * 8))).
    rewrite IH, byte_of_eq by lia.
    replace (8 * Z.of_nat (S n)) with (8 * Z.of_nat n + 8) by lia.
    replace (Z.of_nat n * 8) with (8 * Z.of_nat n) by lia.
    rewrite Z.pow_add_r by lia. rewrite (Z.rem_mul_r v (2 ^ (8 * Z.of_nat n)) (2 ^ 8)) by lia.
    change (2 ^ 8) with 256. ring.
Qed.

Lemma un_be_inv n v : 0 <= v < 2 ^ (8 * Z.of_nat n) -> un_be (be n v) 0 = v.
Proof. intros Hv. rewrite un_be_be, Z.mod_small by done. lia. Qed.

Lemma un_be_range bs : Forall is_byte bs -> 0 <= un_be bs 0 < 2 ^ (8 * len bs).
Proof.
  enough (Hg : forall acc, 0 <= acc -> Forall is_byte bs ->
    acc * 2 ^ (8 * len bs) <= un_be bs acc < (acc + 1) * 2 ^ (8 * len bs)).
  { intros Hb. specialize (Hg 0 ltac:(lia) Hb). lia. }
  induction bs as [|b bs IH]; intros acc Ha Hb; [unfold un_be, len; simpl; lia|].
  apply Forall_cons in Hb as [Hb Hbs]. unfold un_be. simpl. fold (un_be bs (acc * 256 + b)).
  unfold is_byte in Hb. specialize (IH (acc * 256 + b) ltac:(lia) Hbs).
  rewrite len_cons. replace (8 * (1 + len bs)) with (8 + 8 * len bs) by lia.
  pose proof (len_nonneg bs). rewrite Z.pow_add_r by lia. change (2 ^ 8) with 256. nia.
Qed.

(** ** Writers append *)
Lemma put_loop_be n v output : put_loop n v output = (output ++ be n v, Ok tt).
Proof.
  revert output. induction n as [|n IH]; intros output; simpl; [by rewrite app_nil_r|].
  unfold seq, push_back. rewrite IH. by rewrite <- app_assoc.
Qed.

Lemma put_u16_be_eq v output : put_u16_be v output = (output ++ be 2 v, Ok tt).
Proof. unfold put_u16_be, seq, push_back. simpl. by rewrite <- app_assoc. Qed.
Lemma put_u32_be_eq v output : put_u32_be v output = (output ++ be 4 v, Ok tt).
Proof. unfold put_u32_be, seq, push_back. simpl. by rewrite <- !app_assoc. Qed.
Lemma put_u64_be_eq v output : put_u64_be v output = (output ++ be 8 v, Ok tt).
Proof. apply put_loop_be. Qed.

(** Overwriting a frame header. *)
Lemma set_loop_eq n v pre mid post :
  length mid = n -> set_loop n (length pre) v (pre ++ mid ++ post) = pre ++ be n v ++ post.
Proof.
  revert pre mid. induction n as [|n IH]; intros pre mid Hm.
  - by destruct mid.
  - destruct mid as [|m mid]; [done|]. simpl in Hm. simpl set_loop.
    rewrite insert_app_r_alt by lia. rewrite Nat.sub_diag. simpl.
    set (b := byte_of v (Z.of_nat n * 8)).
    replace (pre ++ b :: mid ++ post) with ((pre ++ [b]) ++ mid ++ post) by by rewrite <- app_assoc.
    replace (S (length pre)) with (length (pre ++ [b])) by (rewrite length_app; simpl; lia).
    rewrite IH by lia. by rewrite <- app_assoc.
Qed.

(** A frame: a zero header, the payload, and then its length in the header. *)
Definition frame (w : Write) : Write := fun output =>
  let headerOffset := len output in
  match put_u64_be 0 output with
  | (output, Ok _) =>
      let valueOffset := len output in
      match w output with
      | (output, Ok _) => set_u64_be headerOffset (len output - valueOffset) output
      | (output, Err e) => (output, Err e)
      end
  | (output, Err e) => (output, Err e)
  end.

Lemma frame_eq w bs output :
  w (output ++ be 8 0) = ((output ++ be 8 0) ++ bs, Ok tt) ->
  frame w output = (output ++ be 8 (len bs) ++ bs, Ok tt).
Proof.
  intros Hw. unfold frame. rewrite put_u64_be_eq, Hw. unfold set_u64_be.
  rewrite !len_app, be_len. change (Z.of_nat 8) with 8. unfold kSizeBytes.
  pose proof (len_nonneg output). pose proof (len_nonneg bs).
  destruct (Z.ltb_spec (len output + 8 + len bs) (len output)); [lia|].
  destruct (Z.ltb_spec (len output + 8 + len bs - len output) 8); [lia|]. simpl orb. cbv iota.
  replace (len output + 8 + len bs - (len output + 8)) with (len bs) by lia.
  unfold len at 1. rewrite Nat2Z.id, <- app_assoc.
  rewrite (set_loop_eq 8 (len bs) output (be 8 0) bs) by apply be_length. done.
Qed.

(** ** Reads *)

(** A reader that has consumed [pre] of its span. *)
Definition after (pre rest : SerdeData) : Reader := mkReader (pre ++ rest) (len pre).

Lemma remaining_after pre rest : remaining (after pre rest) = len rest.
Proof. unfold remaining, after. simpl. rewrite len_app. lia. Qed.

Lemma read_after pre bs rest what :
  read (len bs) what (after pre (bs ++ rest)) = Ok (bs, after (pre ++ bs) rest).
Proof.
  unfold read, remaining, after. simpl. rewrite !len_app.
  pose proof (len_nonneg rest). destruct (Z.ltb_spec (len pre + (len bs + len rest) - len pre) (len bs)); [lia|].
  unfold len at 1 2. rewrite !Nat2Z.id, drop_app_length, take_app_length.
  by rewrite <- app_assoc.
Qed.

Lemma read_short pre rest size what :
  len rest < size ->
  read size what (after pre rest) =
    Err (SerdeError ("serde underflow while reading " +:+ what) (len pre)).
Proof.
  intros Hs. unfold read, remaining, after. simpl. rewrite len_app.
  destruct (Z.ltb_spec (len pre + len rest - len pre) size); [done|lia].
Qed.

Lemma read_be n v pre rest what :
  read (Z.of_nat n) what (after pre (be n v ++ rest)) = Ok (be n v, after (pre ++ be n v) rest).
Proof. rewrite <- (be_len n v) at 1. apply read_after. Qed.

Lemma read_u16_be_after v pre rest :
  0 <= v < 2 ^ 16 ->
  read_u16_be (after pre (be 2 v ++ rest)) = Ok (v, after (pre ++ be 2 v) rest).
Proof.
  intros Hv. unfold read_u16_be. rewrite (read_be 2 v). simpl. f_equal. f_equal.
  rewrite lor_byte by (apply byte_of_byte; lia). apply (un_be_inv 2 v Hv).
Qed.

Lemma read_u32_be_after v pre rest :
  0 <= v < 2 ^ 32 ->
  read_u32_be (after pre (be 4 v ++ rest)) = Ok (v, after (pre ++ be 4 v) rest).
Proof.
  intros Hv. unfold read_u32_be. rewrite (read_be 4 v). cbn [rbind be].
  unfold nth_byte. cbn [lookup list_lookup default from_option id]. f_equal. f_equal.
  pose proof (un_be_inv 4 v Hv) as Hinv. revert Hinv. unfold un_be. cbn [be fold_left].
  generalize (byte_of_byte v (Z.of_nat 2 * 8) ltac:(lia)), (byte_of_byte v (Z.of_nat 1 * 8) ltac:(lia)),
    (byte_of_byte v (Z.of_nat 0 * 8) ltac:(lia)).
  generalize (byte_of v (Z.of_nat 3 * 8)), (byte_of v (Z.of_nat 2 * 8)), (byte_of v (Z.of_nat 1 * 8)),
    (byte_of v (Z.of_nat 0 * 8)).
  intros a b c d Hb Hc Hd <-.
  replace (Z.shiftl a 24) with (Z.shiftl (Z.shiftl (Z.shiftl a 8) 8) 8)
    by (rewrite !Z.shiftl_shiftl by lia; done).
  replace (Z.shiftl b 16) with (Z.shiftl (Z.shiftl b 8) 8) by (rewrite Z.shiftl_shiftl by lia; done).
  rewrite <- !Z.shiftl_lor, !lor_byte by done. lia.
Qed.

Lemma un_be_fold bs acc n :
  Forall is_byte bs -> 0 <= acc < 2 ^ (8 * Z.of_nat n) -> (n + length bs <= 8)%nat ->
  fold_left (fun value byte => Z.lor (Z.shiftl value 8 mod 2 ^ 64) byte) bs acc = un_be bs acc.
Proof.
  revert acc n. induction bs as [|b bs IH]; intros acc n Hb Ha Hn; [done|].
  apply Forall_cons in Hb as [Hb Hbs]. simpl in Hn. simpl fold_left.
  assert (Hp : 2 ^ (8 * Z.of_nat n) * 256 <= 2 ^ 64).
  { change 256 with (2 ^ 8). rewrite <- Z.pow_add_r by lia. apply Z.pow_le_mono_r; lia. }
  rewrite (Z.mod_small (Z.shiftl acc 8)) by (rewrite Z.shiftl_mul_pow2 by lia; lia).
  rewrite lor_byte by done. rewrite (IH (acc * 256 + b) (S n)); [done|done| |lia].
  unfold is_byte in Hb. replace (8 * Z.of_nat (S n)) with (8 * Z.of_nat n + 8) by lia.
  rewrite Z.pow_add_r by lia. change (2 ^ 8) with 256. nia.
Qed.

Lemma read_u64_be_after v pre rest :
  0 <= v < 2 ^ 64 ->
  read_u64_be (after pre (be 8 v ++ rest)) = Ok (v, after (pre ++ be 8 v) rest).
Proof.
  intros Hv. unfold read_u64_be. rewrite (read_be 8 v). cbn [rbind]. f_equal. f_equal.
  rewrite (un_be_fold _ 0 0); [by apply (un_be_inv 8)|apply be_bytes|simpl; lia|].
  by rewrite be_length.
Qed.

Lemma read_size_after n maximum what pre rest :
  0 <= n <= maximum -> n <= size_max ->
  read_size maximum what (after pre (be 8 n ++ rest)) = Ok (n, after (pre ++ be 8 n) rest).
Proof.
  intros Hn Hm. unfold read_size. rewrite read_u64_be_after by (unfold size_max in *; lia). cbn [rbind].
  destruct (Z.ltb_spec size_max n); [lia|]. by destruct (Z.ltb_spec maximum n); [lia|].
Qed.

Lemma make_reader_after data maximum :
  len data <= maximum -> make_reader data maximum = Ok (after [] data).
Proof. intros Hd. unfold make_reader. destruct (Z.ltb_spec maximum (len data)); [lia|done]. Qed.

(** ** Reads of any input

    [be_un_be] and the forward lemmas give what a successful read says about the input. *)
Lemma un_be_acc bs acc : un_be bs acc = acc * 2 ^ (8 * len bs) + un_be bs 0.
Proof.
  revert acc. induction bs as [|c bs IH]; intros acc; [unfold un_be, len; simpl; lia|].
  change (un_be (c :: bs) acc) with (un_be bs (acc * 256 + c)).
  change (un_be (c :: bs) 0) with (un_be bs (0 * 256 + c)).
  rewrite IH, (IH (0 * 256 + c)), len_cons. pose proof (len_nonneg bs).
  replace (8 * (1 + len bs)) with (8 + 8 * len bs) by lia. rewrite Z.pow_add_r by lia.
  change (2 ^ 8) with 256. ring.
Qed.

Lemma be_un_be bs acc :
  Forall is_byte bs -> 0 <= acc ->
  be (length bs) (un_be bs acc) = bs.
Proof.
  revert acc. induction bs as [|b bs IH]; intros acc Hb Ha; [done|].
  apply Forall_cons in Hb as [Hb Hbs]. unfold un_be. simpl fold_left. fold (un_be bs (acc * 256 + b)).
  unfold is_byte in Hb. simpl length. cbn [be]. rewrite IH by (done || lia). f_equal.
  rewrite byte_of_eq by lia. rewrite un_be_acc.
  replace (Z.of_nat (length bs) * 8) with (8 * len bs) by (unfold len; lia).
  pose proof (un_be_range bs Hbs) as Hr. pose proof (len_nonneg bs).
  rewrite Z.div_add_l, (Z.div_small (un_be bs 0)), Z.add_0_r by lia.
  rewrite Z.add_comm, Z.mod_add, Z.mod_small by lia. done.
Qed.

Lemma split_be n data :
  Forall is_byte data -> (n <= length data)%nat ->
  exists v rest, data = be n v ++ rest /\ 0 <= v < 2 ^ (8 * Z.of_nat n).
Proof.
  intros Hb Hn. exists (un_be (take n data) 0), (drop n data).
  assert (Hl : length (take n data) = n) by (rewrite length_take; lia).
  split.
  - rewrite <- Hl at 1. rewrite be_un_be by (done || by apply Forall_take). by rewrite take_drop.
  - rewrite <- Hl at 3. fold (len (take n data)). apply un_be_range. by apply Forall_take.
Qed.

(** A read of [n] bytes by [f], which is right when they are there, tells what was read. *)
Lemma read_inv {A} (f : Reader -> result Exception (A * Reader)) n (g : Z -> A) pre data a r :
  Forall is_byte data ->
  (forall v rest, 0 <= v < 2 ^ (8 * Z.of_nat n) ->
     f (after pre (be n v ++ rest)) = Ok (g v, after (pre ++ be n v) rest)) ->
  (len data < Z.of_nat n -> exists e, f (after pre data) = Err e) ->
  f (after pre data) = Ok (a, r) ->
  exists v rest, data = be n v ++ rest /\ a = g v /\ r = after (pre ++ be n v) rest /\
    0 <= v < 2 ^ (8 * Z.of_nat n).
Proof.
  intros Hb Hok Hshort Hf. unfold len in Hshort. destruct (decide (n <= length data)%nat) as [Hn|Hn].
  - destruct (split_be n data Hb Hn) as (v & rest & -> & Hv). rewrite Hok in Hf by done.
    simplify_eq. by exists v, rest.
  - destruct Hshort as [e He]; [lia|congruence].
Qed.

Lemma read_u64_be_inv pre data v r :
  Forall is_byte data -> read_u64_be (after pre data) = Ok (v, r) ->
  exists rest, data = be 8 v ++ rest /\ r = after (pre ++ be 8 v) rest /\ 0 <= v < 2 ^ 64.
Proof.
  intros Hb Hr. destruct (read_inv read_u64_be 8 id pre data v r Hb) as (u & rest & -> & -> & -> & Hu);
    [intros; by apply read_u64_be_after| |done|by exists rest].
  intros Hs. unfold read_u64_be. rewrite read_short by done. by eexists.
Qed.

Lemma read_size_inv maximum what pre data n r :
  Forall is_byte data -> read_size maximum what (after pre data) = Ok (n, r) ->
  exists rest, data = be 8 n ++ rest /\ r = after (pre ++ be 8 n) rest /\ 0 <= n <= maximum /\ n <= size_max.
Proof.
  intros Hb Hr. unfold read_size in Hr. apply rbind_Ok_inv in Hr as ([v r'] & Hv & Hr).
  apply read_u64_be_inv in Hv as (rest & -> & -> & Hv); [|done].
  repeat split_case_in Hr; try done. simplify_eq. bool_to_prop. exists rest. repeat split; lia.
Qed.

Lemma read_any_inv size what pre data bs r :
  0 <= size -> read size what (after pre data) = Ok (bs, r) ->
  exists rest, data = bs ++ rest /\ len bs = size /\ r = after (pre ++ bs) rest.
Proof.
  intros Hs Hr. destruct (Z.ltb_spec (len data) size) as [Hl|Hl].
  - by rewrite read_short in Hr.
  - assert (Ht : len (take (Z.to_nat size) data) = size)
      by (unfold len in *; rewrite length_take; lia).
    rewrite <- (take_drop (Z.to_nat size) data), <- Ht, read_after in Hr at 1. simplify_eq.
    exists (drop (Z.to_nat size) data). by rewrite take_drop.
Qed.

(** Bounds that hold of any reader. *)
Lemma read_le size what r bs r' : read size what r = Ok (bs, r') -> len bs <= Z.max 0 size.
Proof. unfold read. split_case; [done|]. intros [= <- _]. unfold len. rewrite length_take. lia. Qed.

Lemma read_size_le maximum what r n r' : read_size maximum what r = Ok (n, r') -> n <= maximum.
Proof.
  unfold read_size. intros Hr. apply rbind_Ok_inv in Hr as ([v r1] & _ & Hr).
  repeat split_case_in Hr; simplify_eq. bool_to_prop. lia.
Qed.

(** The comparison of byte strings, most significant byte first. *)
Fixpoint bytes_compare (a b : SerdeData) : comparison :=
  match a, b with
  | [], [] => Eq
  | [], _ => Lt
  | _, [] => Gt
  | x :: a, y :: b => match x ?= y with Eq => bytes_compare a b | c => c end
  end.

Lemma be_compare n u v :
  0 <= u < 2 ^ (8 * Z.of_nat n) -> 0 <= v < 2 ^ (8 * Z.of_nat n) ->
  bytes_compare (be n u) (be n v) = (u ?= v).
Proof.
  enough (Hg : forall u v, bytes_compare (be n u) (be n v) =
    (u mod 2 ^ (8 * Z.of_nat n) ?= v mod 2 ^ (8 * Z.of_nat n))).
  { intros Hu Hv. by rewrite Hg, !Z.mod_small. }
  clear. induction n as [|n IH]; intros u v; [by rewrite !Z.mod_1_r|].
  cbn [be bytes_compare]. rewrite IH, !byte_of_eq by lia.
  replace (8 * Z.of_nat (S n)) with (8 * Z.of_nat n + 8) by lia.
  replace (Z.of_nat n * 8) with (8 * Z.of_nat n) by lia.
  rewrite Z.pow_add_r, !Z.rem_mul_r by lia. change (2 ^ 8) with 256.
  pose proof (Z.mod_pos_bound u (2 ^ (8 * Z.of_nat n))). pose proof (Z.mod_pos_bound v (2 ^ (8 * Z.of_nat n))).
  set (q := 2 ^ (8 * Z.of_nat n)) in *. assert (0 < q) by (subst q; lia).
  destruct (Z.compare_spec (u / q mod 256) (v / q mod 256)) as [E|L|L].
  - rewrite E. destruct (Z.compare_spec (u mod q) (v mod q)); symmetry;
      [apply Z.compare_eq_iff|apply Z.compare_lt_iff|apply Z.compare_gt_iff]; lia.
  - symmetry. apply Z.compare_lt_iff. nia.
  - symmetry. apply Z.compare_gt_iff. nia.
Qed.
End Wire.
