(* ===== verification/SerdeTypes.v ===== *)
(** * Serdes of scalars, strings and byte sequences

    The interface [Serde] of runtime/serde/serde.hpp as a record of its virtual
    functions, and the scalar, string and byte serdes of runtime/serde/serdeimpl.hpp.
    Integers are [Z] in the range of their type, [float] and [double] their IEEE bit
    patterns (the code only casts the bits), strings and byte vectors lists of bytes.

    [Codec] states what a serde promises to the containers built on it: it appends a
    fixed encoding of a value in its domain and reads the value back from any input
    that starts with the encoding.  [Canonical] is the converse: what it reads from
    arbitrary bytes is in its domain and the input starts with its encoding. *)
From Stdlib Require Import ZArith Lia.
From stdpp Require Import strings.
From S2P Require Import Prelude SerdeWire.
Import Wire.
Local Open Scope Z_scope.

Module Types.

(** ** The interface *)
Record Serde (T : Type) := mkSerde {
  IsStub : bool;
  Serialize : T -> result Exception SerdeData;
  SerializeTo : T -> Write;
  Deserialize : SerdeData -> result Exception T;
}.
Arguments mkSerde {T}.
Arguments IsStub {T}.
Arguments Serialize {T}.
Arguments SerializeTo {T}.
Arguments Deserialize {T}.

(** [SerializeTo] where a class does not override it. *)
Definition default_SerializeTo {T} (serialize : T -> result Exception SerdeData) (value : T) : Write :=
  fun output =>
    match serialize value with
    | Ok encoded => append encoded output
    | Err e => (output, Err e)
    end.

Definition StubSerde (T : Type) : Serde T :=
  let serialize := fun _ => Err (RuntimeError "serde for type is not implemented") in
  mkSerde true serialize (default_SerializeTo serialize)
    (fun _ => Err (RuntimeError "serde for type is not implemented")).

Definition serialize_fresh {T} (serializeTo : T -> Write) (value : T) (reserve : Z) :
    result Exception SerdeData :=
  if max_size <? reserve then Err LengthError
  else match serializeTo value [] with
       | (output, Ok _) => Ok output
       | (_, Err e) => Err e
       end.

(** A serde whose [Serialize] is [serialize_fresh] with a constant reserve. *)
Definition scalar {T} (size : Z) (serializeTo : T -> Write)
    (deserialize : SerdeData -> result Exception T) : Serde T :=
  mkSerde false (fun value => serialize_fresh serializeTo value size) serializeTo deserialize.

(** [std::bit_cast] between the signed and unsigned types of width [w]. *)
Definition to_unsigned (w : Z) (value : Z) : Z := value mod 2 ^ w.
Definition to_signed (w : Z) (value : Z) : Z :=
  if value <? 2 ^ (w - 1) then value else value - 2 ^ w.

(** ** Scalars *)
Local Open Scope result_scope.
Definition with_reader {A} (f : Reader -> result Exception (Z * Reader)) (g : Z -> A)
    (data : SerdeData) : result Exception A :=
  let? reader := make_reader data size_max in
  let? (value, _) := f reader in
  Ok (g value).
Local Close Scope result_scope.

Definition BoolSerde : Serde bool :=
  scalar 1 (fun value : bool => put_u8 (if value then 1 else 0))
    (with_reader read_u8 (fun value => negb (value =? 0))).
Definition Int8Serde : Serde Z :=
  scalar 1 (fun value => put_u8 (to_unsigned 8 value)) (with_reader read_u8 (to_signed 8)).
Definition UInt8Serde : Serde Z :=
  scalar 1 put_u8 (with_reader read_u8 id).
Definition Int16Serde : Serde Z :=
  scalar 2 (fun value => put_u16_be (Z.lxor (to_unsigned 16 value) 0x8000))
    (with_reader read_u16_be (fun value => to_signed 16 (Z.lxor value 0x8000))).
Definition UInt16Serde : Serde Z :=
  scalar 2 put_u16_be (with_reader read_u16_be id).
Definition Int32Serde : Serde Z :=
  scalar 4 (fun value => put_u32_be (Z.lxor (to_unsigned 32 value) 0x80000000))
    (with_reader read_u32_be (fun value => to_signed 32 (Z.lxor value 0x80000000))).
Definition UInt32Serde : Serde Z :=
  scalar 4 put_u32_be (with_reader read_u32_be id).
Definition Int64Serde : Serde Z :=
  scalar 8 (fun value => put_u64_be (Z.lxor (to_unsigned 64 value) 0x8000000000000000))
    (with_reader read_u64_be (fun value => to_signed 64 (Z.lxor value 0x8000000000000000))).
Definition UInt64Serde : Serde Z :=
  scalar 8 put_u64_be (with_reader read_u64_be id).
(** [char32_t], [float] and [double] as their bits. *)
Definition RuneSerde : Serde Z :=
  scalar 4 put_u32_be (with_reader read_u32_be id).
Definition Float32Serde : Serde Z :=
  scalar 4 put_u32_be (with_reader read_u32_be id).
Definition Float64Serde : Serde Z :=
  scalar 8 put_u64_be (with_reader read_u64_be id).

(** ** Strings and bytes *)

(** The two classes differ in the limit they read and in their messages. *)
Definition sized_SerializeTo (maximum : Z) (tooLong what : string) (value : SerdeData) : Write :=
  if maximum <? len value then fail (SerdeError tooLong 0)
  else match checked_add kSizeBytes (len value) what with
       | Ok additional => reserve_more additional ;> put_size (len value) ;> append value
       | Err e => fail e
       end.
Local Open Scope result_scope.
Definition sized_Serialize (maximum : Z) (tooLong what : string) (value : SerdeData) :
    result Exception SerdeData :=
  let? reserve := checked_add kSizeBytes (len value) what in
  serialize_fresh (sized_SerializeTo maximum tooLong what) value reserve.
Definition sized_Deserialize (total maximum : Z) (lengthOf what : string) (data : SerdeData) :
    result Exception SerdeData :=
  let? reader := make_reader data total in
  let? (length, reader) := read_size maximum lengthOf reader in
  let? (bytes, _) := read length what reader in
  Ok bytes.
Local Close Scope result_scope.

Definition StringSerde (limits_ : SerdeLimits) : Serde SerdeData :=
  mkSerde false
    (sized_Serialize (maxStringBytes limits_) "string exceeds configured serde limit" "string")
    (sized_SerializeTo (maxStringBytes limits_) "string exceeds configured serde limit" "string")
    (sized_Deserialize (maxTotalBytes limits_) (maxStringBytes limits_) "string length" "string").
(** The byte loops copy each byte; [result.reserve(length)] cannot throw, the bytes were read. *)
Definition BasicBytesSerde (limits_ : SerdeLimits) : Serde SerdeData :=
  mkSerde false
    (sized_Serialize (maxBytes limits_) "byte sequence exceeds configured serde limit" "bytes")
    (sized_SerializeTo (maxBytes limits_) "byte sequence exceeds configured serde limit" "bytes")
    (sized_Deserialize (maxTotalBytes limits_) (maxBytes limits_) "bytes length" "bytes").

(** ** What a serde promises *)

(** The limits are values of [size_t]. *)
Definition limits_ok (limits : SerdeLimits) : Prop :=
  in_size (maxStringBytes limits) /\ in_size (maxBytes limits) /\
  in_size (maxContainerElements limits) /\ in_size (maxTotalBytes limits).

Lemma noLimits_ok : limits_ok noLimits.
Proof. vm_compute. repeat split; congruence. Qed.

Class Codec {T} (s : Serde T) (total : Z) (enc : T -> SerdeData) (dom : T -> Prop) : Prop := {
  codec_append v output :
    dom v -> len output + len (enc v) <= max_size ->
    SerializeTo s v output = (output ++ enc v, Ok tt);
  codec_serialize v : dom v -> len (enc v) <= max_size -> Serialize s v = Ok (enc v);
  codec_decode v rest :
    dom v -> len (enc v ++ rest) <= total -> Deserialize s (enc v ++ rest) = Ok v;
  codec_bytes v : dom v -> Forall is_byte (enc v);
}.

Class Canonical {T} (s : Serde T) (enc : T -> SerdeData) (dom : T -> Prop) : Prop :=
  canonical data v :
    Forall is_byte data -> Deserialize s data = Ok v ->
    dom v /\ exists rest, data = enc v ++ rest.

Lemma serialize_fresh_enc {T} (w : T -> Write) v bs reserve :
  reserve <= max_size -> w v [] = (bs, Ok tt) -> serialize_fresh w v reserve = Ok bs.
Proof.
  intros Hr Hw. unfold serialize_fresh. destruct (Z.ltb_spec max_size reserve); [lia|].
  by rewrite Hw.
Qed.

Lemma codec_total {T} (s : Serde T) total total' enc dom :
  Codec s total enc dom -> total' <= total -> Codec s total' enc dom.
Proof.
  intros C Ht. split; [apply codec_append|apply codec_serialize| |apply codec_bytes].
  intros v rest Hd Hl. apply codec_decode; [done|lia].
Qed.

(** ** Fixed-width serdes *)

(** A primitive of the [Reader] that takes [n] bytes. *)
Class Reads (n : nat) (rd : Reader -> result Exception (Z * Reader)) : Prop := {
  reads_after v pre rest :
    0 <= v < 2 ^ (8 * Z.of_nat n) ->
    rd (after pre (be n v ++ rest)) = Ok (v, after (pre ++ be n v) rest);
  reads_short pre rest :
    len rest < Z.of_nat n ->
    exists what, rd (after pre rest) =
      Err (SerdeError ("serde underflow while reading " +:+ what) (len pre));
}.

#[export] Instance read_u8_reads : Reads 1 read_u8.
Proof.
  split; intros; unfold read_u8.
  - rewrite (read_be 1 v). simpl. rewrite byte_of_eq, Z.div_1_r, Z.mod_small by lia. done.
  - rewrite read_short by done. by eexists.
Qed.
#[export] Instance read_u16_reads : Reads 2 read_u16_be.
Proof.
  split; intros; [by apply read_u16_be_after|].
  unfold read_u16_be. rewrite read_short by done. by eexists.
Qed.
#[export] Instance read_u32_reads : Reads 4 read_u32_be.
Proof.
  split; intros; [by apply read_u32_be_after|].
  unfold read_u32_be. rewrite read_short by done. by eexists.
Qed.
#[export] Instance read_u64_reads : Reads 8 read_u64_be.
Proof.
  split; intros; [by apply read_u64_be_after|].
  unfold read_u64_be. rewrite read_short by done. by eexists.
Qed.

(** The number that stands for a value on the wire, and back. *)
Class WireForm {T} (n : nat) (dom : T -> Prop) (wire : T -> Z) (unwire : Z -> T) : Prop := {
  wire_range v : dom v -> 0 <= wire v < 2 ^ (8 * Z.of_nat n);
  unwire_wire v : dom v -> unwire (wire v) = v;
}.
Class WireOnto {T} (n : nat) (dom : T -> Prop) (wire : T -> Z) (unwire : Z -> T) : Prop :=
  wire_unwire u : 0 <= u < 2 ^ (8 * Z.of_nat n) -> dom (unwire u) /\ wire (unwire u) = u.

Definition fixed {T} (n : nat) (wire : T -> Z) (v : T) : SerdeData := be n (wire v).

Section Fixed.
Context {T : Type} (n : nat) (w : T -> Write) (rd : Reader -> result Exception (Z * Reader)).
Context (dom : T -> Prop) (wire : T -> Z) (unwire : Z -> T) `{!Reads n rd}.
Context (Hn : (n <= 8)%nat).
Local Abbreviation serde := (scalar (Z.of_nat n) w (with_reader rd unwire)).

Lemma with_reader_fixed v rest :
  0 <= v < 2 ^ (8 * Z.of_nat n) -> len (be n v ++ rest) <= size_max ->
  with_reader rd unwire (be n v ++ rest) = Ok (unwire v).
Proof.
  intros Hv Hl. unfold with_reader. rewrite make_reader_after by done. cbn [rbind].
  by rewrite (reads_after v [] rest Hv).
Qed.

Lemma scalar_codec `{!WireForm n dom wire unwire} total :
  total <= size_max ->
  (forall v output, dom v -> w v output = (output ++ be n (wire v), Ok tt)) ->
  Codec serde total (fixed n wire) dom.
Proof.
  intros Ht Hw. unfold fixed. split; simpl; intros v.
  - intros output Hd _. by apply Hw.
  - intros Hd _. apply serialize_fresh_enc; [unfold max_size, int64_max; lia|]. by rewrite Hw.
  - intros rest Hd Hl. rewrite with_reader_fixed by (by apply wire_range || lia).
    by rewrite unwire_wire.
  - intros _. apply be_bytes.
Qed.

Lemma scalar_canonical `{!WireOnto n dom wire unwire} : Canonical serde (fixed n wire) dom.
Proof.
  intros data v Hb Hd. simpl in Hd. unfold with_reader in Hd.
  apply rbind_Ok_inv in Hd as (r & Hr & Hd). apply rbind_Ok_inv in Hd as ([u r'] & Hu & Hd).
  unfold make_reader in Hr. split_case_in Hr; [done|]. simplify_eq.
  destruct (read_inv rd n id [] data u r' Hb) as (u' & rest & -> & -> & _ & Hu'); try done.
  - intros. by apply reads_after.
  - intros Hs. destruct (reads_short [] data Hs) as [? ->]. by eexists.
  - destruct (wire_unwire u' Hu') as [Hdom Hwire]. split; [done|]. exists rest.
    unfold fixed, id. by rewrite Hwire.
Qed.
End Fixed.

(** Every [n] bytes are the encoding of a value. *)
Lemma fixed_onto {T} n (dom : T -> Prop) wire unwire bs :
  WireOnto n dom wire unwire -> Forall is_byte bs -> len bs = Z.of_nat n ->
  exists v, dom v /\ fixed n wire v = bs.
Proof.
  intros W Hb Hl. assert (Hn : length bs = n) by (unfold len in Hl; lia).
  destruct (W (un_be bs 0)) as [Hd Hw]; [rewrite <- Hl; by apply un_be_range|].
  exists (unwire (un_be bs 0)). split; [done|]. unfold fixed. rewrite Hw, <- Hn.
  by apply be_un_be.
Qed.

Definition unsigned (w : Z) (v : Z) : Prop := 0 <= v < 2 ^ w.
Definition signed (w : Z) (v : Z) : Prop := - 2 ^ (w - 1) <= v < 2 ^ (w - 1).

#[export] Instance unsigned_form n : WireForm n (unsigned (8 * Z.of_nat n)) id id.
Proof. by split. Qed.
#[export] Instance unsigned_onto n : WireOnto n (unsigned (8 * Z.of_nat n)) id id.
Proof. by intros u Hu. Qed.

Lemma pow_half w : 0 < w -> 2 ^ w = 2 * 2 ^ (w - 1).
Proof. intros Hw. rewrite <- Z.pow_succ_r by lia. f_equal. lia. Qed.

(** Two's complement, with and without the flipped sign bit. *)
Lemma to_signed_unsigned w v : 0 < w -> signed w v -> to_signed w (to_unsigned w v) = v.
Proof.
  intros Hw Hv. unfold signed, to_signed, to_unsigned in *.
  pose proof (pow_half w ltac:(lia)) as E.
  destruct (Z.ltb_spec v 0).
  - replace (v mod 2 ^ w) with (v + 2 ^ w)
      by (rewrite <- (Z.mod_add v 1), Z.mod_small by lia; lia).
    destruct (Z.ltb_spec (v + 2 ^ w) (2 ^ (w - 1))); lia.
  - rewrite Z.mod_small by lia. destruct (Z.ltb_spec v (2 ^ (w - 1))); lia.
Qed.

Lemma to_signed_range w u : 0 < w -> unsigned w u -> signed w (to_signed w u) /\ to_unsigned w (to_signed w u) = u.
Proof.
  intros Hw Hu. unfold signed, unsigned, to_signed, to_unsigned in *.
  pose proof (pow_half w ltac:(lia)) as E.
  destruct (Z.ltb_spec u (2 ^ (w - 1))).
  - rewrite Z.mod_small by lia. lia.
  - split; [lia|]. rewrite <- (Z.mod_add (u - 2 ^ w) 1), Z.mod_small by lia. lia.
Qed.

#[export] Instance int8_form : WireForm 1 (signed 8) (to_unsigned 8) (to_signed 8).
Proof.
  split; intros v Hv; [apply Z.mod_pos_bound; lia|]. by apply to_signed_unsigned.
Qed.
#[export] Instance int8_onto : WireOnto 1 (signed 8) (to_unsigned 8) (to_signed 8).
Proof. intros u Hu. by apply to_signed_range. Qed.

Definition flip (w : Z) (u : Z) : Z := Z.lxor u (2 ^ (w - 1)).

Lemma flip_low w u : 0 < w -> 0 <= u < 2 ^ (w - 1) -> flip w u = u + 2 ^ (w - 1).
Proof.
  intros Hw Hu. unfold flip. symmetry. apply Z.add_nocarry_lxor.
  apply Z.bits_inj'. intros i Hi. rewrite Z.land_spec, Z.bits_0, Z.pow2_bits_eqb by lia.
  destruct (Z.eqb_spec (w - 1) i) as [<-|]; [|apply andb_false_r].
  rewrite andb_true_r. destruct (Z.eq_dec u 0) as [->|]; [apply Z.bits_0|].
  apply Z.bits_above_log2; [lia|]. apply Z.log2_lt_pow2; lia.
Qed.

Lemma flip_flip w u : flip w (flip w u) = u.
Proof. unfold flip. by rewrite Z.lxor_assoc, Z.lxor_nilpotent, Z.lxor_0_r. Qed.

Lemma flip_high w u : 0 < w -> 2 ^ (w - 1) <= u < 2 ^ w -> flip w u = u - 2 ^ (w - 1).
Proof.
  intros Hw Hu. pose proof (pow_half w ltac:(lia)) as E.
  rewrite <- (flip_flip w (u - 2 ^ (w - 1))), (flip_low w (u - 2 ^ (w - 1))) by lia. f_equal. lia.
Qed.

(** The flip turns two's complement into an excess code: it adds [2 ^ (w - 1)]. *)
Lemma flip_signed w v : 0 < w -> signed w v -> flip w (to_unsigned w v) = v + 2 ^ (w - 1).
Proof.
  intros Hw Hv. unfold signed, to_unsigned in *.
  pose proof (pow_half w ltac:(lia)) as E.
  destruct (Z.ltb_spec v 0).
  - replace (v mod 2 ^ w) with (v + 2 ^ w)
      by (rewrite <- (Z.mod_add v 1), Z.mod_small by lia; lia).
    rewrite flip_high by lia. lia.
  - rewrite Z.mod_small by lia. by rewrite flip_low by lia.
Qed.

Definition excess (w : Z) (v : Z) : Z := flip w (to_unsigned w v).
Definition unexcess (w : Z) (u : Z) : Z := to_signed w (flip w u).

#[export] Instance excess_form n : (0 < n)%nat ->
  WireForm n (signed (8 * Z.of_nat n)) (excess (8 * Z.of_nat n)) (unexcess (8 * Z.of_nat n)).
Proof.
  intros Hn. split; intros v Hv; unfold unexcess, excess;
    remember (8 * Z.of_nat n) as w eqn:Hw; assert (0 < w) by lia.
  - rewrite flip_signed by (lia || done). unfold signed in Hv.
    pose proof (pow_half w ltac:(lia)) as E. lia.
  - rewrite flip_flip. by apply to_signed_unsigned; [lia|].
Qed.

Lemma flip_range w u : 0 < w -> unsigned w u -> unsigned w (flip w u).
Proof.
  intros Hw Hu. unfold unsigned in *.
  pose proof (pow_half w ltac:(lia)) as E.
  destruct (Z.ltb_spec u (2 ^ (w - 1))); [rewrite flip_low by lia|rewrite flip_high by lia]; lia.
Qed.

#[export] Instance excess_onto n : (0 < n)%nat ->
  WireOnto n (signed (8 * Z.of_nat n)) (excess (8 * Z.of_nat n)) (unexcess (8 * Z.of_nat n)).
Proof.
  intros Hn u Hu. unfold excess, unexcess.
  destruct (to_signed_range (8 * Z.of_nat n) (flip (8 * Z.of_nat n) u)) as [Hs He];
    [lia|apply flip_range; [lia|done]|]. split; [done|]. by rewrite He, flip_flip.
Qed.

(** ** The codecs of the scalars *)
Definition bool_wire (b : bool) : Z := if b then 1 else 0.

Section Scalars.
Context (total : Z) (Htotal : total <= size_max).

Lemma put_u8_be v output : unsigned 8 v -> put_u8 v output = (output ++ be 1 v, Ok tt).
Proof.
  intros Hv. unfold put_u8, push_back. simpl be. rewrite byte_of_eq, Z.div_1_r, Z.mod_small by done. done.
Qed.

(** Closes the side conditions of [scalar_codec] and [scalar_canonical]: [form] is the
    wire form, [put] the equation of the writer. *)
Local Ltac fixed_width form put :=
  solve [apply _ | lia | done | apply form; lia | intros v output Hv; apply put; try done;
         by apply (wire_range (n := 1))].

Lemma BoolSerde_codec : Codec BoolSerde total (fixed 1 bool_wire) (fun _ => True).
Proof.
  apply (scalar_codec 1 _ read_u8 _ bool_wire); try fixed_width I I.
  - split; intros []; done.
  - intros [] output _; by apply put_u8_be.
Qed.
Lemma Int8Serde_codec : Codec Int8Serde total (fixed 1 (to_unsigned 8)) (signed 8).
Proof. apply (scalar_codec 1 _ read_u8 _ (to_unsigned 8) (to_signed 8)); fixed_width int8_form put_u8_be. Qed.
Lemma UInt8Serde_codec : Codec UInt8Serde total (fixed 1 id) (unsigned 8).
Proof. apply (scalar_codec 1 _ read_u8 _ id id); fixed_width (unsigned_form 1) put_u8_be. Qed.
Lemma Int16Serde_codec : Codec Int16Serde total (fixed 2 (excess 16)) (signed 16).
Proof. apply (scalar_codec 2 _ read_u16_be _ (excess 16) (unexcess 16)); fixed_width (excess_form 2) put_u16_be_eq. Qed.
Lemma UInt16Serde_codec : Codec UInt16Serde total (fixed 2 id) (unsigned 16).
Proof. apply (scalar_codec 2 _ read_u16_be _ id id); fixed_width (unsigned_form 2) put_u16_be_eq. Qed.
Lemma Int32Serde_codec : Codec Int32Serde total (fixed 4 (excess 32)) (signed 32).
Proof. apply (scalar_codec 4 _ read_u32_be _ (excess 32) (unexcess 32)); fixed_width (excess_form 4) put_u32_be_eq. Qed.
Lemma UInt32Serde_codec : Codec UInt32Serde total (fixed 4 id) (unsigned 32).
Proof. apply (scalar_codec 4 _ read_u32_be _ id id); fixed_width (unsigned_form 4) put_u32_be_eq. Qed.
Lemma Int64Serde_codec : Codec Int64Serde total (fixed 8 (excess 64)) (signed 64).
Proof. apply (scalar_codec 8 _ read_u64_be _ (excess 64) (unexcess 64)); fixed_width (excess_form 8) put_u64_be_eq. Qed.
Lemma UInt64Serde_codec : Codec UInt64Serde total (fixed 8 id) (unsigned 64).
Proof. apply (scalar_codec 8 _ read_u64_be _ id id); fixed_width (unsigned_form 8) put_u64_be_eq. Qed.
End Scalars.

Lemma Int8Serde_canonical : Canonical Int8Serde (fixed 1 (to_unsigned 8)) (signed 8).
Proof.
  assert (WireOnto 1 (signed 8) (to_unsigned 8) (to_signed 8)) by (apply int8_onto; lia).
  by apply (scalar_canonical 1 _ read_u8 _ (to_unsigned 8) (to_signed 8)).
Qed.
Lemma UInt8Serde_canonical : Canonical UInt8Serde (fixed 1 id) (unsigned 8).
Proof.
  assert (WireOnto 1 (unsigned 8) id id) by (apply (unsigned_onto 1); lia).
  by apply (scalar_canonical 1 _ read_u8 _ id id).
Qed.
Lemma Int16Serde_canonical : Canonical Int16Serde (fixed 2 (excess 16)) (signed 16).
Proof.
  assert (WireOnto 2 (signed 16) (excess 16) (unexcess 16)) by (apply (excess_onto 2); lia).
  by apply (scalar_canonical 2 _ read_u16_be _ (excess 16) (unexcess 16)).
Qed.
Lemma UInt16Serde_canonical : Canonical UInt16Serde (fixed 2 id) (unsigned 16).
Proof.
  assert (WireOnto 2 (unsigned 16) id id) by (apply (unsigned_onto 2); lia).
  by apply (scalar_canonical 2 _ read_u16_be _ id id).
Qed.
Lemma Int32Serde_canonical : Canonical Int32Serde (fixed 4 (excess 32)) (signed 32).
Proof.
  assert (WireOnto 4 (signed 32) (excess 32) (unexcess 32)) by (apply (excess_onto 4); lia).
  by apply (scalar_canonical 4 _ read_u32_be _ (excess 32) (unexcess 32)).
Qed.
Lemma UInt32Serde_canonical : Canonical UInt32Serde (fixed 4 id) (unsigned 32).
Proof.
  assert (WireOnto 4 (unsigned 32) id id) by (apply (unsigned_onto 4); lia).
  by apply (scalar_canonical 4 _ read_u32_be _ id id).
Qed.
Lemma Int64Serde_canonical : Canonical Int64Serde (fixed 8 (excess 64)) (signed 64).
Proof.
  assert (WireOnto 8 (signed 64) (excess 64) (unexcess 64)) by (apply (excess_onto 8); lia).
  by apply (scalar_canonical 8 _ read_u64_be _ (excess 64) (unexcess 64)).
Qed.
Lemma UInt64Serde_canonical : Canonical UInt64Serde (fixed 8 id) (unsigned 64).
Proof.
  assert (WireOnto 8 (unsigned 64) id id) by (apply (unsigned_onto 8); lia).
  by apply (scalar_canonical 8 _ read_u64_be _ id id).
Qed.

(** ** The codecs of strings and bytes *)
Definition sized (value : SerdeData) : SerdeData := be 8 (len value) ++ value.
Definition sized_dom (maximum : Z) (value : SerdeData) : Prop :=
  Forall is_byte value /\ len value <= maximum.

Lemma sized_len value : len (sized value) = 8 + len value.
Proof. unfold sized. rewrite len_app, be_len. done. Qed.

Section Sized.
Context (maximum total : Z) (tooLong lengthOf what : string).
Context (Hmaximum : in_size maximum) (Htotal : in_size total).

Lemma sized_append v output :
  sized_dom maximum v -> len output + len (sized v) <= max_size ->
  sized_SerializeTo maximum tooLong what v output = (output ++ sized v, Ok tt).
Proof.
  intros [_ Hv] Hl. rewrite sized_len in Hl. pose proof (len_nonneg output).
  unfold sized_SerializeTo, checked_add, kSizeBytes.
  destruct (Z.ltb_spec maximum (len v)); [lia|].
  destruct (Z.ltb_spec (size_max - 8) (len v)); [unfold max_size, int64_max, size_max in *; lia|].
  unfold seq, reserve_more. destruct (Z.ltb_spec (max_size - len output) (8 + len v)); [lia|].
  unfold put_size. rewrite put_u64_be_eq. unfold append, sized. by rewrite <- app_assoc.
Qed.

Lemma sized_serialize v :
  sized_dom maximum v -> len (sized v) <= max_size ->
  sized_Serialize maximum tooLong what v = Ok (sized v).
Proof.
  intros Hv Hl. unfold sized_Serialize, checked_add, kSizeBytes. rewrite sized_len in Hl.
  destruct (Z.ltb_spec (size_max - 8) (len v)); [unfold max_size, int64_max, size_max in *; lia|].
  cbn [rbind]. apply serialize_fresh_enc; [lia|].
  by rewrite sized_append by (done || (rewrite sized_len; done)).
Qed.

Lemma sized_decode v rest :
  sized_dom maximum v -> len (sized v ++ rest) <= total ->
  sized_Deserialize total maximum lengthOf what (sized v ++ rest) = Ok v.
Proof.
  intros [_ Hv] Hl. unfold sized_Deserialize. rewrite make_reader_after by done. cbn [rbind].
  unfold sized. rewrite <- app_assoc. pose proof (len_nonneg v). unfold in_size in *.
  rewrite read_size_after by lia. cbn [rbind]. by rewrite read_after.
Qed.

Lemma sized_inv data v :
  Forall is_byte data -> sized_Deserialize total maximum lengthOf what data = Ok v ->
  sized_dom maximum v /\ exists rest, data = sized v ++ rest.
Proof.
  intros Hb Hd. unfold sized_Deserialize in Hd.
  apply rbind_Ok_inv in Hd as (r & Hr & Hd). apply rbind_Ok_inv in Hd as ([n r'] & Hn & Hd).
  apply rbind_Ok_inv in Hd as ([bs r''] & Hbs & Hd). unfold make_reader in Hr.
  split_case_in Hr; [done|]. simplify_eq.
  apply (read_size_inv _ _ []) in Hn as (rest & -> & -> & Hn & _); [|done].
  apply read_any_inv in Hbs as (rest' & -> & Hl & _); [|lia].
  apply Forall_app in Hb as [_ [Hb _]%Forall_app].
  split; [split; [done|lia]|]. exists rest'. unfold sized. by rewrite <- app_assoc, Hl.
Qed.
End Sized.

Section Bytes.
Context (limits : SerdeLimits) (Hl : limits_ok limits).

Lemma StringSerde_codec :
  Codec (StringSerde limits) (maxTotalBytes limits) sized (sized_dom (maxStringBytes limits)).
Proof.
  destruct Hl as (? & ? & ? & ?). split; simpl; intros v.
  - intros output. by apply sized_append.
  - by apply sized_serialize.
  - intros rest. by apply sized_decode.
  - intros [Hv _]. apply Forall_app; split; [apply be_bytes|done].
Qed.
Lemma BasicBytesSerde_codec :
  Codec (BasicBytesSerde limits) (maxTotalBytes limits) sized (sized_dom (maxBytes limits)).
Proof.
  destruct Hl as (? & ? & ? & ?). split; simpl; intros v.
  - intros output. by apply sized_append.
  - by apply sized_serialize.
  - intros rest. by apply sized_decode.
  - intros [Hv _]. apply Forall_app; split; [apply be_bytes|done].
Qed.
Lemma StringSerde_canonical : Canonical (StringSerde limits) sized (sized_dom (maxStringBytes limits)).
Proof. destruct Hl as (? & ? & ? & ?). intros data v. by apply sized_inv. Qed.
Lemma BasicBytesSerde_canonical : Canonical (BasicBytesSerde limits) sized (sized_dom (maxBytes limits)).
Proof. destruct Hl as (? & ? & ? & ?). intros data v. by apply sized_inv. Qed.
End Bytes.
End Types.
