(* ===== verification/SerdeContainers.v ===== *)
(** * Serdes of arrays, maps and key-value pairs

    [FixedSizeArraySerde], [StringArraySerde], [ArraySerde], [MapSerde] and
    [StreamKeyValueSerdeImpl] of runtime/serde/serdeimpl.hpp, each a [Serde] built from
    the serdes of its parts.  A loop over [count] elements is a recursion on [count].
    [reserve] throws [std::length_error] above the largest size of a vector; exhausted
    memory is left out.

    The lemmas are proved against [Codec], what the element serde promises, and give the
    [Codec] of the container. *)
From Stdlib Require Import ZArith Lia.
From stdpp Require Import strings fin_maps.
From S2P Require Import Prelude SerdeWire SerdeTypes.
Import Wire Types.
Local Open Scope Z_scope.

Module Containers.

(** [std::vector<T>::max_size()] and [reserve]. *)
Definition vector_max_size (sizeof : Z) : Z := int64_max / sizeof.
Definition reserve (sizeof count : Z) : result Exception unit :=
  if vector_max_size sizeof <? count then Err LengthError else Ok tt.

Definition require_serde {T} (serde : option (Serde T)) : result Exception (Serde T) :=
  match serde with
  | None => Err (InvalidArgument "serde must not be null")
  | Some serde => Ok serde
  end.

(** [for (const auto& item : value)]. *)
Fixpoint write_all {T} (w : T -> Write) (items : list T) : Write :=
  match items with
  | [] => done
  | item :: items => w item ;> write_all w items
  end.

Local Open Scope result_scope.
(** [for (index = 0; index < count; ++index) result.push_back(...)]. *)
Fixpoint read_all {T} (rd : Reader -> result Exception (T * Reader)) (count : nat) (r : Reader) :
    result Exception (list T * Reader) :=
  match count with
  | O => Ok ([], r)
  | S count =>
      let? (item, r) := rd r in
      let? (items, r) := read_all rd count r in
      Ok (item :: items, r)
  end.

(** A length, then that many bytes for another serde. *)
Definition read_frame {T} (maximum : Z) (lengthOf payloadOf : string)
    (deserialize : SerdeData -> result Exception T) (r : Reader) : result Exception (T * Reader) :=
  let? (length, r) := read_size maximum lengthOf r in
  let? (bytes, r) := read length payloadOf r in
  let? value := deserialize bytes in
  Ok (value, r).

(** ** Arrays *)
Section Arrays.
Context {T : Type} (limits_ : SerdeLimits).

Definition FixedSizeArray_SerializeTo (element : Serde T) (value : list T) : Write :=
  if maxContainerElements limits_ <? len value
  then fail (SerdeError "array exceeds configured element limit" 0)
  else put_size (len value) ;> write_all (SerializeTo element) value.
Definition FixedSizeArray_Deserialize (element : Serde T) (elementSize : Z) (data : SerdeData) :
    result Exception (list T) :=
  let? reader := make_reader data (maxTotalBytes limits_) in
  let? (count, reader) := read_size (maxContainerElements limits_) "array count" reader in
  if remaining reader / elementSize <? count
  then Err (SerdeError "fixed-size array payload is truncated" (offset_ reader))
  else
    let? _ := reserve elementSize count in
    let? (items, _) := read_all (fun r =>
      let? (bytes, r) := read elementSize "fixed-size array element" r in
      let? item := Deserialize element bytes in
      Ok (item, r)) (Z.to_nat count) reader in
    Ok items.
Definition FixedSizeArraySerde (element : Serde T) (elementSize : Z) : Serde (list T) :=
  mkSerde false
    (fun value =>
       if (size_max - kSizeBytes) / elementSize <? len value
       then Err (SerdeError "fixed-size array output size overflow" 0)
       else serialize_fresh (FixedSizeArray_SerializeTo element) value
              (kSizeBytes + len value * elementSize))
    (FixedSizeArray_SerializeTo element)
    (FixedSizeArray_Deserialize element elementSize).

(** [sizeof] is the size of an element of the vector. *)
Definition Array_SerializeTo (valueSerde_ : Serde T) (value : list T) : Write :=
  if maxContainerElements limits_ <? len value
  then fail (SerdeError "array exceeds configured element limit" 0)
  else put_size (len value) ;> write_all (fun item => frame (SerializeTo valueSerde_ item)) value.
Definition Array_Deserialize (sizeof : Z) (valueSerde_ : Serde T) (data : SerdeData) :
    result Exception (list T) :=
  let? reader := make_reader data (maxTotalBytes limits_) in
  let? (count, reader) := read_size (maxContainerElements limits_) "array count" reader in
  let? _ := reserve sizeof count in
  let? (items, _) := read_all
    (read_frame (maxTotalBytes limits_) "array element length" "array element payload"
       (Deserialize valueSerde_)) (Z.to_nat count) reader in
  Ok items.
Definition ArraySerde (sizeof : Z) (valueSerde_ : Serde T) : Serde (list T) :=
  mkSerde (IsStub valueSerde_)
    (fun value => serialize_fresh (Array_SerializeTo valueSerde_) value 0)
    (Array_SerializeTo valueSerde_) (Array_Deserialize sizeof valueSerde_).
Definition make_ArraySerde (sizeof : Z) (valueSerde : option (Serde T)) :
    result Exception (Serde (list T)) :=
  let? valueSerde_ := require_serde valueSerde in
  Ok (ArraySerde sizeof valueSerde_).
End Arrays.

Definition sizeof_string : Z := 32.
Definition StringArray_SerializeTo (limits_ : SerdeLimits) (value : list SerdeData) : Write :=
  if maxContainerElements limits_ <? len value
  then fail (SerdeError "string array exceeds configured element limit" 0)
  else put_size (len value) ;> write_all (SerializeTo (StringSerde limits_)) value.
Definition StringArray_Deserialize (limits_ : SerdeLimits) (data : SerdeData) :
    result Exception (list SerdeData) :=
  let? reader := make_reader data (maxTotalBytes limits_) in
  let? (count, reader) := read_size (maxContainerElements limits_) "string array count" reader in
  let? _ := reserve sizeof_string count in
  let? (items, _) := read_all (fun r =>
    let? (length, r) := read_size (maxStringBytes limits_) "string length" r in
    read length "string array element" r) (Z.to_nat count) reader in
  Ok items.
Definition StringArraySerde (limits_ : SerdeLimits) : Serde (list SerdeData) :=
  mkSerde false (fun value => serialize_fresh (StringArray_SerializeTo limits_) value 0)
    (StringArray_SerializeTo limits_) (StringArray_Deserialize limits_).

(** ** Maps

    [std::unordered_map] is a finite map together with the order in which it is
    iterated, which its hash function and its history decide. *)
Section Maps.
Context {K V : Type} `{Countable K} (iterate : gmap K V -> list (K * V)) (limits_ : SerdeLimits).

(** The loop of [insert_or_assign]. *)
Definition insert_all (pairs : list (K * V)) : gmap K V :=
  fold_left (fun m kv => <[kv.1 := kv.2]> m) pairs ∅.

Definition Map_SerializeTo (keyArraySerde_ : Serde (list K)) (valueArraySerde_ : Serde (list V))
    (value : gmap K V) : Write :=
  if maxContainerElements limits_ <? Z.of_nat (size value)
  then fail (SerdeError "map exceeds configured element limit" 0)
  else
    frame (SerializeTo keyArraySerde_ (iterate value).*1) ;>
    frame (SerializeTo valueArraySerde_ (iterate value).*2).
Definition Map_Deserialize (keyArraySerde_ : Serde (list K)) (valueArraySerde_ : Serde (list V))
    (data : SerdeData) : result Exception (gmap K V) :=
  let? reader := make_reader data (maxTotalBytes limits_) in
  let? (keys, reader) := read_frame (maxTotalBytes limits_) "map keys length" "map keys payload"
    (Deserialize keyArraySerde_) reader in
  let? (values, reader) := read_frame (maxTotalBytes limits_) "map values length" "map values payload"
    (Deserialize valueArraySerde_) reader in
  if negb (len keys =? len values)
  then Err (SerdeError "map key/value count mismatch" (offset_ reader))
  else if maxContainerElements limits_ <? len keys
  then Err (SerdeError "map exceeds configured element limit" 0)
  else Ok (insert_all (zip keys values)).
Definition MapSerde (keyArraySerde_ : Serde (list K)) (valueArraySerde_ : Serde (list V)) :
    Serde (gmap K V) :=
  mkSerde (IsStub keyArraySerde_ || IsStub valueArraySerde_)
    (fun value => serialize_fresh (Map_SerializeTo keyArraySerde_ valueArraySerde_) value 0)
    (Map_SerializeTo keyArraySerde_ valueArraySerde_)
    (Map_Deserialize keyArraySerde_ valueArraySerde_).
Definition make_MapSerde (keyArraySerde : option (Serde (list K)))
    (valueArraySerde : option (Serde (list V))) : result Exception (Serde (gmap K V)) :=
  let? keyArraySerde_ := require_serde keyArraySerde in
  let? valueArraySerde_ := require_serde valueArraySerde in
  Ok (MapSerde keyArraySerde_ valueArraySerde_).
End Maps.

(** ** Key-value pairs *)
Record StreamKeyValueSerde (K V : Type) := mkKeyValueSerde {
  keySerde_ : Serde K;
  valueSerde_ : Serde V;
  kv_limits_ : SerdeLimits;
}.
Arguments mkKeyValueSerde {K V}.
Arguments keySerde_ {K V}.
Arguments valueSerde_ {K V}.
Arguments kv_limits_ {K V}.

Section KeyValue.
Context {K V : Type} (self : StreamKeyValueSerde K V).
Definition SerializeKey (value : K * V) : result Exception SerdeData :=
  Serialize (keySerde_ self) value.1.
Definition SerializeValue (value : K * V) : result Exception SerdeData :=
  Serialize (valueSerde_ self) value.2.
Definition DeserializeKeyValue (key value : SerdeData) : result Exception (K * V) :=
  let? k := Deserialize (keySerde_ self) key in
  let? v := Deserialize (valueSerde_ self) value in
  Ok (k, v).
Definition KeyValue_Serialize (value : K * V) : result Exception SerdeData :=
  match (frame (SerializeTo (keySerde_ self) value.1) ;>
         frame (SerializeTo (valueSerde_ self) value.2)) [] with
  | (output, Ok _) => Ok output
  | (_, Err e) => Err e
  end.
Definition KeyValue_Deserialize (data : SerdeData) : result Exception (K * V) :=
  let limits_ := kv_limits_ self in
  let? reader := make_reader data (maxTotalBytes limits_) in
  let? (key, reader) := read_frame (maxTotalBytes limits_) "key length" "key payload"
    (Deserialize (keySerde_ self)) reader in
  let? (value, _) := read_frame (maxTotalBytes limits_) "value length" "value payload"
    (Deserialize (valueSerde_ self)) reader in
  Ok (key, value).
End KeyValue.
Definition MakeStreamKeyValueSerde {K V} (keySerde : option (Serde K)) (valueSerde : option (Serde V))
    (limits : SerdeLimits) : result Exception (StreamKeyValueSerde K V) :=
  let? keySerde_ := require_serde keySerde in
  let? valueSerde_ := require_serde valueSerde in
  Ok (mkKeyValueSerde keySerde_ valueSerde_ limits).
Local Close Scope result_scope.

(** ** Loops *)
Definition body {T} (f : T -> SerdeData) (items : list T) : SerdeData := concat (f <$> items).

Lemma body_cons {T} (f : T -> SerdeData) v l : body f (v :: l) = f v ++ body f l.
Proof. done. Qed.

Lemma body_bytes {T} (f : T -> SerdeData) (P : T -> Prop) l :
  (forall v, P v -> Forall is_byte (f v)) -> Forall P l -> Forall is_byte (body f l).
Proof.
  intros Hf. induction 1 as [|v l Hv Hl IH]; [constructor|]. rewrite body_cons.
  apply Forall_app; auto.
Qed.

Lemma write_all_body {T} (w : T -> Write) (f : T -> SerdeData) (P : T -> Prop) l output :
  (forall v output, P v -> len output + len (f v) <= max_size -> w v output = (output ++ f v, Ok tt)) ->
  Forall P l -> len output + len (body f l) <= max_size ->
  write_all w l output = (output ++ body f l, Ok tt).
Proof.
  intros Hw Hl. revert output. induction Hl as [|v l Hv Hl IH]; intros output Hm.
  - unfold body. simpl. by rewrite app_nil_r.
  - rewrite body_cons, len_app in Hm. pose proof (len_nonneg (body f l)).
    simpl. unfold seq. rewrite Hw by (done || lia). rewrite IH by (rewrite len_app; lia).
    by rewrite body_cons, app_assoc.
Qed.

Lemma read_all_body {T} (rd : Reader -> result Exception (T * Reader)) (f : T -> SerdeData)
    (P : T -> Prop) l pre rest :
  (forall v pre rest, P v -> rd (after pre (f v ++ rest)) = Ok (v, after (pre ++ f v) rest)) ->
  Forall P l ->
  read_all rd (length l) (after pre (body f l ++ rest)) = Ok (l, after (pre ++ body f l) rest).
Proof.
  intros Hr Hl. revert pre. induction Hl as [|v l Hv Hl IH]; intros pre.
  - unfold body. simpl. by rewrite app_nil_r.
  - rewrite body_cons, <- app_assoc. simpl. rewrite Hr by done. cbn [rbind].
    rewrite IH. cbn [rbind]. by rewrite <- app_assoc.
Qed.

Lemma read_all_length {T} (rd : Reader -> result Exception (T * Reader)) n r l r' :
  read_all rd n r = Ok (l, r') -> length l = n.
Proof.
  revert r l r'. induction n as [|n IH]; intros r l r' Hr; simpl in Hr; [by simplify_eq|].
  apply rbind_Ok_inv in Hr as ([v r1] & _ & Hr). apply rbind_Ok_inv in Hr as ([vs r2] & Hvs & Hr).
  simplify_eq. simpl. f_equal. eauto.
Qed.

Lemma reserve_ok sizeof count : count <= vector_max_size sizeof -> reserve sizeof count = Ok tt.
Proof. intros Hc. unfold reserve. destruct (Z.ltb_spec (vector_max_size sizeof) count); [lia|done]. Qed.

Lemma len_to_nat {A} (l : list A) : Z.to_nat (len l) = length l.
Proof. unfold len. lia. Qed.

(** A list of encodings after its count. *)
Definition counted {T} (f : T -> SerdeData) (l : list T) : SerdeData := be 8 (len l) ++ body f l.

Lemma counted_bytes {T} (f : T -> SerdeData) (P : T -> Prop) l :
  (forall v, P v -> Forall is_byte (f v)) -> Forall P l -> Forall is_byte (counted f l).
Proof. intros Hf Hl. apply Forall_app; split; [apply be_bytes|by eapply body_bytes]. Qed.

Lemma counted_len {T} (f : T -> SerdeData) l : len (counted f l) = 8 + len (body f l).
Proof. unfold counted. rewrite len_app, be_len. done. Qed.

Lemma write_counted {T} (w : T -> Write) (f : T -> SerdeData) (P : T -> Prop) l output :
  (forall v output, P v -> len output + len (f v) <= max_size -> w v output = (output ++ f v, Ok tt)) ->
  Forall P l -> len output + len (counted f l) <= max_size ->
  (put_size (len l) ;> write_all w l) output = (output ++ counted f l, Ok tt).
Proof.
  intros Hw Hl Hm. rewrite counted_len in Hm. unfold seq, put_size. rewrite put_u64_be_eq.
  rewrite (write_all_body w f P) by (done || (rewrite len_app, be_len; lia)).
  unfold counted. by rewrite app_assoc.
Qed.

(** ** Frames *)
Definition framed {T} (enc : T -> SerdeData) (v : T) : SerdeData := be 8 (len (enc v)) ++ enc v.

Lemma framed_len {T} (enc : T -> SerdeData) v : len (framed enc v) = 8 + len (enc v).
Proof. unfold framed. rewrite len_app, be_len. done. Qed.

Section Frames.
Context {T : Type} (s : Serde T) (total : Z) (enc : T -> SerdeData) (dom : T -> Prop).
Context `{!Codec s total enc dom} (Htotal : in_size total).

Lemma frame_append v output :
  dom v -> len output + len (framed enc v) <= max_size ->
  frame (SerializeTo s v) output = (output ++ framed enc v, Ok tt).
Proof.
  intros Hv Hl. rewrite framed_len in Hl. apply frame_eq. apply codec_append; [done|].
  rewrite len_app, be_len. lia.
Qed.

Lemma read_frame_framed lengthOf payloadOf v pre rest :
  dom v -> len (enc v) <= total ->
  read_frame total lengthOf payloadOf (Deserialize s) (after pre (framed enc v ++ rest)) =
    Ok (v, after (pre ++ framed enc v) rest).
Proof.
  intros Hv Hl. unfold in_size in Htotal. pose proof (len_nonneg (enc v)).
  unfold read_frame, framed. rewrite <- app_assoc. rewrite read_size_after by lia. cbn [rbind].
  rewrite read_after. cbn [rbind]. rewrite <- (app_nil_r (enc v)) at 1.
  rewrite codec_decode by (done || by rewrite app_nil_r). cbn [rbind]. by rewrite <- app_assoc.
Qed.

Lemma framed_bytes v : dom v -> Forall is_byte (framed enc v).
Proof. intros Hv. apply Forall_app; split; [apply be_bytes|by apply codec_bytes]. Qed.
End Frames.

(** ** The codecs of arrays *)
Lemma body_member {T} (f : T -> SerdeData) l v : v ∈ l -> len (f v) <= len (body f l).
Proof.
  induction 1 as [v l|v w l Hv IH]; rewrite body_cons, len_app.
  - pose proof (len_nonneg (body f l)). lia.
  - pose proof (len_nonneg (f w)). lia.
Qed.

Lemma body_fixed {T} (f : T -> SerdeData) (P : T -> Prop) n l :
  (forall v, P v -> len (f v) = n) -> Forall P l -> len (body f l) = len l * n.
Proof.
  intros Hf. induction 1 as [|v l Hv Hl IH]; [done|]. rewrite body_cons, len_app, len_cons, IH, Hf by done. lia.
Qed.

Definition array_dom {T} (limits : SerdeLimits) (sizeof : Z) (dom : T -> Prop) (l : list T) : Prop :=
  Forall dom l /\ len l <= maxContainerElements limits /\ len l <= vector_max_size sizeof.

Section ArrayCodecs.
Context {T : Type} (limits : SerdeLimits) (Hlimits : limits_ok limits).

Lemma elements_size : in_size (maxContainerElements limits).
Proof. apply Hlimits. Qed.
Lemma total_size : in_size (maxTotalBytes limits).
Proof. apply Hlimits. Qed.

Section FixedSize.
Context (element : Serde T) (enc : T -> SerdeData) (dom : T -> Prop) (n : Z).
Context `{!Codec element size_max enc dom} (Hn : 0 < n <= 8) (Hsize : forall v, dom v -> len (enc v) = n).

Lemma read_fixed_element v pre rest :
  dom v ->
  rbind (read n "fixed-size array element" (after pre (enc v ++ rest))) (fun '(bytes, r) =>
    rbind (Deserialize element bytes) (fun item => Ok (item, r))) = Ok (v, after (pre ++ enc v) rest).
Proof.
  intros Hv. rewrite <- (Hsize v Hv), read_after. cbn [rbind]. rewrite <- (app_nil_r (enc v)) at 1.
  rewrite codec_decode; [done|done|]. rewrite app_nil_r, Hsize by done. unfold size_max. lia.
Qed.

Lemma FixedSizeArraySerde_codec :
  Codec (FixedSizeArraySerde limits element n) (maxTotalBytes limits) (counted enc) (array_dom limits n dom).
Proof.
  assert (Ha : forall v output, array_dom limits n dom v -> len output + len (counted enc v) <= max_size ->
    FixedSizeArray_SerializeTo limits element v output = (output ++ counted enc v, Ok tt)).
  { intros v output (Hd & Hc & _) Hl. unfold FixedSizeArray_SerializeTo.
    destruct (Z.ltb_spec (maxContainerElements limits) (len v)); [lia|].
    eapply write_counted; [|done|done]. intros. by apply codec_append. }
  split; cbn [SerializeTo Serialize Deserialize ArraySerde FixedSizeArraySerde StringArraySerde];
    intros v; [apply Ha| | |].
  - intros (Hd & Hc & Hm) Hl. pose proof Hl as Hl'. rewrite counted_len, (body_fixed enc dom n) in Hl' by done.
    unfold kSizeBytes. destruct (Z.ltb_spec ((size_max - 8) / n) (len v)) as [Ho|_].
    + pose proof (Z.div_le_lower_bound (size_max - 8) n (len v) ltac:(lia)).
      unfold max_size, int64_max, size_max in *. lia.
    + apply serialize_fresh_enc; [lia|]. apply (Ha v []); [done|]. rewrite len_nil. lia.
  - intros rest (Hd & Hc & Hm) Hl. unfold FixedSizeArray_Deserialize.
    rewrite make_reader_after by done. cbn [rbind]. unfold counted. rewrite <- app_assoc.
    pose proof (len_nonneg v). pose proof elements_size as He. unfold in_size in He.
    rewrite read_size_after by lia. cbn [rbind].
    destruct (Z.ltb_spec (remaining (after ([] ++ be 8 (len v)) (body enc v ++ rest)) / n) (len v)) as [Ho|_].
    + rewrite remaining_after, len_app, (body_fixed enc dom n) in Ho by done. pose proof (len_nonneg rest).
      pose proof (Z.div_le_lower_bound (len v * n + len rest) n (len v) ltac:(lia)). lia.
    + rewrite reserve_ok by done. cbn [rbind]. rewrite len_to_nat.
      rewrite (read_all_body _ enc dom); [done| |done]. intros. by apply read_fixed_element.
  - intros (Hd & _). eapply counted_bytes; [|done]. intros. by apply codec_bytes.
Qed.

(** Any input.  [Hall]: every [n] bytes are the encoding of a value. *)
Context (Hall : forall bs, Forall is_byte bs -> len bs = n -> exists v, dom v /\ enc v = bs).

Lemma split_body m payload :
  Forall is_byte payload -> Z.of_nat m * n <= len payload ->
  exists l rest, length l = m /\ Forall dom l /\ payload = body enc l ++ rest.
Proof.
  revert payload. induction m as [|m IH]; intros payload Hb Hl; [by exists [], payload|].
  assert (Ht : len (take (Z.to_nat n) payload) = n) by (unfold len in *; rewrite length_take; lia).
  destruct (Hall (take (Z.to_nat n) payload)) as (v & Hv & Ev); [by apply Forall_take|done|].
  destruct (IH (drop (Z.to_nat n) payload)) as (l & rest & Hlen & Hd & E); [by apply Forall_drop| |].
  { unfold len in *. rewrite length_drop. lia. }
  exists (v :: l), rest. split; [simpl; lia|]. split; [by constructor|].
  rewrite body_cons, <- app_assoc, <- E, Ev. by rewrite take_drop.
Qed.

Lemma fixed_array_decodes count payload :
  Forall is_byte payload -> 0 <= count <= maxContainerElements limits ->
  8 + len payload <= maxTotalBytes limits -> len payload <= int64_max ->
  (len payload < count * n ->
     FixedSizeArray_Deserialize limits element n (be 8 count ++ payload) =
       Err (SerdeError "fixed-size array payload is truncated" 8)) /\
  (count * n <= len payload ->
     exists l rest, len l = count /\ Forall dom l /\ payload = body enc l ++ rest /\
       FixedSizeArray_Deserialize limits element n (be 8 count ++ payload) = Ok l).
Proof.
  intros Hb Hc Ht Hm. split; intros Hcount.
  - unfold FixedSizeArray_Deserialize. rewrite make_reader_after by (rewrite len_app, be_len; lia).
    cbn [rbind]. pose proof elements_size as He. unfold in_size in He. rewrite read_size_after by lia.
    cbn [rbind]. rewrite remaining_after.
    destruct (Z.ltb_spec (len payload / n) count) as [_|Ho].
    + unfold after. cbn [offset_]. by rewrite len_app, be_len.
    + pose proof (Z.mul_div_le (len payload) n). nia.
  - destruct (split_body (Z.to_nat count) payload Hb) as (l & rest & Hl & Hd & ->); [lia|].
    assert (Hlen : len l = count) by (unfold len; lia).
    exists l, rest. split; [done|]. split; [done|]. split; [done|].
    pose proof FixedSizeArraySerde_codec as C. rewrite app_assoc, <- Hlen. apply (codec_decode (Codec := C)).
    + split; [done|]. split; [lia|]. unfold vector_max_size. apply Z.div_le_lower_bound; [lia|].
      rewrite Hlen. lia.
    + rewrite len_app in Ht |- *. rewrite counted_len. lia.
Qed.
End FixedSize.

Section Generic.
Context (valueSerde_ : Serde T) (sizeof : Z) (enc : T -> SerdeData) (dom : T -> Prop).
Context `{!Codec valueSerde_ (maxTotalBytes limits) enc dom}.

Lemma ArraySerde_codec :
  Codec (ArraySerde limits sizeof valueSerde_) (maxTotalBytes limits) (counted (framed enc))
    (array_dom limits sizeof dom).
Proof.
  assert (Ha : forall v output, array_dom limits sizeof dom v -> len output + len (counted (framed enc) v) <= max_size ->
    Array_SerializeTo limits valueSerde_ v output = (output ++ counted (framed enc) v, Ok tt)).
  { intros v output (Hd & Hc & _) Hl. unfold Array_SerializeTo.
    destruct (Z.ltb_spec (maxContainerElements limits) (len v)); [lia|].
    eapply write_counted; [|done|done]. intros. by eapply frame_append. }
  split; cbn [SerializeTo Serialize Deserialize ArraySerde FixedSizeArraySerde StringArraySerde];
    intros v; [apply Ha| | |].
  - intros Hd Hl. apply serialize_fresh_enc; [done|]. by apply (Ha v []).
  - intros rest (Hd & Hc & Hm) Hl. unfold Array_Deserialize.
    rewrite make_reader_after by done. cbn [rbind]. rewrite len_app, counted_len in Hl.
    unfold counted. rewrite <- app_assoc.
    pose proof (len_nonneg v). pose proof elements_size as He. unfold in_size in He.
    rewrite read_size_after by lia. cbn [rbind]. rewrite reserve_ok by done. cbn [rbind].
    rewrite len_to_nat. rewrite (read_all_body _ (framed enc) (fun v => dom v /\ len (enc v) <= maxTotalBytes limits)).
    + done.
    + intros w pre' rest' [Hw Hlw]. eapply read_frame_framed; [done|apply total_size|done|done].
    + apply Forall_and; split; [done|]. apply Forall_forall. intros w Hw.
      apply (body_member (framed enc)) in Hw. rewrite framed_len in Hw. pose proof (len_nonneg rest). lia.
  - intros (Hd & _). eapply counted_bytes; [|done]. intros. by eapply framed_bytes.
Qed.
End Generic.
End ArrayCodecs.

Lemma StringArraySerde_codec limits :
  limits_ok limits ->
  Codec (StringArraySerde limits) (maxTotalBytes limits) (counted sized)
    (array_dom limits sizeof_string (sized_dom (maxStringBytes limits))).
Proof.
  intros Hlimits. pose proof (StringSerde_codec limits Hlimits) as C.
  assert (Ha : forall v output, array_dom limits sizeof_string (sized_dom (maxStringBytes limits)) v ->
    len output + len (counted sized v) <= max_size ->
    StringArray_SerializeTo limits v output = (output ++ counted sized v, Ok tt)).
  { intros v output (Hd & Hc & _) Hl. unfold StringArray_SerializeTo.
    destruct (Z.ltb_spec (maxContainerElements limits) (len v)); [lia|].
    eapply write_counted; [|done|done]. intros. by apply (codec_append (s := StringSerde limits)). }
  split; cbn [SerializeTo Serialize Deserialize ArraySerde FixedSizeArraySerde StringArraySerde];
    intros v; [apply Ha| | |].
  - intros Hd Hl. apply serialize_fresh_enc; [done|]. by apply (Ha v []).
  - intros rest (Hd & Hc & Hm) Hl. unfold StringArray_Deserialize.
    rewrite make_reader_after by done. cbn [rbind]. unfold counted. rewrite <- app_assoc.
    pose proof (len_nonneg v). pose proof (elements_size limits Hlimits) as He. unfold in_size in He.
    rewrite read_size_after by lia. cbn [rbind]. rewrite reserve_ok by done. cbn [rbind].
    rewrite len_to_nat. rewrite (read_all_body _ sized (sized_dom (maxStringBytes limits))); [done| |done].
    intros w pre' rest' [_ Hw]. unfold sized. rewrite <- app_assoc. pose proof (len_nonneg w).
    destruct Hlimits as ([_ ?] & _). rewrite read_size_after by lia. cbn [rbind].
    by rewrite read_after, <- app_assoc.
  - intros (Hd & _). eapply counted_bytes; [|done]. intros w Hw. by apply (codec_bytes (s := StringSerde limits)).
Qed.

(** ** The codec of maps *)
Lemma insert_all_list_to_map {K V} `{Countable K} (l : list (K * V)) :
  insert_all l = (list_to_map (reverse l) : gmap K V).
Proof.
  induction l as [|[k v] l IH] using rev_ind; [done|]. unfold insert_all in *.
  rewrite fold_left_app. simpl. rewrite IH, reverse_app. done.
Qed.

(** Two frames, one after the other. *)
Lemma frames_append {A B} (s1 : Serde A) (s2 : Serde B) total enc1 enc2 dom1 dom2
    `{!Codec s1 total enc1 dom1, !Codec s2 total enc2 dom2} k v output :
  dom1 k -> dom2 v -> len output + len (framed enc1 k ++ framed enc2 v) <= max_size ->
  (frame (SerializeTo s1 k) ;> frame (SerializeTo s2 v)) output =
    (output ++ framed enc1 k ++ framed enc2 v, Ok tt).
Proof.
  intros Hk Hv Hl. rewrite len_app in Hl. pose proof (len_nonneg (framed enc2 v)).
  unfold seq. rewrite (frame_append s1 _ enc1 dom1) by (done || lia).
  rewrite (frame_append s2 _ enc2 dom2) by (done || (rewrite len_app; lia)). by rewrite <- app_assoc.
Qed.

Section MapCodec.
Context {K V : Type} `{Countable K} (iterate : gmap K V -> list (K * V)).
(** An iteration visits every pair once. *)
Context (iterate_perm : forall m, iterate m ≡ₚ map_to_list m).
Context (limits : SerdeLimits) (Hlimits : limits_ok limits).
Context (keys : Serde (list K)) (values : Serde (list V)).
Context (encK : list K -> SerdeData) (encV : list V -> SerdeData).
Context (domK : list K -> Prop) (domV : list V -> Prop).
Context `{!Codec keys (maxTotalBytes limits) encK domK, !Codec values (maxTotalBytes limits) encV domV}.

Definition map_enc (m : gmap K V) : SerdeData :=
  framed encK (iterate m).*1 ++ framed encV (iterate m).*2.
Definition map_dom (m : gmap K V) : Prop :=
  Z.of_nat (size m) <= maxContainerElements limits /\ domK (iterate m).*1 /\ domV (iterate m).*2.

Lemma insert_all_iterate m : insert_all (iterate m) = m.
Proof.
  rewrite insert_all_list_to_map. rewrite <- (list_to_map_to_list m) at 2. symmetry.
  apply list_to_map_proper; [apply NoDup_fst_map_to_list|].
  by rewrite reverse_Permutation, iterate_perm.
Qed.

Lemma iterate_size m : len (iterate m) = Z.of_nat (size m).
Proof. unfold len. rewrite iterate_perm. f_equal. apply length_map_to_list. Qed.

Lemma MapSerde_codec : Codec (MapSerde iterate limits keys values) (maxTotalBytes limits) map_enc map_dom.
Proof.
  assert (Ha : forall m output, map_dom m -> len output + len (map_enc m) <= max_size ->
    Map_SerializeTo iterate limits keys values m output = (output ++ map_enc m, Ok tt)).
  { intros m output (Hs & Hk & Hv) Hl. unfold Map_SerializeTo.
    destruct (Z.ltb_spec (maxContainerElements limits) (Z.of_nat (size m))); [lia|].
    by apply (frames_append keys values (maxTotalBytes limits) encK encV domK domV). }
  split; cbn [SerializeTo Serialize Deserialize MapSerde]; intros m; [apply Ha| | |].
  - intros Hd Hl. apply serialize_fresh_enc; [done|]. by apply (Ha m []).
  - intros rest (Hs & Hk & Hv) Hl. unfold map_enc in Hl. rewrite !len_app, !framed_len in Hl.
    pose proof (len_nonneg rest). pose proof (len_nonneg (encK (iterate m).*1)).
    pose proof (len_nonneg (encV (iterate m).*2)).
    unfold Map_Deserialize. rewrite make_reader_after
      by (unfold map_enc; rewrite !len_app, !framed_len; lia).
    cbn [rbind]. unfold map_enc. rewrite <- app_assoc.
    rewrite (read_frame_framed keys _ encK domK) by (by apply total_size || done || lia). cbn [rbind].
    rewrite (read_frame_framed values _ encV domV) by (by apply total_size || done || lia). cbn [rbind].
    unfold len. rewrite !length_fmap, Z.eqb_refl. simpl negb. cbv iota. fold (len (iterate m)).
    rewrite iterate_size. destruct (Z.ltb_spec (maxContainerElements limits) (Z.of_nat (size m))); [lia|].
    by rewrite zip_fst_snd, insert_all_iterate.
  - intros (_ & Hk & Hv). apply Forall_app; split; by eapply framed_bytes.
Qed.
End MapCodec.

End Containers.
