(* ===== verification/SerdeDefaults.v ===== *)
(** * Default serdes by type, and the type-erased interface

    [DefaultSerdeFactory], [MakeDefaultSerde], [resolve_or_stub] and the stream serdes of
    runtime/serde/serdeimpl.hpp and serde.hpp.  The template specialisations are a
    recursion on a code of the C++ types they cover; [TUser] is a type without a
    factory.  [None] is a program that does not compile.

    The round trip of every default serde follows from the codecs of its parts by
    induction on the type. *)
From Stdlib Require Import ZArith Lia Eqdep_dec.
From stdpp Require Import strings fin_maps.
From S2P Require Import Prelude SerdeWire SerdeTypes SerdeContainers.
Import Wire Types Containers.
Local Open Scope Z_scope.

Module Defaults.

(** ** Types *)
Inductive KTy :=
  | KBool | KInt8 | KUInt8 | KInt16 | KUInt16 | KInt32 | KUInt32 | KInt64 | KUInt64
  | KRune | KString.
Inductive Ty :=
  | Scalar (k : KTy)
  | TFloat
  | TDouble
  | TBytes                       (* std::vector<std::byte> *)
  | TVector (t : Ty)
  | TMap (k : KTy) (t : Ty)      (* std::unordered_map *)
  | TUser.

#[export] Instance KTy_eq_dec : EqDecision KTy.
Proof. solve_decision. Defined.
#[export] Instance Ty_eq_dec : EqDecision Ty.
Proof. solve_decision. Defined.

Definition kval (k : KTy) : Type :=
  match k with KBool => bool | KString => SerdeData | _ => Z end.
#[export] Instance kval_eq_dec k : EqDecision (kval k).
Proof. destruct k; apply _. Defined.
#[export] Instance kval_countable k : Countable (kval k).
Proof. destruct k; apply _. Defined.

Section Factories.
(** The values of user types, their size, and the order in which maps are iterated. *)
Context (U : Type) (sizeof_U : Z).

Fixpoint val (t : Ty) : Type :=
  match t with
  | Scalar k => kval k
  | TFloat | TDouble => Z
  | TBytes => SerdeData
  | TVector t => list (val t)
  | TMap k t => gmap (kval k) (val t)
  | TUser => U
  end.

Context (iterate : forall k t, gmap (kval k) (val t) -> list (kval k * val t)).

Definition sizeof (t : Ty) : Z :=
  match t with
  | Scalar (KBool | KInt8 | KUInt8) => 1
  | Scalar (KInt16 | KUInt16) => 2
  | Scalar (KInt32 | KUInt32 | KRune) | TFloat => 4
  | Scalar (KInt64 | KUInt64) | TDouble => 8
  | Scalar KString => sizeof_string
  | TBytes | TVector _ => 24
  | TMap _ _ => 56
  | TUser => sizeof_U
  end.

(** ** Factories *)
Definition scalar_serde (limits : SerdeLimits) (k : KTy) : Serde (kval k) :=
  match k with
  | KBool => BoolSerde
  | KInt8 => Int8Serde
  | KUInt8 => UInt8Serde
  | KInt16 => Int16Serde
  | KUInt16 => UInt16Serde
  | KInt32 => Int32Serde
  | KUInt32 => UInt32Serde
  | KInt64 => Int64Serde
  | KUInt64 => UInt64Serde
  | KRune => RuneSerde
  | KString => StringSerde limits
  end.

(** [DefaultSerdeFactory<std::vector<T>>]: the explicit specialisations, else the partial
    one, which needs the factory of the element. *)
Definition vector_serde (limits : SerdeLimits) (t : Ty) :
    option (Serde (val t)) -> option (Serde (list (val t))) :=
  match t with
  | Scalar KBool => fun _ => Some (FixedSizeArraySerde limits BoolSerde 1)
  | Scalar KUInt8 => fun _ => Some (BasicBytesSerde limits)
  | Scalar KInt16 => fun _ => Some (FixedSizeArraySerde limits Int16Serde 2)
  | Scalar KUInt16 => fun _ => Some (FixedSizeArraySerde limits UInt16Serde 2)
  | Scalar KInt32 => fun _ => Some (FixedSizeArraySerde limits Int32Serde 4)
  | Scalar KUInt32 => fun _ => Some (FixedSizeArraySerde limits UInt32Serde 4)
  | Scalar KInt64 => fun _ => Some (FixedSizeArraySerde limits Int64Serde 8)
  | Scalar KUInt64 => fun _ => Some (FixedSizeArraySerde limits UInt64Serde 8)
  | TFloat => fun _ => Some (FixedSizeArraySerde limits Float32Serde 4)
  | TDouble => fun _ => Some (FixedSizeArraySerde limits Float64Serde 8)
  | Scalar KString => fun _ => Some (StringArraySerde limits)
  | t => fun element => ArraySerde limits (sizeof t) <$> element
  end.

Fixpoint MakeDefaultSerde (limits : SerdeLimits) (t : Ty) : option (Serde (val t)) :=
  match t with
  | Scalar k => Some (scalar_serde limits k)
  | TFloat => Some Float32Serde
  | TDouble => Some Float64Serde
  | TBytes => Some (BasicBytesSerde limits)
  | TVector t => vector_serde limits t (MakeDefaultSerde limits t)
  | TMap k t =>
      keys ← vector_serde limits (Scalar k) (Some (scalar_serde limits k));
      values ← vector_serde limits t (MakeDefaultSerde limits t);
      Some (MapSerde (iterate k t) limits keys values)
  | TUser => None
  end.

(** The SFINAE test: a specialisation of [DefaultSerdeFactory<T>] is declared. *)
Definition kHasDefaultSerde (t : Ty) : bool :=
  match t with TUser => false | _ => true end.

Definition resolve_or_stub (limits : SerdeLimits) (t : Ty) : option (Serde (val t)) :=
  if kHasDefaultSerde t then MakeDefaultSerde limits t else Some (StubSerde (val t)).

(** ** Streams *)
Record StreamSerde (T : Type) := mkStreamSerde {
  IsKeyValue : bool;
  ValueSerializer : Serde T;
  stream_Serialize : T -> result Exception SerdeData;
  stream_Deserialize : SerdeData -> result Exception T;
}.
Definition MakeStreamSerde {T} (serde : option (Serde T)) : result Exception (StreamSerde T) :=
  match serde with
  | None => Err (InvalidArgument "stream serde must not be null")
  | Some serde_ => Ok (mkStreamSerde T false serde_ (Serialize serde_) (Deserialize serde_))
  end.
Definition MakeDefaultStreamSerde (limits : SerdeLimits) (t : Ty) :
    option (result Exception (StreamSerde (val t))) :=
  serde ← resolve_or_stub limits t; Some (MakeStreamSerde (Some serde)).
Definition MakeDefaultStreamKeyValueSerde (limits : SerdeLimits) (k v : Ty) :
    option (result Exception (StreamKeyValueSerde (val k) (val v))) :=
  keySerde ← resolve_or_stub limits k;
  valueSerde ← resolve_or_stub limits v;
  Some (MakeStreamKeyValueSerde (Some keySerde) (Some valueSerde) limits).

(** ** Type erasure *)
Definition any : Type := {t : Ty & val t}.
Definition any_of (t : Ty) (v : val t) : any := existT t v.
Definition any_cast (t : Ty) (value : any) : option (val t) :=
  match decide (projT1 value = t) with
  | left e => Some (eq_rect _ val (projT2 value) _ e)
  | right _ => None
  end.

Definition SerializeObj {t} (serde : Serde (val t)) (value : any) : result Exception SerdeData :=
  match any_cast t value with
  | None => Err (InvalidArgument "serde object type mismatch")
  | Some typed => Serialize serde typed
  end.
Definition SerializeObjTo {t} (serde : Serde (val t)) (value : any) : Write :=
  match any_cast t value with
  | None => fail (InvalidArgument "serde object type mismatch")
  | Some typed => SerializeTo serde typed
  end.
Definition DeserializeObj {t} (serde : Serde (val t)) (data : SerdeData) : result Exception any :=
  rbind (Deserialize serde data) (fun value => Ok (any_of t value)).

(** ** The encoding of a type, and the values it covers *)
Definition scalar_enc (k : KTy) : kval k -> SerdeData :=
  match k with
  | KBool => fixed 1 bool_wire
  | KInt8 => fixed 1 (to_unsigned 8)
  | KUInt8 => fixed 1 id
  | KInt16 => fixed 2 (excess 16)
  | KUInt16 => fixed 2 id
  | KInt32 => fixed 4 (excess 32)
  | KUInt32 | KRune => fixed 4 id
  | KInt64 => fixed 8 (excess 64)
  | KUInt64 => fixed 8 id
  | KString => sized
  end.
(** The values of the C++ type, within the limits. *)
Definition scalar_fits (limits : SerdeLimits) (k : KTy) : kval k -> Prop :=
  match k with
  | KBool => fun _ => True
  | KInt8 => signed 8
  | KUInt8 => unsigned 8
  | KInt16 => signed 16
  | KUInt16 => unsigned 16
  | KInt32 => signed 32
  | KUInt32 | KRune => unsigned 32
  | KInt64 => signed 64
  | KUInt64 => unsigned 64
  | KString => sized_dom (maxStringBytes limits)
  end.

Definition vector_enc (t : Ty) : (val t -> SerdeData) -> list (val t) -> SerdeData :=
  match t with
  | Scalar KUInt8 => fun _ => sized
  | Scalar (KInt8 | KRune) => fun enc => counted (framed enc)
  | Scalar _ | TFloat | TDouble => counted
  | _ => fun enc => counted (framed enc)
  end.
Definition vector_fits (limits : SerdeLimits) (t : Ty) : (val t -> Prop) -> list (val t) -> Prop :=
  match t with
  | Scalar KUInt8 => fun _ => sized_dom (maxBytes limits)
  | t => array_dom limits (sizeof t)
  end.

Fixpoint encode (t : Ty) : val t -> SerdeData :=
  match t with
  | Scalar k => scalar_enc k
  | TFloat => fixed 4 id
  | TDouble => fixed 8 id
  | TBytes => sized
  | TVector t => vector_enc t (encode t)
  | TMap k t => map_enc (iterate k t) (vector_enc (Scalar k) (scalar_enc k)) (vector_enc t (encode t))
  | TUser => fun _ => []
  end.
Fixpoint fits (limits : SerdeLimits) (t : Ty) : val t -> Prop :=
  match t with
  | Scalar k => scalar_fits limits k
  | TFloat => unsigned 32
  | TDouble => unsigned 64
  | TBytes => sized_dom (maxBytes limits)
  | TVector t => vector_fits limits t (fits limits t)
  | TMap k t =>
      map_dom (iterate k t) limits (vector_fits limits (Scalar k) (scalar_fits limits k))
        (vector_fits limits t (fits limits t))
  | TUser => fun _ => False
  end.

Section Codecs.
Context (iterate_perm : forall k t m, iterate k t m ≡ₚ map_to_list m).
Context (limits : SerdeLimits) (Hlimits : limits_ok limits).
Local Abbreviation total := (maxTotalBytes limits).

Lemma total_le : total <= size_max.
Proof. apply Hlimits. Qed.

Lemma scalar_serde_codec k : Codec (scalar_serde limits k) total (scalar_enc k) (scalar_fits limits k).
Proof.
  pose proof total_le as Ht.
  destruct k; simpl;
    [by apply BoolSerde_codec|by apply Int8Serde_codec|by apply UInt8Serde_codec|by apply Int16Serde_codec
    |by apply UInt16Serde_codec|by apply Int32Serde_codec|by apply UInt32Serde_codec
    |by apply Int64Serde_codec|by apply UInt64Serde_codec|by apply UInt32Serde_codec
    |by apply StringSerde_codec].
Qed.

(** The arrays of fixed-width elements. *)
Lemma fixed_array_codec {T} (s : Serde T) n (wire : T -> Z) dom :
  Codec s size_max (fixed n wire) dom -> (0 < n <= 8)%nat ->
  Codec (FixedSizeArraySerde limits s (Z.of_nat n)) total (counted (fixed n wire))
    (array_dom limits (Z.of_nat n) dom).
Proof.
  intros C Hn. apply FixedSizeArraySerde_codec; [done|done|lia|].
  intros v _. unfold fixed. by rewrite be_len.
Qed.

Lemma vector_serde_codec t element s :
  (forall s, element = Some s -> Codec s total (encode t) (fits limits t)) ->
  vector_serde limits t element = Some s ->
  Codec s total (vector_enc t (encode t)) (vector_fits limits t (fits limits t)).
Proof.
  assert (Hgen : (forall s, element = Some s -> Codec s total (encode t) (fits limits t)) ->
    ArraySerde limits (sizeof t) <$> element = Some s ->
    Codec s total (counted (framed (encode t))) (array_dom limits (sizeof t) (fits limits t))).
  { intros He Hs. destruct element as [e|]; simplify_eq/=. apply ArraySerde_codec; eauto. }
  assert (Hr : size_max <= size_max) by lia.
  intros He Hs. destruct t as [[]| | | | | |]; try (by apply Hgen); simpl in Hs; simplify_eq; simpl;
    first [by apply BasicBytesSerde_codec | by apply StringArraySerde_codec
          |by apply (fixed_array_codec _ 1 _ _ (BoolSerde_codec _ Hr)); lia
          |by apply (fixed_array_codec _ 2 _ _ (Int16Serde_codec _ Hr)); lia
          |by apply (fixed_array_codec _ 2 _ _ (UInt16Serde_codec _ Hr)); lia
          |by apply (fixed_array_codec _ 4 _ _ (Int32Serde_codec _ Hr)); lia
          |by apply (fixed_array_codec _ 4 _ _ (UInt32Serde_codec _ Hr)); lia
          |by apply (fixed_array_codec _ 8 _ _ (Int64Serde_codec _ Hr)); lia
          |by apply (fixed_array_codec _ 8 _ _ (UInt64Serde_codec _ Hr)); lia].
Qed.

Lemma default_codec t s :
  MakeDefaultSerde limits t = Some s -> Codec s total (encode t) (fits limits t).
Proof.
  revert s. induction t as [k| | | |t IH|k t IH|]; intros s Hs; cbn [MakeDefaultSerde] in Hs; simplify_eq.
  - apply scalar_serde_codec.
  - apply UInt32Serde_codec, total_le.
  - apply UInt64Serde_codec, total_le.
  - by apply BasicBytesSerde_codec.
  - by apply (vector_serde_codec t (MakeDefaultSerde limits t)).
  - destruct (vector_serde limits (Scalar k) _) as [keys|] eqn:Hk; [|done]. simpl in Hs.
    destruct (vector_serde limits t _) as [values|] eqn:Hv; [|done]. simpl in Hs. simplify_eq.
    cbn [encode fits]. apply MapSerde_codec; [apply iterate_perm|done| |].
    + apply (vector_serde_codec (Scalar k) (Some (scalar_serde limits k))); [|done].
      intros s Hs. simplify_eq. apply scalar_serde_codec.
    + by apply (vector_serde_codec t (MakeDefaultSerde limits t)).
Qed.
End Codecs.
End Factories.
Arguments mkStreamSerde {T}.
Arguments IsKeyValue {T}.
Arguments ValueSerializer {T}.
Arguments stream_Serialize {T}.
Arguments stream_Deserialize {T}.
End Defaults.
