(* ===== verification/SerdeTheorems.v ===== *)
(** * What the serialization layer guarantees

    Round trips of every default serde, the order of encoded integers, exact decoding of
    arbitrary input for scalars, fixed-size arrays and maps, the limits on what is
    decoded, and which types resolve to a serde. *)
From Stdlib Require Import ZArith Lia Eqdep_dec.
From stdpp Require Import strings fin_maps.
From S2P Require Import Prelude SerdeWire SerdeTypes SerdeContainers SerdeDefaults.
Import Wire Types Containers Defaults.
Local Open Scope Z_scope.

(** ** Round trips *)
Section RoundTrip.
Context (U : Type) (sizeof_U : Z).
Context (iterate : forall k t, gmap (kval k) (val U t) -> list (kval k * val U t)).
Context (iterate_perm : forall k t m, iterate k t m ≡ₚ map_to_list m).
Context (limits : SerdeLimits) (Hlimits : limits_ok limits).

(** C18. Every serde that [MakeDefaultSerde] builds, for whatever nesting of vectors and
    maps over the scalar types, writes a value of its type that is within the limits: the
    bytes it returns are the bytes it appends to an output, and it reads the same value
    back from them, also when other bytes follow. *)
Theorem default_serde_roundtrip t s v output :
  MakeDefaultSerde U sizeof_U iterate limits t = Some s ->
  fits U sizeof_U iterate limits t v ->
  len output + len (encode U iterate t v) <= max_size ->
  exists data,
    Serialize s v = Ok data /\
    SerializeTo s v output = (output ++ data, Ok tt) /\
    Forall is_byte data /\
    forall rest, len (data ++ rest) <= maxTotalBytes limits -> Deserialize s (data ++ rest) = Ok v.
Proof.
  intros Hs Hv Hl. pose proof (default_codec U sizeof_U iterate iterate_perm limits Hlimits t s Hs) as C.
  pose proof (len_nonneg output). exists (encode U iterate t v).
  split; [apply codec_serialize; [done|lia]|]. split; [by apply codec_append|].
  split; [by apply codec_bytes|]. intros rest. by apply codec_decode.
Qed.

(** A key-value stream serde writes a pair as two frames and reads it back, and its
    separately written key and value give the pair as well. *)
Theorem key_value_roundtrip tk tv s k v :
  MakeDefaultStreamKeyValueSerde U sizeof_U iterate limits tk tv = Some (Ok s) ->
  fits U sizeof_U iterate limits tk k -> fits U sizeof_U iterate limits tv v ->
  16 + len (encode U iterate tk k) + len (encode U iterate tv v) <= max_size ->
  16 + len (encode U iterate tk k) + len (encode U iterate tv v) <= maxTotalBytes limits ->
  (exists data, KeyValue_Serialize s (k, v) = Ok data /\ KeyValue_Deserialize s data = Ok (k, v)) /\
  (exists key value, SerializeKey s (k, v) = Ok key /\ SerializeValue s (k, v) = Ok value /\
     DeserializeKeyValue s key value = Ok (k, v)).
Proof.
  intros Hs Hk Hv Hm Ht. unfold MakeDefaultStreamKeyValueSerde in Hs.
  destruct (resolve_or_stub U sizeof_U iterate limits tk) as [sk|] eqn:Ek; [|done].
  destruct (resolve_or_stub U sizeof_U iterate limits tv) as [sv|] eqn:Ev; [|done].
  simpl in Hs. simplify_eq. unfold MakeStreamKeyValueSerde in Hs. simpl in Hs. simplify_eq.
  assert (Hr : forall t s v, resolve_or_stub U sizeof_U iterate limits t = Some s ->
    fits U sizeof_U iterate limits t v ->
    Codec s (maxTotalBytes limits) (encode U iterate t) (fits U sizeof_U iterate limits t)).
  { intros t s w Hs Hf. apply default_codec; [done|done|]. unfold resolve_or_stub in Hs. by destruct t. }
  pose proof (Hr _ _ _ Ek Hk) as Ck. pose proof (Hr _ _ _ Ev Hv) as Cv.
  pose proof (len_nonneg (encode U iterate tk k)). pose proof (len_nonneg (encode U iterate tv v)).
  pose proof (total_size limits Hlimits) as Hts. split.
  - exists (framed (encode U iterate tk) k ++ framed (encode U iterate tv) v). split.
    + unfold KeyValue_Serialize. cbn [fst snd keySerde_ valueSerde_].
      rewrite (frames_append sk sv (maxTotalBytes limits) (encode U iterate tk) (encode U iterate tv)
        (fits U sizeof_U iterate limits tk) (fits U sizeof_U iterate limits tv) k v []); [done|done|done|].
      rewrite len_nil, len_app, !framed_len. lia.
    + unfold KeyValue_Deserialize. cbn [keySerde_ valueSerde_ kv_limits_].
      rewrite make_reader_after by (rewrite len_app, !framed_len; lia). cbn [rbind].
      rewrite (read_frame_framed sk _ _ _ Hts) by (done || lia). cbn [rbind].
      rewrite <- (app_nil_r (framed (encode U iterate tv) v)).
      rewrite (read_frame_framed sv _ _ _ Hts) by (done || lia). done.
  - exists (encode U iterate tk k), (encode U iterate tv v). unfold SerializeKey, SerializeValue, DeserializeKeyValue.
    cbn [fst snd keySerde_ valueSerde_]. rewrite !codec_serialize by (done || lia). split; [done|]. split; [done|].
    rewrite <- (app_nil_r (encode U iterate tk k)), <- (app_nil_r (encode U iterate tv v)).
    rewrite !codec_decode by (done || (rewrite app_nil_r; lia)). done.
Qed.
End RoundTrip.

(** ** Order *)

(** The integer types whose encodings sort as the numbers do: all but [int8_t]. *)
Definition ordered (k : KTy) : bool :=
  match k with KBool | KString | KInt8 => false | _ => true end.

(** The number a value of an integer type stands for. *)
Definition number (k : KTy) : kval k -> Z :=
  match k with KBool => fun b => Z.b2z b | KString => fun _ => 0 | _ => fun z => z end.

Lemma excess_compare n u v :
  (0 < n)%nat -> signed (8 * Z.of_nat n) u -> signed (8 * Z.of_nat n) v ->
  bytes_compare (fixed n (excess (8 * Z.of_nat n)) u) (fixed n (excess (8 * Z.of_nat n)) v) = (u ?= v).
Proof.
  intros Hn Hu Hv. pose proof (excess_form n Hn) as F. unfold fixed.
  rewrite be_compare by (by apply (wire_range (WireForm := F))).
  unfold excess. rewrite !flip_signed by (done || lia).
  rewrite !(Z.add_comm _ (2 ^ _)). apply Z.add_compare_mono_l.
Qed.

(** The sign flip makes the encodings of [int16_t], [int32_t] and [int64_t] sort,
    byte by byte, as the numbers do, like those of the unsigned types and of runes. *)
Theorem encoding_preserves_order limits k u v a b :
  ordered k = true -> scalar_fits limits k u -> scalar_fits limits k v ->
  Serialize (scalar_serde limits k) u = Ok a -> Serialize (scalar_serde limits k) v = Ok b ->
  bytes_compare a b = (number k u ?= number k v).
Proof.
  intros Hk Hu Hv Ha Hb.
  assert (Hs : forall w, scalar_fits limits k w -> Serialize (scalar_serde limits k) w = Ok (scalar_enc k w)).
  { intros w Hw. assert (Hc : Codec (scalar_serde limits k) size_max (scalar_enc k) (scalar_fits limits k)).
    { assert (Hm : size_max <= size_max) by lia. destruct k; try done; simpl;
        [by apply UInt8Serde_codec|by apply Int16Serde_codec|by apply UInt16Serde_codec
        |by apply Int32Serde_codec|by apply UInt32Serde_codec|by apply Int64Serde_codec
        |by apply UInt64Serde_codec|by apply UInt32Serde_codec]. }
    apply codec_serialize; [done|]. destruct k; try done; simpl; unfold fixed; rewrite be_len; done. }
  rewrite Hs in Ha, Hb by done. simplify_eq.
  destruct k; try done;
    [exact (be_compare 1 u v Hu Hv)|exact (excess_compare 2 u v ltac:(lia) Hu Hv)
    |exact (be_compare 2 u v Hu Hv)|exact (excess_compare 4 u v ltac:(lia) Hu Hv)
    |exact (be_compare 4 u v Hu Hv)|exact (excess_compare 8 u v ltac:(lia) Hu Hv)
    |exact (be_compare 8 u v Hu Hv)|exact (be_compare 4 u v Hu Hv)].
Qed.
Lemma encoding_preserves_order_witness :
  bytes_compare [127; 255; 255; 254] [128; 0; 0; 1] = (-2 ?= 1).
Proof.
  apply (encoding_preserves_order noLimits KInt32 (-2) 1); vm_compute; try done; split; congruence.
Defined.

(** The single byte of an [int8_t] is not flipped, so negative numbers sort last. *)
Example int8_order :
  bytes_compare (scalar_enc KInt8 (-1)) (scalar_enc KInt8 1) = Gt.
Proof. reflexivity. Qed.

(** ** Arbitrary input: scalars and strings *)

(** Whatever bytes an integer or string serde accepts, the value is in the range of
    its type and within the limits, and encoding it again gives back the bytes that were
    consumed: there is one encoding of each value. *)
Theorem scalar_decode_canonical limits k data v :
  limits_ok limits -> k <> KBool -> Forall is_byte data -> len data <= max_size ->
  Deserialize (scalar_serde limits k) data = Ok v ->
  scalar_fits limits k v /\
  exists consumed rest, data = consumed ++ rest /\ Serialize (scalar_serde limits k) v = Ok consumed.
Proof.
  intros Hl Hk Hb Hm Hd.
  assert (Hc : Canonical (scalar_serde limits k) (scalar_enc k) (scalar_fits limits k)).
  { destruct k; simpl; try done;
      [apply Int8Serde_canonical|apply UInt8Serde_canonical|apply Int16Serde_canonical
      |apply UInt16Serde_canonical|apply Int32Serde_canonical|apply UInt32Serde_canonical
      |apply Int64Serde_canonical|apply UInt64Serde_canonical|apply UInt32Serde_canonical
      |by apply StringSerde_canonical]. }
  destruct (canonical data v Hb Hd) as [Hf [rest ->]]. split; [done|].
  exists (scalar_enc k v), rest. split; [done|].
  pose proof (scalar_serde_codec limits Hl k) as C. rewrite len_app in Hm. pose proof (len_nonneg rest).
  apply codec_serialize; [done|lia].
Qed.
Lemma scalar_decode_canonical_witness :
  scalar_fits noLimits KInt16 (-2) /\
  exists consumed rest, [127; 254; 9] = consumed ++ rest /\
    Serialize (scalar_serde noLimits KInt16) (-2) = Ok consumed.
Proof.
  apply scalar_decode_canonical; [apply noLimits_ok|done|repeat constructor; lia|done|done].
Defined.

(** ** Arbitrary input: fixed-size arrays *)
Definition fixed_array (k : KTy) : bool :=
  match k with
  | KInt16 | KUInt16 | KInt32 | KUInt32 | KInt64 | KUInt64 => true
  | _ => false
  end.

(** What a fixed-size array serde does with any input within the limits: a count
    that the payload cannot hold is rejected at the payload, before the vector is
    reserved; any other input is decoded to exactly the counted elements, whose encodings
    start the payload. *)
Theorem fixed_array_decode_exact U sizeof_U limits k s count payload :
  limits_ok limits -> fixed_array k = true ->
  vector_serde U sizeof_U limits (Scalar k) (Some (scalar_serde limits k)) = Some s ->
  Forall is_byte payload -> 0 <= count <= maxContainerElements limits ->
  8 + len payload <= maxTotalBytes limits -> len payload <= int64_max ->
  (len payload < count * sizeof sizeof_U (Scalar k) ->
     Deserialize s (be 8 count ++ payload) =
       Err (SerdeError "fixed-size array payload is truncated" 8)) /\
  (count * sizeof sizeof_U (Scalar k) <= len payload ->
     exists l rest, len l = count /\ Forall (scalar_fits limits k) l /\
       payload = body (scalar_enc k) l ++ rest /\
       Deserialize s (be 8 count ++ payload) = Ok l).
Proof.
  intros Hl Hk Hs Hb Hc Ht Hm. assert (Hr : size_max <= size_max) by lia.
  assert (Hfix : forall n wire unwire dom (e : Serde Z), (0 < n <= 8)%nat ->
    Codec e size_max (fixed n wire) dom -> WireOnto n dom wire unwire ->
    (len payload < count * Z.of_nat n -> Deserialize (FixedSizeArraySerde limits e (Z.of_nat n)) (be 8 count ++ payload) =
       Err (SerdeError "fixed-size array payload is truncated" 8)) /\
    (count * Z.of_nat n <= len payload ->
       exists l rest, len l = count /\ Forall dom l /\ payload = body (fixed n wire) l ++ rest /\
         Deserialize (FixedSizeArraySerde limits e (Z.of_nat n)) (be 8 count ++ payload) = Ok l)).
  { intros n wire unwire dom e Hn C W. apply fixed_array_decodes; try done; [lia| |].
    - intros v _. unfold fixed. by rewrite be_len.
    - intros bs. by apply (fixed_onto n dom wire unwire). }
  destruct k; try done; injection Hs as <-;
    [apply (Hfix 2%nat (excess 16) (unexcess 16) (signed 16) Int16Serde)
    |apply (Hfix 2%nat id id (unsigned 16) UInt16Serde)
    |apply (Hfix 4%nat (excess 32) (unexcess 32) (signed 32) Int32Serde)
    |apply (Hfix 4%nat id id (unsigned 32) UInt32Serde)
    |apply (Hfix 8%nat (excess 64) (unexcess 64) (signed 64) Int64Serde)
    |apply (Hfix 8%nat id id (unsigned 64) UInt64Serde)];
    first [lia | by apply Int16Serde_codec | by apply UInt16Serde_codec | by apply Int32Serde_codec
          |by apply UInt32Serde_codec | by apply Int64Serde_codec | by apply UInt64Serde_codec
          |apply (excess_onto 2); lia | apply (excess_onto 4); lia | apply (excess_onto 8); lia
          |apply (unsigned_onto 2) | apply (unsigned_onto 4) | apply (unsigned_onto 8)].
Qed.
Lemma fixed_array_decode_exact_witness :
  Deserialize (FixedSizeArraySerde noLimits UInt16Serde 2) (be 8 3 ++ [0; 1; 0; 2; 7]) =
    Err (SerdeError "fixed-size array payload is truncated" 8).
Proof.
  apply (fixed_array_decode_exact unit 1 noLimits KUInt16);
    [apply noLimits_ok|done|done|repeat constructor; lia|vm_compute; split; congruence
    |vm_compute; congruence|vm_compute; congruence|done].
Defined.

(** ** Arbitrary input: maps *)

(** A map is decoded from its two frames: arrays of different sizes are rejected
    behind both frames, a count above the limit is rejected, and otherwise a key that
    occurs more than once keeps its last value. *)
Theorem map_decode_exact {K V} `{Countable K} (iterate : gmap K V -> list (K * V)) limits
    (ks : Serde (list K)) (vs : Serde (list V)) keysPayload valuesPayload keys values rest :
  limits_ok limits ->
  16 + len keysPayload + len valuesPayload + len rest <= maxTotalBytes limits ->
  Deserialize ks keysPayload = Ok keys -> Deserialize vs valuesPayload = Ok values ->
  Deserialize (MapSerde iterate limits ks vs)
    (be 8 (len keysPayload) ++ keysPayload ++ be 8 (len valuesPayload) ++ valuesPayload ++ rest) =
  if negb (len keys =? len values)
  then Err (SerdeError "map key/value count mismatch" (16 + len keysPayload + len valuesPayload))
  else if maxContainerElements limits <? len keys
  then Err (SerdeError "map exceeds configured element limit" 0)
  else Ok (list_to_map (reverse (zip keys values))).
Proof.
  intros Hl Ht Hk Hv. pose proof (total_size limits Hl) as Hts. unfold in_size in Hts.
  pose proof (len_nonneg keysPayload). pose proof (len_nonneg valuesPayload). pose proof (len_nonneg rest).
  cbn [Deserialize MapSerde]. unfold Map_Deserialize.
  rewrite make_reader_after by (rewrite !len_app, !be_len; lia). cbn [rbind]. unfold read_frame at 1.
  rewrite read_size_after by lia. cbn [rbind]. rewrite read_after. cbn [rbind]. rewrite Hk. cbn [rbind].
  unfold read_frame. rewrite read_size_after by lia. cbn [rbind]. rewrite read_after. cbn [rbind].
  rewrite Hv. cbn [rbind]. rewrite insert_all_list_to_map. unfold after at 1. cbn [offset_].
  rewrite !len_app, !be_len, len_nil.
  replace (0 + Z.of_nat 8 + len keysPayload + Z.of_nat 8 + len valuesPayload)
    with (16 + len keysPayload + len valuesPayload) by lia. done.
Qed.
Lemma map_decode_exact_witness :
  Deserialize (MapSerde map_to_list noLimits (FixedSizeArraySerde noLimits UInt16Serde 2)
                 (StringArraySerde noLimits))
    (be 8 12 ++ (be 8 2 ++ [0; 5; 0; 5]) ++ be 8 26 ++ (be 8 2 ++ be 8 1 ++ [65] ++ be 8 1 ++ [66]) ++ []) =
  Ok ({[ 5 := [66] ]} : gmap Z SerdeData).
Proof.
  etransitivity;
    [apply (map_decode_exact map_to_list noLimits (FixedSizeArraySerde noLimits UInt16Serde 2)
       (StringArraySerde noLimits) (be 8 2 ++ [0; 5; 0; 5]) (be 8 2 ++ be 8 1 ++ [65] ++ be 8 1 ++ [66])
       [5; 5] [[65]; [66]] [])
    |reflexivity]; [apply noLimits_ok|vm_compute; congruence|reflexivity|reflexivity].
Defined.

(** ** Which types resolve *)
Fixpoint has_user_type (t : Ty) : bool :=
  match t with
  | TVector t | TMap _ t => has_user_type t
  | TUser => true
  | _ => false
  end.

Section Resolution.
Context (U : Type) (sizeof_U : Z).
Context (iterate : forall k t, gmap (kval k) (val U t) -> list (kval k * val U t)).
Context (limits : SerdeLimits).
Local Abbreviation make := (MakeDefaultSerde U sizeof_U iterate limits).
Local Abbreviation vector := (vector_serde U sizeof_U limits).

Lemma vector_not_stub t e s :
  (forall s, e = Some s -> IsStub s = false) -> vector t e = Some s -> IsStub s = false.
Proof.
  intros He Hs. destruct t as [[]| | | | | |]; simpl in Hs; destruct e as [s'|]; simplify_eq/=; auto.
Qed.
Lemma vector_exists t e : e <> None -> exists s, vector t e = Some s.
Proof. intros He. destruct e as [s|]; [|done]. destruct t as [[]| | | | | |]; simpl; eauto. Qed.
Lemma vector_user t : has_user_type t = true -> vector t None = None.
Proof. by destruct t as [[]| | | | | |]. Qed.

Lemma scalar_not_stub k s : Some (scalar_serde limits k) = Some s -> IsStub s = false.
Proof. intros [= <-]. by destruct k. Qed.

Lemma default_not_stub t s : make t = Some s -> IsStub s = false.
Proof.
  revert s. induction t as [k| | | |t IH|k t IH|]; intros s Hs; cbn [MakeDefaultSerde] in Hs; simplify_eq; try done.
  - by apply (scalar_not_stub k).
  - by apply (vector_not_stub t (make t)).
  - destruct (vector (Scalar k) _) as [keys|] eqn:Hk; [|done]. simpl in Hs.
    destruct (vector t _) as [values|] eqn:Hv; [|done]. simpl in Hs. simplify_eq.
    apply orb_false_intro; [|by apply (vector_not_stub t (make t))].
    by apply (vector_not_stub (Scalar k) _ keys (scalar_not_stub k)).
Qed.

Lemma default_exists t : if has_user_type t then make t = None else make t <> None.
Proof.
  induction t as [k| | | |t IH|k t IH|]; try done; cbn [has_user_type MakeDefaultSerde];
    destruct (has_user_type t) eqn:Hu.
  - rewrite IH. by apply vector_user.
  - destruct (vector_exists t (make t) IH) as [s ->]. done.
  - rewrite IH, vector_user by done. by destruct (vector (Scalar k) _).
  - destruct (vector_exists t (make t) IH) as [s ->].
    by destruct (vector_exists (Scalar k) (Some (scalar_serde limits k))) as [ks ->].
Qed.

(** C19. A default serde exists for exactly the types without a user type in them, and is
    never a stub.  A user type by itself resolves to a stub, which throws and leaves the
    output as it was; a vector of a user type, though it passes the test
    [kHasDefaultSerde], resolves to nothing. *)
Theorem default_resolution t :
  (has_user_type t = false <-> exists s, make t = Some s) /\
  (forall s, make t = Some s -> IsStub s = false) /\
  resolve_or_stub U sizeof_U iterate limits TUser = Some (StubSerde U) /\
  (forall v output, SerializeTo (StubSerde U) v output =
     (output, Err (RuntimeError "serde for type is not implemented"))) /\
  kHasDefaultSerde (TVector TUser) = true /\
  resolve_or_stub U sizeof_U iterate limits (TVector TUser) = None.
Proof.
  split; [|split; [apply default_not_stub|done]].
  pose proof (default_exists t) as He. destruct (has_user_type t); destruct (make t) eqn:E; split;
    try done; eauto. by intros [? ?].
Qed.
End Resolution.

(** The witnesses use the order of [gmap] and the unit type as a user type. *)
Definition iterate_gmap (k : KTy) (t : Ty) (m : gmap (kval k) (val unit t)) : list (kval k * val unit t) :=
  map_to_list m.

(** A map from strings to vectors of [int32_t]. *)
Definition sample : val unit (TMap KString (TVector (Scalar KInt32))) := {[ [97; 98] := [-1; 7] ]}.

(** Ranges of concrete values. *)
Local Ltac check_ranges :=
  repeat first [apply Forall_nil_2 | apply Forall_cons_2 | progress cbn [list_fmap fmap fst snd] | split | vm_compute; congruence].

Lemma default_serde_roundtrip_witness :
  exists s data,
    MakeDefaultSerde unit 1 iterate_gmap noLimits (TMap KString (TVector (Scalar KInt32))) = Some s /\
    Serialize s sample = Ok data /\ Deserialize s (data ++ [0]) = Ok sample.
Proof.
  destruct (default_serde_roundtrip unit 1 iterate_gmap (fun k t m => Permutation_refl _) noLimits noLimits_ok
    (TMap KString (TVector (Scalar KInt32))) _ sample [] eq_refl) as (data & Hd & _ & _ & Hr).
  - unfold fits, map_dom. change (iterate_gmap KString (TVector (Scalar KInt32)) sample) with [([97; 98], [-1; 7])].
    check_ranges.
  - vm_compute. congruence.
  - eexists _, data. split; [reflexivity|]. split; [exact Hd|]. apply Hr.
    vm_compute in Hd. injection Hd as <-. vm_compute. congruence.
Defined.

Lemma key_value_roundtrip_witness :
  exists s, MakeDefaultStreamKeyValueSerde unit 1 iterate_gmap noLimits (Scalar KString) (Scalar KInt64) = Some (Ok s) /\
    exists data, KeyValue_Serialize s ([97], -5) = Ok data /\ KeyValue_Deserialize s data = Ok ([97], -5).
Proof.
  eexists. split; [reflexivity|].
  apply (key_value_roundtrip unit 1 iterate_gmap (fun k t m => Permutation_refl _) noLimits noLimits_ok
    (Scalar KString) (Scalar KInt64) _ [97] (-5) eq_refl);
    check_ranges.
Defined.

(** ** Type erasure *)

(** Through the type-erased interface a serde accepts exactly the values of its own
    type, with the result of the typed functions, and what it decodes casts back to that
    type and no other. *)
Theorem erased_serde U (t : Ty) (serde : Serde (val U t)) :
  (forall v output, SerializeObj U serde (any_of U t v) = Serialize serde v /\
     SerializeObjTo U serde (any_of U t v) output = SerializeTo serde v output) /\
  (forall t' (v : val U t') output, t' <> t ->
     SerializeObj U serde (any_of U t' v) = Err (InvalidArgument "serde object type mismatch") /\
     SerializeObjTo U serde (any_of U t' v) output =
       (output, Err (InvalidArgument "serde object type mismatch"))) /\
  (forall data value, DeserializeObj U serde data = Ok value ->
     exists v, any_cast U t value = Some v /\ Deserialize serde data = Ok v /\
       forall t', t' <> t -> any_cast U t' value = None).
Proof.
  assert (Hsame : forall v, any_cast U t (any_of U t v) = Some v).
  { intros v. unfold any_cast. simpl. destruct (decide (t = t)) as [e|]; [|done].
    by rewrite (UIP_dec Ty_eq_dec e eq_refl). }
  assert (Hother : forall t1 t2 v, t1 <> t2 -> any_cast U t2 (any_of U t1 v) = None).
  { intros t1 t2 v Ht. unfold any_cast. simpl. by destruct (decide (t1 = t2)). }
  unfold SerializeObj, SerializeObjTo. split; [|split].
  - intros v output. by rewrite Hsame.
  - intros t' v output Ht. by rewrite Hother.
  - intros data value Hd. unfold DeserializeObj in Hd. apply rbind_Ok_inv in Hd as (v & Hv & Hd). simplify_eq.
    exists v. split; [apply Hsame|]. split; [done|]. intros t' Ht. by apply Hother.
Qed.

(** ** Limits *)
Section Limits.
Context (U : Type) (sizeof_U : Z).
Context (iterate : forall k t, gmap (kval k) (val U t) -> list (kval k * val U t)).
Context (limits : SerdeLimits).

(** No string, byte vector or container of a value is larger than the limits say. *)
Definition scalar_within (k : KTy) : kval k -> Prop :=
  match k with KString => fun v => len v <= maxStringBytes limits | _ => fun _ => True end.
Definition vector_within (t : Ty) : (val U t -> Prop) -> list (val U t) -> Prop :=
  match t with
  | Scalar KUInt8 => fun _ l => len l <= maxBytes limits
  | _ => fun within l => len l <= maxContainerElements limits /\ Forall within l
  end.
Fixpoint within (t : Ty) : val U t -> Prop :=
  match t with
  | Scalar k => scalar_within k
  | TBytes => fun v => len v <= maxBytes limits
  | TVector t => vector_within t (within t)
  | TMap k t => fun m =>
      Z.of_nat (size m) <= maxContainerElements limits /\
      map_Forall (fun key value => scalar_within k key /\ within t value) m
  | _ => fun _ => True
  end.
Context (Hlimits : limits_ok limits).

Lemma sized_within total maximum lengthOf what data v :
  0 <= maximum -> sized_Deserialize total maximum lengthOf what data = Ok v ->
  len v <= maximum /\ len data <= total.
Proof.
  intros Hm Hd. unfold sized_Deserialize, make_reader in Hd.
  destruct (Z.ltb_spec total (len data)) as [|Ht]; [done|]. split; [|done].
  apply rbind_Ok_inv in Hd as (r & _ & Hd). apply rbind_Ok_inv in Hd as ([n r'] & Hn & Hd).
  apply rbind_Ok_inv in Hd as ([bs r''] & Hbs & Hd). simplify_eq.
  apply read_size_le in Hn. apply read_le in Hbs. lia.
Qed.

Lemma read_all_Forall {T} (rd : Reader -> result Exception (T * Reader)) (P : T -> Prop) n r l r' :
  (forall r v r', rd r = Ok (v, r') -> P v) -> read_all rd n r = Ok (l, r') -> Forall P l.
Proof.
  intros HP. revert r l r'. induction n as [|n IH]; intros r l r' Hr; simpl in Hr; [by simplify_eq|].
  apply rbind_Ok_inv in Hr as ([v r1] & Hv & Hr). apply rbind_Ok_inv in Hr as ([vs r2] & Hvs & Hr).
  simplify_eq. constructor; eauto.
Qed.

(** The common shape of the three array decoders. *)
Lemma counted_within {T} (rd : Reader -> result Exception (T * Reader)) (P : T -> Prop) what data
    (k : Z -> Reader -> result Exception unit) v :
  (forall r v r', rd r = Ok (v, r') -> P v) ->
  rbind (make_reader data (maxTotalBytes limits)) (fun reader =>
    rbind (read_size (maxContainerElements limits) what reader) (fun '(count, reader) =>
      rbind (k count reader) (fun _ =>
        rbind (read_all rd (Z.to_nat count) reader) (fun '(items, _) => Ok items)))) = Ok v ->
  (len v <= maxContainerElements limits /\ Forall P v) /\ len data <= maxTotalBytes limits.
Proof.
  intros HP Hd. unfold make_reader in Hd.
  destruct (Z.ltb_spec (maxTotalBytes limits) (len data)) as [|Ht]; [done|]. split; [|done].
  apply rbind_Ok_inv in Hd as (r & _ & Hd). apply rbind_Ok_inv in Hd as ([n r'] & Hn & Hd).
  apply rbind_Ok_inv in Hd as (u & _ & Hd). apply rbind_Ok_inv in Hd as ([items r''] & Hi & Hd). simplify_eq.
  apply read_size_le in Hn. pose proof (read_all_length _ _ _ _ _ Hi) as Hl.
  split; [|by eapply read_all_Forall]. destruct Hlimits as (_ & _ & [? _] & _). unfold len. lia.
Qed.

Lemma insert_all_within {K V} `{Countable K} (P : K -> Prop) (Q : V -> Prop) keys values :
  Forall P keys -> Forall Q values ->
  map_Forall (fun k v => P k /\ Q v) (insert_all (zip keys values)).
Proof.
  intros Hk Hv k v Hl. rewrite insert_all_list_to_map in Hl.
  apply elem_of_list_to_map_2 in Hl. rewrite elem_of_reverse in Hl.
  apply elem_of_zip_with in Hl as (x & y & [= -> ->] & Hx & Hy).
  split; [by eapply Forall_forall in Hk|by eapply Forall_forall in Hv].
Qed.

Lemma insert_all_size {K V} `{Countable K} (l : list (K * V)) : (size (insert_all l) <= length l)%nat.
Proof.
  rewrite insert_all_list_to_map, <- length_reverse. induction (reverse l) as [|[k v] l' IH]; [done|].
  simpl. rewrite map_size_insert. destruct (list_to_map l' !! k); simpl; lia.
Qed.
(** The types whose serdes check the size of their input. *)
Definition checks_total (t : Ty) : bool :=
  match t with Scalar KString | TBytes | TVector _ | TMap _ _ => true | _ => false end.

Definition decodes_within {T} (P : T -> Prop) (checked : bool) (s : Serde T) : Prop :=
  forall data v, Deserialize s data = Ok v ->
    P v /\ (checked = true -> len data <= maxTotalBytes limits).

Lemma scalar_decodes_within k :
  decodes_within (scalar_within k) (checks_total (Scalar k)) (scalar_serde limits k).
Proof.
  intros data v Hd. destruct k; try done. simpl in Hd. destruct Hlimits as ([? _] & _).
  by apply sized_within in Hd as [? ?].
Qed.

Lemma array_decodes_within {T} (P : T -> Prop) b sizeof s :
  decodes_within P b s ->
  decodes_within (fun l => len l <= maxContainerElements limits /\ Forall P l) true (ArraySerde limits sizeof s).
Proof.
  intros Hs data v Hd. cbn [Deserialize ArraySerde] in Hd. unfold Array_Deserialize in Hd.
  eapply (counted_within _ P _ _ (fun count _ => reserve sizeof count)) in Hd; [tauto|].
  intros r w r' Hr. unfold read_frame in Hr. apply rbind_Ok_inv in Hr as ([n r1] & _ & Hr).
  apply rbind_Ok_inv in Hr as ([bs r2] & _ & Hr). apply rbind_Ok_inv in Hr as (x & Hx & Hr). simplify_eq.
  by apply Hs in Hx as [? _].
Qed.

Lemma fixed_decodes_within {T} (s : Serde T) n :
  decodes_within (fun l => len l <= maxContainerElements limits /\ Forall (fun _ => True) l) true
    (FixedSizeArraySerde limits s n).
Proof.
  intros data v Hd. cbn [Deserialize FixedSizeArraySerde] in Hd. unfold FixedSizeArray_Deserialize in Hd.
  enough ((len v <= maxContainerElements limits /\ Forall (fun _ => True) v) /\ len data <= maxTotalBytes limits)
    by tauto.
  match type of Hd with context [read_all ?rd] =>
    eapply (counted_within rd (fun _ => True) "array count" data (fun count reader =>
      if remaining reader / n <? count
      then Err (SerdeError "fixed-size array payload is truncated" (offset_ reader))
      else reserve n count)) end; [done|].
  revert Hd. destruct (make_reader data _) as [r|e]; [|done]. cbn [rbind].
  destruct (read_size _ _ r) as [[count r']|e]; [|done]. cbn [rbind].
  by destruct (remaining r' / n <? count).
Qed.

Lemma string_array_decodes_within :
  decodes_within (fun l => len l <= maxContainerElements limits /\
    Forall (fun v => len v <= maxStringBytes limits) l) true (StringArraySerde limits).
Proof.
  intros data v Hd. cbn [Deserialize StringArraySerde] in Hd. unfold StringArray_Deserialize in Hd.
  eapply (counted_within _ (fun v => len v <= maxStringBytes limits) _ _ (fun count _ => reserve sizeof_string count))
    in Hd; [tauto|].
  intros r w r' Hr. apply rbind_Ok_inv in Hr as ([n r1] & Hn & Hr). apply read_size_le in Hn. apply read_le in Hr.
  destruct Hlimits as ([? _] & _). lia.
Qed.

Lemma vector_decodes_within t e s :
  (forall s, e = Some s -> decodes_within (within t) (checks_total t) s) ->
  vector_serde U sizeof_U limits t e = Some s -> decodes_within (vector_within t (within t)) true s.
Proof.
  intros He Hs. assert (Hbytes : decodes_within (fun v => len v <= maxBytes limits) true (BasicBytesSerde limits)).
  { intros data v Hd. destruct Hlimits as (_ & [? _] & _). by apply sized_within in Hd as [? ?]. }
  assert (Hgen : ArraySerde limits (sizeof sizeof_U t) <$> e = Some s ->
    decodes_within (fun l => len l <= maxContainerElements limits /\ Forall (within t) l) true s).
  { intros Hg. destruct e as [s'|]; simplify_eq/=. eapply array_decodes_within. by apply He. }
  destruct t as [[]| | | | | |]; try (by apply Hgen); simpl in Hs; simplify_eq;
    try apply fixed_decodes_within; [exact Hbytes|apply string_array_decodes_within].
Qed.

Lemma vector_within_Forall t l : vector_within t (within t) l -> Forall (within t) l.
Proof.
  destruct t as [[]| | | | | |]; try (by intros [_ ?]). intros _. by apply Forall_forall.
Qed.

Lemma map_decodes_within k t keys values :
  decodes_within (vector_within (Scalar k) (scalar_within k)) true keys ->
  decodes_within (vector_within t (within t)) true values ->
  decodes_within (within (TMap k t)) true (MapSerde (iterate k t) limits keys values).
Proof.
  intros Hk Hv data m Hd. cbn [Deserialize MapSerde] in Hd. unfold Map_Deserialize, make_reader in Hd.
  destruct (Z.ltb_spec (maxTotalBytes limits) (len data)) as [|Ht]; [done|]. split; [|done].
  apply rbind_Ok_inv in Hd as (r & _ & Hd). apply rbind_Ok_inv in Hd as ([ks r1] & Hks & Hd).
  apply rbind_Ok_inv in Hd as ([vs r2] & Hvs & Hd). unfold read_frame in Hks, Hvs.
  apply rbind_Ok_inv in Hks as ([n1 q1] & _ & Hks). apply rbind_Ok_inv in Hks as ([b1 q2] & _ & Hks).
  apply rbind_Ok_inv in Hks as (x & Hx & Hks). apply rbind_Ok_inv in Hvs as ([n2 q3] & _ & Hvs).
  apply rbind_Ok_inv in Hvs as ([b2 q4] & _ & Hvs). apply rbind_Ok_inv in Hvs as (y & Hy & Hvs). simplify_eq.
  apply Hk in Hx as [Hx%(vector_within_Forall (Scalar k)) _]. apply Hv in Hy as [Hy%vector_within_Forall _].
  repeat split_case_in Hd; simplify_eq. bool_to_prop. split; [|by apply insert_all_within].
  pose proof (insert_all_size (zip ks vs)) as Hsz. rewrite length_zip_with in Hsz.
  etransitivity; [apply Nat2Z.inj_le; exact Hsz|]. unfold len in *. lia.
Qed.

(** Decoding respects the limits on every level, whatever the input: a result has no
    string longer than [maxStringBytes], no byte vector longer than [maxBytes] and no
    array or map with more than [maxContainerElements] elements, and an input longer than
    [maxTotalBytes] gives no result. *)
Theorem decode_within_limits t s data v :
  MakeDefaultSerde U sizeof_U iterate limits t = Some s -> Deserialize s data = Ok v ->
  within t v /\ (checks_total t = true -> len data <= maxTotalBytes limits).
Proof.
  intros Hs. revert data v. change (decodes_within (within t) (checks_total t) s). revert s Hs.
  induction t as [k| | | |t IH|k t IH|]; intros s Hs; cbn [MakeDefaultSerde] in Hs; simplify_eq; try done.
  - apply scalar_decodes_within.
  - intros data v Hd. destruct Hlimits as (_ & [? _] & _). by apply sized_within in Hd as [? ?].
  - by apply (vector_decodes_within t (MakeDefaultSerde U sizeof_U iterate limits t)).
  - destruct (vector_serde U sizeof_U limits (Scalar k) _) as [keys|] eqn:Hk; [|done]. simpl in Hs.
    destruct (vector_serde U sizeof_U limits t _) as [values|] eqn:Hv; [|done]. simpl in Hs. simplify_eq.
    apply map_decodes_within.
    + apply (vector_decodes_within (Scalar k) _ keys) in Hk; [done|].
      intros s [= <-]. apply scalar_decodes_within.
    + by apply (vector_decodes_within t _ values) in Hv.
Qed.
End Limits.

Lemma decode_within_limits_witness :
  exists s, MakeDefaultSerde unit 1 iterate_gmap (mkLimits 3 4 2 100) (TVector (Scalar KString)) = Some s /\
    within unit (mkLimits 3 4 2 100) (TVector (Scalar KString)) [[65]; []] /\
    len (be 8 2 ++ be 8 1 ++ [65] ++ be 8 0) <= 100.
Proof.
  eexists. split; [reflexivity|].
  destruct (decode_within_limits unit 1 iterate_gmap (mkLimits 3 4 2 100)
    ltac:(vm_compute; repeat split; congruence) (TVector (Scalar KString)) _
    (be 8 2 ++ be 8 1 ++ [65] ++ be 8 0) [[65]; []] eq_refl eq_refl) as [Hw Hd].
  split; [exact Hw|]. exact (Hd eq_refl).
Defined.

(** ** Counts of hostile input *)

(** The generic array serde and the string array serde reserve the count of the header
    before they look at the payload: with the default limits an eight-byte input makes
    them throw [std::length_error] instead of a [SerdeError], whatever follows. *)
Theorem hostile_count_escapes {T} (valueSerde : Serde T) sizeofT count payload :
  1 <= sizeofT -> int64_max < count <= size_max -> 8 + len payload <= size_max ->
  Deserialize (ArraySerde noLimits sizeofT valueSerde) (be 8 count ++ payload) = Err LengthError /\
  Deserialize (StringArraySerde noLimits) (be 8 count ++ payload) = Err LengthError.
Proof.
  intros Hs Hc Hp. assert (Hr : forall size, 1 <= size -> reserve size count = Err LengthError).
  { intros size Hsize. unfold reserve, vector_max_size.
    destruct (Z.ltb_spec (int64_max / size) count); [done|].
    pose proof (Z.div_le_upper_bound int64_max size int64_max). unfold int64_max in *. nia. }
  assert (Hsz : 0 <= count) by (unfold int64_max in Hc; lia).
  split; cbn [Deserialize ArraySerde StringArraySerde]; unfold Array_Deserialize, StringArray_Deserialize;
    (rewrite make_reader_after by (rewrite len_app, be_len; cbn [maxTotalBytes noLimits]; lia)); cbn [rbind];
    cbn [maxContainerElements noLimits]; rewrite read_size_after by lia; cbn [rbind]; rewrite Hr; done || lia.
Qed.
Lemma hostile_count_escapes_witness :
  Deserialize (StringArraySerde noLimits) (be 8 (2 ^ 63) ++ []) = Err LengthError.
Proof. apply (hostile_count_escapes BoolSerde 1 (2 ^ 63) []); vm_compute; try split; congruence. Defined.
